(* ===== verification/_CoqProject ===== *)
-Q . S2P
Prelude.v
IndexEntry.v
IndexChunk.v
Log.v
Stats.v
IndexTable.v
IndexEnact.v
ValueEntry.v
File.v
ValueTable.v
ValueSlots.v
ValueChains.v
ValueWrite.v
ValueRead.v
ValueInv.v
ValueSpec.v
ValueFile.v
ValueTheorems.v
Compress.v
Options.v
Column.v
ColumnEnact.v
ColumnSearch.v
ColumnIndex.v
ColumnTables.v
ColumnValues.v
ColumnRecord.v
ColumnInv.v
ColumnWrite.v
ColumnTheorems.v
ColumnReindex.v
RecordItems.v
ColumnApply.v
ColumnPipeline.v
ColumnRecover.v
KeyOrder.v
BTreeNode.v
BTree.v
LogFiles.v
LogQueue.v
LogRecords.v
LogReopen.v
Commit.v
ColumnPlan.v
ColumnPublish.v
CommitView.v
Db.v
DbEnact.v
DbTheorems.v
DbPipeline.v
DbPlan.v
DbReplay.v
DbRecover.v
DbTorn.v
DbFresh.v
DbRun.v
DbDurability.v
BTreeColumn.v
BTreeIter.v
BTreeItems.v
BTreeShape.v
BTreeSiblings.v
BTreeCodec.v
BTreeStore.v
BTreeLogic.v
BTreeRep.v
BTreeOps.v
BTreeBalance.v
BTreeChange.v
BTreeRoot.v
BTreeRead.v
BTreeTheorems.v
BTreeWalk.v
BTreeCursor.v
BTreeIterTheorems.v
Directory.v
Migration.v
MigrationTheorems.v
