(* ===== verification/Prelude.v ===== *)
(** * Verification of parity-db

    parity-db is an embedded key-value store.  This development models its sources
    (the crate under src/src/) as Rocq functions and proves what makes them correct.

    ** The program and its model

    A database is a list of columns over one write-ahead log.  A commit is put in a queue and,
    at once, in an overlay that readers consult first.  A background step takes a commit from
    the queue, plans its changes against the columns, and writes them to the log as one record;
    the planned changes stay in a second overlay, the log overlay, until another step enacts the
    record on the files.  A hash column consists of an index table (keys to addresses), the
    older index tables it is being rebuilt from, and 256 value tables of growing slot size.
    A tree column stores the nodes of a B-tree in value tables of the same kind.

    - Prelude: outcomes ([Ok], [Err], [Panic], [NoFuel]), the state monad [M], machine
      integers as [Z] with their wrap-around, byte strings, little-endian codecs, slices that
      panic out of range; error.rs.
    - IndexEntry, IndexChunk, IndexTable, IndexEnact: index.rs.  Packing of entries, the scalar
      and the SSE2 search in a chunk, plans, enacting, validation, statistics in the file.
    - Log: records, overlays, writer, reader of log.rs.  LogFiles: the struct [Log] and its
      files.  LogQueue: its theorems.
    - Stats: stats.rs.  Compress: compress.rs.  File: file.rs.  Options: options.rs and
      [Db::add_column].
    - ValueEntry, ValueTable: table.rs.  ValueSlots (contents of a slot), ValueChains (free list
      and chains), ValueWrite ([overwrite_chain]), ValueRead ([for_parts]), ValueInv (the
      contract), ValueSpec (each operation against the contract), ValueFile (from the log to the
      file), ValueTheorems (the statements and instances).
    - Column, ColumnEnact: column.rs.  ColumnSearch (the walk over the entries of a key),
      ColumnIndex (the index as a map), ColumnTables (the 256 tables), ColumnInv (the contract),
      ColumnValues (the 256 tables as one map), ColumnRecord (what a plan adds to the record),
      ColumnWrite (each plan against the contract), ColumnTheorems, ColumnReindex.
    - From a commit to the files.  RecordItems: a record as a list of items, and the overlays as
      the items of the records that wait.  LogRecords: the files of the log as lists of records.
      LogReopen: the log opened on the files of a crash.  ColumnApply: an item enacted on the
      files of a column.  ColumnPipeline: what readers see while records wait.  ColumnPlan: the
      changes of a commit planned on a column.  ColumnPublish: the record added to the log.
      ColumnRecover: a column opened on damaged files and replayed.
    - KeyOrder: the order of keys.  BTreeNode, BTree: node.rs and btree.rs, with the encoding of
      nodes and the planning of btree/mod.rs.  BTreeColumn: [BTreeTable], the instance of the
      class [TreeColumn] by which the database knows its tree columns.  BTreeIter: iter.rs.
      BTreeItems (changes of an ordered list of entries), BTreeShape (the arrays of a node),
      BTreeSiblings (moving entries between nodes), BTreeCodec (the encoding), BTreeStore (the
      values of a column as a heap of nodes, values and the header), BTreeLogic (a separation
      logic over that heap, with credits for the free slots a plan may use), BTreeRep (trees in
      the heap), BTreeOps, BTreeBalance, BTreeChange, BTreeRoot (each operation against the
      representation), BTreeRead (searching), BTreeTheorems.  BTreeWalk (the stack of an
      iterator as a position in the list of entries), BTreeCursor (merging with the commit
      overlay), BTreeIterTheorems.
    - Commit: the commit overlay and the change sets of db.rs and btree/mod.rs.  CommitView: its
      theorems.  Db, DbEnact: [DbInner] of db.rs, from opening and replay to shutdown, each step
      of a worker thread as one function.  DbTheorems: its errors.  DbPipeline ([enact_logs]),
      DbPlan ([process_commits]), DbReplay (replaying the log), DbTorn (a record that is cut
      off), DbRecover (opening after a crash), DbFresh (a new database), DbRun (the database as
      a transition system), DbDurability (the theorems about the database as a whole).
    - Directory: the names of files, and a database opened from and closed to a directory.
      Migration: migration.rs.  MigrationTheorems: its theorems.

    Definitions keep the names of the source, prefixed with the type where a name occurs twice
    ([IndexTable_enact_plan] and [ValueTable_enact_plan]).  A method that changes an object is a
    function in the monad [M] over the object (and the log it writes to); a [Result] is an
    [outcome]; a panic is the value [Panic].

    ** What is proved

    - The database: [db_ready] relates a database of hash columns to the records of its log (those
      enacted but still in the log, and those that wait) and to the contents of its columns.
      Writing a commit to the log refines the changes of the commit on the contents; enacting a
      record keeps them; opening after a crash restores them, whatever part of a record was
      being written to the log and whatever the tables hold at the places the log mentions; a
      new database is empty.  [db_run] interleaves these steps with flushing, cleaning,
      reindexing, reading and queueing commits; after any run from a new database a reader gets
      what the commits of the log give in their order (DbDurability).  The steps assume that the
      changes of a commit fit ([commit_fits]: no chunk of the index is full, the tables have
      room below their limits) and that the log files can be numbered in 32 bits; that files
      which cleaning removes from the log were synced to the tables is what [crashed] says.
    - Value tables: [table_inv] says that a table and a log represent a finite map from addresses
      to values, each value in a chain of slots of its own, the free slots in the free list, no
      slot lost or used twice.  Inserting, replacing, removing, counting references and reading
      refine the operations on that map; the header restores the allocation state
      (ValueTheorems).
    - Index tables: the vector search agrees with the scalar one, except for small indexes where
      it may also report false matches but misses nothing (IndexChunk); a key is recovered from
      its position (IndexEntry); a mask and the masked entries restore a chunk (IndexEnact).
    - Hash columns: [col_inv] relates a column that is not being reindexed to a finite map from
      keys to values; reading is lookup and each change refines the abstract step of a
      reference-counted map (ColumnTheorems).  A batch of a reindexing covers consecutive
      chunks (ColumnReindex).
    - Tree columns: [tree_holds] says that the values of a column are exactly the header, the
      nodes of a balanced B-tree and the values of its entries.  Reading a key is lookup in the
      ordered list of entries, planning a list of changes refines the steps of each key in the
      order of the list, the height is logarithmic, and nodes are read back as written
      (BTreeTheorems).  A step of an iterator returns the next key for a reader, and a whole
      iteration ends and lists the column in order (BTreeIterTheorems).
    - Migration: clearing a column touches the files of that column only (MigrationTheorems).
    - Log: the files are one queue of bytes, each file in one place (LogQueue).
    - Commits: readers see the committed changes in order at every moment of the background
      processing (CommitView).
    - Round trips of the statistics and of the metadata file (Stats, Options).
    - Errors: where the code departs from what it means to do, the theorem states what it does
      ([moved_value_is_lost], [refused_commit_stays_visible], [add_column_rehashes_keys],
      [value_v4_head_not_found], [index_validate_accepts_bad_chunk],
      [seek_to_last_keeps_pending], [migration_empties_counted_values]).

    ** Fuel

    Loops that are not structural take fuel: a chain of slots, the number of filled slots plus
    one; splitting a value, the bytes to write plus one; the search in a chunk, its 64 entries
    plus one; growing an index, 256 (its bits are a byte); a record, the bytes left in the log
    plus one; a log, its bytes plus two; a search in a tree, the slots in use plus one; a list of
    changes, its length; a step of an iterator, twice the height plus six, and one more round
    per entry of the overlay.  Every theorem that an operation returns says that it
    returns [Ok], so the fuel is enough there.

    ** What is not modelled

    The functions of other crates (crc32fast, blake2, siphasher, lz4, snap, hex, rand) are
    parameters with the laws the code relies on.  The threads are modelled by the interleavings of
    their steps; locks and the condition variables that throttle them are not modelled: a step
    is not interrupted, and a step that would wait is a step that happens later.
    Flushing to disk (fsync, msync), memory mapping, advice to the kernel, the lock file, the
    texts of log messages, [dump] and [write_stats_text] have no counterpart.  Errors of the
    file system do not occur while tables and logs are written.

    ** Limits

    The theorems about the whole database are about hash columns that are not being reindexed:
    a commit that needs a larger index is outside them ([moved_value_is_lost] shows why such a
    commit has no simple contract), and the tree columns are proved up to the plan of a record
    and the reading of it, not through the log.  That a migrated column has the contents of its
    source is not proved.  The administration tool, the fuzzing harness and the wrappers of
    locks are not modelled: they hold no logic of the store of their own. *)

From stdpp Require Export prelude gmap list list_numbers strings.
From Stdlib Require Export ZArith Lia.
From Stdlib Require Strings.Byte.

#[global] Open Scope Z_scope.

(** ** Errors and outcomes

    [error] is [error::Error] of src/src/error.rs with its constructors.  A formatted
    message is represented by its literal text.  [outcome] adds to Rust's [Result] the
    panic (a failed assertion, an out-of-range slice, an [unwrap] of [None]) and
    [NoFuel], the value of a loop that did not finish within the fuel it was given. *)
Inductive io_kind := UnexpectedEof | NotFound | OtherIo.

Inductive error :=
  | Io (k : io_kind)
  | Corruption (msg : string)
  | InvalidConfiguration (msg : string)
  | IncompatibleColumnConfig (id : Z) (reason : string)
  | InvalidInput (msg : string)
  | InvalidValueData
  | Background (e : error)
  | Locked (k : io_kind)
  | Migration (msg : string)
  | Compression
  | DatabaseNotFound.

Inductive outcome (A : Type) :=
  | Ok (a : A)
  | Err (e : error)
  | Panic
  | NoFuel.
Arguments Ok {A} a.
Arguments Err {A} e.
Arguments Panic {A}.
Arguments NoFuel {A}.

#[export] Instance io_kind_eq_dec : EqDecision io_kind.
Proof. solve_decision. Defined.
#[export] Instance error_eq_dec : EqDecision error.
Proof. solve_decision. Defined.

#[export] Instance outcome_ret : MRet outcome := λ A a, Ok a.
#[export] Instance outcome_bind : MBind outcome := λ A B k m,
  match m with Ok a => k a | Err e => Err e | Panic => Panic | NoFuel => NoFuel end.

(** ** A state monad that keeps the state on every exit

    Rust methods take [&self] with interior mutability, or [&mut self]: an early return
    with an error leaves the mutations done so far in place, so the state is returned
    next to the outcome. *)
Definition M (S A : Type) : Type := S → outcome A * S.

#[export] Instance M_ret {S} : MRet (M S) := λ A a s, (Ok a, s).
#[export] Instance M_bind {S} : MBind (M S) := λ A B k m s,
  match m s with
  | (Ok a, s') => k a s'
  | (Err e, s') => (Err e, s')
  | (Panic, s') => (Panic, s')
  | (NoFuel, s') => (NoFuel, s')
  end.

Definition lift {S A} (o : outcome A) : M S A := λ s, (o, s).
Definition gets {S A} (f : S → A) : M S A := λ s, (Ok (f s), s).
Definition modify {S} (f : S → S) : M S unit := λ s, (Ok tt, f s).
Definition reads {S A} (f : S → outcome A) : M S A := λ s, (f s, s).
Definition fail {S A} (e : error) : M S A := λ s, (Err e, s).

(** A computation on a part of the state, given how to read and to update the part. *)
Definition zoom {S T A} (get : S → T) (put : T → S → S) (m : M T A) : M S A := λ s,
  let '(o, t) := m (get s) in (o, put t s).

Lemma outcome_bind_Ok {A B} (m : outcome A) (k : A → outcome B) a :
  m = Ok a → (m ≫= k) = k a.
Proof. by intros ->. Qed.

Lemma outcome_bind_inv {A B} (m : outcome A) (k : A → outcome B) b :
  (m ≫= k) = Ok b → ∃ a, m = Ok a ∧ k a = Ok b.
Proof. destruct m; naive_solver. Qed.

Lemma M_bind_Ok {S A B} (m : M S A) (k : A → M S B) s a s' :
  m s = (Ok a, s') → (m ≫= k) s = k a s'.
Proof. intros H. unfold mbind, M_bind. by rewrite H. Qed.

Lemma M_bind_inv {S A B} (m : M S A) (k : A → M S B) s b s'' :
  (m ≫= k) s = (Ok b, s'') → ∃ a s', m s = (Ok a, s') ∧ k a s' = (Ok b, s'').
Proof. unfold mbind, M_bind. destruct (m s) as [[] ?]; naive_solver. Qed.

Lemma M_bind_assoc {S A B C} (m : M S A) (f : A → M S B) (g : B → M S C) s :
  ((m ≫= f) ≫= g) s = (m ≫= (λ a, f a ≫= g)) s.
Proof. unfold mbind, M_bind. by destruct (m s) as [[] ?]. Qed.

Lemma M_bind_gets {S A B} (f : S → A) (k : A → M S B) s : (gets f ≫= k) s = k (f s) s.
Proof. done. Qed.

Lemma M_bind_modify {S B} (f : S → S) (k : unit → M S B) s : (modify f ≫= k) s = k tt (f s).
Proof. done. Qed.

Lemma M_bind_mret {S A B} (a : A) (k : A → M S B) s : (mret a ≫= k) s = k a s.
Proof. done. Qed.

Lemma M_bind_lift {S A B} (o : outcome A) (k : A → M S B) s a :
  o = Ok a → (lift o ≫= k) s = k a s.
Proof. by intros ->. Qed.

(** [mrun] runs the actions that only look at or update the state, or return. *)
Ltac mrun :=
  repeat (first [rewrite M_bind_gets | rewrite M_bind_modify | rewrite M_bind_mret]; cbv beta iota).
(** [mlift H] runs a lifted outcome with a known result. *)
Ltac mlift H := erewrite M_bind_lift by (exact H || (eapply H; eauto)); cbv beta iota.

(** [mstep] rewrites the first action of a monadic computation with a known equation. *)
Ltac mstep H := erewrite M_bind_Ok by (exact H || apply H || (eapply H; eauto)); cbv beta iota.
Ltac ostep H := erewrite outcome_bind_Ok by (exact H || apply H || (eapply H; eauto)).

(** [minv] takes apart a computation that returned. *)
Ltac minv1 :=
  match goal with
  | H : (_ ≫= _) _ = (Ok _, _) |- _ =>
      let a := fresh "a" in let s := fresh "s" in let H1 := fresh "H" in
      apply M_bind_inv in H as (a & s & H1 & H)
  | H : (_ ≫= _) = Ok _ |- _ =>
      let a := fresh "a" in let H1 := fresh "H" in
      apply outcome_bind_inv in H as (a & H1 & H)
  end.
Ltac minv := repeat (minv1; simplify_eq/=).

(** ** Machine integers *)
Definition wrap (w z : Z) : Z := z mod 2 ^ w.
Abbreviation u8 := (wrap 8).
Abbreviation u16 := (wrap 16).
Abbreviation u32 := (wrap 32).
Abbreviation u64 := (wrap 64).

Definition in_range (w z : Z) : Prop := 0 ≤ z < 2 ^ w.

Definition u8_max : Z := 255.
Definition u32_max : Z := 2 ^ 32 - 1.
Definition u64_max : Z := 2 ^ 64 - 1.

Lemma wrap_range w z : 0 ≤ w → in_range w (wrap w z).
Proof. intros. apply Z.mod_pos_bound, Z.pow_pos_nonneg; lia. Qed.

Lemma wrap_small w z : in_range w z → wrap w z = z.
Proof. apply Z.mod_small. Qed.

(** ** Shifts and masks of machine words

    Rust's [<<] and [>>] on a 64-bit word in a release build: the amount is taken modulo
    the width and the bits shifted out are lost. *)
Definition shl64 (x n : Z) : Z := u64 (Z.shiftl x (Z.land n 63)).
Definition shr64 (x n : Z) : Z := Z.shiftr x (Z.land n 63).

Lemma land_63 n : 0 ≤ n < 64 → Z.land n 63 = n.
Proof. intros. change 63 with (Z.ones 6). rewrite Z.land_ones by lia. by apply Z.mod_small. Qed.

Lemma shl64_mul x n : 0 ≤ n < 64 → shl64 x n = (x * 2 ^ n) mod 2 ^ 64.
Proof. intros. unfold shl64, wrap. by rewrite land_63, Z.shiftl_mul_pow2 by lia. Qed.

Lemma shr64_div x n : 0 ≤ n < 64 → shr64 x n = x / 2 ^ n.
Proof. intros. unfold shr64. by rewrite land_63, Z.shiftr_div_pow2 by lia. Qed.

Lemma land_shiftl_low a b n : 0 ≤ n → 0 ≤ a < 2 ^ n → Z.land (b * 2 ^ n) a = 0.
Proof.
  intros Hn Ha. apply Z.bits_inj'. intros i Hi. rewrite Z.land_spec, Z.bits_0.
  destruct (decide (i < n)).
  - by rewrite Z.mul_pow2_bits_low by lia.
  - rewrite <-(Z.mod_small a (2 ^ n)), Z.mod_pow2_bits_high by lia.
    apply andb_false_r.
Qed.

(** A field of [n] bits below another: the bitwise or of disjoint fields is their sum. *)
Lemma lor_fields a b n : 0 ≤ n → 0 ≤ a < 2 ^ n → Z.lor (b * 2 ^ n) a = b * 2 ^ n + a.
Proof.
  intros Hn Ha. rewrite <-Z.lxor_lor, <-Z.add_nocarry_lxor; auto using land_shiftl_low.
Qed.

Lemma land_mask x n : 0 ≤ n → Z.land x (2 ^ n - 1) = x mod 2 ^ n.
Proof. intros. by rewrite <-Z.land_ones, Z.ones_equiv, <-Z.sub_1_r by lia. Qed.

Lemma pow2_split w n : 0 ≤ n ≤ w → 2 ^ w = 2 ^ n * 2 ^ (w - n).
Proof. intros. rewrite <-Z.pow_add_r by lia. f_equal. lia. Qed.

Lemma pow2_pos n : 0 ≤ n → 0 < 2 ^ n.
Proof. intros. by apply Z.pow_pos_nonneg. Qed.

Lemma div_pow2_range x a b : 0 ≤ a → 0 ≤ b → in_range (a + b) x → in_range b (x / 2 ^ a).
Proof.
  unfold in_range. intros. rewrite Z.pow_add_r in * by lia.
  pose proof (pow2_pos a). split; [apply Z.div_pos; lia|].
  apply Z.div_lt_upper_bound; lia.
Qed.

(** ** Bytes and little-endian integers *)
Abbreviation byte := Byte.byte.
Abbreviation bytes := (list Byte.byte).

#[export] Instance byte_eq_dec : EqDecision byte := Strings.Byte.byte_eq_dec.
#[export] Instance byte_countable : Countable byte :=
  inj_countable Strings.Byte.to_N Strings.Byte.of_N Strings.Byte.of_to_N.

Definition byte_val (b : byte) : Z := Z.of_N (Strings.Byte.to_N b).
Definition byte_of (z : Z) : byte :=
  match Strings.Byte.of_N (Z.to_N (z mod 256)) with Some b => b | None => Byte.x00 end.

Fixpoint le_bytes (n : nat) (z : Z) : bytes :=
  match n with
  | O => []
  | S n' => byte_of z :: le_bytes n' (z / 256)
  end.

Fixpoint le_val (bs : bytes) : Z :=
  match bs with
  | [] => 0
  | b :: bs' => byte_val b + 256 * le_val bs'
  end.

Definition be_val (bs : bytes) : Z := le_val (reverse bs).
Definition be_bytes (n : nat) (z : Z) : bytes := reverse (le_bytes n z).

Lemma byte_val_range b : 0 ≤ byte_val b < 256.
Proof.
  unfold byte_val. pose proof (Strings.Byte.to_N_bounded b). lia.
Qed.

Lemma byte_val_of z : byte_val (byte_of z) = z mod 256.
Proof.
  unfold byte_val, byte_of. pose proof (Z.mod_pos_bound z 256 eq_refl).
  destruct (Strings.Byte.of_N _) as [b|] eqn:E.
  - apply Strings.Byte.to_of_N in E. rewrite E. lia.
  - apply Strings.Byte.of_N_None_iff in E. lia.
Qed.

Lemma byte_of_val b : byte_of (byte_val b) = b.
Proof.
  unfold byte_of, byte_val. pose proof (Strings.Byte.to_N_bounded b).
  rewrite Z.mod_small by lia. rewrite N2Z.id, Strings.Byte.of_to_N. done.
Qed.

Lemma byte_val_inj a b : byte_val a = byte_val b → a = b.
Proof. intros H. by rewrite <-(byte_of_val a), H, byte_of_val. Qed.

Lemma le_bytes_S n z : le_bytes (S n) z = byte_of z :: le_bytes n (z / 256).
Proof. done. Qed.

Lemma le_val_nil : le_val [] = 0.
Proof. done. Qed.

Lemma le_bytes_length n z : length (le_bytes n z) = n.
Proof. revert z. induction n; intros; simpl; [done|]. by rewrite IHn. Qed.

Lemma le_val_range bs : in_range (8 * Z.of_nat (length bs)) (le_val bs).
Proof.
  unfold in_range. induction bs as [|b bs IH]; simpl length; simpl le_val; [simpl; lia|].
  pose proof (byte_val_range b).
  replace (8 * Z.of_nat (S (length bs))) with (8 + 8 * Z.of_nat (length bs)) by lia.
  rewrite Z.pow_add_r by lia. change (2 ^ 8) with 256. lia.
Qed.

Lemma le_val_bytes n z : le_val (le_bytes n z) = z mod 2 ^ (8 * Z.of_nat n).
Proof.
  revert z. induction n as [|n IH]; intros z; [simpl; by rewrite Z.mod_1_r|].
  simpl le_bytes; simpl le_val. rewrite IH, byte_val_of.
  replace (8 * Z.of_nat (S n)) with (8 + 8 * Z.of_nat n) by lia.
  rewrite Z.pow_add_r by lia. change (2 ^ 8) with 256.
  rewrite Z.rem_mul_r by lia. lia.
Qed.

Lemma le_val_bytes_small n z :
  in_range (8 * Z.of_nat n) z → le_val (le_bytes n z) = z.
Proof. intros. rewrite le_val_bytes. by apply Z.mod_small. Qed.

Lemma le_bytes_val bs : le_bytes (length bs) (le_val bs) = bs.
Proof.
  induction bs as [|b bs IH]; simpl; [done|]. pose proof (byte_val_range b).
  f_equal.
  - rewrite <-(byte_of_val b) at 2. apply byte_val_inj. rewrite !byte_val_of.
    by rewrite (Z.mul_comm 256), Z.mod_add by lia.
  - rewrite (Z.mul_comm 256), Z.div_add, Z.div_small by lia. done.
Qed.

Lemma le_bytes_val_n n bs : length bs = n → le_bytes n (le_val bs) = bs.
Proof. intros <-. apply le_bytes_val. Qed.

Lemma le_val_inj bs bs' : length bs = length bs' → le_val bs = le_val bs' → bs = bs'.
Proof. intros Hl Hv. by rewrite <-(le_bytes_val bs), <-(le_bytes_val bs'), Hl, Hv. Qed.

Lemma le_val_app bs bs' :
  le_val (bs ++ bs') = le_val bs + 2 ^ (8 * Z.of_nat (length bs)) * le_val bs'.
Proof.
  induction bs as [|b bs IH]; simpl le_val; simpl length; [simpl; lia|].
  replace (8 * Z.of_nat (S (length bs))) with (8 + 8 * Z.of_nat (length bs)) by lia.
  rewrite IH, Z.pow_add_r by lia. change (2 ^ 8) with 256. simpl le_val. lia.
Qed.

#[global] Opaque le_bytes le_val byte_of byte_val.

(** ** Slices

    [slice l a b] is [l[a..b]], [overwrite l a d] is
    [l[a..a+d.len()].copy_from_slice(d)]; both panic out of range.  [copy_prefix d l] is
    the copy of as much of [d] as fits, the loop-free form of
    [dest[0..len].copy_from_slice(&d[0..len])] with [len] the smaller length. *)
Definition slice {A} (l : list A) (a b : nat) : outcome (list A) :=
  if decide (a ≤ b ∧ b ≤ length l)%nat then Ok (take (b - a) (drop a l)) else Panic.

Definition overwrite {A} (l : list A) (a : nat) (d : list A) : outcome (list A) :=
  if decide (a + length d ≤ length l)%nat
  then Ok (take a l ++ d ++ drop (a + length d) l) else Panic.

Definition copy_prefix {A} (d l : list A) : list A :=
  take (min (length l) (length d)) d ++ drop (min (length l) (length d)) l.

(** [read_exact] of [std::io::Read] on a stream of bytes. *)
Definition read_exact (n : nat) (stream : bytes) : outcome (bytes * bytes) :=
  if decide (n ≤ length stream)%nat then Ok (take n stream, drop n stream)
  else Err (Io UnexpectedEof).

Section slices.
Context {A : Type}.
Implicit Types l d r : list A.

Lemma slice_app_l l r n : n = length l → slice (l ++ r) 0 n = Ok l.
Proof.
  intros ->. unfold slice. rewrite decide_True by (rewrite length_app; lia).
  by rewrite drop_0, Nat.sub_0_r, take_app_length.
Qed.

Lemma slice_mid l d r a b :
  a = length l → b = (length l + length d)%nat → slice (l ++ d ++ r) a b = Ok d.
Proof.
  intros -> ->. unfold slice. rewrite decide_True by (rewrite !length_app; lia).
  rewrite drop_app_length. replace (_ - _)%nat with (length d) by lia.
  by rewrite take_app_length.
Qed.

Lemma slice_inv l a b d :
  slice l a b = Ok d → (a ≤ b ≤ length l)%nat ∧ d = take (b - a) (drop a l).
Proof. unfold slice. case_decide; naive_solver. Qed.

Lemma slice_length l a b d : slice l a b = Ok d → length d = (b - a)%nat.
Proof. intros [? ->]%slice_inv. rewrite length_take, length_drop. lia. Qed.

Lemma overwrite_Ok l a d :
  (a + length d ≤ length l)%nat →
  overwrite l a d = Ok (take a l ++ d ++ drop (a + length d) l).
Proof. intros. unfold overwrite. by rewrite decide_True. Qed.

Lemma overwrite_length l a d l' : overwrite l a d = Ok l' → length l' = length l.
Proof.
  unfold overwrite. case_decide as H; intros; simplify_eq.
  rewrite !length_app, length_take, length_drop. lia.
Qed.

Lemma overwrite_app l d r a n :
  a = length l → length n = length d → overwrite (l ++ d ++ r) a n = Ok (l ++ n ++ r).
Proof.
  intros -> Hn. rewrite overwrite_Ok by (rewrite !length_app; lia).
  rewrite take_app_length, Hn. do 3 f_equal.
  rewrite app_assoc, drop_app_length'; [done|]. rewrite length_app. lia.
Qed.

Lemma copy_prefix_length d l : length (copy_prefix d l) = length l.
Proof. unfold copy_prefix. rewrite length_app, length_take, length_drop. lia. Qed.

Lemma copy_prefix_le d l :
  (length d ≤ length l)%nat → copy_prefix d l = d ++ drop (length d) l.
Proof. intros. unfold copy_prefix. rewrite Nat.min_r by lia. by rewrite take_ge. Qed.

Lemma copy_prefix_ge d l :
  (length l ≤ length d)%nat → copy_prefix d l = take (length l) d.
Proof.
  intros. unfold copy_prefix. rewrite Nat.min_l by lia.
  by rewrite drop_ge, app_nil_r by lia.
Qed.
End slices.

Lemma read_exact_app n d r : n = length d → read_exact n (d ++ r) = Ok (d, r).
Proof.
  intros ->. unfold read_exact. rewrite decide_True by (rewrite length_app; lia).
  by rewrite take_app_length, drop_app_length.
Qed.

Lemma read_exact_inv n s d r :
  read_exact n s = Ok (d, r) → s = d ++ r ∧ length d = n.
Proof.
  unfold read_exact. case_decide; intros; simplify_eq.
  rewrite take_drop, length_take. split; [done|lia].
Qed.

(** ** Automation *)
Create HintDb parity.
Create Rewrite HintDb len.
#[export] Hint Resolve wrap_range wrap_small le_val_range byte_val_range : parity.
#[export] Hint Rewrite le_bytes_length @length_app @length_take @length_drop
  @length_replicate @copy_prefix_length @length_insert : len.

(** [len] normalises list lengths and closes the arithmetic that is left. *)
Ltac len := autorewrite with len in *; simpl length in *; try lia.
