(* ===== verification/IndexEntry.v ===== *)
(** * Index entries, addresses and table ids (src/src/index.rs, src/src/table.rs)

    An index entry is one 64-bit word that packs the address of a value (offset and size
    tier) below a partial key.  This file models the packing, the table identifiers and
    the recovery of a key from its position in the index, and shows that nothing is lost:
    the chunk number, the partial key of the entry and the 26 key bytes stored with the
    value determine the whole key, for every size of the index. *)

From S2P Require Import Prelude.

(** ** Constants (index.rs, table.rs, lib.rs) *)
Definition CHUNK_ENTRIES_BITS : Z := 6.
Definition CHUNK_ENTRIES : nat := 64.
Definition ENTRY_BITS : Z := 64.
Definition ENTRY_BYTES : nat := 8.
Definition CHUNK_LEN : nat := 512.
Definition HEADER_SIZE : Z := 512.
Definition META_SIZE : Z := 16384.
Definition SIZE_TIERS_BITS : Z := 8.
Definition KEY_SIZE : nat := 32.
Definition PARTIAL_SIZE : nat := 26.

(** ** [Address]: an offset in a value table and the table's size tier *)
Definition Address_new (offset size_tier : Z) : Z :=
  Z.lor (shl64 offset SIZE_TIERS_BITS) size_tier.
Definition Address_offset (a : Z) : Z := shr64 a SIZE_TIERS_BITS.
Definition Address_size_tier (a : Z) : Z :=
  u8 (Z.land a (shl64 1 SIZE_TIERS_BITS - 1)).

(** ** [Entry]: the packed word *)
Definition address_bits (index_bits : Z) : Z :=
  u8 (index_bits + CHUNK_ENTRIES_BITS + SIZE_TIERS_BITS).
Definition last_address (index_bits : Z) : Z := shl64 1 (address_bits index_bits) - 1.

Definition Entry_new (address partial_key index_bits : Z) : Z :=
  Z.lor (shl64 partial_key (address_bits index_bits)) address.
Definition Entry_address (e index_bits : Z) : Z := Z.land e (last_address index_bits).
Definition Entry_partial_key (e index_bits : Z) : Z := shr64 e (address_bits index_bits).
Definition extract_key (key_prefix index_bits : Z) : Z :=
  shr64 (shl64 key_prefix index_bits) (address_bits index_bits).
Definition Entry_is_empty (e : Z) : bool := bool_decide (e = 0).
Definition Entry_empty : Z := 0.

(** ** Sizes of the index file *)
Definition total_chunks (index_bits : Z) : Z := shl64 1 index_bits.
Definition total_entries (index_bits : Z) : Z :=
  u64 (total_chunks index_bits * Z.of_nat CHUNK_ENTRIES).
Definition file_size (index_bits : Z) : Z :=
  u64 (u64 (total_entries index_bits * 8) + META_SIZE).

(** ** [TableId]: a column and the index size (index.rs) or the size tier (table.rs) *)
Definition TableId_new (col sub : Z) : Z := Z.lor (u16 (Z.shiftl col 8)) sub.
Definition TableId_col (id : Z) : Z := u8 (Z.shiftr id 8).
Definition TableId_index_bits (id : Z) : Z := u8 (Z.land id 255).
Definition ValueTableId_size_tier (id : Z) : Z := u8 (Z.land id 255).

(** ** Keys *)
Definition index_from_partial (key : bytes) : Z := be_val (take 8 key).
Definition partial_key (hash : bytes) : bytes := drop 6 hash.
Definition chunk_index (index_bits key_prefix : Z) : Z :=
  shr64 key_prefix (ENTRY_BITS - index_bits).

Definition recover_key_prefix (index_bits chunk e : Z) : bytes :=
  let partial := Entry_partial_key e index_bits in
  let k := 64 - address_bits index_bits in
  let index_key := Z.lor (shl64 chunk (64 - index_bits))
                         (shl64 partial (64 - k - index_bits)) in
  be_bytes 8 index_key ++ replicate (KEY_SIZE - 8) Byte.x00.

(** The key an index iteration reports ([iter_index_internal] of column.rs): the recovered
    prefix with its bytes from 6 on replaced by the partial key stored with the value. *)
Definition recovered_key (index_bits chunk e : Z) (pk : bytes) : outcome bytes :=
  overwrite (recover_key_prefix index_bits chunk e) 6 pk.

(** ** Sizes for which the arithmetic does not wrap *)
Definition valid_bits (index_bits : Z) : Prop := 1 ≤ index_bits ≤ 49.

Lemma address_bits_eq ib : valid_bits ib → address_bits ib = ib + 14.
Proof. unfold valid_bits, address_bits, wrap. intros. rewrite Z.mod_small; [|simpl]; unfold CHUNK_ENTRIES_BITS, SIZE_TIERS_BITS; lia. Qed.

Lemma shl64_1 n : 0 ≤ n < 64 → shl64 1 n = 2 ^ n.
Proof.
  intros. rewrite shl64_mul, Z.mul_1_l by lia. apply Z.mod_small.
  split; [pose proof (pow2_pos n); lia|]. apply Z.pow_lt_mono_r; lia.
Qed.

Lemma last_address_eq ib : valid_bits ib → last_address ib = 2 ^ (ib + 14) - 1.
Proof. intros H. unfold last_address. rewrite (address_bits_eq _ H), shl64_1; [done|]. unfold valid_bits in H. lia. Qed.

Lemma total_chunks_eq ib : 0 ≤ ib < 64 → total_chunks ib = 2 ^ ib.
Proof. apply shl64_1. Qed.

Lemma shl64_small x n m : 0 ≤ n < 64 → 0 ≤ m → n + m = 64 → in_range m x → shl64 x n = x * 2 ^ n.
Proof.
  unfold in_range. intros Hn Hm Hnm Hx. rewrite shl64_mul by lia. apply Z.mod_small.
  rewrite <-Hnm, Z.pow_add_r by lia. pose proof (pow2_pos n). nia.
Qed.

(** ** The fields of a packed word *)
Lemma Address_new_eq o t :
  in_range 56 o → in_range 8 t → Address_new o t = o * 2 ^ 8 + t.
Proof.
  intros Ho Ht. unfold Address_new. rewrite (shl64_small _ _ 56); unfold SIZE_TIERS_BITS; try done.
  by apply lor_fields.
Qed.

Lemma Entry_new_eq a pk ib :
  valid_bits ib → in_range (ib + 14) a → in_range (50 - ib) pk →
  Entry_new a pk ib = pk * 2 ^ (ib + 14) + a.
Proof.
  intros H Ha Hpk. unfold Entry_new. rewrite address_bits_eq by done. unfold valid_bits in H.
  rewrite (shl64_small _ _ (50 - ib)) by (done || lia). apply lor_fields; [lia|done].
Qed.

Lemma Entry_new_range a pk ib :
  valid_bits ib → in_range (ib + 14) a → in_range (50 - ib) pk →
  in_range 64 (Entry_new a pk ib).
Proof.
  intros H Ha Hpk. rewrite Entry_new_eq by done. unfold in_range, valid_bits in *.
  replace 64 with ((ib + 14) + (50 - ib)) by lia. rewrite (Z.pow_add_r 2 (ib + 14)) by lia. nia.
Qed.

Lemma Entry_address_new a pk ib :
  valid_bits ib → in_range (ib + 14) a → in_range (50 - ib) pk →
  Entry_address (Entry_new a pk ib) ib = a.
Proof.
  intros H Ha Hpk. unfold Entry_address. rewrite last_address_eq, Entry_new_eq by done.
  unfold valid_bits, in_range in *.
  rewrite land_mask, Z.add_comm, Z.mod_add, Z.mod_small by lia. done.
Qed.

Lemma Entry_partial_key_new a pk ib :
  valid_bits ib → in_range (ib + 14) a → in_range (50 - ib) pk →
  Entry_partial_key (Entry_new a pk ib) ib = pk.
Proof.
  intros H Ha Hpk. unfold Entry_partial_key. rewrite address_bits_eq, Entry_new_eq by done.
  unfold valid_bits, in_range in *. rewrite shr64_div, Z.div_add_l, Z.div_small by lia. lia.
Qed.

Lemma Address_offset_new o t :
  in_range 56 o → in_range 8 t → Address_offset (Address_new o t) = o.
Proof.
  intros Ho Ht. rewrite Address_new_eq by done. unfold Address_offset, SIZE_TIERS_BITS, in_range in *.
  rewrite shr64_div, Z.div_add_l, Z.div_small by lia. lia.
Qed.

Lemma Address_size_tier_new o t :
  in_range 56 o → in_range 8 t → Address_size_tier (Address_new o t) = t.
Proof.
  intros Ho Ht. rewrite Address_new_eq by done. unfold Address_size_tier, SIZE_TIERS_BITS.
  rewrite shl64_1, land_mask, Z.add_comm, Z.mod_add, Z.mod_small by (done || lia).
  by apply wrap_small.
Qed.

(** ** The partial key of a key *)
Lemma extract_key_eq kp ib :
  valid_bits ib → in_range 64 kp → extract_key kp ib = (kp mod 2 ^ (64 - ib)) / 2 ^ 14.
Proof.
  intros H Hk. unfold extract_key. rewrite address_bits_eq by done. unfold valid_bits in H.
  rewrite shl64_mul, shr64_div by lia.
  rewrite (pow2_split 64 ib), (Z.mul_comm kp), Z.mul_mod_distr_l by (pose proof (pow2_pos ib); pose proof (pow2_pos (64 - ib)); lia).
  rewrite Z.pow_add_r by lia. pose proof (pow2_pos ib). rewrite Z.div_mul_cancel_l by lia. done.
Qed.

Lemma extract_key_range kp ib :
  valid_bits ib → in_range 64 kp → in_range (50 - ib) (extract_key kp ib).
Proof.
  intros H Hk. rewrite extract_key_eq by done. unfold valid_bits in H.
  apply div_pow2_range; [lia..|]. replace (14 + (50 - ib)) with (64 - ib) by lia.
  apply Z.mod_pos_bound, pow2_pos. lia.
Qed.

Lemma chunk_index_eq ib kp :
  valid_bits ib → chunk_index ib kp = kp / 2 ^ (64 - ib).
Proof. unfold valid_bits, chunk_index, ENTRY_BITS. intros. rewrite shr64_div by lia. done. Qed.

Lemma chunk_index_range ib kp :
  valid_bits ib → in_range 64 kp → in_range ib (chunk_index ib kp).
Proof.
  intros H Hk. rewrite chunk_index_eq by done. unfold valid_bits in H.
  apply div_pow2_range; [lia..|]. by replace (64 - ib + ib) with 64 by lia.
Qed.

(** A key prefix with its low 14 bits cleared: what the index keeps of it. *)
Definition prefix50 (kp : Z) : Z := (kp / 2 ^ 14) * 2 ^ 14.

Lemma prefix50_range kp : in_range 64 kp → in_range 64 (prefix50 kp).
Proof. unfold in_range, prefix50. intros. pose proof (Z.div_mod kp (2^14) ltac:(lia)). pose proof (Z.mod_pos_bound kp (2^14) ltac:(lia)). lia. Qed.

Lemma prefix50_mod kp n : 14 ≤ n → (prefix50 kp) mod 2 ^ n / 2 ^ 14 = kp mod 2 ^ n / 2 ^ 14.
Proof.
  intros Hn. unfold prefix50. rewrite (pow2_split n 14) by lia.
  pose proof (pow2_pos (n - 14)).
  rewrite (Z.mul_comm _ (2 ^ 14)), Z.mul_mod_distr_l, (Z.mul_comm (2 ^ 14) (_ mod _)), Z.div_mul by lia.
  rewrite Z.rem_mul_r by lia. rewrite (Z.add_comm (kp mod 2 ^ 14)), (Z.mul_comm (2 ^ 14)), Z.div_add_l by lia.
  rewrite (Z.div_small (kp mod 2 ^ 14)); [lia|]. apply Z.mod_pos_bound. lia.
Qed.

Lemma prefix50_split kp n :
  14 ≤ n → prefix50 kp = kp / 2 ^ n * 2 ^ n + kp mod 2 ^ n / 2 ^ 14 * 2 ^ 14.
Proof.
  intros Hn. unfold prefix50. rewrite (pow2_split n 14) by lia.
  set (m := 2 ^ (n - 14)). assert (0 < m) by (apply pow2_pos; lia).
  pose proof (Z.div_mod kp (2 ^ 14 * m) ltac:(lia)) as E.
  set (q := kp / (2 ^ 14 * m)) in *. set (r := kp mod (2 ^ 14 * m)) in *.
  assert (kp / 2 ^ 14 = m * q + r / 2 ^ 14) as ->; [|ring].
  rewrite E. replace (2 ^ 14 * m * q + r) with (m * q * 2 ^ 14 + r) by ring.
  by rewrite Z.div_add_l by lia.
Qed.

Lemma extract_key_prefix50 kp ib :
  valid_bits ib → in_range 64 kp → extract_key (prefix50 kp) ib = extract_key kp ib.
Proof.
  intros H Hk. rewrite !extract_key_eq by auto using prefix50_range. apply prefix50_mod.
  unfold valid_bits in H. lia.
Qed.

Lemma chunk_index_prefix50 kp ib :
  valid_bits ib → chunk_index ib (prefix50 kp) = chunk_index ib kp.
Proof.
  intros H. rewrite !chunk_index_eq by done. unfold valid_bits in H. unfold prefix50.
  replace (64 - ib) with (14 + (50 - ib)) by lia. rewrite Z.pow_add_r by lia.
  pose proof (pow2_pos (50 - ib)). rewrite <-!Z.div_div by lia. by rewrite Z.div_mul by lia.
Qed.

Lemma be_val_range k n : length k = n → in_range (8 * Z.of_nat n) (be_val k).
Proof. intros <-. unfold be_val. rewrite <-length_reverse. apply le_val_range. Qed.

Lemma index_from_partial_range key : length key = KEY_SIZE → in_range 64 (index_from_partial key).
Proof.
  intros H. apply (be_val_range _ 8). rewrite length_take, H. done.
Qed.

Lemma be_bytes_val bs : be_bytes (length bs) (be_val bs) = bs.
Proof.
  unfold be_bytes, be_val. rewrite <-(length_reverse bs), le_bytes_val. apply reverse_involutive.
Qed.

(** The word that [recover_key_prefix] builds is the key prefix without its low bits. *)
Lemma recover_word kp a ib :
  valid_bits ib → in_range 64 kp → in_range (ib + 14) a →
  recover_key_prefix ib (chunk_index ib kp) (Entry_new a (extract_key kp ib) ib)
  = be_bytes 8 (prefix50 kp) ++ replicate 24 Byte.x00.
Proof.
  intros H Hk Ha. unfold recover_key_prefix.
  rewrite Entry_partial_key_new by auto using extract_key_range.
  pose proof (extract_key_range _ _ H Hk) as Hpk.
  pose proof (chunk_index_range _ _ H Hk) as Hc.
  rewrite extract_key_eq in * by done. rewrite chunk_index_eq in * by done.
  rewrite address_bits_eq by done. unfold valid_bits in H. f_equal. f_equal.
  replace (64 - (64 - (ib + 14)) - ib) with 14 by lia.
  rewrite (shl64_small _ (64 - ib) ib) by (done || lia).
  assert (Hm : 0 ≤ kp mod 2 ^ (64 - ib) < 2 ^ (64 - ib)) by (apply Z.mod_pos_bound, pow2_pos; lia).
  rewrite (shl64_small _ 14 50); [|lia..|].
  2:{ unfold in_range in *. split; [lia|]. eapply Z.lt_le_trans; [apply Hpk|]. apply Z.pow_le_mono_r; lia. }
  rewrite lor_fields; [|lia|].
  2:{ pose proof (Z.mul_div_le (kp mod 2 ^ (64 - ib)) (2 ^ 14) ltac:(lia)). unfold in_range in Hpk. lia. }
  rewrite (prefix50_split kp (64 - ib)) by lia. done.
Qed.

Lemma be_val_app a b : be_val (a ++ b) = be_val a * 2 ^ (8 * Z.of_nat (length b)) + be_val b.
Proof. unfold be_val. rewrite reverse_app, le_val_app, length_reverse. lia. Qed.

Lemma be_bytes_app n m z :
  be_bytes (n + m) z = be_bytes n (z / 2 ^ (8 * Z.of_nat m)) ++ be_bytes m z.
Proof.
  unfold be_bytes. rewrite <-reverse_app. f_equal. rewrite Nat.add_comm.
  revert z. induction m as [|m IH]; intros z.
  - rewrite Z.mul_0_r, Z.pow_0_r, Z.div_1_r. done.
  - change (S m + n)%nat with (S (m + n)). rewrite !le_bytes_S. simpl. f_equal. rewrite IH. f_equal. f_equal.
    replace (8 * Z.of_nat (S m)) with (8 + 8 * Z.of_nat m) by lia.
    rewrite Z.pow_add_r, Z.div_div by (try apply pow2_pos; lia). done.
Qed.

Lemma be_bytes_length n z : length (be_bytes n z) = n.
Proof. unfold be_bytes. by rewrite length_reverse, le_bytes_length. Qed.

(** The first six bytes survive the loss of the low 14 bits. *)
Lemma prefix50_bytes key :
  length key = KEY_SIZE →
  take 6 (be_bytes 8 (prefix50 (index_from_partial key))) = take 6 key.
Proof.
  intros Hl. change 8%nat with (6 + 2)%nat. rewrite be_bytes_app.
  rewrite take_app_le, take_ge by (rewrite be_bytes_length; lia).
  unfold index_from_partial. replace (take 8 key) with (take 6 key ++ take 2 (drop 6 key)).
  2:{ by rewrite take_take_drop. }
  rewrite be_val_app, length_take, length_drop, Hl.
  set (a := be_val (take 6 key)). set (b := be_val (take 2 _)).
  assert (in_range 16 b).
  { apply (be_val_range _ 2). rewrite length_take, length_drop, Hl. done. }
  unfold prefix50, in_range in *. change (2 ^ (8 * Z.of_nat (min 2 (KEY_SIZE - 6)))) with (2 ^ 16).
  change (2 ^ (8 * Z.of_nat 2)) with (2 ^ 16). replace (a * 2 ^ 16 + b) with (a * 4 * 2 ^ 14 + b) by lia.
  rewrite Z.div_add_l by lia.
  replace ((a * 4 + b / 2 ^ 14) * 2 ^ 14) with (a * 2 ^ 16 + b / 2 ^ 14 * 2 ^ 14) by lia.
  pose proof (Z.mul_div_le b (2 ^ 14) ltac:(lia)). pose proof (Z.div_pos b (2^14) ltac:(lia) ltac:(lia)).
  rewrite Z.div_add_l, Z.div_small, Z.add_0_r by lia.
  replace 6%nat with (length (take 6 key)) at 1 by (rewrite length_take, Hl; done).
  apply be_bytes_val.
Qed.

(** ** Properties *)

(** C27.  No key is lost by the index.  Take any 32-byte key and any address that fits an
    index of [index_bits] bits (1 to 49).  From the number of the chunk the key is placed
    in, the packed entry and the 26 key bytes stored with the value, the key that an index
    iteration reports is exactly the original key. *)
Theorem iterated_key_is_the_key ib key address :
  valid_bits ib → length key = KEY_SIZE → 0 ≤ address ≤ last_address ib →
  recovered_key ib (chunk_index ib (index_from_partial key))
    (Entry_new address (extract_key (index_from_partial key) ib) ib) (partial_key key)
  = Ok key.
Proof.
  intros H Hl Ha. rewrite last_address_eq in Ha by done. unfold recovered_key.
  pose proof (index_from_partial_range _ Hl).
  rewrite recover_word by (done || (unfold in_range; lia)).
  rewrite overwrite_Ok; unfold partial_key.
  2:{ rewrite !length_app, be_bytes_length, length_drop, length_replicate, Hl. unfold KEY_SIZE. lia. }
  rewrite take_app_le, prefix50_bytes by (done || rewrite be_bytes_length; lia).
  rewrite (drop_ge (_ ++ _)), app_nil_r, take_drop; [done|].
  rewrite length_app, be_bytes_length, length_replicate, length_drop, Hl. unfold KEY_SIZE. lia.
Qed.

Definition sample_key : bytes := byte_of <$> seqZ 17 32.
Lemma iterated_key_is_the_key_witness :
  length sample_key = KEY_SIZE ∧
  recovered_key 16 (chunk_index 16 (index_from_partial sample_key))
    (Entry_new (Address_new 5 7) (extract_key (index_from_partial sample_key) 16) 16)
    (partial_key sample_key) = Ok sample_key.
Proof.
  split; [reflexivity|].
  apply (iterated_key_is_the_key 16 sample_key (Address_new 5 7));
    [unfold valid_bits; lia | reflexivity | by vm_compute].
Defined.

(** C28.  Reindexing moves an entry to where the key belongs.  The key that [reindex]
    recovers from an entry of an index of [ib] bits has lost the low 14 bits of its prefix;
    in an index of any other size [ib'] it still selects the chunk and the partial key of
    the original key, so a later search for the key finds the moved entry. *)
Theorem reindexed_entry_is_found ib ib' key address :
  valid_bits ib → valid_bits ib' → length key = KEY_SIZE → 0 ≤ address ≤ last_address ib →
  let kp := index_from_partial key in
  let kp' := index_from_partial
               (recover_key_prefix ib (chunk_index ib kp) (Entry_new address (extract_key kp ib) ib)) in
  chunk_index ib' kp' = chunk_index ib' kp ∧ extract_key kp' ib' = extract_key kp ib'.
Proof.
  intros H H' Hl Ha kp kp'. rewrite last_address_eq in Ha by done.
  assert (Hk : in_range 64 kp) by (by apply index_from_partial_range).
  assert (kp' = prefix50 kp) as ->.
  { unfold kp'. rewrite recover_word by (done || (unfold in_range; lia)).
    unfold index_from_partial. rewrite take_app_length'  by (by rewrite be_bytes_length).
    unfold be_val, be_bytes. rewrite reverse_involutive. apply le_val_bytes_small.
    by apply prefix50_range. }
  auto using chunk_index_prefix50, extract_key_prefix50.
Qed.

Lemma reindexed_entry_is_found_witness :
  let kp := index_from_partial sample_key in
  let kp' := index_from_partial
               (recover_key_prefix 16 (chunk_index 16 kp)
                  (Entry_new (Address_new 5 7) (extract_key kp 16) 16)) in
  kp' ≠ kp ∧ chunk_index 17 kp' = chunk_index 17 kp ∧ extract_key kp' 17 = extract_key kp 17.
Proof.
  split; [by vm_compute|].
  apply (reindexed_entry_is_found 16 17 sample_key (Address_new 5 7));
    [unfold valid_bits; lia | unfold valid_bits; lia | reflexivity | by vm_compute].
Defined.

(**  The packed word keeps its fields: an address that fits the index and a key prefix
    are recovered from the entry made of them, and the entry of an address with a non-zero
    offset (offset 0 is the table header) is never mistaken for the empty entry. *)
Theorem entry_fields ib offset tier kp :
  valid_bits ib → in_range 64 kp → 1 ≤ offset < 2 ^ 56 → in_range 8 tier →
  Address_new offset tier ≤ last_address ib →
  let e := Entry_new (Address_new offset tier) (extract_key kp ib) ib in
  in_range 64 e ∧ Entry_is_empty e = false ∧
  Entry_partial_key e ib = extract_key kp ib ∧
  Entry_address e ib = Address_new offset tier ∧
  Address_offset (Entry_address e ib) = offset ∧
  Address_size_tier (Entry_address e ib) = tier.
Proof.
  intros H Hk Ho Ht Ha e. pose proof (extract_key_range _ _ H Hk) as Hpk.
  assert (Ho' : in_range 56 offset) by (unfold in_range; lia).
  assert (Hr : in_range (ib + 14) (Address_new offset tier)).
  { rewrite last_address_eq, Address_new_eq in * by done. unfold in_range in *. lia. }
  assert (He : Entry_address e ib = Address_new offset tier) by (by apply Entry_address_new).
  rewrite He, Address_offset_new, Address_size_tier_new by done.
  repeat split; try apply Entry_new_range; try done; [|by apply Entry_partial_key_new].
  unfold e, Entry_is_empty. apply bool_decide_eq_false.
  rewrite Entry_new_eq, Address_new_eq by done. unfold in_range in *. pose proof (pow2_pos (ib + 14)). nia.
Qed.

Lemma entry_fields_witness :
  let e := Entry_new (Address_new 5 7) (extract_key (index_from_partial sample_key) 18) 18 in
  Entry_is_empty e = false ∧ Entry_address e 18 = Address_new 5 7.
Proof.
  destruct (entry_fields 18 5 7 (index_from_partial sample_key)) as (?&?&?&?&?);
    [unfold valid_bits; lia | by apply index_from_partial_range | lia | done | by vm_compute | done].
Defined.
