(* ===== verification/IndexChunk.v ===== *)
(** * Chunks of the index and the search in a chunk (src/src/index.rs)

    A chunk is 512 bytes that hold 64 little-endian entries.  The search for a partial key
    exists twice in the source: a scalar loop and an SSE2 version that compares four entries
    at a time.  Both are modelled here, the vector instructions by their lane semantics,
    and the vector search is shown to return what the scalar one returns. *)

From S2P Require Import Prelude IndexEntry.

Definition EMPTY_CHUNK : bytes := replicate CHUNK_LEN Byte.x00.

Definition write_entry (e : Z) (at_ : nat) (chunk : bytes) : outcome bytes :=
  overwrite chunk (at_ * 8) (le_bytes 8 e).

Definition read_entry (chunk : bytes) (at_ : nat) : outcome Z :=
  d ← slice chunk (at_ * 8) (at_ * 8 + 8); Ok (le_val d).

(** [transmute_chunk]: all the entries of a chunk. *)
Fixpoint words_of (n : nat) (chunk : bytes) : list Z :=
  match n with
  | O => []
  | S n' => le_val (take 8 chunk) :: words_of n' (drop 8 chunk)
  end.
Definition transmute_chunk (chunk : bytes) : list Z := words_of CHUNK_ENTRIES chunk.

(** ** The scalar search *)
Fixpoint find_entry_from (index_bits partial : Z) (chunk : bytes) (n i : nat)
    : outcome (Z * nat) :=
  match n with
  | O => Ok (Entry_empty, 0%nat)
  | S n' =>
      e ← read_entry chunk i;
      if bool_decide (Entry_partial_key e index_bits = partial) && negb (Entry_is_empty e)
      then Ok (e, i)
      else find_entry_from index_bits partial chunk n' (S i)
  end.

Definition find_entry_base (index_bits key_prefix : Z) (sub_index : nat) (chunk : bytes)
    : outcome (Z * nat) :=
  find_entry_from index_bits (extract_key key_prefix index_bits) chunk
    (CHUNK_ENTRIES - sub_index) sub_index.

(** ** The SSE2 search

    A 128-bit register is its four 32-bit lanes, lowest first. *)
Record m128 := M128 { lane0 : Z; lane1 : Z; lane2 : Z; lane3 : Z }.

Definition m128_of_u64s (lo hi : Z) : m128 :=
  M128 (lo mod 2 ^ 32) (lo / 2 ^ 32) (hi mod 2 ^ 32) (hi / 2 ^ 32).
Definition m128_lo (v : m128) : Z := lane0 v + 2 ^ 32 * lane1 v.
Definition m128_hi (v : m128) : Z := lane2 v + 2 ^ 32 * lane3 v.

Definition mm_loadu (chunk : bytes) (i : nat) : outcome m128 :=
  lo ← read_entry chunk i; hi ← read_entry chunk (S i); Ok (m128_of_u64s lo hi).
Definition mm_set1_epi32 (x : Z) : m128 :=
  M128 (x mod 2 ^ 32) (x mod 2 ^ 32) (x mod 2 ^ 32) (x mod 2 ^ 32).
Definition mm_srl_epi64 (v : m128) (count : Z) : m128 :=
  if bool_decide (63 < count) then M128 0 0 0 0
  else m128_of_u64s (Z.shiftr (m128_lo v) count) (Z.shiftr (m128_hi v) count).
Definition m128_lane (v : m128) (k : Z) : Z :=
  if bool_decide (k = 0) then lane0 v else if bool_decide (k = 1) then lane1 v
  else if bool_decide (k = 2) then lane2 v else lane3 v.
Definition mm_shuffle_epi32 (imm : Z) (v : m128) : m128 :=
  M128 (m128_lane v (Z.land imm 3)) (m128_lane v (Z.land (Z.shiftr imm 2) 3))
       (m128_lane v (Z.land (Z.shiftr imm 4) 3)) (m128_lane v (Z.land (Z.shiftr imm 6) 3)).
Definition mm_unpacklo_epi64 (a b : m128) : m128 :=
  M128 (lane0 a) (lane1 a) (lane0 b) (lane1 b).
Definition cmpeq_lane (x y : Z) : Z := if bool_decide (x = y) then 2 ^ 32 - 1 else 0.
Definition mm_cmpeq_epi32 (a b : m128) : m128 :=
  M128 (cmpeq_lane (lane0 a) (lane0 b)) (cmpeq_lane (lane1 a) (lane1 b))
       (cmpeq_lane (lane2 a) (lane2 b)) (cmpeq_lane (lane3 a) (lane3 b)).
(** The top bits of the four bytes of a lane, then of the sixteen bytes of a register. *)
Definition movemask_lane (x : Z) : Z :=
  Z.b2z (Z.testbit x 7) + 2 * Z.b2z (Z.testbit x 15)
  + 4 * Z.b2z (Z.testbit x 23) + 8 * Z.b2z (Z.testbit x 31).
Definition mm_movemask_epi8 (v : m128) : Z :=
  movemask_lane (lane0 v) + 16 * movemask_lane (lane1 v)
  + 256 * movemask_lane (lane2 v) + 4096 * movemask_lane (lane3 v).

Fixpoint pos_trailing_zeros (p : positive) : nat :=
  match p with xO p' => S (pos_trailing_zeros p') | _ => O end.
Definition trailing_zeros (w : nat) (z : Z) : nat :=
  match z with Zpos p => pos_trailing_zeros p | _ => w end.

Definition SHUFFLE : Z := 216. (* 0b11011000 *)

(** One iteration of the loop: the mask of the matching lanes among entries [i..i+4). *)
Definition sse2_mask (shift pk : Z) (chunk : bytes) (i : nat) : outcome Z :=
  w0 ← mm_loadu chunk i;
  w1 ← mm_loadu chunk (i + 2);
  let first_two := mm_shuffle_epi32 SHUFFLE (mm_srl_epi64 w0 shift) in
  let last_two := mm_shuffle_epi32 SHUFFLE (mm_srl_epi64 w1 shift) in
  let current := mm_unpacklo_epi64 first_two last_two in
  Ok (mm_movemask_epi8 (mm_cmpeq_epi32 current (mm_set1_epi32 pk))).

Fixpoint sse2_loop (fuel : nat) (shift pk : Z) (chunk : bytes) (i skip : nat)
    : outcome (Z * nat) :=
  match fuel with
  | O => NoFuel
  | S fuel' =>
      if decide (i + 4 ≤ CHUNK_ENTRIES)%nat then
        mask ← sse2_mask shift pk chunk i;
        let cmp := Z.shiftr mask (Z.of_nat skip * 4) in
        if bool_decide (cmp ≠ 0) then
          let position := (i + skip + trailing_zeros 32 cmp / 4)%nat in
          e ← read_entry chunk position; Ok (e, position)
        else sse2_loop fuel' shift pk chunk (i + 4) 0
      else Ok (Entry_empty, 0%nat)
  end.

Definition find_entry_sse2 (index_bits key_prefix : Z) (sub_index : nat) (chunk : bytes)
    : outcome (Z * nat) :=
  let shift := Z.max 32 (address_bits index_bits) in
  let pk := shr64 (shl64 key_prefix index_bits) shift in
  if bool_decide (pk = 0) then find_entry_base index_bits key_prefix sub_index chunk
  else
    let i := (sub_index / 4 * 4)%nat in
    sse2_loop (S CHUNK_ENTRIES) shift pk chunk i (sub_index - i).

(** ** Reading and writing entries *)
Lemma read_entry_Ok chunk i :
  length chunk = CHUNK_LEN → (i < CHUNK_ENTRIES)%nat →
  ∃ e, read_entry chunk i = Ok e ∧ in_range 64 e.
Proof.
  intros Hl Hi. unfold read_entry, slice. unfold CHUNK_LEN, CHUNK_ENTRIES in *.
  rewrite decide_True by lia. eexists; split; [done|].
  replace 64 with (8 * Z.of_nat (length (take (i * 8 + 8 - i * 8) (drop (i * 8) chunk)))).
  - apply le_val_range.
  - len.
Qed.

Lemma write_entry_Ok chunk i e :
  length chunk = CHUNK_LEN → (i < CHUNK_ENTRIES)%nat →
  ∃ chunk', write_entry e i chunk = Ok chunk' ∧ length chunk' = CHUNK_LEN.
Proof.
  intros Hl Hi. unfold write_entry, CHUNK_LEN, CHUNK_ENTRIES in *.
  eexists; split; [apply overwrite_Ok; len|]. len.
Qed.

Lemma read_write_same chunk i e chunk' :
  in_range 64 e → write_entry e i chunk = Ok chunk' → read_entry chunk' i = Ok e.
Proof.
  unfold write_entry, overwrite, read_entry. case_decide as H; intros He Hw; simplify_eq/=. len.
  erewrite slice_mid; [|len..]; simpl.
  - f_equal. by apply le_val_bytes_small.
Qed.

Lemma read_write_other chunk i j e chunk' :
  i ≠ j → write_entry e i chunk = Ok chunk' → read_entry chunk' j = read_entry chunk j.
Proof.
  unfold write_entry, overwrite, read_entry, slice. case_decide as H; intros Hne Hw; simplify_eq.
  rewrite !le_bytes_length in *.
  assert (Hl : length (take (i * 8) chunk ++ le_bytes 8 e ++ drop (i * 8 + 8) chunk) = length chunk) by len.
  rewrite Hl. case_decide as Hj; [simpl|done]. do 2 f_equal.
  apply list_eq. intros k. destruct (decide (k < 8)%nat).
  2:{ rewrite !lookup_take_ge by lia. done. }
  rewrite !lookup_take_lt, !lookup_drop by lia.
  destruct (decide (j * 8 + k < i * 8)%nat).
  - rewrite lookup_app_l, lookup_take_lt by len. done.
  - rewrite lookup_app_r, lookup_app_r by len. rewrite lookup_drop. f_equal. len.
Qed.

(** ** A reference for both searches: the first entry from [i] on that satisfies [P] *)
Fixpoint find_first (P : Z → bool) (chunk : bytes) (n i : nat) : outcome (Z * nat) :=
  match n with
  | O => Ok (Entry_empty, 0%nat)
  | S n' => e ← read_entry chunk i; if P e then Ok (e, i) else find_first P chunk n' (S i)
  end.

Lemma find_entry_base_first ib kp sub chunk :
  find_entry_base ib kp sub chunk =
  find_first (λ e, bool_decide (Entry_partial_key e ib = extract_key kp ib) && negb (Entry_is_empty e))
    chunk (CHUNK_ENTRIES - sub) sub.
Proof.
  unfold find_entry_base. generalize (CHUNK_ENTRIES - sub)%nat as n. intros n. revert sub.
  induction n as [|n IH]; intros; simpl; [done|]. destruct (read_entry _ _); simpl; [|done..].
  by destruct (_ && _).
Qed.

Lemma find_first_ext P Q chunk n i :
  (∀ e, in_range 64 e → P e = Q e) → length chunk = CHUNK_LEN → (i + n ≤ CHUNK_ENTRIES)%nat →
  find_first P chunk n i = find_first Q chunk n i.
Proof.
  intros Hpq Hl. revert i. induction n as [|n IH]; intros i Hi; simpl; [done|].
  destruct (read_entry_Ok chunk i) as (e & -> & He); [done|lia|]. simpl.
  rewrite (Hpq e He). destruct (Q e); [done|]. apply IH. lia.
Qed.

Lemma find_first_found P chunk n i e j :
  find_first P chunk n i = Ok (e, j) → (P e = true ∧ i ≤ j < i + n)%nat ∧ read_entry chunk j = Ok e
  ∨ e = Entry_empty ∧ j = 0%nat ∧ ∀ k x, (i ≤ k < i + n)%nat → read_entry chunk k = Ok x → P x = false.
Proof.
  revert i. induction n as [|n IH]; intros i H; simpl in H.
  - simplify_eq. right. split_and!; [done..|]. intros; lia.
  - destruct (read_entry chunk i) as [x| | |] eqn:E; simpl in H; try done.
    destruct (P x) eqn:HP; simplify_eq.
    + left. split_and!; auto; lia.
    + destruct (IH _ H) as [?|(?&?&Hall)]; [left; intuition lia|]. right. split_and!; [done..|].
      intros k y Hk Hy. destruct (decide (k = i)) as [->|]; [congruence|].
      apply (Hall k); [lia|done].
Qed.

Lemma find_first_least P chunk n i k x :
  length chunk = CHUNK_LEN → (i + n ≤ CHUNK_ENTRIES)%nat → (i ≤ k < i + n)%nat →
  read_entry chunk k = Ok x → P x = true →
  ∃ e j, find_first P chunk n i = Ok (e, j) ∧ (i ≤ j ≤ k)%nat ∧ P e = true ∧ read_entry chunk j = Ok e.
Proof.
  intros Hl. revert i. induction n as [|n IH]; intros i Hn Hk Hx HP; [lia|]. simpl.
  destruct (read_entry_Ok chunk i) as (y & Hy & _); [done|lia|]. rewrite Hy. simpl.
  destruct (P y) eqn:HPy; [exists y, i; split_and!; auto; lia|].
  destruct (decide (k = i)) as [->|]; [congruence|].
  destruct (IH (S i)) as (e & j & ? & ? & ?); [lia..|done|done|]. exists e, j. intuition lia.
Qed.

(** ** The vector search *)
Definition sse2_match (shift pk e : Z) : bool := bool_decide (e / 2 ^ shift mod 2 ^ 32 = pk mod 2 ^ 32).

Lemma m128_lo_of lo hi : in_range 64 lo → m128_lo (m128_of_u64s lo hi) = lo.
Proof. intros. unfold m128_lo. simpl. pose proof (Z.div_mod lo (2 ^ 32) ltac:(lia)). lia. Qed.

Lemma m128_hi_of lo hi : in_range 64 hi → m128_hi (m128_of_u64s lo hi) = hi.
Proof. intros. unfold m128_hi. simpl. pose proof (Z.div_mod hi (2 ^ 32) ltac:(lia)). lia. Qed.

Lemma movemask_cmpeq x y :
  movemask_lane (cmpeq_lane x y) = if bool_decide (x = y) then 15 else 0.
Proof. unfold cmpeq_lane. by case_bool_decide. Qed.

Definition group_mask (b0 b1 b2 b3 : bool) : Z :=
  15 * Z.b2z b0 + 16 * (15 * Z.b2z b1) + 256 * (15 * Z.b2z b2) + 4096 * (15 * Z.b2z b3).

Lemma sse2_mask_eq shift pk chunk i e0 e1 e2 e3 :
  0 ≤ shift ≤ 63 →
  in_range 64 e0 → in_range 64 e1 → in_range 64 e2 → in_range 64 e3 →
  read_entry chunk i = Ok e0 → read_entry chunk (i + 1) = Ok e1 →
  read_entry chunk (i + 2) = Ok e2 → read_entry chunk (i + 3) = Ok e3 →
  sse2_mask shift pk chunk i = Ok (group_mask (sse2_match shift pk e0) (sse2_match shift pk e1)
                                     (sse2_match shift pk e2) (sse2_match shift pk e3)).
Proof.
  intros Hs H0 H1 H2 H3 E0 E1 E2 E3. unfold sse2_mask, mm_loadu.
  replace (S i) with (i + 1)%nat by lia. replace (S (i + 2)) with (i + 3)%nat by lia.
  rewrite E0, E1, E2, E3. simpl.
  unfold mm_srl_epi64. rewrite bool_decide_false by lia.
  rewrite !m128_lo_of, !m128_hi_of by done. rewrite !Z.shiftr_div_pow2 by lia.
  unfold mm_movemask_epi8, mm_cmpeq_epi32, mm_unpacklo_epi64, mm_shuffle_epi32, mm_set1_epi32, m128_of_u64s.
  cbn [lane0 lane1 lane2 lane3]. rewrite !movemask_cmpeq. unfold group_mask, sse2_match.
  change (m128_lane ?v (Z.land SHUFFLE 3)) with (lane0 v).
  change (m128_lane ?v (Z.land (Z.shiftr SHUFFLE 2) 3)) with (lane2 v).
  cbn [lane0 lane1 lane2 lane3].
  f_equal. do 4 case_bool_decide; reflexivity.
Qed.

(** What the shifted mask says about four flags: whether one of them from [skip] on is set,
    and which is the first. *)
Lemma group_mask_first b0 b1 b2 b3 skip :
  (skip < 4)%nat →
  let cmp := Z.shiftr (group_mask b0 b1 b2 b3) (Z.of_nat skip * 4) in
  match list_find (λ b, b = true) (drop skip [b0; b1; b2; b3]) with
  | Some (k, _) => cmp ≠ 0 ∧ (trailing_zeros 32 cmp / 4 = k)%nat
  | None => cmp = 0
  end.
Proof.
  intros Hs. destruct skip as [|[|[|[|]]]]; [..|lia];
    destruct b0, b1, b2, b3; vm_compute; try split; congruence.
Qed.

Lemma find_first_list P chunk es n i :
  (∀ k e, es !! k = Some e → read_entry chunk (i + k) = Ok e) →
  find_first P chunk (length es + n) i
  = match list_find (λ e, P e = true) es with
    | Some (k, e) => Ok (e, i + k)%nat
    | None => find_first P chunk n (i + length es)
    end.
Proof.
  revert i. induction es as [|e es IH]; intros i H; simpl; [by rewrite Nat.add_0_r|].
  assert (read_entry chunk i = Ok e) as ->.
  { rewrite <-(Nat.add_0_r i). by apply H. }
  simpl. destruct (P e) eqn:HP.
  - rewrite decide_True by done. by rewrite Nat.add_0_r.
  - rewrite decide_False by congruence. rewrite IH.
    + destruct (list_find _ _) as [[k x]|]; simpl; do 2 f_equal; lia.
    + intros k x Hx. rewrite Nat.add_succ_comm. by apply H.
Qed.

Lemma sse2_loop_first shift pk chunk fuel i skip :
  length chunk = CHUNK_LEN → 0 ≤ shift ≤ 63 → (skip < 4)%nat → (4 * (i / 4) = i)%nat →
  (i ≤ CHUNK_ENTRIES)%nat → (skip = 0 ∨ i < CHUNK_ENTRIES)%nat → (CHUNK_ENTRIES - i < fuel)%nat →
  sse2_loop fuel shift pk chunk i skip
  = find_first (sse2_match shift pk) chunk (CHUNK_ENTRIES - (i + skip)) (i + skip).
Proof.
  intros Hl Hs. revert i skip. induction fuel as [|fuel IH]; intros i skip Hk Hm Hi Hi' Hf; [lia|].
  simpl. unfold CHUNK_ENTRIES in *. case_decide as Hd.
  2:{ pose proof (Nat.div_mod_eq i 4). assert (i = 64)%nat as -> by lia.
      assert (skip = 0)%nat as -> by lia. done. }
  destruct (read_entry_Ok chunk i) as (e0 & E0 & R0); [done|unfold CHUNK_ENTRIES; lia|].
  destruct (read_entry_Ok chunk (i + 1)) as (e1 & E1 & R1); [done|unfold CHUNK_ENTRIES; lia|].
  destruct (read_entry_Ok chunk (i + 2)) as (e2 & E2 & R2); [done|unfold CHUNK_ENTRIES; lia|].
  destruct (read_entry_Ok chunk (i + 3)) as (e3 & E3 & R3); [done|unfold CHUNK_ENTRIES; lia|].
  rewrite (sse2_mask_eq shift pk chunk i e0 e1 e2 e3) by done. simpl.
  pose proof (group_mask_first (sse2_match shift pk e0) (sse2_match shift pk e1)
                (sse2_match shift pk e2) (sse2_match shift pk e3) skip Hk) as Hg.
  cbv zeta in Hg.
  change [_; _; _; _] with (sse2_match shift pk <$> [e0; e1; e2; e3]) in Hg.
  rewrite <-fmap_drop, list_find_fmap in Hg.
  set (es := [e0; e1; e2; e3]) in *.
  assert (Hes : ∀ k e, drop skip es !! k = Some e → read_entry chunk (i + skip + k) = Ok e).
  { intros k e. rewrite lookup_drop, <-Nat.add_assoc. destruct (skip + k)%nat as [|[|[|[|]]]];
      simpl; intros; simplify_eq; rewrite ?Nat.add_0_r; done. }
  assert (Hlen : length (drop skip es) = (4 - skip)%nat) by (rewrite length_drop; done).
  replace (64 - (i + skip))%nat with (length (drop skip es) + (64 - (i + 4)))%nat by lia.
  rewrite find_first_list by done. unfold compose in Hg.
  destruct (list_find _ (drop skip es)) as [[k e]|] eqn:Hfind; simpl in Hg.
  - destruct Hg as [Hc ->]. rewrite bool_decide_true by done.
    apply list_find_Some in Hfind as (Hlk & _ & _). by rewrite (Hes _ _ Hlk).
  - rewrite bool_decide_false by auto. rewrite IH; [|lia| |lia|by left|lia].
    + f_equal; lia.
    + replace (i + 4)%nat with (i + 1 * 4)%nat by lia. rewrite Nat.div_add by lia. lia.
Qed.

(** ** Properties *)

(** The comparison key of the vector search and what it selects. *)
Lemma find_entry_sse2_first ib kp sub chunk :
  valid_bits ib → in_range 64 kp → length chunk = CHUNK_LEN → (sub ≤ CHUNK_ENTRIES)%nat →
  let shift := Z.max 32 (address_bits ib) in
  let pk := shr64 (shl64 kp ib) shift in
  pk ≠ 0 →
  find_entry_sse2 ib kp sub chunk
  = find_first (λ e, bool_decide (e / 2 ^ shift = pk)) chunk (CHUNK_ENTRIES - sub) sub.
Proof.
  intros Hib Hk Hl Hsub shift pk Hpk. unfold find_entry_sse2. fold shift pk.
  rewrite bool_decide_false by done.
  assert (Hs : 32 ≤ shift ≤ 63).
  { unfold shift. rewrite address_bits_eq by done. unfold valid_bits in Hib. lia. }
  set (i := (sub / 4 * 4)%nat).
  assert (Hi : (i ≤ sub ∧ sub - i < 4)%nat).
  { unfold i. pose proof (Nat.div_mod_eq sub 4). pose proof (Nat.mod_upper_bound sub 4). lia. }
  assert (Hi4 : (4 * (i / 4) = i)%nat) by (unfold i; rewrite Nat.div_mul; lia).
  rewrite sse2_loop_first by (try done; unfold CHUNK_ENTRIES in *; lia).
  replace (i + (sub - i))%nat with sub by lia.
  apply find_first_ext; [|done|unfold CHUNK_ENTRIES in *; lia].
  intros e He. unfold sse2_match. apply bool_decide_ext.
  assert (Hr : ∀ x, in_range 64 x → in_range 32 (x / 2 ^ shift)).
  { intros x Hx. assert (in_range (64 - shift) (x / 2 ^ shift)) as Hr.
    { apply div_pow2_range; [lia..|]. by replace (shift + (64 - shift)) with 64 by lia. }
    unfold in_range in *. split; [lia|]. eapply Z.lt_le_trans; [apply Hr|].
    apply Z.pow_le_mono_r; lia. }
  assert (Hp : in_range 32 pk).
  { unfold pk. rewrite shr64_div by lia. apply Hr. unfold shl64. by apply wrap_range. }
  rewrite !Z.mod_small by (try apply Hr; done). done.
Qed.

Lemma sse2_key_of_extract ib kp :
  valid_bits ib →
  let shift := Z.max 32 (address_bits ib) in
  shr64 (shl64 kp ib) shift = extract_key kp ib / 2 ^ (shift - address_bits ib).
Proof.
  intros H shift. unfold extract_key, shift. rewrite !address_bits_eq by done. unfold valid_bits in H.
  rewrite !shr64_div, Z.div_div by (try apply pow2_pos; lia).
  rewrite <-Z.pow_add_r by lia. do 2 f_equal. lia.
Qed.

Lemma sse2_word_of_partial ib e :
  valid_bits ib →
  let shift := Z.max 32 (address_bits ib) in
  e / 2 ^ shift = Entry_partial_key e ib / 2 ^ (shift - address_bits ib).
Proof.
  intros H shift. unfold Entry_partial_key, shift. rewrite !address_bits_eq by done. unfold valid_bits in H.
  rewrite shr64_div, Z.div_div by (try apply pow2_pos; lia).
  rewrite <-Z.pow_add_r by lia. do 2 f_equal. lia.
Qed.

(** C25.  The vector search is the scalar search.  For every index of 18 to 49 bits, every
    key, every starting position and every chunk, [find_entry_sse2] returns the entry and
    the position that [find_entry_base] returns, the not-found answer included. *)
Theorem find_entry_sse2_is_base ib kp sub chunk :
  18 ≤ ib ≤ 49 → in_range 64 kp → length chunk = CHUNK_LEN → (sub ≤ CHUNK_ENTRIES)%nat →
  find_entry_sse2 ib kp sub chunk = find_entry_base ib kp sub chunk.
Proof.
  intros Hib Hk Hl Hsub. assert (H : valid_bits ib) by (unfold valid_bits; lia).
  destruct (decide (shr64 (shl64 kp ib) (Z.max 32 (address_bits ib)) = 0)) as [E|E].
  { unfold find_entry_sse2. by rewrite E, bool_decide_true. }
  rewrite find_entry_sse2_first by done. rewrite find_entry_base_first.
  rewrite sse2_key_of_extract in * by done.
  apply find_first_ext; [|done|unfold CHUNK_ENTRIES in *; lia]. intros e He.
  rewrite sse2_word_of_partial by done.
  replace (Z.max 32 (address_bits ib) - address_bits ib) with 0 in *
    by (rewrite address_bits_eq by done; lia).
  rewrite Z.pow_0_r, !Z.div_1_r in *.
  case_bool_decide as E1; [|done]. simpl. unfold Entry_is_empty.
  rewrite bool_decide_false; [done|]. intros ->. apply E. rewrite <-E1.
  unfold Entry_partial_key, shr64. by rewrite Z.shiftr_0_l.
Qed.

Definition sample_chunk : bytes :=
  match write_entry (Entry_new (Address_new 1 1) (extract_key (index_from_partial sample_key) 18) 18)
          5 EMPTY_CHUNK with Ok c => c | _ => [] end.
Lemma find_entry_sse2_is_base_witness :
  find_entry_base 18 (index_from_partial sample_key) 3 sample_chunk
  = Ok (Entry_new (Address_new 1 1) (extract_key (index_from_partial sample_key) 18) 18, 5%nat) ∧
  find_entry_sse2 18 (index_from_partial sample_key) 3 sample_chunk
  = find_entry_base 18 (index_from_partial sample_key) 3 sample_chunk.
Proof.
  split; [by vm_compute|].
  apply (find_entry_sse2_is_base 18 (index_from_partial sample_key) 3 sample_chunk);
    [lia | by apply index_from_partial_range | by vm_compute | unfold CHUNK_ENTRIES; lia].
Defined.

(** C26.  The vector search never skips a match.  In an index of any size (also of 16 and 17
    bits, where it compares only the 32 leading bits of a longer partial key), when the
    scalar search finds an entry at [i] the vector search stops at a non-empty entry between
    the starting position and [i]; the caller, which resumes after a candidate whose value
    has another key, therefore reaches every entry the scalar search would reach. *)
Theorem find_entry_sse2_never_skips ib kp sub chunk e i :
  valid_bits ib → in_range 64 kp → length chunk = CHUNK_LEN → (sub ≤ CHUNK_ENTRIES)%nat →
  find_entry_base ib kp sub chunk = Ok (e, i) → Entry_is_empty e = false →
  ∃ e' i', find_entry_sse2 ib kp sub chunk = Ok (e', i') ∧ (sub ≤ i' ≤ i)%nat ∧
    read_entry chunk i' = Ok e' ∧ Entry_is_empty e' = false.
Proof.
  intros H Hk Hl Hsub Hb He.
  pose proof Hb as Hb'. rewrite find_entry_base_first in Hb'.
  apply find_first_found in Hb' as [[[HP Hi] Hr]|[-> _]]; [|done].
  destruct (decide (shr64 (shl64 kp ib) (Z.max 32 (address_bits ib)) = 0)) as [E|E].
  { exists e, i. unfold find_entry_sse2. rewrite E, bool_decide_true by done.
    split_and!; auto; lia. }
  rewrite find_entry_sse2_first by done. rewrite sse2_key_of_extract in * by done.
  apply andb_true_iff in HP as [HP _]. apply bool_decide_eq_true in HP.
  destruct (find_first_least
    (λ e, bool_decide (e / 2 ^ Z.max 32 (address_bits ib)
                       = extract_key kp ib / 2 ^ (Z.max 32 (address_bits ib) - address_bits ib)))
    chunk (CHUNK_ENTRIES - sub) sub i e) as (e' & j & Hf & Hj & HP' & Hr');
    [done|lia|lia|done| |].
  { apply bool_decide_eq_true. rewrite sse2_word_of_partial by done. by rewrite HP. }
  exists e', j. split_and!; [done|lia|lia|done|].
  apply bool_decide_eq_true in HP'. unfold Entry_is_empty. apply bool_decide_eq_false. intros ->.
  apply E. rewrite <-HP'. by rewrite Z.div_0_l by (pose proof (pow2_pos (Z.max 32 (address_bits ib))); lia).
Qed.

Definition sample_chunk16 : bytes :=
  match write_entry (Entry_new (Address_new 1 1) (extract_key (index_from_partial sample_key) 16) 16)
          5 EMPTY_CHUNK with Ok c => c | _ => [] end.
Lemma find_entry_sse2_never_skips_witness :
  ∃ e' i', find_entry_sse2 16 (index_from_partial sample_key) 3 sample_chunk16 = Ok (e', i') ∧ (3 ≤ i' ≤ 5)%nat ∧
    read_entry sample_chunk16 i' = Ok e' ∧ Entry_is_empty e' = false.
Proof.
  apply (find_entry_sse2_never_skips 16 (index_from_partial sample_key) 3 sample_chunk16
    (Entry_new (Address_new 1 1) (extract_key (index_from_partial sample_key) 16) 16) 5);
    [unfold valid_bits; lia | by apply index_from_partial_range | by vm_compute
     | unfold CHUNK_ENTRIES; lia | by vm_compute | by vm_compute].
Defined.
