(* ===== verification/Log.v ===== *)
(** * The write-ahead log: overlays, writer, record format and reader (src/src/log.rs)

    A [LogWriter] collects the changes of one record over the overlays of the records that
    are not enacted yet; [flush_to_file] serialises the record; a [LogReader] parses it back;
    [end_record] publishes the changes in the overlays and [end_read] removes them once the
    record has been enacted.  The checksum function of the crate crc32fast is a parameter. *)

From S2P Require Import Prelude IndexEntry IndexChunk.

(** ** Data *)
Definition BEGIN_RECORD : Z := 1.
Definition INSERT_INDEX : Z := 2.
Definition INSERT_VALUE : Z := 3.
Definition END_RECORD : Z := 4.
Definition DROP_TABLE : Z := 5.

Inductive LogAction :=
  | BeginRecord
  | InsertIndex (table index : Z)
  | InsertValue (table index : Z)
  | DropTable (id : Z)
  | EndRecord.

(** index -> (record_id, modified_mask, chunk) *)
Abbreviation IndexLogOverlay := (gmap Z (Z * Z * bytes)).
(** index -> (record_id, entry) *)
Abbreviation ValueLogOverlay := (gmap Z (Z * bytes)).

Record LogOverlays := mkOverlays {
  ov_index : gmap Z IndexLogOverlay;
  ov_value : gmap Z ValueLogOverlay;
  ov_last_record_id : gmap Z Z;
}.
Definition LogOverlays_default : LogOverlays := mkOverlays ∅ ∅ ∅.

Definition LogOverlays_last_record_id (o : LogOverlays) (col : Z) : Z :=
  default u64_max (ov_last_record_id o !! col).

Record LogChange := mkChange {
  local_index : gmap Z IndexLogOverlay;
  local_values : gmap Z ValueLogOverlay;
  record_id : Z;
  dropped_tables : list Z;
}.
Definition LogChange_new (rid : Z) : LogChange := mkChange ∅ ∅ rid [].

Record LogWriter := mkWriter { overlays : LogOverlays; change : LogChange }.
Definition LogWriter_new (o : LogOverlays) (rid : Z) : LogWriter := mkWriter o (LogChange_new rid).

(** ** The [LogQuery] trait

    [with_index] gives the chunk of an index table and [value_entry] the entry of a value
    table that a pending record has changed.  [log_value] is the method [value]: it copies as
    much of the entry as fits into the destination buffer. *)
Class LogQuery (L : Type) := {
  with_index : L → Z → Z → option bytes;
  value_entry : L → Z → Z → option bytes;
}.

Definition log_value `{LogQuery L} (log : L) (table index : Z) (dest : bytes) : option bytes :=
  match value_entry log table index with
  | Some d => Some (copy_prefix d dest)
  | None => None
  end.

Definition lookup_index (m : gmap Z IndexLogOverlay) (table index : Z) : option bytes :=
  o ← m !! table; '(_, _, data) ← o !! index; Some data.
Definition lookup_value (m : gmap Z ValueLogOverlay) (table index : Z) : option bytes :=
  o ← m !! table; '(_, data) ← o !! index; Some data.

#[export] Instance LogQuery_overlays : LogQuery LogOverlays := {|
  with_index o table index := lookup_index (ov_index o) table index;
  value_entry o table index := lookup_value (ov_value o) table index;
|}.

#[export] Instance LogQuery_writer : LogQuery LogWriter := {|
  with_index w table index :=
    match lookup_index (local_index (change w)) table index with
    | Some data => Some data
    | None => with_index (overlays w) table index
    end;
  value_entry w table index :=
    match lookup_value (local_values (change w)) table index with
    | Some data => Some data
    | None => value_entry (overlays w) table index
    end;
|}.

(** ** The writer *)
Definition insert_index (table index sub : Z) (data : bytes) (w : LogWriter) : LogWriter :=
  let c := change w in
  let o := default ∅ (local_index c !! table) in
  let mask := match o !! index with Some (_, m, _) => Z.lor m (shl64 1 sub) | None => shl64 1 sub end in
  mkWriter (overlays w)
    (mkChange (<[table := <[index := (record_id c, mask, data)]> o]> (local_index c))
       (local_values c) (record_id c) (dropped_tables c)).

Definition insert_value (table index : Z) (data : bytes) (w : LogWriter) : LogWriter :=
  let c := change w in
  let o := default ∅ (local_values c !! table) in
  mkWriter (overlays w)
    (mkChange (local_index c)
       (<[table := <[index := (record_id c, data)]> o]> (local_values c))
       (record_id c) (dropped_tables c)).

Definition drop_table (id : Z) (w : LogWriter) : LogWriter :=
  let c := change w in
  mkWriter (overlays w)
    (mkChange (local_index c) (local_values c) (record_id c) (dropped_tables c ++ [id])).

Definition local_values_changes (c : LogChange) (id : Z) : option ValueLogOverlay :=
  local_values c !! id.

(** The numbers the loop [while mask != 0 { i = mask.trailing_zeros(); mask &= !(1 << i); .. }]
    visits; a 64-bit mask needs at most 64 rounds. *)
Fixpoint mask_loop (fuel : nat) (mask : Z) : list nat :=
  match fuel with
  | O => []
  | S fuel' =>
      if bool_decide (mask = 0) then []
      else
        let i := trailing_zeros 64 mask in
        i :: mask_loop fuel' (Z.ldiff mask (Z.shiftl 1 (Z.of_nat i)))
  end.
Definition mask_bits (mask : Z) : list nat := mask_loop 65 mask.

(** [chunk[i * ENTRY_BYTES..(i + 1) * ENTRY_BYTES]] *)
Definition chunk_entry (chunk : bytes) (i : nat) : bytes := take 8 (drop (i * 8) chunk).

(** ** Serialisation of a record

    [HashMap::iter] yields the items of a map in an unspecified order, so the items are given
    as lists; the theorems quantify over every order. *)
Definition encode_index_item (table index mask : Z) (chunk : bytes) : bytes :=
  le_bytes 1 INSERT_INDEX ++ le_bytes 2 table ++ le_bytes 8 index ++ le_bytes 8 mask
  ++ concat (chunk_entry chunk <$> mask_bits mask).
Definition encode_value_item (table index : Z) (value : bytes) : bytes :=
  le_bytes 1 INSERT_VALUE ++ le_bytes 2 table ++ le_bytes 8 index ++ value.
Definition encode_drop (id : Z) : bytes := le_bytes 1 DROP_TABLE ++ le_bytes 2 id.

Abbreviation index_items := (list (Z * list (Z * (Z * Z * bytes)))).
Abbreviation value_items := (list (Z * list (Z * (Z * bytes)))).

Definition record_body (rid : Z) (is_ : index_items) (vs : value_items) (ds : list Z) : bytes :=
  le_bytes 1 BEGIN_RECORD ++ le_bytes 8 rid
  ++ concat ((λ '(id, o), concat ((λ '(index, (_, mask, chunk)), encode_index_item id index mask chunk) <$> o)) <$> is_)
  ++ concat ((λ '(id, o), concat ((λ '(index, (_, value)), encode_value_item id index value) <$> o)) <$> vs)
  ++ concat (encode_drop <$> ds)
  ++ le_bytes 1 END_RECORD.

(** The reader of a log file.  [rd_stream] is what is left of the file, [rd_crc] the bytes
    fed to the hasher so far. *)
Record Cleared := mkCleared { cl_index : list (Z * Z); cl_values : list (Z * Z) }.

Record LogReader := mkReader {
  rd_stream : bytes;
  rd_record_id : Z;
  rd_read_bytes : Z;
  rd_crc : bytes;
  rd_validate : bool;
  rd_cleared : Cleared;
}.

Definition LogReader_new (stream : bytes) (validate : bool) : LogReader :=
  mkReader stream 0 0 [] validate (mkCleared [] []).

(** [LogReader::read]: fill a buffer of [n] bytes, count them and feed the hasher. *)
Definition LogReader_read (n : nat) : M LogReader bytes := λ r,
  match read_exact n (rd_stream r) with
  | Ok (d, rest) =>
      (Ok d, mkReader rest (rd_record_id r) (rd_read_bytes r + Z.of_nat n)
               (if rd_validate r then rd_crc r ++ d else rd_crc r)
               (rd_validate r) (rd_cleared r))
  | Err e => (Err e, r)
  | Panic => (Panic, r)
  | NoFuel => (NoFuel, r)
  end.

Definition set_record_id (rid : Z) (r : LogReader) : LogReader :=
  mkReader (rd_stream r) rid (rd_read_bytes r) (rd_crc r) (rd_validate r) (rd_cleared r).
Definition push_cleared_index (table index : Z) (r : LogReader) : LogReader :=
  mkReader (rd_stream r) (rd_record_id r) (rd_read_bytes r) (rd_crc r) (rd_validate r)
    (mkCleared (cl_index (rd_cleared r) ++ [(table, index)]) (cl_values (rd_cleared r))).
Definition push_cleared_value (table index : Z) (r : LogReader) : LogReader :=
  mkReader (rd_stream r) (rd_record_id r) (rd_read_bytes r) (rd_crc r) (rd_validate r)
    (mkCleared (cl_index (rd_cleared r)) (cl_values (rd_cleared r) ++ [(table, index)])).

Section crc.
(** [crc32fast]: the CRC-32 of the bytes fed to a hasher. *)
Context (crc32 : bytes → Z).

Definition flush_to_file (rid : Z) (is_ : index_items) (vs : value_items) (ds : list Z) : bytes :=
  let body := record_body rid is_ vs ds in body ++ le_bytes 4 (crc32 body).

(** The four bytes of the checksum: not fed to the hasher; [std::mem::take] resets it. *)
Definition read_checksum : M LogReader unit := λ r,
  match read_exact 4 (rd_stream r) with
  | Ok (d, rest) =>
      let r' := mkReader rest (rd_record_id r) (rd_read_bytes r + 4)
                  (if rd_validate r then [] else rd_crc r) (rd_validate r) (rd_cleared r) in
      if rd_validate r && bool_decide (le_val d ≠ crc32 (rd_crc r))
      then (Err (Corruption "Log record CRC-32 mismatch"), r') else (Ok tt, r')
  | Err e => (Err e, r)
  | Panic => (Panic, r)
  | NoFuel => (NoFuel, r)
  end.

Definition LogReader_next : M LogReader LogAction :=
  b ← LogReader_read 1;
  let tag := le_val b in
  if bool_decide (tag = BEGIN_RECORD) then
    d ← LogReader_read 8; _ ← modify (set_record_id (le_val d)); mret BeginRecord
  else if bool_decide (tag = INSERT_INDEX) then
    t ← LogReader_read 2; i ← LogReader_read 8;
    _ ← modify (push_cleared_index (le_val t) (le_val i));
    mret (InsertIndex (le_val t) (le_val i))
  else if bool_decide (tag = INSERT_VALUE) then
    t ← LogReader_read 2; i ← LogReader_read 8;
    _ ← modify (push_cleared_value (le_val t) (le_val i));
    mret (InsertValue (le_val t) (le_val i))
  else if bool_decide (tag = END_RECORD) then
    _ ← read_checksum; mret EndRecord
  else if bool_decide (tag = DROP_TABLE) then
    t ← LogReader_read 2; mret (DropTable (le_val t))
  else fail (Corruption "Bad log entry type").
End crc.

(** [LogReader::reset] seeks back by [read_bytes] in the file [whole] and starts over. *)
Definition LogReader_reset (whole : bytes) (r : LogReader) : LogReader :=
  mkReader (drop (length whole - length (rd_stream r) - Z.to_nat (rd_read_bytes r)) whole)
    0 0 [] (rd_validate r) (mkCleared [] []).

(** ** Publishing a record and clearing it *)
Definition extend_tables {A} (new old : gmap Z (gmap Z A)) : gmap Z (gmap Z A) :=
  union_with (λ n o, Some (n ∪ o)) new old.

(** The part of [Log::end_record] that moves the flushed changes to the overlays. *)
Definition end_record_overlays (c : LogChange) (o : LogOverlays) : LogOverlays :=
  mkOverlays
    (extend_tables (local_index c) (ov_index o))
    (extend_tables (local_values c) (ov_value o))
    (map_fold (λ id _ acc, <[TableId_col id := record_id c]> acc)
       (ov_last_record_id o) (local_values c)).

(** Remove the entry of [index] when it was written by record [rid]. *)
Definition clear_entry {A} (rid_of : A → Z) (rid : Z) (m : gmap Z (gmap Z A)) (ti : Z * Z)
    : gmap Z (gmap Z A) :=
  match m !! ti.1 with
  | Some o =>
      match o !! ti.2 with
      | Some x => if bool_decide (rid_of x = rid) then <[ti.1 := delete ti.2 o]> m else m
      | None => m
      end
  | None => m
  end.

Definition end_read_overlays (cl : Cleared) (rid : Z) (o : LogOverlays) : LogOverlays :=
  let index' := foldl (clear_entry (λ x : Z * Z * bytes, x.1.1) rid) (ov_index o) (cl_index cl) in
  let value' := foldl (clear_entry (λ x : Z * bytes, x.1) rid) (ov_value o) (cl_values cl) in
  mkOverlays (filter (λ kv, kv.2 ≠ ∅) index') value' (ov_last_record_id o).

(** ** Lookups after a write *)
Lemma lookup_value_insert m t i x t' i' :
  lookup_value (<[t := <[i := x]> (default ∅ (m !! t))]> m) t' i'
  = if decide (t = t' ∧ i = i') then Some x.2 else lookup_value m t' i'.
Proof.
  unfold lookup_value. destruct (decide (t = t')) as [<-|Ht].
  - rewrite lookup_insert_eq. simpl. rewrite lookup_insert. repeat case_decide; try naive_solver.
    + by destruct x.
    + destruct (m !! t); simpl; [done|]. by rewrite lookup_empty.
  - rewrite lookup_insert_ne by done. case_decide; naive_solver.
Qed.

Lemma lookup_index_insert m t i x t' i' :
  lookup_index (<[t := <[i := x]> (default ∅ (m !! t))]> m) t' i'
  = if decide (t = t' ∧ i = i') then Some x.2 else lookup_index m t' i'.
Proof.
  unfold lookup_index. destruct (decide (t = t')) as [<-|Ht].
  - rewrite lookup_insert_eq. simpl. rewrite lookup_insert. repeat case_decide; try naive_solver.
    + by destruct x as [[] ?].
    + destruct (m !! t); simpl; [done|]. by rewrite lookup_empty.
  - rewrite lookup_insert_ne by done. case_decide; naive_solver.
Qed.

Lemma value_entry_insert w t i d t' i' :
  value_entry (insert_value t i d w) t' i'
  = if decide (t = t' ∧ i = i') then Some d else value_entry w t' i'.
Proof. simpl. rewrite lookup_value_insert. by case_decide. Qed.

Lemma value_entry_insert_eq w t i d : value_entry (insert_value t i d w) t i = Some d.
Proof. rewrite value_entry_insert. by rewrite decide_True. Qed.

Lemma value_entry_insert_ne w t i d t' i' :
  t ≠ t' ∨ i ≠ i' → value_entry (insert_value t i d w) t' i' = value_entry w t' i'.
Proof. intros. rewrite value_entry_insert. rewrite decide_False by naive_solver. done. Qed.

Lemma with_index_insert w t i s d t' i' :
  with_index (insert_index t i s d w) t' i'
  = if decide (t = t' ∧ i = i') then Some d else with_index w t' i'.
Proof. simpl. rewrite lookup_index_insert. by case_decide. Qed.

Lemma value_entry_insert_index w t i s d t' i' :
  value_entry (insert_index t i s d w) t' i' = value_entry w t' i'.
Proof. done. Qed.

Lemma with_index_insert_value w t i d t' i' :
  with_index (insert_value t i d w) t' i' = with_index w t' i'.
Proof. done. Qed.

(** ** The bits of a mask *)
Lemma pos_trailing_zeros_spec p :
  Z.testbit (Zpos p) (Z.of_nat (pos_trailing_zeros p)) = true ∧
  ∀ j, 0 ≤ j < Z.of_nat (pos_trailing_zeros p) → Z.testbit (Zpos p) j = false.
Proof.
  induction p as [p IH|p IH|]; [split; [done|simpl; lia]| |split; [done|simpl; lia]].
  simpl pos_trailing_zeros. rewrite Nat2Z.inj_succ. change (Zpos p~0) with (2 * Zpos p).
  destruct IH as [IH1 IH2]. split.
  - rewrite Z.double_bits_succ. done.
  - intros j Hj. destruct (decide (j = 0)) as [->|]; [apply Z.testbit_even_0|].
    replace j with (Z.succ (j - 1)) by lia. rewrite Z.double_bits_succ. apply IH2. lia.
Qed.

Lemma trailing_zeros_spec w m :
  0 < m → Z.testbit m (Z.of_nat (trailing_zeros w m)) = true ∧
  ∀ j, 0 ≤ j < Z.of_nat (trailing_zeros w m) → Z.testbit m j = false.
Proof. destruct m; try lia. intros _. apply pos_trailing_zeros_spec. Qed.

Lemma testbit_range m j : in_range 64 m → Z.testbit m j = true → 0 ≤ j < 64.
Proof.
  intros Hm Hj. destruct (decide (j < 0)); [by rewrite Z.testbit_neg_r in Hj by lia|].
  destruct (decide (j < 64)); [lia|]. unfold in_range in Hm.
  rewrite <-(Z.mod_small m (2 ^ 64)) in Hj by lia. by rewrite Z.mod_pow2_bits_high in Hj by lia.
Qed.

Lemma mask_loop_spec fuel m k :
  in_range 64 m → (∀ j, 0 ≤ j < Z.of_nat k → Z.testbit m j = false) → (64 < k + fuel)%nat →
  NoDup (mask_loop fuel m) ∧
  ∀ i, i ∈ mask_loop fuel m ↔ Z.testbit m (Z.of_nat i) = true.
Proof.
  revert m k. induction fuel as [|fuel IH]; intros m k Hm Hk Hf.
  - simpl. split; [constructor|]. intros i. rewrite elem_of_nil. split; [done|].
    intros Hi. pose proof (testbit_range _ _ Hm Hi). rewrite Hk in Hi; [done|lia].
  - simpl. case_bool_decide as H0.
    { subst. split; [constructor|]. intros i. by rewrite elem_of_nil, Z.bits_0. }
    unfold in_range in Hm. destruct (trailing_zeros_spec 64 m ltac:(lia)) as [Ht Hlow].
    set (t := trailing_zeros 64 m) in *.
    set (m' := Z.ldiff m (Z.shiftl 1 (Z.of_nat t))).
    assert (Hbit : ∀ j, 0 ≤ j → Z.testbit m' j = Z.testbit m j && negb (bool_decide (j = Z.of_nat t))).
    { intros j Hj. unfold m'. rewrite Z.ldiff_spec, Z.shiftl_mul_pow2, Z.mul_1_l by lia.
      do 2 f_equal. rewrite Z.pow2_bits_eqb by lia. case_bool_decide; lia. }
    destruct (IH m' (S t)) as [Hnd Hin].
    + unfold in_range, m'. pose proof (Z.ldiff_nonneg m (Z.shiftl 1 (Z.of_nat t))) as [_ Hnn].
      split; [apply Hnn; left; lia|]. eapply Z.le_lt_trans; [|apply Hm]. apply Z.ldiff_le; [lia|].
      apply Z.bits_inj'. intros n Hn. rewrite !Z.ldiff_spec, Z.bits_0.
      by destruct (Z.testbit m n), (Z.testbit _ n).
    + intros j Hj. rewrite Hbit by lia. case_bool_decide; [by rewrite andb_false_r|].
      rewrite Hlow; [done|lia].
    + pose proof (testbit_range m (Z.of_nat t) ltac:(done) Ht).
      destruct (decide (t < k)%nat); [|lia]. rewrite Hk in Ht; [done|lia].
    + split.
      * constructor; [|done]. rewrite Hin, Hbit by lia. rewrite bool_decide_true by done.
        by rewrite andb_false_r.
      * intros i. rewrite elem_of_cons, Hin, Hbit by lia.
        destruct (decide (i = t)) as [->|]; [rewrite Ht; naive_solver|].
        rewrite bool_decide_false by lia. rewrite andb_true_r. naive_solver.
Qed.

Lemma mask_bits_NoDup m : in_range 64 m → NoDup (mask_bits m).
Proof. intros. apply (mask_loop_spec 65 m 0); [done|lia..]. Qed.

Lemma elem_of_mask_bits m i : in_range 64 m → i ∈ mask_bits m ↔ Z.testbit m (Z.of_nat i) = true.
Proof. intros. apply (mask_loop_spec 65 m 0); [done|lia..]. Qed.

Lemma mask_bits_lt m i : in_range 64 m → i ∈ mask_bits m → (i < 64)%nat.
Proof. intros H Hi%elem_of_mask_bits; [|done]. pose proof (testbit_range _ _ H Hi). lia. Qed.

(** ** The reader on a serialised record *)
Lemma LogReader_read_app d rest r :
  rd_stream r = d ++ rest →
  LogReader_read (length d) r
  = (Ok d, mkReader rest (rd_record_id r) (rd_read_bytes r + Z.of_nat (length d))
             (if rd_validate r then rd_crc r ++ d else rd_crc r) (rd_validate r) (rd_cleared r)).
Proof. intros E. unfold LogReader_read. by rewrite E, read_exact_app. Qed.

Lemma LogReader_read_n n d rest r :
  rd_stream r = d ++ rest → length d = n →
  LogReader_read n r
  = (Ok d, mkReader rest (rd_record_id r) (rd_read_bytes r + Z.of_nat n)
             (if rd_validate r then rd_crc r ++ d else rd_crc r) (rd_validate r) (rd_cleared r)).
Proof. intros E <-. by apply LogReader_read_app. Qed.

(** Consuming [d] from the stream: the position, the byte count and the hasher advance. *)
Definition consume (d : bytes) (r : LogReader) : LogReader :=
  mkReader (drop (length d) (rd_stream r)) (rd_record_id r)
    (rd_read_bytes r + Z.of_nat (length d))
    (if rd_validate r then rd_crc r ++ d else rd_crc r) (rd_validate r) (rd_cleared r).

Lemma LogReader_read_consume n d rest r :
  rd_stream r = d ++ rest → length d = n → LogReader_read n r = (Ok d, consume d r).
Proof.
  intros E <-. rewrite (LogReader_read_app _ rest) by done. unfold consume.
  by rewrite E, drop_app_length.
Qed.

Lemma consume_stream d rest r : rd_stream r = d ++ rest → rd_stream (consume d r) = rest.
Proof. intros E. simpl. by rewrite E, drop_app_length. Qed.

Lemma consume_app d e r : consume e (consume d r) = consume (d ++ e) r.
Proof.
  unfold consume; simpl. f_equal.
  - by rewrite drop_drop, length_app.
  - rewrite length_app. lia.
  - destruct (rd_validate r); [by rewrite app_assoc|done].
Qed.

Lemma consume_nil r : consume [] r = r.
Proof. destruct r as [? ? ? ? v ?]. unfold consume; simpl. f_equal; [lia|]. destruct v; [apply app_nil_r|done]. Qed.

Lemma push_cleared_value_consume t i d r :
  push_cleared_value t i (consume d r) = consume d (push_cleared_value t i r).
Proof. done. Qed.

Lemma push_cleared_index_consume t i d r :
  push_cleared_index t i (consume d r) = consume d (push_cleared_index t i r).
Proof. done. Qed.

Lemma in_range_le_val n z : in_range (8 * Z.of_nat n) z → le_val (le_bytes n z) = z.
Proof. apply le_val_bytes_small. Qed.

Section crc_facts.
Context (crc32 : bytes → Z).

Lemma next_tag tag rest r :
  rd_stream r = le_bytes 1 tag ++ rest → in_range 8 tag →
  ∀ {A} (k : bytes → M LogReader A),
  (LogReader_read 1 ≫= k) r = k (le_bytes 1 tag) (consume (le_bytes 1 tag) r).
Proof.
  intros E Ht A k. apply M_bind_Ok. eapply LogReader_read_consume; [done|apply le_bytes_length].
Qed.

Lemma next_value_item t i v rest r :
  in_range 16 t → in_range 64 i →
  rd_stream r = encode_value_item t i v ++ rest →
  LogReader_next crc32 r
  = (Ok (InsertValue t i),
     push_cleared_value t i (consume (le_bytes 1 INSERT_VALUE ++ le_bytes 2 t ++ le_bytes 8 i) r)).
Proof.
  intros Ht Hi E. unfold encode_value_item in E. rewrite <-!app_assoc in E.
  unfold LogReader_next. rewrite (next_tag INSERT_VALUE _ r E) by done.
  rewrite in_range_le_val by done. simpl.
  pose proof (consume_stream _ _ _ E) as E1.
  erewrite M_bind_Ok by (eapply LogReader_read_consume; [exact E1|apply le_bytes_length]).
  pose proof (consume_stream _ _ _ E1) as E2.
  erewrite M_bind_Ok by (eapply LogReader_read_consume; [exact E2|apply le_bytes_length]).
  rewrite !in_range_le_val by done. cbn. by rewrite !consume_app, app_assoc.
Qed.

Lemma next_index_item t i m chunk rest r :
  in_range 16 t → in_range 64 i →
  rd_stream r = encode_index_item t i m chunk ++ rest →
  LogReader_next crc32 r
  = (Ok (InsertIndex t i),
     push_cleared_index t i (consume (le_bytes 1 INSERT_INDEX ++ le_bytes 2 t ++ le_bytes 8 i) r)).
Proof.
  intros Ht Hi E. unfold encode_index_item in E. rewrite <-!app_assoc in E.
  unfold LogReader_next. rewrite (next_tag INSERT_INDEX _ r E) by done.
  rewrite in_range_le_val by done. simpl.
  pose proof (consume_stream _ _ _ E) as E1.
  erewrite M_bind_Ok by (eapply LogReader_read_consume; [exact E1|apply le_bytes_length]).
  pose proof (consume_stream _ _ _ E1) as E2.
  erewrite M_bind_Ok by (eapply LogReader_read_consume; [exact E2|apply le_bytes_length]).
  rewrite !in_range_le_val by done. cbn. by rewrite !consume_app, app_assoc.
Qed.

Lemma next_drop id rest r :
  in_range 16 id → rd_stream r = encode_drop id ++ rest →
  LogReader_next crc32 r = (Ok (DropTable id), consume (encode_drop id) r).
Proof.
  intros Ht E. unfold encode_drop in E. rewrite <-!app_assoc in E.
  unfold LogReader_next. rewrite (next_tag DROP_TABLE _ r E) by done.
  rewrite in_range_le_val by done. simpl.
  pose proof (consume_stream _ _ _ E) as E1.
  erewrite M_bind_Ok by (eapply LogReader_read_consume; [exact E1|apply le_bytes_length]).
  rewrite !in_range_le_val by done. cbn. by rewrite consume_app.
Qed.

Lemma next_begin rid rest r :
  in_range 64 rid → rd_stream r = le_bytes 1 BEGIN_RECORD ++ le_bytes 8 rid ++ rest →
  LogReader_next crc32 r
  = (Ok BeginRecord, set_record_id rid (consume (le_bytes 1 BEGIN_RECORD ++ le_bytes 8 rid) r)).
Proof.
  intros Ht E. unfold LogReader_next. rewrite (next_tag BEGIN_RECORD _ r E) by done.
  rewrite in_range_le_val by done. simpl.
  pose proof (consume_stream _ _ _ E) as E1.
  erewrite M_bind_Ok by (eapply LogReader_read_consume; [exact E1|apply le_bytes_length]).
  rewrite !in_range_le_val by done. cbn. by rewrite consume_app.
Qed.

Lemma next_end checksum rest r :
  in_range 32 checksum →
  rd_stream r = le_bytes 1 END_RECORD ++ le_bytes 4 checksum ++ rest →
  (rd_validate r = true → checksum = crc32 (rd_crc r ++ le_bytes 1 END_RECORD)) →
  ∃ r', LogReader_next crc32 r = (Ok EndRecord, r') ∧ rd_stream r' = rest ∧
    rd_record_id r' = rd_record_id r ∧ rd_cleared r' = rd_cleared r ∧
    rd_read_bytes r' = rd_read_bytes r + 5 ∧ rd_validate r' = rd_validate r.
Proof.
  intros Hc E Hv. unfold LogReader_next. rewrite (next_tag END_RECORD _ r E) by done.
  rewrite in_range_le_val by done. simpl. pose proof (consume_stream _ _ _ E) as E1.
  unfold mbind, M_bind, read_checksum. rewrite E1, read_exact_app by (by rewrite le_bytes_length).
  rewrite in_range_le_val by done. simpl rd_validate. simpl rd_crc.
  destruct (rd_validate r) eqn:Ev; simpl.
  - rewrite bool_decide_false by (intros Hn; apply Hn; auto).
    eexists; split_and!; try done. simpl. rewrite le_bytes_length. lia.
  - eexists; split_and!; try done. simpl. rewrite le_bytes_length. lia.
Qed.
End crc_facts.

(** ** Publishing and clearing: what the overlays show *)
Lemma lookup_extend_tables {A} (new old : gmap Z (gmap Z A)) t i :
  (extend_tables new old !! t ≫= λ o, o !! i)
  = match new !! t ≫= λ o, o !! i with
    | Some x => Some x
    | None => old !! t ≫= λ o, o !! i
    end.
Proof.
  unfold extend_tables. rewrite lookup_union_with.
  destruct (new !! t) as [n|], (old !! t) as [o|]; simpl; try done.
  - rewrite lookup_union. by destruct (n !! i), (o !! i).
  - by destruct (n !! i).
Qed.

Lemma lookup_value_bind m t i : lookup_value m t i = (m !! t ≫= λ o, o !! i) ≫= λ x, Some x.2.
Proof. unfold lookup_value. destruct (m !! t) as [o|]; simpl; [|done]. by destruct (o !! i) as [[]|]. Qed.

Lemma lookup_index_bind m t i : lookup_index m t i = (m !! t ≫= λ o, o !! i) ≫= λ x, Some x.2.
Proof. unfold lookup_index. destruct (m !! t) as [o|]; simpl; [|done]. by destruct (o !! i) as [[[]]|]. Qed.

Lemma end_record_view (w : LogWriter) t i :
  value_entry (end_record_overlays (change w) (overlays w)) t i = value_entry w t i ∧
  with_index (end_record_overlays (change w) (overlays w)) t i = with_index w t i.
Proof.
  simpl. rewrite !lookup_value_bind, !lookup_index_bind, !lookup_extend_tables.
  split.
  - by destruct (local_values (change w) !! t ≫= λ o, o !! i).
  - by destruct (local_index (change w) !! t ≫= λ o, o !! i).
Qed.

(**  Ending a record changes nothing that can be seen: for every table and slot, the
    overlays after [end_record] answer both kinds of query exactly as the writer of the record
    did before, so commits that follow build on the same contents. *)
Theorem end_record_same_view (w : LogWriter) t i :
  value_entry (end_record_overlays (change w) (overlays w)) t i = value_entry w t i ∧
  with_index (end_record_overlays (change w) (overlays w)) t i = with_index w t i.
Proof. apply end_record_view. Qed.

Lemma lookup_clear_entry {A} (rid_of : A → Z) rid m ti t i :
  (clear_entry rid_of rid m ti !! t ≫= λ o, o !! i)
  = match m !! t ≫= λ o, o !! i with
    | Some x => if decide (ti = (t, i) ∧ rid_of x = rid) then None else Some x
    | None => None
    end.
Proof.
  unfold clear_entry. destruct ti as [t' i']; simpl.
  destruct (m !! t') as [o|] eqn:Eo; [destruct (o !! i') as [x|] eqn:Ex; [case_bool_decide|]|].
  - destruct (decide (t' = t)) as [->|Ht].
    + rewrite lookup_insert_eq, Eo. simpl. destruct (decide (i' = i)) as [->|Hi].
      * rewrite lookup_delete_eq, Ex. simpl. by rewrite decide_True.
      * rewrite lookup_delete_ne by done. destruct (o !! i); simpl; [|done]. by rewrite decide_False by naive_solver.
    + rewrite lookup_insert_ne by done. destruct (m !! t ≫= _); [|done]. by rewrite decide_False by naive_solver.
  - destruct (m !! t ≫= _) as [y|] eqn:Ey; [|done]. rewrite decide_False; [done|].
    intros [E ?]. simplify_eq. rewrite Eo in Ey. simpl in Ey. congruence.
  - destruct (m !! t ≫= _) as [y|] eqn:Ey; [|done]. rewrite decide_False; [done|].
    intros [E ?]. simplify_eq. rewrite Eo in Ey. simpl in Ey. congruence.
  - destruct (m !! t ≫= _) as [y|] eqn:Ey; [|done]. rewrite decide_False; [done|].
    intros [E ?]. simplify_eq. rewrite Eo in Ey. done.
Qed.

Lemma lookup_clear_entries {A} (rid_of : A → Z) rid l m t i :
  (foldl (clear_entry rid_of rid) m l !! t ≫= λ o, o !! i)
  = match m !! t ≫= λ o, o !! i with
    | Some x => if decide ((t, i) ∈ l ∧ rid_of x = rid) then None else Some x
    | None => None
    end.
Proof.
  revert m. induction l as [|ti l IH]; intros m; cbn [foldl].
  - destruct (m !! t ≫= _) as [x|]; [|done]. rewrite decide_False; [done|]. intros [H _].
    by apply elem_of_nil in H.
  - rewrite IH, lookup_clear_entry. destruct (m !! t ≫= _) as [x|]; [|done].
    repeat case_decide; set_solver.
Qed.

Lemma lookup_filter_nonempty {A} (m : gmap Z (gmap Z A)) t i
    `{Hdec : ∀ kv : Z * gmap Z A, Decision (kv.2 ≠ ∅)} :
  (filter (λ kv, kv.2 ≠ ∅) m !! t ≫= λ o, o !! i) = (m !! t ≫= λ o, o !! i).
Proof.
  rewrite map_lookup_filter. destruct (m !! t) as [o|]; simpl; [|done].
  destruct (decide (o = ∅)) as [->|].
  - rewrite option_guard_False by naive_solver. simpl. by rewrite lookup_empty.
  - by rewrite option_guard_True.
Qed.

(** The record that wrote what an overlay shows for a slot. *)
Definition value_writer (o : LogOverlays) (t i : Z) : option Z :=
  (ov_value o !! t ≫= λ m, m !! i) ≫= λ x, Some x.1.
Definition index_writer (o : LogOverlays) (t i : Z) : option Z :=
  (ov_index o !! t ≫= λ m, m !! i) ≫= λ x, Some x.1.1.

(**  Clearing an enacted record hides exactly what it wrote.  After [end_read] of record
    [rid] a slot shows nothing when the record listed it and is still the last writer of the
    slot; every other slot, in particular one that a later record has overwritten, shows what
    it showed before. *)
Theorem end_read_clears_own_entries cl rid o t i :
  let o' := end_read_overlays cl rid o in
  value_entry o' t i
  = (if decide ((t, i) ∈ cl_values cl ∧ value_writer o t i = Some rid)
     then None else value_entry o t i) ∧
  with_index o' t i
  = (if decide ((t, i) ∈ cl_index cl ∧ index_writer o t i = Some rid)
     then None else with_index o t i).
Proof.
  unfold value_writer, index_writer. simpl.
  rewrite !lookup_value_bind, !lookup_index_bind, lookup_filter_nonempty, !lookup_clear_entries.
  split.
  - destruct (ov_value o !! t ≫= _) as [x|]; simpl; [|by case_decide].
    repeat case_decide; simpl; naive_solver.
  - destruct (ov_index o !! t ≫= _) as [x|]; simpl; [|by case_decide].
    repeat case_decide; simpl; naive_solver.
Qed.
