(* ===== verification/Stats.v ===== *)
(** * Column statistics (src/src/stats.rs)

    The counters of a column, their updates (atomic, so they wrap around), and their
    serialisation in the meta data of the index file. *)

From S2P Require Import Prelude.

Definition HISTOGRAM_BUCKETS : nat := 1024.
Definition HISTOGRAM_BUCKET_BITS : Z := 5.
Definition TIERS : nat := 256.
Definition TOTAL_SIZE : nat := (4 * HISTOGRAM_BUCKETS + 8 * HISTOGRAM_BUCKETS + 8 * TIERS + 8 * 13)%nat.

(** Two's complement: the signed 64-bit value of an integer. *)
Definition i64 (z : Z) : Z :=
  let u := z mod 2 ^ 64 in if bool_decide (u < 2 ^ 63) then u else u - 2 ^ 64.
Definition in_i64 (z : Z) : Prop := - 2 ^ 63 ≤ z < 2 ^ 63.

Record ColumnStats := mkStats {
  value_histogram : list Z;
  query_histogram : list Z;
  oversized : Z;
  oversized_bytes : Z;
  total_values : Z;
  total_bytes : Z;
  commits : Z;
  inserted_new : Z;
  inserted_overwrite : Z;
  reference_increase_hit : Z;
  reference_increase_miss_count : Z;
  removed_hit : Z;
  removed_miss : Z;
  queries_miss : Z;
  uncompressed_bytes : Z;
  compression_delta : list Z;
}.

Record ColumnStatSummary := mkSummary {
  sum_total_values : Z; sum_total_bytes : Z; sum_uncompressed_bytes : Z }.

Definition stats_empty : ColumnStats :=
  mkStats (replicate HISTOGRAM_BUCKETS 0) (replicate TIERS 0) 0 0 0 0 0 0 0 0 0 0 0 0 0
    (replicate HISTOGRAM_BUCKETS 0).

Definition stats_clear (s : ColumnStats) : ColumnStats :=
  mkStats ((λ _, 0) <$> value_histogram s) ((λ _, 0) <$> query_histogram s)
    0 0 0 0 0 0 0 0 0 0 0 0 0 ((λ _, 0) <$> compression_delta s).

Definition stats_summary (s : ColumnStats) : ColumnStatSummary :=
  mkSummary (total_values s) (total_bytes s) (uncompressed_bytes s).

Definition value_histogram_index (size : Z) : option nat :=
  let bucket := Z.shiftr size HISTOGRAM_BUCKET_BITS in
  if bool_decide (bucket < Z.of_nat HISTOGRAM_BUCKETS) then Some (Z.to_nat bucket) else None.

(** ** Serialisation.  A [Cursor] over a slice: reads and writes panic past its end. *)
Definition cursor_read (n : nat) (data : bytes) : outcome (Z * bytes) :=
  if decide (n ≤ length data)%nat then Ok (le_val (take n data), drop n data) else Panic.

Fixpoint cursor_read_many (w n : nat) (data : bytes) : outcome (list Z * bytes) :=
  match n with
  | O => Ok ([], data)
  | S n' => '(x, data) ← cursor_read w data; '(xs, data) ← cursor_read_many w n' data; Ok (x :: xs, data)
  end.

Definition write_many (w : nat) (xs : list Z) : bytes := concat (le_bytes w <$> xs).

Definition stats_from_slice (data : bytes) : outcome ColumnStats :=
  '(vh, data) ← cursor_read_many 4 HISTOGRAM_BUCKETS data;
  '(qh, data) ← cursor_read_many 8 TIERS data;
  '(f1, data) ← cursor_read_many 8 11 data;
  '(cd, data) ← cursor_read_many 8 HISTOGRAM_BUCKETS data;
  '(f2, data) ← cursor_read_many 8 2 data;
  match f1, f2 with
  | [ov; ob; tv; tb; co; ins; inov; rh; rm; qm; ub], [rih; rim] =>
      Ok (mkStats vh qh ov ob tv tb co ins inov rih rim rh rm qm ub (i64 <$> cd))
  | _, _ => Panic
  end.

Definition stats_bytes (s : ColumnStats) : bytes :=
  write_many 4 (value_histogram s) ++ write_many 8 (query_histogram s)
  ++ write_many 8 [oversized s; oversized_bytes s; total_values s; total_bytes s; commits s;
                   inserted_new s; inserted_overwrite s; removed_hit s; removed_miss s;
                   queries_miss s; uncompressed_bytes s]
  ++ write_many 8 (compression_delta s)
  ++ write_many 8 [reference_increase_hit s; reference_increase_miss_count s].

Definition stats_to_slice (s : ColumnStats) (data : bytes) : outcome bytes :=
  overwrite data 0 (stats_bytes s).

(** ** Updates *)
Definition add_at (wr : Z → Z) (i : nat) (d : Z) (l : list Z) : list Z := alter (λ x, wr (x + d)) i l.

Definition stats_query_hit (size_tier : Z) (s : ColumnStats) : outcome ColumnStats :=
  if decide (Z.to_nat size_tier < length (query_histogram s))%nat then
    Ok (mkStats (value_histogram s) (add_at u64 (Z.to_nat size_tier) 1 (query_histogram s))
      (oversized s) (oversized_bytes s) (total_values s) (total_bytes s) (commits s) (inserted_new s)
      (inserted_overwrite s) (reference_increase_hit s) (reference_increase_miss_count s) (removed_hit s)
      (removed_miss s) (queries_miss s) (uncompressed_bytes s) (compression_delta s))
  else Panic.

Definition stats_query_miss (s : ColumnStats) : ColumnStats :=
  mkStats (value_histogram s) (query_histogram s)
    (oversized s) (oversized_bytes s) (total_values s) (total_bytes s) (commits s) (inserted_new s)
    (inserted_overwrite s) (reference_increase_hit s) (reference_increase_miss_count s) (removed_hit s)
    (removed_miss s) (u64 (queries_miss s + 1)) (uncompressed_bytes s) (compression_delta s).

(** [insert] ([sign = 1]) and [remove] ([sign = -1]) touch the same counters. *)
Definition stats_add (sign size compressed : Z) (s : ColumnStats) : ColumnStats :=
  let '(vh, cd, ov, ob) :=
    match value_histogram_index size with
    | Some index =>
        (add_at u32 index sign (value_histogram s),
         add_at i64 index (sign * (size - compressed)) (compression_delta s),
         oversized s, oversized_bytes s)
    | None =>
        (value_histogram s, compression_delta s, u64 (oversized s + sign),
         u64 (oversized_bytes s + sign * compressed))
    end in
  mkStats vh (query_histogram s) ov ob (u64 (total_values s + sign))
    (u64 (total_bytes s + sign * compressed)) (commits s) (inserted_new s) (inserted_overwrite s)
    (reference_increase_hit s) (reference_increase_miss_count s) (removed_hit s) (removed_miss s)
    (queries_miss s) (u64 (uncompressed_bytes s + sign * size)) cd.
Definition stats_insert (size compressed : Z) : ColumnStats → ColumnStats := stats_add 1 size compressed.
Definition stats_remove (size compressed : Z) : ColumnStats → ColumnStats := stats_add (-1) size compressed.

(** The counters of events. *)
Definition bump (news overw rih rim rh rm com : Z) (s : ColumnStats) : ColumnStats :=
  mkStats (value_histogram s) (query_histogram s) (oversized s) (oversized_bytes s) (total_values s)
    (total_bytes s) (u64 (commits s + com)) (u64 (inserted_new s + news)) (u64 (inserted_overwrite s + overw))
    (u64 (reference_increase_hit s + rih)) (u64 (reference_increase_miss_count s + rim))
    (u64 (removed_hit s + rh)) (u64 (removed_miss s + rm)) (queries_miss s) (uncompressed_bytes s)
    (compression_delta s).

Definition insert_val (size compressed : Z) (s : ColumnStats) : ColumnStats :=
  stats_insert size compressed (bump 1 0 0 0 0 0 0 s).
Definition remove_val (size compressed : Z) (s : ColumnStats) : ColumnStats :=
  stats_remove size compressed (bump 0 0 0 0 1 0 0 s).
Definition reference_increase (s : ColumnStats) : ColumnStats := bump 0 0 1 0 0 0 0 s.
Definition reference_increase_miss (s : ColumnStats) : ColumnStats := bump 0 0 0 1 0 0 0 s.
Definition remove_miss (s : ColumnStats) : ColumnStats := bump 0 0 0 0 0 1 0 s.
Definition replace_val (old old_compressed new new_compressed : Z) (s : ColumnStats) : ColumnStats :=
  stats_insert new new_compressed (stats_remove old old_compressed (bump 0 1 0 0 0 0 0 s)).
Definition stats_commit (s : ColumnStats) : ColumnStats := bump 0 0 0 0 0 0 1 s.

(** ** Well-formed counters *)
Record wf_stats (s : ColumnStats) : Prop := {
  ws_vh : length (value_histogram s) = HISTOGRAM_BUCKETS ∧ Forall (in_range 32) (value_histogram s);
  ws_qh : length (query_histogram s) = TIERS ∧ Forall (in_range 64) (query_histogram s);
  ws_cd : length (compression_delta s) = HISTOGRAM_BUCKETS ∧ Forall in_i64 (compression_delta s);
  ws_rest : Forall (in_range 64)
    [oversized s; oversized_bytes s; total_values s; total_bytes s; commits s; inserted_new s;
     inserted_overwrite s; removed_hit s; removed_miss s; queries_miss s; uncompressed_bytes s;
     reference_increase_hit s; reference_increase_miss_count s];
}.

Lemma i64_small z : in_i64 z → i64 z = z.
Proof.
  unfold i64, in_i64. intros H. destruct (decide (0 ≤ z)).
  - rewrite Z.mod_small by lia. by rewrite bool_decide_true by lia.
  - rewrite <-(Z_mod_plus_full z 1 (2 ^ 64)), Z.mod_small by lia. rewrite bool_decide_false by lia. lia.
Qed.

Lemma i64_mod z : i64 (z mod 2 ^ 64) = i64 z.
Proof. unfold i64. by rewrite Z.mod_mod by lia. Qed.

Lemma i64_add x d : i64 (i64 x + d) = i64 (x + d).
Proof.
  rewrite <-(i64_mod (i64 x + d)), <-(i64_mod (x + d)). f_equal. unfold i64. case_bool_decide.
  - by rewrite Zplus_mod_idemp_l.
  - replace (x mod 2 ^ 64 - 2 ^ 64 + d) with (x mod 2 ^ 64 + d + (-1) * 2 ^ 64) by lia.
    rewrite Z_mod_plus_full. by rewrite Zplus_mod_idemp_l.
Qed.

Lemma write_many_length w xs : length (write_many w xs) = (w * length xs)%nat.
Proof.
  induction xs as [|x xs IH]; [simpl; lia|]. change (write_many w (x :: xs)) with (le_bytes w x ++ write_many w xs).
  rewrite length_app, le_bytes_length, IH. simpl. lia.
Qed.
#[export] Hint Rewrite write_many_length : len.

Lemma read_write_many w xs rest :
  cursor_read_many w (length xs) (write_many w xs ++ rest)
  = Ok ((λ x, x mod 2 ^ (8 * Z.of_nat w)) <$> xs, rest).
Proof.
  induction xs as [|x xs IH]; [done|]. change (write_many w (x :: xs)) with (le_bytes w x ++ write_many w xs).
  simpl. rewrite <-app_assoc. unfold cursor_read. rewrite decide_True by len.
  rewrite take_app_length', drop_app_length' by (by rewrite le_bytes_length). simpl.
  rewrite IH. simpl. by rewrite le_val_bytes.
Qed.

Lemma read_write_many_small w n xs rest :
  length xs = n → Forall (in_range (8 * Z.of_nat w)) xs →
  cursor_read_many w n (write_many w xs ++ rest) = Ok (xs, rest).
Proof.
  intros <- Hx. rewrite read_write_many. do 2 f_equal. rewrite <-(list_fmap_id xs) at 2.
  apply list_fmap_ext. intros i x Hi. rewrite Forall_lookup in Hx. by apply Z.mod_small, (Hx i).
Qed.

Lemma stats_bytes_length s : wf_stats s → length (stats_bytes s) = TOTAL_SIZE.
Proof.
  intros [[H1 _] [H2 _] [H3 _] _]. unfold stats_bytes. autorewrite with len. rewrite H1, H2, H3. done.
Qed.

(** C30. The statistics written to the meta data of an index are read back unchanged, and
    they take exactly the space that is reserved for them. *)
Theorem stats_roundtrip s data :
  wf_stats s → length data = TOTAL_SIZE →
  ∃ d, stats_to_slice s data = Ok d ∧ length d = TOTAL_SIZE ∧ stats_from_slice d = Ok s.
Proof.
  intros Hw Hd. pose proof (stats_bytes_length s Hw) as Hl.
  unfold stats_to_slice. rewrite overwrite_Ok by lia. rewrite take_0. simpl.
  rewrite drop_ge by lia. rewrite app_nil_r. eexists. split; [done|]. split; [done|].
  destruct Hw as [[H1 R1] [H2 R2] [H3 R3] R4]. unfold stats_from_slice, stats_bytes.
  rewrite (read_write_many_small 4) by done. cbn [mbind outcome_bind].
  rewrite (read_write_many_small 8 TIERS) by done. cbn [mbind outcome_bind].
  rewrite (read_write_many_small 8 11) by (done || by repeat (apply Forall_cons in R4 as [? R4]; apply Forall_cons; split; [done|])).
  cbn [mbind outcome_bind].
  rewrite <-H3, read_write_many. cbn [mbind outcome_bind].
  rewrite <-(app_nil_r (write_many 8 [_; _])), (read_write_many_small 8 2); [|done|].
  2: { do 11 (apply Forall_cons in R4 as [_ R4]). done. }
  cbn [mbind outcome_bind]. destruct s; simpl in *. do 2 f_equal.
  rewrite <-list_fmap_compose. rewrite <-(list_fmap_id compression_delta0) at 2.
  apply list_fmap_ext. intros i x Hi. rewrite Forall_lookup in R3. simpl.
  change (8 * Z.of_nat 8) with 64. rewrite i64_mod. by apply i64_small, (R3 i).
Qed.

Lemma stats_empty_wf : wf_stats stats_empty.
Proof.
  split; cbn [value_histogram query_histogram compression_delta stats_empty];
    try (split; [apply length_replicate|by apply Forall_replicate]).
  by repeat (apply Forall_cons; split; [done|]).
Qed.

Lemma stats_roundtrip_witness :
  ∃ d, stats_to_slice stats_empty (replicate TOTAL_SIZE Byte.x07) = Ok d ∧ length d = TOTAL_SIZE ∧
    stats_from_slice d = Ok stats_empty.
Proof. apply (stats_roundtrip stats_empty); [apply stats_empty_wf|apply length_replicate]. Defined.

(** ** Removing undoes inserting *)
Lemma add_at_inverse wr i d l :
  (∀ x y, wr (wr x + y) = wr (x + y)) → Forall (λ x, wr x = x) l →
  add_at wr i (- d) (add_at wr i d l) = l.
Proof.
  intros Hw Hl. unfold add_at. apply list_eq. intros j.
  destruct (decide (i = j)) as [->|Hne]; [|by rewrite !list_lookup_alter_ne].
  rewrite !list_lookup_alter_eq. destruct (l !! j) as [x|] eqn:E; [|done]. simpl.
  rewrite Hw. replace (x + d + - d) with x by lia. f_equal. rewrite Forall_lookup in Hl. by eapply Hl.
Qed.

Lemma wrap_add w x y : wrap w (wrap w x + y) = wrap w (x + y).
Proof. apply Zplus_mod_idemp_l. Qed.

Lemma wrap_undo w x d : in_range w x → wrap w (wrap w (x + d) + - d) = x.
Proof. intros. rewrite wrap_add. replace (x + d + - d) with x by lia. by apply wrap_small. Qed.

(** Removing a value from the statistics undoes its insertion exactly, wrap-around of the
    counters included, provided both calls are given the sizes in the same order. *)
Theorem stats_remove_undoes_insert s size compressed :
  wf_stats s → stats_remove size compressed (stats_insert size compressed s) = s.
Proof.
  intros [[_ R1] [_ R2] [_ R3] R4]. unfold stats_remove, stats_insert, stats_add.
  assert (Hw : ∀ w l, Forall (in_range w) l → Forall (λ x, wrap w x = x) l).
  { intros w l Hl. eapply Forall_impl; [exact Hl|]. intros x. apply wrap_small. }
  assert (Hi : Forall (λ x, i64 x = x) (compression_delta s)).
  { eapply Forall_impl; [exact R3|]. intros x. apply i64_small. }
  do 11 (apply Forall_cons in R4 as [? R4]).
  destruct (value_histogram_index size); simpl;
    rewrite ?(Z.mul_opp_l 1 size), ?(Z.mul_opp_l 1 compressed), ?(Z.mul_opp_l 1 (size - compressed)), !Z.mul_1_l.
  - rewrite (add_at_inverse u32 n 1), (add_at_inverse i64 n), !wrap_undo by auto using wrap_add, i64_add.
    by destruct s.
  - rewrite !wrap_undo by auto. by destruct s.
Qed.

Lemma stats_remove_undoes_insert_witness :
  stats_remove 100 60 (stats_insert 100 60 stats_empty) = stats_empty.
Proof. apply (stats_remove_undoes_insert stats_empty 100 60). apply stats_empty_wf. Defined.
