(* ===== verification/IndexTable.v ===== *)
(** * Index tables (src/src/index.rs)

    An index table maps keys to addresses in the value tables.  Its file has [META_SIZE] bytes
    of header and statistics and then [2 ^ index_bits] chunks.  A chunk that a pending record
    has changed is read from the log, all others from the memory map of the file, which is
    created by the first record that is enacted.

    The map is kept as its meta data and its chunks; a chunk that was never written is a hole
    of the file and reads as zeros.  [map[offset..offset + CHUNK_LEN]] panics past the end of
    the file; [enact_plan] goes through a raw pointer, and what it does past the end of the map
    is undefined: it is [Panic] here too. *)

From S2P Require Import Prelude IndexEntry IndexChunk Log Stats.

Record IndexMap := mkMap { map_meta : bytes; map_chunks : gmap Z bytes }.
Record IndexTable := mkIndex { it_id : Z; it_map : option IndexMap }.

Inductive PlanOutcome := Written | NeedReindex | Skipped.

Definition bits_of (t : IndexTable) : Z := TableId_index_bits (it_id t).

(** ** Opening, statistics *)
Definition open_existing (file : option IndexMap) (id : Z) : option IndexTable :=
  match file with None => None | Some m => Some (mkIndex id (Some m)) end.
Definition create_new (id : Z) : IndexTable := mkIndex id None.

Definition stats_end : nat := (Z.to_nat HEADER_SIZE + TOTAL_SIZE)%nat.
Definition load_stats (t : IndexTable) : outcome ColumnStats :=
  match it_map t with
  | Some m => d ← slice (map_meta m) (Z.to_nat HEADER_SIZE) stats_end; stats_from_slice d
  | None => Ok stats_empty
  end.
Definition write_stats (s : ColumnStats) (t : IndexTable) : outcome IndexTable :=
  match it_map t with
  | Some m =>
      d ← slice (map_meta m) (Z.to_nat HEADER_SIZE) stats_end;
      d' ← stats_to_slice s d;
      meta ← overwrite (map_meta m) (Z.to_nat HEADER_SIZE) d';
      Ok (mkIndex (it_id t) (Some (mkMap meta (map_chunks m))))
  | None => Ok t
  end.

(** ** Reading *)
Definition chunk_at (t : IndexTable) (index : Z) (m : IndexMap) : outcome bytes :=
  if bool_decide (0 ≤ index < total_chunks (bits_of t))
  then Ok (default EMPTY_CHUNK (map_chunks m !! index)) else Panic.

Section x86.
(** Whether the target is x86_64, where the vector search is used. *)
Context (x86_64 : bool).

Definition find_entry (t : IndexTable) (key_prefix : Z) (sub_index : nat) (chunk : bytes)
    : outcome (Z * nat) :=
  if x86_64 then find_entry_sse2 (bits_of t) key_prefix sub_index chunk
  else find_entry_base (bits_of t) key_prefix sub_index chunk.

Definition IndexTable_get `{LogQuery L} (t : IndexTable) (key : bytes) (sub_index : nat) (log : L)
    : outcome (Z * nat) :=
  let key := index_from_partial key in
  let ci := chunk_index (bits_of t) key in
  match with_index log (it_id t) ci with
  | Some chunk => find_entry t key sub_index chunk
  | None =>
      match it_map t with
      | Some m => chunk ← chunk_at t ci m; find_entry t key sub_index chunk
      | None => Ok (Entry_empty, 0%nat)
      end
  end.
End x86.

Definition entries `{LogQuery L} (t : IndexTable) (ci : Z) (log : L) : outcome (list Z) :=
  match with_index log (it_id t) ci with
  | Some chunk => Ok (transmute_chunk chunk)
  | None =>
      match it_map t with
      | Some m => chunk ← chunk_at t ci m; Ok (transmute_chunk chunk)
      | None => Ok (transmute_chunk EMPTY_CHUNK)
      end
  end.

(** ** Planning a change *)
Abbreviation WI := (M LogWriter).

(** The first empty entry of a chunk. *)
Fixpoint first_empty (chunk : bytes) (n i : nat) : outcome (option nat) :=
  match n with
  | O => Ok None
  | S n' => e ← read_entry chunk i; if Entry_is_empty e then Ok (Some i) else first_empty chunk n' (S i)
  end.

Definition plan_insert_chunk (t : IndexTable) (key_prefix address : Z) (source : bytes)
    (sub_index : option nat) : WI PlanOutcome :=
  let ib := bits_of t in
  let ci := chunk_index ib key_prefix in
  if bool_decide (last_address ib < address) then mret NeedReindex
  else if negb (bool_decide (length source = CHUNK_LEN)) then lift Panic
  else
    let partial := extract_key key_prefix ib in
    let new_entry := Entry_new address partial ib in
    match sub_index with
    | Some i =>
        e ← lift (read_entry source i);
        if negb (bool_decide (Entry_partial_key e ib = Entry_partial_key new_entry ib)) then lift Panic
        else
          chunk ← lift (write_entry new_entry i source);
          _ ← modify (insert_index (it_id t) ci (u8 (Z.of_nat i)) chunk);
          mret Written
    | None =>
        o ← lift (first_empty source CHUNK_ENTRIES 0);
        match o with
        | Some i =>
            chunk ← lift (write_entry new_entry i source);
            _ ← modify (insert_index (it_id t) ci (u8 (Z.of_nat i)) chunk);
            mret Written
        | None => mret NeedReindex
        end
    end.

Definition IndexTable_write_insert_plan (t : IndexTable) (key : bytes) (address : Z)
    (sub_index : option nat) : WI PlanOutcome :=
  let key_prefix := index_from_partial key in
  let ci := chunk_index (bits_of t) key_prefix in
  log ← gets id;
  match with_index log (it_id t) ci with
  | Some chunk => plan_insert_chunk t key_prefix address chunk sub_index
  | None =>
      match it_map t with
      | Some m => chunk ← lift (chunk_at t ci m); plan_insert_chunk t key_prefix address chunk sub_index
      | None => plan_insert_chunk t key_prefix address EMPTY_CHUNK sub_index
      end
  end.

Definition plan_remove_chunk (t : IndexTable) (key_prefix : Z) (source : bytes) (sub_index : nat)
    : WI PlanOutcome :=
  if negb (bool_decide (length source = CHUNK_LEN)) then lift Panic
  else
    let ib := bits_of t in
    let ci := chunk_index ib key_prefix in
    let partial := extract_key key_prefix ib in
    e ← lift (read_entry source sub_index);
    if negb (Entry_is_empty e) && bool_decide (Entry_partial_key e ib = partial) then
      chunk ← lift (write_entry Entry_empty sub_index source);
      _ ← modify (insert_index (it_id t) ci (u8 (Z.of_nat sub_index)) chunk);
      mret Written
    else mret Skipped.

Definition IndexTable_write_remove_plan (t : IndexTable) (key : bytes) (sub_index : nat) : WI PlanOutcome :=
  let key_prefix := index_from_partial key in
  let ci := chunk_index (bits_of t) key_prefix in
  log ← gets id;
  match with_index log (it_id t) ci with
  | Some chunk => plan_remove_chunk t key_prefix chunk sub_index
  | None =>
      match it_map t with
      | Some m => chunk ← lift (chunk_at t ci m); plan_remove_chunk t key_prefix chunk sub_index
      | None => mret Skipped
      end
  end.

(** ** Enacting.  The state is the table and the reader of the log. *)
Definition index_log_read (n : nat) : M (IndexTable * LogReader) bytes :=
  zoom snd (λ r s, (s.1, r)) (LogReader_read n).

(** The entries named by the mask are read into the chunk one after the other, in place. *)
Fixpoint enact_entries (index : Z) (bits : list nat) : M (IndexTable * LogReader) unit :=
  match bits with
  | [] => mret tt
  | i :: bits' =>
      d ← index_log_read ENTRY_BYTES;
      '(t, _) ← gets id;
      match it_map t with
      | None => lift Panic
      | Some m =>
          chunk ← lift (overwrite (default EMPTY_CHUNK (map_chunks m !! index)) (i * ENTRY_BYTES) d);
          _ ← modify (λ '(t, r),
                (mkIndex (it_id t) (Some (mkMap (map_meta m) (<[index := chunk]> (map_chunks m)))), r));
          enact_entries index bits'
      end
  end.

(** The file is created, with its full size and all zeros, when it does not exist yet. *)
Definition create_map (t : IndexTable) : IndexTable :=
  match it_map t with
  | Some _ => t
  | None => mkIndex (it_id t) (Some (mkMap (replicate (Z.to_nat META_SIZE) Byte.x00) ∅))
  end.

Definition IndexTable_enact_plan (index : Z) : M (IndexTable * LogReader) unit :=
  '(t, _) ← gets id;
  _ ← modify (λ '(t, r), (create_map t, r));
  mask ← index_log_read 8;
  if bool_decide (0 ≤ index < total_chunks (bits_of t))
  then enact_entries index (mask_bits (le_val mask))
  else lift Panic.

Fixpoint skip_entries (bits : list nat) : M LogReader unit :=
  match bits with
  | [] => mret tt
  | _ :: bits' => _ ← LogReader_read 8; skip_entries bits'
  end.

Definition IndexTable_validate_plan (t : IndexTable) (index : Z) : M LogReader unit :=
  if bool_decide (total_entries (bits_of t) ≤ index) then fail (Corruption "Bad index")
  else mask ← LogReader_read 8; skip_entries (mask_bits (le_val mask)).

Definition IndexTable_skip_plan : M LogReader unit :=
  mask ← LogReader_read 8; skip_entries (mask_bits (le_val mask)).

(** [sorted_entries]: every entry that is not empty, sorted by size tier and offset.
    [sort_unstable_by] returns some sorted permutation; an insertion sort is one. *)
Definition addr_le (ib a b : Z) : bool :=
  let a := Entry_address a ib in
  let b := Entry_address b ib in
  bool_decide (Address_size_tier a < Address_size_tier b)
  || (bool_decide (Address_size_tier a = Address_size_tier b)
      && bool_decide (Address_offset a ≤ Address_offset b)).
Fixpoint insert_sorted (ib e : Z) (l : list Z) : list Z :=
  match l with
  | [] => [e]
  | x :: l' => if addr_le ib e x then e :: l else x :: insert_sorted ib e l'
  end.
Definition sort_entries (ib : Z) (l : list Z) : list Z := foldr (insert_sorted ib) [] l.

Fixpoint collect_entries (t : IndexTable) (m : IndexMap) (n : nat) (ci : Z) : outcome (list Z) :=
  match n with
  | O => Ok []
  | S n' =>
      chunk ← chunk_at t ci m;
      rest ← collect_entries t m n' (ci + 1);
      Ok (filter (λ e, Entry_is_empty e = false) (transmute_chunk chunk) ++ rest)
  end.
Definition sorted_entries (t : IndexTable) : outcome (list Z) :=
  match it_map t with
  | None => Ok []
  | Some m =>
      l ← collect_entries t m (Z.to_nat (total_chunks (bits_of t))) 0;
      Ok (sort_entries (bits_of t) l)
  end.

(** ** The contents of a chunk as the log shows it *)
Definition chunk_view `{LogQuery L} (t : IndexTable) (log : L) (ci : Z) : bytes :=
  match with_index log (it_id t) ci with
  | Some chunk => chunk
  | None => match it_map t with Some m => default EMPTY_CHUNK (map_chunks m !! ci) | None => EMPTY_CHUNK end
  end.

Definition wf_index `{LogQuery L} (t : IndexTable) (log : L) : Prop :=
  valid_bits (bits_of t) ∧ ∀ ci, length (chunk_view t log ci) = CHUNK_LEN.

(** The chunk a key belongs to, and the entry that maps it to an address. *)
Definition key_chunk (t : IndexTable) (key : bytes) : Z := chunk_index (bits_of t) (index_from_partial key).
Definition key_entry (t : IndexTable) (key : bytes) (address : Z) : Z :=
  Entry_new address (extract_key (index_from_partial key) (bits_of t)) (bits_of t).

Section views.
Context `{HL : LogQuery L}.
Implicit Types (log : L) (t : IndexTable).

Lemma key_chunk_range t log key :
  wf_index t log → length key = KEY_SIZE →
  bool_decide (0 ≤ key_chunk t key < total_chunks (bits_of t)) = true.
Proof.
  intros [Hb _] Hk. apply bool_decide_eq_true. unfold key_chunk.
  pose proof (chunk_index_range _ _ Hb (index_from_partial_range _ Hk)) as Hr.
  rewrite total_chunks_eq; [exact Hr|]. unfold valid_bits in Hb. lia.
Qed.

Lemma chunk_at_view t log key m :
  wf_index t log → length key = KEY_SIZE → with_index log (it_id t) (key_chunk t key) = None →
  it_map t = Some m → chunk_at t (key_chunk t key) m = Ok (chunk_view t log (key_chunk t key)).
Proof.
  intros Hw Hk Hn Hm. unfold chunk_at. erewrite key_chunk_range by done. unfold chunk_view. by rewrite Hn, Hm.
Qed.

Lemma get_view x86 t log key sub :
  wf_index t log → length key = KEY_SIZE → (sub ≤ CHUNK_ENTRIES)%nat →
  it_map t ≠ None ∨ with_index log (it_id t) (key_chunk t key) ≠ None →
  IndexTable_get x86 t key sub log
  = find_entry x86 t (index_from_partial key) sub (chunk_view t log (key_chunk t key)).
Proof.
  intros Hw Hk Hs Hne. unfold IndexTable_get. fold (key_chunk t key).
  destruct (with_index log _ _) as [c|] eqn:E.
  - unfold chunk_view. by rewrite E.
  - destruct (it_map t) as [m|] eqn:Em; [|naive_solver]. by erewrite (chunk_at_view t log).
Qed.
End views.

Section plans.
Implicit Types (log : LogWriter) (t : IndexTable).

Lemma insert_plan_view t log key address sub :
  wf_index t log → length key = KEY_SIZE →
  IndexTable_write_insert_plan t key address sub log
  = plan_insert_chunk t (index_from_partial key) address (chunk_view t log (key_chunk t key)) sub log.
Proof.
  intros Hw Hk. unfold IndexTable_write_insert_plan. mrun. change (id log) with log. cbv beta iota.
  fold (key_chunk t key).
  destruct (with_index log _ _) as [c|] eqn:E; [unfold chunk_view; by rewrite E|].
  destruct (it_map t) as [m|] eqn:Em; [|unfold chunk_view; by rewrite E, Em].
  pose proof (chunk_at_view t log key m Hw Hk E Em) as Ec. mlift Ec. done.
Qed.

Lemma remove_plan_view t log key sub :
  wf_index t log → length key = KEY_SIZE → (sub < CHUNK_ENTRIES)%nat →
  IndexTable_write_remove_plan t key sub log
  = plan_remove_chunk t (index_from_partial key) (chunk_view t log (key_chunk t key)) sub log.
Proof.
  intros Hw Hk Hs. unfold IndexTable_write_remove_plan. mrun. change (id log) with log. cbv beta iota.
  fold (key_chunk t key).
  destruct (with_index log _ _) as [c|] eqn:E; [unfold chunk_view; by rewrite E|].
  destruct (it_map t) as [m|] eqn:Em.
  - pose proof (chunk_at_view t log key m Hw Hk E Em) as Ec. mlift Ec. done.
  - unfold chunk_view. rewrite E, Em. unfold plan_remove_chunk.
    assert (Er : read_entry EMPTY_CHUNK sub = Ok 0).
    { unfold read_entry, slice, EMPTY_CHUNK. rewrite length_replicate. unfold CHUNK_LEN, CHUNK_ENTRIES in *.
      rewrite decide_True by lia. rewrite drop_replicate, take_replicate.
      replace (_ `min` _)%nat with 8%nat by lia. done. }
    rewrite (bool_decide_true (length EMPTY_CHUNK = CHUNK_LEN)) by apply length_replicate.
    change (negb true) with false. cbv iota.
    mlift Er. done.
Qed.

Lemma first_empty_spec chunk : length chunk = CHUNK_LEN → ∀ n i, (i + n ≤ CHUNK_ENTRIES)%nat →
  (∃ j, first_empty chunk n i = Ok (Some j) ∧ (i ≤ j < i + n)%nat ∧ read_entry chunk j = Ok Entry_empty ∧
     ∀ k e, (i ≤ k < j)%nat → read_entry chunk k = Ok e → Entry_is_empty e = false) ∨
  (first_empty chunk n i = Ok None ∧
     ∀ k e, (i ≤ k < i + n)%nat → read_entry chunk k = Ok e → Entry_is_empty e = false).
Proof.
  intros Hl. induction n as [|n IH]; intros i Hi; simpl.
  - right. split; [done|]. intros; lia.
  - destruct (read_entry_Ok chunk i) as (e & He & _); [done|lia|]. rewrite He. simpl.
    destruct (Entry_is_empty e) eqn:Ee.
    + left. exists i. split; [done|]. split; [lia|]. split; [|intros; lia].
      unfold Entry_is_empty in Ee. apply bool_decide_eq_true in Ee. by subst.
    + destruct (IH (S i)) as [(j & E & Hj & Hr & Hk)|[E Hk]]; [lia|left|right].
      * exists j. split; [done|]. split; [lia|]. split; [done|]. intros k x Hkj Hx.
        destruct (decide (k = i)) as [->|]; [congruence|]. apply (Hk k); [lia|done].
      * split; [done|]. intros k x Hkj Hx. destruct (decide (k = i)) as [->|]; [congruence|].
        apply (Hk k); [lia|done].
Qed.

Lemma chunk_view_insert t log ci s d ci' :
  chunk_view t (insert_index (it_id t) ci s d log) ci'
  = if bool_decide (ci' = ci) then d else chunk_view t log ci'.
Proof.
  unfold chunk_view. rewrite with_index_insert. case_bool_decide as E.
  - by rewrite decide_True by auto.
  - rewrite decide_False by naive_solver. done.
Qed.
End plans.

(** ** The theorems on planning *)

(** One entry of a chunk is written, in the log. *)
Definition entry_written (t : IndexTable) (ci : Z) (log log' : LogWriter) : Prop :=
  ∃ i e chunk, (i < CHUNK_ENTRIES)%nat ∧ write_entry e i (chunk_view t log ci) = Ok chunk ∧
    log' = insert_index (it_id t) ci (u8 (Z.of_nat i)) chunk log.

(** Two logs agree except on one chunk of one index table. *)
Lemma entry_written_index t ci log log' tbl i :
  entry_written t ci log log' → (tbl, i) ≠ (it_id t, ci) → with_index log' tbl i = with_index log tbl i.
Proof. intros (k & e & d & _ & _ & ->) Hne. rewrite with_index_insert. by rewrite decide_False by naive_solver. Qed.
Lemma entry_written_values t ci log log' tbl i : entry_written t ci log log' → value_entry log' tbl i = value_entry log tbl i.
Proof. intros (k & e & d & _ & _ & ->). apply value_entry_insert_index. Qed.

Lemma key_entry_range t key address :
  valid_bits (bits_of t) → length key = KEY_SIZE → 0 ≤ address ≤ last_address (bits_of t) →
  in_range 64 (key_entry t key address) ∧
  Entry_partial_key (key_entry t key address) (bits_of t) = extract_key (index_from_partial key) (bits_of t) ∧
  Entry_address (key_entry t key address) (bits_of t) = address.
Proof.
  intros Hb Hk Ha. rewrite last_address_eq in Ha by done.
  assert (Hr : in_range (bits_of t + 14) address) by (unfold in_range; lia).
  pose proof (extract_key_range _ _ Hb (index_from_partial_range _ Hk)).
  unfold key_entry. split; [by apply Entry_new_range|]. split; [by apply Entry_partial_key_new|by apply Entry_address_new].
Qed.

(** Planning an insertion either puts the entry for the key in the first empty position of
    the key's chunk, leaving every other entry, chunk, table and value of the log alone, or,
    when the chunk is full, changes nothing and asks for a larger index. *)
Lemma index_insert_plan_spec t log key address :
  wf_index t log → length key = KEY_SIZE → 0 ≤ address ≤ last_address (bits_of t) →
  let ci := key_chunk t key in
  let chunk := chunk_view t log ci in
  (∃ i log', IndexTable_write_insert_plan t key address None log = (Ok Written, log') ∧ (i < CHUNK_ENTRIES)%nat ∧
     read_entry chunk i = Ok Entry_empty ∧
     (∀ k e, (k < i)%nat → read_entry chunk k = Ok e → Entry_is_empty e = false) ∧
     read_entry (chunk_view t log' ci) i = Ok (key_entry t key address) ∧
     (∀ j, j ≠ i → read_entry (chunk_view t log' ci) j = read_entry chunk j) ∧
     entry_written t ci log log' ∧ wf_index t log') ∨
  (IndexTable_write_insert_plan t key address None log = (Ok NeedReindex, log) ∧
     ∀ k e, (k < CHUNK_ENTRIES)%nat → read_entry chunk k = Ok e → Entry_is_empty e = false).
Proof.
  intros Hw Hk Ha ci chunk. pose proof Hw as [Hb Hlen]. rewrite (insert_plan_view t log key) by done. fold ci chunk.
  destruct (key_entry_range t key address Hb Hk Ha) as (He & _).
  unfold plan_insert_chunk. fold (key_chunk t key). fold ci.
  rewrite (bool_decide_false (last_address _ < _)) by lia.
  rewrite (bool_decide_true (length chunk = CHUNK_LEN)) by apply Hlen. change (negb true) with false. cbv iota zeta.
  fold (key_entry t key address).
  destruct (first_empty_spec chunk (Hlen ci) CHUNK_ENTRIES 0 ltac:(lia)) as [(i & E & Hi & Hr & Hbef)|[E Hfull]]; mlift E.
  - left. destruct (write_entry_Ok chunk i (key_entry t key address) (Hlen ci)) as (chunk' & Ew & Hl'); [lia|].
    mlift Ew. mrun. eexists i, _. split; [done|]. split; [lia|]. split; [done|].
    split; [intros k e ?; apply Hbef; lia|].
    rewrite (chunk_view_insert t log ci _ chunk' ci), bool_decide_true by done.
    split; [by eapply read_write_same|].
    split; [intros j Hj; eapply read_write_other; [|done]; auto|].
    split; [eexists _, _, _; split_and!; [|done|done]; lia|]. split; [done|].
    intros ci'. rewrite chunk_view_insert. by case_bool_decide.
  - right. split; [done|]. intros k e Hke. apply Hfull. lia.
Qed.

Definition sample_index : IndexTable := create_new (TableId_new 3 16).
Definition sample_writer : LogWriter := LogWriter_new LogOverlays_default 1.
Lemma sample_index_wf : wf_index sample_index sample_writer.
Proof. split; [unfold valid_bits; vm_compute; split; congruence|]. intros ci. by apply length_replicate. Qed.

(** Planning an insertion at the position of the key's own entry overwrites that entry. *)
Lemma index_replace_plan_spec t log key address sub e :
  wf_index t log → length key = KEY_SIZE → (sub < CHUNK_ENTRIES)%nat →
  let ci := key_chunk t key in
  let chunk := chunk_view t log ci in
  read_entry chunk sub = Ok e →
  Entry_partial_key e (bits_of t) = extract_key (index_from_partial key) (bits_of t) →
  (0 ≤ address ≤ last_address (bits_of t) ∧
   ∃ log', IndexTable_write_insert_plan t key address (Some sub) log = (Ok Written, log') ∧
     read_entry (chunk_view t log' ci) sub = Ok (key_entry t key address) ∧
     (∀ j, j ≠ sub → read_entry (chunk_view t log' ci) j = read_entry chunk j) ∧
     entry_written t ci log log' ∧ wf_index t log') ∨
  (¬ 0 ≤ address ≤ last_address (bits_of t)) ∧
   (last_address (bits_of t) < address → IndexTable_write_insert_plan t key address (Some sub) log = (Ok NeedReindex, log)).
Proof.
  intros Hw Hk Hs ci chunk Hr Hp. pose proof Hw as [Hb Hlen]. rewrite (insert_plan_view t log key) by done. fold ci chunk.
  unfold plan_insert_chunk. fold (key_chunk t key). fold ci.
  destruct (decide (0 ≤ address ≤ last_address (bits_of t))) as [Ha|Ha].
  2: { right. split; [done|]. intros Hlt. by rewrite bool_decide_true. }
  left. split; [done|]. destruct (key_entry_range t key address Hb Hk Ha) as (He & Hpk & _).
  rewrite (bool_decide_false (last_address _ < _)) by lia.
  rewrite (bool_decide_true (length chunk = CHUNK_LEN)) by apply Hlen. change (negb true) with false. cbv iota zeta.
  fold (key_entry t key address). mlift Hr. rewrite Hpk, Hp, bool_decide_true by done.
  change (negb true) with false. cbv iota.
  destruct (write_entry_Ok chunk sub (key_entry t key address) (Hlen ci) Hs) as (chunk' & Ew & Hl').
  mlift Ew. mrun. eexists. split; [done|].
  rewrite (chunk_view_insert t log ci _ chunk' ci), bool_decide_true by done.
  split; [by eapply read_write_same|].
  split; [intros j Hj; eapply read_write_other; [|done]; auto|].
  split; [eexists _, _, _; split_and!; [|done|done]; lia|]. split; [done|].
  intros ci'. rewrite chunk_view_insert. case_bool_decide; [exact Hl'|apply Hlen].
Qed.

(** Planning a removal empties exactly the entry at the given position when it belongs to the
    key's partial key, and otherwise changes nothing. *)
Lemma index_remove_plan_spec t log key sub e :
  wf_index t log → length key = KEY_SIZE → (sub < CHUNK_ENTRIES)%nat →
  let ci := key_chunk t key in
  let chunk := chunk_view t log ci in
  read_entry chunk sub = Ok e →
  if negb (Entry_is_empty e) && bool_decide (Entry_partial_key e (bits_of t) = extract_key (index_from_partial key) (bits_of t))
  then ∃ log', IndexTable_write_remove_plan t key sub log = (Ok Written, log') ∧
    read_entry (chunk_view t log' ci) sub = Ok Entry_empty ∧
    (∀ j, j ≠ sub → read_entry (chunk_view t log' ci) j = read_entry chunk j) ∧
    entry_written t ci log log' ∧ wf_index t log'
  else IndexTable_write_remove_plan t key sub log = (Ok Skipped, log).
Proof.
  intros Hw Hk Hs ci chunk Hr. pose proof Hw as [Hb Hlen]. rewrite (remove_plan_view t log key) by done. fold ci chunk.
  unfold plan_remove_chunk. fold (key_chunk t key). fold ci.
  rewrite (bool_decide_true (length chunk = CHUNK_LEN)) by apply Hlen. change (negb true) with false. cbv iota zeta.
  destruct (negb (Entry_is_empty e) && _) eqn:E; mlift Hr; rewrite E; [|done].
  destruct (write_entry_Ok chunk sub Entry_empty (Hlen ci) Hs) as (chunk' & Ew & Hl').
  mlift Ew. mrun. eexists. split; [done|].
  rewrite (chunk_view_insert t log ci _ chunk' ci), bool_decide_true by done.
  split; [eapply read_write_same; [|done]; unfold in_range, Entry_empty; lia|].
  split; [intros j Hj; eapply read_write_other; [|done]; auto|].
  split; [eexists _, _, _; split_and!; [|done|done]; lia|]. split; [done|].
  clear E. intros ci'. rewrite chunk_view_insert. case_bool_decide; [exact Hl'|apply Hlen].
Qed.

Definition sample_indexed : LogWriter :=
  (IndexTable_write_insert_plan sample_index sample_key (Address_new 5 7) None sample_writer).2.
Lemma sample_indexed_wf : wf_index sample_index sample_indexed.
Proof.
  split; [apply sample_index_wf|]. intros ci. unfold sample_indexed.
  destruct (IndexTable_write_insert_plan _ _ _ _ _) as [o l] eqn:E. simpl.
  assert (Hl : l = insert_index (it_id sample_index) (key_chunk sample_index sample_key) 0
     (le_bytes 8 (key_entry sample_index sample_key (Address_new 5 7)) ++ replicate 504 Byte.x00) sample_writer).
  { revert E. vm_compute. congruence. }
  rewrite Hl, chunk_view_insert. case_bool_decide; [|apply sample_index_wf]. vm_compute. reflexivity.
Qed.
