(* ===== verification/IndexEnact.v ===== *)
(** * Index tables: from the log to the file

    A record stores of a changed chunk only the entries that its mask names.  This file shows
    that this is enough: the plans of a record keep the mask ahead of the changes, and enacting
    the masked entries over the old chunk gives the chunk the writer saw. *)

From S2P Require Import Prelude IndexEntry IndexChunk Log Stats IndexTable.

(** ** Chunks as 64 entries of 8 bytes *)
Lemma chunk_entry_length chunk i :
  length chunk = CHUNK_LEN → (i < CHUNK_ENTRIES)%nat → length (chunk_entry chunk i) = ENTRY_BYTES.
Proof. unfold chunk_entry, CHUNK_LEN, CHUNK_ENTRIES, ENTRY_BYTES. len. Qed.

Lemma chunk_lookup chunk k :
  length chunk = CHUNK_LEN → (k < CHUNK_LEN)%nat → chunk !! k = chunk_entry chunk (k / 8) !! (k mod 8)%nat.
Proof.
  intros Hl Hk. unfold chunk_entry. rewrite lookup_take_lt, lookup_drop.
  - f_equal. pose proof (Nat.div_mod_eq k 8). lia.
  - apply Nat.mod_upper_bound. lia.
Qed.

Lemma chunk_ext a b :
  length a = CHUNK_LEN → length b = CHUNK_LEN →
  (∀ i, (i < CHUNK_ENTRIES)%nat → chunk_entry a i = chunk_entry b i) → a = b.
Proof.
  intros Ha Hb He. apply list_eq. intros k. destruct (decide (k < CHUNK_LEN)%nat) as [Hk|Hk].
  - assert (k / 8 < CHUNK_ENTRIES)%nat by (apply Nat.Div0.div_lt_upper_bound; unfold CHUNK_LEN, CHUNK_ENTRIES in *; lia).
    by rewrite (chunk_lookup a), (chunk_lookup b), He.
  - rewrite !lookup_ge_None_2 by lia. done.
Qed.

Lemma chunk_entry_overwrite chunk i d chunk' j :
  length chunk = CHUNK_LEN → (i < CHUNK_ENTRIES)%nat → (j < CHUNK_ENTRIES)%nat → length d = ENTRY_BYTES →
  overwrite chunk (i * ENTRY_BYTES) d = Ok chunk' →
  chunk_entry chunk' j = if decide (i = j) then d else chunk_entry chunk j.
Proof.
  unfold CHUNK_LEN, CHUNK_ENTRIES, ENTRY_BYTES. intros Hl Hi Hj Hd. rewrite overwrite_Ok by lia. intros [= <-].
  unfold chunk_entry. case_decide as Hij.
  - subst j. rewrite drop_app_length' by len. by rewrite take_app_length' by lia.
  - apply list_eq. intros k. destruct (decide (k < 8)%nat); [|by rewrite !lookup_take_ge by lia].
    rewrite !lookup_take_lt, !lookup_drop by lia. destruct (decide (j < i)%nat).
    + rewrite lookup_app_l, lookup_take_lt by len. done.
    + rewrite lookup_app_r, lookup_app_r by len. rewrite lookup_drop. f_equal. len.
Qed.

Lemma write_entry_chunk_entry chunk i e chunk' j :
  length chunk = CHUNK_LEN → (i < CHUNK_ENTRIES)%nat → (j < CHUNK_ENTRIES)%nat →
  write_entry e i chunk = Ok chunk' → j ≠ i → chunk_entry chunk' j = chunk_entry chunk j.
Proof.
  intros Hl Hi Hj Hw Hne. rewrite (chunk_entry_overwrite chunk i (le_bytes 8 e) chunk' j); try done.
  - by rewrite decide_False by auto.
Qed.

(** [covers mask chunk base]: [chunk] differs from [base] only in entries the mask names. *)
Definition covers (mask : Z) (chunk base : bytes) : Prop :=
  ∀ i, (i < CHUNK_ENTRIES)%nat → i ∉ mask_bits mask → chunk_entry chunk i = chunk_entry base i.

(** ** Reading masked entries *)
Section enact.
Context (index : Z) (chunk : bytes) (Hchunk : length chunk = CHUNK_LEN).

Lemma index_log_read_app n d rest t r :
  rd_stream r = d ++ rest → n = length d → index_log_read n (t, r) = (Ok d, (t, consume d r)).
Proof. intros Hs Hn. unfold index_log_read, zoom. simpl. by rewrite (LogReader_read_consume n d rest r). Qed.

Lemma enact_entries_spec bits : ∀ t r rest m,
  NoDup bits → (∀ i, i ∈ bits → (i < CHUNK_ENTRIES)%nat) → it_map t = Some m →
  length (default EMPTY_CHUNK (map_chunks m !! index)) = CHUNK_LEN →
  rd_stream r = concat (chunk_entry chunk <$> bits) ++ rest →
  ∃ m', enact_entries index bits (t, r)
      = (Ok tt, (mkIndex (it_id t) (Some m'), consume (concat (chunk_entry chunk <$> bits)) r)) ∧
    map_meta m' = map_meta m ∧ (∀ ci, ci ≠ index → map_chunks m' !! ci = map_chunks m !! ci) ∧
    length (default EMPTY_CHUNK (map_chunks m' !! index)) = CHUNK_LEN ∧
    ∀ i, (i < CHUNK_ENTRIES)%nat →
      chunk_entry (default EMPTY_CHUNK (map_chunks m' !! index)) i
      = if decide (i ∈ bits) then chunk_entry chunk i
        else chunk_entry (default EMPTY_CHUNK (map_chunks m !! index)) i.
Proof.
  induction bits as [|b bits IH]; intros t r rest m Hnd Hlt Hm Hl Hs.
  - exists m. destruct t as [id tm]. simpl in *. subst tm. rewrite consume_nil. split_and!; try done.
  - apply NoDup_cons in Hnd as [Hnb Hnd]. cbn [fmap list_fmap concat] in *. rewrite <-app_assoc in Hs.
    assert (Hb : (b < CHUNK_ENTRIES)%nat) by (apply Hlt; set_solver).
    pose proof (chunk_entry_length chunk b Hchunk Hb) as Hbl.
    cbn [enact_entries]. mstep (index_log_read_app ENTRY_BYTES (chunk_entry chunk b) _ t r Hs (eq_sym Hbl)).
    mrun. change (id (t, consume (chunk_entry chunk b) r)) with (t, consume (chunk_entry chunk b) r). cbv beta iota.
    rewrite Hm. set (old := default EMPTY_CHUNK (map_chunks m !! index)) in *.
    assert (Ho : ∃ c', overwrite old (b * ENTRY_BYTES) (chunk_entry chunk b) = Ok c' ∧ length c' = CHUNK_LEN).
    { unfold CHUNK_ENTRIES, ENTRY_BYTES, CHUNK_LEN in *. eexists. split; [apply overwrite_Ok; lia|]. len. }
    destruct Ho as (c' & Eo & Hl'). mlift Eo. mrun.
    set (m1 := mkMap (map_meta m) (<[index := c']> (map_chunks m))).
    destruct (IH (mkIndex (it_id t) (Some m1)) (consume (chunk_entry chunk b) r) rest m1)
      as (m' & E & Hme & Hoth & Hlen & Hent); try done.
    + intros i Hi. apply Hlt. set_solver.
    + simpl. by rewrite lookup_insert_eq.
    + by erewrite consume_stream.
    + exists m'. rewrite E, consume_app. split_and!; try done.
      * intros ci Hci. rewrite Hoth by done. simpl. by rewrite lookup_insert_ne by auto.
      * intros i Hi. rewrite Hent by done. simpl. rewrite lookup_insert_eq. simpl.
        rewrite (chunk_entry_overwrite old b (chunk_entry chunk b) c' i) by done.
        destruct (decide (i ∈ bits)); [by rewrite decide_True by set_solver|].
        destruct (decide (b = i)) as [->|]; [by rewrite decide_True by set_solver|].
        by rewrite decide_False by set_solver.
Qed.
End enact.

(** The chunk in the file. *)
Abbreviation file_chunk t ci := (chunk_view t LogOverlays_default ci).

(** Enacting any well-formed item succeeds; the entries it names get the logged bytes. *)
Lemma enact_item t r rest ci mask chunk :
  valid_bits (bits_of t) → 0 ≤ ci < total_chunks (bits_of t) → in_range 64 mask → length chunk = CHUNK_LEN →
  length (file_chunk t ci) = CHUNK_LEN →
  rd_stream r = le_bytes 8 mask ++ concat (chunk_entry chunk <$> mask_bits mask) ++ rest →
  ∃ t', IndexTable_enact_plan ci (t, r)
      = (Ok tt, (t', consume (le_bytes 8 mask ++ concat (chunk_entry chunk <$> mask_bits mask)) r)) ∧ it_id t' = it_id t ∧
    length (file_chunk t' ci) = CHUNK_LEN ∧
    (∀ i, (i < CHUNK_ENTRIES)%nat → chunk_entry (file_chunk t' ci) i
       = if decide (i ∈ mask_bits mask) then chunk_entry chunk i else chunk_entry (file_chunk t ci) i) ∧
    ∀ ci', ci' ≠ ci → file_chunk t' ci' = file_chunk t ci'.
Proof.
  intros Hb Hci Hm Hc Hf Hs. unfold IndexTable_enact_plan. mrun.
  change (id (t, r)) with (t, r). cbv beta iota.
  set (m := match it_map t with Some m => m | None => mkMap (replicate (Z.to_nat META_SIZE) Byte.x00) ∅ end).
  set (t1 := mkIndex (it_id t) (Some m)).
  assert (Et : create_map t = t1) by (unfold t1, m, create_map; destruct t as [id [tm|]]; done).
  mrun. rewrite Et. mstep (index_log_read_app 8 (le_bytes 8 mask) _ t1 r Hs ltac:(by rewrite le_bytes_length)).
  rewrite bool_decide_true, le_val_bytes_small by done.
  assert (Hv : ∀ i, chunk_view t LogOverlays_default i = default EMPTY_CHUNK (map_chunks m !! i)).
  { intros i. unfold m, chunk_view. destruct (it_map t); done. }
  destruct (enact_entries_spec ci chunk Hc (mask_bits mask) t1 (consume (le_bytes 8 mask) r) rest m)
    as (m' & E & _ & Hoth & Hl & He); try done.
  - by apply mask_bits_NoDup.
  - intros i Hi. by eapply mask_bits_lt.
  - by rewrite <-Hv.
  - by erewrite consume_stream.
  - rewrite E, consume_app. eexists. split; [done|]. split_and!; try done.
    + intros i Hi. rewrite Hv. change (file_chunk _ ci) with (default EMPTY_CHUNK (map_chunks m' !! ci)).
      by rewrite He.
    + intros ci' Hne. rewrite Hv. change (file_chunk _ ci') with (default EMPTY_CHUNK (map_chunks m' !! ci')).
      by rewrite Hoth.
Qed.

(** C24. Enacting the logged part of a chunk, the mask and the entries it names, over a file chunk
    that differs from the logged chunk only in those entries gives the logged chunk; no other
    chunk of the file changes and exactly the item is consumed. *)
Theorem index_enact_restores_chunk t r rest ci mask chunk :
  valid_bits (bits_of t) → 0 ≤ ci < total_chunks (bits_of t) → in_range 64 mask → length chunk = CHUNK_LEN →
  length (file_chunk t ci) = CHUNK_LEN → covers mask chunk (file_chunk t ci) →
  rd_stream r = le_bytes 8 mask ++ concat (chunk_entry chunk <$> mask_bits mask) ++ rest →
  ∃ t' r', IndexTable_enact_plan ci (t, r) = (Ok tt, (t', r')) ∧ rd_stream r' = rest ∧ it_id t' = it_id t ∧
    file_chunk t' ci = chunk ∧ ∀ ci', ci' ≠ ci → file_chunk t' ci' = file_chunk t ci'.
Proof.
  intros Hb Hci Hm Hc Hf Hcov Hs.
  destruct (enact_item t r rest ci mask chunk) as (t' & E & Hid & Hl & He & Ho); try done.
  eexists t', _. split_and!; try done; [eapply consume_stream; by rewrite <-app_assoc|]. apply chunk_ext; try done. intros i Hi. rewrite He by done.
  case_decide; [done|]. by rewrite Hcov.
Qed.

Definition sample_item : bytes :=
  chunk_view sample_index sample_indexed (key_chunk sample_index sample_key).

Lemma index_enact_restores_chunk_witness :
  ∃ t' r', IndexTable_enact_plan (key_chunk sample_index sample_key)
      (sample_index, LogReader_new (le_bytes 8 1 ++ take 8 sample_item) true) = (Ok tt, (t', r')) ∧
    rd_stream r' = [] ∧ file_chunk t' (key_chunk sample_index sample_key) = sample_item.
Proof.
  destruct (index_enact_restores_chunk sample_index (LogReader_new (le_bytes 8 1 ++ take 8 sample_item) true) []
    (key_chunk sample_index sample_key) 1 sample_item) as (t' & r' & E & Hs & _ & Hc & _).
  - apply sample_index_wf.
  - vm_compute. split; congruence.
  - vm_compute. split; congruence.
  - vm_compute. reflexivity.
  - vm_compute. reflexivity.
  - intros i Hi Hn. assert (i ≠ 0%nat) by (intros ->; apply Hn; vm_compute; left).
    unfold CHUNK_ENTRIES in Hi. do 64 (destruct i as [|i]; [done || (vm_compute; reflexivity)|]). lia.
  - rewrite app_nil_r. vm_compute. reflexivity.
  - exists t', r'. split; [exact E|]. split; [exact Hs|exact Hc].
Defined.

(** ** The mask stays ahead of the changes *)
Definition local_chunk (log : LogWriter) (id ci : Z) : option (Z * Z * bytes) :=
  local_index (change log) !! id ≫= λ o, o !! ci.

Definition masks_ok (t : IndexTable) (log : LogWriter) : Prop :=
  ∀ ci rid mask chunk, local_chunk log (it_id t) ci = Some (rid, mask, chunk) →
    in_range 64 mask ∧ length chunk = CHUNK_LEN ∧ covers mask chunk (chunk_view t (overlays log) ci).

Lemma shl64_bit i : (i < 64)%nat → shl64 1 (u8 (Z.of_nat i)) = 2 ^ Z.of_nat i.
Proof. intros. rewrite (wrap_small 8) by (unfold in_range; lia). apply shl64_1. lia. Qed.

Lemma masks_ok_insert t log ci i e chunk' :
  masks_ok t log → wf_index t log → (i < CHUNK_ENTRIES)%nat →
  write_entry e i (chunk_view t log ci) = Ok chunk' →
  masks_ok t (insert_index (it_id t) ci (u8 (Z.of_nat i)) chunk' log).
Proof.
  intros Hok [_ Hlen] Hi Hw ci' rid mask chunk. unfold local_chunk. simpl. rewrite lookup_insert_eq. simpl.
  rewrite lookup_insert. case_decide as E; [|].
  2: { intros Hl. apply (Hok ci' rid). unfold local_chunk. destruct (local_index (change log) !! it_id t); done. }
  subst ci'. rewrite shl64_bit by done. intros [= _ <- <-].
  destruct (write_entry_Ok (chunk_view t log ci) i e (Hlen ci) Hi) as (c2 & Ew2 & Hl').
  rewrite Hw in Ew2. injection Ew2 as <-.
  assert (Hbit : in_range 64 (2 ^ Z.of_nat i)).
  { split; [apply Z.pow_nonneg; lia|]. apply Z.pow_lt_mono_r; unfold CHUNK_ENTRIES in Hi; lia. }
  set (old := default ∅ (local_index (change log) !! it_id t) !! ci).
  assert (Hold : old = local_chunk log (it_id t) ci).
  { unfold old, local_chunk. by destruct (local_index (change log) !! it_id t). }
  assert (Hcase : ∀ m, in_range 64 m → covers m (chunk_view t log ci) (chunk_view t (overlays log) ci) →
    in_range 64 (Z.lor m (2 ^ Z.of_nat i)) ∧ length chunk' = CHUNK_LEN ∧
    covers (Z.lor m (2 ^ Z.of_nat i)) chunk' (chunk_view t (overlays log) ci)).
  { intros m Hm Hcov. assert (Hr : in_range 64 (Z.lor m (2 ^ Z.of_nat i))).
    { unfold in_range in *. split; [apply Z.lor_nonneg; lia|].
      destruct (decide (Z.lor m (2 ^ Z.of_nat i) = 0)); [lia|].
      apply Z.log2_lt_pow2; [pose proof (proj2 (Z.lor_nonneg m (2 ^ Z.of_nat i))); lia|].
      rewrite Z.log2_lor by lia. apply Z.max_lub_lt.
      - destruct (decide (m = 0)) as [->|]; [done|]. apply Z.log2_lt_pow2; lia.
      - rewrite Z.log2_pow2 by lia. unfold CHUNK_ENTRIES in Hi. lia. }
    split; [done|]. split; [done|]. intros j Hj Hn. rewrite elem_of_mask_bits in Hn by done.
    rewrite Z.lor_spec, Z.pow2_bits_eqb in Hn by lia. apply not_true_is_false, orb_false_iff in Hn as [Hn1 Hn2].
    rewrite (write_entry_chunk_entry (chunk_view t log ci) i e chunk' j) by (auto; lia).
    apply Hcov; [done|]. rewrite elem_of_mask_bits by done. congruence. }
  rewrite Hold. destruct (local_chunk log (it_id t) ci) as [[[rid0 m] c0]|] eqn:El.
  - destruct (Hok _ _ _ _ El) as (Hm & _ & Hcov). apply Hcase; [done|].
    assert (chunk_view t log ci = c0) as ->; [|done].
    unfold chunk_view. simpl. rewrite lookup_index_bind. unfold local_chunk in El. by rewrite El.
  - rewrite <-(Z.lor_0_l (2 ^ Z.of_nat i)). apply Hcase; [done|].
    intros j Hj _. f_equal. unfold chunk_view. simpl. rewrite lookup_index_bind. unfold local_chunk in El. by rewrite El.
Qed.

(** Whatever is planned on an index table, an insertion at the first empty position, a
    replacement at a given position or a removal, the mask of every chunk of the record names
    all the entries in which the chunk differs from the one before the record. *)
Theorem index_plans_keep_masks t log key :
  masks_ok t log → wf_index t log → length key = KEY_SIZE →
  (∀ address sub, match sub with Some i => (i < CHUNK_ENTRIES)%nat | None => True end →
    masks_ok t (IndexTable_write_insert_plan t key address sub log).2) ∧
  (∀ sub, (sub < CHUNK_ENTRIES)%nat → masks_ok t (IndexTable_write_remove_plan t key sub log).2).
Proof.
  intros Hok Hw Hk. pose proof Hw as [_ Hlen]. split.
  - intros address sub Hsub. rewrite (insert_plan_view t log key) by done.
    unfold plan_insert_chunk. case_bool_decide; [done|].
    rewrite bool_decide_true by apply Hlen. change (negb true) with false. cbv iota zeta.
    set (chunk := chunk_view t log (key_chunk t key)). fold (key_entry t key address). fold (key_chunk t key).
    destruct sub as [i|].
    + destruct (read_entry_Ok chunk i (Hlen _) Hsub) as (e & He & _). mlift He. case_bool_decide; [|done].
      change (negb true) with false. cbv iota.
      destruct (write_entry_Ok chunk i (key_entry t key address) (Hlen _) Hsub) as (c' & Ew & _). mlift Ew. mrun.
      by eapply masks_ok_insert.
    + destruct (first_empty_spec chunk (Hlen _) CHUNK_ENTRIES 0 ltac:(lia)) as [(i & E & Hi & _)|[E _]]; mlift E; [|done].
      destruct (write_entry_Ok chunk i (key_entry t key address) (Hlen _)) as (c' & Ew & _); [lia|]. mlift Ew. mrun.
      eapply masks_ok_insert; eauto. lia.
  - intros sub Hsub. rewrite (remove_plan_view t log key) by done. unfold plan_remove_chunk.
    rewrite bool_decide_true by apply Hlen. change (negb true) with false. cbv iota zeta.
    set (chunk := chunk_view t log (key_chunk t key)). fold (key_chunk t key).
    destruct (read_entry_Ok chunk sub (Hlen _) Hsub) as (e & He & _). mlift He.
    destruct (negb (Entry_is_empty e) && _); [|done].
    destruct (write_entry_Ok chunk sub Entry_empty (Hlen _) Hsub) as (c' & Ew & _). mlift Ew. mrun.
    by eapply masks_ok_insert.
Qed.

Lemma index_plans_keep_masks_witness :
  masks_ok sample_index (IndexTable_write_insert_plan sample_index sample_key (Address_new 5 7) None sample_writer).2.
Proof.
  refine (proj1 (index_plans_keep_masks sample_index sample_writer sample_key _ _ _) (Address_new 5 7) None I).
  - intros ci rid mask chunk H. discriminate H.
  - apply sample_index_wf.
  - reflexivity.
Defined.

(** ** Validation *)
Lemma skip_entries_read bits : ∀ r r', skip_entries bits r = (Ok tt, r') →
  ∃ d rest, rd_stream r = d ++ rest ∧ length d = (8 * length bits)%nat ∧ rd_stream r' = rest.
Proof.
  induction bits as [|b bits IH]; intros r r' E; cbn [skip_entries] in E.
  - exists [], (rd_stream r). injection E as ->. done.
  - apply M_bind_inv in E as (d & r1 & E1 & E2).
    unfold LogReader_read in E1. destruct (read_exact 8 (rd_stream r)) as [[d0 rest]| | |] eqn:Er; try done.
    apply read_exact_inv in Er as [Hs Hd]. injection E1 as <- <-.
    destruct (IH _ _ E2) as (d' & rest' & Hs' & Hl & Hr'). simpl in Hs'. subst rest.
    exists (d0 ++ d'), rest'. rewrite <-app_assoc. split; [done|]. split; [rewrite length_app; simpl; lia|done].
Qed.

Lemma entries_split bits d :
  length d = (8 * length bits)%nat → (∀ i, i ∈ bits → (i < CHUNK_ENTRIES)%nat) → NoDup bits →
  ∃ chunk, length chunk = CHUNK_LEN ∧ concat (chunk_entry chunk <$> bits) = d.
Proof.
  revert d. induction bits as [|b bits IH]; intros d Hd Hlt Hnd.
  - exists EMPTY_CHUNK. split; [apply length_replicate|]. destruct d; [done|]. simpl in Hd. lia.
  - apply NoDup_cons in Hnd as [Hnb Hnd]. cbn [length] in Hd.
    destruct (IH (drop 8 d)) as (c & Hc & Hcat); [len|intros; apply Hlt; set_solver|done|].
    assert (Hb : (b < CHUNK_ENTRIES)%nat) by (apply Hlt; set_solver).
    assert (Ho : overwrite c (b * ENTRY_BYTES) (take 8 d) = Ok (take (b * 8) c ++ take 8 d ++ drop (b * 8 + length (take 8 d)) c)).
    { apply overwrite_Ok. unfold CHUNK_ENTRIES, CHUNK_LEN, ENTRY_BYTES in *. len. }
    eexists. split; [by eapply eq_trans; [eapply overwrite_length; exact Ho|]|].
    cbn [fmap list_fmap concat]. rewrite (chunk_entry_overwrite c b (take 8 d) _ b) by (done || unfold ENTRY_BYTES; len).
    rewrite decide_True by done. rewrite <-(take_drop 8 d) at 4. f_equal. rewrite <-Hcat. f_equal.
    apply list_fmap_ext. intros k i Hi%list_elem_of_lookup_2.
    assert (i < CHUNK_ENTRIES)%nat by (apply Hlt; set_solver).
    rewrite (chunk_entry_overwrite c b (take 8 d) _ i) by (done || unfold ENTRY_BYTES; len).
    rewrite decide_False; [done|]. intros ->. done.
Qed.

(** C29. What [validate_plan] accepts for a chunk of the table, [enact_plan] then applies without
    an error, and both stop at the same place in the log. *)
Theorem index_validated_enacts t r r' ci :
  valid_bits (bits_of t) → 0 ≤ ci < total_chunks (bits_of t) → length (file_chunk t ci) = CHUNK_LEN →
  IndexTable_validate_plan t ci r = (Ok tt, r') →
  ∃ t' r'', IndexTable_enact_plan ci (t, r) = (Ok tt, (t', r'')) ∧ rd_stream r'' = rd_stream r'.
Proof.
  intros Hb Hci Hf Hv. unfold IndexTable_validate_plan in Hv. case_bool_decide; [done|].
  apply M_bind_inv in Hv as (m & r1 & E1 & E2).
  unfold LogReader_read in E1. destruct (read_exact 8 (rd_stream r)) as [[d0 rest]| | |] eqn:Er; try done.
  apply read_exact_inv in Er as [Hs Hd]. injection E1 as <- <-.
  apply skip_entries_read in E2 as (d & rest' & Hs' & Hl & Hr'). simpl in Hs'. subst rest.
  assert (Hm : in_range 64 (le_val d0)) by (pose proof (le_val_range d0) as Hr; by rewrite Hd in Hr).
  destruct (entries_split (mask_bits (le_val d0)) d Hl) as (chunk & Hc & Hcat).
  { intros i Hi. by eapply mask_bits_lt. }
  { by apply mask_bits_NoDup. }
  destruct (enact_item t r rest' ci (le_val d0) chunk) as (t' & E & _); try done.
  { by rewrite Hcat, le_bytes_val_n. }
  eexists t', _. split; [done|]. rewrite Hr'. eapply consume_stream. by rewrite Hcat, le_bytes_val_n, <-app_assoc.
Qed.

Lemma index_validated_enacts_witness :
  ∃ t' r'', IndexTable_enact_plan 9 (sample_index, LogReader_new (le_bytes 8 2 ++ replicate 8 Byte.x07) false)
    = (Ok tt, (t', r'')) ∧ rd_stream r'' = [].
Proof.
  apply (index_validated_enacts sample_index (LogReader_new (le_bytes 8 2 ++ replicate 8 Byte.x07) false)
    (mkReader [] 0 16 [] false (mkCleared [] [])) 9).
  - apply sample_index_wf.
  - vm_compute. split; congruence.
  - apply length_replicate.
  - vm_compute. reflexivity.
Defined.


