(* ===== verification/ValueEntry.v ===== *)
(** * Entry buffers, table headers and table keys (src/src/table.rs)

    [VEntry] is [table::Entry<B>]: a cursor over a buffer of bytes.  The markers that tell the
    kinds of slots apart are two bytes long; every buffer they are read from is an array of at
    least ten bytes, so the reads of [[0..SIZE_SIZE]] are total. *)

From S2P Require Import Prelude IndexEntry.

Definition COMPRESSED_MASK : Z := 32768.
Definition MAX_ENTRY_SIZE : Z := 32760.
Definition MIN_ENTRY_SIZE : Z := 32.
Definition REFS_SIZE : nat := 4.
Definition SIZE_SIZE : nat := 2.
Definition INDEX_SIZE : nat := 8.
Definition MAX_ENTRY_BUF_SIZE : nat := Z.to_nat 32768.
Definition SIZE_TIERS : nat := 256.
Definition LOCKED_REF : Z := u32_max.
Definition MULTIPART_ENTRY_SIZE : Z := 4096.

Definition TOMBSTONE : bytes := [Byte.xff; Byte.xff].
Definition MULTIPART_V4 : bytes := [Byte.xff; Byte.xfe].
Definition MULTIHEAD_V4 : bytes := [Byte.xff; Byte.xfd].
Definition MULTIPART : bytes := [Byte.xfe; Byte.xff].
Definition MULTIHEAD : bytes := [Byte.xfd; Byte.xff].
Definition MULTIHEAD_COMPRESSED : bytes := [Byte.xfd; Byte.x7f].

(** ** The cursor *)
Record VEntry := mkEntry { e_off : nat; e_buf : bytes }.

Definition check_remaining_len (len : nat) (err : error) (e : VEntry) : outcome unit :=
  if decide (length (e_buf e) < e_off e + len)%nat then Err err else Ok tt.
Definition VEntry_new (data : bytes) : VEntry := mkEntry 0 data.
Definition set_offset (offset : nat) (e : VEntry) : VEntry := mkEntry offset (e_buf e).

Definition write_slice (buf : bytes) (e : VEntry) : outcome VEntry :=
  b ← overwrite (e_buf e) (e_off e) buf; Ok (mkEntry (e_off e + length buf) b).
Definition read_slice (size : nat) (e : VEntry) : outcome (bytes * VEntry) :=
  d ← slice (e_buf e) (e_off e) (e_off e + size); Ok (d, mkEntry (e_off e + size) (e_buf e)).

Definition marker (e : VEntry) : bytes := take SIZE_SIZE (e_buf e).
Definition is_tombstone (e : VEntry) : bool := bool_decide (marker e = TOMBSTONE).
Definition write_tombstone (e : VEntry) : outcome VEntry := write_slice TOMBSTONE e.
Definition is_multipart (e : VEntry) : bool := bool_decide (marker e = MULTIPART).
Definition is_multipart_v4 (e : VEntry) : bool := bool_decide (marker e = MULTIPART_V4).
Definition write_multipart (e : VEntry) : outcome VEntry := write_slice MULTIPART e.
Definition is_multihead_compressed (e : VEntry) : bool :=
  bool_decide (marker e = MULTIHEAD_COMPRESSED).
Definition is_multihead (e : VEntry) : bool :=
  is_multihead_compressed e || bool_decide (marker e = MULTIHEAD).
Definition is_multihead_v4 (e : VEntry) : bool := bool_decide (marker e = MULTIHEAD_V4).
Definition write_multihead (e : VEntry) : outcome VEntry := write_slice MULTIHEAD e.
Definition write_multihead_compressed (e : VEntry) : outcome VEntry :=
  write_slice MULTIHEAD_COMPRESSED e.
Definition is_multi (db_version : Z) (e : VEntry) : bool :=
  is_multipart e || is_multihead e
  || (bool_decide (db_version ≤ 4) && (is_multipart_v4 e || is_multihead_v4 e)).

Definition read_size (e : VEntry) : outcome (Z * bool * VEntry) :=
  '(d, e') ← read_slice SIZE_SIZE e;
  let size := le_val d in
  Ok (Z.land size (65535 - COMPRESSED_MASK), bool_decide (0 < Z.land size COMPRESSED_MASK), e').
Definition skip_size (e : VEntry) : VEntry := mkEntry (e_off e + SIZE_SIZE) (e_buf e).
Definition write_size (size : Z) (compressed : bool) (e : VEntry) : outcome VEntry :=
  write_slice (le_bytes 2 (if compressed then Z.lor size COMPRESSED_MASK else size)) e.

Definition read_u64 (e : VEntry) : outcome (Z * VEntry) :=
  '(d, e') ← read_slice 8 e; Ok (le_val d, e').
Definition read_next (e : VEntry) : outcome (Z * VEntry) := read_u64 e.
Definition skip_u64 (e : VEntry) : VEntry := mkEntry (e_off e + 8) (e_buf e).
Definition skip_next (e : VEntry) : VEntry := skip_u64 e.
Definition write_u64 (next_index : Z) (e : VEntry) : outcome VEntry :=
  write_slice (le_bytes 8 next_index) e.
Definition write_next (next_index : Z) (e : VEntry) : outcome VEntry := write_u64 next_index e.
Definition read_u32 (e : VEntry) : outcome (Z * VEntry) :=
  '(d, e') ← read_slice REFS_SIZE e; Ok (le_val d, e').
Definition write_u32 (next_index : Z) (e : VEntry) : outcome VEntry :=
  write_slice (le_bytes 4 next_index) e.
Definition read_rc (e : VEntry) : outcome (Z * VEntry) := read_u32 e.
Definition write_rc (rc : Z) (e : VEntry) : outcome VEntry := write_slice (le_bytes 4 rc) e.
Definition read_partial (e : VEntry) : outcome (bytes * VEntry) := read_slice PARTIAL_SIZE e.
Definition remaining_to (end_ : nat) (e : VEntry) : outcome bytes := slice (e_buf e) (e_off e) end_.

(** ** The header of a value table: entry 0 *)
Definition Header_default : bytes := replicate 16 Byte.x00.
Definition Header_last_removed (h : bytes) : Z := le_val (take INDEX_SIZE h).
Definition Header_filled (h : bytes) : Z := le_val (take INDEX_SIZE (drop INDEX_SIZE h)).
Definition Header_set_last_removed (v : Z) (h : bytes) : bytes :=
  le_bytes 8 v ++ drop INDEX_SIZE h.
Definition Header_set_filled (v : Z) (h : bytes) : bytes :=
  take INDEX_SIZE h ++ le_bytes 8 v ++ drop (INDEX_SIZE * 2) h.

(** ** Keys stored with a value *)
Inductive TableKey := Partial (k : bytes) | NoHash.
Inductive TableKeyQuery := QCheck (k : TableKey) | QFetch (fetch : bool).

Definition encoded_size (k : TableKey) : nat :=
  match k with Partial _ => PARTIAL_SIZE | NoHash => 0 end.
Definition TableKey_compare (k : TableKey) (fetch : option bytes) : bool :=
  match k, fetch with
  | Partial k, Some f => bool_decide (partial_key k = f)
  | NoHash, _ => true
  | _, None => false
  end.
Definition fetch_partial (e : VEntry) : outcome (bytes * VEntry) :=
  if decide (PARTIAL_SIZE ≤ length (e_buf e))%nat then read_partial e else Err InvalidValueData.
Definition TableKey_fetch (k : TableKey) (e : VEntry) : outcome (option bytes * VEntry) :=
  match k with
  | Partial _ => '(d, e') ← fetch_partial e; Ok (Some d, e')
  | NoHash => Ok (None, e)
  end.
Definition TableKey_write (k : TableKey) (e : VEntry) : outcome VEntry :=
  match k with Partial k => write_slice (partial_key k) e | NoHash => Ok e end.

(** The bytes of a key as they are stored, and the keys that have the right length. *)
Definition key_bytes (k : TableKey) : bytes :=
  match k with Partial k => partial_key k | NoHash => [] end.
Definition wf_key (k : TableKey) : Prop :=
  match k with Partial k => length k = KEY_SIZE | NoHash => True end.

Lemma key_bytes_length k : wf_key k → length (key_bytes k) = encoded_size k.
Proof. destruct k; simpl; [|done]. intros H. unfold partial_key. rewrite length_drop, H. done. Qed.

(** ** Writing into a fresh buffer

    [built e d junk]: the bytes [d] have been written from the start of a buffer whose
    initial, uninitialised, contents were [junk]. *)
Definition built (e : VEntry) (d junk : bytes) : Prop :=
  e = mkEntry (length d) (d ++ drop (length d) junk) ∧ (length d ≤ length junk)%nat.

Lemma built_new junk : built (VEntry_new junk) [] junk.
Proof. split; [done|simpl; lia]. Qed.

Lemma write_slice_built e d junk x :
  built e d junk → (length d + length x ≤ length junk)%nat →
  ∃ e', write_slice x e = Ok e' ∧ built e' (d ++ x) junk.
Proof.
  intros [-> Hd] Hx. unfold write_slice. simpl.
  rewrite overwrite_Ok by len. simpl. eexists; split; [done|]. split; [|len].
  rewrite take_app_length, length_app, <-app_assoc. do 3 f_equal.
  rewrite drop_app_ge by lia. rewrite drop_drop. f_equal. lia.
Qed.

Lemma TableKey_write_built k e d junk :
  built e d junk → wf_key k → (length d + encoded_size k ≤ length junk)%nat →
  ∃ e', TableKey_write k e = Ok e' ∧ built e' (d ++ key_bytes k) junk.
Proof.
  intros Hb Hk Hl. pose proof (key_bytes_length k Hk) as Hkl. destruct k; simpl in *.
  - apply write_slice_built; [done|lia].
  - exists e. by rewrite app_nil_r.
Qed.

Lemma built_prefix e d junk : built e d junk → take (e_off e) (e_buf e) = d ∧ e_off e = length d.
Proof. intros [-> _]. simpl. by rewrite take_app_length. Qed.

(** ** Reading with the cursor *)
Lemma read_slice_at l d r n :
  length d = n →
  read_slice n (mkEntry (length l) (l ++ d ++ r)) = Ok (d, mkEntry (length (l ++ d)) (l ++ d ++ r)).
Proof. intros <-. unfold read_slice. simpl. by rewrite slice_mid, length_app. Qed.

Lemma read_size_at d r size :
  in_range 15 size → ∀ compressed : bool,
  d = le_bytes 2 (if compressed then Z.lor size COMPRESSED_MASK else size) →
  read_size (mkEntry 0 (d ++ r)) = Ok (size, compressed, mkEntry 2 (d ++ r)).
Proof.
  intros Hs compressed ->. unfold read_size.
  set (d := le_bytes _ _). assert (length d = 2%nat) as Hd by apply le_bytes_length.
  pose proof (read_slice_at [] d r SIZE_SIZE Hd) as E. simpl in E. rewrite E. simpl.
  rewrite Hd. unfold d, COMPRESSED_MASK, in_range in *.
  assert (Hlor : Z.lor size 32768 = size + 32768).
  { change 32768 with (1 * 2 ^ 15). rewrite Z.lor_comm, lor_fields by lia. lia. }
  assert (Hm : ∀ x, Z.land x (65535 - 32768) = x mod 2 ^ 15) by (intros; by apply (land_mask _ 15)).
  assert (Hb : ∀ x, 0 ≤ x < 2 ^ 16 → Z.land x 32768 = if bool_decide (2 ^ 15 ≤ x) then 32768 else 0).
  { intros x Hx. apply Z.bits_inj'. intros j Hj. rewrite Z.land_spec.
    change 32768 with (2 ^ 15) at 1. rewrite Z.pow2_bits_eqb by lia.
    destruct (Z.eqb_spec 15 j) as [<-|Hne].
    - rewrite andb_true_r. case_bool_decide.
      + change (Z.testbit 32768 15) with true. apply Z.testbit_true; [lia|].
        assert (x / 2 ^ 15 = 1) as -> by (symmetry; apply (Z.div_unique _ _ _ (x - 2 ^ 15)); lia). done.
      + rewrite Z.bits_0. apply Z.testbit_false; [lia|]. by rewrite Z.div_small by lia.
    - rewrite andb_false_r. case_bool_decide; [|by rewrite Z.bits_0].
      change 32768 with (2 ^ 15). rewrite Z.pow2_bits_eqb by lia. lia. }
  destruct compressed.
  - rewrite Hlor, le_val_bytes_small by (unfold in_range; simpl; lia). rewrite Hm, Hb by lia.
    rewrite (bool_decide_true (2 ^ 15 ≤ _)) by lia. do 3 f_equal.
    replace (size + 32768) with (size + 1 * 2 ^ 15) by lia. rewrite Z.mod_add by lia. by apply Z.mod_small.
  - rewrite le_val_bytes_small by (unfold in_range; simpl; lia). rewrite Hm, Hb by lia.
    rewrite (bool_decide_false (2 ^ 15 ≤ size)) by lia. rewrite Z.mod_small by lia. done.
Qed.
