(* ===== verification/File.v ===== *)
(** * Files of value tables (src/src/file.rs)

    A [TableFile] is an optional file (created on the first growth) and the number of
    entries it has room for.  The file is the list of its bytes; [read_exact_at],
    [write_all_at] and [set_len] of the standard library are modelled on it. *)

From S2P Require Import Prelude.

Definition GROW_SIZE_BYTES : Z := 256 * 1024.

Record TableFile := mkFile { tf_file : option bytes; tf_capacity : Z }.

(** [File::set_len]: truncate, or extend with zeros. *)
Definition set_len (n : Z) (l : bytes) : bytes :=
  take (Z.to_nat n) l ++ replicate (Z.to_nat n - length l) Byte.x00.

(** [FileExt::read_exact_at] and [FileExt::write_all_at]; a write past the end extends. *)
Definition read_exact_at (n : nat) (offset : Z) (l : bytes) : outcome bytes :=
  if decide (offset + Z.of_nat n ≤ Z.of_nat (length l))
  then Ok (take n (drop (Z.to_nat offset) l)) else Err (Io UnexpectedEof).
Definition write_all_at (d : bytes) (offset : Z) (l : bytes) : bytes :=
  let l' := l ++ replicate (Z.to_nat offset + length d - length l) Byte.x00 in
  take (Z.to_nat offset) l' ++ d ++ drop (Z.to_nat offset + length d) l'.

Definition TableFile_open (existing : option bytes) (entry_size : Z) : TableFile :=
  match existing with
  | Some l =>
      if bool_decide (l = []) then
        let capacity := GROW_SIZE_BYTES / entry_size in
        mkFile (Some (set_len (u64 (capacity * entry_size)) l)) capacity
      else mkFile (Some l) (Z.of_nat (length l) / entry_size)
  | None => mkFile None 0
  end.

Definition TableFile_read_at (f : TableFile) (n : nat) (offset : Z) : outcome bytes :=
  match tf_file f with
  | Some l => read_exact_at n offset l
  | None => Err (Corruption "File does not exist.")
  end.

Definition TableFile_write_at (d : bytes) (offset : Z) (f : TableFile) : outcome TableFile :=
  match tf_file f with
  | Some l => Ok (mkFile (Some (write_all_at d offset l)) (tf_capacity f))
  | None => Panic
  end.

Definition TableFile_grow (entry_size : Z) (f : TableFile) : TableFile :=
  let capacity := u64 (tf_capacity f + GROW_SIZE_BYTES / entry_size) in
  let l := default [] (tf_file f) in
  mkFile (Some (set_len (u64 (capacity * entry_size)) l)) capacity.

Definition TableFile_remove (f : TableFile) : TableFile := mkFile None (tf_capacity f).

(** ** Facts *)
Lemma set_len_length n l : length (set_len n l) = Z.to_nat n.
Proof. unfold set_len. len. Qed.

Lemma set_len_grow n l :
  (length l ≤ Z.to_nat n)%nat → set_len n l = l ++ replicate (Z.to_nat n - length l) Byte.x00.
Proof. intros. unfold set_len. by rewrite take_ge by lia. Qed.

Lemma read_exact_at_app a d r n offset :
  offset = Z.of_nat (length a) → n = length d → read_exact_at n offset (a ++ d ++ r) = Ok d.
Proof.
  intros -> ->. unfold read_exact_at. rewrite decide_True by len.
  by rewrite Nat2Z.id, drop_app_length, take_app_length.
Qed.

Lemma read_exact_at_Ok n offset l :
  0 ≤ offset → offset + Z.of_nat n ≤ Z.of_nat (length l) →
  read_exact_at n offset l = Ok (take n (drop (Z.to_nat offset) l)).
Proof. intros. unfold read_exact_at. by rewrite decide_True. Qed.

(** A write inside the file replaces the bytes there and no others. *)
Lemma write_all_at_length d offset l :
  0 ≤ offset → offset + Z.of_nat (length d) ≤ Z.of_nat (length l) →
  length (write_all_at d offset l) = length l.
Proof. intros. unfold write_all_at. len. Qed.

Lemma write_all_at_inside d offset l :
  0 ≤ offset → offset + Z.of_nat (length d) ≤ Z.of_nat (length l) →
  write_all_at d offset l
  = take (Z.to_nat offset) l ++ d ++ drop (Z.to_nat offset + length d) l.
Proof.
  intros. unfold write_all_at.
  replace (Z.to_nat offset + length d - length l)%nat with 0%nat by lia. simpl.
  by rewrite app_nil_r.
Qed.

Lemma read_after_write_other d o l o' n :
  0 ≤ o → o + Z.of_nat (length d) ≤ Z.of_nat (length l) → 0 ≤ o' →
  o' + Z.of_nat n ≤ o ∨ o + Z.of_nat (length d) ≤ o' →
  read_exact_at n o' (write_all_at d o l) = read_exact_at n o' l.
Proof.
  intros Ho Hd Ho' Hdis. unfold read_exact_at. rewrite write_all_at_length by done.
  case_decide as Hn; [|done]. f_equal. rewrite write_all_at_inside by done.
  apply list_eq. intros k. destruct (decide (k < n)%nat); [|by rewrite !lookup_take_ge by lia].
  rewrite !lookup_take_lt, !lookup_drop by lia.
  destruct (decide (Z.to_nat o' + k < Z.to_nat o)%nat).
  - rewrite lookup_app_l, lookup_take_lt by len. done.
  - rewrite lookup_app_r, lookup_app_r by len. rewrite lookup_drop. f_equal. len.
Qed.

Lemma read_after_write_prefix d o l n :
  0 ≤ o → o + Z.of_nat (length d) ≤ Z.of_nat (length l) → (length d ≤ n)%nat →
  o + Z.of_nat n ≤ Z.of_nat (length l) →
  ∃ rest, read_exact_at n o (write_all_at d o l) = Ok (d ++ rest).
Proof.
  intros Ho Hd Hn Hl. rewrite write_all_at_inside by done.
  rewrite read_exact_at_Ok by len.
  rewrite drop_app_length' by len. rewrite take_app_ge by lia. eauto.
Qed.

Lemma read_after_extend n o l k :
  0 ≤ o → o + Z.of_nat n ≤ Z.of_nat (length l) →
  read_exact_at n o (l ++ k) = read_exact_at n o l.
Proof.
  intros. rewrite !read_exact_at_Ok by len. f_equal.
  rewrite drop_app_le by lia. rewrite take_app_le by len. done.
Qed.
