(* ===== verification/ValueTable.v ===== *)
(** * Value tables: the operations (src/src/table.rs)

    A value table is a file of fixed-size slots.  Slot 0 is the header.  A value occupies one
    slot, or a chain of slots in the table for long values; free slots form a linked list of
    tombstones.  Every read goes through the log first and then to the file; every write goes
    to the log and reaches the file when the record is enacted.

    The buffers the code declares with [new_uninit] are arrays with unspecified contents: here
    they start as [junk], any list of [MAX_ENTRY_BUF_SIZE] bytes.  A loop over a chain gets as
    fuel the number of slots of the table ([chain_fuel]), and the loop that splits a value the
    number of bytes to write. *)

From S2P Require Import Prelude IndexEntry IndexChunk Log ValueEntry File.

Record ValueTable := mkTable {
  vt_id : Z;
  entry_size : Z;
  vt_file : TableFile;
  filled : Z;
  last_removed : Z;
  dirty_header : bool;
  multipart : bool;
  ref_counted : bool;
  db_version : Z;
}.

Definition set_free (f l : Z) (t : ValueTable) : ValueTable :=
  mkTable (vt_id t) (entry_size t) (vt_file t) f l true (multipart t) (ref_counted t) (db_version t).
Definition set_file (f : TableFile) (t : ValueTable) : ValueTable :=
  mkTable (vt_id t) (entry_size t) f (filled t) (last_removed t) (dirty_header t) (multipart t)
    (ref_counted t) (db_version t).

(** ** Opening *)
Definition ValueTable_open (existing : option bytes) (id : Z) (es : option Z)
    (opt_ref_counted : bool) (version : Z) : outcome ValueTable :=
  let '(multi, es) := match es with Some s => (false, s) | None => (true, MULTIPART_ENTRY_SIZE) end in
  if bool_decide (es < MIN_ENTRY_SIZE) || bool_decide (MAX_ENTRY_SIZE < es) then Panic else
  let file := TableFile_open existing es in
  match tf_file file with
  | Some l =>
      '(h, _) ← read_exact 16 l;
      let last_removed := Header_last_removed h in
      let filled := if bool_decide (Header_filled h = 0) then 1 else Header_filled h in
      if bool_decide (filled ≤ last_removed) then Err (Corruption "Bad removed ref")
      else Ok (mkTable id es file filled last_removed false multi opt_ref_counted version)
  | None => Ok (mkTable id es file 1 0 false multi opt_ref_counted version)
  end.

Definition ref_size (t : ValueTable) : nat := if ref_counted t then REFS_SIZE else 0.

Definition value_size (t : ValueTable) (key : TableKey) : option Z :=
  let base := entry_size t - Z.of_nat SIZE_SIZE - Z.of_nat (ref_size t) in
  let k_encoded := Z.of_nat (encoded_size key) in
  if bool_decide (base < k_encoded) then None else Some (base - k_encoded).

Definition chain_fuel (t : ValueTable) : nat := S (Z.to_nat (filled t)).
Definition es_nat (t : ValueTable) : nat := Z.to_nat (entry_size t).

Section table_ops.
Context (junk : bytes).

(** [if log.value(id, index, buf) { .. } else { file.read_at(buf[0..n], index * entry_size) }] *)
Definition load `{LogQuery L} (t : ValueTable) (n : nat) (buf : bytes) (index : Z) (log : L)
    : outcome bytes :=
  match log_value log (vt_id t) index buf with
  | Some b => Ok b
  | None =>
      d ← TableFile_read_at (vt_file t) n (u64 (index * entry_size t));
      overwrite buf 0 d
  end.

(** *** Reading the parts of a value *)
Fixpoint for_parts_loop `{LogQuery L} {St : Type} (fuel : nat) (t : ValueTable)
    (key : TableKeyQuery) (index : Z) (log : L) (f : St → bytes → bool * St)
    (buf : bytes) (part : nat) (compressed : bool) (rc : Z) (fetched : option bytes) (st : St)
    : outcome (Z * bool * option bytes * St) :=
  match fuel with
  | O => NoFuel
  | S fuel' =>
      b ← load t (es_nat t) buf index log;
      let e := mkEntry 0 b in
      if is_tombstone e then Ok (0, false, fetched, st)
      else if multipart t && bool_decide (part = 0%nat) && negb (is_multihead e)
      then Ok (0, false, fetched, st)
      else
        '(entry_end, next, compressed, e) ←
          (if multipart t && is_multi (db_version t) e then
             let compressed :=
               if bool_decide (part = 0%nat) && bool_decide (6 < db_version t)
                  && is_multihead_compressed e then true else compressed in
             '(next, e) ← read_next (skip_size e);
             Ok (es_nat t, next, compressed, e)
           else
             '(size, read_compressed, e) ← read_size e;
             let compressed :=
               if bool_decide (part = 0%nat) || bool_decide (db_version t ≤ 6)
               then read_compressed else compressed in
             Ok ((e_off e + Z.to_nat size)%nat, 0, compressed, e));
        '(stop, rc, fetched, e) ←
          (if bool_decide (part = 0%nat) then
             '(rc, e) ← (if ref_counted t then read_rc e else Ok (rc, e));
             match key with
             | QFetch true => '(d, e) ← fetch_partial e; Ok (false, rc, Some d, e)
             | QFetch false => Ok (false, rc, fetched, e)
             | QCheck k =>
                 '(to_fetch, e) ← TableKey_fetch k e;
                 Ok (negb (TableKey_compare k to_fetch), rc, fetched, e)
             end
           else Ok (false, rc, fetched, e));
        if (stop : bool) then Ok (0, false, fetched, st)
        else if decide (entry_end < e_off e)%nat
        then Err (Corruption "Unexpected entry size.")
        else
          d ← remaining_to entry_end e;
          let '(cont, st) := f st d in
          if negb cont || bool_decide (next = 0) then Ok (rc, compressed, fetched, st)
          else for_parts_loop fuel' t key next log f (e_buf e) (S part) compressed rc fetched st
  end.

Definition for_parts `{LogQuery L} {St : Type} (t : ValueTable) (key : TableKeyQuery) (index : Z)
    (log : L) (f : St → bytes → bool * St) (st : St) : outcome (Z * bool * option bytes * St) :=
  for_parts_loop (chain_fuel t) t key index log f junk 0 false 1 None st.

(** [query]: the value, whether it is compressed, its reference counter, the key fetched. *)
Definition query `{LogQuery L} (t : ValueTable) (key : TableKeyQuery) (index : Z) (log : L)
    : outcome (option (bytes * bool * Z * option bytes)) :=
  '(rc, compressed, fetched, result) ←
    for_parts t key index log (λ acc buf, (true, acc ++ buf)) [];
  if bool_decide (0 < rc) then Ok (Some (result, compressed, rc, fetched)) else Ok None.

Definition ValueTable_get `{LogQuery L} (t : ValueTable) (key : TableKey) (index : Z) (log : L)
    : outcome (option (bytes * bool)) :=
  r ← query t (QCheck key) index log;
  Ok (match r with Some (value, compressed, _, _) => Some (value, compressed) | None => None end).

Definition get_with_meta `{LogQuery L} (t : ValueTable) (index : Z) (log : L)
    : outcome (option (bytes * Z * bytes * bool)) :=
  r ← query t (QFetch true) index log;
  Ok (match r with
      | Some (value, compressed, rc, fetched) =>
          Some (value, rc, default (replicate PARTIAL_SIZE Byte.x00) fetched, compressed)
      | None => None end).

(** The length is accumulated in a [u32]. *)
Definition ValueTable_size `{LogQuery L} (t : ValueTable) (key : TableKey) (index : Z) (log : L)
    : outcome (option (Z * bool)) :=
  '(rc, compressed, _, result) ←
    for_parts t (QCheck key) index log
      (λ acc buf, (true, u32 (acc + Z.of_nat (length buf)))) 0;
  if bool_decide (0 < rc) then Ok (Some (result, compressed)) else Ok None.

Definition partial_key_at `{LogQuery L} (t : ValueTable) (index : Z) (log : L)
    : outcome (option bytes) :=
  '(rc, _, fetched, _) ← for_parts t (QFetch true) index log (λ st _, (false, st)) tt;
  Ok (if bool_decide (rc = 0) then None
      else Some (default (replicate PARTIAL_SIZE Byte.x00) fetched)).

Definition ValueTable_is_tombstone `{LogQuery L} (t : ValueTable) (index : Z) (log : L)
    : outcome bool :=
  b ← load t 40 (take 40 junk) index log; Ok (is_tombstone (mkEntry 0 b)).

Definition has_key_at `{LogQuery L} (t : ValueTable) (index : Z) (key : TableKey) (log : L)
    : outcome bool :=
  match key with
  | Partial k =>
      o ← partial_key_at t index log;
      Ok (match o with Some existing => bool_decide (existing = partial_key k) | None => false end)
  | NoHash => b ← ValueTable_is_tombstone t index log; Ok (negb b)
  end.

Definition dump_entry (t : ValueTable) (index : Z) : outcome bytes :=
  TableFile_read_at (vt_file t) (es_nat t) (u64 (index * entry_size t)).

(** *** Links between slots *)
Definition read_next_free (t : ValueTable) (index : Z) (log : LogWriter) : outcome Z :=
  b ← load t 10 (take 10 junk) index log;
  '(next, _) ← read_next (skip_size (mkEntry 0 b));
  if bool_decide (filled t ≤ next) then Err (Corruption "Bad removed ref") else Ok next.

Definition read_next_part (t : ValueTable) (index : Z) (log : LogWriter) : outcome (option Z) :=
  b ← load t 10 (take 10 junk) index log;
  let e := mkEntry 0 b in
  if multipart t && is_multi (db_version t) e then
    '(next, _) ← read_next (skip_size e); Ok (Some next)
  else Ok None.

(** *** Writing.  The state is the table (its atomics) and the log writer. *)
Abbreviation W := (M (ValueTable * LogWriter)).

Definition next_free : W Z :=
  '(t, log) ← gets id;
  if bool_decide (last_removed t ≠ 0) then
    next_removed ← lift (read_next_free t (last_removed t) log);
    _ ← modify (λ '(t', log), (set_free (filled t) next_removed t', log));
    mret (last_removed t)
  else
    _ ← modify (λ '(t', log), (set_free (u64 (filled t + 1)) (last_removed t) t', log));
    mret (filled t).

Definition clear_slot (index : Z) : W unit :=
  '(t, _) ← gets id;
  buf ← lift (write_tombstone (VEntry_new (take 10 junk)));
  buf ← lift (write_next (last_removed t) buf);
  modify (λ '(t, log),
    (set_free (filled t) index t, insert_value (vt_id t) index (take (e_off buf) (e_buf buf)) log)).

Fixpoint clear_chain_loop (fuel : nat) (index : Z) : W unit :=
  match fuel with
  | O => lift NoFuel
  | S fuel' =>
      '(t, log) ← gets id;
      o ← lift (read_next_part t index log);
      match o with
      | Some next => _ ← clear_slot index; clear_chain_loop fuel' next
      | None => clear_slot index
      end
  end.
Definition clear_chain (index : Z) : W unit := λ s, clear_chain_loop (chain_fuel s.1) index s.

(** The end of one round of [overwrite_chain]: the counter and the key in the first slot,
    then as much of the value as fits.  Returns the bytes to log and how many bytes of the
    value they hold. *)
Definition write_payload (t : ValueTable) (key : TableKey) (value : bytes)
    (offset value_len : nat) (buf : VEntry) : outcome (bytes * nat) :=
  let init_offset := e_off buf in
  buf ← (if bool_decide (offset = 0%nat) then
           buf ← (if ref_counted t then write_rc 1 buf else Ok buf);
           TableKey_write key buf
         else Ok buf);
  let written := (e_off buf - init_offset)%nat in
  d ← (if decide (offset + value_len < written)%nat then Panic
       else slice value offset (offset + value_len - written));
  buf ← write_slice d buf;
  Ok (take (e_off buf) (e_buf buf), (value_len - written)%nat).

(** One slot of [overwrite_chain]: the bytes to log, how much of the remainder they hold
    (markers and sizes apart), how much of the value, and the next slot. *)
Definition overwrite_slot (key : TableKey) (value : bytes) (compressed : bool)
    (remainder offset : nat) (start next_index : Z) (follow : bool) : W (bytes * nat * nat * Z) :=
  '(t, _) ← gets id;
  let buf := VEntry_new junk in
  let free_space := (es_nat t - SIZE_SIZE)%nat in
  '(value_len, next_index, buf) ←
    (if decide (free_space < remainder)%nat then
       next_index ← (if (follow : bool) then mret next_index else next_free);
       buf ← lift (if bool_decide (start = 0)
                   then (if compressed then write_multihead_compressed buf else write_multihead buf)
                   else write_multipart buf);
       buf ← lift (write_next next_index buf);
       mret ((free_space - INDEX_SIZE)%nat, next_index, buf)
     else
       buf ← lift (write_size (u16 (Z.of_nat remainder)) compressed buf);
       mret (remainder, next_index, buf));
  '(d, taken) ← lift (write_payload t key value offset value_len buf);
  mret (d, value_len, taken, next_index).

Fixpoint overwrite_chain_loop (fuel : nat) (key : TableKey) (value : bytes) (compressed : bool)
    (remainder offset : nat) (start index : Z) (follow : bool) : W Z :=
  match fuel with
  | O => lift NoFuel
  | S fuel' =>
      '(next_index, follow) ←
        (if follow then
           '(t, log) ← gets id;
           o ← lift (read_next_part t index log);
           mret (match o with Some next => (next, true) | None => (0, false) end)
         else mret (0, false));
      '(d, value_len, taken, next_index) ←
        overwrite_slot key value compressed remainder offset start next_index follow;
      _ ← modify (λ '(t, log), (t, insert_value (vt_id t) index d log));
      let remainder := (remainder - value_len)%nat in
      let start := if bool_decide (start = 0) then index else start in
      if bool_decide (remainder = 0%nat) then
        _ ← (if bool_decide (next_index ≠ 0) then clear_chain next_index else mret tt);
        mret start
      else
        overwrite_chain_loop fuel' key value compressed remainder (offset + taken) start
          next_index follow
  end.

Definition overwrite_chain (key : TableKey) (value : bytes) (at_ : option Z) (compressed : bool)
    : W Z :=
  '(t, _) ← gets id;
  let remainder := (length value + ref_size t + encoded_size key)%nat in
  if negb (multipart t)
     && negb (match value_size t key with
              | Some s => bool_decide (Z.of_nat (length value) ≤ s) | None => false end)
  then lift Panic
  else
    '(index, follow) ←
      (match at_ with
       | Some index => mret (index, true)
       | None => index ← next_free; mret (index, false)
       end);
    overwrite_chain_loop (S remainder) key value compressed remainder 0 0 index follow.

Definition ValueTable_write_insert_plan (key : TableKey) (value : bytes) (compressed : bool) : W Z :=
  overwrite_chain key value None compressed.

Definition ValueTable_write_replace_plan (index : Z) (key : TableKey) (value : bytes)
    (compressed : bool) : W unit :=
  _ ← overwrite_chain key value (Some index) compressed; mret tt.

Definition ValueTable_write_remove_plan (index : Z) : W unit :=
  '(t, _) ← gets id;
  if multipart t then clear_chain index else clear_slot index.

(** *** Reference counters *)
Definition change_ref (index delta : Z) : W bool :=
  '(t, log) ← gets id;
  b ← lift (load t (es_nat t) junk index log);
  let e := mkEntry 0 b in
  if is_tombstone e then mret false
  else
    '(size, e) ← lift (
      if multipart t && is_multi (db_version t) e
      then Ok (es_nat t, skip_next (skip_size e))
      else '(size, _, e) ← read_size e; Ok ((e_off e + Z.to_nat size)%nat, e));
    let rc_offset := e_off e in
    '(counter, e) ← lift (read_rc e);
    let counter' :=
      if bool_decide (0 < delta) then
        Some (if bool_decide (u32 (LOCKED_REF - delta) ≤ counter) then LOCKED_REF
              else counter + delta)
      else if bool_decide (counter ≠ LOCKED_REF) then
        let c := Z.max 0 (counter - u32 (- delta)) in
        if bool_decide (c = 0) then None else Some c
      else Some counter in
    match counter' with
    | None => mret false
    | Some counter =>
        e ← lift (write_rc counter (set_offset rc_offset e));
        d ← lift (slice (e_buf e) 0 size);
        _ ← modify (λ '(t, log), (t, insert_value (vt_id t) index d log));
        mret true
    end.

Definition write_inc_ref (index : Z) : W unit := _ ← change_ref index 1; mret tt.

Definition write_dec_ref (index : Z) : W bool :=
  kept ← change_ref index (-1);
  if (kept : bool) then mret true
  else _ ← ValueTable_write_remove_plan index; mret false.

(** *** Completing a record *)
Definition ValueTable_complete_plan : W unit :=
  '(t, _) ← gets id;
  if dirty_header t then
    let buf := Header_set_filled (filled t) (Header_set_last_removed (last_removed t) Header_default) in
    modify (λ '(t, log),
      (mkTable (vt_id t) (entry_size t) (vt_file t) (filled t) (last_removed t) false
         (multipart t) (ref_counted t) (db_version t),
       insert_value (vt_id t) 0 buf log))
  else mret tt.

Definition ValueTable_refresh_metadata (t : ValueTable) : outcome ValueTable :=
  match tf_file (vt_file t) with
  | None => Ok t
  | Some _ =>
      h ← TableFile_read_at (vt_file t) 16 0;
      let filled := if bool_decide (Header_filled h = 0) then 1 else Header_filled h in
      Ok (mkTable (vt_id t) (entry_size t) (vt_file t) filled (Header_last_removed h)
            (dirty_header t) (multipart t) (ref_counted t) (db_version t))
  end.

(** *** Enacting and validating a logged entry.  The state is the table and the reader. *)
Fixpoint grow_until (fuel : nat) (index : Z) (es : Z) (f : TableFile) : outcome TableFile :=
  if bool_decide (index < tf_capacity f) then Ok f
  else match fuel with
       | O => NoFuel
       | S fuel' => grow_until fuel' index es (TableFile_grow es f)
       end.

Definition write_file (d : bytes) (index : Z) : M (ValueTable * LogReader) unit :=
  '(t, _) ← gets id;
  f ← lift (TableFile_write_at d (u64 (index * entry_size t)) (vt_file t));
  modify (λ '(t, r), (set_file f t, r)).

Definition log_read (n : nat) : M (ValueTable * LogReader) bytes :=
  zoom snd (λ r s, (s.1, r)) (LogReader_read n).

(** The buffer is filled in two reads: the two bytes that tell the kind of the entry, then
    as many as that kind has; the bytes read so far are all that is used of it. *)
Definition read_entry_body : M (ValueTable * LogReader) bytes :=
  '(t, _) ← gets id;
  d ← log_read SIZE_SIZE;
  let e := mkEntry 0 d in
  if is_tombstone e then
    d' ← log_read INDEX_SIZE; mret (d ++ d')
  else if multipart t && is_multi (db_version t) e then
    d' ← log_read (es_nat t - SIZE_SIZE); mret (d ++ d')
  else
    '(len, _, _) ← lift (read_size e);
    if decide (MAX_ENTRY_BUF_SIZE < SIZE_SIZE + Z.to_nat len)%nat then lift Panic
    else d' ← log_read (Z.to_nat len); mret (d ++ d').

Definition ValueTable_enact_plan (index : Z) : M (ValueTable * LogReader) unit :=
  '(t, _) ← gets id;
  f ← lift (grow_until (Z.to_nat (index + 1)) index (entry_size t) (vt_file t));
  _ ← modify (λ '(t, r), (set_file f t, r));
  if bool_decide (index = 0) then
    h ← log_read 16; write_file h 0
  else
    d ← read_entry_body; write_file d index.

Definition ValueTable_validate_plan (index : Z) : M (ValueTable * LogReader) unit :=
  if bool_decide (index = 0) then _ ← log_read 16; mret tt
  else _ ← read_entry_body; mret tt.

(** *** Iteration over the values of a table *)
Fixpoint iter_while_loop `{LogQuery L} {St : Type} (n : nat) (t : ValueTable) (index : Z) (log : L)
    (f : Z → Z → bytes → bool → St → bool * St) (st : St) : outcome St :=
  match n with
  | O => Ok st
  | S n' =>
      match for_parts t (QFetch true) index log (λ acc buf, (true, acc ++ buf)) [] with
      | Ok (rc, compressed, _, result) =>
          if bool_decide (0 < rc) then
            let '(cont, st) := f index rc result compressed st in
            if (cont : bool) then iter_while_loop n' t (index + 1) log f st else Ok st
          else iter_while_loop n' t (index + 1) log f st
      | Err InvalidValueData => iter_while_loop n' t (index + 1) log f st
      | Err e => Err e
      | Panic => Panic
      | NoFuel => NoFuel
      end
  end.
Definition iter_while `{LogQuery L} {St : Type} (t : ValueTable) (log : L)
    (f : Z → Z → bytes → bool → St → bool * St) (st : St) : outcome St :=
  iter_while_loop (Z.to_nat (filled t - 1)) t 1 log f st.

(** *** The free list on disk *)
Fixpoint check_free_refs_loop (fuel : nat) (t : ValueTable) (next len : Z) : outcome Z :=
  match fuel with
  | O => NoFuel
  | S fuel' =>
      if bool_decide (next = 0) then Ok len
      else if bool_decide (filled t ≤ next) then Err (Corruption "Bad removed ref")
      else
        d ← TableFile_read_at (vt_file t) 10 (u64 (next * entry_size t));
        '(next', _) ← read_next (skip_size (mkEntry 0 d));
        check_free_refs_loop fuel' t next' (len + 1)
  end.
Definition check_free_refs (t : ValueTable) : outcome Z :=
  check_free_refs_loop (chain_fuel t) t (last_removed t) 0.

(** *** The first entry of a fresh table *)
Definition is_init (t : ValueTable) : bool := bool_decide (is_Some (tf_file (vt_file t))).

Fixpoint write_entries (t : ValueTable) (l : list (Z * (Z * bytes))) (f : TableFile)
    : outcome TableFile :=
  match l with
  | [] => Ok f
  | (at_, (_, d)) :: l' =>
      f' ← TableFile_write_at d (u64 (at_ * entry_size t)) f; write_entries t l' f'
  end.

Definition do_init_with_entry (entry : bytes) : M ValueTable unit := λ t,
  let t := set_file (TableFile_grow (entry_size t) (vt_file t)) t in
  let '(o, (t, log)) :=
    (at_ ← overwrite_chain NoHash entry None false; _ ← ValueTable_complete_plan; mret at_)
      (t, LogWriter_new LogOverlays_default 0) in
  let r :=
    at_ ← o;
    if bool_decide (at_ ≠ 1) then Panic
    else match local_values_changes (change log) (vt_id t) with
         | None => Panic
         | Some ch => write_entries t (map_to_list ch) (vt_file t)
         end in
  match r with
  | Ok f => (Ok tt, set_file f t)
  | Err e => (Err e, t)
  | Panic => (Panic, t)
  | NoFuel => (NoFuel, t)
  end.

Definition init_with_entry (entry : bytes) : M ValueTable unit := λ t,
  match do_init_with_entry entry t with
  | (Err e, t') => (Err e, set_file (TableFile_remove (vt_file t')) t')
  | r => r
  end.
End table_ops.
