(* ===== verification/ValueSlots.v ===== *)
(** * Value tables: what a slot holds

    The contents of a slot are described by [slotc]: a tombstone, a part of a long value that
    links to the next slot, or a last (or only) part.  [enc] is the encoding of the source.
    [slot_has] says that a slot holds some contents as seen through a log over the file, and
    the lemmas of this file say what each of the loads of the source returns then, whatever
    the uninitialised buffer held before. *)

From S2P Require Import Prelude IndexEntry IndexChunk Log ValueEntry File ValueTable.

Inductive slotc :=
  | STomb (next : Z)
  | SMulti (mark : bytes) (next : Z) (body : bytes)
  | SPlain (compressed : bool) (body : bytes).

Definition size_word (compressed : bool) (n : Z) : Z :=
  if compressed then Z.lor n COMPRESSED_MASK else n.

Definition enc (c : slotc) : bytes :=
  match c with
  | STomb n => TOMBSTONE ++ le_bytes 8 n
  | SMulti m n b => m ++ le_bytes 8 n ++ b
  | SPlain comp b => le_bytes 2 (size_word comp (Z.of_nat (length b))) ++ b
  end.

Definition head_mark (compressed : bool) : bytes :=
  if compressed then MULTIHEAD_COMPRESSED else MULTIHEAD.

(** ** Well-formed tables and slots *)
Record wf_table (t : ValueTable) : Prop := {
  wf_es : 32 ≤ entry_size t ≤ 32760;
  wf_multi : multipart t = true → entry_size t = 4096;
  wf_filled : 1 ≤ filled t;
  wf_room : filled t * entry_size t < 2 ^ 64;
}.

Definition wf_slot (t : ValueTable) (c : slotc) : Prop :=
  match c with
  | STomb n => in_range 64 n
  | SMulti m n b =>
      multipart t = true ∧ (m = MULTIPART ∨ m = MULTIHEAD ∨ m = MULTIHEAD_COMPRESSED) ∧
      in_range 64 n ∧ n ≠ 0 ∧ length b = (es_nat t - 10)%nat
  | SPlain _ b => (length b ≤ es_nat t - 2)%nat
  end.

Definition slot_has `{LogQuery L} (t : ValueTable) (log : L) (i : Z) (c : slotc) : Prop :=
  match value_entry log (vt_id t) i with
  | Some d => d = enc c
  | None => ∃ rest, TableFile_read_at (vt_file t) (es_nat t) (i * entry_size t) = Ok (enc c ++ rest)
  end.

Lemma es_nat_eq t : wf_table t → Z.of_nat (es_nat t) = entry_size t ∧ 32 ≤ Z.of_nat (es_nat t) ≤ 32760.
Proof. intros Ht. pose proof (wf_es _ Ht). unfold es_nat. lia. Qed.

Lemma enc_length t c :
  wf_table t → wf_slot t c →
  (2 ≤ length (enc c) ≤ es_nat t)%nat ∧
  match c with SPlain _ _ => True | _ => (10 ≤ length (enc c))%nat end.
Proof.
  intros Ht%es_nat_eq Hc. destruct c as [n|m n b|comp b]; simpl in *; len.
  destruct Hc as (_ & Hm & _ & _ & Hb). destruct Hm as [->|[->| ->]]; simpl; lia.
Qed.

Lemma slot_offset_small t i :
  wf_table t → 0 ≤ i < filled t → u64 (i * entry_size t) = i * entry_size t.
Proof.
  intros [H _ ? ?] Hi. apply wrap_small.
  assert (i * entry_size t ≤ filled t * entry_size t) by (apply Z.mul_le_mono_nonneg_r; lia).
  unfold in_range. lia.
Qed.

Lemma read_exact_at_shorter n m o l d :
  0 ≤ o → (m ≤ n)%nat → read_exact_at n o l = Ok d → read_exact_at m o l = Ok (take m d).
Proof.
  unfold read_exact_at. intros Ho Hm. case_decide; [|done]. intros. simplify_eq.
  rewrite decide_True by lia. rewrite take_take. by rewrite Nat.min_l by lia.
Qed.

Lemma TableFile_read_at_shorter n m o f d :
  0 ≤ o → (m ≤ n)%nat → TableFile_read_at f n o = Ok d → TableFile_read_at f m o = Ok (take m d).
Proof. unfold TableFile_read_at. destruct (tf_file f); [|done]. apply read_exact_at_shorter. Qed.

Lemma TableFile_read_at_length n o f d : TableFile_read_at f n o = Ok d → 0 ≤ o → length d = n.
Proof.
  unfold TableFile_read_at, read_exact_at. destruct (tf_file f) as [l|]; [|done].
  case_decide; intros; simplify_eq. len.
Qed.

(** ** Loads *)
Section loads.
Context `{LogQuery L}.
Implicit Types (log : L) (t : ValueTable).

(** A load of a whole slot into a buffer that is large enough for it. *)
Lemma load_full t log i c buf :
  wf_table t → wf_slot t c → 0 ≤ i < filled t → slot_has t log i c →
  length buf = MAX_ENTRY_BUF_SIZE →
  ∃ r, load t (es_nat t) buf i log = Ok (enc c ++ r) ∧
       length (enc c ++ r) = MAX_ENTRY_BUF_SIZE.
Proof.
  intros Ht Hc Hi Hs Hb. pose proof (es_nat_eq _ Ht) as [_ He].
  pose proof (enc_length _ _ Ht Hc) as [Hl _]. unfold MAX_ENTRY_BUF_SIZE in *.
  unfold load, log_value. unfold slot_has in Hs. destruct (value_entry _ _ _) as [d|].
  - subst d. rewrite copy_prefix_le by lia. eexists; split; [done|]. len.
  - rewrite slot_offset_small by done. destruct Hs as [rest Hr]. rewrite Hr. simpl.
    apply TableFile_read_at_length in Hr as Hrl; [|destruct Ht; nia].
    rewrite overwrite_Ok by lia. rewrite take_0. simpl. rewrite <-app_assoc.
    eexists; split; [done|]. len.
Qed.

(** A load of the first ten bytes. *)
Lemma load_partial t log i c buf :
  wf_table t → wf_slot t c → 0 ≤ i < filled t → slot_has t log i c → length buf = 10%nat →
  ∃ b, load t 10 buf i log = Ok b ∧ take 2 b = take 2 (enc c) ∧
       ((10 ≤ length (enc c))%nat → b = take 10 (enc c)).
Proof.
  intros Ht Hc Hi Hs Hb. pose proof (es_nat_eq _ Ht) as [_ He].
  pose proof (enc_length _ _ Ht Hc) as [Hl _].
  unfold load, log_value. unfold slot_has in Hs. destruct (value_entry _ _ _) as [d|].
  - subst d. eexists; split; [done|]. split.
    + unfold copy_prefix. rewrite Hb. rewrite take_app_le by len. rewrite take_take. f_equal. lia.
    + intros. rewrite copy_prefix_ge, Hb by lia. done.
  - rewrite slot_offset_small by done. destruct Hs as [rest Hr].
    apply TableFile_read_at_shorter with (m := 10%nat) in Hr; [|destruct Ht; nia|lia].
    rewrite Hr. simpl. apply TableFile_read_at_length in Hr as Hrl; [|destruct Ht; nia].
    rewrite overwrite_Ok by lia. rewrite take_0. simpl.
    rewrite (drop_ge buf), app_nil_r by lia. eexists; split; [done|]. split.
    + rewrite take_take, take_app_le by lia. done.
    + intros. by rewrite take_app_le by lia.
Qed.
End loads.

(** ** Markers *)
Lemma size_word_bytes comp n :
  in_range 15 n → n ≤ 32758 →
  ∀ m, m ∈ [TOMBSTONE; MULTIPART; MULTIHEAD; MULTIHEAD_COMPRESSED] → le_bytes 2 (size_word comp n) ≠ m.
Proof.
  intros Hn Hle m Hm E. unfold in_range in Hn.
  assert (Hlor : Z.lor n 32768 = n + 32768).
  { change 32768 with (1 * 2 ^ 15). rewrite Z.lor_comm, lor_fields by lia. lia. }
  assert (le_val m = size_word comp n) as Hv.
  { rewrite <-E. apply le_val_bytes_small. unfold in_range, size_word, COMPRESSED_MASK.
    destruct comp; rewrite ?Hlor; simpl; lia. }
  unfold size_word, COMPRESSED_MASK in Hv. rewrite Hlor in Hv.
  assert (le_val TOMBSTONE = 65535 ∧ le_val MULTIPART = 65534 ∧ le_val MULTIHEAD = 65533 ∧
          le_val MULTIHEAD_COMPRESSED = 32765) as (?&?&?&?) by (by vm_compute).
  repeat (apply elem_of_cons in Hm as [->|Hm]; [destruct comp; lia|]). by apply elem_of_nil in Hm.
Qed.

Lemma size_word_bytes_v4 comp n :
  0 ≤ n ≤ 4094 → ∀ m, m ∈ [MULTIPART_V4; MULTIHEAD_V4] → le_bytes 2 (size_word comp n) ≠ m.
Proof.
  intros Hn m Hm E.
  assert (Hlor : Z.lor n 32768 = n + 32768).
  { change 32768 with (1 * 2 ^ 15). rewrite Z.lor_comm, lor_fields by lia. lia. }
  assert (le_val m = size_word comp n) as Hv.
  { rewrite <-E. apply le_val_bytes_small. unfold in_range, size_word, COMPRESSED_MASK.
    destruct comp; rewrite ?Hlor; simpl; lia. }
  unfold size_word, COMPRESSED_MASK in Hv. rewrite Hlor in Hv.
  assert (le_val MULTIPART_V4 = 65279 ∧ le_val MULTIHEAD_V4 = 65023) as (?&?) by (by vm_compute).
  repeat (apply elem_of_cons in Hm as [->|Hm]; [destruct comp; lia|]). by apply elem_of_nil in Hm.
Qed.

(** The kind of a slot as its first two bytes show it. *)
Section marks.
Context (t : ValueTable) (Ht : wf_table t).

Lemma mark_plain comp b buf :
  wf_slot t (SPlain comp b) → take 2 buf = take 2 (enc (SPlain comp b)) →
  is_tombstone (mkEntry 0 buf) = false ∧ is_multihead (mkEntry 0 buf) = false ∧
  (multipart t = true → is_multi (db_version t) (mkEntry 0 buf) = false).
Proof.
  intros Hc Hm. simpl in Hc. pose proof (es_nat_eq _ Ht) as [Hes Hr].
  simpl enc in Hm. rewrite take_app_le, (take_ge (le_bytes _ _)) in Hm by (rewrite le_bytes_length; lia).
  set (w := le_bytes 2 _) in *.
  assert (Hne : ∀ m, m ∈ [TOMBSTONE; MULTIPART; MULTIHEAD; MULTIHEAD_COMPRESSED] → w ≠ m)
    by (apply size_word_bytes; unfold in_range; lia).
  assert (Hmk : ∀ m, m ∈ [TOMBSTONE; MULTIPART; MULTIHEAD; MULTIHEAD_COMPRESSED] →
                bool_decide (take 2 buf = m) = false).
  { intros m Hin. rewrite bool_decide_false; [done|]. rewrite Hm. auto. }
  unfold is_tombstone, is_multihead, is_multihead_compressed, is_multi, is_multipart,
    is_multihead, is_multihead_compressed, is_multipart_v4, is_multihead_v4, marker, SIZE_SIZE.
  simpl e_buf. rewrite !Hmk by set_solver. split_and!; [done..|].
  intros Hmul. pose proof (wf_multi _ Ht Hmul).
  assert (Hne4 : ∀ m, m ∈ [MULTIPART_V4; MULTIHEAD_V4] → w ≠ m)
    by (apply size_word_bytes_v4; lia).
  rewrite !(bool_decide_false (take 2 buf = _)) by (rewrite Hm; apply Hne4; set_solver).
  simpl. by rewrite andb_false_r.
Qed.

Lemma mark_multi m n b buf :
  wf_slot t (SMulti m n b) → take 2 buf = take 2 (enc (SMulti m n b)) →
  is_tombstone (mkEntry 0 buf) = false ∧ is_multi (db_version t) (mkEntry 0 buf) = true ∧
  is_multihead (mkEntry 0 buf) = bool_decide (m ≠ MULTIPART) ∧
  is_multihead_compressed (mkEntry 0 buf) = bool_decide (m = MULTIHEAD_COMPRESSED).
Proof.
  intros (_ & Hm & _) Hb. assert (take 2 buf = m) as Hb'.
  { rewrite Hb. destruct Hm as [->|[->| ->]]; done. }
  unfold is_tombstone, is_multihead, is_multihead_compressed, is_multi, is_multipart,
    is_multihead, is_multihead_compressed, marker, SIZE_SIZE. simpl e_buf. rewrite Hb'.
  destruct Hm as [->|[->| ->]]; done.
Qed.

Lemma mark_tomb n buf :
  take 2 buf = take 2 (enc (STomb n)) → is_tombstone (mkEntry 0 buf) = true.
Proof. intros Hb. unfold is_tombstone, marker, SIZE_SIZE. simpl e_buf. by rewrite Hb. Qed.
End marks.
