(* ===== verification/ValueChains.v ===== *)
(** * Value tables: links between slots

    Slots are linked in two ways: the free list, a chain of tombstones from [last_removed],
    and the chain of the parts of a long value.  This file shows what the operations on links
    do to the contents of the slots ([next_free], [clear_slot], [clear_chain]), with the slots
    they leave alone. *)

From S2P Require Import Prelude IndexEntry IndexChunk Log ValueEntry File ValueTable ValueSlots.

(** ** What an operation on a table leaves alone *)
Definition shape (t : ValueTable) :=
  (vt_id t, entry_size t, vt_file t, multipart t, ref_counted t, db_version t).

Lemma shape_inv t t' :
  shape t = shape t' →
  vt_id t = vt_id t' ∧ entry_size t = entry_size t' ∧ vt_file t = vt_file t' ∧
  multipart t = multipart t' ∧ ref_counted t = ref_counted t' ∧ db_version t = db_version t'.
Proof. unfold shape. naive_solver. Qed.

Lemma wf_slot_shape t t' c : shape t = shape t' → wf_slot t c → wf_slot t' c.
Proof.
  intros (_ & He & _ & Hm & _)%shape_inv. unfold wf_slot, es_nat. by rewrite He, Hm.
Qed.

Lemma slot_has_shape `{HL : LogQuery L} t t' (log : L) i c :
  shape t = shape t' → slot_has t log i c → slot_has t' log i c.
Proof.
  intros (Hi & He & Hf & _)%shape_inv. unfold slot_has, es_nat. by rewrite Hi, He, Hf.
Qed.

(** What a record holds for a slot: the record that wrote it and the bytes. *)
Definition local_value (w : LogWriter) (id i : Z) : option (Z * bytes) := local_values (change w) !! id ≫= λ o, o !! i.

(** What an operation of a table may log: the contents of one of its slots. *)
Definition item_ok (t : ValueTable) (i : Z) (d : bytes) : Prop :=
  1 ≤ i < filled t ∧ ∃ c, wf_slot t c ∧ d = enc c.

Lemma item_ok_shape t t' i d : shape t' = shape t → filled t ≤ filled t' → item_ok t i d → item_ok t' i d.
Proof.
  intros Hs Hf (? & c & Hc & ?). split; [lia|]. exists c. split; [|done]. by eapply (wf_slot_shape t).
Qed.

Lemma local_value_insert id i d w id' j :
  local_value (insert_value id i d w) id' j = if decide (id = id' ∧ i = j) then Some (record_id (change w), d) else local_value w id' j.
Proof.
  unfold local_value. simpl. destruct (decide (id = id')) as [<-|Hne].
  - rewrite lookup_insert_eq. simpl. rewrite lookup_insert. repeat case_decide; try naive_solver.
    by destruct (local_values (change w) !! id).
  - rewrite lookup_insert_ne by done. by rewrite decide_False by naive_solver.
Qed.

(** The only part of the record under construction that a table writes is its own: [t] is the
    table after the operation. *)
Definition frame (t : ValueTable) (w w' : LogWriter) : Prop :=
  overlays w' = overlays w ∧ record_id (change w') = record_id (change w) ∧
  local_index (change w') = local_index (change w) ∧
  dropped_tables (change w') = dropped_tables (change w) ∧
  (∀ id, id ≠ vt_id t → local_values (change w') !! id = local_values (change w) !! id) ∧
  ∀ i x, local_value w' (vt_id t) i = Some x →
    local_value w (vt_id t) i = Some x ∨ (x.1 = record_id (change w) ∧ item_ok t i x.2).

Lemma frame_refl t w : frame t w w.
Proof. unfold frame. split_and!; auto. Qed.

Lemma frame_trans t1 t2 a b c :
  shape t2 = shape t1 → filled t1 ≤ filled t2 → frame t1 a b → frame t2 b c → frame t2 a c.
Proof.
  intros Hs Hf (?&Hr&?&?&Hab&Hia) (?&?&?&?&Hbc&Hib). pose proof (shape_inv _ _ Hs) as (Hid & _). rewrite Hid in *.
  unfold frame. rewrite Hid. split_and!; [congruence..| |].
  - intros id Hne. by rewrite Hbc, Hab.
  - intros i x Hx. destruct (Hib i x Hx) as [Hx'|[G1 G2]]; [|right; split; [congruence|done]].
    destruct (Hia i x Hx') as [?|[G1 G2]]; [by left|right]. split; [done|]. by eapply item_ok_shape.
Qed.

Lemma frame_insert t i d w : item_ok t i d → frame t w (insert_value (vt_id t) i d w).
Proof.
  intros Hd. unfold frame. split_and!; try done.
  - intros id Hne. simpl. by rewrite lookup_insert_ne.
  - intros j x. rewrite local_value_insert. case_decide as E; [|by left]. destruct E as [_ <-]. intros [= <-]. by right.
Qed.

Lemma frame_insert_value t i c w : 1 ≤ i < filled t → wf_slot t c → frame t w (insert_value (vt_id t) i (enc c) w).
Proof. intros Hi Hc. apply frame_insert. split; [done|]. by exists c. Qed.

Lemma frame_shape t t' w w' : shape t' = shape t → filled t ≤ filled t' → frame t w w' → frame t' w w'.
Proof. intros Hs Hf Hfr. eapply frame_trans; [done|done|done|]. apply frame_refl. Qed.

Lemma frame_value_entry t w w' id i :
  frame t w w' → id ≠ vt_id t → value_entry w' id i = value_entry w id i.
Proof.
  intros (Ho & _ & _ & _ & Hl & _) Ht. simpl. unfold lookup_value. by rewrite Hl, Ho by done.
Qed.

Lemma frame_with_index t w w' id i : frame t w w' → with_index w' id i = with_index w id i.
Proof. intros (Ho & _ & Hi & _). simpl. by rewrite Hi, Ho. Qed.

(** ** The slots of a table *)
Definition repr `{HL : LogQuery L} (t : ValueTable) (log : L) (H : gmap Z slotc) : Prop :=
  ∀ i c, H !! i = Some c → 1 ≤ i < filled t ∧ wf_slot t c ∧ slot_has t log i c.

Lemma repr_insert t log H i c :
  repr t log H → 1 ≤ i < filled t → wf_slot t c →
  repr t (insert_value (vt_id t) i (enc c) log) (<[i := c]> H).
Proof.
  intros Hr Hi Hc j d. rewrite lookup_insert. case_decide as Hij.
  - intros [= <-]. subst j. split_and!; [lia..|done|].
    unfold slot_has. by rewrite value_entry_insert_eq.
  - intros (?&?&Hs)%Hr. split_and!; [lia..|done|]. unfold slot_has in *.
    rewrite value_entry_insert_ne by auto. done.
Qed.

Lemma repr_shape `{HL : LogQuery L} t t' (log : L) H :
  shape t = shape t' → filled t ≤ filled t' → repr t log H → repr t' log H.
Proof.
  intros Hs Hf Hr i c (?&?&?)%Hr. split_and!; [lia..| |].
  - by eapply wf_slot_shape.
  - by eapply slot_has_shape.
Qed.

Inductive free_list (H : gmap Z slotc) : Z → list Z → Prop :=
  | free_nil : free_list H 0 []
  | free_cons i n l : H !! i = Some (STomb n) → free_list H n l → free_list H i (i :: l).

Inductive links (H : gmap Z slotc) : Z → list Z → Prop :=
  | links_last i comp b : H !! i = Some (SPlain comp b) → links H i [i]
  | links_next i m n b l : H !! i = Some (SMulti m n b) → links H n l → links H i (i :: l).

Lemma free_list_ext H H' i l :
  free_list H i l → (∀ j, j ∈ l → H' !! j = H !! j) → free_list H' i l.
Proof.
  induction 1; intros Hx; econstructor.
  - rewrite Hx by set_solver. done.
  - apply IHfree_list. set_solver.
Qed.

Lemma links_ext H H' i l : links H i l → (∀ j, j ∈ l → H' !! j = H !! j) → links H' i l.
Proof.
  induction 1; intros Hx; econstructor; try (rewrite Hx by set_solver; done).
  apply IHlinks. set_solver.
Qed.

Lemma free_list_dom H i l j : free_list H i l → j ∈ l → ∃ n, H !! j = Some (STomb n).
Proof. induction 1; intros Hj; [by apply elem_of_nil in Hj|]. apply elem_of_cons in Hj as [->|]; eauto. Qed.

Lemma links_head H i l : links H i l → ∃ l', l = i :: l'.
Proof. inversion 1; eauto. Qed.

Lemma links_cons H i l :
  links H i l →
  (∃ comp b, H !! i = Some (SPlain comp b) ∧ l = [i]) ∨
  (∃ m n b l', H !! i = Some (SMulti m n b) ∧ l = i :: l' ∧ links H n l').
Proof. inversion 1; naive_solver. Qed.

Lemma slots_length (l : list Z) n : NoDup l → (∀ i, i ∈ l → 1 ≤ i < n) → (length l ≤ Z.to_nat n)%nat.
Proof.
  intros Hnd Hin. transitivity (length (seqZ 1 (n - 1))); [|rewrite length_seqZ; lia].
  apply submseteq_length, NoDup_submseteq; [done|]. intros i Hi. apply elem_of_seqZ.
  specialize (Hin i Hi). lia.
Qed.

Lemma links_dom H i l j : links H i l → j ∈ l → is_Some (H !! j).
Proof.
  induction 1; intros Hj; apply elem_of_cons in Hj as [->|Hj]; eauto. by apply elem_of_nil in Hj.
Qed.
Section links.
Context (junk : bytes) (Hjunk : length junk = MAX_ENTRY_BUF_SIZE).

Lemma junk10 : length (take 10 junk) = 10%nat.
Proof. rewrite length_take, Hjunk. unfold MAX_ENTRY_BUF_SIZE. lia. Qed.

(** The link read from a slot. *)
Lemma read_next_at c n r :
  match c with STomb n' => n = n' | SMulti m n' _ => length m = 2%nat ∧ n = n' | _ => False end →
  in_range 64 n →
  ∃ e, read_next (skip_size (mkEntry 0 (take 10 (enc c) ++ r))) = Ok (n, e).
Proof.
  intros Hc Hn. set (m := match c with SMulti m _ _ => m | _ => TOMBSTONE end).
  assert (take 10 (enc c) = m ++ le_bytes 8 n ∧ length m = 2%nat) as [-> Hm].
  { destruct c as [n'|m' n' b|]; [subst n'|destruct Hc as [? ->]|done]; simpl.
    - split; [|done]. rewrite take_ge; [done|len].
    - split; [|done]. rewrite app_assoc, take_app_length'; [done|len]. }
  unfold read_next, read_u64, skip_size. simpl e_off. simpl e_buf. rewrite <-app_assoc.
  replace (0 + SIZE_SIZE)%nat with (length m) by (rewrite Hm; done).
  rewrite read_slice_at by apply le_bytes_length. simpl.
  rewrite in_range_le_val by done. eauto.
Qed.

Lemma read_next_part_spec t log H i c :
  wf_table t → repr t log H → H !! i = Some c →
  read_next_part junk t i log
  = match c with
    | SMulti _ n _ => Ok (Some n) | SPlain _ _ => Ok None | STomb _ => Ok None
    end.
Proof.
  intros Ht Hr Hi. destruct (Hr _ _ Hi) as (Hin & Hw & Hs).
  destruct (load_partial t log i c (take 10 junk)) as (b & Hl & Hm & Hb);
    [done|done|lia|done|apply junk10|].
  pose proof (enc_length _ _ Ht Hw) as [_ Hlen].
  unfold read_next_part. rewrite Hl. simpl. destruct c as [n|m n body|comp body].
  - rewrite Hb by done. destruct (is_multi _ _) eqn:E; [|by rewrite andb_false_r].
    exfalso. revert E. unfold is_multi, is_multipart, is_multihead, is_multihead_compressed,
      is_multipart_v4, is_multihead_v4, marker. simpl.
    change (take 10 _) with (TOMBSTONE ++ take 8 (le_bytes 8 n)). simpl. by destruct (bool_decide _).
  - pose proof Hw as (Hmu & Hmark & Hn & _).
    destruct (mark_multi t m n body b) as (_ & Hmul & _); [done|done|].
    rewrite Hmu, Hmul. simpl. rewrite Hb by done.
    destruct (read_next_at (SMulti m n body) n []) as [e He]; [split; [|done]; naive_solver|done|].
    rewrite app_nil_r in He. by rewrite He.
  - destruct (mark_plain t Ht comp body b) as (_ & _ & Hmul); [done|done|].
    destruct (multipart t); simpl; [|done]. by rewrite Hmul.
Qed.

Lemma read_next_free_spec t log H i n :
  wf_table t → repr t log H → H !! i = Some (STomb n) → n < filled t →
  read_next_free junk t i log = Ok n.
Proof.
  intros Ht Hr Hi Hn. destruct (Hr _ _ Hi) as (Hin & Hw & Hs).
  destruct (load_partial t log i (STomb n) (take 10 junk)) as (b & Hl & Hm & Hb);
    [done|done|lia|done|apply junk10|].
  unfold read_next_free. rewrite Hl. simpl.
  rewrite Hb by (pose proof (enc_length _ _ Ht Hw); tauto).
  destruct (read_next_at (STomb n) n []) as [e He]; [done|done|].
  rewrite app_nil_r in He. rewrite He. simpl. by rewrite bool_decide_false by lia.
Qed.

Lemma clear_slot_eq t log i :
  clear_slot junk i (t, log)
  = (Ok tt, (set_free (filled t) i t, insert_value (vt_id t) i (enc (STomb (last_removed t))) log)).
Proof.
  unfold clear_slot. mrun. change (id (t, log)) with (t, log). cbv beta iota.
  pose proof junk10 as Hj. pose proof (built_new (take 10 junk)) as Hb.
  destruct (write_slice_built _ _ _ TOMBSTONE Hb) as (e1 & E1 & Hb1); [simpl; lia|].
  unfold write_tombstone. mlift E1.
  destruct (write_slice_built _ _ _ (le_bytes 8 (last_removed t)) Hb1) as (e2 & E2 & Hb2);
    [len|].
  unfold write_next, write_u64. mlift E2.
  unfold modify. destruct (built_prefix _ _ _ Hb2) as [-> _]. done.
Qed.

(** [next_free] takes the head of the free list, or a new slot when the list is empty. *)
Lemma next_free_spec t log H fl :
  wf_table t → repr t log H → free_list H (last_removed t) fl →
  (filled t + 1) * entry_size t < 2 ^ 64 →
  ∃ i t', next_free junk (t, log) = (Ok i, (t', log)) ∧
    shape t' = shape t ∧ wf_table t' ∧ dirty_header t' = true ∧
    ((∃ fl', fl = i :: fl' ∧ filled t' = filled t ∧ free_list H (last_removed t') fl') ∨
     (fl = [] ∧ i = filled t ∧ filled t' = filled t + 1 ∧ last_removed t' = 0)).
Proof.
  intros Ht Hr Hf Hroom. pose proof (wf_es _ Ht). pose proof (wf_filled _ Ht).
  unfold next_free. mrun. change (id (t, log)) with (t, log). cbv beta iota. inversion Hf as [Hz|i n l Hi Hl Hz]; subst.
  - rewrite bool_decide_false by auto. mrun.
    assert (u64 (filled t + 1) = filled t + 1) as E.
    { apply wrap_small. unfold in_range. nia. }
    eexists _, _. split; [done|]. split_and!; try done.
    + split; simpl; rewrite ?E; try apply Ht; lia.
    + right. simpl. rewrite E. auto.
  - destruct (Hr _ _ Hi) as (Hin & Hw & _).
    assert (n < filled t) as Hn.
    { inversion Hl as [|? ? ? Hi' _]; subst; [lia|]. apply Hr in Hi' as (?&_). lia. }
    rewrite bool_decide_true by lia.
    mlift (read_next_free_spec t log H _ _ Ht Hr Hi Hn). mrun. eexists _, _. split; [done|]. split_and!; try done.
    + split; simpl; try apply Ht.
    + left. exists l. auto.
Qed.

Lemma clear_chain_spec l : ∀ fuel i t log H fl,
  wf_table t → repr t log H → links H i l → NoDup l → l ## fl →
  free_list H (last_removed t) fl → (length l ≤ fuel)%nat →
  ∃ t' log' H', clear_chain_loop junk fuel i (t, log) = (Ok tt, (t', log')) ∧
    shape t' = shape t ∧ filled t' = filled t ∧ wf_table t' ∧ dirty_header t' = true ∧ frame t' log log' ∧
    repr t' log' H' ∧ free_list H' (last_removed t') (reverse l ++ fl) ∧
    (∀ j, j ∉ l → H' !! j = H !! j).
Proof.
  induction l as [|i0 l IH]; intros fuel i t log H fl Ht Hr Hl Hnd Hdis Hf Hfu; [inversion Hl|].
  destruct fuel as [|fuel]; [simpl in Hfu; lia|]. simpl clear_chain_loop.
  mrun. change (id (t, log)) with (t, log). cbv beta iota.
  assert (i0 = i) as -> by (inversion Hl; done).
  set (t1 := set_free (filled t) i t).
  set (c := STomb (last_removed t)). set (log1 := insert_value (vt_id t) i (enc c) log).
  assert (Hlr : in_range 64 (last_removed t)).
  { inversion Hf as [|? ? ? Hi']; subst; [done|]. apply Hr in Hi' as (?&_).
    destruct Ht. unfold in_range. nia. }
  assert (Hin : 1 ≤ i < filled t) by (apply links_cons in Hl as [(?&?&Hi&_)|(?&?&?&?&Hi&_)]; apply Hr in Hi; tauto).
  assert (Hr1 : repr t1 log1 (<[i := c]> H)).
  { apply (repr_shape t); [done|done|]. by apply repr_insert. }
  assert (Hf1 : free_list (<[i := c]> H) (last_removed t1) (i :: fl)).
  { simpl. econstructor; [by rewrite lookup_insert_eq|]. eapply free_list_ext; [done|].
    intros j Hj. rewrite lookup_insert_ne; [done|]. set_solver. }
  assert (Ht1 : wf_table t1) by (split; simpl; apply Ht).
  apply links_cons in Hl as [(comp & b & Hi & E)|(m & n & b & l' & Hi & E & Hl')]; simplify_eq.
  - mlift (read_next_part_spec t log H _ _ Ht Hr Hi). rewrite clear_slot_eq. fold c log1 t1. eexists _, _, _. split; [done|].
    split_and!; try done.
    + by apply (frame_insert_value t1 i c log).
    + intros j Hj. rewrite lookup_insert_ne; [done|]. set_solver.
  - mlift (read_next_part_spec t log H _ _ Ht Hr Hi). mstep clear_slot_eq. fold c log1 t1.
    apply NoDup_cons in Hnd as [Hni Hnd].
    destruct (IH fuel n t1 log1 (<[i := c]> H) (i :: fl)) as (t' & log' & H' & Hc & Hsh & Hfi & Hw & Hdi & Hfr & Hr' & Hf' & Hx);
      [done|done| |done|set_solver|done|simpl in Hfu; lia|].
    { eapply links_ext; [done|]. intros j Hj. rewrite lookup_insert_ne; [done|]. set_solver. }
    exists t', log', H'. split_and!; try done.
    + eapply (frame_trans t1); [done|by rewrite Hfi| |done]. by apply (frame_insert_value t1 i c log).
    + by rewrite reverse_cons, <-app_assoc.
    + intros j Hj. rewrite Hx by set_solver. rewrite lookup_insert_ne; [done|]. set_solver.
Qed.
End links.
