(* ===== verification/ValueWrite.v ===== *)
(** * Value tables: writing a value

    [overwrite_chain] writes a value into a fresh chain, or over an existing one whose slots it
    reuses before it takes new ones and whose tail it frees.  This file shows that the chain it
    leaves holds the value, that it uses exactly the slots it should, and that all other slots
    keep their contents. *)

From S2P Require Import Prelude IndexEntry IndexChunk Log ValueEntry File ValueTable ValueSlots ValueChains.

(** A value from slot [i] on: the slots and the bytes.  [first] tells the head of the value, whose
    marker says that a value begins there, from a part further down. *)
Definition link_mark (first comp : bool) : bytes := if first then head_mark comp else MULTIPART.

Inductive chain (H : gmap Z slotc) (comp : bool) : bool → Z → list Z → bytes → Prop :=
  | chain_last first i b : H !! i = Some (SPlain comp b) → chain H comp first i [i] b
  | chain_part first i n b l rest :
      H !! i = Some (SMulti (link_mark first comp) n b) → chain H comp false n l rest →
      chain H comp first i (i :: l) (b ++ rest).

Lemma chain_ext H H' comp first i l b :
  chain H comp first i l b → (∀ j, j ∈ l → H' !! j = H !! j) → chain H' comp first i l b.
Proof.
  induction 1; intros Hx; econstructor; try (rewrite Hx by set_solver; done).
  apply IHchain. set_solver.
Qed.

Lemma chain_links H comp first i l b : chain H comp first i l b → links H i l.
Proof. induction 1; econstructor; eauto. Qed.

Lemma chain_head H comp first i l b : chain H comp first i l b → ∃ l', l = i :: l'.
Proof. inversion 1; eauto. Qed.

(** What is stored before the value in the first slot. *)
Definition rc_bytes (t : ValueTable) (rc : Z) : bytes := if ref_counted t then le_bytes 4 rc else [].
Definition prefix_at (t : ValueTable) (key : TableKey) (offset : nat) : bytes :=
  if bool_decide (offset = 0%nat) then rc_bytes t 1 ++ key_bytes key else [].

Lemma rc_bytes_length t rc : length (rc_bytes t rc) = ref_size t.
Proof. unfold rc_bytes, ref_size. destruct (ref_counted t); [apply le_bytes_length|done]. Qed.

Lemma prefix_at_length t key offset :
  wf_key key → (length (prefix_at t key offset) ≤ 30)%nat ∧
  (offset = 0%nat → length (prefix_at t key offset) = (ref_size t + encoded_size key)%nat).
Proof.
  intros Hk. unfold prefix_at. case_bool_decide; [|simpl; lia].
  rewrite length_app, rc_bytes_length, key_bytes_length by done. split; [|done].
  unfold ref_size, encoded_size. destruct (ref_counted t), key; simpl; unfold REFS_SIZE, PARTIAL_SIZE; lia.
Qed.

(** An operation that changes the free list or the number of slots says so. *)
Definition dirtied (t t' : ValueTable) : Prop := t' = t ∨ dirty_header t' = true.

Lemma dirtied_trans t t1 t' : dirtied t t1 → dirtied t1 t' → dirtied t t'.
Proof. unfold dirtied. naive_solver. Qed.

(** What writing a value at [index] leaves: the value in the slots [sl], the free list [fl'],
    which together are the slots [olds] and [fl] the operation was given and the new ones, and
    all other slots as they were. *)
Record written (t : ValueTable) (log : LogWriter) (H : gmap Z slotc) (olds fl : list Z) (need : nat)
    (comp first : bool) (index : Z) (c : bytes)
    (t' : ValueTable) (log' : LogWriter) (H' : gmap Z slotc) (sl fl' : list Z) : Prop := {
  w_shape : shape t' = shape t;
  w_wf : wf_table t';
  w_dirty : dirtied t t';
  w_frame : frame t' log log';
  w_repr : repr t' log' H';
  w_free : free_list H' (last_removed t') fl';
  w_chain : chain H' comp first index sl c;
  w_slots : sl ++ fl' ≡ₚ olds ++ fl ++ seqZ (filled t) (filled t' - filled t);
  w_filled : filled t ≤ filled t' ≤ filled t + Z.of_nat need;
  w_others : ∀ j, j ∉ sl ++ fl' → H' !! j = H !! j;
}.

#[global] Arguments w_shape {t log H olds fl need comp first index c t' log' H' sl fl'}.
#[global] Arguments w_wf {t log H olds fl need comp first index c t' log' H' sl fl'}.
#[global] Arguments w_dirty {t log H olds fl need comp first index c t' log' H' sl fl'}.
#[global] Arguments w_frame {t log H olds fl need comp first index c t' log' H' sl fl'}.
#[global] Arguments w_repr {t log H olds fl need comp first index c t' log' H' sl fl'}.
#[global] Arguments w_free {t log H olds fl need comp first index c t' log' H' sl fl'}.
#[global] Arguments w_chain {t log H olds fl need comp first index c t' log' H' sl fl'}.
#[global] Arguments w_slots {t log H olds fl need comp first index c t' log' H' sl fl'}.
#[global] Arguments w_filled {t log H olds fl need comp first index c t' log' H' sl fl'}.
#[global] Arguments w_others {t log H olds fl need comp first index c t' log' H' sl fl'}.

Section writes.
Context (junk : bytes) (Hjunk : length junk = MAX_ENTRY_BUF_SIZE).

Lemma write_payload_spec t key value offset vl buf h :
  wf_key key → built buf h junk → (length h + vl ≤ Z.to_nat 32768)%nat →
  let c := prefix_at t key offset ++ drop offset value in
  (length (prefix_at t key offset) ≤ vl ≤ length c)%nat → (offset ≤ length value)%nat →
  write_payload t key value offset vl buf
  = Ok (h ++ take vl c, (vl - length (prefix_at t key offset))%nat).
Proof.
  intros Hk Hb Hl c Hvl Ho. unfold write_payload.
  assert (Hpre : ∃ buf', (if bool_decide (offset = 0%nat) then
      buf ← (if ref_counted t then write_rc 1 buf else Ok buf); TableKey_write key buf
      else Ok buf) = Ok buf' ∧ built buf' (h ++ prefix_at t key offset) junk).
  { unfold prefix_at in *. unfold MAX_ENTRY_BUF_SIZE in Hjunk.
    case_bool_decide; [|exists buf; by rewrite app_nil_r].
    rewrite length_app, key_bytes_length in Hvl by done. unfold rc_bytes in *.
    destruct (ref_counted t).
    - destruct (write_slice_built _ _ _ (le_bytes 4 1) Hb) as (b1 & E1 & Hb1); [len|].
      unfold write_rc. rewrite E1. simpl.
      destruct (TableKey_write_built key _ _ _ Hb1) as (b2 & E2 & Hb2); [done|len|].
      exists b2. rewrite app_assoc. done.
    - simpl. destruct (TableKey_write_built key _ _ _ Hb) as (b2 & E2 & Hb2); [done|len|].
      exists b2. done. }
  destruct Hpre as (buf' & -> & Hb'). simpl.
  destruct (built_prefix _ _ _ Hb) as [_ Hoff]. destruct (built_prefix _ _ _ Hb') as [_ Hoff'].
  rewrite Hoff, Hoff'. set (p := prefix_at t key offset) in *.
  assert (Hc : length c = (length p + (length value - offset))%nat) by (unfold c; len).
  replace (length (h ++ p) - length h)%nat with (length p) by len.
  rewrite decide_False by lia. unfold slice. rewrite decide_True by lia. simpl.
  replace (offset + vl - length p - offset)%nat with (vl - length p)%nat by lia.
  destruct (write_slice_built _ _ _ (take (vl - length p) (drop offset value)) Hb')
    as (b3 & -> & Hb3); [unfold MAX_ENTRY_BUF_SIZE in Hjunk; len|].
  simpl. destruct (built_prefix _ _ _ Hb3) as [-> _]. unfold c.
  rewrite take_app_ge, <-app_assoc by lia. done.
Qed.

(** The last slot of a value. *)
Lemma overwrite_slot_last t log key value comp remainder offset start next follow :
  wf_table t → wf_key key → (offset ≤ length value)%nat →
  let c := prefix_at t key offset ++ drop offset value in
  length c = remainder → (remainder ≤ es_nat t - 2)%nat →
  overwrite_slot junk key value comp remainder offset start next follow (t, log)
  = (Ok (enc (SPlain comp c), remainder, (remainder - length (prefix_at t key offset))%nat, next),
     (t, log)).
Proof.
  intros Ht Hk Ho c Hc Hle. pose proof (es_nat_eq _ Ht) as [_ Hes]. unfold overwrite_slot.
  mrun. change (id (t, log)) with (t, log). cbv beta iota zeta.
  rewrite decide_False by (unfold SIZE_SIZE; lia).
  assert (u16 (Z.of_nat remainder) = Z.of_nat remainder) as -> by (apply wrap_small; unfold in_range; lia).
  rewrite M_bind_assoc. unfold write_size.
  destruct (write_slice_built _ _ _ (le_bytes 2 (size_word comp (Z.of_nat remainder))) (built_new junk))
    as (b1 & E1 & Hb1); [rewrite Hjunk; unfold MAX_ENTRY_BUF_SIZE; len|].
  change (if comp then Z.lor (Z.of_nat remainder) COMPRESSED_MASK else Z.of_nat remainder)
    with (size_word comp (Z.of_nat remainder)).
  mlift E1. mrun.
  pose proof (write_payload_spec t key value offset remainder b1 _ Hk Hb1) as E2.
  cbv zeta in E2. fold c in E2. specialize (E2 ltac:(len) ltac:(subst remainder; unfold c; len) Ho).
  mlift E2.
  unfold mret, M_ret. fold c. rewrite take_ge by lia. simpl enc. by rewrite Hc.
Qed.

(** A slot that links to another one; [alloc] says where the next slot comes from. *)
Lemma overwrite_slot_part t log key value comp remainder offset start next follow next' t1 :
  wf_table t → wf_key key → multipart t = true → (offset ≤ length value)%nat →
  let c := prefix_at t key offset ++ drop offset value in
  length c = remainder → (es_nat t - 2 < remainder)%nat →
  (if (follow : bool) then mret next else next_free junk) (t, log) = (Ok next', (t1, log)) →
  overwrite_slot junk key value comp remainder offset start next follow (t, log)
  = (Ok (enc (SMulti (link_mark (bool_decide (start = 0)) comp) next'
                (take (es_nat t - 10) c)),
         (es_nat t - 10)%nat, (es_nat t - 10 - length (prefix_at t key offset))%nat, next'),
     (t1, log)).
Proof.
  intros Ht Hk Hm Ho c Hc Hgt Halloc. pose proof (wf_multi _ Ht Hm) as Hes.
  pose proof (es_nat_eq _ Ht) as [Hesn _]. unfold overwrite_slot.
  mrun. change (id (t, log)) with (t, log). cbv beta iota zeta.
  rewrite decide_True by (unfold SIZE_SIZE; lia).
  rewrite M_bind_assoc. mstep Halloc. rewrite M_bind_assoc.
  set (m := link_mark (bool_decide (start = 0)) comp).
  assert (Hml : length m = 2%nat) by (unfold m, link_mark, head_mark; case_bool_decide; destruct comp; done).
  destruct (write_slice_built _ _ _ m (built_new junk))
    as (b1 & E1 & Hb1); [rewrite Hjunk; unfold MAX_ENTRY_BUF_SIZE; len|].
  replace (if bool_decide (start = 0) then
             (if comp then write_multihead_compressed (VEntry_new junk) else write_multihead (VEntry_new junk))
           else write_multipart (VEntry_new junk)) with (write_slice m (VEntry_new junk))
    by (unfold m, link_mark, head_mark; case_bool_decide; destruct comp; done).
  mlift E1. rewrite M_bind_assoc.
  destruct (write_slice_built _ _ _ (le_bytes 8 next') Hb1)
    as (b2 & E2 & Hb2); [rewrite Hjunk; unfold MAX_ENTRY_BUF_SIZE; len|].
  unfold write_next, write_u64. mlift E2. mrun.
  replace (es_nat t - SIZE_SIZE - INDEX_SIZE)%nat with (es_nat t - 10)%nat by (unfold SIZE_SIZE, INDEX_SIZE; lia).
  pose proof (prefix_at_length t key offset Hk) as [Hp _].
  pose proof (write_payload_spec t key value offset (es_nat t - 10) b2 _ Hk Hb2) as E3.
  cbv zeta in E3. fold c in E3. specialize (E3 ltac:(len) ltac:(lia) Ho). mlift E3.
  unfold mret, M_ret. fold c. simpl enc. by rewrite <-app_assoc.
Qed.
(** ** The loop

    [follows] is the head of a round: where the next slot is, if the loop is still on an old
    chain. *)
Definition follow_head (index : Z) (follow : bool) : M (ValueTable * LogWriter) (Z * bool) :=
  if follow then
    '(t, log) ← gets id;
    o ← lift (read_next_part junk t index log);
    mret (match o with Some next => (next, true) | None => (0, false) end)
  else mret (0, false).

Lemma loop_last fuel t log key value comp remainder offset start index follow nx fo :
  wf_table t → wf_key key → (offset ≤ length value)%nat →
  let c := prefix_at t key offset ++ drop offset value in
  length c = remainder → (remainder ≤ es_nat t - 2)%nat →
  follow_head index follow (t, log) = (Ok (nx, fo), (t, log)) →
  overwrite_chain_loop junk (S fuel) key value comp remainder offset start index follow (t, log)
  = (_ ← (if bool_decide (nx ≠ 0) then clear_chain junk nx else mret tt);
     mret (if bool_decide (start = 0) then index else start))
    (t, insert_value (vt_id t) index (enc (SPlain comp c)) log).
Proof.
  intros Ht Hk Ho c Hc Hle Hh. simpl overwrite_chain_loop. mstep Hh.
  mstep (overwrite_slot_last t log key value comp remainder offset start nx fo Ht Hk Ho Hc Hle). fold c.
  mrun. rewrite Nat.sub_diag. done.
Qed.

Lemma loop_part fuel t log key value comp remainder offset start index follow nx fo next' t1 :
  wf_table t → wf_key key → multipart t = true → (offset ≤ length value)%nat →
  let c := prefix_at t key offset ++ drop offset value in
  let offset' := (offset + (es_nat t - 10 - length (prefix_at t key offset)))%nat in
  length c = remainder → (es_nat t - 2 < remainder)%nat →
  follow_head index follow (t, log) = (Ok (nx, fo), (t, log)) →
  (if (fo : bool) then mret nx else next_free junk) (t, log) = (Ok next', (t1, log)) →
  shape t1 = shape t →
  (offset' ≤ length value)%nat ∧
  prefix_at t1 key offset' ++ drop offset' value = drop (es_nat t - 10) c ∧
  overwrite_chain_loop junk (S fuel) key value comp remainder offset start index follow (t, log)
  = overwrite_chain_loop junk fuel key value comp (remainder - (es_nat t - 10)) offset'
      (if bool_decide (start = 0) then index else start) next' fo
      (t1, insert_value (vt_id t) index
             (enc (SMulti (link_mark (bool_decide (start = 0)) comp) next' (take (es_nat t - 10) c))) log).
Proof.
  intros Ht Hk Hm Ho c offset' Hc Hgt Hh Ha Hsh. pose proof (wf_multi _ Ht Hm) as Hes.
  pose proof (es_nat_eq _ Ht) as [Hesn _].
  pose proof (prefix_at_length t key offset Hk) as [Hp _].
  assert (Hcl : length c = (length (prefix_at t key offset) + (length value - offset))%nat) by (unfold c; len).
  split_and!.
  - unfold offset'. lia.
  - unfold prefix_at at 1. rewrite bool_decide_false by (unfold offset'; lia). simpl. unfold c.
    rewrite drop_app_ge, drop_drop by lia. done.
  - simpl overwrite_chain_loop. mstep Hh.
    mstep (overwrite_slot_part t log key value comp remainder offset start nx fo next' t1 Ht Hk Hm Ho Hc Hgt Ha). fold c.
    mrun. apply shape_inv in Hsh as (-> & _). rewrite (bool_decide_false (_ = 0%nat)) by lia. done.
Qed.
Definition old_slots (H : gmap Z slotc) (follow : bool) (index : Z) (olds : list Z) : Prop :=
  if follow then links H index olds else olds = [index].

Lemma follow_head_spec t log H index follow olds :
  wf_table t → repr t log H → old_slots H follow index olds →
  ∃ nx fo olds', olds = index :: olds' ∧
    follow_head index follow (t, log) = (Ok (nx, fo), (t, log)) ∧
    ((fo = false ∧ nx = 0 ∧ olds' = []) ∨ (fo = true ∧ nx ≠ 0 ∧ links H nx olds')).
Proof.
  intros Ht Hr Ho. unfold follow_head. destruct follow; simpl in Ho.
  - mrun. change (id (t, log)) with (t, log). cbv beta iota.
    apply links_cons in Ho as [(comp & b & Hi & ->)|(m & n & b & l' & Hi & -> & Hl)];
      mlift (read_next_part_spec _ Hjunk t log H _ _ Ht Hr Hi); mrun.
    + exists 0, false, []. split_and!; [done..|]. by left.
    + destruct (Hr _ _ Hi) as (_ & (_ & _ & _ & Hn & _) & _).
      exists n, true, l'. split_and!; [done..|]. by right.
  - exists 0, false, []. split_and!; [done..|]. by left.
Qed.

Lemma alloc_spec t log H fl nx (fo : bool) olds :
  wf_table t → repr t log H → free_list H (last_removed t) fl →
  (filled t + 1) * entry_size t < 2 ^ 64 →
  ((fo = false ∧ nx = 0 ∧ olds = []) ∨ (fo = true ∧ nx ≠ 0 ∧ links H nx olds)) →
  ∃ next' t1 fl1 olds1,
    (if fo then mret nx else next_free junk) (t, log) = (Ok next', (t1, log)) ∧
    shape t1 = shape t ∧ wf_table t1 ∧ dirtied t t1 ∧ filled t ≤ filled t1 ≤ filled t + 1 ∧
    1 ≤ next' < filled t1 ∧ old_slots H fo next' olds1 ∧ free_list H (last_removed t1) fl1 ∧
    olds1 ++ fl1 ≡ₚ olds ++ fl ++ seqZ (filled t) (filled t1 - filled t).
Proof.
  intros Ht Hr Hf Hroom Hc. pose proof (wf_filled _ Ht).
  destruct Hc as [(-> & -> & ->)|(-> & Hn & Hl)].
  - destruct (next_free_spec _ Hjunk t log H fl Ht Hr Hf Hroom)
      as (i & t1 & E & Hsh & Hw & Hd & [(fl' & -> & Hfi & Hf')|(-> & -> & Hfi & Hlr)]).
    + exists i, t1, fl', [i]. rewrite Hfi, Z.sub_diag, app_nil_r.
      destruct (free_list_dom H _ _ i Hf) as (n & Hi); [set_solver|]. apply Hr in Hi as (?&_).
      split_and!; try done || lia. by right.
    + exists (filled t), t1, [], [filled t]. rewrite Hlr, Hfi.
      replace (filled t + 1 - filled t) with 1 by lia.
      split_and!; try done || lia; [by right|constructor].
  - exists nx, t, fl, olds. rewrite Z.sub_diag, app_nil_r. split_and!; try done || lia; [by left|..];
      destruct (links_cons _ _ _ Hl) as [(?&?&Hi&_)|(?&?&?&?&Hi&_)]; apply Hr in Hi; lia.
Qed.

(** The last round: the tail of the old chain is freed. *)
Lemma finish_spec t log H fl olds index comp c first nx fo :
  wf_table t → repr t log H → free_list H (last_removed t) fl →
  NoDup (index :: olds ++ fl) → 1 ≤ index < filled t → wf_slot t (SPlain comp c) →
  ((fo = false ∧ nx = 0 ∧ olds = []) ∨ (fo = true ∧ nx ≠ 0 ∧ links H nx olds)) →
  ∃ t' log' H' sl fl',
    (if bool_decide (nx ≠ 0) then clear_chain junk nx else mret tt)
      (t, insert_value (vt_id t) index (enc (SPlain comp c)) log) = (Ok tt, (t', log')) ∧
    written t log H (index :: olds) fl (length c) comp first index c t' log' H' sl fl'.
Proof.
  intros Ht Hr Hf Hnd Hi Hw Hc. set (H1 := <[index := SPlain comp c]> H).
  assert (Hr1 : repr t (insert_value (vt_id t) index (enc (SPlain comp c)) log) H1)
    by (by apply repr_insert).
  assert (Hsame : ∀ j, j ∈ olds ++ fl → H1 !! j = H !! j).
  { intros j Hj. unfold H1. rewrite lookup_insert_ne; [done|]. inversion Hnd. set_solver. }
  assert (Hf1 : free_list H1 (last_removed t) fl)
    by (eapply free_list_ext; [done|]; set_solver).
  destruct Hc as [(-> & -> & ->)|(-> & Hn & Hl)].
  - rewrite bool_decide_false by naive_solver. eexists _, _, H1, [index], fl.
    split; [reflexivity|]. split; try done || lia.
    + by left.
    + by apply frame_insert_value.
    + constructor. apply lookup_insert_eq.
    + by rewrite Z.sub_diag, app_nil_r.
    + intros j Hj. apply lookup_insert_ne. set_solver.
  - rewrite bool_decide_true by done.
    assert (Hl1 : links H1 nx olds) by (eapply links_ext; [done|]; set_solver).
    apply NoDup_cons in Hnd as [Hni Hnd]. apply NoDup_app in Hnd as (Hnd & Hdis & _).
    destruct (clear_chain_spec _ Hjunk olds (chain_fuel t) nx t _ H1 fl Ht Hr1 Hl1 Hnd)
      as (t' & log' & H' & E & Hsh & Hfi & Hw' & Hd & Hfr & Hr' & Hf' & Hx); [set_solver|done| |].
    { unfold chain_fuel. apply Nat.le_le_succ_r, slots_length; [done|]. intros j Hj.
      destruct (links_dom _ _ _ _ Hl1 Hj) as [cj Hcj]. by apply Hr1 in Hcj as (?&_). }
    exists t', log', H', [index], (reverse olds ++ fl). split; [exact E|]. split; try done || lia.
    + by right.
    + eapply (frame_trans t); [done|by rewrite Hfi|by apply frame_insert_value|done].
    + constructor. rewrite Hx by set_solver. apply lookup_insert_eq.
    + rewrite Hfi, Z.sub_diag, app_nil_r. simpl. by rewrite reverse_Permutation.
    + intros j Hj. rewrite Hx by set_solver. apply lookup_insert_ne. set_solver.
Qed.

(** The slots of the next rounds are not the slot of this one. *)
Lemma alloc_apart t t1 log H index olds fl olds1 fl1 :
  repr t log H → free_list H (last_removed t) fl → (∀ j, j ∈ olds → is_Some (H !! j)) → index ∉ olds ++ fl → NoDup (olds ++ fl) → 1 ≤ index < filled t →
  olds1 ++ fl1 ≡ₚ olds ++ fl ++ seqZ (filled t) (filled t1 - filled t) → (index ∉ olds1 ++ fl1) ∧ NoDup (olds1 ++ fl1).
Proof.
  intros Hr Hf Hol Hni Hnd Hi Hp. rewrite Hp, app_assoc. split.
  - intros [Hj|Hj%elem_of_seqZ]%elem_of_app; [done|lia].
  - apply NoDup_app. split_and!; [done| |apply NoDup_seqZ]. intros j Hj [Hlt _]%elem_of_seqZ. apply elem_of_app in Hj as [Hj|Hj].
    + destruct (Hol j Hj) as [cj Hcj]. apply Hr in Hcj as (?&_). lia.
    + destruct (free_list_dom _ _ _ _ Hf Hj) as [n Hcj]. apply Hr in Hcj as (?&_). lia.
Qed.

(** A part of a value in front of the rest of it. *)
Lemma written_cons t t1 log H index olds fl next olds1 fl1 need1 need comp first b c t' log' H' sl fl' :
  let s := SMulti (link_mark first comp) next b in
  shape t1 = shape t → dirtied t t1 → filled t ≤ filled t1 ≤ filled t + 1 → 1 ≤ index < filled t → wf_slot t s → index ∉ olds1 ++ fl1 →
  olds1 ++ fl1 ≡ₚ olds ++ fl ++ seqZ (filled t) (filled t1 - filled t) → (need1 < need)%nat →
  written t1 (insert_value (vt_id t) index (enc s) log) (<[index := s]> H) olds1 fl1 need1 comp false next c t' log' H' sl fl' →
  written t log H (index :: olds) fl need comp first index (b ++ c) t' log' H' (index :: sl) fl'.
Proof.
  intros s Hsh Hd1 Hfi1 Hi Hs Hni1 Hp1 Hneed [W1 W2 W3 W4 W5 W6 W7 W8 W9 W10].
  assert (Hni' : index ∉ sl ++ fl').
  { rewrite W8, app_assoc. intros [Hj|[Hj _]%elem_of_seqZ]%elem_of_app; [done|lia]. }
  split; try done.
  - by rewrite W1.
  - by eapply dirtied_trans.
  - eapply (frame_trans t); [by rewrite W1|lia|by apply frame_insert_value|done].
  - econstructor; [|done]. rewrite W10 by done. apply lookup_insert_eq.
  - simpl. f_equiv. rewrite W8, app_assoc, Hp1, <-!app_assoc. do 2 f_equiv.
    replace (filled t' - filled t) with ((filled t1 - filled t) + (filled t' - filled t1)) by lia.
    rewrite seqZ_app by lia. do 2 f_equiv. lia.
  - lia.
  - intros j Hj. rewrite W10 by set_solver. apply lookup_insert_ne. set_solver.
Qed.

Lemma overwrite_loop_spec key value comp : wf_key key → ∀ fuel t log H fl olds remainder offset start index follow,
  wf_table t → repr t log H → free_list H (last_removed t) fl →
  old_slots H follow index olds → NoDup (olds ++ fl) → 1 ≤ index < filled t →
  (filled t + Z.of_nat remainder) * entry_size t < 2 ^ 64 →
  ((es_nat t - 2 < remainder)%nat → multipart t = true) →
  (remainder < fuel)%nat → (offset ≤ length value)%nat →
  let c := prefix_at t key offset ++ drop offset value in
  length c = remainder →
  ∃ t' log' H' sl fl',
    overwrite_chain_loop junk fuel key value comp remainder offset start index follow (t, log)
    = (Ok (if bool_decide (start = 0) then index else start), (t', log')) ∧
    written t log H olds fl remainder comp (bool_decide (start = 0)) index c t' log' H' sl fl'.
Proof.
  intros Hk. induction fuel as [|fuel IH];
    intros t log H fl olds remainder offset start index follow
      Ht Hr Hf Hol Hnd Hi Hroom Hmul Hfu Ho c Hc; [lia|].
  pose proof (es_nat_eq _ Ht) as [Hesn Hes32].
  destruct (follow_head_spec t log H index follow olds Ht Hr Hol)
    as (nx & fo & olds' & -> & Hh & Hcase).
  destruct (decide (remainder ≤ es_nat t - 2)%nat) as [Hle|Hgt].
  { destruct (finish_spec t log H fl olds' index comp c (bool_decide (start = 0)) nx fo)
      as (t' & log' & H' & sl & fl' & E & Hw); try done; [simpl; lia|].
    exists t', log', H', sl, fl'. rewrite Hc in Hw. split; [|done].
    rewrite (loop_last fuel t log key value comp remainder offset start index follow nx fo) by done.
    fold c. mstep E. done. }
  specialize (Hmul ltac:(lia)). pose proof (wf_multi _ Ht Hmul) as Hes.
  destruct (alloc_spec t log H fl nx fo olds') as
    (next' & t1 & fl1 & olds1 & Ha & Hsh & Ht1 & Hd1 & Hfi1 & Hn1 & Hol1 & Hf1 & Hp1); try done; [nia|].
  destruct (loop_part fuel t log key value comp remainder offset start index follow nx fo next' t1)
    as (Ho' & Hc' & Hstep); try done; [lia|]. fold c in Hc', Hstep. rewrite Hstep. clear Hstep.
  set (offset' := (offset + _)%nat) in *.
  set (s := SMulti (link_mark (bool_decide (start = 0)) comp) next' (take (es_nat t - 10) c)) in *.
  set (log1 := insert_value (vt_id t) index (enc s) log) in *. set (H1 := <[index := s]> H).
  pose proof (shape_inv _ _ Hsh) as (Hid & Hes1 & _ & Hmu1 & _).
  assert (Hs : wf_slot t s).
  { simpl. split_and!; try done || lia.
    - unfold link_mark, head_mark. destruct (bool_decide _), comp; auto.
    - pose proof (wf_room _ Ht1). unfold in_range. nia.
    - len. }
  assert (Hr1 : repr t1 log1 H1)
    by (apply (repr_shape t); [done|lia|]; by apply repr_insert).
  simpl in Hnd. apply NoDup_cons in Hnd as [Hni Hnd].
  destruct (alloc_apart t t1 log H index olds' fl olds1 fl1) as [Hni1 Hnd1]; try done.
  { intros j Hj. destruct Hcase as [(_ & _ & ->)|(_ & _ & Hl)]; [by apply elem_of_nil in Hj|by eapply links_dom]. }
  assert (Hsame : ∀ j, j ∈ olds1 ++ fl1 → H1 !! j = H !! j).
  { intros j Hj. unfold H1. rewrite lookup_insert_ne; [done|]. intros ->. done. }
  destruct (IH t1 log1 H1 fl1 olds1 (remainder - (es_nat t - 10))%nat offset'
              (if bool_decide (start = 0) then index else start) next' fo)
    as (t' & log' & H' & sl & fl' & E & W); try done.
  - eapply free_list_ext; [done|]. set_solver.
  - unfold old_slots in *. destruct fo; [|done]. eapply links_ext; [done|]. set_solver.
  - rewrite Hes1. assert (Z.of_nat (remainder - (es_nat t - 10)) ≤ Z.of_nat remainder - 2) by lia. nia.
  - by rewrite Hmu1.
  - lia.
  - rewrite Hc'. len.
  - assert (Hst : bool_decide ((if bool_decide (start = 0) then index else start) = 0) = false)
      by (apply bool_decide_eq_false; destruct (decide (start = 0)); [rewrite bool_decide_true by done|rewrite bool_decide_false by done]; lia).
    rewrite Hst in W, E. rewrite Hc' in W. exists t', log', H', (index :: sl), fl'. split; [by rewrite E|].
    rewrite <-(take_drop (es_nat t - 10) c). by apply (written_cons t t1 log H index olds' fl next' olds1 fl1 (remainder - (es_nat t - 10))%nat remainder); try done; lia.
Qed.
End writes.
