(* ===== verification/ValueRead.v ===== *)
(** * Value tables: reading a value

    [for_parts] walks the chain of a value from its head and hands the parts to a callback.
    This file shows what it hands over: exactly the bytes of the value, in order, after the
    reference counter and the key have been split off, whatever the buffer held before. *)

From S2P Require Import Prelude IndexEntry IndexChunk Log ValueEntry File ValueTable ValueSlots ValueChains ValueWrite.

(** The parts of an encoded slot. *)
Definition slot_head (c : slotc) : bytes :=
  match c with
  | STomb n => TOMBSTONE ++ le_bytes 8 n
  | SMulti m n _ => m ++ le_bytes 8 n
  | SPlain comp b => le_bytes 2 (size_word comp (Z.of_nat (length b)))
  end.
Definition slot_body (c : slotc) : bytes :=
  match c with STomb _ => [] | SMulti _ _ b => b | SPlain _ b => b end.
Definition slot_next (c : slotc) : Z := match c with SMulti _ n _ => n | _ => 0 end.

Lemma enc_parts c : enc c = slot_head c ++ slot_body c.
Proof. destruct c; simpl; [by rewrite app_nil_r|by rewrite <-app_assoc|done]. Qed.

(** What the code knows of the compression of a value after the slot [c] as part [part]. *)
Definition comp_after (version : Z) (part : nat) (c : slotc) (compressed : bool) : bool :=
  match c with
  | SMulti m _ _ =>
      if bool_decide (part = 0%nat) && bool_decide (6 < version)
         && bool_decide (m = MULTIHEAD_COMPRESSED) then true else compressed
  | SPlain comp _ => if bool_decide (part = 0%nat) || bool_decide (version ≤ 6) then comp else compressed
  | STomb _ => compressed
  end.

(** What a query asks of the key [k] stored with a value. *)
Definition query_ok (key : TableKeyQuery) (k : bytes) : Prop :=
  match key with
  | QFetch true => length k = PARTIAL_SIZE
  | QFetch false => k = []
  | QCheck q => length k = encoded_size q
  end.
Definition query_hit (key : TableKeyQuery) (k : bytes) : bool :=
  match key with QCheck q => bool_decide (key_bytes q = k) | QFetch _ => true end.
Definition query_fetch (key : TableKeyQuery) (k : bytes) : option bytes :=
  match key with QFetch true => Some k | _ => None end.

(** A slot where a value can begin. *)
Definition begins (t : ValueTable) (c : slotc) : bool :=
  match c with
  | STomb _ => false
  | SMulti m _ _ => bool_decide (m ≠ MULTIPART)
  | SPlain _ _ => negb (multipart t)
  end.

Section reads.
Context `{HL : LogQuery L}.
Context (t : ValueTable) (Ht : wf_table t).

(** The markers and the size of a slot. *)
Lemma open_slot c r part compressed :
  wf_slot t c → (∀ n, c ≠ STomb n) →
  let e := mkEntry 0 (enc c ++ r) in
  (if multipart t && is_multi (db_version t) e then
     let compressed :=
       if bool_decide (part = 0%nat) && bool_decide (6 < db_version t)
          && is_multihead_compressed e then true else compressed in
     '(next, e) ← read_next (skip_size e);
     Ok (es_nat t, next, compressed, e)
   else
     '(size, read_compressed, e) ← read_size e;
     let compressed :=
       if bool_decide (part = 0%nat) || bool_decide (db_version t ≤ 6)
       then read_compressed else compressed in
     Ok ((e_off e + Z.to_nat size)%nat, 0, compressed, e))
  = Ok ((length (slot_head c) + length (slot_body c))%nat, slot_next c,
        comp_after (db_version t) part c compressed,
        mkEntry (length (slot_head c)) (slot_head c ++ slot_body c ++ r)).
Proof.
  intros Hw Hnt e. pose proof (es_nat_eq _ Ht) as [Hesn Hes].
  assert (Hm : take 2 (enc c ++ r) = take 2 (enc c)).
  { rewrite take_app_le; [done|]. pose proof (enc_length _ _ Ht Hw). lia. }
  destruct c as [n|m n b|comp b]; [by destruct (Hnt n)|..].
  - destruct (mark_multi t m n b (enc (SMulti m n b) ++ r)) as (_ & E & _ & E'); [done|done|].
    pose proof Hw as (Hmu & Hmark & Hn & _ & Hb). unfold e. rewrite Hmu, E, E'. simpl andb.
    cbv beta iota zeta. assert (Hml : length m = 2%nat) by naive_solver.
    unfold skip_size, read_next, read_u64. simpl e_off. simpl e_buf.
    simpl enc. rewrite <-!app_assoc. replace (0 + SIZE_SIZE)%nat with (length m) by (rewrite Hml; done).
    rewrite read_slice_at by apply le_bytes_length.
    unfold mbind at 1 2. cbv beta iota delta [outcome_bind]. rewrite in_range_le_val by done.
    simpl slot_head. simpl slot_body. rewrite <-app_assoc, Hb. do 4 f_equal. len.
  - destruct (mark_plain t Ht comp b (enc (SPlain comp b) ++ r)) as (_ & _ & E); [done|done|].
    unfold e. destruct (multipart t && _) eqn:Em.
    { apply andb_prop in Em as [Hmu Em]. by rewrite E in Em. }
    simpl in Hw. simpl enc. rewrite <-app_assoc.
    rewrite (read_size_at _ (b ++ r) (Z.of_nat (length b)) ltac:(unfold in_range; lia) comp) by done.
    unfold mbind. cbv beta iota delta [outcome_bind]. simpl slot_head. simpl slot_body.
    simpl e_off. rewrite le_bytes_length, Nat2Z.id. done.
Qed.

(** The prefix of the first part: the reference counter, and the key. *)
Lemma read_rc_at h rc rest rc0 :
  in_range 32 rc → (ref_counted t = false → rc = rc0) →
  (if ref_counted t then read_rc (mkEntry (length h) (h ++ rc_bytes t rc ++ rest))
   else Ok (rc0, mkEntry (length h) (h ++ rc_bytes t rc ++ rest)))
  = Ok (rc, mkEntry (length (h ++ rc_bytes t rc)) ((h ++ rc_bytes t rc) ++ rest)).
Proof.
  intros Hrc Hrc0. unfold rc_bytes. destruct (ref_counted t).
  - unfold read_rc, read_u32. rewrite read_slice_at by apply le_bytes_length.
    unfold mbind. cbv beta iota delta [outcome_bind]. rewrite le_val_bytes_small by done.
    by rewrite app_assoc.
  - rewrite Hrc0 by done. by rewrite app_nil_r.
Qed.

Lemma fetch_partial_at h k rest :
  length k = PARTIAL_SIZE →
  fetch_partial (mkEntry (length h) (h ++ k ++ rest))
  = Ok (k, mkEntry (length (h ++ k)) ((h ++ k) ++ rest)).
Proof.
  intros Hk. unfold fetch_partial. simpl e_buf. rewrite decide_True by len.
  unfold read_partial. rewrite read_slice_at by done. by rewrite app_assoc.
Qed.

Lemma remaining_at h d r : remaining_to (length h + length d) (mkEntry (length h) (h ++ d ++ r)) = Ok d.
Proof. unfold remaining_to. simpl. by apply slice_mid. Qed.

(** *** A callback that always continues *)
Context {St : Type} (f : St → bytes → bool * St) (g : St → bytes → St).
Context (Hf : ∀ st d, f st d = (true, g st d)).
Context (Hg : ∀ st d d', g (g st d) d' = g st (d ++ d')).
Context (log : L) (H : gmap Z slotc) (Hr : repr t log H).

Lemma not_tombstone c r :
  wf_slot t c → (∀ n, c ≠ STomb n) → is_tombstone (mkEntry 0 (enc c ++ r)) = false.
Proof.
  intros Hw Hnt. assert (Hm : take 2 (enc c ++ r) = take 2 (enc c)).
  { rewrite take_app_le; [done|]. pose proof (enc_length _ _ Ht Hw). lia. }
  destruct c as [n|m n b|comp b]; [by destruct (Hnt n)|..].
  - by destruct (mark_multi t m n b (enc (SMulti m n b) ++ r)).
  - by destruct (mark_plain t Ht comp b (enc (SPlain comp b) ++ r)).
Qed.

Lemma for_parts_part fuel key i c buf part compressed rc fetched st :
  H !! i = Some c → (∀ n, c ≠ STomb n) → length buf = MAX_ENTRY_BUF_SIZE → part ≠ 0%nat →
  ∃ buf', length buf' = MAX_ENTRY_BUF_SIZE ∧
  for_parts_loop (S fuel) t key i log f buf part compressed rc fetched st
  = if bool_decide (slot_next c = 0)
    then Ok (rc, comp_after (db_version t) part c compressed, fetched, g st (slot_body c))
    else for_parts_loop fuel t key (slot_next c) log f buf' (S part)
           (comp_after (db_version t) part c compressed) rc fetched (g st (slot_body c)).
Proof.
  intros Hi Hnt Hb Hp. destruct (Hr _ _ Hi) as (Hin & Hw & Hs).
  destruct (load_full t log i c buf) as (r & El & Hl); [done|done|lia|done|done|].
  exists (enc c ++ r). split; [done|]. cbn [for_parts_loop]. ostep El. cbv zeta.
  rewrite not_tombstone by done. rewrite (bool_decide_false (part = 0%nat)) by done.
  rewrite andb_false_r. cbv beta iota. rewrite andb_false_l.
  pose proof (open_slot c r part compressed Hw Hnt) as Eo. cbv zeta in Eo.
  rewrite (bool_decide_false (part = 0%nat)) in Eo by done. ostep Eo.
  unfold mbind at 1. cbv beta iota delta [outcome_bind].
  rewrite decide_False by (simpl e_off; lia). ostep remaining_at. rewrite Hf. simpl negb. cbv beta iota.
  simpl e_buf. rewrite enc_parts, <-app_assoc. done.
Qed.

Lemma for_parts_rest key comp : ∀ l i b fuel buf part compressed rc fetched st,
  chain H comp false i l b → (length l ≤ fuel)%nat → part ≠ 0%nat →
  length buf = MAX_ENTRY_BUF_SIZE → (6 < db_version t → compressed = comp) →
  for_parts_loop fuel t key i log f buf part compressed rc fetched st
  = Ok (rc, comp, fetched, g st b).
Proof.
  induction l as [|i0 l IH]; intros i b fuel buf part compressed rc fetched st Hc Hfu Hp Hb Hcomp;
    [inversion Hc|].
  destruct fuel as [|fuel]; [simpl in Hfu; lia|].
  inversion Hc as [? ? ? Hi|? ? n b0 ? rest Hi Hc']; simplify_eq.
  - destruct (for_parts_part fuel key i0 _ buf part compressed rc fetched st Hi ltac:(done) Hb Hp) as (? & _ & ->).
    simpl slot_next. rewrite bool_decide_true by done. simpl. repeat f_equal.
    rewrite bool_decide_false by done. simpl. case_bool_decide; [done|]. apply Hcomp. lia.
  - destruct (for_parts_part fuel key i0 _ buf part compressed rc fetched st Hi ltac:(done) Hb Hp) as (buf' & Hb' & ->).
    apply Hr in Hi as (_ & (_ & _ & _ & Hn & _) & _). simpl slot_next.
    rewrite bool_decide_false by done. rewrite (IH n rest); try done; [|simpl in Hfu; lia|].
    + simpl. by rewrite Hg.
    + simpl. rewrite (bool_decide_false (part = 0%nat)) by done. done.
Qed.

(** *** The first part *)
Lemma read_key_at key h k rest rc (stop : bool) :
  query_ok key k →
  match key with
  | QFetch true => '(d, e) ← fetch_partial (mkEntry (length h) (h ++ k ++ rest)); Ok (false, rc, Some d, e)
  | QFetch false => Ok (false, rc, None, mkEntry (length h) (h ++ k ++ rest))
  | QCheck q =>
      '(to_fetch, e) ← TableKey_fetch q (mkEntry (length h) (h ++ k ++ rest));
      Ok (negb (TableKey_compare q to_fetch), rc, None, e)
  end = Ok (negb (query_hit key k), rc : Z, query_fetch key k, mkEntry (length (h ++ k)) ((h ++ k) ++ rest)).
Proof.
  intros Hq. destruct key as [[kk|]|[]]; simpl in Hq.
  - unfold TableKey_fetch. rewrite fetch_partial_at by done. done.
  - apply nil_length_inv in Hq. subst. by rewrite app_nil_r.
  - by rewrite fetch_partial_at.
  - subst. by rewrite app_nil_r.
Qed.

Lemma head_test c r :
  wf_slot t c → (∀ n, c ≠ STomb n) →
  multipart t && negb (is_multihead (mkEntry 0 (enc c ++ r))) = negb (begins t c).
Proof.
  intros Hw Hnt. assert (Hm : take 2 (enc c ++ r) = take 2 (enc c)).
  { rewrite take_app_le; [done|]. pose proof (enc_length _ _ Ht Hw). lia. }
  destruct c as [n|m n b|comp b]; [by destruct (Hnt n)|..].
  - destruct (mark_multi t m n b (enc (SMulti m n b) ++ r)) as (_ & _ & -> & _); [done|done|].
    by destruct Hw as (-> & _).
  - destruct (mark_plain t Ht comp b (enc (SPlain comp b) ++ r)) as (_ & -> & _); [done|done|].
    simpl. rewrite negb_involutive. by rewrite andb_true_r.
Qed.

Lemma for_parts_none fuel key i c buf st :
  H !! i = Some c → begins t c = false → length buf = MAX_ENTRY_BUF_SIZE →
  for_parts_loop (S fuel) t key i log f buf 0 false 1 None st = Ok (0, false, None, st).
Proof.
  intros Hi Hbg Hb. destruct (Hr _ _ Hi) as (Hin & Hw & Hs).
  destruct (load_full t log i c buf) as (r & El & Hl); [done|done|lia|done|done|].
  cbn [for_parts_loop]. ostep El. cbv zeta. rewrite bool_decide_true, andb_true_r by done.
  destruct c as [n|m n b|comp b] eqn:Ec; [by rewrite (mark_tomb n)|..]; rewrite <-Ec in *;
    rewrite not_tombstone, head_test, Hbg by (done || by subst); done.
Qed.

Lemma for_parts_first fuel key i c rc k d buf st :
  H !! i = Some c → begins t c = true → slot_body c = rc_bytes t rc ++ k ++ d →
  in_range 32 rc → (ref_counted t = false → rc = 1) → query_ok key k →
  length buf = MAX_ENTRY_BUF_SIZE →
  ∃ buf', length buf' = MAX_ENTRY_BUF_SIZE ∧
  for_parts_loop (S fuel) t key i log f buf 0 false 1 None st
  = if query_hit key k then
      let '(cont, st') := f st d in
      if negb cont || bool_decide (slot_next c = 0)
      then Ok (rc, comp_after (db_version t) 0 c false, query_fetch key k, st')
      else for_parts_loop fuel t key (slot_next c) log f buf' 1
             (comp_after (db_version t) 0 c false) rc (query_fetch key k) st'
    else Ok (0, false, None, st).
Proof.
  intros Hi Hbg Hbody Hrc Hrc1 Hq Hb. destruct (Hr _ _ Hi) as (Hin & Hw & Hs).
  assert (Hnt : ∀ n, c ≠ STomb n) by (intros n ->; done).
  destruct (load_full t log i c buf) as (r & El & Hl); [done|done|lia|done|done|].
  exists (enc c ++ r). split; [done|]. cbn [for_parts_loop]. ostep El. cbv zeta.
  rewrite not_tombstone by done. rewrite (bool_decide_true (0%nat = 0%nat)) by done.
  rewrite andb_true_r, head_test, Hbg by done. simpl negb. cbv beta iota.
  pose proof (open_slot c r 0 false Hw Hnt) as Eo. cbv zeta in Eo.
  rewrite (bool_decide_true (0%nat = 0%nat)) in Eo by done. ostep Eo.
  set (h := slot_head c). set (h2 := (h ++ rc_bytes t rc) ++ k).
  assert (Hbuf : h ++ slot_body c ++ r = h ++ rc_bytes t rc ++ k ++ d ++ r) by (by rewrite Hbody, <-!app_assoc).
  rewrite Hbuf.
  assert (E : (rcv ← (if ref_counted t then read_rc (mkEntry (length h) (h ++ rc_bytes t rc ++ k ++ d ++ r))
      else Ok (1, mkEntry (length h) (h ++ rc_bytes t rc ++ k ++ d ++ r)));
      let '(rc, e) := rcv in
      match key with
      | QFetch true => '(d, e) ← fetch_partial e; Ok (false, rc, Some d, e)
      | QFetch false => Ok (false, rc, None, e)
      | QCheck q => '(to_fetch, e) ← TableKey_fetch q e; Ok (negb (TableKey_compare q to_fetch), rc, None, e)
      end) = Ok (negb (query_hit key k), rc, query_fetch key k, mkEntry (length h2) (h2 ++ d ++ r))).
  { ostep (read_rc_at h rc (k ++ d ++ r) 1 Hrc Hrc1). cbv beta iota.
    by rewrite (read_key_at key _ k (d ++ r) rc false Hq). }
  ostep E. destruct (query_hit key k) eqn:Hh; simpl negb; cbv beta iota.
  2: { destruct key as [[]|[]]; done. }
  assert (Hend : (length h + length (slot_body c) = length h2 + length d)%nat)
    by (rewrite Hbody; unfold h2; len).
  rewrite Hend. simpl e_off. rewrite decide_False by lia. ostep remaining_at.
  simpl e_buf. destruct (f st d) as [cont st']. rewrite enc_parts, <-app_assoc. fold h.
  rewrite Hbuf. unfold h2. by rewrite <-!app_assoc.
Qed.
End reads.
