(* ===== verification/ValueInv.v ===== *)
(** * Value tables: the contract

    What a value table promises to the columns: it is a finite map from addresses to values
    with a key, a reference counter and a compression flag.  [table_inv] relates a table and a
    log to such a map: every value is stored in a chain of slots that starts at its address,
    the free list is a list of tombstones, and the slots of the values and the free list
    together are exactly the slots from 1 to [filled - 1], each used once. *)

From S2P Require Import Prelude IndexEntry IndexChunk Log ValueEntry File ValueTable ValueSlots ValueChains ValueWrite ValueRead.

(** ** The abstract values *)
Record vrec := mkVal { v_rc : Z; v_key : bytes; v_value : bytes; v_comp : bool }.

Definition content (t : ValueTable) (v : vrec) : bytes := rc_bytes t (v_rc v) ++ v_key v ++ v_value v.

(** [kl] is the length of the keys stored in the table: all tables of a column use the same. *)
Definition wf_vrec (t : ValueTable) (kl : nat) (v : vrec) : Prop :=
  1 ≤ v_rc v < 2 ^ 32 ∧ (ref_counted t = false → v_rc v = 1) ∧ length (v_key v) = kl.

Definition value_in (t : ValueTable) (kl : nat) (H : gmap Z slotc) (i : Z) (l : list Z) (v : vrec) : Prop :=
  chain H (v_comp v) true i l (content t v) ∧ wf_vrec t kl v ∧ (multipart t = true → (1 < length l)%nat).

Definition owned (slots : gmap Z (list Z)) : list Z := map_to_list slots ≫= snd.

Record table_state `{HL : LogQuery L} (t : ValueTable) (log : L) (kl : nat) (vals : gmap Z vrec)
    (H : gmap Z slotc) (slots : gmap Z (list Z)) (fl : list Z) : Prop := {
  ts_wf : wf_table t;
  ts_kl : (kl ≤ PARTIAL_SIZE)%nat;
  ts_repr : repr t log H;
  ts_free : free_list H (last_removed t) fl;
  ts_dom : dom slots = dom vals;
  ts_vals : ∀ i v l, vals !! i = Some v → slots !! i = Some l → value_in t kl H i l v;
  ts_part : fl ++ owned slots ≡ₚ seqZ 1 (filled t - 1);
}.

#[global] Arguments ts_wf {L HL t log kl vals H slots fl}.
#[global] Arguments ts_kl {L HL t log kl vals H slots fl}.
#[global] Arguments ts_repr {L HL t log kl vals H slots fl}.
#[global] Arguments ts_free {L HL t log kl vals H slots fl}.
#[global] Arguments ts_dom {L HL t log kl vals H slots fl}.
#[global] Arguments ts_vals {L HL t log kl vals H slots fl}.
#[global] Arguments ts_part {L HL t log kl vals H slots fl}.

Definition table_inv `{HL : LogQuery L} (t : ValueTable) (log : L) (kl : nat) (vals : gmap Z vrec) : Prop :=
  ∃ H slots fl, table_state t log kl vals H slots fl.

(** ** Slots and their owners *)
Lemma owned_insert slots i l :
  slots !! i = None → owned (<[i := l]> slots) ≡ₚ l ++ owned slots.
Proof. intros. unfold owned. by rewrite map_to_list_insert. Qed.

Lemma owned_delete slots i l :
  slots !! i = Some l → owned slots ≡ₚ l ++ owned (delete i slots).
Proof. intros Hl. unfold owned. by rewrite <-(map_to_list_delete _ _ _ Hl). Qed.

Lemma elem_of_owned slots j : j ∈ owned slots ↔ ∃ i l, slots !! i = Some l ∧ j ∈ l.
Proof.
  unfold owned. rewrite list_elem_of_bind. split.
  - intros ([i l] & Hj & Hil%elem_of_map_to_list). eauto.
  - intros (i & l & Hil & Hj). exists (i, l). split; [done|]. by apply elem_of_map_to_list.
Qed.

Section state.
Context `{HL : LogQuery L} {t : ValueTable} {log : L} {kl : nat} {vals : gmap Z vrec}.
Context {H : gmap Z slotc} {slots : gmap Z (list Z)} {fl : list Z}.
Context (Hst : table_state t log kl vals H slots fl).

Lemma ts_nodup : NoDup (fl ++ owned slots).
Proof. rewrite (ts_part Hst). apply NoDup_seqZ. Qed.

Lemma ts_slots i v : vals !! i = Some v → ∃ l, slots !! i = Some l ∧ value_in t kl H i l v.
Proof.
  intros Hv. assert (i ∈ dom slots) as [l Hl]%elem_of_dom.
  { rewrite (ts_dom Hst). by apply elem_of_dom_2 in Hv. }
  exists l. split; [done|]. by eapply ts_vals.
Qed.

Lemma ts_none i : vals !! i = None → slots !! i = None.
Proof. rewrite <-!not_elem_of_dom, (ts_dom Hst). done. Qed.

Lemma ts_range j l i : slots !! i = Some l → j ∈ l → 1 ≤ j < filled t.
Proof.
  intros Hl Hj. assert (Hin : j ∈ fl ++ owned slots).
  { apply elem_of_app. right. apply elem_of_owned. eauto. }
  rewrite (ts_part Hst) in Hin. apply elem_of_seqZ in Hin. lia.
Qed.

Lemma ts_list_nodup i l : slots !! i = Some l → NoDup l ∧ (length l ≤ chain_fuel t)%nat.
Proof.
  intros Hl. pose proof ts_nodup as Hnd. rewrite (owned_delete _ _ _ Hl) in Hnd.
  apply NoDup_app in Hnd as (_ & _ & Hnd). apply NoDup_app in Hnd as (Hnd & _). split; [done|].
  unfold chain_fuel. apply Nat.le_le_succ_r, slots_length; [done|]. intros. by eapply ts_range.
Qed.

(** A slot that no value starts at is one where no value can begin. *)
Lemma parts_not_begin comp i l b j :
  multipart t = true → chain H comp false i l b → j ∈ l → ∃ c, H !! j = Some c ∧ begins t c = false.
Proof.
  intros Hm. remember false as first eqn:Ef. induction 1; subst.
  - intros ->%list_elem_of_singleton. eexists; split; [done|]. simpl. by rewrite Hm.
  - intros [->|Hj]%elem_of_cons; [|auto]. eexists; split; [done|]. done.
Qed.

Lemma absent_not_begin i :
  1 ≤ i < filled t → vals !! i = None → ∃ c, H !! i = Some c ∧ begins t c = false.
Proof.
  intros Hi Hv. assert (Hin : i ∈ fl ++ owned slots).
  { rewrite (ts_part Hst). apply elem_of_seqZ. lia. }
  apply elem_of_app in Hin as [Hin|(j & l & Hl & Hin)%elem_of_owned].
  - destruct (free_list_dom _ _ _ _ (ts_free Hst) Hin) as [n Hn]. by eexists.
  - destruct (vals !! j) as [v|] eqn:Hvj; [|by rewrite (ts_none j Hvj) in Hl].
    destruct (ts_vals Hst _ _ _ Hvj Hl) as (Hc & _).
    inversion Hc as [? ? ? Hh|? ? n b l' rest Hh Hc']; simplify_eq.
    + apply list_elem_of_singleton in Hin. congruence.
    + apply elem_of_cons in Hin as [->|Hin]; [congruence|].
      eapply parts_not_begin; [|done|done]. by destruct (ts_repr Hst _ _ Hh) as (_ & (? & _) & _).
Qed.

Lemma head_split i l v :
  value_in t kl H i l v →
  ∃ c d rest, H !! i = Some c ∧ begins t c = true ∧
    slot_body c = rc_bytes t (v_rc v) ++ v_key v ++ d ∧ v_value v = d ++ rest ∧
    (6 < db_version t → comp_after (db_version t) 0 c false = v_comp v) ∧
    ((slot_next c = 0 ∧ rest = [] ∧ comp_after (db_version t) 0 c false = v_comp v) ∨
     (slot_next c ≠ 0 ∧ ∃ l', l = i :: l' ∧ chain H (v_comp v) false (slot_next c) l' rest)).
Proof.
  intros (Hc & (_ & _ & Hk) & Hm). pose proof (ts_wf Hst) as Ht.
  pose proof (es_nat_eq _ Ht) as [Hesn _]. pose proof (ts_kl Hst) as Hkl.
  unfold PARTIAL_SIZE in Hkl.
  inversion Hc as [? ? ? Hh|? ? n b l' rest Hh Hc' Ea Eb El E]; subst.
  - eexists _, (v_value v), []. split_and!; try done.
    + simpl. destruct (multipart t); [|done]. specialize (Hm eq_refl). simpl in Hm. lia.
    + by rewrite app_nil_r.
    + by left.
  - destruct (ts_repr Hst _ _ Hh) as (_ & (Hmu & _ & _ & Hn & Hb) & _).
    pose proof (wf_multi _ Ht Hmu) as Hes. unfold content in E. rewrite app_assoc in E. symmetry in E.
    assert (Hpl : (length (rc_bytes t (v_rc v) ++ v_key v) ≤ length b)%nat).
    { rewrite length_app, rc_bytes_length. unfold ref_size, REFS_SIZE. destruct (ref_counted t); lia. }
    set (p := rc_bytes t (v_rc v) ++ v_key v) in *.
    assert (Hbp : b = p ++ drop (length p) b ∧ v_value v = drop (length p) b ++ rest).
    { pose proof (f_equal (take (length p)) E) as E1. pose proof (f_equal (drop (length p)) E) as E2.
      rewrite take_app_length, take_app_le in E1 by lia. rewrite drop_app_length, drop_app_le in E2 by lia.
      split; [|done]. rewrite E1 at 1. by rewrite take_drop. }
    destruct Hbp as [Hb1 Hb2].
    eexists _, (drop (length p) b), rest. split_and!; try done.
    + simpl. unfold head_mark. by destruct (v_comp v).
    + simpl. rewrite app_assoc. exact Hb1.
    + simpl. intros. rewrite bool_decide_true by lia. unfold head_mark. by destruct (v_comp v).
    + right. split; [done|]. eauto.
Qed.

(** *** Reading *)
Context (junk : bytes) (Hjunk : length junk = MAX_ENTRY_BUF_SIZE).

Lemma for_parts_absent {St} (f : St → bytes → bool * St) key i st :
  1 ≤ i < filled t → vals !! i = None →
  for_parts junk t key i log f st = Ok (0, false, None, st).
Proof.
  intros Hi Hv. destruct (absent_not_begin i Hi Hv) as (c & Hc & Hb).
  unfold for_parts, chain_fuel. eapply for_parts_none; eauto; apply Hst.
Qed.

Lemma for_parts_value {St} (f : St → bytes → bool * St) g key i v st :
  (∀ st d, f st d = (true, g st d)) → (∀ st d d', g (g st d) d' = g st (d ++ d')) →
  vals !! i = Some v → query_ok key (v_key v) →
  for_parts junk t key i log f st
  = if query_hit key (v_key v)
    then Ok (v_rc v, v_comp v, query_fetch key (v_key v), g st (v_value v))
    else Ok (0, false, None, st).
Proof.
  intros Hf Hg Hv Hq. destruct (ts_slots i v Hv) as (l & Hl & Hvi).
  pose proof Hvi as (_ & (Hrc & Hrc1 & _) & _).
  destruct (head_split i l v Hvi) as (c & d & rest & Hc & Hb & Hbody & Hval & Hcomp & Hcase).
  unfold for_parts. destruct (ts_list_nodup i l Hl) as [_ Hfu]. unfold chain_fuel in *.
  destruct (for_parts_first t (ts_wf Hst) f log H (ts_repr Hst)
    (Z.to_nat (filled t)) key i c (v_rc v) (v_key v) d junk st)
    as (buf & Hbuf & ->); try done; [unfold in_range; lia|].
  destruct (query_hit _ _); [|done]. rewrite Hf. simpl negb. simpl orb.
  destruct Hcase as [(Hn & -> & Hcm)|(Hn & l' & -> & Hc')].
  - rewrite bool_decide_true, Hcm, Hval, app_nil_r by done. done.
  - rewrite bool_decide_false by done. rewrite Hval, <-Hg.
    apply (for_parts_rest t (ts_wf Hst) f g Hf Hg log H (ts_repr Hst) _ _ l');
      try done. simpl in Hfu. lia.
Qed.

(** A callback that stops at once sees only the head. *)
Lemma for_parts_stop {St} i v (st : St) :
  vals !! i = Some v → length (v_key v) = PARTIAL_SIZE →
  ∃ comp, for_parts junk t (QFetch true) i log (λ st _, (false, st)) st
    = Ok (v_rc v, comp, Some (v_key v), st).
Proof.
  intros Hv Hk. destruct (ts_slots i v Hv) as (l & Hl & Hvi).
  pose proof Hvi as (_ & (Hrc & Hrc1 & _) & _).
  destruct (head_split i l v Hvi) as (c & d & rest & Hc & Hb & Hbody & _).
  unfold for_parts, chain_fuel.
  destruct (for_parts_first t (ts_wf Hst) (λ (st : St) (_ : bytes), (false, st)) log H (ts_repr Hst)
    (Z.to_nat (filled t)) (QFetch true) i c (v_rc v) (v_key v) d junk st)
    as (buf & Hbuf & ->); try done; [unfold in_range; lia|]. by eexists.
Qed.
End state.
