(* ===== verification/ValueSpec.v ===== *)
(** * Value tables: the operations meet the contract

    Every operation of a value table acts on [table_inv] as the corresponding operation on a
    finite map from addresses to values; reads are lookups.  No slot leaks and none is used
    twice, whatever the sequence of operations, because the invariant says so. *)

From S2P Require Import Prelude IndexEntry IndexChunk Log ValueEntry File ValueTable ValueSlots ValueChains ValueWrite ValueRead ValueInv.

Lemma content_shape t t' v : shape t = shape t' → content t v = content t' v.
Proof. intros (_&_&_&_&E&_)%shape_inv. unfold content, rc_bytes. by rewrite E. Qed.

Lemma wf_vrec_shape t t' kl v : shape t = shape t' → wf_vrec t kl v → wf_vrec t' kl v.
Proof. intros (_&_&_&_&E&_)%shape_inv. unfold wf_vrec. by rewrite E. Qed.

Lemma value_in_ext t t' kl H H' i l v :
  shape t = shape t' → (∀ j, j ∈ l → H' !! j = H !! j) → value_in t kl H i l v → value_in t' kl H' i l v.
Proof.
  intros Hsh Hx (Hc & Hw & Hm). pose proof (shape_inv _ _ Hsh) as (_&_&_&Em&_). split_and!.
  - rewrite <-(content_shape t) by done. by eapply chain_ext.
  - by eapply wf_vrec_shape.
  - by rewrite <-Em.
Qed.

Lemma owned_default slots i : owned slots ≡ₚ default [] (slots !! i) ++ owned (delete i slots).
Proof. destruct (slots !! i) eqn:E; simpl; [by apply owned_delete|]. by rewrite delete_id. Qed.

(** The slots of the other values are neither free, nor new, nor those of the value at [i]. *)
Lemma others_apart `{HL : LogQuery L} t (log : L) kl vals H slots fl i j l x m :
  table_state t log kl vals H slots fl → slots !! j = Some l → j ≠ i → x ∈ l →
  x ∉ default [] (slots !! i) ++ fl ++ seqZ (filled t) m.
Proof.
  intros Hst Hl Hij Hx. pose proof (ts_range Hst _ _ _ Hl Hx) as Hr. pose proof (ts_nodup Hst) as Hnd.
  assert (Hl' : delete i slots !! j = Some l) by (by rewrite lookup_delete_ne).
  assert (Hxo : x ∈ owned (delete i slots)) by (apply elem_of_owned; eauto).
  rewrite (owned_default slots i) in Hnd. apply NoDup_app in Hnd as (_ & Hd & Hnd). apply NoDup_app in Hnd as (_ & Hd' & _).
  rewrite !elem_of_app. intros [?|[?|[? _]%elem_of_seqZ]]; [by eapply Hd'|eapply Hd; [done|]; set_solver|lia].
Qed.

Lemma seqZ_split (a b c : Z) : 1 ≤ a ≤ b → seqZ 1 (b - 1) = seqZ 1 (a - 1) ++ seqZ a (b - a).
Proof.
  intros. replace (b - 1) with ((a - 1) + (b - a)) by lia. rewrite seqZ_app by lia.
  f_equal. f_equal. lia.
Qed.

Lemma install t log kl vals H slots fl need i v t' log' H' sl fl' :
  table_state t log kl vals H slots fl → wf_vrec t kl v →
  (multipart t = true → (es_nat t - 2 < length (content t v))%nat) →
  written t log H (default [] (slots !! i)) fl need (v_comp v) true i (content t v) t' log' H' sl fl' →
  table_state t' log' kl (<[i := v]> vals) H' (<[i := sl]> slots) fl'.
Proof.
  intros Hst Hwv Hm [W1 W2 W3 W4 W5 W6 W7 W8 W9 W10]. split; try done; [apply Hst|..].
  - by rewrite !dom_insert_L, (ts_dom Hst).
  - intros j w l. rewrite !lookup_insert. case_decide as Hij.
    + intros [= <-] [= <-]. subst j. split_and!.
      * by rewrite (content_shape t') with (t' := t).
      * by eapply wf_vrec_shape.
      * pose proof (shape_inv _ _ W1) as (_&Ee&_&Em&_). rewrite Em. intros Hmu. specialize (Hm Hmu).
        inversion W7 as [? ? ? Hh|? ? ? ? ? ? ? Hc']; subst.
        -- apply W5 in Hh as (_ & Hh & _). simpl in Hh. unfold es_nat in *. rewrite Ee in Hh. lia.
        -- destruct (chain_head _ _ _ _ _ _ Hc') as [? ->]. simpl. lia.
    + intros Hj Hl. pose proof (ts_vals Hst _ _ _ Hj Hl) as Hv.
      eapply value_in_ext; [by symmetry| |done]. intros x Hx. apply W10. rewrite W8.
      by eapply others_apart.
  - rewrite <-insert_delete_eq, owned_insert by apply lookup_delete_eq.
    rewrite app_assoc, (Permutation_app_comm fl' sl), W8.
    pose proof (wf_filled _ (ts_wf Hst)).
    rewrite (seqZ_split (filled t) (filled t') 0) by lia.
    rewrite <-(ts_part Hst).
    rewrite (owned_default slots i). solve_Permutation.
Qed.

Lemma uninstall t log kl vals H slots fl i t' log' H' fl' :
  table_state t log kl vals H slots fl →
  shape t' = shape t → filled t' = filled t → wf_table t' → repr t' log' H' →
  free_list H' (last_removed t') fl' → fl' ≡ₚ default [] (slots !! i) ++ fl →
  (∀ j, j ∉ default [] (slots !! i) → H' !! j = H !! j) →
  table_state t' log' kl (delete i vals) H' (delete i slots) fl'.
Proof.
  intros Hst Hsh Hfi Hw Hr Hf Hp Hx. split; try done; [apply Hst|..].
  - by rewrite !dom_delete_L, (ts_dom Hst).
  - intros j w l. rewrite !lookup_delete. case_decide as Hij; [done|].
    intros Hj Hl. pose proof (ts_vals Hst _ _ _ Hj Hl) as Hv.
    eapply value_in_ext; [by symmetry| |done]. intros x Hx'. apply Hx.
    pose proof (others_apart t log kl vals H slots fl i j l x 0 Hst Hl ltac:(auto) Hx') as Hn.
    rewrite !elem_of_app in Hn. tauto.
  - rewrite Hfi, Hp, <-(ts_part Hst).
    rewrite (owned_default slots i). solve_Permutation.
Qed.

(** ** What an operation needs

    A value fits a table of fixed-size slots when it fits one slot; the table of long values
    gets only the values that need more than one.  The slots are addressed with 64-bit
    offsets, which bounds how many a table can have. *)
Definition stored_size (t : ValueTable) (key : TableKey) (value : bytes) : nat :=
  (length value + ref_size t + encoded_size key)%nat.
Definition fits (t : ValueTable) (key : TableKey) (value : bytes) : Prop :=
  if multipart t then (es_nat t - 2 < stored_size t key value)%nat
  else (stored_size t key value ≤ es_nat t - 2)%nat.
Definition room (t : ValueTable) (n : nat) : Prop := (filled t + Z.of_nat n) * entry_size t < 2 ^ 64.

Section operations.
Context (junk : bytes) (Hjunk : length junk = MAX_ENTRY_BUF_SIZE).
Context {t : ValueTable} {kl : nat} {vals : gmap Z vrec}.

Lemma content_prefix key value comp :
  content t (mkVal 1 (key_bytes key) value comp) = prefix_at t key 0 ++ drop 0 value.
Proof. unfold content, prefix_at. simpl. by rewrite drop_0, <-app_assoc. Qed.

Lemma content_length key value comp :
  wf_key key → length (content t (mkVal 1 (key_bytes key) value comp)) = stored_size t key value.
Proof.
  intros Hk. unfold content, stored_size. simpl.
  rewrite !length_app, rc_bytes_length, key_bytes_length by done. lia.
Qed.

Lemma fits_size key value :
  wf_table t → fits t key value →
  negb (multipart t) && negb (match value_size t key with
    | Some s => bool_decide (Z.of_nat (length value) ≤ s) | None => false end) = false.
Proof.
  intros Ht Hf. pose proof (es_nat_eq _ Ht) as [He Hes]. unfold fits, stored_size in Hf. unfold value_size.
  destruct (multipart t); [done|]. simpl. unfold SIZE_SIZE in *.
  rewrite bool_decide_false by lia. by rewrite bool_decide_true by lia.
Qed.

Section read.
Context `{HL : LogQuery L} {log : L} (Hinv : table_inv t log kl vals).

Lemma query_spec key i :
  1 ≤ i < filled t → (∀ v, vals !! i = Some v → query_ok key (v_key v)) →
  query junk t key i log = Ok (v ← vals !! i;
    if query_hit key (v_key v) then Some (v_value v, v_comp v, v_rc v, query_fetch key (v_key v)) else None).
Proof.
  intros Hi Hq. destruct Hinv as (H & slots & fl & Hst). unfold query.
  destruct (vals !! i) as [v|] eqn:Hv.
  - rewrite (for_parts_value Hst junk Hjunk _ (λ st d, st ++ d) key i v); try done; [|by intros; rewrite app_assoc|by apply Hq].
    pose proof (ts_slots Hst i v Hv) as (l & _ & _ & (Hrc & _) & _). simpl.
    destruct (query_hit _ _); [|done]. simpl. by rewrite bool_decide_true by lia.
  - by rewrite (for_parts_absent Hst junk Hjunk).
Qed.

Lemma query_ok_check key v i :
  encoded_size key = kl → vals !! i = Some v → query_ok (QCheck key) (v_key v).
Proof.
  intros Hk Hv. destruct Hinv as (H & slots & fl & Hst).
  destruct (ts_slots Hst i v Hv) as (l & _ & _ & (_ & _ & Hkl) & _). simpl. congruence.
Qed.

Lemma val_facts i v : vals !! i = Some v → length (v_key v) = kl ∧ 1 ≤ v_rc v < 2 ^ 32.
Proof.
  intros Hv. destruct Hinv as (H & slots & fl & Hst). by destruct (ts_slots Hst i v Hv) as (? & _ & _ & (? & _ & ?) & _).
Qed.

Lemma partial_key_at_spec i :
  kl = PARTIAL_SIZE → 1 ≤ i < filled t → partial_key_at junk t i log = Ok (v_key <$> vals !! i).
Proof.
  intros Hkl Hi. unfold partial_key_at. pose proof Hinv as (H & slots & fl & Hst).
  destruct (vals !! i) as [v|] eqn:Hv; [|by rewrite (for_parts_absent Hst junk Hjunk)].
  destruct (val_facts i v Hv) as [Hk Hr]. rewrite Hkl in Hk.
  destruct (for_parts_stop Hst junk Hjunk i v tt Hv Hk) as [comp ->].
  simpl. by rewrite bool_decide_false by lia.
Qed.

Lemma size_spec key i :
  encoded_size key = kl → 1 ≤ i < filled t →
  ValueTable_size junk t key i log
  = Ok (v ← vals !! i; if bool_decide (key_bytes key = v_key v)
                        then Some (u32 (Z.of_nat (length (v_value v))), v_comp v) else None).
Proof.
  intros Hk Hi. unfold ValueTable_size. pose proof Hinv as (H & slots & fl & Hst).
  destruct (vals !! i) as [v|] eqn:Hv; [|by rewrite (for_parts_absent Hst junk Hjunk)].
  destruct (val_facts i v Hv) as [Hkv Hr].
  rewrite (for_parts_value Hst junk Hjunk _ (λ acc d, u32 (acc + Z.of_nat (length d))) (QCheck key) i v); try done.
  + simpl. case_bool_decide; [|done]. simpl. by rewrite bool_decide_true by lia.
  + intros st d d'. rewrite length_app. unfold wrap. rewrite Zplus_mod_idemp_l. f_equal. lia.
  + simpl. congruence.
Qed.

Lemma get_spec key i :
  encoded_size key = kl → 1 ≤ i < filled t →
  ValueTable_get junk t key i log
  = Ok (v ← vals !! i; if bool_decide (key_bytes key = v_key v) then Some (v_value v, v_comp v) else None).
Proof.
  intros Hk Hi. unfold ValueTable_get.
  rewrite (query_spec (QCheck key) i Hi) by (eauto using query_ok_check). simpl.
  destruct (vals !! i) as [v|]; [|done]. simpl. by case_bool_decide.
Qed.
End read.

(** *** Writing a value *)
Lemma overwrite_fresh log H fl key value comp :
  wf_table t → wf_key key → repr t log H → free_list H (last_removed t) fl → NoDup fl →
  (∀ j, j ∈ fl → j < filled t) →
  fits t key value → room t (S (stored_size t key value)) →
  ∃ i t' log' H' sl fl',
    overwrite_chain junk key value None comp (t, log) = (Ok i, (t', log')) ∧
    written t log H [] fl (S (stored_size t key value)) comp true i
      (prefix_at t key 0 ++ drop 0 value) t' log' H' sl fl'.
Proof.
  intros Ht Hk Hr Hf Hnd Hlt Hfit Hroom. unfold room in Hroom.
  pose proof (wf_es _ Ht) as Hes. pose proof (wf_filled _ Ht) as Hfi0.
  destruct (alloc_spec junk Hjunk t log H fl 0 false []) as
    (i & t1 & fl1 & olds1 & Ha & Hsh & Ht1 & Hd1 & Hfi1 & Hn1 & -> & Hf1 & Hp1); try done; [nia|by left|].
  pose proof (shape_inv _ _ Hsh) as (Hid & Ee & _ & Em & Erc & _).
  assert (Hpre : prefix_at t1 key 0 = prefix_at t key 0) by (unfold prefix_at, rc_bytes; by rewrite Erc).
  destruct (overwrite_loop_spec junk Hjunk key value comp Hk (S (stored_size t key value)) t1 log H fl1 [i]
    (stored_size t key value) 0 0 i false) as (t' & log' & H' & sl & fl' & E & W); try done.
  - apply (repr_shape t); [done|lia|done].
  - rewrite Hp1. simpl. apply NoDup_app. split_and!; [done| |apply NoDup_seqZ].
    intros j Hj [? _]%elem_of_seqZ. apply Hlt in Hj. lia.
  - rewrite Ee. nia.
  - unfold fits in Hfit. unfold es_nat. rewrite Ee, Em. destruct (multipart t); [done|]. unfold es_nat in Hfit. lia.
  - lia.
  - lia.
  - rewrite Hpre. erewrite <-content_prefix. by apply (content_length key value comp).
  - exists i, t', log', H', sl, fl'. split.
    + unfold overwrite_chain. mrun. change (id (t, log)) with (t, log). cbv beta iota zeta.
      rewrite fits_size by done. rewrite M_bind_assoc. mstep Ha. mrun. exact E.
    + rewrite Hpre in W. destruct W as [W1 W2 W3 W4 W5 W6 W7 W8 W9 W10]. split; try done.
      * by rewrite W1.
      * by eapply dirtied_trans.
      * rewrite W8, app_assoc, Hp1. simpl. rewrite <-app_assoc. f_equiv.
        replace (filled t' - filled t) with ((filled t1 - filled t) + (filled t' - filled t1)) by lia.
        rewrite seqZ_app by lia. do 2 f_equiv. lia.
      * lia.
Qed.

Lemma overwrite_old log H fl l i key value comp :
  wf_table t → wf_key key → repr t log H → free_list H (last_removed t) fl → links H i l → NoDup (l ++ fl) →
  fits t key value → room t (stored_size t key value) →
  ∃ t' log' H' sl fl',
    overwrite_chain junk key value (Some i) comp (t, log) = (Ok i, (t', log')) ∧
    written t log H l fl (stored_size t key value) comp true i
      (prefix_at t key 0 ++ drop 0 value) t' log' H' sl fl'.
Proof.
  intros Ht Hk Hr Hf Hl Hnd Hfit Hroom. unfold room in Hroom.
  destruct (links_head _ _ _ Hl) as [l' ->].
  destruct (links_dom H i (i :: l') i Hl) as [c Hc]; [set_solver|].
  destruct (Hr _ _ Hc) as (Hi & _).
  destruct (overwrite_loop_spec junk Hjunk key value comp Hk (S (stored_size t key value)) t log H fl (i :: l')
    (stored_size t key value) 0 0 i true) as (t' & log' & H' & sl & fl' & E & W); try done; try lia.
  - unfold fits in Hfit. destruct (multipart t); [done|]. lia.
  - erewrite <-content_prefix. by apply (content_length key value comp).
  - exists t', log', H', sl, fl'. split; [|done]. unfold overwrite_chain. mrun.
    change (id (t, log)) with (t, log). cbv beta iota zeta. rewrite fits_size by done. mrun. exact E.
Qed.

Lemma fits_content key value comp :
  wf_key key → fits t key value → multipart t = true →
  (es_nat t - 2 < length (content t (mkVal 1 (key_bytes key) value comp)))%nat.
Proof. intros Hk Hf Hm. rewrite content_length by done. unfold fits in Hf. by rewrite Hm in Hf. Qed.

Lemma wf_vrec_new key value comp :
  wf_key key → encoded_size key = kl → wf_vrec t kl (mkVal 1 (key_bytes key) value comp).
Proof. intros Hk <-. split_and!; simpl; try done. by rewrite key_bytes_length. Qed.

Lemma insert_spec log key value comp :
  table_inv t log kl vals → wf_key key → encoded_size key = kl → fits t key value →
  room t (S (stored_size t key value)) →
  ∃ i t' log', ValueTable_write_insert_plan junk key value comp (t, log) = (Ok i, (t', log')) ∧
    1 ≤ i < filled t' ∧ filled t ≤ filled t' ≤ filled t + Z.of_nat (S (stored_size t key value)) ∧
    vals !! i = None ∧ shape t' = shape t ∧ frame t' log log' ∧ dirtied t t' ∧
    table_inv t' log' kl (<[i := mkVal 1 (key_bytes key) value comp]> vals).
Proof.
  intros (H & slots & fl & Hst) Hk Hkl Hfit Hroom. pose proof (ts_nodup Hst) as Hnd.
  destruct (overwrite_fresh log H fl key value comp) as (i & t' & log' & H' & sl & fl' & E & W);
    try apply Hst; try done.
  { by apply NoDup_app in Hnd as (? & _). }
  { intros j Hj. destruct (free_list_dom _ _ _ _ (ts_free Hst) Hj) as [n Hn].
    apply (ts_repr Hst) in Hn. lia. }
  assert (Hin : i ∈ sl) by (destruct (chain_head _ _ _ _ _ _ (w_chain W)) as [? ->]; set_solver).
  assert (Hv : vals !! i = None).
  { destruct (vals !! i) as [v|] eqn:Hv; [|done]. exfalso.
    destruct (ts_slots Hst i v Hv) as (l & Hl & Hc & _). destruct (chain_head _ _ _ _ _ _ Hc) as [l' ->].
    assert (Hi : i ∈ sl ++ fl') by set_solver. rewrite (w_slots W) in Hi.
    simpl in Hi. apply elem_of_app in Hi as [Hi|[Hi _]%elem_of_seqZ].
    - apply NoDup_app in Hnd as (_ & Hd & _). apply (Hd i Hi). apply elem_of_owned. exists i. eexists. split; [done|]. set_solver.
    - pose proof (ts_range Hst i _ i Hl ltac:(set_solver)). lia. }
  pose proof (ts_none Hst i Hv) as Hs. exists i, t', log'. split_and!; try done; try apply W.
  1,2: destruct (links_dom _ _ _ i (chain_links _ _ _ _ _ _ (w_chain W)) Hin) as [c Hc];
       apply (w_repr W) in Hc; lia.
  exists H', (<[i := sl]> slots), fl'.
  eapply install; [done|by apply wf_vrec_new|by apply fits_content|].
  rewrite Hs, content_prefix. exact W.
Qed.

Lemma replace_spec log i v key value comp :
  table_inv t log kl vals → vals !! i = Some v → wf_key key → encoded_size key = kl → fits t key value →
  room t (stored_size t key value) →
  ∃ t' log', ValueTable_write_replace_plan junk i key value comp (t, log) = (Ok tt, (t', log')) ∧
    filled t ≤ filled t' ≤ filled t + Z.of_nat (stored_size t key value) ∧
    shape t' = shape t ∧ frame t' log log' ∧ dirtied t t' ∧
    table_inv t' log' kl (<[i := mkVal 1 (key_bytes key) value comp]> vals).
Proof.
  intros (H & slots & fl & Hst) Hv Hk Hkl Hfit Hroom.
  destruct (ts_slots Hst i v Hv) as (l & Hl & Hc & _).
  destruct (overwrite_old log H fl l i key value comp) as (t' & log' & H' & sl & fl' & E & W);
    try apply Hst; try done.
  { by eapply chain_links. }
  { pose proof (ts_nodup Hst) as Hnd. rewrite (owned_delete _ _ _ Hl), app_assoc in Hnd.
    apply NoDup_app in Hnd as (Hnd & _). by rewrite Permutation_app_comm. }
  exists t', log'. split_and!; try apply W.
  { unfold ValueTable_write_replace_plan. mstep E. done. }
  exists H', (<[i := sl]> slots), fl'.
  eapply install; [done|by apply wf_vrec_new|by apply fits_content|].
  rewrite Hl, content_prefix. exact W.
Qed.

Lemma remove_spec log i v :
  table_inv t log kl vals → vals !! i = Some v →
  ∃ t' log', ValueTable_write_remove_plan junk i (t, log) = (Ok tt, (t', log')) ∧
    shape t' = shape t ∧ filled t' = filled t ∧ frame t' log log' ∧ dirty_header t' = true ∧
    table_inv t' log' kl (delete i vals).
Proof.
  intros (H & slots & fl & Hst) Hv. destruct (ts_slots Hst i v Hv) as (l & Hl & Hc & _).
  pose proof (ts_nodup Hst) as Hnd. rewrite (owned_delete _ _ _ Hl), app_assoc in Hnd.
  apply NoDup_app in Hnd as (Hnd & _). apply NoDup_app in Hnd as (Hnf & Hdis & Hnl).
  destruct (ts_list_nodup Hst i l Hl) as [_ Hfu]. pose proof (chain_links _ _ _ _ _ _ Hc) as Hlinks.
  destruct (clear_chain_spec junk Hjunk l (chain_fuel t) i t log H fl) as
    (t' & log' & H' & E & Hsh & Hfi & Hw & Hd & Hfr & Hr & Hf & Hx); try apply Hst; try done; [set_solver|].
  exists t', log'. split_and!; try done.
  - unfold ValueTable_write_remove_plan. mrun. change (id (t, log)) with (t, log). cbv beta iota.
    destruct (multipart t) eqn:Em; [exact E|].
    inversion Hc as [? ? ? Hh|? ? ? ? ? ? Hh]; subst.
    + rewrite <-E. unfold chain_fuel. cbn [clear_chain_loop]. mrun.
      change (id (t, log)) with (t, log). cbv beta iota.
      mlift (read_next_part_spec junk Hjunk t log H i _ (ts_wf Hst) (ts_repr Hst) Hh).
      done.
    + apply (ts_repr Hst) in Hh as (_ & (Hm & _) & _). congruence.
  - exists H', (delete i slots), (reverse l ++ fl). eapply uninstall; try done.
    + rewrite Hl. simpl. by rewrite reverse_Permutation.
    + by rewrite Hl.
Qed.

(** *** Reference counters *)
Definition set_body (c : slotc) (b : bytes) : slotc :=
  match c with STomb n => STomb n | SMulti m n _ => SMulti m n b | SPlain comp _ => SPlain comp b end.

(** The counter after adding [delta]; [None] when it reaches zero. *)
Definition new_rc (delta counter : Z) : option Z :=
  if bool_decide (0 < delta) then
    Some (if bool_decide (u32 (LOCKED_REF - delta) ≤ counter) then LOCKED_REF else counter + delta)
  else if bool_decide (counter ≠ LOCKED_REF) then
    let c := Z.max 0 (counter - u32 (- delta)) in
    if bool_decide (c = 0) then None else Some c
  else Some counter.

Lemma change_ref_spec log H i c rc rest delta :
  wf_table t → repr t log H → H !! i = Some c → (∀ n, c ≠ STomb n) →
  slot_body c = le_bytes 4 rc ++ rest → in_range 32 rc →
  change_ref junk i delta (t, log)
  = match new_rc delta rc with
    | None => (Ok false, (t, log))
    | Some rc' =>
        (Ok true, (t, insert_value (vt_id t) i (enc (set_body c (le_bytes 4 rc' ++ rest))) log))
    end.
Proof.
  intros Ht Hr Hc Hnt Hbody Hrc. destruct (Hr _ _ Hc) as (Hi & Hw & Hs).
  destruct (load_full t log i c junk) as (r & El & Hl); [done|done|lia|done|done|].
  unfold change_ref. mrun. change (id (t, log)) with (t, log). cbv beta iota. mlift El.
  cbv zeta. rewrite (not_tombstone t Ht c r Hw Hnt). set (h := slot_head c).
  assert (Eo : (if multipart t && is_multi (db_version t) (mkEntry 0 (enc c ++ r))
      then Ok (es_nat t, skip_next (skip_size (mkEntry 0 (enc c ++ r))))
      else '(size, _, e) ← read_size (mkEntry 0 (enc c ++ r)); Ok ((e_off e + Z.to_nat size)%nat, e))
    = Ok ((length h + length (slot_body c))%nat, mkEntry (length h) (h ++ slot_body c ++ r))).
  { pose proof (open_slot t Ht c r 1 false Hw Hnt) as Eo. cbv zeta in Eo.
    destruct (multipart t && _); revert Eo.
    2: { destruct (read_size _) as [[[sz cp] e]| | |]; [|done..]. simpl. intros E. injection E as E1 _ _ E2.
         by rewrite E1, E2. }
    unfold read_next, read_u64, read_slice. simpl e_off. simpl e_buf.
    destruct (slice _ _ _); simpl; [|done..]. intros E. injection E as E1 _ _ E2 E3.
    unfold skip_next, skip_u64, skip_size. simpl. unfold h. by rewrite E1, <-E2, <-E3. }
  mlift Eo. simpl e_off. rewrite Hbody, <-app_assoc.
  assert (Er : read_rc (mkEntry (length h) (h ++ le_bytes 4 rc ++ rest ++ r))
    = Ok (rc, mkEntry (length (h ++ le_bytes 4 rc)) (h ++ le_bytes 4 rc ++ rest ++ r))).
  { unfold read_rc, read_u32. rewrite read_slice_at by apply le_bytes_length. simpl.
    by rewrite le_val_bytes_small. }
  mlift Er. cbv zeta. fold (new_rc delta rc). destruct (new_rc delta rc) as [rc'|]; [|done].
  assert (Ew : write_rc rc' (set_offset (length h) (mkEntry (length (h ++ le_bytes 4 rc)) (h ++ le_bytes 4 rc ++ rest ++ r)))
    = Ok (mkEntry (length h + 4) (h ++ le_bytes 4 rc' ++ rest ++ r))).
  { unfold write_rc, write_slice, set_offset. simpl e_buf. simpl e_off.
    rewrite overwrite_app by (done || by rewrite !le_bytes_length). simpl. by rewrite le_bytes_length. }
  mlift Ew. simpl e_buf.
  assert (Ed : enc (set_body c (le_bytes 4 rc' ++ rest)) = h ++ le_bytes 4 rc' ++ rest).
  { unfold h. destruct c; [by destruct (Hnt next)|by simpl; rewrite <-app_assoc|].
    simpl. simpl in Hbody. subst. by rewrite !length_app, !le_bytes_length. }
  assert (Esl : slice (h ++ le_bytes 4 rc' ++ rest ++ r) 0 (length h + length (le_bytes 4 rc ++ rest))
    = Ok (h ++ le_bytes 4 rc' ++ rest)).
  { rewrite (app_assoc (le_bytes 4 rc')), (app_assoc h). apply slice_app_l. len. }
  mlift Esl. mrun. by rewrite Ed.
Qed.

Lemma chain_set_head log H i l comp c first b b' rest :
  repr t log H → chain H comp first i l (b ++ rest) → H !! i = Some c → slot_body c = b ++ drop (length b) (slot_body c) →
  NoDup l →
  chain (<[i := set_body c (b' ++ drop (length b) (slot_body c))]> H) comp first i l (b' ++ rest).
Proof.
  intros Hr Hc Hi Hb Hnd. inversion Hc as [? ? ? Hh|? ? n b0 l' rest' Hh Hc' Ea Eb El E]; subst.
  - rewrite Hi in Hh. simplify_eq/=. rewrite drop_app_length. constructor. apply lookup_insert_eq.
  - rewrite Hi in Hh. simplify_eq/=. rewrite Hb, <-app_assoc in E. apply app_inv_head in E. subst rest.
    rewrite app_assoc. econstructor; [apply lookup_insert_eq|].
    eapply chain_ext; [done|]. intros j Hj. apply lookup_insert_ne. apply NoDup_cons in Hnd. set_solver.
Qed.

Definition set_rc (rc : Z) (v : vrec) : vrec := mkVal rc (v_key v) (v_value v) (v_comp v).

(** Adding to the counter of the value at [i] changes that counter and nothing else. *)
Lemma change_ref_inv log i v delta :
  table_inv t log kl vals → ref_counted t = true → vals !! i = Some v →
  match new_rc delta (v_rc v) with
  | None => change_ref junk i delta (t, log) = (Ok false, (t, log))
  | Some rc' =>
      1 ≤ rc' < 2 ^ 32 →
      ∃ log', change_ref junk i delta (t, log) = (Ok true, (t, log')) ∧ frame t log log' ∧
        table_inv t log' kl (<[i := set_rc rc' v]> vals)
  end.
Proof.
  intros (H & slots & fl & Hst) Hrc Hv. destruct (ts_slots Hst i v Hv) as (l & Hl & Hvi).
  pose proof Hvi as (Hch & (Hrv & Hr1 & Hkl) & Hm). destruct (ts_list_nodup Hst i l Hl) as [Hnd _].
  destruct (head_split Hst i l v Hvi) as (c & d & rest & Hc & Hb & Hbody & Hval & _).
  assert (Hrb : ∀ z, rc_bytes t z = le_bytes 4 z) by (intros; unfold rc_bytes; by rewrite Hrc).
  rewrite Hrb in Hbody. assert (Hnt : ∀ n, c ≠ STomb n) by (intros n ->; done).
  pose proof (change_ref_spec log H i c (v_rc v) _ delta (ts_wf Hst) (ts_repr Hst) Hc Hnt Hbody
    ltac:(unfold in_range; lia)) as E.
  destruct (new_rc delta (v_rc v)) as [rc'|]; [|done]. intros Hrc'.
  destruct (ts_repr Hst _ _ Hc) as (Hi & Hw & _).
  set (c' := set_body c (le_bytes 4 rc' ++ v_key v ++ d)) in *.
  eexists. split; [exact E|].
  assert (Hc' : wf_slot t c').
  { assert (length (le_bytes 4 rc' ++ v_key v ++ d) = length (slot_body c)) as Hlen
      by (rewrite Hbody, !length_app, !le_bytes_length; done).
    unfold c'. destruct c; simpl in *; try done; rewrite Hlen; done. }
  split; [by apply frame_insert_value|].
  assert (Hlf : i ∉ fl).
  { intros Hf. pose proof (ts_nodup Hst) as Hn. apply NoDup_app in Hn as (_ & Hd & _). apply (Hd i Hf).
    apply elem_of_owned. exists i, l. split; [done|]. destruct (chain_head _ _ _ _ _ _ Hch) as [? ->]. set_solver. }
  exists (<[i := c']> H), slots, fl. split; try apply Hst.
  - by apply repr_insert; [apply Hst|..].
  - eapply free_list_ext; [apply Hst|]. intros j Hj. apply lookup_insert_ne. set_solver.
  - rewrite dom_insert_L, (ts_dom Hst). apply elem_of_dom_2 in Hv. set_solver.
  - intros j w l'. rewrite lookup_insert. case_decide as Hij.
    + intros [= <-] Hl'. subst j. rewrite Hl in Hl'. injection Hl' as <-.
      split_and!; [|split_and!; simpl; try done; try lia; congruence|done].
      unfold content in *. simpl. rewrite Hrb in Hch |- *.
      pose proof (chain_set_head log H i l (v_comp v) c true (le_bytes 4 (v_rc v)) (le_bytes 4 rc') _
        (ts_repr Hst) Hch Hc) as Hx. rewrite Hbody in Hx. rewrite drop_app_length in Hx. by apply Hx.
    + intros Hj Hl'. eapply value_in_ext; [done| |by eapply ts_vals].
      intros x Hx. apply lookup_insert_ne. intros ->.
      eapply (others_apart t log kl vals H slots fl x j l' x 0); try done.
      rewrite Hl. simpl. destruct (chain_head _ _ _ _ _ _ Hch) as [? ->]. set_solver.
Qed.
(** The counter of a value after one more reference, and after one less. *)
Definition inc (rc : Z) : Z := if bool_decide (LOCKED_REF - 1 ≤ rc) then LOCKED_REF else rc + 1.
Definition dec (rc : Z) : Z := if bool_decide (rc = LOCKED_REF) then LOCKED_REF else rc - 1.

Lemma inc_ref_spec log i v :
  table_inv t log kl vals → ref_counted t = true → vals !! i = Some v →
  ∃ log', write_inc_ref junk i (t, log) = (Ok tt, (t, log')) ∧
    frame t log log' ∧ table_inv t log' kl (<[i := set_rc (inc (v_rc v)) v]> vals).
Proof.
  intros Hinv Hrc Hv.
  assert (Hr : 1 ≤ v_rc v < 2 ^ 32).
  { destruct Hinv as (H & slots & fl & Hst). by destruct (ts_slots Hst i v Hv) as (? & _ & _ & (? & _) & _). }
  pose proof (change_ref_inv log i v 1 Hinv Hrc Hv) as E.
  change (new_rc 1 (v_rc v)) with (Some (inc (v_rc v))) in E. cbv iota in E.
  destruct E as (log' & E & Hf & Hi).
  - unfold inc, LOCKED_REF, u32_max. case_bool_decide; lia.
  - exists log'. split_and!; try done. unfold write_inc_ref. mstep E. done.
Qed.

Lemma dec_ref_spec log i v :
  table_inv t log kl vals → ref_counted t = true → vals !! i = Some v →
  ∃ t' log', write_dec_ref junk i (t, log) = (Ok (bool_decide (dec (v_rc v) ≠ 0)), (t', log')) ∧
    filled t' = filled t ∧ shape t' = shape t ∧ frame t' log log' ∧ dirtied t t' ∧
    table_inv t' log' kl (if bool_decide (dec (v_rc v) = 0) then delete i vals
                          else <[i := set_rc (dec (v_rc v)) v]> vals).
Proof.
  intros Hinv Hrc Hv.
  assert (Hr : 1 ≤ v_rc v < 2 ^ 32).
  { destruct Hinv as (H & slots & fl & Hst). by destruct (ts_slots Hst i v Hv) as (? & _ & _ & (? & _) & _). }
  pose proof (change_ref_inv log i v (-1) Hinv Hrc Hv) as E.
  assert (En : new_rc (-1) (v_rc v) = if bool_decide (dec (v_rc v) = 0) then None else Some (dec (v_rc v))).
  { unfold new_rc, dec. rewrite (bool_decide_false (0 < -1)) by lia. change (u32 (- -1)) with 1.
    destruct (decide (v_rc v = LOCKED_REF)) as [e|e].
    - rewrite (bool_decide_false (v_rc v ≠ LOCKED_REF)), (bool_decide_true (v_rc v = LOCKED_REF)) by naive_solver.
      rewrite bool_decide_false by done. by rewrite e.
    - rewrite (bool_decide_true (v_rc v ≠ LOCKED_REF)), (bool_decide_false (v_rc v = LOCKED_REF)) by naive_solver.
      by rewrite Z.max_r by lia. }
  rewrite En in E. unfold write_dec_ref. case_bool_decide as Hz.
  - mstep E. rewrite bool_decide_false by auto.
    destruct (remove_spec log i v Hinv Hv) as (t' & log' & E' & ? & ? & ? & ? & ?).
    exists t', log'. split_and!; try done; [mstep E'; done|by right].
  - destruct E as (log' & E & Hf & Hi).
    { unfold dec, LOCKED_REF, u32_max in *. case_bool_decide; lia. }
    exists t, log'. split_and!; try done; [mstep E; by rewrite bool_decide_true|by left].
Qed.
End operations.

(** The invariant only depends on the entries the log shows for the table. *)
Lemma table_inv_view `{HL : LogQuery L} `{HL' : LogQuery L'} t (log : L) (log' : L') kl vals :
  (∀ j, value_entry log' (vt_id t) j = value_entry log (vt_id t) j) →
  table_inv t log kl vals → table_inv t log' kl vals.
Proof.
  intros Hx (H & slots & fl & Hst). exists H, slots, fl. split; try apply Hst.
  intros i c Hc. destruct (ts_repr Hst _ _ Hc) as (? & ? & Hs). split; [done|]. split; [done|].
  unfold slot_has in *. by rewrite Hx.
Qed.
