(* ===== verification/ValueFile.v ===== *)
(** * Value tables: from the log to the file

    [enact_plan] reads one entry of a record from the log and writes it to the file.  This file
    shows that the file then holds the entry, that all other slots of the file are untouched,
    and that the table therefore represents the same values once the entry is dropped from the
    overlay; and that the header written by [complete_plan] restores the allocation state. *)

From S2P Require Import Prelude IndexEntry IndexChunk Log ValueEntry File ValueTable ValueSlots ValueChains ValueWrite ValueRead ValueInv ValueSpec.

Definition file_ok (es : Z) (f : TableFile) : Prop :=
  0 ≤ tf_capacity f ∧
  match tf_file f with
  | Some l => tf_capacity f * es ≤ Z.of_nat (length l) < (tf_capacity f + 1) * es
  | None => tf_capacity f = 0
  end.

(** [extends f f']: what could be read of [f] reads the same of [f']. *)
Definition extends (f f' : TableFile) : Prop :=
  ∀ n o d, 0 ≤ o → TableFile_read_at f n o = Ok d → TableFile_read_at f' n o = Ok d.

#[export] Instance extends_preorder : PreOrder extends.
Proof. split; unfold extends; [by intros f n o d|]. intros f g h Hfg Hgh n o d Ho Hr. auto. Qed.

Section file.
Context (es : Z) (Hes : 32 ≤ es ≤ 32760).

Lemma grow_step : 8 ≤ GROW_SIZE_BYTES / es.
Proof. unfold GROW_SIZE_BYTES. apply Z.div_le_lower_bound; lia. Qed.

Lemma grow_ok f :
  file_ok es f → (tf_capacity f + GROW_SIZE_BYTES / es) * es < 2 ^ 64 →
  file_ok es (TableFile_grow es f) ∧ extends f (TableFile_grow es f) ∧
  tf_capacity (TableFile_grow es f) = tf_capacity f + GROW_SIZE_BYTES / es.
Proof.
  intros [Hc Hf] Hroom. pose proof grow_step as Hg. unfold TableFile_grow, file_ok, extends, TableFile_read_at. simpl.
  rewrite (wrap_small 64 (tf_capacity f + _)) by (unfold in_range; nia).
  rewrite (wrap_small 64 ((tf_capacity f + _) * es)) by (unfold in_range; nia).
  rewrite set_len_length. split_and!; try nia; try done.
  intros n o d Ho. destruct (tf_file f) as [l|]; [|done]. simpl. intros Hr.
  rewrite set_len_grow by nia. rewrite read_after_extend; try done.
  revert Hr. unfold read_exact_at. case_decide; [|done]. lia.
Qed.

Lemma grow_until_ok index : ∀ fuel f,
  file_ok es f → 0 ≤ index → (index + GROW_SIZE_BYTES / es) * es < 2 ^ 64 →
  index - tf_capacity f < Z.of_nat fuel →
  ∃ f', grow_until fuel index es f = Ok f' ∧ file_ok es f' ∧ extends f f' ∧ index < tf_capacity f'.
Proof.
  pose proof grow_step as Hg.
  induction fuel as [|fuel IH]; intros f Hf Hi Hroom Hfu; simpl.
  - rewrite bool_decide_true by lia. exists f. split_and!; try done. lia.
  - case_bool_decide as Hlt; [by exists f|].
    destruct (grow_ok f Hf) as (Hf1 & Hx1 & Hc1); [nia|].
    destruct (IH (TableFile_grow es f) Hf1) as (f' & E & Hf' & Hx & Hlt'); [done|done|lia|].
    exists f'. split_and!; try done. by etrans.
Qed.

Lemma write_entry_ok f d index :
  file_ok es f → 0 ≤ index < tf_capacity f → (length d ≤ Z.to_nat es)%nat →
  ∃ f', TableFile_write_at d (index * es) f = Ok f' ∧ file_ok es f' ∧
    (∃ rest, TableFile_read_at f' (Z.to_nat es) (index * es) = Ok (d ++ rest)) ∧
    ∀ j n, 0 ≤ j → j ≠ index → (n ≤ Z.to_nat es)%nat →
      TableFile_read_at f' n (j * es) = TableFile_read_at f n (j * es).
Proof.
  intros [Hc Hf] Hi Hd. unfold TableFile_write_at, file_ok, TableFile_read_at.
  destruct (tf_file f) as [l|]; [|lia]. eexists; split; [done|]. simpl.
  assert (index * es + es ≤ Z.of_nat (length l)) by nia.
  rewrite write_all_at_length by nia. split_and!; try lia.
  - apply read_after_write_prefix; nia.
  - intros j n Hj Hji Hn. apply read_after_write_other; try nia.
Qed.
End file.

(** ** Reading an entry back from the log *)
Section body.
Context (t : ValueTable) (Ht : wf_table t).

Lemma log_read_app n d rest r :
  rd_stream r = d ++ rest → n = length d → log_read n (t, r) = (Ok d, (t, consume d r)).
Proof. intros Hs Hn. unfold log_read, zoom. simpl. by rewrite (LogReader_read_consume n d rest r). Qed.

Lemma read_entry_body_spec c rest r :
  wf_slot t c → rd_stream r = enc c ++ rest →
  read_entry_body (t, r) = (Ok (enc c), (t, consume (enc c) r)).
Proof.
  intros Hw Hs. pose proof (enc_length _ _ Ht Hw) as [Hlen Hlen10]. pose proof (es_nat_eq _ Ht) as [_ Hes].
  assert (Hsplit : enc c = take 2 (enc c) ++ drop 2 (enc c)) by (by rewrite take_drop).
  set (a := take 2 (enc c)) in *. set (b := drop 2 (enc c)) in *.
  assert (Hal : length a = 2%nat) by (unfold a; len).
  rewrite Hsplit, <-app_assoc in Hs.
  assert (Hread : ∀ n, n = length b → log_read n (t, consume a r) = (Ok b, (t, consume (enc c) r))).
  { intros n Hn. rewrite (log_read_app n b rest (consume a r) (consume_stream _ _ _ Hs) Hn). by rewrite consume_app, <-Hsplit. }
  unfold read_entry_body. mrun. change (id (t, r)) with (t, r). cbv beta iota.
  mstep (log_read_app SIZE_SIZE a (b ++ rest) r Hs ltac:(done)). cbv zeta.
  assert (Hta : take 2 a = take 2 (enc c)) by (unfold a; rewrite take_take; done).
  assert (Hbl : length b = (length (enc c) - 2)%nat) by (unfold b; len).
  destruct c as [n|m n body|comp body].
  - rewrite (mark_tomb n) by done. mstep (Hread INDEX_SIZE ltac:(rewrite Hbl; done)).
    by rewrite <-Hsplit.
  - destruct (mark_multi t m n body a Hw Hta) as (-> & -> & _). pose proof Hw as (-> & Hm & _ & _ & Hb).
    assert (Hlb : (es_nat t - SIZE_SIZE)%nat = length b).
    { rewrite Hbl. simpl enc. rewrite !length_app, le_bytes_length, Hb. unfold SIZE_SIZE.
      destruct Hm as [->|[->| ->]]; simpl; lia. }
    change (true && true) with true. cbv beta iota. mstep (Hread _ Hlb). by rewrite <-Hsplit.
  - destruct (mark_plain t Ht comp body a Hw Hta) as (-> & _ & Hmul). simpl in Hw.
    destruct (multipart t && _) eqn:Em; [apply andb_prop in Em as [? Em]; by rewrite Hmul in Em|].
    assert (Ha : a = le_bytes 2 (size_word comp (Z.of_nat (length body))))
      by (unfold a; simpl; by rewrite take_app_length' by (by rewrite le_bytes_length)).
    pose proof (read_size_at a [] (Z.of_nat (length body)) ltac:(unfold in_range; lia) comp Ha) as Er.
    rewrite app_nil_r in Er. mlift Er. rewrite Nat2Z.id.
    rewrite decide_False by (unfold MAX_ENTRY_BUF_SIZE, SIZE_SIZE; lia).
    assert (Hlb : length body = length b)
      by (rewrite Hbl; simpl; rewrite length_app, le_bytes_length; lia).
    mstep (Hread _ Hlb). by rewrite <-Hsplit.
Qed.
End body.

(** ** Enacting an entry *)
Section enact.
Context (t : ValueTable) (Ht : wf_table t) (Hfile : file_ok (entry_size t) (vt_file t)).

Lemma enact_grow index r :
  0 ≤ index → (index + GROW_SIZE_BYTES / entry_size t) * entry_size t < 2 ^ 64 →
  ∃ f, grow_until (Z.to_nat (index + 1)) index (entry_size t) (vt_file t) = Ok f ∧
    file_ok (entry_size t) f ∧ extends (vt_file t) f ∧ index < tf_capacity f ∧
    ValueTable_enact_plan index (t, r)
    = (if bool_decide (index = 0) then h ← log_read 16; write_file h 0
       else d ← read_entry_body; write_file d index) (set_file f t, r).
Proof.
  intros Hi Hroom.
  destruct (grow_until_ok (entry_size t) (wf_es _ Ht) index (Z.to_nat (index + 1)) (vt_file t) Hfile)
    as (f & E & Hf & Hx & Hlt); [done|done|destruct Hfile; lia|].
  exists f. split_and!; try done. unfold ValueTable_enact_plan. mrun.
  change (id (t, r)) with (t, r). cbv beta iota. mlift E. mrun. done.
Qed.

Lemma write_file_spec f d index r :
  file_ok (entry_size t) f → 0 ≤ index < tf_capacity f → index * entry_size t < 2 ^ 64 →
  (length d ≤ es_nat t)%nat →
  ∃ f', write_file d index (set_file f t, r) = (Ok tt, (set_file f' t, r)) ∧ file_ok (entry_size t) f' ∧
    (∃ rest, TableFile_read_at f' (es_nat t) (index * entry_size t) = Ok (d ++ rest)) ∧
    ∀ j n, 0 ≤ j → j ≠ index → (n ≤ es_nat t)%nat →
      TableFile_read_at f' n (j * entry_size t) = TableFile_read_at f n (j * entry_size t).
Proof.
  intros Hf Hi Hroom Hd. pose proof (wf_es _ Ht) as Hes.
  destruct (write_entry_ok (entry_size t) Hes f d index Hf Hi Hd) as (f' & E & Hf' & Hr & Hx).
  exists f'. split_and!; try done. unfold write_file. mrun.
  change (id (set_file f t, r)) with (set_file f t, r). cbv beta iota. simpl entry_size. simpl vt_file.
  rewrite wrap_small by (unfold in_range; nia). mlift E. done.
Qed.

Lemma enact_spec index c rest r :
  wf_slot t c → 1 ≤ index → (index + GROW_SIZE_BYTES / entry_size t) * entry_size t < 2 ^ 64 →
  rd_stream r = enc c ++ rest →
  ∃ f', ValueTable_enact_plan index (t, r) = (Ok tt, (set_file f' t, consume (enc c) r)) ∧
    file_ok (entry_size t) f' ∧
    (∃ rest', TableFile_read_at f' (es_nat t) (index * entry_size t) = Ok (enc c ++ rest')) ∧
    ∀ j n d, 0 ≤ j → j ≠ index → (n ≤ es_nat t)%nat →
      TableFile_read_at (vt_file t) n (j * entry_size t) = Ok d →
      TableFile_read_at f' n (j * entry_size t) = Ok d.
Proof.
  intros Hc Hi Hroom Hs. pose proof (wf_es _ Ht) as Hes. pose proof (grow_step _ Hes) as Hg.
  destruct (enact_grow index r) as (f & _ & Hf & Hx & Hlt & ->); [lia|done|].
  rewrite bool_decide_false by lia.
  assert (Htf : wf_table (set_file f t)) by (split; apply Ht).
  mstep (read_entry_body_spec (set_file f t) Htf c rest r Hc Hs).
  destruct (write_file_spec f (enc c) index (consume (enc c) r)) as (f' & -> & Hf' & Hr & Hy); [done|lia|nia| |].
  { pose proof (enc_length _ _ Ht Hc). lia. }
  exists f'. split_and!; try done. intros j n d Hj Hne Hn Hd. rewrite Hy by done. apply Hx; [nia|done].
Qed.
End enact.

(** [cleared o o' id index d]: [o'] is [o], or [o] without its entry for [index] if that is [d];
    in either case the file need not be right at [index] before [d] is written there. *)
Definition cleared (o o' : LogOverlays) (id index : Z) (d : bytes) : Prop :=
  (∀ j, j ≠ index → value_entry o' id j = value_entry o id j) ∧
  ((is_Some (value_entry o id index) ∧ value_entry o' id index = value_entry o id index) ∨
   (value_entry o id index = Some d ∧ value_entry o' id index = None)).

Lemma enact_inv t o o' kl vals index c f' :
  table_inv t o kl vals → wf_slot t c → 1 ≤ index → cleared o o' (vt_id t) index (enc c) →
  (∃ rest', TableFile_read_at f' (es_nat t) (index * entry_size t) = Ok (enc c ++ rest')) →
  (∀ j n d, 0 ≤ j → j ≠ index → (n ≤ es_nat t)%nat →
     TableFile_read_at (vt_file t) n (j * entry_size t) = Ok d →
     TableFile_read_at f' n (j * entry_size t) = Ok d) →
  table_inv (set_file f' t) o' kl vals.
Proof.
  intros (H & slots & fl & Hst) Hc Hi [Hoth Hown] Hr Hx.
  exists H, slots, fl. split; try apply Hst.
  - split; apply Hst.
  - intros j cj Hj. destruct (ts_repr Hst _ _ Hj) as (Hin & Hw & Hs). split; [exact Hin|]. split; [exact Hw|].
    unfold slot_has in *. simpl vt_id. simpl vt_file. simpl entry_size. change (es_nat (set_file f' t)) with (es_nat t).
    destruct (decide (j = index)) as [->|Hne].
    + destruct Hown as [[[d Hd] ->]|[Hd ->]]; rewrite Hd in *; [done|].
      destruct Hr as [rest Hr]. exists rest. by rewrite Hr, Hs.
    + rewrite Hoth by done. destruct (value_entry o (vt_id t) j); [done|].
      destruct Hs as [rest Hs]. exists rest. apply Hx; try done. lia.
Qed.

(** ** The header *)
Lemma header_fields f l :
  in_range 64 f → in_range 64 l →
  let h := Header_set_filled f (Header_set_last_removed l Header_default) in
  length h = 16%nat ∧ Header_filled h = f ∧ Header_last_removed h = l.
Proof.
  intros Hf Hl h. unfold h, Header_set_filled, Header_set_last_removed, Header_filled, Header_last_removed.
  assert (El : ∀ r, take INDEX_SIZE (le_bytes 8 l ++ r) = le_bytes 8 l)
    by (intros; by rewrite take_app_length' by (by rewrite le_bytes_length)).
  rewrite El. split_and!.
  - len. unfold Header_default, INDEX_SIZE. simpl. lia.
  - rewrite drop_app_length' by (by rewrite le_bytes_length).
    rewrite take_app_length' by (by rewrite le_bytes_length). by apply le_val_bytes_small.
  - rewrite El. by apply le_val_bytes_small.
Qed.
