(* ===== verification/ValueTheorems.v ===== *)
(** * Value tables: the theorems

    The contract of a value table stated against the operations of src/src/table.rs, with
    concrete instances. *)

From S2P Require Import Prelude IndexEntry IndexChunk Log ValueEntry File ValueTable ValueSlots ValueChains ValueWrite ValueRead ValueInv ValueSpec ValueFile.

(** ** Concrete tables for the instances *)
Definition zeros : bytes := replicate MAX_ENTRY_BUF_SIZE Byte.x00.
Definition fresh_table (es : option Z) (rc : bool) : ValueTable :=
  match ValueTable_open None 17 es rc 8 with
  | Ok t => t
  | _ => mkTable 17 32 (mkFile None 0) 1 0 false false rc 8
  end.
Definition fresh_log : LogWriter := LogWriter_new LogOverlays_default 1.
Definition key1 : TableKey := Partial (replicate 32 Byte.x07).
Definition key2 : TableKey := Partial (replicate 32 Byte.x08).
Definition short_value : bytes := replicate 10 Byte.x2a.

Lemma zeros_length : length zeros = MAX_ENTRY_BUF_SIZE.
Proof. apply length_replicate. Qed.

(** A table that has just been created holds no value. *)
Lemma fresh_inv `{HL : LogQuery L} (log : L) id es rc version t kl :
  (kl ≤ PARTIAL_SIZE)%nat → match es with Some s => 32 ≤ s ≤ 32760 | None => True end →
  ValueTable_open None id es rc version = Ok t → table_inv t log kl ∅.
Proof.
  intros Hkl Hes. unfold ValueTable_open, MULTIPART_ENTRY_SIZE, MIN_ENTRY_SIZE, MAX_ENTRY_SIZE.
  assert (∃ m s, (match es with Some s => (false, s) | None => (true, 4096) end) = (m, s) ∧ 32 ≤ s ≤ 32760
    ∧ (m = true → s = 4096)) as (m & s & -> & Hs & Hms) by (destruct es as [s|]; [exists false, s|exists true, 4096]; auto with lia).
  rewrite !bool_decide_false by lia. simpl. intros [= <-].
  exists ∅, ∅, []. split; try done.
  - split; simpl; try done; lia.
  - constructor.
Qed.

Definition one_value : ValueTable * LogWriter :=
  snd (ValueTable_write_insert_plan zeros key1 short_value false (fresh_table (Some 64) true, fresh_log)).
Definition one_map : gmap Z vrec := {[ 1 := mkVal 1 (key_bytes key1) short_value false ]}.

Lemma one_value_inv : table_inv one_value.1 one_value.2 26 one_map.
Proof.
  destruct (insert_spec zeros zeros_length (t := fresh_table (Some 64) true) (kl := 26) (vals := ∅)
    fresh_log key1 short_value false) as (i & t' & log' & E & _ & _ & _ & _ & _ & _ & Hinv).
  - by apply (fresh_inv _ 17 (Some 64) true 8).
  - done.
  - done.
  - unfold fits. vm_compute. lia.
  - unfold room. vm_compute. done.
  - assert (Hi : i = 1).
    { assert (E1 : (ValueTable_write_insert_plan zeros key1 short_value false (fresh_table (Some 64) true, fresh_log)).1
        = Ok 1) by (vm_compute; reflexivity).
      rewrite E in E1. simpl in E1. congruence. }
    unfold one_value. rewrite E. simpl. subst i. exact Hinv.
Qed.

(** ** Reading *)

(** C10. The value returned for an address and a key is the one the table maps the address to,
    provided the stored key is the one asked for; at every other slot (free, a continuation of
    a long value, another key) the answer is that there is no value.  The uninitialised buffer
    plays no role. *)
Theorem value_get_is_lookup `{HL : LogQuery L} junk t (log : L) vals key i :
  length junk = MAX_ENTRY_BUF_SIZE → table_inv t log (encoded_size key) vals → 1 ≤ i < filled t →
  ValueTable_get junk t key i log
  = Ok (v ← vals !! i; if bool_decide (key_bytes key = v_key v) then Some (v_value v, v_comp v) else None).
Proof.
  intros Hj Hinv Hi. by apply (get_spec junk Hj Hinv).
Qed.

Lemma value_get_is_lookup_witness :
  table_inv one_value.1 one_value.2 26 one_map ∧
  ValueTable_get zeros one_value.1 key1 1 one_value.2 = Ok (Some (short_value, false)) ∧
  ValueTable_get zeros one_value.1 key2 1 one_value.2 = Ok None.
Proof.
  split; [apply one_value_inv|]. split.
  - rewrite (value_get_is_lookup zeros _ _ one_map); [vm_compute; reflexivity|apply zeros_length|apply one_value_inv|].
    vm_compute. split; congruence.
  - rewrite (value_get_is_lookup zeros _ _ one_map); [vm_compute; reflexivity|apply zeros_length|apply one_value_inv|].
    vm_compute. split; congruence.
Defined.

(** Iteration and migration read a value with its key and its reference counter: they get
    exactly what is stored, and nothing at an address where no value starts. *)
Theorem value_get_with_meta `{HL : LogQuery L} junk t (log : L) vals i :
  length junk = MAX_ENTRY_BUF_SIZE → table_inv t log PARTIAL_SIZE vals → 1 ≤ i < filled t →
  get_with_meta junk t i log
  = Ok ((λ v, (v_value v, v_rc v, v_key v, v_comp v)) <$> vals !! i) ∧
  partial_key_at junk t i log = Ok (v_key <$> vals !! i) ∧
  (∀ key, encoded_size key = PARTIAL_SIZE →
    ValueTable_size junk t key i log
    = Ok (v ← vals !! i; if bool_decide (key_bytes key = v_key v)
                          then Some (u32 (Z.of_nat (length (v_value v))), v_comp v) else None)).
Proof.
  intros Hj Hinv Hi. split_and!.
  - unfold get_with_meta. rewrite (query_spec junk Hj Hinv) by (done || (intros v Hv; by apply (val_facts Hinv i))).
    by destruct (vals !! i).
  - by apply (partial_key_at_spec junk Hj Hinv).
  - intros key Hk. by apply (size_spec junk Hj Hinv).
Qed.

Lemma value_get_with_meta_witness :
  get_with_meta zeros one_value.1 1 one_value.2 = Ok (Some (short_value, 1, key_bytes key1, false)).
Proof.
  destruct (value_get_with_meta zeros one_value.1 one_value.2 one_map 1) as (-> & _).
  - apply zeros_length.
  - apply one_value_inv.
  - vm_compute. split; congruence.
  - reflexivity.
Defined.

(** ** Writing *)

(** C11. Inserting a value returns an address where no value started, maps it to the value with
    a reference counter of one, and leaves every other value, every other table and the index
    part of the record as they were. *)
Theorem value_insert_refines junk t log kl vals key value comp :
  length junk = MAX_ENTRY_BUF_SIZE → table_inv t log kl vals → wf_key key → encoded_size key = kl →
  fits t key value → room t (S (stored_size t key value)) →
  ∃ i t' log', ValueTable_write_insert_plan junk key value comp (t, log) = (Ok i, (t', log')) ∧
    1 ≤ i < filled t' ∧ vals !! i = None ∧ shape t' = shape t ∧ frame t' log log' ∧
    table_inv t' log' kl (<[i := mkVal 1 (key_bytes key) value comp]> vals).
Proof.
  intros Hj Hinv Hk Hkl Hf Hr.
  destruct (insert_spec junk Hj log key value comp Hinv Hk Hkl Hf Hr) as (i & t' & log' & E & ? & ? & ? & ? & ? & ? & ?).
  exists i, t', log'. split_and!; done || lia.
Qed.

Lemma value_insert_refines_witness :
  ∃ i t' log', ValueTable_write_insert_plan zeros key2 short_value true one_value = (Ok i, (t', log')) ∧
    1 ≤ i < filled t' ∧ one_map !! i = None ∧ shape t' = shape one_value.1 ∧ frame t' one_value.2 log' ∧
    table_inv t' log' 26 (<[i := mkVal 1 (key_bytes key2) short_value true]> one_map).
Proof.
  apply (value_insert_refines zeros one_value.1 one_value.2 26 one_map key2 short_value true).
  - apply zeros_length.
  - apply one_value_inv.
  - reflexivity.
  - reflexivity.
  - unfold fits. vm_compute. lia.
  - unfold room. vm_compute. reflexivity.
Defined.

(** C12. Replacing the value at an address keeps the address and changes that value only,
    also when the new value needs more or fewer slots than the old one. *)
Theorem value_replace_refines junk t log kl vals i v key value comp :
  length junk = MAX_ENTRY_BUF_SIZE → table_inv t log kl vals → vals !! i = Some v →
  wf_key key → encoded_size key = kl → fits t key value → room t (stored_size t key value) →
  ∃ t' log', ValueTable_write_replace_plan junk i key value comp (t, log) = (Ok tt, (t', log')) ∧
    shape t' = shape t ∧ frame t' log log' ∧
    table_inv t' log' kl (<[i := mkVal 1 (key_bytes key) value comp]> vals).
Proof.
  intros Hj Hinv Hv Hk Hkl Hf Hr.
  destruct (replace_spec junk Hj log i v key value comp Hinv Hv Hk Hkl Hf Hr) as (t' & log' & E & _ & ? & ? & _ & ?).
  exists t', log'. auto.
Qed.

Lemma value_replace_refines_witness :
  ∃ t' log', ValueTable_write_replace_plan zeros 1 key1 (replicate 3 Byte.x05) true one_value = (Ok tt, (t', log')) ∧
    shape t' = shape one_value.1 ∧ frame t' one_value.2 log' ∧
    table_inv t' log' 26 (<[1 := mkVal 1 (key_bytes key1) (replicate 3 Byte.x05) true]> one_map).
Proof.
  apply (value_replace_refines zeros one_value.1 one_value.2 26 one_map 1 (mkVal 1 (key_bytes key1) short_value false)).
  - apply zeros_length.
  - apply one_value_inv.
  - reflexivity.
  - reflexivity.
  - reflexivity.
  - unfold fits. vm_compute. lia.
  - unfold room. vm_compute. reflexivity.
Defined.

(** C13. Removing the value at an address frees all its slots: the address is no longer mapped,
    no other value changes, the table does not grow, and the slots are on the free list. *)
Theorem value_remove_refines junk t log kl vals i v :
  length junk = MAX_ENTRY_BUF_SIZE → table_inv t log kl vals → vals !! i = Some v →
  ∃ t' log', ValueTable_write_remove_plan junk i (t, log) = (Ok tt, (t', log')) ∧
    filled t' = filled t ∧ shape t' = shape t ∧ frame t' log log' ∧ table_inv t' log' kl (delete i vals).
Proof.
  intros Hj Hinv Hv.
  destruct (remove_spec junk Hj log i v Hinv Hv) as (t' & log' & E & ? & ? & ? & ? & ?). exists t', log'. auto.
Qed.

Lemma value_remove_refines_witness :
  ∃ t' log', ValueTable_write_remove_plan zeros 1 one_value = (Ok tt, (t', log')) ∧
    filled t' = filled one_value.1 ∧ shape t' = shape one_value.1 ∧ frame t' one_value.2 log' ∧ table_inv t' log' 26 (delete 1 one_map).
Proof.
  apply (value_remove_refines zeros one_value.1 one_value.2 26 one_map 1 (mkVal 1 (key_bytes key1) short_value false)).
  - apply zeros_length.
  - apply one_value_inv.
  - reflexivity.
Defined.

(** ** Reference counters *)

(** C18. A reference adds one to the counter, up to the value [LOCKED_REF] where the counter
    sticks; nothing else changes. *)
Theorem value_inc_ref_refines junk t log kl vals i v :
  length junk = MAX_ENTRY_BUF_SIZE → table_inv t log kl vals → ref_counted t = true → vals !! i = Some v →
  ∃ log', write_inc_ref junk i (t, log) = (Ok tt, (t, log')) ∧
    frame t log log' ∧ table_inv t log' kl (<[i := set_rc (inc (v_rc v)) v]> vals).
Proof.
  intros Hj Hinv Hrc Hv. destruct (inc_ref_spec junk Hj log i v Hinv Hrc Hv) as (log' & E & ? & ?). eauto.
Qed.

Lemma value_inc_ref_refines_witness :
  ∃ log', write_inc_ref zeros 1 one_value = (Ok tt, (one_value.1, log')) ∧
    frame one_value.1 one_value.2 log' ∧
    table_inv one_value.1 log' 26 (<[1 := mkVal 2 (key_bytes key1) short_value false]> one_map).
Proof.
  apply (value_inc_ref_refines zeros one_value.1 one_value.2 26 one_map 1 (mkVal 1 (key_bytes key1) short_value false)).
  - apply zeros_length.
  - apply one_value_inv.
  - reflexivity.
  - reflexivity.
Defined.

(** C17. Dropping a reference takes one from the counter unless it is locked, and removes the
    value when the last reference goes; the result tells whether the value is still there. *)
Theorem value_dec_ref_refines junk t log kl vals i v :
  length junk = MAX_ENTRY_BUF_SIZE → table_inv t log kl vals → ref_counted t = true → vals !! i = Some v →
  ∃ t' log', write_dec_ref junk i (t, log) = (Ok (bool_decide (dec (v_rc v) ≠ 0)), (t', log')) ∧
    shape t' = shape t ∧ frame t' log log' ∧
    table_inv t' log' kl (if bool_decide (dec (v_rc v) = 0) then delete i vals
                          else <[i := set_rc (dec (v_rc v)) v]> vals).
Proof.
  intros Hj Hinv Hrc Hv. destruct (dec_ref_spec junk Hj log i v Hinv Hrc Hv) as (t' & log' & E & _ & ? & ? & _ & ?).
  exists t', log'. auto.
Qed.

Lemma value_dec_ref_refines_witness :
  ∃ t' log', write_dec_ref zeros 1 one_value = (Ok false, (t', log')) ∧
    shape t' = shape one_value.1 ∧ frame t' one_value.2 log' ∧ table_inv t' log' 26 (delete 1 one_map).
Proof.
  apply (value_dec_ref_refines zeros one_value.1 one_value.2 26 one_map 1 (mkVal 1 (key_bytes key1) short_value false)).
  - apply zeros_length.
  - apply one_value_inv.
  - reflexivity.
  - reflexivity.
Defined.

(** ** Enacting *)
(** Enacting a logged entry of a value table: the reader advances by exactly the entry, the
    file grows as far as it has to, and the table holds the same values once the overlay
    forgets the entry (or keeps a later one for the same slot). *)
Theorem value_enact_keeps_values t o o' kl vals index c r rest :
  table_inv t o kl vals → wf_slot t c → file_ok (entry_size t) (vt_file t) → 1 ≤ index →
  (index + GROW_SIZE_BYTES / entry_size t) * entry_size t < 2 ^ 64 →
  rd_stream r = enc c ++ rest → cleared o o' (vt_id t) index (enc c) →
  ∃ t' r', ValueTable_enact_plan index (t, r) = (Ok tt, (t', r')) ∧ rd_stream r' = rest ∧
    file_ok (entry_size t) (vt_file t') ∧ table_inv t' o' kl vals.
Proof.
  intros Hinv Hc Hf Hi Hroom Hs Hcl.
  assert (Ht : wf_table t) by (destruct Hinv as (?&?&?&Hst); apply Hst).
  destruct (enact_spec t Ht Hf index c rest r Hc Hi Hroom Hs) as (f' & -> & Hf' & Hr & Hx).
  eexists _, _. split; [done|]. split_and!; [by apply consume_stream|done|].
  by eapply enact_inv.
Qed.

Definition one_overlay : LogOverlays := end_record_overlays (change one_value.2) LogOverlays_default.
Definition one_slot : slotc := SPlain false (le_bytes 4 1 ++ key_bytes key1 ++ short_value).

Lemma one_overlay_inv : table_inv one_value.1 one_overlay 26 one_map.
Proof. refine (table_inv_view _ one_value.2 _ _ _ _ one_value_inv). intros j. apply end_record_view. Qed.

Lemma value_enact_keeps_values_witness :
  ∃ t' r', ValueTable_enact_plan 1 (one_value.1, LogReader_new (enc one_slot) false) = (Ok tt, (t', r')) ∧
    rd_stream r' = [] ∧ file_ok 64 (vt_file t') ∧ table_inv t' LogOverlays_default 26 one_map.
Proof.
  apply (value_enact_keeps_values one_value.1 one_overlay LogOverlays_default 26 one_map 1 one_slot).
  - apply one_overlay_inv.
  - vm_compute. lia.
  - vm_compute. split; congruence.
  - lia.
  - vm_compute. reflexivity.
  - reflexivity.
  - split; [|right; split; vm_compute; reflexivity].
    intros j Hj. unfold one_overlay. simpl. rewrite !lookup_value_bind, lookup_extend_tables.
    change (local_values (change one_value.2)) with ({[ 17 := {[ 1 := (1, enc one_slot) ]} ]} : gmap Z ValueLogOverlay).
    change (vt_id one_value.1) with 17. rewrite lookup_singleton_eq. simpl.
    by rewrite lookup_singleton_ne by auto.
Defined.

(** ** The header *)
(** C19. What [complete_plan] logs as entry 0 when the allocation state has changed, once
    enacted, is what [refresh_metadata] (after a replay) and [open] (after a restart) read:
    the same number of slots and the same head of the free list. *)
Theorem value_header_roundtrip t log t2 r rest kl vals :
  table_inv t log kl vals → dirty_header t = true →
  entry_size t2 = entry_size t → multipart t2 = multipart t → wf_table t2 →
  file_ok (entry_size t2) (vt_file t2) →
  ∃ h log', ValueTable_complete_plan (t, log)
      = (Ok tt, (mkTable (vt_id t) (entry_size t) (vt_file t) (filled t) (last_removed t) false
                   (multipart t) (ref_counted t) (db_version t), log')) ∧
    value_entry log' (vt_id t) 0 = Some h ∧
    (∀ j, j ≠ 0 → value_entry log' (vt_id t) j = value_entry log (vt_id t) j) ∧
    (rd_stream r = h ++ rest → ∃ f r',
      ValueTable_enact_plan 0 (t2, r) = (Ok tt, (set_file f t2, r')) ∧ rd_stream r' = rest ∧
      (∃ t3, ValueTable_refresh_metadata (set_file f t2) = Ok t3 ∧
        filled t3 = filled t ∧ last_removed t3 = last_removed t) ∧
      (∃ t4, ValueTable_open (tf_file f) (vt_id t2) (if multipart t2 then None else Some (entry_size t2))
               (ref_counted t2) (db_version t2) = Ok t4 ∧
        filled t4 = filled t ∧ last_removed t4 = last_removed t)).
Proof.
  intros (H & slots & fl & Hst) Hd He Hm Ht2 Hf2.
  pose proof (ts_wf Hst) as Ht. pose proof (wf_filled _ Ht) as Hfi. pose proof (wf_es _ Ht) as Hes.
  pose proof (wf_room _ Ht) as Hroom.
  assert (Hlr : 0 ≤ last_removed t < filled t).
  { destruct (ts_free Hst) as [|? ? ? Hi]; [lia|]. apply (ts_repr Hst) in Hi. lia. }
  destruct (header_fields (filled t) (last_removed t)) as (Hhl & Hhf & Hhr); [unfold in_range; nia..|].
  eexists _, _. split; [|split; [apply value_entry_insert_eq|split]].
  - unfold ValueTable_complete_plan. mrun. change (id (t, log)) with (t, log). cbv beta iota. by rewrite Hd.
  - intros j Hj. apply value_entry_insert_ne. auto.
  - set (h := Header_set_filled _ _) in *. intros Hs.
    destruct (enact_grow t2 Ht2 Hf2 0 r) as (f & _ & Hf & _ & Hlt & ->); [lia| |].
    { simpl. rewrite Z.mul_comm. pose proof (wf_es _ Ht2).
      pose proof (Z.mul_div_le GROW_SIZE_BYTES (entry_size t2)). unfold GROW_SIZE_BYTES in *. lia. }
    rewrite bool_decide_true by done.
    mstep (log_read_app (set_file f t2) 16 h rest r Hs (eq_sym Hhl)).
    pose proof (es_nat_eq _ Ht2) as [Hesn _].
    destruct (write_file_spec t2 Ht2 f h 0 (consume h r)) as (f' & -> & Hf' & [rest' Hr] & _); [done|lia|lia|lia|].
    exists f', (consume h r). split; [done|]. split; [by apply consume_stream|].
    apply (TableFile_read_at_shorter _ 16) in Hr; [|lia|lia].
    rewrite take_app_length' in Hr by done. change (0 * entry_size t2) with 0 in Hr. split.
    + unfold ValueTable_refresh_metadata. simpl vt_file. destruct (tf_file f') as [l|] eqn:El.
      * rewrite Hr. simpl. eexists. split; [done|]. simpl. rewrite Hhf, Hhr.
        by rewrite bool_decide_false by lia.
      * unfold TableFile_read_at in Hr. by rewrite El in Hr.
    + unfold TableFile_read_at in Hr. destruct (tf_file f') as [l|] eqn:El; [|done].
      unfold ValueTable_open. pose proof (wf_multi _ Ht2) as Hmu. pose proof (wf_es _ Ht2).
      assert (E : match (if multipart t2 then None else Some (entry_size t2)) with
         Some s => (false, s) | None => (true, MULTIPART_ENTRY_SIZE) end = (multipart t2, entry_size t2)).
      { destruct (multipart t2); [|done]. by rewrite Hmu. }
      rewrite E. unfold MIN_ENTRY_SIZE, MAX_ENTRY_SIZE. rewrite !bool_decide_false by lia. cbv beta iota.
      change (false || false) with false. cbv beta iota.
      unfold read_exact_at in Hr. case_decide as Hle; [|done]. simpl Z.to_nat in Hr. rewrite drop_0 in Hr.
      unfold TableFile_open. rewrite bool_decide_false by (intros ->; simpl in Hle; lia). cbv zeta. simpl tf_file.
      cbv iota. unfold read_exact. rewrite decide_True by lia. injection Hr as ->. simpl.
      rewrite Hhf, Hhr. rewrite (bool_decide_false (filled t = 0)) by lia.
      rewrite bool_decide_false by lia. eexists. split; [done|]. done.
Qed.

Lemma value_header_roundtrip_witness :
  ∃ h log', value_entry log' 17 0 = Some h ∧
    ∃ f r', ValueTable_enact_plan 0 (fresh_table (Some 64) true, LogReader_new h false)
            = (Ok tt, (set_file f (fresh_table (Some 64) true), r')) ∧
      ∃ t4, ValueTable_open (tf_file f) 17 (Some 64) true 8 = Ok t4 ∧ filled t4 = 2 ∧ last_removed t4 = 0.
Proof.
  set (h := Header_set_filled 2 (Header_set_last_removed 0 Header_default)).
  destruct (value_header_roundtrip one_value.1 one_value.2 (fresh_table (Some 64) true) (LogReader_new h false)
    [] 26 one_map) as (h' & log' & E & Eh & _ & Hr).
  - apply one_value_inv.
  - reflexivity.
  - reflexivity.
  - reflexivity.
  - split; vm_compute; intuition congruence.
  - vm_compute. split; congruence.
  - assert (h' = h) as ->.
    { assert (El : log' = (ValueTable_complete_plan one_value).2.2).
      { change one_value with (one_value.1, one_value.2). by rewrite E. }
      rewrite El in Eh. vm_compute in Eh |- *. congruence. }
    exists h, log'. split; [exact Eh|].
    destruct (Hr (eq_sym (app_nil_r h))) as (f & r' & E1 & _ & _ & t4 & E4 & Hf & Hl).
    exists f, r'. split; [exact E1|]. exists t4. split; [exact E4|]. split; [exact Hf|exact Hl].
Defined.

(** C32. Values of more than one slot written by version 4 of the format cannot be read: the
    head of such a value has the marker [MULTIHEAD_V4], which [is_multi] accepts for that
    version but the test for the head of a value does not, so every read answers that there is
    no value. *)
Theorem value_v4_head_not_found `{HL : LogQuery L} junk t (log : L) key i b :
  multipart t = true → db_version t = 4 → load t (es_nat t) junk i log = Ok b →
  take SIZE_SIZE b = MULTIHEAD_V4 →
  is_multi (db_version t) (mkEntry 0 b) = true ∧ ValueTable_get junk t key i log = Ok None.
Proof.
  intros Hm Hv Hl Hb. split.
  - unfold is_multi, is_multihead_v4, marker. simpl e_buf. rewrite Hb, Hv.
    rewrite !bool_decide_true by done. by rewrite !orb_true_r.
  - unfold ValueTable_get, query, for_parts, chain_fuel. cbn [for_parts_loop].
    rewrite Hl, Hm. cbv beta iota delta [mbind outcome_bind].
    unfold is_tombstone, is_multihead, is_multihead_compressed, marker. simpl e_buf. by rewrite Hb.
Qed.

Definition v4_entry : bytes := MULTIHEAD_V4 ++ le_bytes 8 2 ++ replicate 4086 Byte.x01.
Definition v4_table : ValueTable := mkTable 17 4096 (mkFile None 0) 3 0 false true false 4.

Lemma value_v4_head_not_found_witness :
  ValueTable_get zeros v4_table NoHash 1 (insert_value 17 1 v4_entry fresh_log) = Ok None.
Proof.
  refine (proj2 (value_v4_head_not_found zeros v4_table (insert_value 17 1 v4_entry fresh_log) NoHash 1
    (copy_prefix v4_entry zeros) _ _ _ _)).
  - reflexivity.
  - reflexivity.
  - unfold load, log_value. rewrite value_entry_insert_eq. reflexivity.
  - vm_compute. reflexivity.
Defined.
