(* ===== verification/Compress.v ===== *)
(** * Compression (src/src/compress.rs)

    The choice of a compressor.  The functions of the crates lz4 and snap are parameters; what
    the database relies on, that decompressing what was compressed gives it back, is the class
    [CompressorsOk]. *)

From S2P Require Import Prelude.
From Stdlib Require Strings.Ascii Strings.String.

Inductive CompressionType := NoCompression | Lz4 | Snappy.
#[export] Instance CompressionType_eq_dec : EqDecision CompressionType.
Proof. solve_decision. Defined.

(** The crates: compression returns bytes, decompression fails on bad input. *)
Class Compressors := {
  lz4_compress : bytes → bytes;
  lz4_decompress : bytes → option bytes;
  snap_compress : bytes → bytes;
  snap_decompress : bytes → option bytes;
}.
Class CompressorsOk (C : Compressors) : Prop := {
  lz4_ok : ∀ b, lz4_decompress (lz4_compress b) = Some b;
  snap_ok : ∀ b, snap_decompress (snap_compress b) = Some b;
}.

Record Compress := mkCompress { c_inner : CompressionType; threshold : Z }.
Definition Compress_new (kind : CompressionType) (threshold : Z) : Compress := mkCompress kind threshold.
Definition NO_COMPRESSION : Compress := mkCompress NoCompression u32_max.

Definition CompressionType_as_u8 (c : CompressionType) : Z :=
  match c with NoCompression => 0 | Lz4 => 1 | Snappy => 2 end.
Definition CompressionType_from_u8 (z : Z) : outcome CompressionType :=
  if bool_decide (z = 0) then Ok NoCompression
  else if bool_decide (z = 1) then Ok Lz4
  else if bool_decide (z = 2) then Ok Snappy else Panic.

(** [str::to_lowercase] on ASCII text. *)
Definition ascii_lower (c : Ascii.ascii) : Ascii.ascii :=
  let n := Ascii.nat_of_ascii c in
  if decide (65 ≤ n ≤ 90)%nat then Ascii.ascii_of_nat (n + 32) else c.
Fixpoint to_lowercase (s : string) : string :=
  match s with
  | String.EmptyString => String.EmptyString
  | String.String c s' => String.String (ascii_lower c) (to_lowercase s')
  end.
Definition CompressionType_from_str (s : string) : outcome CompressionType :=
  let s := to_lowercase s in
  if bool_decide (s = "none"%string) then Ok NoCompression
  else if bool_decide (s = "lz4"%string) then Ok Lz4
  else if bool_decide (s = "snappy"%string) then Ok Snappy
  else Err Compression.

Definition Compress_compress `{Compressors} (c : Compress) (buf : bytes) : bytes :=
  match c_inner c with
  | NoCompression => buf
  | Lz4 => lz4_compress buf
  | Snappy => snap_compress buf
  end.

Definition Compress_decompress `{Compressors} (c : Compress) (buf : bytes) : outcome bytes :=
  match c_inner c with
  | NoCompression => Ok buf
  | Lz4 => match lz4_decompress buf with Some b => Ok b | None => Err Compression end
  | Snappy => match snap_decompress buf with Some b => Ok b | None => Err Compression end
  end.

Lemma compress_roundtrip `{CompressorsOk} c b : Compress_decompress c (Compress_compress c b) = Ok b.
Proof. destruct c as [[] ?]; unfold Compress_decompress, Compress_compress; simpl; by rewrite ?lz4_ok, ?snap_ok. Qed.

Lemma compression_u8_roundtrip c : CompressionType_from_u8 (CompressionType_as_u8 c) = Ok c.
Proof. by destruct c. Qed.

(** A compressor for concrete examples: a run of one byte is stored as its length. *)
Definition toy_compress (b : bytes) : bytes :=
  match b with
  | x :: _ =>
      if bool_decide (b = replicate (length b) x) && bool_decide (Z.of_nat (length b) < 2 ^ 64)
      then Byte.x01 :: x :: le_bytes 8 (Z.of_nat (length b)) else Byte.x00 :: b
  | [] => [Byte.x00]
  end.
Definition toy_decompress (b : bytes) : option bytes :=
  match b with
  | Byte.x00 :: b' => Some b'
  | Byte.x01 :: x :: n => Some (replicate (Z.to_nat (le_val n)) x)
  | _ => None
  end.
Definition toy : Compressors := {|
  lz4_compress := toy_compress; lz4_decompress := toy_decompress;
  snap_compress := toy_compress; snap_decompress := toy_decompress |}.

Lemma toy_roundtrip b : toy_decompress (toy_compress b) = Some b.
Proof.
  unfold toy_compress. destruct b as [|x b]; [done|]. destruct (bool_decide _ && _) eqn:E; [|done].
  apply andb_prop in E as [E1 E2]. apply bool_decide_eq_true in E1, E2.
  unfold toy_decompress. rewrite le_val_bytes_small by (unfold in_range; lia).
  rewrite Nat2Z.id, <-E1. done.
Qed.
#[export] Instance toy_ok : CompressorsOk toy.
Proof. split; apply toy_roundtrip. Qed.
