(* ===== verification/Options.v ===== *)
(** * Options and the metadata file (src/src/options.rs)

    The metadata file keeps the version of the format, the salt of the key hashes and the
    options of every column as text.  The crate hex and the random number generator are
    parameters. *)

From Stdlib Require Import Ascii String.
From stdpp Require Import strings.
From S2P Require Import Prelude Compress.

Definition CURRENT_VERSION : Z := 8.
Definition LAST_SUPPORTED_VERSION : Z := 4.
Definition DEFAULT_COMPRESSION_THRESHOLD : Z := 4096.

Record ColumnOptions := mkColumnOptions {
  co_preimage : bool;
  co_uniform : bool;
  co_ref_counted : bool;
  co_compression : CompressionType;
  co_btree_index : bool;
}.
#[export] Instance CompressionType_eq_dec : EqDecision CompressionType.
Proof. solve_decision. Defined.
#[export] Instance ColumnOptions_eq_dec : EqDecision ColumnOptions.
Proof. solve_decision. Defined.

Record Options := mkOptions {
  op_columns : list ColumnOptions;
  op_sync_wal : bool;
  op_sync_data : bool;
  op_stats : bool;
  op_salt : option bytes;
  op_compression_threshold : gmap Z Z;
}.

Record Metadata := mkMetadata { md_salt : bytes; md_version : Z; md_columns : list ColumnOptions }.

Class Hex := { hex_encode : bytes → string; hex_decode : string → option bytes }.

(** ** Strings *)
Fixpoint string_forall (P : ascii → bool) (s : string) : bool :=
  match s with EmptyString => true | String c s' => P c && string_forall P s' end.

(** [str::split] on a character. *)
Fixpoint split_char (sep : ascii) (s : string) : list string :=
  match s with
  | EmptyString => [EmptyString]
  | String c s' =>
      if decide (c = sep) then EmptyString :: split_char sep s'
      else match split_char sep s' with
           | l :: ls => String c l :: ls
           | [] => [String c EmptyString]
           end
  end.

(** [str::split] on a string: after a match the rest of the separator is skipped. *)
Fixpoint split_go (sep : string) (skip : nat) (acc s : string) : list string :=
  match s with
  | EmptyString => [acc]
  | String c s' =>
      match skip with
      | S k => split_go sep k acc s'
      | O =>
          if String.prefix sep s then acc :: split_go sep (pred (String.length sep)) EmptyString s'
          else split_go sep 0 (acc +:+ String c EmptyString) s'
      end
  end.
Definition split_str (sep s : string) : list string := split_go sep 0 EmptyString s.

Fixpoint join (sep : string) (l : list string) : string :=
  match l with
  | [] => EmptyString
  | [s] => s
  | s :: l' => s +:+ sep +:+ join sep l'
  end.

Definition newline : ascii := Ascii.ascii_of_nat 10.
Definition return_char : ascii := Ascii.ascii_of_nat 13.

(** [BufRead::lines]: a line end is "\n" or "\r\n", and the last line may have none. *)
Fixpoint strip_return (s : string) : string :=
  match s with
  | EmptyString => EmptyString
  | String c EmptyString => if decide (c = return_char) then EmptyString else s
  | String c s' => String c (strip_return s')
  end.
Definition drop_last_empty (l : list string) : list string :=
  match last l with Some EmptyString => removelast l | _ => l end.
Definition lines (s : string) : list string := strip_return <$> drop_last_empty (split_char newline s).

(** Numbers in decimal. *)
Definition digit (z : Z) : ascii := Ascii.ascii_of_nat (48 + Z.to_nat z).
Definition digit_val (c : ascii) : option Z :=
  let n := Z.of_nat (Ascii.nat_of_ascii c) - 48 in
  if bool_decide (0 ≤ n < 10) then Some n else None.
Fixpoint print_go (fuel : nat) (z : Z) (acc : string) : string :=
  match fuel with
  | O => acc
  | S fuel' =>
      let acc := String (digit (z mod 10)) acc in
      if bool_decide (z < 10) then acc else print_go fuel' (z / 10) acc
  end.
(** A number below 2^64 has at most 20 digits. *)
Definition print (z : Z) : string := print_go 20 z EmptyString.

Fixpoint parse_digits (max acc : Z) (s : string) : option Z :=
  match s with
  | EmptyString => Some acc
  | String c s' =>
      match digit_val c with
      | Some d => if bool_decide (acc * 10 + d ≤ max) then parse_digits max (acc * 10 + d) s' else None
      | None => None
      end
  end.
(** [FromStr] of the unsigned integers: an optional plus sign and at least one digit. *)
Definition parse_uint (max : Z) (s : string) : option Z :=
  match s with
  | EmptyString => None
  | String c s' =>
      if decide (c = "+"%char) then match s' with EmptyString => None | _ => parse_digits max 0 s' end
      else parse_digits max 0 s
  end.
Definition print_bool (b : bool) : string := if b then "true" else "false".
Definition parse_bool (s : string) : option bool :=
  if decide (s = "true") then Some true else if decide (s = "false") then Some false else None.

(** ** Columns *)
Definition as_string (o : ColumnOptions) : string :=
  "preimage: " +:+ print_bool (co_preimage o) +:+ ", uniform: " +:+ print_bool (co_uniform o)
  +:+ ", refc: " +:+ print_bool (co_ref_counted o) +:+ ", compression: "
  +:+ print (CompressionType_as_u8 (co_compression o)) +:+ ", ordered: " +:+ print_bool (co_btree_index o).

Definition ColumnOptions_is_valid (o : ColumnOptions) : bool := negb (co_ref_counted o && negb (co_preimage o)).

(** The pairs "name: value" of a line; a later pair replaces an earlier one. *)
Definition parse_pairs (s : string) : gmap string string :=
  foldl (λ m p, match split_str ": " p with k :: v :: _ => <[k := v]> m | _ => m end) ∅ (split_str ", " s).

(** [None] is a value the caller rejects; [u8::into] panics on an unknown compression. *)
Definition from_string (s : string) : outcome (option ColumnOptions) :=
  match split_str "sizes: " s with
  | [] => Ok None
  | vals :: _ =>
      let vals := parse_pairs vals in
      match vals !! "preimage" ≫= parse_bool, vals !! "uniform" ≫= parse_bool, vals !! "refc" ≫= parse_bool with
      | Some preimage, Some uniform, Some ref_counted =>
          let compression := default 0 (vals !! "compression" ≫= parse_uint 255) in
          let btree_index := default false (vals !! "ordered" ≫= parse_bool) in
          compression ← CompressionType_from_u8 compression;
          Ok (Some (mkColumnOptions preimage uniform ref_counted compression btree_index))
      | _, _, _ => Ok None
      end
  end.

Definition ColumnOptions_default : ColumnOptions := mkColumnOptions false false false NoCompression false.

Definition Options_with_columns (num_columns : Z) : Options :=
  mkOptions (replicate (Z.to_nat num_columns) ColumnOptions_default) true true true None ∅.
Definition Options_is_valid (o : Options) : bool := forallb ColumnOptions_is_valid (op_columns o).

(** ** The metadata file *)
Section metadata.
Context `{Hex}.

Fixpoint column_lines (i : Z) (l : list ColumnOptions) : list string :=
  match l with
  | [] => []
  | o :: l' => ("col" +:+ print i +:+ "=" +:+ as_string o) :: column_lines (i + 1) l'
  end.
Definition write_metadata_file_with_version (o : Options) (salt : bytes) (version : option Z) : string :=
  join (String newline EmptyString)
    (("version=" +:+ print (default CURRENT_VERSION version)) :: ("salt=" +:+ hex_encode salt)
     :: column_lines 0 (op_columns o)).

Record MetaState := mkMeta { ms_salt : option bytes; ms_version : Z; ms_columns : list ColumnOptions }.

Definition load_line (l : string) (st : MetaState) : outcome MetaState :=
  match split_char "=" l with
  | k :: v :: _ =>
      if decide (k = "version") then
        match parse_uint u32_max v with
        | Some version => Ok (mkMeta (ms_salt st) version (ms_columns st))
        | None => Err (Corruption "Bad version string")
        end
      else if decide (k = "salt") then
        match hex_decode v with
        | Some s => if bool_decide (length s = 32%nat) then Ok (mkMeta (Some s) (ms_version st) (ms_columns st)) else Panic
        | None => Err (Corruption "Bad salt string")
        end
      else if String.prefix "col" k then
        col ← from_string v;
        match col with
        | Some col => Ok (mkMeta (ms_salt st) (ms_version st) (ms_columns st ++ [col]))
        | None => Err (Corruption "Bad column metadata")
        end
      else Ok st
  | _ => Err (Corruption "Bad metadata")
  end.
Fixpoint load_lines (ls : list string) (st : MetaState) : outcome MetaState :=
  match ls with
  | [] => Ok st
  | l :: ls' => st ← load_line l st; load_lines ls' st
  end.

Definition load_metadata_file (file : option string) : outcome (option Metadata) :=
  match file with
  | None => Ok None
  | Some file =>
      st ← load_lines (lines file) (mkMeta None 0 []);
      if bool_decide (ms_version st < LAST_SUPPORTED_VERSION)
      then Err (InvalidConfiguration "Unsupported database version")
      else match ms_salt st with
           | Some salt => Ok (Some (mkMetadata salt (ms_version st) (ms_columns st)))
           | None => Err (InvalidConfiguration "Missing salt value")
           end
  end.

Fixpoint first_mismatch (i : Z) (a b : list ColumnOptions) : option Z :=
  match a, b with
  | x :: a', y :: b' => if decide (x = y) then first_mismatch (i + 1) a' b' else Some i
  | _, _ => None
  end.

(** The metadata, and the file if it is written; [random] is the salt of a new database. *)
Definition load_and_validate_metadata (o : Options) (create : bool) (random : bytes) (file : option string)
    : outcome (Metadata * option string) :=
  meta ← load_metadata_file file;
  match meta with
  | Some meta =>
      if negb (bool_decide (length (md_columns meta) = length (op_columns o)))
      then Err (InvalidConfiguration "Column config mismatch")
      else match first_mismatch 0 (md_columns meta) (op_columns o) with
           | Some c => Err (IncompatibleColumnConfig c "Column config mismatch")
           | None => Ok (meta, file)
           end
  | None =>
      if create then
        let s := default random (op_salt o) in
        Ok (mkMetadata s CURRENT_VERSION (op_columns o), Some (write_metadata_file_with_version o s None))
      else Err DatabaseNotFound
  end.
End metadata.

(** [Db::add_column]: open the database, append the column, write the metadata again. *)
Definition add_column `{Hex} (o : Options) (new_column : ColumnOptions) (salt : bytes) : Options * string :=
  let o' := mkOptions (op_columns o ++ [new_column]) (op_sync_wal o) (op_sync_data o) (op_stats o) (op_salt o)
              (op_compression_threshold o) in
  (o', write_metadata_file_with_version o' salt (Some CURRENT_VERSION)).

(** ** Round trips *)
Lemma column_options_roundtrip o : from_string (as_string o) = Ok (Some o).
Proof. destruct o as [[] [] [] [] []]; vm_compute; reflexivity. Qed.

(** A character that separates neither lines nor a name from its value. *)
Definition plain_char (c : ascii) : bool :=
  bool_decide (c ≠ "="%char) && bool_decide (c ≠ newline) && bool_decide (c ≠ return_char).
Definition plain_string (s : string) : bool := string_forall plain_char s.

Class HexOk (H : Hex) : Prop := {
  hex_roundtrip : ∀ b, hex_decode (hex_encode b) = Some b;
  hex_plain : ∀ b, plain_string (hex_encode b) = true;
}.

Lemma str_app_assoc a b c : a +:+ b +:+ c = (a +:+ b) +:+ c.
Proof.
  induction a as [|x a IH]; [done|]. change (String x (a +:+ (b +:+ c)) = String x ((a +:+ b) +:+ c)). by rewrite IH.
Qed.

Lemma string_forall_app P a b : string_forall P (a +:+ b) = string_forall P a && string_forall P b.
Proof.
  induction a as [|c a IH]; [done|]. change (String c a +:+ b) with (String c (a +:+ b)). simpl. by rewrite IH, andb_assoc.
Qed.

Lemma string_forall_impl (P Q : ascii → bool) s :
  (∀ c, P c = true → Q c = true) → string_forall P s = true → string_forall Q s = true.
Proof. intros HPQ. induction s as [|c s IH]; simpl; [done|]. intros [H1 H2]%andb_prop. rewrite HPQ, IH; done. Qed.

Definition avoids (sep c : ascii) : bool := bool_decide (c ≠ sep).

Lemma split_char_plain sep s : string_forall (avoids sep) s = true → split_char sep s = [s].
Proof.
  induction s as [|c s IH]; simpl; [done|]. intros [Hc Hs]%andb_prop. apply bool_decide_eq_true in Hc.
  rewrite decide_False by done. by rewrite IH.
Qed.

Lemma split_char_app sep a b :
  string_forall (avoids sep) a = true → split_char sep (a +:+ String sep b) = a :: split_char sep b.
Proof.
  induction a as [|c a IH]; [intros _; change (EmptyString +:+ String sep b) with (String sep b); simpl; by rewrite decide_True|].
  change (String c a +:+ String sep b) with (String c (a +:+ String sep b)). simpl. intros [Hc Ha]%andb_prop.
  apply bool_decide_eq_true in Hc. rewrite decide_False by done. by rewrite IH.
Qed.

(** *** Lines *)
Lemma strip_return_plain s : string_forall (avoids return_char) s = true → strip_return s = s.
Proof.
  induction s as [|c s IH]; [done|]. simpl. intros [Hc Hs]%andb_prop. apply bool_decide_eq_true in Hc.
  destruct s as [|c' s]; [by rewrite decide_False|]. f_equal. by apply IH.
Qed.

Definition line_ok (l : string) : Prop :=
  l ≠ EmptyString ∧ string_forall (avoids newline) l = true ∧ string_forall (avoids return_char) l = true.

Lemma split_join ls : ls ≠ [] → Forall line_ok ls → split_char newline (join (String newline EmptyString) ls) = ls.
Proof.
  intros Hne Hls. induction Hls as [|l ls (_ & Hl & _) Hls IH]; [done|]. destruct ls as [|l' ls].
  - simpl. by apply split_char_plain.
  - change (join _ (l :: l' :: ls)) with (l +:+ String newline (join (String newline EmptyString) (l' :: ls))).
    rewrite split_char_app by done. by rewrite IH.
Qed.

Lemma lines_join ls : ls ≠ [] → Forall line_ok ls → lines (join (String newline EmptyString) ls) = ls.
Proof.
  intros Hne Hls. unfold lines. rewrite split_join by done.
  assert (E : drop_last_empty ls = ls).
  { unfold drop_last_empty. destruct (last ls) as [s|] eqn:El; [|done].
    apply last_Some in El as [l' ->]. apply Forall_app in Hls as [_ Hls]. apply Forall_singleton in Hls as [Hs _].
    by destruct s. }
  rewrite E. clear E Hne. induction Hls as [|l ls (_ & _ & Hr) Hls IH]; [done|]. rewrite fmap_cons, IH. f_equal.
  by apply strip_return_plain.
Qed.

(** *** Numbers *)
Lemma digit_val_digit d : 0 ≤ d < 10 → digit_val (digit d) = Some d.
Proof.
  intros Hd. assert (Hc : d ∈ [0;1;2;3;4;5;6;7;8;9]) by (rewrite !elem_of_cons; lia).
  rewrite !elem_of_cons in Hc. by repeat destruct Hc as [->|Hc]; [..|apply elem_of_nil in Hc].
Qed.

Lemma print_go_digits (P : ascii → bool) : (∀ d, 0 ≤ d < 10 → P (digit d) = true) →
  ∀ fuel z s, string_forall P s = true → string_forall P (print_go fuel z s) = true.
Proof.
  intros HP. induction fuel as [|fuel IH]; intros z s Hs; [done|]. cbn [print_go]. cbv zeta.
  assert (Hd : string_forall P (String (digit (z mod 10)) s) = true).
  { simpl. rewrite Hs, HP by (apply Z.mod_pos_bound; lia). done. }
  case_bool_decide; [done|]. by apply IH.
Qed.

Lemma print_go_cons fuel : ∀ z s, ∃ d s', 0 ≤ d < 10 ∧ print_go (S fuel) z s = String (digit d) s'.
Proof.
  induction fuel as [|fuel IH]; intros z s; pose proof (Z.mod_pos_bound z 10 ltac:(lia)).
  - simpl. case_bool_decide; eauto.
  - cbn [print_go]. cbv zeta. case_bool_decide; [eauto|]. apply (IH (z / 10)).
Qed.

Lemma parse_print_go max : ∀ fuel z s,
  0 ≤ z ≤ max → z < 10 ^ Z.of_nat fuel → (0 < fuel)%nat →
  parse_digits max 0 (print_go fuel z s) = parse_digits max z s.
Proof.
  induction fuel as [|fuel IH]; intros z s Hz Hf Hpos; [lia|]. cbn [print_go]. cbv zeta.
  pose proof (Z.mod_pos_bound z 10 ltac:(lia)) as Hm. pose proof (Z.div_mod z 10 ltac:(lia)) as Hdm.
  case_bool_decide as Hlt.
  - cbn [parse_digits]. rewrite digit_val_digit by done. rewrite Z.mod_small by lia. rewrite bool_decide_true by lia.
    f_equal.
  - rewrite IH.
    + cbn [parse_digits]. rewrite digit_val_digit by done. rewrite bool_decide_true by lia. f_equal. lia.
    + split; [apply Z.div_pos; lia|]. pose proof (Z.div_le_upper_bound z 10 max ltac:(lia)). lia.
    + apply Z.div_lt_upper_bound; [lia|]. rewrite Nat2Z.inj_succ, Z.pow_succ_r in Hf by lia. done.
    + destruct fuel; [|lia]. simpl in Hf. lia.
Qed.

Lemma parse_print max z : 0 ≤ z ≤ max → max < 2 ^ 64 → parse_uint max (print z) = Some z.
Proof.
  intros Hz Hmax. unfold print. destruct (print_go_cons 19 z EmptyString) as (d & s' & Hd & E).
  assert (Hp : parse_digits max 0 (print_go 20 z EmptyString) = Some z).
  { rewrite parse_print_go; [done|lia| |lia]. change (10 ^ Z.of_nat 20) with 100000000000000000000. lia. }
  rewrite E in Hp |- *. unfold parse_uint. rewrite decide_False; [done|].
  intros Hplus. pose proof (digit_val_digit d Hd) as Hv. by rewrite Hplus in Hv.
Qed.

Lemma print_plain z : plain_string (print z) = true.
Proof.
  apply print_go_digits; [|done]. intros d Hd. assert (Hc : d ∈ [0;1;2;3;4;5;6;7;8;9]) by (rewrite !elem_of_cons; lia).
  rewrite !elem_of_cons in Hc. by repeat destruct Hc as [->|Hc]; [..|apply elem_of_nil in Hc].
Qed.

(** *** The file *)
Lemma plain_avoids s :
  plain_string s = true → string_forall (avoids "="%char) s = true ∧
    string_forall (avoids newline) s = true ∧ string_forall (avoids return_char) s = true.
Proof.
  intros Hs. split_and!; (eapply string_forall_impl; [|exact Hs]); intros c [[H1 H2]%andb_prop H3]%andb_prop; done.
Qed.

Lemma named_line k v :
  plain_string k = true → plain_string v = true → k ≠ EmptyString →
  line_ok (k +:+ String "="%char v) ∧ split_char "="%char (k +:+ String "="%char v) = [k; v].
Proof.
  intros Hk Hv Hne. destruct (plain_avoids k Hk) as (K1 & K2 & K3). destruct (plain_avoids v Hv) as (V1 & V2 & V3). split.
  - split; [by destruct k|]. rewrite !string_forall_app. simpl. rewrite K2, K3, V2, V3. done.
  - rewrite split_char_app by done. by rewrite split_char_plain.
Qed.

Lemma as_string_plain o : plain_string (as_string o) = true.
Proof. destruct o as [[] [] [] [] []]; vm_compute; reflexivity. Qed.

Section roundtrip.
Context `{H : Hex} {HH : HexOk H}.

Lemma column_lines_ok l : ∀ i, Forall line_ok (column_lines i l).
Proof.
  induction l as [|o l IH]; intros i; cbn [column_lines]; constructor; [|done].
  destruct (named_line ("col" +:+ print i) (as_string o)) as [Hl _]; [|apply as_string_plain|done|].
  - unfold plain_string. rewrite string_forall_app. change (string_forall plain_char "col") with true. apply print_plain.
  - revert Hl. generalize (as_string o) as s. generalize (print i) as p. intros p s.
    by replace (("col" +:+ p) +:+ String "=" s) with ("col" +:+ p +:+ "=" +:+ s) by (by rewrite str_app_assoc).
Qed.

Lemma load_columns l : ∀ i st,
  load_lines (column_lines i l) st = Ok (mkMeta (ms_salt st) (ms_version st) (ms_columns st ++ l)).
Proof.
  induction l as [|o l IH]; intros i st; cbn [column_lines load_lines]; [by rewrite app_nil_r; destruct st|].
  assert (E : load_line ("col" +:+ print i +:+ "=" +:+ as_string o) st
    = Ok (mkMeta (ms_salt st) (ms_version st) (ms_columns st ++ [o]))).
  { unfold load_line. replace ("col" +:+ print i +:+ "=" +:+ as_string o) with (("col" +:+ print i) +:+ String "=" (as_string o))
      by (by rewrite str_app_assoc).
    destruct (named_line ("col" +:+ print i) (as_string o)) as [_ ->]; [|apply as_string_plain|done|].
    - unfold plain_string. rewrite string_forall_app. change (string_forall plain_char "col") with true. apply print_plain.
    - rewrite !decide_False by done. change (String.prefix "col" ("col" +:+ print i)) with (String.prefix "" (print i)).
      assert (Hp : ∀ s, String.prefix "" s = true) by (by intros []). rewrite Hp.
      by rewrite column_options_roundtrip. }
  rewrite E. cbn [mbind outcome_bind]. rewrite IH. simpl. by rewrite <-app_assoc.
Qed.
End roundtrip.

Lemma load_written `{Hex} o salt version :
  HexOk H → length salt = 32%nat → LAST_SUPPORTED_VERSION ≤ default CURRENT_VERSION version ≤ u32_max →
  load_metadata_file (Some (write_metadata_file_with_version o salt version))
  = Ok (Some (mkMetadata salt (default CURRENT_VERSION version) (op_columns o))).
Proof.
  intros HH Hs Hv. set (v := default CURRENT_VERSION version) in *. unfold load_metadata_file, write_metadata_file_with_version. fold v.
  destruct (named_line "version" (print v)) as [L1 S1]; [done|apply print_plain|done|].
  destruct (named_line "salt" (hex_encode salt)) as [L2 S2]; [done|apply hex_plain|done|].
  rewrite lines_join; [|done|apply Forall_cons; split; [exact L1|apply Forall_cons; split; [exact L2|apply column_lines_ok]]].
  assert (E1 : ∀ st, load_line ("version=" +:+ print v) st = Ok (mkMeta (ms_salt st) v (ms_columns st))).
  { intros st. unfold load_line. assert (S1' : split_char "=" ("version=" +:+ print v) = ["version"; print v]) by exact S1.
    rewrite S1'. rewrite decide_True by done. by rewrite parse_print by (unfold u32_max, LAST_SUPPORTED_VERSION in *; lia). }
  assert (E2 : ∀ st, load_line ("salt=" +:+ hex_encode salt) st = Ok (mkMeta (Some salt) (ms_version st) (ms_columns st))).
  { intros st. unfold load_line.
    assert (S2' : split_char "=" ("salt=" +:+ hex_encode salt) = ["salt"; hex_encode salt]) by exact S2.
    rewrite S2'. rewrite decide_False by done. rewrite decide_True by done. by rewrite hex_roundtrip, bool_decide_true. }
  cbn [load_lines]. rewrite E1. cbn [mbind outcome_bind]. rewrite E2. cbn [mbind outcome_bind]. rewrite load_columns.
  cbn [mbind outcome_bind ms_version ms_salt ms_columns].
  rewrite bool_decide_false by (unfold LAST_SUPPORTED_VERSION in *; lia). done.
Qed.

(** C35. The metadata file that is written for any options, salt and supported version is read
    back as exactly that version, that salt and those columns. *)
Theorem metadata_roundtrip `{Hex} o salt version :
  HexOk H → length salt = 32%nat → LAST_SUPPORTED_VERSION ≤ default CURRENT_VERSION version ≤ u32_max →
  load_metadata_file (Some (write_metadata_file_with_version o salt version))
  = Ok (Some (mkMetadata salt (default CURRENT_VERSION version) (op_columns o))).
Proof. apply load_written. Qed.

(** A hexadecimal code for the instances. *)
Definition nibble (z : Z) : ascii := ascii_of_nat (Z.to_nat (if bool_decide (z < 10) then 48 + z else 87 + z)).
Definition nibble_val (c : ascii) : option Z :=
  let n := Z.of_nat (nat_of_ascii c) in
  if bool_decide (48 ≤ n < 58) then Some (n - 48) else if bool_decide (97 ≤ n < 103) then Some (n - 87) else None.
Fixpoint toy_encode (b : bytes) : string :=
  match b with
  | [] => EmptyString
  | x :: b' => String (nibble (byte_val x / 16)) (String (nibble (byte_val x mod 16)) (toy_encode b'))
  end.
Fixpoint toy_decode (s : string) : option bytes :=
  match s with
  | EmptyString => Some []
  | String h (String l s') =>
      match nibble_val h, nibble_val l, toy_decode s' with
      | Some h, Some l, Some b => Some (byte_of (h * 16 + l) :: b)
      | _, _, _ => None
      end
  | _ => None
  end.
Definition toy_hex : Hex := {| hex_encode := toy_encode; hex_decode := toy_decode |}.

Lemma toy_hex_ok : HexOk toy_hex.
Proof.
  split; simpl; induction b as [|x b IH]; try done; cbn [toy_encode toy_decode plain_string string_forall].
  - by destruct x; cbn; rewrite IH.
  - unfold plain_string in IH. cbn [string_forall]. rewrite IH. by destruct x.
Qed.

Lemma metadata_roundtrip_witness :
  load_metadata_file (H := toy_hex)
    (Some (write_metadata_file_with_version (H := toy_hex) (Options_with_columns 2) (replicate 32 Byte.x2a) (Some 6)))
  = Ok (Some (mkMetadata (replicate 32 Byte.x2a) 6 [ColumnOptions_default; ColumnOptions_default])).
Proof.
  apply (metadata_roundtrip (H := toy_hex) (Options_with_columns 2) (replicate 32 Byte.x2a) (Some 6)).
  - apply toy_hex_ok.
  - reflexivity.
  - vm_compute. split; congruence.
Defined.
