(* ===== verification/Column.v ===== *)
(** * Columns (src/src/column.rs)

    A hash column is an index table, the index tables it is being rebuilt from, and 256 value
    tables of growing slot size, the last one for values of any length.  An operation on a key
    searches the indexes, checks the key stored with the value, and plans the changes of the
    value tables and the index in the log.

    The hash functions of the crates blake2 and siphasher are parameters ([Hashes]), as are the
    compressors ([Compressors]).  [get] and the plans mutate the atomics of the column, so they
    act on a state that holds the column. *)

From S2P Require Import Prelude IndexEntry IndexChunk Log Stats IndexTable ValueEntry File ValueTable Compress.

Definition MIN_INDEX_BITS : Z := 16.
Definition MAX_REINDEX_BATCH : nat := Z.to_nat 8192.

Definition SIZES : list Z := [
  32; 33; 34; 35; 36; 37; 38; 39; 40; 41; 42; 43; 44; 46; 47; 48; 50; 51; 52; 54; 55; 57; 58; 60;
  62; 63; 65; 67; 69; 71; 73; 75; 77; 79; 81; 83; 85; 88; 90; 93; 95; 98; 101; 103; 106; 109;
  112; 115; 119; 122; 125; 129; 132; 136; 140; 144; 148; 152; 156; 160; 165; 169; 174; 179; 183;
  189; 194; 199; 205; 210; 216; 222; 228; 235; 241; 248; 255; 262; 269; 276; 284; 292; 300; 308;
  317; 325; 334; 344; 353; 363; 373; 383; 394; 405; 416; 428; 439; 452; 464; 477; 490; 504; 518;
  532; 547; 562; 577; 593; 610; 627; 644; 662; 680; 699; 718; 738; 758; 779; 801; 823; 846; 869;
  893; 918; 943; 969; 996; 1024; 1052; 1081; 1111; 1142; 1174; 1206; 1239; 1274; 1309; 1345;
  1382; 1421; 1460; 1500; 1542; 1584; 1628; 1673; 1720; 1767; 1816; 1866; 1918; 1971; 2025; 2082;
  2139; 2198; 2259; 2322; 2386; 2452; 2520; 2589; 2661; 2735; 2810; 2888; 2968; 3050; 3134; 3221;
  3310; 3402; 3496; 3593; 3692; 3794; 3899; 4007; 4118; 4232; 4349; 4469; 4593; 4720; 4850; 4984;
  5122; 5264; 5410; 5559; 5713; 5871; 6034; 6200; 6372; 6548; 6729; 6916; 7107; 7303; 7506; 7713;
  7927; 8146; 8371; 8603; 8841; 9085; 9337; 9595; 9860; 10133; 10413; 10702; 10998; 11302; 11614;
  11936; 12266; 12605; 12954; 13312; 13681; 14059; 14448; 14848; 15258; 15681; 16114; 16560;
  17018; 17489; 17973; 18470; 18981; 19506; 20046; 20600; 21170; 21756; 22358; 22976; 23612;
  24265; 24936; 25626; 26335; 27064; 27812; 28582; 29372; 30185; 31020; 31878; 32760 ].

(** [Operation] of src/src/db.rs. *)
Inductive Operation (K V : Type) :=
  | OpSet (k : K) (v : V)
  | OpDereference (k : K)
  | OpReference (k : K).
Arguments OpSet {K V} k v.
Arguments OpDereference {K V} k.
Arguments OpReference {K V} k.
Definition Operation_key {K V} (op : Operation K V) : K :=
  match op with OpSet k _ => k | OpDereference k => k | OpReference k => k end.

Record HashColumn := mkColumn {
  hc_col : Z;
  hc_index : IndexTable;
  hc_value : list ValueTable;
  hc_queue : list IndexTable;
  hc_progress : Z;
  hc_preimage : bool;
  hc_uniform_keys : bool;
  hc_collect_stats : bool;
  hc_ref_counted : bool;
  hc_salt : bytes;
  hc_stats : ColumnStats;
  hc_compression : Compress;
  hc_db_version : Z;
}.

Definition set_stats (s : ColumnStats) (c : HashColumn) : HashColumn :=
  mkColumn (hc_col c) (hc_index c) (hc_value c) (hc_queue c) (hc_progress c) (hc_preimage c)
    (hc_uniform_keys c) (hc_collect_stats c) (hc_ref_counted c) (hc_salt c) s (hc_compression c)
    (hc_db_version c).
Definition set_values (v : list ValueTable) (c : HashColumn) : HashColumn :=
  mkColumn (hc_col c) (hc_index c) v (hc_queue c) (hc_progress c) (hc_preimage c)
    (hc_uniform_keys c) (hc_collect_stats c) (hc_ref_counted c) (hc_salt c) (hc_stats c)
    (hc_compression c) (hc_db_version c).
Definition set_indexes (i : IndexTable) (q : list IndexTable) (p : Z) (c : HashColumn) : HashColumn :=
  mkColumn (hc_col c) i (hc_value c) q p (hc_preimage c)
    (hc_uniform_keys c) (hc_collect_stats c) (hc_ref_counted c) (hc_salt c) (hc_stats c)
    (hc_compression c) (hc_db_version c).

(** ** Hashing of keys *)
Class Hashes := {
  blake2b_mac : bytes → bytes → bytes;          (* salt, key: 32 bytes *)
  siphash13_128 : bytes → bytes → Z * Z;        (* 16 bytes of salt, key: two 64-bit words *)
}.

Definition xor_bytes (a b : bytes) : bytes :=
  zip_with (λ x y, byte_of (Z.lxor (byte_val x) (byte_val y))) a b.

Definition hash_key `{Hashes} (key salt : bytes) (uniform : bool) (db_version : Z) : outcome bytes :=
  if uniform then
    if bool_decide (db_version ≤ 5) then slice key 0 32
    else if bool_decide (db_version ≤ 7) then
      key ← slice key 0 32; Ok (xor_bytes key salt)
    else
      salt16 ← slice salt 0 16;
      let '(h1, h2) := siphash13_128 salt16 key in
      rest ← slice key 16 (length key);
      if bool_decide (length rest = 16%nat)
      then Ok (le_bytes 8 h1 ++ le_bytes 8 h2 ++ rest) else Panic
  else Ok (blake2b_mac salt key).

(** ** The value tables of a column

    The plans for values are shared by hash and tree columns; they act on the tables, the log
    and, when they are collected, the statistics. *)
Record VState := mkVS { vs_tables : list ValueTable; vs_log : LogWriter; vs_stats : option ColumnStats }.

Definition on_table {A} (tier : nat) (m : M (ValueTable * LogWriter) A) : M VState A := λ s,
  match vs_tables s !! tier with
  | None => (Panic, s)
  | Some t =>
      let '(o, (t', log')) := m (t, vs_log s) in
      (o, mkVS (<[tier := t']> (vs_tables s)) log' (vs_stats s))
  end.
Definition upd_stats (f : ColumnStats → ColumnStats) : M VState unit :=
  modify (λ s, mkVS (vs_tables s) (vs_log s) (f <$> vs_stats s)).

Definition open_tables (files : nat → option bytes) (col : Z) (ref_counted : bool) (db_version : Z)
    : outcome (list ValueTable) :=
  foldr (λ tier rest,
      t ← ValueTable_open (files tier) (TableId_new col (Z.of_nat tier)) (SIZES !! tier) ref_counted db_version;
      ts ← rest; Ok (t :: ts))
    (Ok []) (seq 0 SIZE_TIERS).

Section column.
Context (x86_64 : bool) (junk : bytes).
Context `{Compressors}.

Definition get_value `{LogQuery L} (comp : Compress) (tables : list ValueTable) (key : TableKeyQuery)
    (address : Z) (log : L) : outcome (option (Z * bytes)) :=
  let size_tier := Address_size_tier address in
  match tables !! Z.to_nat size_tier with
  | None => Panic
  | Some t =>
      r ← query junk t key (Address_offset address) log;
      match r with
      | Some (value, compressed, _, _) =>
          value ← (if (compressed : bool) then Compress_decompress comp value else Ok value);
          Ok (Some (size_tier, value))
      | None => Ok None
      end
  end.

(** [t.value_size(key).map_or(false, |s| len <= s as usize)] *)
Definition holds (key : TableKey) (len : Z) (t : ValueTable) : bool :=
  match value_size t key with Some s => bool_decide (len ≤ s) | None => false end.

Definition Column_compress (comp : Compress) (key : TableKey) (value : bytes) (tables : list ValueTable)
    : option bytes * nat :=
  let '(len, result) :=
    if bool_decide (threshold comp < Z.of_nat (length value)) then
      let cvalue := Compress_compress comp value in
      if bool_decide (length cvalue < length value)%nat then (length cvalue, Some cvalue)
      else (length value, None)
    else (length value, None) in
  let target_tier :=
    list_find (λ t, holds key (Z.of_nat len) t = true) tables in
  (result, match target_tier with Some (i, _) => i | None => pred (length tables) end).

(** The value to store and whether it is compressed. *)
Definition stored_form (cval : option bytes) (val : bytes) : bytes * bool :=
  match cval with Some c => (c, true) | None => (val, false) end.

Definition fetch_size (comp : Compress) (key : TableKey) (address : Z) : M VState (Z * Z) := λ s,
  (match vs_tables s !! Z.to_nat (Address_size_tier address) with
   | None => Panic
   | Some t =>
       r ← ValueTable_size junk t key (Address_offset address) (vs_log s);
       let '(cur_size, compressed) := default (0, false) r in
       if (compressed : bool) then
         v ← ValueTable_get junk t key (Address_offset address) (vs_log s);
         match v with
         | None => Panic
         | Some (c, _) => u ← Compress_decompress comp c; Ok (cur_size, u32 (Z.of_nat (length u)))
         end
       else Ok (cur_size, cur_size)
   end, s).

Definition write_existing_value_plan {K} (comp : Compress) (preimage : bool) (key : TableKey) (address : Z)
    (change : Operation K bytes) (ref_counted : bool) : M VState (option PlanOutcome * option Z) :=
  let tier := Z.to_nat (Address_size_tier address) in
  let offset := Address_offset address in
  match change with
  | OpReference _ =>
      if ref_counted then
        _ ← on_table tier (write_inc_ref junk offset);
        _ ← upd_stats reference_increase;
        mret (Some Written, None)
      else mret (Some Skipped, None)
  | OpSet _ val =>
      if ref_counted then
        _ ← on_table tier (write_inc_ref junk offset); mret (Some Written, None)
      else if preimage then mret (Some Skipped, None)
      else
        s ← gets id;
        let '(cval, target_tier) := Column_compress comp key val (vs_tables s) in
        let '(cval, compressed) := stored_form cval val in
        _ ← (match vs_stats s with
             | None => mret tt
             | Some _ =>
                 '(cur_size, uncompressed) ← fetch_size comp key address;
                 upd_stats (replace_val cur_size uncompressed (u32 (Z.of_nat (length val)))
                              (u32 (Z.of_nat (length cval))))
             end);
        if bool_decide (tier = target_tier) then
          _ ← on_table target_tier (ValueTable_write_replace_plan junk offset key cval compressed);
          mret (Some Written, None)
        else
          _ ← on_table tier (ValueTable_write_remove_plan junk offset);
          new_offset ← on_table target_tier (ValueTable_write_insert_plan junk key cval compressed);
          mret (None, Some (Address_new new_offset (Z.of_nat target_tier)))
  | OpDereference _ =>
      s ← gets id;
      cur_size ← (match vs_stats s with
                  | None => mret None
                  | Some _ => r ← fetch_size comp key address; mret (Some r)
                  end);
      remove ← (if ref_counted then
                  kept ← on_table tier (write_dec_ref junk offset); mret (negb kept)
                else _ ← on_table tier (ValueTable_write_remove_plan junk offset); mret true);
      if (remove : bool) then
        _ ← (match cur_size with
             | Some (compressed_size, uncompressed_size) =>
                 upd_stats (remove_val uncompressed_size compressed_size)
             | None => mret tt
             end);
        mret (None, None)
      else mret (Some Written, None)
  end.

Definition write_new_value_plan (comp : Compress) (key : TableKey) (val : bytes) : M VState Z :=
  s ← gets id;
  let '(cval, target_tier) := Column_compress comp key val (vs_tables s) in
  let '(cval, compressed) := stored_form cval val in
  offset ← on_table target_tier (ValueTable_write_insert_plan junk key cval compressed);
  _ ← upd_stats (insert_val (u32 (Z.of_nat (length val))) (u32 (Z.of_nat (length cval))));
  mret (Address_new offset (Z.of_nat target_tier)).

(** ** Reading a key *)
Fixpoint get_in_index_loop `{LogQuery L} (fuel : nat) (c : HashColumn) (index : IndexTable) (key : bytes)
    (log : L) (entry : Z) (sub_index : nat) : outcome (option (Z * bytes)) :=
  match fuel with
  | O => NoFuel
  | S fuel' =>
      if Entry_is_empty entry then Ok None
      else
        let address := Entry_address entry (bits_of index) in
        v ← get_value (hc_compression c) (hc_value c) (QCheck (Partial key)) address log;
        match v with
        | Some result => Ok (Some result)
        | None =>
            '(entry, sub_index) ← IndexTable_get x86_64 index key (S sub_index) log;
            get_in_index_loop fuel' c index key log entry sub_index
        end
  end.

Definition get_in_index `{LogQuery L} (c : HashColumn) (key : bytes) (index : IndexTable) (log : L)
    : outcome (option (Z * bytes)) :=
  '(entry, sub_index) ← IndexTable_get x86_64 index key 0 log;
  get_in_index_loop (S CHUNK_ENTRIES) c index key log entry sub_index.

Fixpoint get_in_indexes `{LogQuery L} (c : HashColumn) (key : bytes) (l : list IndexTable) (log : L)
    : outcome (option (Z * bytes)) :=
  match l with
  | [] => Ok None
  | i :: l' =>
      r ← get_in_index c key i log;
      match r with Some x => Ok (Some x) | None => get_in_indexes c key l' log end
  end.

Definition HashColumn_get `{LogQuery L} (key : bytes) (log : L) : M HashColumn (option bytes) :=
  c ← gets id;
  r ← lift (get_in_indexes c key (hc_index c :: hc_queue c) log);
  match r with
  | Some (tier, value) =>
      _ ← (if hc_collect_stats c then
             s ← lift (stats_query_hit tier (hc_stats c)); modify (set_stats s)
           else mret tt);
      mret (Some value)
  | None =>
      _ ← (if hc_collect_stats c then modify (set_stats (stats_query_miss (hc_stats c))) else mret tt);
      mret None
  end.

Definition HashColumn_get_size `{LogQuery L} (key : bytes) (log : L) : M HashColumn (option Z) :=
  v ← HashColumn_get key log;
  mret ((λ v, u32 (Z.of_nat (length v))) <$> v).

(** ** Searching for the entry of a key *)
Fixpoint search_index_loop (fuel : nat) (tables : list ValueTable) (index : IndexTable) (key : bytes)
    (log : LogWriter) (entry : Z) (sub_index : nat) : outcome (option (IndexTable * nat * Z)) :=
  match fuel with
  | O => NoFuel
  | S fuel' =>
      if Entry_is_empty entry then Ok None
      else
        let address := Entry_address entry (bits_of index) in
        match tables !! Z.to_nat (Address_size_tier address) with
        | None => Panic
        | Some t =>
            has ← has_key_at junk t (Address_offset address) (Partial key) log;
            if (has : bool) then Ok (Some (index, sub_index, address))
            else
              '(entry, sub_index) ← IndexTable_get x86_64 index key (S sub_index) log;
              search_index_loop fuel' tables index key log entry sub_index
        end
  end.

Definition search_index (key : bytes) (index : IndexTable) (tables : list ValueTable) (log : LogWriter)
    : outcome (option (IndexTable * nat * Z)) :=
  '(entry, sub_index) ← IndexTable_get x86_64 index key 0 log;
  search_index_loop (S CHUNK_ENTRIES) tables index key log entry sub_index.

Fixpoint search_indexes (key : bytes) (l : list IndexTable) (tables : list ValueTable) (log : LogWriter)
    : outcome (option (IndexTable * nat * Z)) :=
  match l with
  | [] => Ok None
  | i :: l' =>
      r ← search_index key i tables log;
      match r with Some x => Ok (Some x) | None => search_indexes key l' tables log end
  end.

Definition search_all_indexes (key : bytes) (c : HashColumn) (log : LogWriter)
    : outcome (option (IndexTable * nat * Z)) :=
  search_indexes key (hc_index c :: hc_queue c) (hc_value c) log.

Fixpoint contains_loop (fuel : nat) (index : IndexTable) (key : bytes) (address : Z) (log : LogWriter)
    (entry : Z) (sub_index : nat) : outcome bool :=
  match fuel with
  | O => NoFuel
  | S fuel' =>
      if Entry_is_empty entry then Ok false
      else if bool_decide (Entry_address entry (bits_of index) = address) then Ok true
      else
        '(entry, sub_index) ← IndexTable_get x86_64 index key (S sub_index) log;
        contains_loop fuel' index key address log entry sub_index
  end.
Definition contains_partial_key_with_address (key : bytes) (address : Z) (index : IndexTable)
    (log : LogWriter) : outcome bool :=
  '(entry, sub_index) ← IndexTable_get x86_64 index key 0 log;
  contains_loop (S CHUNK_ENTRIES) index key address log entry sub_index.

(** ** Plans.  The state is the column and the log writer. *)
Abbreviation WC := (M (HashColumn * LogWriter)).

Definition on_values {A} (m : M VState A) : WC A := λ '(c, log),
  let '(o, s) := m (mkVS (hc_value c) log (if hc_collect_stats c then Some (hc_stats c) else None)) in
  (o, (set_stats (default (hc_stats c) (vs_stats s)) (set_values (vs_tables s) c), vs_log s)).

Definition on_index {A} (m : M LogWriter A) : WC A := λ '(c, log),
  let '(o, log') := m log in (o, (c, log')).

Definition trigger_reindex (c : HashColumn) : HashColumn :=
  let old := hc_index c in
  let new_id := TableId_new (TableId_col (it_id old)) (u8 (bits_of old + 1)) in
  set_indexes (create_new new_id) (hc_queue c ++ [old]) (hc_progress c) c.

(** [while let NeedReindex = tables.index.write_insert_plan(..) { trigger_reindex }]; the number of
    bits grows by one each time and stays below 256. *)
Fixpoint insert_or_grow (fuel : nat) (key : bytes) (address : Z) (outcome : PlanOutcome) : WC PlanOutcome :=
  match fuel with
  | O => lift NoFuel
  | S fuel' =>
      '(c, _) ← gets id;
      r ← on_index (IndexTable_write_insert_plan (hc_index c) key address None);
      match r with
      | NeedReindex =>
          _ ← modify (λ '(c, log), (trigger_reindex c, log));
          insert_or_grow fuel' key address NeedReindex
      | _ => mret outcome
      end
  end.
Definition GROW_FUEL : nat := 256.

Definition write_reindex_plan (key : bytes) (address : Z) : WC PlanOutcome :=
  '(c, log) ← gets id;
  b ← lift (contains_partial_key_with_address key address (hc_index c) log);
  if (b : bool) then mret Skipped else insert_or_grow GROW_FUEL key address Written.

Definition write_plan_existing (change : Operation bytes bytes) (index : IndexTable) (sub_index : nat)
    (existing_address : Z) : WC PlanOutcome :=
  '(c, _) ← gets id;
  let key := Operation_key change in
  r ← on_values (write_existing_value_plan (hc_compression c) (hc_preimage c) (Partial key)
                   existing_address change (hc_ref_counted c));
  match r with
  | (Some outcome, _) => mret outcome
  | (None, Some value_address) =>
      let sub_index := if bool_decide (it_id index = it_id (hc_index c)) then Some sub_index else None in
      on_index (IndexTable_write_insert_plan (hc_index c) key value_address sub_index)
  | (None, None) =>
      _ ← on_index (IndexTable_write_remove_plan index key sub_index); mret Written
  end.

Definition write_plan_new (key value : bytes) : WC PlanOutcome :=
  '(c, _) ← gets id;
  address ← on_values (write_new_value_plan (hc_compression c) (Partial key) value);
  insert_or_grow GROW_FUEL key address Written.

Definition col_stats (f : ColumnStats → ColumnStats) : WC unit :=
  modify (λ '(c, log), (if hc_collect_stats c then set_stats (f (hc_stats c)) c else c, log)).

Definition HashColumn_write_plan (change : Operation bytes bytes) : WC PlanOutcome :=
  '(c, log) ← gets id;
  existing ← lift (search_all_indexes (Operation_key change) c log);
  match existing with
  | Some (table, sub_index, existing_address) => write_plan_existing change table sub_index existing_address
  | None =>
      match change with
      | OpSet key value => write_plan_new key value
      | OpDereference _ => _ ← col_stats remove_miss; mret Skipped
      | OpReference _ => _ ← col_stats reference_increase_miss; mret Skipped
      end
  end.

Fixpoint complete_tables (tiers : list nat) : M VState unit :=
  match tiers with
  | [] => mret tt
  | i :: l => _ ← on_table i ValueTable_complete_plan; complete_tables l
  end.
Definition HashColumn_complete_plan : WC unit :=
  '(c, _) ← gets id;
  _ ← on_values (complete_tables (seq 0 (length (hc_value c))));
  col_stats stats_commit.
End column.
