(* ===== verification/ColumnEnact.v ===== *)
(** * Columns: enacting, validation, reindexing, iteration (src/src/column.rs) *)

From S2P Require Import Prelude IndexEntry IndexChunk Log Stats IndexTable ValueEntry File ValueTable Compress Column.

(** ** Enacting and validating.  The state is the column and the reader of the log. *)
Abbreviation RC := (M (HashColumn * LogReader)).

(** Run an operation of the main index, of the first queued index with the given id, or of the value
    table of a tier, on the column. *)
Definition on_main {A} (m : M (IndexTable * LogReader) A) : RC A := λ '(c, r),
  let '(o, (i, r')) := m (hc_index c, r) in (o, (set_indexes i (hc_queue c) (hc_progress c) c, r')).
Definition on_queued {A} (k : nat) (m : M (IndexTable * LogReader) A) : RC A := λ '(c, r),
  match hc_queue c !! k with
  | None => (Panic, (c, r))
  | Some i =>
      let '(o, (i', r')) := m (i, r) in
      (o, (set_indexes (hc_index c) (<[k := i']> (hc_queue c)) (hc_progress c) c, r'))
  end.
Definition on_value_table {A} (tier : nat) (m : M (ValueTable * LogReader) A) : RC A := λ '(c, r),
  match hc_value c !! tier with
  | None => (Panic, (c, r))
  | Some t => let '(o, (t', r')) := m (t, r) in (o, (set_values (<[tier := t']> (hc_value c)) c, r'))
  end.
Definition on_reader {A} (m : M LogReader A) : RC A := λ '(c, r), let '(o, r') := m r in (o, (c, r')).

Definition queued (c : HashColumn) (id : Z) : option nat :=
  fst <$> list_find (λ i, it_id i = id) (hc_queue c).

Definition HashColumn_enact_plan (action : LogAction) : RC unit :=
  '(c, _) ← gets id;
  match action with
  | InsertIndex table index =>
      if bool_decide (it_id (hc_index c) = table) then on_main (IndexTable_enact_plan index)
      else match queued c table with
           | Some k => on_queued k (IndexTable_enact_plan index)
           | None => on_reader IndexTable_skip_plan
           end
  | InsertValue table index =>
      on_value_table (Z.to_nat (ValueTableId_size_tier table)) (ValueTable_enact_plan index)
  | _ => fail (Corruption "Unexpected log action")
  end.

(** [validate_plan] calls itself after it has restarted a reindexing; each time the number of bits of
    the main index grows by one. *)
Fixpoint validate_loop (fuel : nat) (action : LogAction) : RC unit :=
  match fuel with
  | O => lift NoFuel
  | S fuel' =>
      '(c, _) ← gets id;
      match action with
      | InsertIndex table index =>
          if bool_decide (it_id (hc_index c) = table)
          then on_reader (IndexTable_validate_plan (hc_index c) index)
          else match queued c table with
               | Some k =>
                   match hc_queue c !! k with
                   | Some i => on_reader (IndexTable_validate_plan i index)
                   | None => lift Panic
                   end
               | None =>
                   if bool_decide (TableId_index_bits table < bits_of (hc_index c))
                   then fail (Corruption "Unexpected log index id")
                   else
                     _ ← modify (λ '(c, r), (trigger_reindex c, r));
                     validate_loop fuel' action
               end
      | InsertValue table index =>
          on_value_table (Z.to_nat (ValueTableId_size_tier table)) (ValueTable_validate_plan index)
      | _ => fail (Corruption "Unexpected log action")
      end
  end.
Definition HashColumn_validate_plan (action : LogAction) : RC unit := validate_loop GROW_FUEL action.

Fixpoint refresh_tables (l : list ValueTable) : outcome (list ValueTable) :=
  match l with
  | [] => Ok []
  | t :: l' => t' ← ValueTable_refresh_metadata t; ts ← refresh_tables l'; Ok (t' :: ts)
  end.
Definition HashColumn_refresh_metadata (c : HashColumn) : outcome HashColumn :=
  ts ← refresh_tables (hc_value c); Ok (set_values ts c).

(** ** Opening.  [files] gives the index file that exists for a number of bits. *)
Fixpoint open_index_loop (files : Z → option IndexMap) (col : Z) (bits : list Z)
    (top : option IndexTable) (reindexing : list IndexTable) (stats : ColumnStats)
    : outcome (option IndexTable * list IndexTable * ColumnStats) :=
  match bits with
  | [] => Ok (top, reindexing, stats)
  | b :: bits' =>
      match open_existing (files b) (TableId_new col b) with
      | Some table =>
          match top with
          | None => stats ← load_stats table; open_index_loop files col bits' (Some table) reindexing stats
          | Some _ => open_index_loop files col bits' top (table :: reindexing) stats
          end
      | None => open_index_loop files col bits' top reindexing stats
      end
  end.
Definition open_index (files : Z → option IndexMap) (col : Z)
    : outcome (IndexTable * list IndexTable * ColumnStats) :=
  '(top, reindexing, stats) ←
    open_index_loop files col (reverse (seqZ MIN_INDEX_BITS (65 - MIN_INDEX_BITS))) None [] stats_empty;
  Ok (default (create_new (TableId_new col MIN_INDEX_BITS)) top, reindexing, stats).

(** ** Reindexing *)
Record ReindexBatch := mkBatch { drop_index_id : option Z; batch : list (bytes * Z) }.

Definition plan_entries (source : IndexTable) (ci : Z) (es : list Z) : list (bytes * Z) :=
  omap (λ e, if Entry_is_empty e then None
             else Some (recover_key_prefix (bits_of source) ci e, Entry_address e (bits_of source))) es.

Fixpoint reindex_loop `{LogQuery L} (fuel : nat) (source : IndexTable) (log : L) (source_index : Z)
    (plan : list (bytes * Z)) : outcome (Z * list (bytes * Z)) :=
  if bool_decide (source_index < total_chunks (bits_of source)) && bool_decide (length plan < MAX_REINDEX_BATCH)%nat
  then match fuel with
       | O => NoFuel
       | S fuel' =>
           es ← entries source source_index log;
           reindex_loop fuel' source log (source_index + 1) (plan ++ plan_entries source source_index es)
       end
  else Ok (source_index, plan).

Definition HashColumn_reindex `{LogQuery L} (log : L) : M HashColumn ReindexBatch :=
  c ← gets id;
  match hc_queue c with
  | [] => mret (mkBatch None [])
  | source :: _ =>
      let total := total_chunks (bits_of source) in
      if bool_decide (hc_progress c ≠ total) then
        '(source_index, plan) ← lift (reindex_loop (Z.to_nat (total - hc_progress c)) source log (hc_progress c) []);
        _ ← modify (λ c, set_indexes (hc_index c) (hc_queue c) source_index c);
        mret (mkBatch (if bool_decide (source_index = total) then Some (it_id source) else None) plan)
      else mret (mkBatch None [])
  end.

Definition HashColumn_drop_index (id : Z) (c : HashColumn) : HashColumn :=
  match hc_queue c with
  | i :: q => if bool_decide (it_id i = id) then set_indexes (hc_index c) q 0 c else c
  | [] => c
  end.

(** ** Statistics *)
Definition HashColumn_stat_summary (c : HashColumn) : ColumnStatSummary := stats_summary (hc_stats c).
Definition HashColumn_clear_stats (c : HashColumn) : outcome HashColumn :=
  let s := stats_clear (hc_stats c) in
  i ← write_stats s (hc_index c);
  Ok (set_stats s (set_indexes i (hc_queue c) (hc_progress c) c)).

(** ** Iteration *)
Record IterState := mkIter { item_index : Z; total_items : Z; iter_key : bytes; iter_rc : Z; iter_value : bytes }.
Record CorruptedIndexEntryInfo := mkCorrupted {
  ci_chunk_index : Z; ci_sub_index : nat; ci_entry : Z; ci_value_entry : option bytes; ci_error : option error }.
Inductive IterStateOrCorrupted := Item (s : IterState) | Corrupted (i : CorruptedIndexEntryInfo).

Definition ok_option {A} (o : outcome A) : option A := match o with Ok a => Some a | _ => None end.

Section iteration.
Context (junk : bytes) `{Compressors} `{LogQuery L} {St : Type}.
Implicit Types (log : L).

Fixpoint iter_values_loop (c : HashColumn) (log : L) (f : Z → bytes → St → bool * St)
    (l : list ValueTable) (st : St) : outcome St :=
  match l with
  | [] => Ok st
  | t :: l' =>
      st ← iter_while junk t log
        (λ _ rc value compressed st,
           if (compressed : bool) then
             match Compress_decompress (hc_compression c) value with
             | Ok value => f rc value st
             | _ => (false, st)
             end
           else f rc value st) st;
      iter_values_loop c log f l' st
  end.
Definition HashColumn_iter_values (c : HashColumn) (log : L) (f : Z → bytes → St → bool * St) (st : St)
    : outcome St := iter_values_loop c log f (hc_value c) st.

(** One entry of a chunk: the callback's verdict, [None] when the entry is empty. *)
Definition iter_entry (c : HashColumn) (log : L) (f : IterStateOrCorrupted → St → outcome (bool * St))
    (chunk total : Z) (sub_index : nat) (e : Z) (key_of : bytes → outcome bytes) (st : St) : outcome (bool * St) :=
  let source := hc_index c in
  let address := Entry_address e (bits_of source) in
  match hc_value c !! Z.to_nat (Address_size_tier address) with
  | None => Panic
  | Some t =>
      let offset := Address_offset address in
      match get_with_meta junk t offset log with
      | Ok (Some (value, rc, pk, compressed)) =>
          key ← key_of pk;
          value ← (if compressed then Compress_decompress (hc_compression c) value else Ok value);
          f (Item (mkIter chunk total key rc value)) st
      | Ok None => f (Corrupted (mkCorrupted chunk sub_index e (ok_option (dump_entry t offset)) None)) st
      | Err er =>
          let value_entry := match er with Corruption _ => ok_option (dump_entry t offset) | _ => None end in
          f (Corrupted (mkCorrupted chunk sub_index e value_entry (Some er))) st
      | Panic => Panic
      | NoFuel => NoFuel
      end
  end.

Fixpoint iter_entries (c : HashColumn) (log : L) (f : IterStateOrCorrupted → St → outcome (bool * St))
    (chunk total : Z) (sub_index : nat) (es : list Z) (st : St) : outcome (bool * St) :=
  match es with
  | [] => Ok (true, st)
  | e :: es' =>
      if Entry_is_empty e then iter_entries c log f chunk total (S sub_index) es' st
      else
        '(cont, st) ← iter_entry c log f chunk total sub_index e
                        (recovered_key (bits_of (hc_index c)) chunk e) st;
        if (cont : bool) then iter_entries c log f chunk total (S sub_index) es' st else Ok (false, st)
  end.

Fixpoint iter_chunks (n : nat) (c : HashColumn) (log : L) (f : IterStateOrCorrupted → St → outcome (bool * St))
    (chunk total : Z) (st : St) : outcome St :=
  match n with
  | O => Ok st
  | S n' =>
      es ← entries (hc_index c) chunk log;
      '(cont, st) ← iter_entries c log f chunk total 0 es st;
      if (cont : bool) then iter_chunks n' c log f (chunk + 1) total st else Ok st
  end.

Definition iter_index_internal (c : HashColumn) (log : L)
    (f : IterStateOrCorrupted → St → outcome (bool * St)) (start_chunk : Z) (st : St) : outcome St :=
  let total := total_chunks (bits_of (hc_index c)) in
  iter_chunks (Z.to_nat (total - start_chunk)) c log f start_chunk total st.

Definition HashColumn_iter_index (c : HashColumn) (log : L) (f : IterState → St → bool * St) (st : St) : outcome St :=
  iter_index_internal c log
    (λ i st, match i with
             | Item item => Ok (f item st)
             | Corrupted _ => Err (Corruption "Missing indexed value")
             end) 0 st.

Fixpoint iter_sorted (c : HashColumn) (log : L) (f : IterStateOrCorrupted → St → outcome (bool * St))
    (total : Z) (sub_index : nat) (es : list Z) (st : St) : outcome St :=
  match es with
  | [] => Ok st
  | e :: es' =>
      '(cont, st) ← iter_entry c log f (Z.of_nat sub_index) total sub_index e
                      (λ _, Ok (replicate KEY_SIZE Byte.x00)) st;
      if (cont : bool) then iter_sorted c log f total (S sub_index) es' st else Ok st
  end.
Definition iter_index_fast (c : HashColumn) (log : L) (f : IterStateOrCorrupted → St → outcome (bool * St)) (st : St)
    : outcome St :=
  es ← sorted_entries (hc_index c);
  iter_sorted c log f (Z.of_nat (length es)) 0 es st.
End iteration.
