(* ===== verification/ColumnSearch.v ===== *)
(** * Columns: the search for a key

    A lookup walks over the entries of the key's chunk that may belong to the key and checks
    the key stored with each value.  This file shows that the walk visits the key's own entry,
    that it stops there, and that it never takes another key's value for the key's. *)

From S2P Require Import Prelude IndexEntry IndexChunk Log Stats IndexTable ValueEntry File ValueTable ValueSlots ValueChains ValueWrite ValueRead ValueInv ValueSpec Compress Column.

(** ** What a search in a chunk returns *)
Definition strict (ib kp e : Z) : bool :=
  bool_decide (Entry_partial_key e ib = extract_key kp ib) && negb (Entry_is_empty e).
(** How many low bits of the partial key the vector search ignores. *)
Definition dropped (ib : Z) : Z := Z.max 32 (address_bits ib) - address_bits ib.
Definition coarse (ib kp e : Z) : Prop :=
  Entry_partial_key e ib / 2 ^ dropped ib = extract_key kp ib / 2 ^ dropped ib.

Lemma find_first_spec P chunk : length chunk = CHUNK_LEN → ∀ n i, (i + n ≤ CHUNK_ENTRIES)%nat →
  ∃ e j, find_first P chunk n i = Ok (e, j) ∧
    ((P e = true ∧ (i ≤ j < i + n)%nat ∧ read_entry chunk j = Ok e ∧
      ∀ k x, (i ≤ k < j)%nat → read_entry chunk k = Ok x → P x = false) ∨
     (e = Entry_empty ∧ ∀ k x, (i ≤ k < i + n)%nat → read_entry chunk k = Ok x → P x = false)).
Proof.
  intros Hl. induction n as [|n IH]; intros i Hi.
  - exists Entry_empty, 0%nat. split; [done|]. right. split; [done|]. intros; lia.
  - destruct (read_entry_Ok chunk i) as (x & Hx & _); [done|lia|].
    assert (E : find_first P chunk (S n) i = if P x then Ok (x, i) else find_first P chunk n (S i))
      by (simpl; by rewrite Hx). rewrite E.
    destruct (P x) eqn:HP.
    + exists x, i. split; [done|]. left. split_and!; try done; [lia..|]. intros; lia.
    + destruct (IH (S i)) as (e & j & Ef & Hc); [lia|]. exists e, j. split; [done|].
      destruct Hc as [(HPe & Hj & Hr & Hk)|[He Hk]]; [left|right].
      * split_and!; try done; [lia..|]. intros k y Hkj Hy. destruct (decide (k = i)) as [->|]; [congruence|].
        apply (Hk k); [lia|done].
      * split; [done|]. intros k y Hkj Hy. destruct (decide (k = i)) as [->|]; [congruence|]. apply (Hk k); [lia|done].
Qed.

Lemma strict_coarse ib kp e : strict ib kp e = true → coarse ib kp e ∧ Entry_is_empty e = false.
Proof.
  unfold strict, coarse. intros [H1 H2]%andb_prop. apply bool_decide_eq_true in H1. rewrite H1.
  by destruct (Entry_is_empty e).
Qed.

Definition found (ib kp : Z) (chunk : bytes) (sub : nat) (e : Z) (i : nat) : Prop :=
  (Entry_is_empty e = false ∧ (sub ≤ i < CHUNK_ENTRIES)%nat ∧ read_entry chunk i = Ok e ∧ coarse ib kp e ∧
   ∀ k x, (sub ≤ k < i)%nat → read_entry chunk k = Ok x → strict ib kp x = false) ∨
  (e = Entry_empty ∧ ∀ k x, (sub ≤ k < CHUNK_ENTRIES)%nat → read_entry chunk k = Ok x → strict ib kp x = false).

Lemma find_entry_base_spec ib kp sub chunk :
  length chunk = CHUNK_LEN → (sub ≤ CHUNK_ENTRIES)%nat →
  ∃ e i, find_entry_base ib kp sub chunk = Ok (e, i) ∧ found ib kp chunk sub e i.
Proof.
  intros Hl Hs. rewrite find_entry_base_first. fold (strict ib kp).
  destruct (find_first_spec (strict ib kp) chunk Hl (CHUNK_ENTRIES - sub) sub ltac:(lia)) as (e & i & E & Hc).
  exists e, i. split; [done|]. destruct Hc as [(HP & Hi & Hr & Hk)|[-> Hk]]; [left|right].
  - apply strict_coarse in HP as [? ?]. split_and!; try done; lia.
  - split; [done|]. intros k x Hkx. apply Hk. lia.
Qed.

Lemma find_entry_spec x86 t kp sub chunk :
  valid_bits (bits_of t) → in_range 64 kp → length chunk = CHUNK_LEN → (sub ≤ CHUNK_ENTRIES)%nat →
  ∃ e i, find_entry x86 t kp sub chunk = Ok (e, i) ∧ found (bits_of t) kp chunk sub e i.
Proof.
  intros Hb Hk Hl Hs. unfold find_entry. destruct x86; [|by apply find_entry_base_spec].
  set (ib := bits_of t) in *. set (shift := Z.max 32 (address_bits ib)).
  destruct (decide (shr64 (shl64 kp ib) shift = 0)) as [E|E].
  { unfold find_entry_sse2. fold shift. rewrite E, bool_decide_true by done. by apply find_entry_base_spec. }
  pose proof (find_entry_sse2_first ib kp sub chunk Hb Hk Hl Hs E) as Ef. cbv zeta in Ef. fold shift in Ef. rewrite Ef.
  pose proof (sse2_key_of_extract ib kp Hb) as Hke. cbv zeta in Hke. fold shift in Hke.
  pose proof (λ e, sse2_word_of_partial ib e Hb) as Hwo. cbv zeta in Hwo. fold shift in Hwo.
  set (P := λ e, bool_decide (e / 2 ^ shift = shr64 (shl64 kp ib) shift)).
  assert (HP : ∀ e, P e = true → coarse ib kp e ∧ Entry_is_empty e = false).
  { intros e He. apply bool_decide_eq_true in He. split.
    - unfold coarse, dropped. fold shift. by rewrite <-Hwo, <-Hke.
    - unfold Entry_is_empty. apply bool_decide_eq_false. intros ->. apply E. rewrite <-He. apply Z.div_0_l.
      pose proof (pow2_pos shift). lia. }
  assert (HS : ∀ e, strict ib kp e = true → P e = true).
  { intros e [He _]%strict_coarse. apply bool_decide_eq_true. unfold coarse, dropped in He. fold shift in He.
    by rewrite Hwo, Hke. }
  assert (HS' : ∀ e, P e = false → strict ib kp e = false).
  { intros e He. destruct (strict ib kp e) eqn:Es; [|done]. by rewrite HS in He. }
  destruct (find_first_spec P chunk Hl (CHUNK_ENTRIES - sub) sub ltac:(lia)) as (e & i & E' & Hc).
  exists e, i. split; [done|]. destruct Hc as [(HPe & Hi & Hr & Hn)|[-> Hn]]; [left|right].
  - apply HP in HPe as [? ?]. split_and!; try done; [lia..|]. intros k x Hkx Hx. by apply HS', (Hn k).
  - split; [done|]. intros k x Hkx Hx. apply HS', (Hn k); [lia|done].
Qed.

Lemma read_empty_chunk i : (i < CHUNK_ENTRIES)%nat → read_entry EMPTY_CHUNK i = Ok Entry_empty.
Proof.
  intros Hi. unfold read_entry, slice, EMPTY_CHUNK. rewrite length_replicate.
  unfold CHUNK_LEN, CHUNK_ENTRIES in *. rewrite decide_True by lia. rewrite drop_replicate, take_replicate.
  replace (_ `min` _)%nat with 8%nat by lia. done.
Qed.

Lemma index_get_spec `{HL : LogQuery L} x86 t (log : L) key sub :
  wf_index t log → length key = KEY_SIZE → (sub ≤ CHUNK_ENTRIES)%nat →
  ∃ e i, IndexTable_get x86 t key sub log = Ok (e, i) ∧
    found (bits_of t) (index_from_partial key) (chunk_view t log (key_chunk t key)) sub e i.
Proof.
  intros Hw Hk Hs. pose proof Hw as [Hb Hlen].
  destruct (it_map t) as [m|] eqn:Em; [|destruct (with_index log (it_id t) (key_chunk t key)) as [ch|] eqn:Ew].
  1,2: rewrite (get_view x86 t log key sub) by (done || (try by left; congruence) || by right; congruence);
       apply find_entry_spec; auto using index_from_partial_range.
  unfold IndexTable_get. fold (key_chunk t key). rewrite Ew, Em. exists Entry_empty, 0%nat. split; [done|].
  right. split; [done|]. intros k x Hkx. unfold chunk_view. rewrite Ew, Em, read_empty_chunk by lia.
  intros [= <-]. unfold strict. by rewrite andb_false_r.
Qed.

(** ** The first six bytes of a key *)
Lemma take6_key key :
  length key = KEY_SIZE → take 6 key = be_bytes 6 (index_from_partial key / 2 ^ 16).
Proof.
  intros Hk. unfold index_from_partial. set (h := take 8 key).
  assert (Hh : length h = 8%nat) by (unfold h; rewrite length_take, Hk; done).
  transitivity (take 6 h); [unfold h; by rewrite take_take|].
  rewrite <-(be_bytes_val h) at 1. rewrite Hh. change 8%nat with (6 + 2)%nat.
  rewrite be_bytes_app. by rewrite take_app_length' by (by rewrite be_bytes_length).
Qed.

Lemma coarse_same_prefix ib kp kp' :
  valid_bits ib → 16 ≤ ib ≤ 48 → in_range 64 kp → in_range 64 kp' →
  chunk_index ib kp = chunk_index ib kp' →
  extract_key kp ib / 2 ^ dropped ib = extract_key kp' ib / 2 ^ dropped ib →
  kp / 2 ^ 16 = kp' / 2 ^ 16.
Proof.
  intros Hb Hib Hk Hk' Hc He. unfold dropped in He. rewrite address_bits_eq in He by done.
  rewrite !chunk_index_eq in Hc by done. rewrite !extract_key_eq in He by done. unfold valid_bits in Hb.
  set (d := Z.max 32 (ib + 14) - (ib + 14)) in *. assert (Hd : 0 ≤ d ≤ 2) by lia.
  assert (H16 : ∀ z, (z mod 2 ^ (64 - ib)) / 2 ^ 16 = ((z mod 2 ^ (64 - ib)) / 2 ^ 14 / 2 ^ d) / 2 ^ (2 - d)).
  { intros z. rewrite !Z.div_div by (try apply Z.pow_nonzero; try apply pow2_pos; lia).
    f_equal. rewrite <-!Z.pow_add_r by lia. f_equal. lia. }
  assert (Hs : ∀ z, z / 2 ^ 16 = z / 2 ^ (64 - ib) * 2 ^ (48 - ib) + (z mod 2 ^ (64 - ib)) / 2 ^ 16).
  { intros z. rewrite (Z.div_mod z (2 ^ (64 - ib))) at 1 by (apply Z.pow_nonzero; lia).
    replace (2 ^ (64 - ib)) with (2 ^ (48 - ib) * 2 ^ 16) at 1 by (rewrite <-Z.pow_add_r by lia; f_equal; lia).
    rewrite (Z.mul_comm (2 ^ (48 - ib) * 2 ^ 16)), Z.mul_assoc, Z.div_add_l by (apply Z.pow_nonzero; lia). done. }
  rewrite (Hs kp), (Hs kp'), !H16, Hc, He. done.
Qed.

(** Keys that agree on the chunk, on the part of the entry that a search compares, and on the
    partial key stored with the value, are equal. *)
Lemma keys_equal t key key' e :
  valid_bits (bits_of t) → 16 ≤ bits_of t ≤ 48 → length key = KEY_SIZE → length key' = KEY_SIZE →
  key_chunk t key = key_chunk t key' →
  Entry_partial_key e (bits_of t) = extract_key (index_from_partial key') (bits_of t) →
  coarse (bits_of t) (index_from_partial key) e → partial_key key = partial_key key' → key = key'.
Proof.
  intros Hb Hib Hk Hk' Hc He Hco Hp. unfold coarse in Hco. rewrite He in Hco.
  rewrite <-(take_drop 6 key), <-(take_drop 6 key'). unfold partial_key in Hp. rewrite Hp. f_equal.
  rewrite !take6_key by done. f_equal. eapply (coarse_same_prefix (bits_of t));
    auto using index_from_partial_range.
Qed.
