(* ===== verification/ColumnIndex.v ===== *)
(** * Columns: the index as a map from keys to addresses

    [index_inv] says that the chunks of an index, seen through the log, hold one entry for
    every key of a finite map and nothing else.  The plans of the index add, change and remove
    one key of that map. *)

From S2P Require Import Prelude IndexEntry IndexChunk Log Stats IndexTable.

Record index_inv `{HL : LogQuery L} (t : IndexTable) (log : L) (kv : gmap bytes Z) : Prop := {
  xi_wf : wf_index t log;
  xi_bits : 16 ≤ bits_of t ≤ 48;
  xi_keys : ∀ key a, kv !! key = Some a → length key = KEY_SIZE ∧ 0 < a ≤ last_address (bits_of t) ∧
    ∃ i, (i < CHUNK_ENTRIES)%nat ∧
      read_entry (chunk_view t log (key_chunk t key)) i = Ok (key_entry t key a);
  xi_entries : ∀ ci i e, (i < CHUNK_ENTRIES)%nat → 0 ≤ ci < total_chunks (bits_of t) →
    read_entry (chunk_view t log ci) i = Ok e → Entry_is_empty e = false →
    ∃ key a, kv !! key = Some a ∧ key_chunk t key = ci ∧ e = key_entry t key a;
  xi_unique : ∀ ci i j e, (i < CHUNK_ENTRIES)%nat → (j < CHUNK_ENTRIES)%nat → 0 ≤ ci < total_chunks (bits_of t) →
    read_entry (chunk_view t log ci) i = Ok e →
    read_entry (chunk_view t log ci) j = Ok e → Entry_is_empty e = false → i = j;
  xi_inj : ∀ k1 k2 a, kv !! k1 = Some a → kv !! k2 = Some a → k1 = k2;
}.
#[global] Arguments xi_wf {L HL t log kv}.
#[global] Arguments xi_bits {L HL t log kv}.
#[global] Arguments xi_keys {L HL t log kv}.
#[global] Arguments xi_entries {L HL t log kv}.
#[global] Arguments xi_unique {L HL t log kv}.
#[global] Arguments xi_inj {L HL t log kv}.

Definition chunk_full `{HL : LogQuery L} (t : IndexTable) (log : L) (ci : Z) : Prop :=
  ∀ i e, (i < CHUNK_ENTRIES)%nat → read_entry (chunk_view t log ci) i = Ok e → Entry_is_empty e = false.

Lemma key_entry_full t key a :
  valid_bits (bits_of t) → length key = KEY_SIZE → 0 < a ≤ last_address (bits_of t) →
  Entry_is_empty (key_entry t key a) = false.
Proof.
  intros Hb Hk Ha. unfold Entry_is_empty. apply bool_decide_eq_false. intros He.
  destruct (key_entry_range t key a Hb Hk ltac:(lia)) as (_ & _ & Hea). rewrite He in Hea.
  unfold Entry_address in Hea. rewrite Z.land_0_l in Hea. lia.
Qed.

Lemma key_chunk_bounds `{HL : LogQuery L} t (log : L) key :
  wf_index t log → length key = KEY_SIZE → 0 ≤ key_chunk t key < total_chunks (bits_of t).
Proof. intros Hw Hk. pose proof (key_chunk_range t log key Hw Hk) as H. by apply bool_decide_eq_true in H. Qed.

(** The invariant only depends on the chunks the log shows. *)
Lemma index_inv_view `{HL : LogQuery L} `{HL' : LogQuery L'} t (log : L) (log' : L') kv :
  (∀ ci, chunk_view t log' ci = chunk_view t log ci) → index_inv t log kv → index_inv t log' kv.
Proof.
  intros Hx [[Hb Hl] H2 H3 H4 H5 H6]. split; try done.
  - split; [done|]. intros ci. by rewrite Hx.
  - intros key a. rewrite Hx. apply H3.
  - intros ci i e. rewrite Hx. apply H4.
  - intros ci i j e. rewrite Hx. apply H5.
Qed.

Section update.
Context {t : IndexTable} {log log' : LogWriter} {kv : gmap bytes Z} (Hinv : index_inv t log kv).
Context {key : bytes} (Hkey : length key = KEY_SIZE) {i : nat} (Hi : (i < CHUNK_ENTRIES)%nat).
Context {old new : Z}.
Context (Hold : read_entry (chunk_view t log (key_chunk t key)) i = Ok old).
Context (Hnew : read_entry (chunk_view t log' (key_chunk t key)) i = Ok new).
Context (Hother : ∀ j, j ≠ i →
  read_entry (chunk_view t log' (key_chunk t key)) j = read_entry (chunk_view t log (key_chunk t key)) j).
Context (Hframe : entry_written t (key_chunk t key) log log') (Hwf : wf_index t log').

Lemma read_update ci j :
  read_entry (chunk_view t log' ci) j
  = if bool_decide (ci = key_chunk t key ∧ j = i) then Ok new else read_entry (chunk_view t log ci) j.
Proof.
  case_bool_decide as Hc; [by destruct Hc as [-> ->]|].
  destruct (decide (ci = key_chunk t key)) as [->|Hne]; [apply Hother; naive_solver|].
  unfold chunk_view. rewrite (entry_written_index _ _ _ _ _ _ Hframe) by congruence. done.
Qed.

(** Other keys keep their entries, which are not at the changed position. *)
Lemma other_key k a :
  k ≠ key → kv !! k = Some a → old = Entry_empty ∨ (∃ a0, kv !! key = Some a0 ∧ old = key_entry t key a0) →
  ∃ j, (j < CHUNK_ENTRIES)%nat ∧ read_entry (chunk_view t log' (key_chunk t k)) j = Ok (key_entry t k a).
Proof.
  intros Hne Hk Hc. destruct (xi_wf Hinv) as [Hb _].
  destruct (xi_keys Hinv _ _ Hk) as (Hkl & Ha & j & Hj & Hr). exists j. split; [done|].
  rewrite read_update. case_bool_decide as Hd; [|done]. exfalso. destruct Hd as [Hd ->]. rewrite Hd, Hold in Hr.
  injection Hr as Hr. destruct Hc as [Ho|(a0 & Ha0 & Ho)].
  - pose proof (key_entry_full t k a Hb Hkl Ha) as He. by rewrite <-Hr, Ho in He.
  - destruct (xi_keys Hinv _ _ Ha0) as (_ & Ha0' & _).
    destruct (key_entry_range t k a Hb Hkl ltac:(lia)) as (_ & _ & E1).
    destruct (key_entry_range t key a0 Hb Hkey ltac:(lia)) as (_ & _ & E2).
    apply Hne. apply (xi_inj Hinv k key a); [done|]. congruence.
Qed.

(** Storing the key's entry over an empty one or over the key's previous one. *)
Lemma index_inv_set a :
  (old = Entry_empty ∧ kv !! key = None) ∨ (∃ a0, kv !! key = Some a0 ∧ old = key_entry t key a0) →
  new = key_entry t key a → 0 < a ≤ last_address (bits_of t) → (∀ k, k ≠ key → kv !! k ≠ Some a) →
  index_inv t log' (<[key := a]> kv).
Proof.
  intros Hc Hn Ha Hfresh. destruct (xi_wf Hinv) as [Hb _]. split; [done|apply Hinv|..].
  - intros k a'. rewrite lookup_insert. case_decide as Hd.
    + intros [= <-]. subst k. split_and!; try done; [lia..|]. exists i. by rewrite Hnew, Hn.
    + intros Hk. destruct (xi_keys Hinv _ _ Hk) as (? & ? & _). split_and!; try done; [lia..|].
      apply other_key; [congruence|done|naive_solver].
  - intros ci j e Hj Hci. rewrite read_update. case_bool_decide as Hd.
    + intros [= <-] _. exists key, a. rewrite lookup_insert_eq. naive_solver.
    + intros Hr He. destruct (xi_entries Hinv _ _ _ Hj Hci Hr He) as (k & a' & Hk & <- & ->).
      exists k, a'. split_and!; try done. rewrite lookup_insert_ne; [done|]. intros <-.
      destruct Hc as [[_ ?]|(a0 & Ha0 & Ho)]; [congruence|]. assert (a0 = a') as -> by congruence.
      apply Hd. split; [done|]. rewrite <-Ho in Hr, He. by eapply (xi_unique Hinv).
  - assert (Hno : ∀ j, (j < CHUNK_ENTRIES)%nat → j ≠ i →
      read_entry (chunk_view t log (key_chunk t key)) j ≠ Ok (key_entry t key a)).
    { intros j Hj Hji Hr. destruct (xi_entries Hinv _ _ _ Hj (key_chunk_bounds t log key (xi_wf Hinv) Hkey) Hr)
        as (k & a' & Hk & Hkc & E); [by apply key_entry_full|].
      destruct (xi_keys Hinv _ _ Hk) as (Hkl & Ha' & _).
      destruct (key_entry_range t k a' Hb Hkl ltac:(lia)) as (_ & _ & E1).
      destruct (key_entry_range t key a Hb Hkey ltac:(lia)) as (_ & _ & E2).
      assert (a' = a) as -> by congruence. destruct (decide (k = key)) as [->|Hne]; [|by apply (Hfresh k)].
      destruct Hc as [[_ ?]|(a0 & Ha0 & Hold')]; [congruence|]. assert (a0 = a) as -> by congruence.
      apply Hji. eapply (xi_unique Hinv _ _ _ (key_entry t key a)); try done; [|by rewrite <-Hold'|by apply key_entry_full].
      apply (key_chunk_bounds t log); [apply Hinv|done]. }
    intros ci j1 j2 e H1 H2 Hci. rewrite !read_update.
    case_bool_decide as Hd1; case_bool_decide as Hd2; [naive_solver|..].
    + intros [= <-] Hr _. rewrite Hn in Hr. destruct Hd1 as [-> ->]. exfalso. eapply (Hno j2); naive_solver.
    + intros Hr [= <-] _. rewrite Hn in Hr. destruct Hd2 as [-> ->]. exfalso. eapply (Hno j1); naive_solver.
    + by apply (xi_unique Hinv).
  - intros k1 k2 a'. rewrite !lookup_insert. do 2 case_decide; try naive_solver; try congruence.
    apply (xi_inj Hinv).
Qed.

(** Emptying the key's entry. *)
Lemma index_inv_clear a0 :
  kv !! key = Some a0 → old = key_entry t key a0 → new = Entry_empty → index_inv t log' (delete key kv).
Proof.
  intros Ha0 Ho Hn. destruct (xi_wf Hinv) as [Hb _]. split; [done|apply Hinv|..].
  - intros k a'. rewrite lookup_delete. case_decide as Hd; [done|]. intros Hk.
    destruct (xi_keys Hinv _ _ Hk) as (? & ? & _). split_and!; try done; [lia..|].
    apply other_key; [congruence|done|naive_solver].
  - intros ci j e Hj Hci. rewrite read_update. case_bool_decide as Hd; [by intros [= <-]; rewrite Hn|].
    intros Hr He. destruct (xi_entries Hinv _ _ _ Hj Hci Hr He) as (k & a' & Hk & <- & ->).
    exists k, a'. split_and!; try done. rewrite lookup_delete_ne; [done|]. intros <-.
    assert (a0 = a') as -> by congruence. apply Hd. split; [done|]. rewrite <-Ho in Hr, He. by eapply (xi_unique Hinv).
  - intros ci j1 j2 e H1 H2 Hci. rewrite !read_update.
    case_bool_decide as Hd1; case_bool_decide as Hd2; [naive_solver|by intros [= <-]; rewrite Hn|by intros ? [= <-]; rewrite Hn|]. by apply (xi_unique Hinv).
  - intros k1 k2 a'. rewrite !lookup_delete. do 2 case_decide; try done. apply (xi_inj Hinv).
Qed.
End update.

(** ** The plans on the map *)
Section plans.
Context {t : IndexTable} {log : LogWriter} {kv : gmap bytes Z} (Hinv : index_inv t log kv).

Lemma index_plan_insert key a :
  length key = KEY_SIZE → kv !! key = None → 0 < a → (∀ k, kv !! k ≠ Some a) →
  (∃ log', IndexTable_write_insert_plan t key a None log = (Ok Written, log') ∧
     index_inv t log' (<[key := a]> kv) ∧ entry_written t (key_chunk t key) log log') ∨
  (IndexTable_write_insert_plan t key a None log = (Ok NeedReindex, log) ∧
     (last_address (bits_of t) < a ∨ chunk_full t log (key_chunk t key))).
Proof.
  intros Hk Hkv Ha Hfresh. destruct (decide (a ≤ last_address (bits_of t))) as [Hla|Hla].
  2: { right. split; [|left; lia]. rewrite (insert_plan_view t log key) by (done || apply Hinv).
       unfold plan_insert_chunk. by rewrite bool_decide_true by lia. }
  destruct (index_insert_plan_spec t log key a (xi_wf Hinv) Hk ltac:(lia))
    as [(i & log' & E & Hi & He & _ & Hn & Ho & Hf & Hw)|[E Hfull]]; [left|right].
  - exists log'. split; [done|]. split; [|exact Hf].
    eapply (index_inv_set Hinv Hk Hi He Hn Ho Hf Hw a); [by left|done|lia|]. intros k _. apply Hfresh.
  - split; [done|]. right. exact Hfull.
Qed.

Lemma index_plan_replace key a0 a i :
  kv !! key = Some a0 → (i < CHUNK_ENTRIES)%nat →
  read_entry (chunk_view t log (key_chunk t key)) i = Ok (key_entry t key a0) →
  0 < a → (∀ k, k ≠ key → kv !! k ≠ Some a) →
  (∃ log', IndexTable_write_insert_plan t key a (Some i) log = (Ok Written, log') ∧
     index_inv t log' (<[key := a]> kv) ∧ entry_written t (key_chunk t key) log log') ∨
  (IndexTable_write_insert_plan t key a (Some i) log = (Ok NeedReindex, log) ∧ last_address (bits_of t) < a).
Proof.
  intros Hkv Hi Hr Ha Hfresh. destruct (xi_wf Hinv) as [Hb _].
  destruct (xi_keys Hinv _ _ Hkv) as (Hk & Ha0 & _).
  destruct (key_entry_range t key a0 Hb Hk ltac:(lia)) as (_ & Hp & _).
  destruct (index_replace_plan_spec t log key a i _ (xi_wf Hinv) Hk Hi Hr Hp)
    as [(Hla & log' & E & Hn & Ho & Hf & Hw)|[Hla E]]; [left|right].
  - exists log'. split; [done|]. split; [|exact Hf].
    eapply (index_inv_set Hinv Hk Hi Hr Hn Ho Hf Hw a); [right; eauto|done|lia|done].
  - split; [apply E|]; lia.
Qed.

Lemma index_plan_remove key a0 i :
  kv !! key = Some a0 → (i < CHUNK_ENTRIES)%nat →
  read_entry (chunk_view t log (key_chunk t key)) i = Ok (key_entry t key a0) →
  ∃ log', IndexTable_write_remove_plan t key i log = (Ok Written, log') ∧
    index_inv t log' (delete key kv) ∧ entry_written t (key_chunk t key) log log'.
Proof.
  intros Hkv Hi Hr. destruct (xi_wf Hinv) as [Hb _].
  destruct (xi_keys Hinv _ _ Hkv) as (Hk & Ha0 & _).
  destruct (key_entry_range t key a0 Hb Hk ltac:(lia)) as (_ & Hp & _).
  pose proof (index_remove_plan_spec t log key i _ (xi_wf Hinv) Hk Hi Hr) as E.
  cbv zeta in E. rewrite Hp, bool_decide_true, (key_entry_full t key a0) in E by done.
  destruct E as (log' & E & Hn & Ho & Hf & Hw). exists log'. split; [done|]. split; [|exact Hf].
  by eapply (index_inv_clear Hinv Hk Hi Hr Hn Ho Hf Hw a0).
Qed.
End plans.
