(* ===== verification/ColumnTables.v ===== *)
(** * Columns: the value tables

    [tables_inv] says that the 256 value tables of a column hold the values [vs], one map per
    tier, each value with a key of [kl] bytes.  The plans for values act on one tier; the tier chosen for a new value is one the
    value fits. *)

From S2P Require Import Prelude IndexEntry IndexChunk Log Stats IndexTable ValueEntry File ValueTable ValueSlots ValueChains ValueWrite ValueRead ValueInv ValueSpec Compress Column.

Definition val_at (vs : list (gmap Z vrec)) (a : Z) : option vrec :=
  vs !! Z.to_nat (Address_size_tier a) ≫= λ m, m !! Address_offset a.
Definition upd_at (vs : list (gmap Z vrec)) (a : Z) (f : gmap Z vrec → gmap Z vrec) : list (gmap Z vrec) :=
  alter f (Z.to_nat (Address_size_tier a)) vs.

Record tables_inv `{HL : LogQuery L} (col : Z) (rc : bool) (kl : nat) (ts : list ValueTable) (log : L)
    (vs : list (gmap Z vrec)) : Prop := {
  tt_len : length ts = SIZE_TIERS ∧ length vs = SIZE_TIERS;
  tt_id : ∀ tier t, ts !! tier = Some t → vt_id t = TableId_new col (Z.of_nat tier) ∧ ref_counted t = rc;
  tt_size : ∀ tier t, ts !! tier = Some t →
    multipart t = bool_decide (SIZES !! tier = None) ∧ entry_size t = default MULTIPART_ENTRY_SIZE (SIZES !! tier);
  tt_inv : ∀ tier t m, ts !! tier = Some t → vs !! tier = Some m → table_inv t log kl m;
}.
#[global] Arguments tt_len {L HL col rc kl ts log vs}.
#[global] Arguments tt_id {L HL col rc kl ts log vs}.
#[global] Arguments tt_size {L HL col rc kl ts log vs}.
#[global] Arguments tt_inv {L HL col rc kl ts log vs}.

Lemma TableId_new_eq col s : in_range 8 s → TableId_new col s = (col mod 2 ^ 8) * 2 ^ 8 + s.
Proof.
  intros Hs. unfold TableId_new, wrap. rewrite Z.shiftl_mul_pow2 by lia.
  replace (2 ^ 16) with (2 ^ 8 * 2 ^ 8) by reflexivity. rewrite Zmult_mod_distr_r. by apply lor_fields.
Qed.

Lemma TableId_col_new col x : in_range 8 col → in_range 8 x → TableId_col (TableId_new col x) = col.
Proof.
  unfold in_range. intros Hc Hx. rewrite TableId_new_eq by done. rewrite Z.mod_small by lia. unfold TableId_col.
  rewrite Z.shiftr_div_pow2 by lia. rewrite Z.add_comm, Z.div_add, Z.div_small by lia. apply wrap_small. unfold in_range. lia.
Qed.

Lemma tier_range tier : (tier < SIZE_TIERS)%nat → in_range 8 (Z.of_nat tier).
Proof. unfold SIZE_TIERS, in_range. intros. split; [lia|]. change (2 ^ 8) with 256. lia. Qed.

Lemma TableId_tier_inj col a b :
  (a < SIZE_TIERS)%nat → (b < SIZE_TIERS)%nat → TableId_new col (Z.of_nat a) = TableId_new col (Z.of_nat b) → a = b.
Proof. intros Ha Hb. rewrite !TableId_new_eq by (by apply tier_range). lia. Qed.

(** The value of a key as a reader sees it: decompressed when it was stored compressed. *)
Definition plain `{Compressors} (comp : Compress) (v : vrec) : outcome bytes :=
  if v_comp v then Compress_decompress comp (v_value v) else Ok (v_value v).

(** Addresses. *)
Lemma address_parts a : 0 ≤ a < 2 ^ 64 →
  in_range 56 (Address_offset a) ∧ in_range 8 (Address_size_tier a) ∧ (Z.to_nat (Address_size_tier a) < SIZE_TIERS)%nat ∧
  Address_new (Address_offset a) (Address_size_tier a) = a.
Proof.
  intros Ha. unfold Address_size_tier, Address_offset, SIZE_TIERS_BITS, SIZE_TIERS.
  rewrite shr64_div, shl64_1, land_mask by lia. unfold wrap. rewrite Zmod_mod.
  pose proof (Z.mod_pos_bound a (2 ^ 8) eq_refl) as Hm.
  assert (Hd : in_range 56 (a / 2 ^ 8)).
  { split; [apply Z.div_pos; lia|apply Z.div_lt_upper_bound; [done|]]. exact (proj2 Ha). }
  assert (Ht : in_range 8 (a mod 2 ^ 8)) by done. split_and!; try done.
  - change (2 ^ 8) with 256 in *. lia.
  - rewrite Address_new_eq by done. pose proof (Z.div_mod a (2 ^ 8) ltac:(done)). lia.
Qed.

Lemma val_at_new vs o tier :
  in_range 56 o → (tier < SIZE_TIERS)%nat → val_at vs (Address_new o (Z.of_nat tier)) = vs !! tier ≫= λ m, m !! o.
Proof.
  intros Ho Ht. pose proof (tier_range _ Ht). unfold val_at.
  by rewrite Address_size_tier_new, Address_offset_new, Nat2Z.id by done.
Qed.

Lemma val_at_upd vs a b f :
  0 ≤ a < 2 ^ 64 → 0 ≤ b < 2 ^ 64 → (∀ m o, o ≠ Address_offset a → f m !! o = m !! o) → b ≠ a →
  val_at (upd_at vs a f) b = val_at vs b.
Proof.
  intros Ha Hb Hf Hne. unfold val_at, upd_at.
  destruct (decide (Z.to_nat (Address_size_tier a) = Z.to_nat (Address_size_tier b))) as [E|E].
  - rewrite E, list_lookup_alter_eq. destruct (vs !! _); [|done]. simpl. apply Hf. intros Eo. apply Hne.
    destruct (address_parts a Ha) as (_ & [? _] & _ & <-). destruct (address_parts b Hb) as (_ & [? _] & _ & <-).
    rewrite Eo. f_equal. lia.
  - by rewrite list_lookup_alter_ne.
Qed.

Lemma val_at_upd_eq vs a f : val_at (upd_at vs a f) a = vs !! Z.to_nat (Address_size_tier a) ≫= λ m, f m !! Address_offset a.
Proof. unfold val_at, upd_at. rewrite list_lookup_alter_eq. by destruct (vs !! _). Qed.

(** ** One tier changes *)
Section tables.
Context {col : Z} {rc : bool} {kl : nat} {ts : list ValueTable} {vs : list (gmap Z vrec)}.

Lemma tables_get `{HL : LogQuery L} {log : L} (Ht : tables_inv col rc kl ts log vs) tier :
  (tier < SIZE_TIERS)%nat → ∃ t m, ts !! tier = Some t ∧ vs !! tier = Some m ∧ table_inv t log kl m.
Proof.
  intros Hlt. destruct (tt_len Ht) as [H1 H2].
  destruct (lookup_lt_is_Some_2 ts tier ltac:(lia)) as [t Et].
  destruct (lookup_lt_is_Some_2 vs tier ltac:(lia)) as [m Em]. exists t, m. split_and!; try done. by eapply (tt_inv Ht).
Qed.

(** The table an address points into. *)
Lemma val_at_table `{HL : LogQuery L} {log : L} (Ht : tables_inv col rc kl ts log vs) a v :
  val_at vs a = Some v → ∃ t m, ts !! Z.to_nat (Address_size_tier a) = Some t ∧
    vs !! Z.to_nat (Address_size_tier a) = Some m ∧ m !! Address_offset a = Some v ∧
    table_inv t log kl m ∧ ref_counted t = rc ∧ 1 ≤ Address_offset a < filled t.
Proof.
  unfold val_at. destruct (vs !! _) as [m|] eqn:Em; [|done]. simpl. intros Hv.
  destruct (tt_len Ht) as [Hl1 Hl2]. pose proof (lookup_lt_Some _ _ _ Em) as Hlt.
  destruct (tables_get Ht (Z.to_nat (Address_size_tier a))) as (t & m' & Et & Em' & Hti); [lia|].
  rewrite Em in Em'. injection Em' as <-. exists t, m.
  destruct (tt_id Ht _ _ Et) as [_ Hrc]. split_and!; try done;
    destruct Hti as (H & slots & fl & Hst); destruct (ts_slots Hst _ _ Hv) as (l & Hl & Hc & _);
    destruct (chain_head _ _ _ _ _ _ Hc) as [l' ->];
    pose proof (ts_range Hst (Address_offset a) _ _ Hl ltac:(set_solver)); lia.
Qed.

Lemma tables_upd {log log' : LogWriter} (Ht : tables_inv col rc kl ts log vs) tier t t' m f :
  ts !! tier = Some t → vs !! tier = Some m → shape t' = shape t → frame t' log log' →
  table_inv t' log' kl (f m) → tables_inv col rc kl (<[tier := t']> ts) log' (alter f tier vs).
Proof.
  intros Et Em Hsh Hf Hi. pose proof (shape_inv _ _ Hsh) as (Eid & Ees & _ & Emp & Erc & _).
  destruct (tt_len Ht) as [H1 H2]. pose proof (lookup_lt_Some _ _ _ Et) as Hlt. split.
  - by rewrite length_insert, length_alter.
  - intros k x. rewrite list_lookup_insert. case_decide as Hd; [|by apply (tt_id Ht)].
    intros [= <-]. destruct Hd as [-> _]. rewrite Eid, Erc. by apply (tt_id Ht).
  - intros k x. rewrite list_lookup_insert. case_decide as Hd; [|by apply (tt_size Ht)].
    intros [= <-]. destruct Hd as [-> _]. rewrite Emp, Ees. by apply (tt_size Ht).
  - intros k x m'. rewrite list_lookup_insert. case_decide as Hd.
    + intros [= <-]. destruct Hd as [<- _]. rewrite list_lookup_alter_eq, Em. by intros [= <-].
    + intros Ex. assert (tier ≠ k) as Hne.
      { intros ->. apply Hd. split; [done|]. by eapply lookup_lt_Some. }
      rewrite list_lookup_alter_ne by done. intros Em'.
      eapply table_inv_view; [|by eapply (tt_inv Ht)]. intros j. eapply frame_value_entry; [done|].
      rewrite Eid. destruct (tt_id Ht _ _ Et) as [-> _]. destruct (tt_id Ht _ _ Ex) as [-> _].
      intros E. apply TableId_tier_inj in E; [congruence| |]; rewrite <-H1; by eapply lookup_lt_Some.
Qed.

Lemma tables_view `{HL : LogQuery L} `{HL' : LogQuery L'} {log : L} {log' : L'} :
  (∀ tbl i, value_entry log' tbl i = value_entry log tbl i) →
  tables_inv col rc kl ts log vs → tables_inv col rc kl ts log' vs.
Proof.
  intros Hx [H1 H2 H3 H4]. split; try done. intros tier t m Et Em.
  apply (table_inv_view t log log'); [|by eapply H4]. intros j. apply Hx.
Qed.
End tables.

(** ** The tier of a new value *)
Lemma SIZES_facts :
  length SIZES = 255%nat ∧ (∀ i s, SIZES !! i = Some s → 32 ≤ s ≤ 32760) ∧ SIZES !! 254%nat = Some 32760.
Proof.
  split_and!; [reflexivity| |reflexivity].
  assert (H : Forall (λ s, 32 ≤ s ≤ 32760) SIZES) by (unfold SIZES; repeat (constructor; [lia|]); constructor).
  intros i s Hi. exact (Forall_lookup_1 _ _ _ _ H Hi).
Qed.

Lemma holds_fits t key len :
  wf_table t → holds key (Z.of_nat len) t = bool_decide (len + ref_size t + encoded_size key ≤ es_nat t - 2)%nat.
Proof.
  intros Ht. pose proof (wf_es _ Ht) as Hes. unfold holds, value_size, SIZE_SIZE, es_nat.
  destruct (decide (entry_size t - 2 - Z.of_nat (ref_size t) < Z.of_nat (encoded_size key))).
  - rewrite (bool_decide_true (_ < _)) by lia. symmetry. apply bool_decide_eq_false. lia.
  - rewrite (bool_decide_false (_ < _)) by lia. apply bool_decide_ext. lia.
Qed.

Section tier.
Context `{Compressors} `{HL : LogQuery L} {col : Z} {rc : bool} {kl : nat} {ts : list ValueTable} {vs : list (gmap Z vrec)} {log : L}.
Context (Ht : tables_inv col rc kl ts log vs).

Lemma tables_wf tier t : ts !! tier = Some t → wf_table t.
Proof.
  intros Et. destruct (tables_get Ht tier) as (t0 & m & E1 & _ & (? & ? & ? & Hst)).
  { destruct (tt_len Ht) as [<- _]. by eapply lookup_lt_Some. }
  rewrite Et in E1. injection E1 as <-. apply Hst.
Qed.

(** Reading the value at an address. *)
Lemma value_query_ok key a v : encoded_size key = kl → val_at vs a = Some v → query_ok (QCheck key) (v_key v).
Proof.
  intros Hk Hv. destruct (val_at_table Ht a v Hv) as (t & m & _ & _ & Hm & Hti & _). by eapply (query_ok_check Hti key).
Qed.

Lemma get_value_spec junk (Hjunk : length junk = MAX_ENTRY_BUF_SIZE) comp key a v :
  val_at vs a = Some v → query_ok key (v_key v) →
  get_value junk comp ts key a log
  = if query_hit key (v_key v) then x ← plain comp v; Ok (Some (Address_size_tier a, x)) else Ok None.
Proof.
  intros Hv Hq. destruct (val_at_table Ht a v Hv) as (t & m & Et & Em & Hm & Hti & _ & Hr).
  unfold get_value. rewrite Et, (query_spec junk Hjunk Hti) by (done || congruence).
  rewrite Hm. simpl. destruct (query_hit key (v_key v)); [|done]. simpl. unfold plain. by destruct (v_comp v).
Qed.

Lemma tier_fits key len tier :
  tier = match list_find (λ t, holds key (Z.of_nat len) t = true) ts with Some (i, _) => i | None => pred (length ts) end →
  ∃ t, ts !! tier = Some t ∧
    if multipart t then (es_nat t - 2 < len + ref_size t + encoded_size key)%nat
    else (len + ref_size t + encoded_size key ≤ es_nat t - 2)%nat.
Proof.
  intros ->. destruct SIZES_facts as (HS1 & HS2 & HS3). destruct (tt_len Ht) as [Hl _]. unfold SIZE_TIERS in Hl.
  assert (Hlast : ∀ t, ts !! 255%nat = Some t → multipart t = true ∧ es_nat t = 4096%nat).
  { intros t Et. destruct (tt_size Ht _ _ Et) as [Hm He]. unfold es_nat. rewrite Hm, He.
    rewrite (lookup_ge_None_2 SIZES 255) by lia. done. }
  assert (Hnl : ∀ i t, (i < 255)%nat → ts !! i = Some t → multipart t = false).
  { intros i t Hi Et. destruct (tt_size Ht _ _ Et) as [-> _]. apply bool_decide_eq_false. intros E.
    apply lookup_ge_None_1 in E. lia. }
  destruct (lookup_lt_is_Some_2 ts 254 ltac:(lia)) as [t254 E254].
  assert (He254 : es_nat t254 = Z.to_nat 32760).
  { destruct (tt_size Ht _ _ E254) as [_ He]. unfold es_nat. by rewrite He, HS3. }
  assert (Hr : ∀ i t, ts !! i = Some t → ref_size t = ref_size t254).
  { intros i t Et. unfold ref_size. destruct (tt_id Ht _ _ Et) as [_ ->]. by destruct (tt_id Ht _ _ E254) as [_ ->]. }
  assert (Hbig : holds key (Z.of_nat len) t254 ≠ true → ∀ t, ts !! 255%nat = Some t →
    (es_nat t - 2 < len + ref_size t + encoded_size key)%nat).
  { intros Hn t Et. rewrite holds_fits in Hn by (by eapply tables_wf). rewrite (Hr _ _ Et).
    rewrite bool_decide_eq_true in Hn. destruct (Hlast t Et) as [_ ->]. lia. }
  destruct (list_find _ ts) as [[i t]|] eqn:Ef.
  - apply list_find_Some in Ef as (Et & Hh & Hbefore). exists t. split; [done|].
    pose proof (lookup_lt_Some _ _ _ Et). destruct (decide (i = 255%nat)) as [->|].
    + destruct (Hlast t Et) as [-> _]. apply Hbig; [|done]. by apply (Hbefore 254%nat); [|lia].
    + rewrite (Hnl i t) by (done || lia). rewrite holds_fits in Hh by (by eapply tables_wf).
      by apply bool_decide_eq_true in Hh.
  - rewrite Hl. simpl. destruct (lookup_lt_is_Some_2 ts 255 ltac:(lia)) as [t Et]. exists t. split; [done|].
    destruct (Hlast t Et) as [-> _]. apply Hbig; [|done].
    apply list_find_None in Ef. rewrite Forall_lookup in Ef. by apply (Ef 254%nat).
Qed.

(** What [compress] returns: a form of the value that decompresses to it, and the tier of a
    table that form fits. *)
Lemma compress_spec `{!CompressorsOk _} comp key value cval tier sv c :
  Column_compress comp key value ts = (cval, tier) → stored_form cval value = (sv, c) →
  (∃ t, ts !! tier = Some t ∧ fits t key sv) ∧ (length sv ≤ length value)%nat ∧
  (if c then Compress_decompress comp sv = Ok value else sv = value).
Proof.
  unfold Column_compress. intros E Es.
  set (p := if bool_decide (threshold comp < Z.of_nat (length value)) then _ else _) in E.
  assert (Hp : p.1 = length sv ∧ (length sv ≤ length value)%nat ∧ p.2 = cval ∧
    (if c then Compress_decompress comp sv = Ok value else sv = value)).
  { revert E Es. unfold p. case_bool_decide; [case_bool_decide|]; intros [= <- _] [= <- <-]; split_and!; try done; try lia.
    apply compress_roundtrip. }
  destruct p as [len r]. simpl in Hp. destruct Hp as (-> & Hle & -> & Hd).
  split; [|done]. injection E as E. apply (tier_fits key (length sv) tier). by rewrite E.
Qed.
End tier.
