(* ===== verification/ColumnValues.v ===== *)
(** * Columns: the plans for values

    The plans that hash and tree columns share, on the tables of a column: each changes one
    value, leaves the others and the index part of the log alone, and takes at most a known
    number of new slots. *)

From S2P Require Import Prelude IndexEntry IndexChunk Log Stats IndexTable ValueEntry File ValueTable ValueSlots ValueChains ValueWrite ValueRead ValueInv ValueSpec Compress Column ColumnTables.

(** ** What a change does to the value of its key: a reference counter and the value *)
Definition spec_step {K} (ref_counted preimage : bool) (change : Operation K bytes) (cur : option (Z * bytes))
    : option (Z * bytes) :=
  match change, cur with
  | OpSet _ v, None => Some (1, v)
  | OpSet _ v, Some (n, x) =>
      if ref_counted then Some (inc n, x) else if preimage then Some (n, x) else Some (1, v)
  | OpReference _, Some (n, x) => if ref_counted then Some (inc n, x) else Some (n, x)
  | OpDereference _, Some (n, x) =>
      if ref_counted then if bool_decide (dec n = 0) then None else Some (dec n, x) else None
  | _, None => None
  end.

Definition reading `{Compressors} (comp : Compress) (v : vrec) : option (Z * bytes) :=
  match plain comp v with Ok x => Some (v_rc v, x) | _ => None end.

(** ** Running a plan on one table *)
Lemma on_table_run {A} tier (m : M (ValueTable * LogWriter) A) s t o t' log' :
  vs_tables s !! tier = Some t → m (t, vs_log s) = (o, (t', log')) →
  on_table tier m s = (o, mkVS (<[tier := t']> (vs_tables s)) log' (vs_stats s)).
Proof. intros Et Em. unfold on_table. by rewrite Et, Em. Qed.

Lemma on_table_other {A} tier (m : M (ValueTable * LogWriter) A) s o s' :
  on_table tier m s = (o, s') → ∀ k, k ≠ tier → vs_tables s' !! k = vs_tables s !! k.
Proof.
  unfold on_table. destruct (vs_tables s !! tier) as [t|]; [|by intros [= _ <-]].
  destruct (m (t, vs_log s)) as [? [t' log']]. intros [= _ <-] k Hk. simpl. by rewrite list_lookup_insert_ne.
Qed.

Lemma upd_stats_run f s : upd_stats f s = (Ok tt, mkVS (vs_tables s) (vs_log s) (f <$> vs_stats s)).
Proof. done. Qed.

(** No table has more than [n] slots more than before. *)
Definition grown (n : Z) (ts ts' : list ValueTable) : Prop :=
  ∀ tier t', ts' !! tier = Some t' → ∃ t, ts !! tier = Some t ∧ filled t' ≤ filled t + n.

Lemma grown_trans n n' ts ts' ts'' : grown n ts ts' → grown n' ts' ts'' → grown (n + n') ts ts''.
Proof.
  intros H1 H2 tier t'' E. destruct (H2 _ _ E) as (t' & E' & ?). destruct (H1 _ _ E') as (t & ? & ?). exists t. split; [done|lia].
Qed.

Lemma grown_insert n ts tier t t' :
  ts !! tier = Some t → 0 ≤ n → filled t' ≤ filled t + n → grown n ts (<[tier := t']> ts).
Proof.
  intros Et Hn Hf k x. rewrite list_lookup_insert. case_decide as Hd.
  - intros [= <-]. destruct Hd as [<- _]. eauto.
  - intros Ex. exists x. split; [done|lia].
Qed.

(** A table before and after an operation: it keeps what it is, does not shrink, and knows
    when its header has changed. *)
Definition evolved (t t' : ValueTable) : Prop := shape t' = shape t ∧ filled t ≤ filled t' ∧ dirtied t t'.

#[export] Instance evolved_preorder : PreOrder evolved.
Proof.
  split; [intros t; split_and!; [done|lia|by left]|]. intros a b c (Hs1 & Hf1 & Hd1) (Hs2 & Hf2 & Hd2).
  split_and!; [congruence|lia|by eapply dirtied_trans].
Qed.

(** What is new in a record comes from the tables [ts]. *)
Definition items_of (ts : list ValueTable) (log log' : LogWriter) : Prop :=
  (∀ id i x, local_value log' id i = Some x → local_value log id i = Some x ∨
    (x.1 = record_id (change log) ∧ ∃ tier t, ts !! tier = Some t ∧ vt_id t = id ∧ item_ok t i x.2)) ∧
  ∀ id i, (∀ tier t, ts !! tier = Some t → vt_id t ≠ id) → local_value log' id i = local_value log id i.

Definition same_rest (log log' : LogWriter) : Prop :=
  overlays log' = overlays log ∧ record_id (change log') = record_id (change log) ∧
  local_index (change log') = local_index (change log) ∧ dropped_tables (change log') = dropped_tables (change log).

#[export] Instance same_rest_preorder : PreOrder same_rest.
Proof. split; [by intros w|]. intros a b c (?&?&?&?) (?&?&?&?). unfold same_rest. split_and!; congruence. Qed.

Lemma items_of_trans ts ts' a b c :
  Forall2 evolved ts ts' → record_id (change b) = record_id (change a) → items_of ts a b → items_of ts' b c → items_of ts' a c.
Proof.
  intros He Hr [Hab Oab] [Hbc Obc].
  assert (Hback : ∀ tier t, ts !! tier = Some t → ∃ t', ts' !! tier = Some t' ∧ vt_id t' = vt_id t ∧ ∀ i d, item_ok t i d → item_ok t' i d).
  { intros tier t Et. destruct (Forall2_lookup_l _ _ _ _ _ He Et) as (t' & Et' & Hs & Hf & _). pose proof (shape_inv _ _ Hs) as (Hid' & _).
    exists t'. split_and!; [done|done|]. intros i d. by apply item_ok_shape. }
  split.
  - intros id i x Hx. destruct (Hbc id i x Hx) as [Hb|[G1 G2]]; [|right; split; [congruence|done]].
    destruct (Hab id i x Hb) as [?|(G1 & tier & t & Et & Hid & Hi)]; [by left|right]. split; [done|].
    destruct (Hback _ _ Et) as (t' & Et' & Hid' & Hok). exists tier, t'. split_and!; [done|congruence|by apply Hok].
  - intros id i Hno. rewrite Obc by done. apply Oab. intros tier t Et. destruct (Hback _ _ Et) as (t' & Et' & <- & _). by eapply Hno.
Qed.

Lemma items_of_frame ts tier t log log' : ts !! tier = Some t → frame t log log' → items_of ts log log'.
Proof.
  intros Et (_ & _ & _ & _ & Ho & Hi). split.
  - intros id i x Hx. destruct (decide (id = vt_id t)) as [->|Hne].
    + destruct (Hi i x Hx) as [?|[G1 G2]]; [by left|right]. split; [done|]. by exists tier, t.
    + left. unfold local_value in *. by rewrite <-Ho.
  - intros id i Hno. unfold local_value. rewrite Ho; [done|]. intros ->. by apply (Hno tier t).
Qed.

(** What a plan for values leaves: the tables hold [vs'], they have grown by [n] at most, and
    the record has entries of the tables that it had not before, and nothing else new. *)
Record vpost (col : Z) (rc : bool) (kl : nat) (n : Z) (s s' : VState) (vs' : list (gmap Z vrec)) : Prop := {
  vp_tables : tables_inv col rc kl (vs_tables s') (vs_log s') vs';
  vp_rest : same_rest (vs_log s) (vs_log s');
  vp_grown : grown n (vs_tables s) (vs_tables s');
  vp_evolved : Forall2 evolved (vs_tables s) (vs_tables s');
  vp_items : items_of (vs_tables s') (vs_log s) (vs_log s');
}.
#[global] Arguments vp_tables {col rc kl n s s' vs'}.
#[global] Arguments vp_rest {col rc kl n s s' vs'}.
#[global] Arguments vp_grown {col rc kl n s s' vs'}.
#[global] Arguments vp_evolved {col rc kl n s s' vs'}.
#[global] Arguments vp_items {col rc kl n s s' vs'}.

Lemma vp_index {col rc kl n s s' vs'} : vpost col rc kl n s s' vs' →
  ∀ tbl i, with_index (vs_log s') tbl i = with_index (vs_log s) tbl i.
Proof. intros Hp tbl i. destruct (vp_rest Hp) as (Ho & _ & Hi & _). simpl. by rewrite Hi, Ho. Qed.

Lemma vpost_stats col rc kl n s s' vs' st :
  vpost col rc kl n s s' vs' → vpost col rc kl n s (mkVS (vs_tables s') (vs_log s') st) vs'.
Proof. intros []. by split. Qed.

Lemma vpost_trans col rc kl n n' s s' s'' vs' vs'' :
  vpost col rc kl n s s' vs' → vpost col rc kl n' s' s'' vs'' → vpost col rc kl (n + n') s s'' vs''.
Proof.
  intros [_ I1 G1 E1 T1] [T2 I2 G2 E2 T3]. split; [done|by etrans|by eapply grown_trans|by etrans|].
  apply (items_of_trans _ _ _ _ _ E2 (proj1 (proj2 I1)) T1 T3).
Qed.

Section values.
Context (junk : bytes) (Hjunk : length junk = MAX_ENTRY_BUF_SIZE).
Context {col : Z} {rc : bool} {kl : nat} {s : VState} {vs : list (gmap Z vrec)}.
Context (Ht : tables_inv col rc kl (vs_tables s) (vs_log s) vs).

Lemma vpost_upd n tier t t' m f log' st :
  0 ≤ n → filled t' ≤ filled t + n →
  vs_tables s !! tier = Some t → vs !! tier = Some m → evolved t t' → frame t' (vs_log s) log' →
  table_inv t' log' kl (f m) →
  vpost col rc kl n s (mkVS (<[tier := t']> (vs_tables s)) log' st) (alter f tier vs).
Proof.
  intros Hn Hfi Et Em He Hf Hi. split; simpl.
  - eapply tables_upd; [done..|apply He|done|done].
  - destruct Hf as (?&?&?&?&_). by split_and!.
  - by eapply grown_insert.
  - rewrite <-(list_insert_id _ _ _ Et) at 1. apply Forall2_insert; [|done]. by apply Forall_Forall2_diag, Forall_true.
  - eapply items_of_frame; [|done]. apply list_lookup_insert_eq. by eapply lookup_lt_Some.
Qed.

Lemma plan_remove a v :
  val_at vs a = Some v → let tier := Z.to_nat (Address_size_tier a) in
  ∃ t' log', on_table tier (ValueTable_write_remove_plan junk (Address_offset a)) s
    = (Ok tt, mkVS (<[tier := t']> (vs_tables s)) log' (vs_stats s)) ∧
    vpost col rc kl 0 s (mkVS (<[tier := t']> (vs_tables s)) log' (vs_stats s)) (upd_at vs a (delete (Address_offset a))).
Proof.
  intros Hv tier. destruct (val_at_table Ht a v Hv) as (t & m & Et & Em & Hm & Hti & _ & _).
  destruct (remove_spec junk Hjunk _ _ v Hti Hm) as (t' & log' & E & Hsh & Hfi & Hf & Hd & Hi).
  exists t', log'. split; [by eapply on_table_run|].
  eapply vpost_upd; [| |done|done|split_and!; [done|lia|by right]|done..]; [done|lia].
Qed.

Lemma plan_inc a v :
  rc = true → val_at vs a = Some v → let tier := Z.to_nat (Address_size_tier a) in
  ∃ s', on_table tier (write_inc_ref junk (Address_offset a)) s = (Ok tt, s') ∧ vs_stats s' = vs_stats s ∧
    vpost col rc kl 0 s s' (upd_at vs a (insert (Address_offset a) (set_rc (inc (v_rc v)) v))).
Proof.
  intros Hr Hv tier. destruct (val_at_table Ht a v Hv) as (t & m & Et & Em & Hm & Hti & Hrc & _).
  destruct (inc_ref_spec junk Hjunk _ _ v Hti ltac:(congruence) Hm) as (log' & E & Hf & Hi).
  eexists. split; [by eapply on_table_run|]. split; [done|].
  eapply vpost_upd; [| |done|done|done|done..]; [done|lia].
Qed.

Lemma plan_dec a v :
  rc = true → val_at vs a = Some v → let tier := Z.to_nat (Address_size_tier a) in
  ∃ s', on_table tier (write_dec_ref junk (Address_offset a)) s = (Ok (bool_decide (dec (v_rc v) ≠ 0)), s') ∧
    vs_stats s' = vs_stats s ∧
    vpost col rc kl 0 s s' (upd_at vs a (if bool_decide (dec (v_rc v) = 0) then delete (Address_offset a)
                                      else insert (Address_offset a) (set_rc (dec (v_rc v)) v))).
Proof.
  intros Hr Hv tier. destruct (val_at_table Ht a v Hv) as (t & m & Et & Em & Hm & Hti & Hrc & _).
  destruct (dec_ref_spec junk Hjunk _ _ v Hti ltac:(congruence) Hm) as (t' & log' & E & Hfi & Hsh & Hf & Hd & Hi).
  eexists. split; [by eapply on_table_run|]. split; [done|].
  eapply vpost_upd; [| |done|done|split_and!; [done|lia|done]|done|]; [done|lia|]. by case_bool_decide.
Qed.

Lemma plan_replace a v key sv cc t :
  val_at vs a = Some v → wf_key key → encoded_size key = kl → let tier := Z.to_nat (Address_size_tier a) in
  vs_tables s !! tier = Some t → fits t key sv → room t (S (stored_size t key sv)) →
  ∃ s', on_table tier (ValueTable_write_replace_plan junk (Address_offset a) key sv cc) s = (Ok tt, s') ∧
    vs_stats s' = vs_stats s ∧
    vpost col rc kl (Z.of_nat (stored_size t key sv)) s s' (upd_at vs a (insert (Address_offset a) (mkVal 1 (key_bytes key) sv cc))).
Proof.
  intros Hv Hk Hkl tier Et Hfit Hroom. destruct (val_at_table Ht a v Hv) as (t0 & m & Et0 & Em & Hm & Hti & Hrc & _).
  assert (t0 = t) as -> by (unfold tier in Et; congruence).
  destruct (replace_spec junk Hjunk _ _ v key sv cc Hti Hm) as (t' & log' & E & Hfi & Hsh & Hf & Hd & Hi); try done.
  { unfold room in *. pose proof (wf_es _ (tables_wf Ht _ _ Et)). nia. }
  eexists. split; [by eapply on_table_run|]. split; [done|].
  eapply vpost_upd; [| |done|done|split_and!; [done|lia|done]|done..]; lia.
Qed.

(** The offset of a new value is below [2 ^ b], for the number of bits [b] the slots fit in. *)
Lemma plan_insert b tier t key sv cc :
  0 ≤ b ≤ 56 → wf_key key → encoded_size key = kl → vs_tables s !! tier = Some t → fits t key sv →
  filled t + Z.of_nat (S (stored_size t key sv)) ≤ 2 ^ b → room t (S (stored_size t key sv)) →
  ∃ o s', on_table tier (ValueTable_write_insert_plan junk key sv cc) s = (Ok o, s') ∧
    vs_stats s' = vs_stats s ∧ in_range 56 o ∧ (tier < SIZE_TIERS)%nat ∧
    0 < Address_new o (Z.of_nat tier) < 2 ^ (b + 8) ∧ val_at vs (Address_new o (Z.of_nat tier)) = None ∧
    vpost col rc kl (Z.of_nat (S (stored_size t key sv))) s s'
      (upd_at vs (Address_new o (Z.of_nat tier)) (insert o (mkVal 1 (key_bytes key) sv cc))).
Proof.
  intros Hb Hk Hkl Et Hfit Hr1 Hr2. assert (Hlt : (tier < SIZE_TIERS)%nat).
  { destruct (tt_len Ht) as [<- _]. by eapply lookup_lt_Some. }
  destruct (tables_get Ht tier Hlt) as (t0 & m & Et0 & Em & Hti). assert (t0 = t) as -> by congruence.
  destruct (insert_spec junk Hjunk (vs_log s) key sv cc Hti) as
    (o & t' & log' & E & Ho & Hfl & Hn & Hsh & Hf & Hd & Hi); try done.
  assert (Hp : 2 ^ (b + 8) = 2 ^ b * 256) by (by rewrite Z.pow_add_r by lia).
  assert (H56 : in_range 56 o).
  { unfold in_range. pose proof (Z.pow_le_mono_r 2 b 56 ltac:(lia) ltac:(lia)). lia. }
  pose proof (tier_range _ Hlt) as Htr. exists o. eexists. split; [by eapply on_table_run|].
  split_and!; try done; [rewrite Address_new_eq by done; unfold in_range in Htr; change (2 ^ 8) with 256 in *; lia..| |].
  - rewrite val_at_new by done. by rewrite Em.
  - unfold upd_at. rewrite Address_size_tier_new, Nat2Z.id by done.
    eapply vpost_upd; [| |done|done|split_and!; [done|lia|done]|done..]; lia.
Qed.

(** Reading the old size, for the statistics. *)
Lemma fetch_size_spec `{Compressors} comp a v key x :
  val_at vs a = Some v → encoded_size key = kl → v_key v = key_bytes key → plain comp v = Ok x →
  ∃ p, fetch_size junk comp key a s = (Ok p, s).
Proof.
  intros Hv Hk Hkey Hx. destruct (val_at_table Ht a v Hv) as (t & m & Et & Em & Hm & Hti & Hrc & Hr).
  unfold fetch_size. rewrite Et, (size_spec junk Hjunk Hti key) by done. rewrite Hm. simpl.
  rewrite bool_decide_true by done. simpl. destruct (v_comp v) eqn:Ec; [|eauto].
  rewrite (get_spec junk Hjunk Hti key) by done. rewrite Hm. simpl. rewrite bool_decide_true by done.
  simpl. unfold plain in Hx. rewrite Ec in Hx. rewrite Hx. simpl. eauto.
Qed.
End values.
