(* ===== verification/ColumnRecord.v ===== *)
(** * Columns: what a plan puts in the record

    The plans of a hash column add to the record under construction: contents of slots of its
    value tables, headers, and chunks of its index whose masks name all the entries changed. *)

From S2P Require Import Prelude IndexEntry IndexChunk Log Stats IndexTable IndexEnact ValueEntry File ValueTable ValueSlots ValueChains ValueWrite ValueRead ValueInv ValueSpec Compress Column ColumnTables ColumnValues.

Record recorded (c c' : HashColumn) (log log' : LogWriter) : Prop := {
  re_overlays : overlays log' = overlays log;
  re_id : record_id (change log') = record_id (change log);
  re_dropped : dropped_tables (change log') = dropped_tables (change log);
  re_tables : Forall2 evolved (hc_value c) (hc_value c');
  re_items : items_of (hc_value c') log log';
  re_masks : wf_index (hc_index c) log → masks_ok (hc_index c) log → masks_ok (hc_index c) log';
  re_chunks : ∀ id ci x, local_chunk log' id ci = Some x → local_chunk log id ci = Some x ∨
    (x.1.1 = record_id (change log) ∧ id = it_id (hc_index c) ∧ 0 ≤ ci < total_chunks (bits_of (hc_index c)));
  re_others : ∀ id ci, id ≠ it_id (hc_index c) → local_chunk log' id ci = local_chunk log id ci;
}.
#[global] Arguments re_overlays {c c' log log'}.
#[global] Arguments re_id {c c' log log'}.
#[global] Arguments re_dropped {c c' log log'}.
#[global] Arguments re_tables {c c' log log'}.
#[global] Arguments re_items {c c' log log'}.
#[global] Arguments re_masks {c c' log log'}.
#[global] Arguments re_chunks {c c' log log'}.
#[global] Arguments re_others {c c' log log'}.

Lemma recorded_refl c c' log : hc_value c' = hc_value c → recorded c c' log log.
Proof.
  intros Hv. split; try done; rewrite ?Hv.
  - by apply Forall_Forall2_diag, Forall_true.
  - split; [intros id i x Hx; by left|done].
  - intros id ci x Hx. by left.
Qed.

Lemma same_rest_chunk log log' id ci : same_rest log log' → local_chunk log' id ci = local_chunk log id ci.
Proof. intros (_ & _ & Hi & _). unfold local_chunk. by rewrite Hi. Qed.

Lemma masks_ok_rest t log log' : same_rest log log' → masks_ok t log → masks_ok t log'.
Proof.
  intros Hr Hm ci rid mask chunk. rewrite (same_rest_chunk _ _ _ _ Hr). intros Hc. destruct Hr as (-> & _). by apply (Hm ci rid).
Qed.

(** A plan for values. *)
Lemma recorded_values c c' s s' col rc kl n vs' :
  hc_value c = vs_tables s → hc_value c' = vs_tables s' → vpost col rc kl n s s' vs' → recorded c c' (vs_log s) (vs_log s').
Proof.
  intros Hc Hc' Hp. destruct (vp_rest Hp) as (H1 & H2 & H3 & H4). split; try done; rewrite ?Hc, ?Hc'; try apply Hp.
  - intros _. apply masks_ok_rest, Hp.
  - intros id ci x. rewrite (same_rest_chunk _ _ _ _ (vp_rest Hp)). by left.
  - intros id ci _. by rewrite (same_rest_chunk _ _ _ _ (vp_rest Hp)).
Qed.

Lemma local_chunk_insert id ci s d w id' j :
  ∃ m, local_chunk (insert_index id ci s d w) id' j
    = if decide (id = id' ∧ ci = j) then Some (record_id (change w), m, d) else local_chunk w id' j.
Proof.
  unfold local_chunk. simpl. eexists. destruct (decide (id = id')) as [<-|Hne].
  - rewrite lookup_insert_eq. simpl. rewrite lookup_insert. repeat case_decide; try naive_solver.
    by destruct (local_index (change w) !! id).
  - rewrite lookup_insert_ne by done. by rewrite decide_False by naive_solver.
Qed.

(** An entry of the index after a plan for values. *)
Lemma recorded_entry c c' log log' log2 ci :
  recorded c c' log log' → (∀ k, chunk_view (hc_index c) log' k = chunk_view (hc_index c) log k) →
  0 ≤ ci < total_chunks (bits_of (hc_index c)) → entry_written (hc_index c) ci log' log2 → recorded c c' log log2.
Proof.
  intros [] Hv Hci (i & e & chunk & Hi & Hw & ->). split; try done.
  - intros Hwf Hm. eapply masks_ok_insert; [by apply re_masks0| |done|done]. destruct Hwf as [Hb Hl]. split; [done|]. intros k. by rewrite Hv.
  - intros id k x. destruct (local_chunk_insert (it_id (hc_index c)) ci (u8 (Z.of_nat i)) chunk log' id k) as [m ->].
    case_decide as E; [|apply re_chunks0]. destruct E as [<- <-]. intros [= <-]. right. split_and!; try done; lia.
  - intros id k Hne. destruct (local_chunk_insert (it_id (hc_index c)) ci (u8 (Z.of_nat i)) chunk log' id k) as [m ->].
    rewrite decide_False by naive_solver. by apply re_others0.
Qed.

Lemma recorded_trans c1 c2 c3 a b d :
  hc_index c2 = hc_index c1 → wf_index (hc_index c1) b → recorded c1 c2 a b → recorded c2 c3 b d → recorded c1 c3 a d.
Proof.
  intros Hi Hwf [O1 I1 D1 T1 V1 M1 C1 N1] [O2 I2 D2 T2 V2 M2 C2 N2]. rewrite Hi in *. split; try congruence.
  - by etrans.
  - by apply (items_of_trans _ _ _ _ _ T2 I1 V1 V2).
  - intros Hw Hm. apply M2; [done|]. by apply M1.
  - intros id ci x Hx. destruct (C2 _ _ _ Hx) as [Hb|(G1 & G2)]; [by apply C1|]. right. by rewrite <-I1.
  - intros id ci Hne. rewrite N2 by done. by apply N1.
Qed.
