(* ===== verification/ColumnInv.v ===== *)
(** * Columns: the contract

    A hash column that is not being reindexed is a finite map from keys to values.  [col_inv]
    relates a column and a log to the map [kv] from keys to addresses and the contents [vs] of
    the value tables: the index holds [kv], the tables hold [vs], every key leads to a value
    stored with that key, and every value belongs to a key. *)

From S2P Require Import Prelude IndexEntry IndexChunk Log Stats IndexTable ValueEntry File ValueTable ValueSlots ValueChains ValueWrite ValueRead ValueInv ValueSpec Compress Column ColumnSearch ColumnIndex ColumnTables.

(** The value the maps give to a key. *)
Definition col_map (kv : gmap bytes Z) (vs : list (gmap Z vrec)) (key : bytes) : option vrec :=
  kv !! key ≫= val_at vs.

Record col_inv `{Compressors} `{HL : LogQuery L} (c : HashColumn) (log : L) (kv : gmap bytes Z)
    (vs : list (gmap Z vrec)) : Prop := {
  ci_index : index_inv (hc_index c) log kv;
  ci_tables : tables_inv (hc_col c) (hc_ref_counted c) PARTIAL_SIZE (hc_value c) log vs;
  ci_links : ∀ key a, kv !! key = Some a →
    ∃ v x, val_at vs a = Some v ∧ v_key v = partial_key key ∧ plain (hc_compression c) v = Ok x;
  ci_vals : ∀ a v, 0 ≤ a < 2 ^ 64 → val_at vs a = Some v → ∃ key, kv !! key = Some a;
}.
#[global] Arguments ci_index {_ L HL c log kv vs}.
#[global] Arguments ci_tables {_ L HL c log kv vs}.
#[global] Arguments ci_links {_ L HL c log kv vs}.
#[global] Arguments ci_vals {_ L HL c log kv vs}.

Section inv.
Context `{HC : Compressors}.
Context `{HL : LogQuery L} {c : HashColumn} {log : L} {kv : gmap bytes Z} {vs : list (gmap Z vrec)}.
Context (Hinv : col_inv c log kv vs).

Lemma key_facts key a :
  kv !! key = Some a → length key = KEY_SIZE ∧ 0 < a ≤ last_address (bits_of (hc_index c)) ∧ 0 ≤ a < 2 ^ 64.
Proof.
  intros Hk. destruct (xi_keys (ci_index Hinv) _ _ Hk) as (? & Ha & _). split_and!; try done; try lia.
  destruct (xi_wf (ci_index Hinv)) as [Hb _]. rewrite last_address_eq in Ha by done. unfold valid_bits in Hb.
  pose proof (Z.pow_le_mono_r 2 (bits_of (hc_index c) + 14) 64 ltac:(lia)). lia.
Qed.

(** What a lookup returns. *)
Definition lookup_result (key : bytes) : outcome (option (Z * bytes)) :=
  match kv !! key with
  | None => Ok None
  | Some a =>
      match val_at vs a with
      | None => Panic
      | Some v => x ← plain (hc_compression c) v; Ok (Some (Address_size_tier a, x))
      end
  end.

(** Whose entry a search has stopped at. *)
Lemma found_owner key sub e i :
  length key = KEY_SIZE → Entry_is_empty e = false → (sub ≤ i < CHUNK_ENTRIES)%nat →
  read_entry (chunk_view (hc_index c) log (key_chunk (hc_index c) key)) i = Ok e →
  coarse (bits_of (hc_index c)) (index_from_partial key) e →
  ∃ key' a v, kv !! key' = Some a ∧ e = key_entry (hc_index c) key' a ∧
    Entry_address e (bits_of (hc_index c)) = a ∧ val_at vs a = Some v ∧ v_key v = partial_key key' ∧
    (partial_key key = partial_key key' → key = key').
Proof.
  intros Hk He Hi Hr Hco. pose proof (ci_index Hinv) as Hx. destruct (xi_wf Hx) as [Hb Hlen].
  pose proof (key_chunk_bounds (hc_index c) log key (xi_wf Hx) Hk) as Hci.
  destruct (xi_entries Hx _ i e ltac:(lia) Hci Hr He) as (key' & a & Hkv & Hkc & ->).
  destruct (key_facts _ _ Hkv) as (Hk' & Ha & _). destruct (ci_links Hinv _ _ Hkv) as (v & x & Hv & Hvk & _).
  destruct (key_entry_range (hc_index c) key' a Hb Hk' ltac:(lia)) as (_ & Hpk & Hea).
  exists key', a, v. split_and!; try done. intros Hp.
  eapply (keys_equal (hc_index c) key key'); eauto. apply Hx.
Qed.

(** The walk does not pass the key's entry. *)
Definition not_yet (key : bytes) (sub : nat) : Prop :=
  ∀ k a, (k < sub)%nat → kv !! key = Some a →
    read_entry (chunk_view (hc_index c) log (key_chunk (hc_index c) key)) k ≠ Ok (key_entry (hc_index c) key a).

Lemma not_yet_next key sub e i key' a' :
  length key = KEY_SIZE → not_yet key sub → (sub ≤ i)%nat →
  (∀ k x, (sub ≤ k < i)%nat →
     read_entry (chunk_view (hc_index c) log (key_chunk (hc_index c) key)) k = Ok x →
     strict (bits_of (hc_index c)) (index_from_partial key) x = false) →
  read_entry (chunk_view (hc_index c) log (key_chunk (hc_index c) key)) i = Ok e →
  kv !! key' = Some a' → Entry_address e (bits_of (hc_index c)) = a' → key ≠ key' →
  not_yet key (S i).
Proof.
  intros Hk Hny Hsi Hbetween Hr Hkv' Hea Hne k a Hki Hkv Hrk.
  destruct (xi_wf (ci_index Hinv)) as [Hb _]. destruct (key_facts _ _ Hkv) as (_ & Ha & _).
  destruct (key_entry_range (hc_index c) key a Hb Hk ltac:(lia)) as (_ & Hpk & Hae).
  destruct (decide (k < sub)%nat); [by apply (Hny k a)|].
  destruct (decide (k = i)) as [->|].
  - rewrite Hr in Hrk. injection Hrk as ->. rewrite Hae in Hea. subst a'. apply Hne. by eapply (xi_inj (ci_index Hinv)).
  - pose proof (Hbetween k _ ltac:(lia) Hrk) as Hs. unfold strict in Hs.
    by rewrite Hpk, bool_decide_true, (key_entry_full (hc_index c) key a) in Hs by done.
Qed.

Lemma not_yet_end key sub :
  length key = KEY_SIZE → not_yet key sub →
  (∀ k x, (sub ≤ k < CHUNK_ENTRIES)%nat →
     read_entry (chunk_view (hc_index c) log (key_chunk (hc_index c) key)) k = Ok x →
     strict (bits_of (hc_index c)) (index_from_partial key) x = false) →
  kv !! key = None.
Proof.
  intros Hk Hny Hn. destruct (kv !! key) as [a|] eqn:Hkv; [|done]. exfalso.
  destruct (xi_wf (ci_index Hinv)) as [Hb _].
  destruct (xi_keys (ci_index Hinv) _ _ Hkv) as (_ & Ha & i & Hi & Hr).
  destruct (key_entry_range (hc_index c) key a Hb Hk ltac:(lia)) as (_ & Hpk & _).
  destruct (decide (i < sub)%nat); [by apply (Hny i a)|].
  pose proof (Hn i _ ltac:(lia) Hr) as Hs. unfold strict in Hs.
  by rewrite Hpk, bool_decide_true, (key_entry_full (hc_index c) key a) in Hs by done.
Qed.

Context (junk : bytes) (Hjunk : length junk = MAX_ENTRY_BUF_SIZE) (x86 : bool).

Lemma col_get_value key a v :
  val_at vs a = Some v → length key = KEY_SIZE →
  get_value junk (hc_compression c) (hc_value c) (QCheck (Partial key)) a log
  = if bool_decide (partial_key key = v_key v)
    then x ← plain (hc_compression c) v; Ok (Some (Address_size_tier a, x)) else Ok None.
Proof.
  intros Hv Hk. rewrite (get_value_spec (ci_tables Hinv) junk Hjunk _ _ a v Hv); [|by eapply (value_query_ok (ci_tables Hinv) (Partial key))].
  simpl. by case_bool_decide.
Qed.

Lemma get_loop_spec key : length key = KEY_SIZE → ∀ fuel sub e i,
  (sub ≤ CHUNK_ENTRIES)%nat → (CHUNK_ENTRIES - sub < fuel)%nat → not_yet key sub →
  found (bits_of (hc_index c)) (index_from_partial key)
    (chunk_view (hc_index c) log (key_chunk (hc_index c) key)) sub e i →
  get_in_index_loop x86 junk fuel c (hc_index c) key log e i = lookup_result key.
Proof.
  intros Hk. induction fuel as [|fuel IH]; intros sub e i Hs Hfu Hny Hf; [lia|]. cbn [get_in_index_loop].
  destruct Hf as [(He & Hi & Hr & Hco & Hbet)|[-> Hn]].
  - rewrite He. destruct (found_owner key sub e i Hk He Hi Hr Hco) as (key' & a & v & Hkv' & Ee & Hea & Hv & Hvk & Hsame).
    rewrite Hea. rewrite (col_get_value key a v) by done. rewrite Hvk.
    destruct (decide (partial_key key = partial_key key')) as [Hp|Hp].
    + rewrite bool_decide_true by done. specialize (Hsame Hp). subst key'. unfold lookup_result. rewrite Hkv', Hv.
      by destruct (plain (hc_compression c) v).
    + rewrite bool_decide_false by done. cbn [mbind outcome_bind].
      destruct (index_get_spec x86 (hc_index c) log key (S i)) as (e' & i' & -> & Hf'); [apply (ci_index Hinv)|done|lia|].
      cbn [mbind outcome_bind]. eapply (IH (S i)); try done; try lia.
      eapply not_yet_next; eauto; [lia|]. intros ->. done.
  - unfold lookup_result. by rewrite (not_yet_end key sub).
Qed.

Lemma get_in_index_spec key :
  length key = KEY_SIZE → get_in_index x86 junk c key (hc_index c) log = lookup_result key.
Proof.
  intros Hk. unfold get_in_index.
  destruct (index_get_spec x86 (hc_index c) log key 0) as (e & i & -> & Hf); [apply (ci_index Hinv)|done|lia|].
  cbn [mbind outcome_bind]. eapply (get_loop_spec key Hk _ 0); try done; try lia. intros k a Hk0. lia.
Qed.

(** What a search for the entry of a key returns. *)
Definition search_result (key : bytes) (r : option (IndexTable * nat * Z)) : Prop :=
  match kv !! key with
  | None => r = None
  | Some a => ∃ i, r = Some (hc_index c, i, a) ∧ (i < CHUNK_ENTRIES)%nat ∧
      read_entry (chunk_view (hc_index c) log (key_chunk (hc_index c) key)) i = Ok (key_entry (hc_index c) key a)
  end.

Lemma has_key_at_spec key a v :
  val_at vs a = Some v → length key = KEY_SIZE → ∃ t, hc_value c !! Z.to_nat (Address_size_tier a) = Some t ∧
    has_key_at junk t (Address_offset a) (Partial key) log = Ok (bool_decide (v_key v = partial_key key)).
Proof.
  intros Hv Hk. destruct (val_at_table (ci_tables Hinv) a v Hv) as (t & m & Et & Em & Hm & Hti & _ & Hr). exists t. split; [done|].
  unfold has_key_at. by rewrite (partial_key_at_spec junk Hjunk Hti), Hm.
Qed.
End inv.

Section search.
Context (junk : bytes) (Hjunk : length junk = MAX_ENTRY_BUF_SIZE) (x86 : bool) `{HC : Compressors}.
Context {c : HashColumn} {log : LogWriter} {kv : gmap bytes Z} {vs : list (gmap Z vrec)}.
Context (Hinv : col_inv c log kv vs).

Lemma search_loop_spec key : length key = KEY_SIZE → ∀ fuel sub e i,
  (sub ≤ CHUNK_ENTRIES)%nat → (CHUNK_ENTRIES - sub < fuel)%nat → not_yet (c := c) (log := log) (kv := kv) key sub →
  found (bits_of (hc_index c)) (index_from_partial key)
    (chunk_view (hc_index c) log (key_chunk (hc_index c) key)) sub e i →
  ∃ r, search_index_loop x86 junk fuel (hc_value c) (hc_index c) key log e i = Ok r ∧
    search_result (c := c) (log := log) (kv := kv) key r.
Proof.
  intros Hk. induction fuel as [|fuel IH]; intros sub e i Hs Hfu Hny Hf; [lia|]. cbn [search_index_loop].
  destruct Hf as [(He & Hi & Hr & Hco & Hbet)|[-> Hn]].
  - rewrite He. destruct (found_owner Hinv key sub e i Hk He Hi Hr Hco) as (key' & a & v & Hkv' & Ee & Hea & Hv & Hvk & Hsame).
    rewrite Hea. destruct (has_key_at_spec Hinv junk Hjunk key a v Hv Hk) as (t & -> & Eh). rewrite Eh.
    cbn [mbind outcome_bind]. case_bool_decide as Hp.
    + specialize (Hsame ltac:(congruence)). subst key'. eexists. split; [done|]. unfold search_result. rewrite Hkv'.
      exists i. subst e. split_and!; try done; lia.
    + destruct (index_get_spec x86 (hc_index c) log key (S i)) as (e' & i' & -> & Hf'); [apply (ci_index Hinv)|done|lia|].
      cbn [mbind outcome_bind]. eapply (IH (S i)); try done; try lia.
      eapply (not_yet_next Hinv); eauto; [lia|]. intros ->. done.
  - eexists. split; [done|]. unfold search_result. by rewrite (not_yet_end Hinv key sub).
Qed.

Lemma search_all_spec key :
  length key = KEY_SIZE → hc_queue c = [] →
  ∃ r, search_all_indexes x86 junk key c log = Ok r ∧ search_result (c := c) (log := log) (kv := kv) key r.
Proof.
  intros Hk Hq. unfold search_all_indexes. rewrite Hq. cbn [search_indexes]. unfold search_index.
  destruct (index_get_spec x86 (hc_index c) log key 0) as (e & i & -> & Hf); [apply (ci_index Hinv)|done|lia|].
  cbn [mbind outcome_bind]. destruct (search_loop_spec key Hk (S CHUNK_ENTRIES) 0 e i) as (r & -> & Hr); try done; try lia.
  { intros k a Hk0. lia. }
  cbn [mbind outcome_bind]. exists r. split; [by destruct r|done].
Qed.
End search.
