(* ===== verification/ColumnWrite.v ===== *)
(** * Columns: the changes refine the contract

    A change planned on a column that is not being reindexed acts on the contents of the column
    as [spec_step] says: a value with a reference counter per key. *)

From S2P Require Import Prelude IndexEntry IndexChunk Log Stats IndexTable ValueEntry File ValueTable ValueSlots ValueChains ValueWrite ValueRead ValueInv ValueSpec Compress Column ColumnSearch ColumnIndex ColumnTables ColumnValues ColumnRecord ColumnInv.

(** ** The contents of a column *)
Definition contents `{Compressors} (c : HashColumn) (kv : gmap bytes Z) (vs : list (gmap Z vrec)) (key : bytes)
    : option (Z * bytes) := col_map kv vs key ≫= reading (hc_compression c).

(** The tables can take [n] more slots and their addresses still fit an entry of the index. *)
Definition table_room (ib : Z) (t : ValueTable) (n : nat) : Prop :=
  filled t + Z.of_nat n ≤ 2 ^ (ib + 6) ∧ room t n.
Definition col_room (c : HashColumn) (n : nat) : Prop :=
  ∀ tier t, hc_value c !! tier = Some t → table_room (bits_of (hc_index c)) t n.

(** ** Running a plan on the values or the index of a column *)
Lemma on_values_run {A} (m : M VState A) c log o s' :
  m (mkVS (hc_value c) log (if hc_collect_stats c then Some (hc_stats c) else None)) = (o, s') →
  on_values m (c, log) = (o, (set_stats (default (hc_stats c) (vs_stats s')) (set_values (vs_tables s') c), vs_log s')).
Proof. intros E. unfold on_values. by rewrite E. Qed.

Lemma on_index_run {A} (m : M LogWriter A) c log o log' :
  m log = (o, log') → on_index m (c, log) = (o, (c, log')).
Proof. intros E. unfold on_index. by rewrite E. Qed.

(** ** The contents after a change of one key *)
Section change.
Context `{HC : Compressors} {c c' : HashColumn} {log log' : LogWriter} {kv kv' : gmap bytes Z}
  {vs vs' : list (gmap Z vrec)} (Hinv : col_inv c log kv vs).

Definition key_now (key : bytes) (nw : option vrec) : Prop :=
  match nw with
  | None => kv' !! key = None
  | Some v => ∃ a x, kv' !! key = Some a ∧ val_at vs' a = Some v ∧ v_key v = partial_key key ∧
      plain (hc_compression c) v = Ok x
  end.

Lemma col_inv_change key nw :
  hc_compression c' = hc_compression c → index_inv (hc_index c') log' kv' →
  tables_inv (hc_col c') (hc_ref_counted c') PARTIAL_SIZE (hc_value c') log' vs' →
  (∀ k, k ≠ key → kv' !! k = kv !! k) →
  (∀ k b, k ≠ key → kv !! k = Some b → val_at vs' b = val_at vs b) →
  (∀ b v, 0 ≤ b < 2 ^ 64 → val_at vs' b = Some v → kv' !! key = Some b ∨ ∃ k, k ≠ key ∧ kv !! k = Some b) →
  key_now key nw →
  col_inv c' log' kv' vs' ∧ col_map kv' vs' key = nw ∧ ∀ k, k ≠ key → col_map kv' vs' k = col_map kv vs k.
Proof.
  intros Hcomp Hi Ht Hk Hv Hown Hnow. split_and!.
  - split; try done.
    + intros k b Hkb. rewrite Hcomp. destruct (decide (k = key)) as [->|Hne].
      * destruct nw as [v|]; simpl in Hnow; [|congruence]. destruct Hnow as (a & x & Ha & ? & ? & ?).
        rewrite Ha in Hkb. injection Hkb as <-. eauto.
      * rewrite Hk in Hkb by done. rewrite (Hv k b) by done. by apply (ci_links Hinv).
    + intros b v Hb Hbv. destruct (Hown b v Hb Hbv) as [?|(k & Hne & Hkb)]; [eauto|]. exists k. by rewrite Hk.
  - unfold col_map. destruct nw as [v|]; simpl in Hnow; [|by rewrite Hnow].
    destruct Hnow as (a & x & -> & ? & _). done.
  - intros k Hne. unfold col_map. rewrite Hk by done. destruct (kv !! k) as [b|] eqn:Hkb; [|done].
    simpl. by eapply Hv.
Qed.
End change.

Section column_changes.
Context `{HC : Compressors} {c : HashColumn} {log : LogWriter} {kv : gmap bytes Z}
  {vs : list (gmap Z vrec)} (Hinv : col_inv c log kv vs).
Context {st : option ColumnStats} {n : Z} {s' : VState} {vs' : list (gmap Z vrec)}.
Abbreviation c' := (set_stats (default (hc_stats c) (vs_stats s')) (set_values (vs_tables s') c)).
Context (Hp : vpost (hc_col c) (hc_ref_counted c) PARTIAL_SIZE n (mkVS (hc_value c) log st) s' vs').

Lemma col_index_kept : index_inv (hc_index c) (vs_log s') kv.
Proof.
  eapply (index_inv_view _ log); [|apply (ci_index Hinv)]. intros ci. unfold chunk_view.
  by rewrite (vp_index Hp).
Qed.

(** The value of a key changes in place. *)
Lemma col_set_value key a v0 v x :
  kv !! key = Some a → val_at vs a = Some v0 → vs' = upd_at vs a (insert (Address_offset a) v) →
  v_key v = partial_key key → plain (hc_compression c) v = Ok x →
  col_inv c' (vs_log s') kv vs' ∧ col_map kv vs' key = Some v ∧ ∀ k, k ≠ key → col_map kv vs' k = col_map kv vs k.
Proof.
  intros Hkey Hv0 Hvs Hvk Hx. destruct (key_facts Hinv _ _ Hkey) as (_ & _ & Ha).
  assert (Hat : val_at vs' a = Some v).
  { rewrite Hvs, val_at_upd_eq. unfold val_at in Hv0. destruct (vs !! _); [|done]. simpl. apply lookup_insert_eq. }
  assert (Hne : ∀ b, 0 ≤ b < 2 ^ 64 → b ≠ a → val_at vs' b = val_at vs b).
  { intros b Hb Hba. rewrite Hvs. apply val_at_upd; try done. intros m o Ho. by apply lookup_insert_ne. }
  apply (col_inv_change Hinv key (Some v)); try done.
  - apply col_index_kept.
  - apply Hp.
  - intros k b Hk Hkb. destruct (key_facts Hinv _ _ Hkb) as (_ & _ & Hb). apply Hne; [done|].
    intros ->. apply Hk. by eapply (xi_inj (ci_index Hinv)).
  - intros b w Hb Hbw. destruct (decide (b = a)) as [->|Hba]; [by left|right].
    rewrite Hne in Hbw by done. destruct (ci_vals Hinv b w Hb Hbw) as [k Hk]. exists k. split; [|done]. congruence.
  - simpl. exists a, x. done.
Qed.

(** A key and its value go. *)
Lemma col_del_value log2 key a v0 :
  kv !! key = Some a → val_at vs a = Some v0 → vs' = upd_at vs a (delete (Address_offset a)) →
  index_inv (hc_index c) log2 (delete key kv) →
  (∀ tbl j, value_entry log2 tbl j = value_entry (vs_log s') tbl j) →
  col_inv c' log2 (delete key kv) vs' ∧ col_map (delete key kv) vs' key = None ∧
  ∀ k, k ≠ key → col_map (delete key kv) vs' k = col_map kv vs k.
Proof.
  intros Hkey Hv0 Hvs Hi Hx. destruct (key_facts Hinv _ _ Hkey) as (_ & _ & Ha).
  assert (Hat : val_at vs' a = None).
  { rewrite Hvs, val_at_upd_eq. destruct (vs !! _); [|done]. simpl. apply lookup_delete_eq. }
  assert (Hne : ∀ b, 0 ≤ b < 2 ^ 64 → b ≠ a → val_at vs' b = val_at vs b).
  { intros b Hb Hba. rewrite Hvs. apply val_at_upd; try done. intros m o Ho. by apply lookup_delete_ne. }
  apply (col_inv_change Hinv key None); try done.
  - eapply tables_view; [exact Hx|apply Hp].
  - intros k Hk. by apply lookup_delete_ne.
  - intros k b Hk Hkb. destruct (key_facts Hinv _ _ Hkb) as (_ & _ & Hb). apply Hne; [done|].
    intros ->. apply Hk. by eapply (xi_inj (ci_index Hinv)).
  - intros b w Hb Hbw. destruct (decide (b = a)) as [->|Hba]; [congruence|right].
    rewrite Hne in Hbw by done. destruct (ci_vals Hinv b w Hb Hbw) as [k Hk]. exists k. split; [|done]. congruence.
  - apply lookup_delete_eq.
Qed.

(** A key gets a value at a new address: the previous one, if any, has been removed. *)
Lemma col_move_value log2 key a v x vs1 :
  (∀ b, 0 ≤ b < 2 ^ 64 → kv !! key ≠ Some b → val_at vs1 b = val_at vs b) →
  (∀ b, kv !! key = Some b → val_at vs1 b = None) →
  0 ≤ a < 2 ^ 64 → val_at vs1 a = None → vs' = upd_at vs1 a (insert (Address_offset a) v) → val_at vs' a = Some v →
  v_key v = partial_key key → plain (hc_compression c) v = Ok x →
  index_inv (hc_index c) log2 (<[key := a]> kv) →
  (∀ tbl j, value_entry log2 tbl j = value_entry (vs_log s') tbl j) →
  col_inv c' log2 (<[key := a]> kv) vs' ∧ col_map (<[key := a]> kv) vs' key = Some v ∧
  ∀ k, k ≠ key → col_map (<[key := a]> kv) vs' k = col_map kv vs k.
Proof.
  intros H1 H1' Ha Hn Hvs Hat Hvk Hx Hi Hve.
  assert (Hne : ∀ b, 0 ≤ b < 2 ^ 64 → b ≠ a → val_at vs' b = val_at vs1 b).
  { intros b Hb Hba. rewrite Hvs. apply val_at_upd; try done. intros m o Ho. by apply lookup_insert_ne. }
  apply (col_inv_change Hinv key (Some v)); try done.
  - eapply tables_view; [exact Hve|apply Hp].
  - intros k Hk. by apply lookup_insert_ne.
  - intros k b Hk Hkb. destruct (key_facts Hinv _ _ Hkb) as (_ & _ & Hb).
    assert (Hkb' : val_at vs1 b = val_at vs b).
    { apply H1; [done|]. intros Hkey. apply Hk. by eapply (xi_inj (ci_index Hinv)). }
    rewrite Hne; [done|done|]. intros ->. destruct (ci_links Hinv _ _ Hkb) as (w & _ & Hw & _). congruence.
  - intros b w Hb Hbw. destruct (decide (b = a)) as [->|Hba]; [left; by apply lookup_insert_eq|right].
    rewrite Hne in Hbw by done. destruct (decide (kv !! key = Some b)) as [Hkb|Hkb].
    + rewrite H1' in Hbw by done. done.
    + rewrite H1 in Hbw by done. destruct (ci_vals Hinv b w Hb Hbw) as [k Hk]. exists k. split; [|done]. congruence.
  - simpl. exists a, x. split_and!; try done. apply lookup_insert_eq.
Qed.
End column_changes.

(** ** The operations *)
Section operations.
Context (x86 : bool) (junk : bytes) (Hjunk : length junk = MAX_ENTRY_BUF_SIZE).
Context `{HC : Compressors} `{HCO : !CompressorsOk HC}.
Context {c : HashColumn} {log : LogWriter} {kv : gmap bytes Z} {vs : list (gmap Z vrec)}.
Context (Hinv : col_inv c log kv vs).

(** What an operation on [key] leaves, when the value of the key is to become [nw]. *)
Definition stepped (key : bytes) (nw : option vrec) (c' : HashColumn) (log' : LogWriter) : Prop :=
  (∃ stats ts, c' = set_stats stats (set_values ts c)) ∧ recorded c c' log log' ∧
  ∃ kv' vs', col_inv c' log' kv' vs' ∧ col_map kv' vs' key = nw ∧ ∀ k, k ≠ key → col_map kv' vs' k = col_map kv vs k.

(** The address of a new value fits an entry of the index. *)
Lemma new_address_ok a :
  0 < a < 2 ^ (bits_of (hc_index c) + 6 + 8) → 0 < a ≤ last_address (bits_of (hc_index c)) ∧ 0 ≤ a < 2 ^ 64.
Proof.
  rewrite <-Z.add_assoc. change (6 + 8) with 14.
  intros Ha. destruct (xi_wf (ci_index Hinv)) as [Hb _]. rewrite last_address_eq by done. unfold valid_bits in Hb.
  pose proof (Z.pow_le_mono_r 2 (bits_of (hc_index c) + 14) 64 ltac:(lia)). lia.
Qed.

(** What the record holds after a plan for values, and after the entry of a key that follows it. *)
Section recorded.
Context {st : option ColumnStats} {n : Z} {s' : VState} {vs' : list (gmap Z vrec)}.
Context (Hp : vpost (hc_col c) (hc_ref_counted c) PARTIAL_SIZE n (mkVS (hc_value c) log st) s' vs').
Abbreviation c1 := (set_stats (default (hc_stats c) (vs_stats s')) (set_values (vs_tables s') c)).
Lemma recorded_after : recorded c c1 log (vs_log s').
Proof. by eapply (recorded_values c c1 (mkVS (hc_value c) log st)). Qed.
Lemma recorded_written key log2 :
  length key = KEY_SIZE → entry_written (hc_index c) (key_chunk (hc_index c) key) (vs_log s') log2 → recorded c c1 log log2.
Proof.
  intros Hk. eapply recorded_entry; [apply recorded_after| |].
  - intros k. unfold chunk_view. by rewrite (vp_index Hp).
  - apply (key_chunk_bounds (hc_index c) log); [apply (ci_index Hinv)|done].
Qed.
End recorded.

(** A new value, in the form and the tier that [compress] chooses. *)
Definition new_value (key sv : bytes) (cc : bool) : vrec := mkVal 1 (partial_key key) sv cc.

Lemma new_value_plain key val sv (cc : bool) :
  (if cc then Compress_decompress (hc_compression c) sv = Ok val else sv = val) →
  plain (hc_compression c) (new_value key sv cc) = Ok val.
Proof. unfold plain, new_value. simpl. destruct cc; [done|]. by intros ->. Qed.

Lemma room_le ib t n n' : (n' ≤ n)%nat → wf_table t → table_room ib t n → table_room ib t n'.
Proof. intros Hn Hw [H1 H2]. pose proof (wf_es _ Hw). unfold table_room, room in *. nia. Qed.

Lemma stored_size_le t key (val sv : bytes) :
  (length sv ≤ length val)%nat → (S (stored_size t (Partial key) sv) ≤ length val + 31)%nat.
Proof.
  intros Hl. unfold stored_size. change (encoded_size (Partial key)) with 26%nat.
  assert (ref_size t ≤ 4)%nat by (unfold ref_size; destruct (ref_counted t); unfold REFS_SIZE; lia). lia.
Qed.

Lemma stored_room tier t (Et : hc_value c !! tier = Some t) key (val sv : bytes) :
  col_room c (length val + 31) → (length sv ≤ length val)%nat →
  table_room (bits_of (hc_index c)) t (S (stored_size t (Partial key) sv)).
Proof.
  intros Hroom Hl. eapply room_le; [by apply stored_size_le|by apply (tables_wf (ci_tables Hinv) _ _ Et)|by apply (Hroom tier)].
Qed.

Lemma write_new_spec key val :
  length key = KEY_SIZE → kv !! key = None → col_room c (length val + 31) →
  ¬ chunk_full (hc_index c) log (key_chunk (hc_index c) key) →
  ∃ v c' log', write_plan_new junk key val (c, log) = (Ok Written, (c', log')) ∧
    stepped key (Some v) c' log' ∧ v_rc v = 1 ∧ plain (hc_compression c) v = Ok val.
Proof.
  intros Hk Hkv Hroom Hfull. unfold write_plan_new. mrun. change (id (c, log)) with (c, log). cbv beta iota.
  set (s := mkVS (hc_value c) log (if hc_collect_stats c then Some (hc_stats c) else None)).
  destruct (Column_compress (hc_compression c) (Partial key) val (hc_value c)) as [cval tier] eqn:Ec.
  destruct (stored_form cval val) as [sv cc] eqn:Es.
  destruct (compress_spec (ci_tables Hinv) _ _ _ _ _ _ _ Ec Es) as ((t & Et & Hfit) & Hlen & Hdec).
  pose proof (xi_bits (ci_index Hinv)) as Hbits.
  destruct (plan_insert junk Hjunk (s := s) (ci_tables Hinv) (bits_of (hc_index c) + 6) tier t (Partial key) sv cc)
    as (o & s1 & E1 & Est & H56 & Hlt & Ha & Hn & Hp); try done; [lia|by eapply (stored_room tier t Et)..|].
  set (a := Address_new o (Z.of_nat tier)) in *. destruct (new_address_ok a Ha) as [Hal Ha64].
  set (s2 := mkVS (vs_tables s1) (vs_log s1) (insert_val (u32 (Z.of_nat (length val))) (u32 (Z.of_nat (length sv))) <$> vs_stats s1)).
  assert (Ev : write_new_value_plan junk (hc_compression c) (Partial key) val s = (Ok a, s2)).
  { unfold write_new_value_plan. mrun. change (id s) with s. cbv beta iota. change (vs_tables s) with (hc_value c).
    rewrite Ec, Es. mstep E1. mstep (upd_stats_run (insert_val (u32 (Z.of_nat (length val))) (u32 (Z.of_nat (length sv)))) s1).
    done. }
  pose proof (vpost_stats _ _ _ _ _ _ _ (insert_val (u32 (Z.of_nat (length val))) (u32 (Z.of_nat (length sv))) <$> vs_stats s1) Hp) as Hp2.
  fold s2 in Hp2. mstep (on_values_run _ c log _ _ Ev). set (c1 := set_stats _ _).
  change GROW_FUEL with (S 255). cbn [insert_or_grow]. mrun. change (id (c1, vs_log s2)) with (c1, vs_log s2). cbv beta iota.
  pose proof (col_index_kept Hinv Hp2) as Hix.
  assert (Hfresh : ∀ k, kv !! k ≠ Some a).
  { intros k Hka. destruct (ci_links Hinv _ _ Hka) as (w & _ & Hw & _). congruence. }
  destruct (index_plan_insert Hix key a Hk Hkv ltac:(lia) Hfresh) as [(log2 & Ei & Hi2 & Hve)|[_ [Hbad|Hbad]]].
  2: lia.
  2: { exfalso. apply Hfull. intros i e Hi He. apply (Hbad i e Hi). unfold chunk_view.
       by rewrite (vp_index Hp2). }
  assert (Ei' : on_index (IndexTable_write_insert_plan (hc_index c1) key a None) (c1, vs_log s2) = (Ok Written, (c1, log2)))
    by (by apply on_index_run).
  mstep Ei'. cbv iota. exists (new_value key sv cc), c1, log2. split; [done|].
  split_and!; [|done|by apply new_value_plain]. split; [by eexists _, _|].
  split; [by eapply (recorded_written Hp2 (s' := s2) key log2)|]. exists (<[key := a]> kv).
  eexists. eapply (col_move_value Hinv Hp2 log2 key a _ val vs); try done.
  - intros b Hb. rewrite Hkv in Hb. done.
  - unfold a. by rewrite (Address_offset_new o (Z.of_nat tier)) by (done || by apply tier_range).
  - rewrite val_at_upd_eq. unfold a. rewrite Address_size_tier_new, Address_offset_new, Nat2Z.id by (done || by apply tier_range).
    destruct (lookup_lt_is_Some_2 vs tier) as [m ->]; [by destruct (tt_len (ci_tables Hinv)) as [_ ->]|].
    simpl. apply lookup_insert_eq.
  - by apply new_value_plain.
  - intros tbl j. by eapply entry_written_values.
Qed.

Abbreviation start := (mkVS (hc_value c) log (if hc_collect_stats c then Some (hc_stats c) else None)).
Abbreviation after s' := (set_stats (default (hc_stats c) (vs_stats s')) (set_values (vs_tables s') c)).

Section existing.
Context {key : bytes} {a : Z} {v : vrec} {x : bytes} {i : nat}.
Context (Hkv : kv !! key = Some a) (Hv : val_at vs a = Some v) (Hvk : v_key v = partial_key key).
Context (Hx : plain (hc_compression c) v = Ok x) (Hi : (i < CHUNK_ENTRIES)%nat).
Context (Hentry : read_entry (chunk_view (hc_index c) log (key_chunk (hc_index c) key)) i = Ok (key_entry (hc_index c) key a)).
Context (change : Operation bytes bytes) (Hchange : Operation_key change = key).

Abbreviation value_plan := (write_existing_value_plan junk (hc_compression c) (hc_preimage c) (Partial key) a change
  (hc_ref_counted c)).

(** The value plan finished: the index keeps its entry. *)
Lemma existing_kept oc r s' :
  value_plan start = (Ok (Some oc, r), s') →
  write_plan_existing junk change (hc_index c) i a (c, log) = (Ok oc, (after s', vs_log s')).
Proof.
  intros E. unfold write_plan_existing. mrun. change (id (c, log)) with (c, log). cbv beta iota.
  rewrite Hchange. mstep (on_values_run _ c log _ _ E). done.
Qed.

Lemma in_place {n} s' v' y nw :
  vpost (hc_col c) (hc_ref_counted c) PARTIAL_SIZE n start s' (upd_at vs a (insert (Address_offset a) v')) →
  v_key v' = partial_key key → plain (hc_compression c) v' = Ok y → nw = Some v' →
  stepped key nw (after s') (vs_log s').
Proof.
  intros Hp Hvk' Hy ->. split; [by eexists _, _|]. split; [by eapply (recorded_after Hp)|]. exists kv. eexists. by eapply (col_set_value Hinv Hp key a v v' y).
Qed.

Lemma set_rc_plain n : plain (hc_compression c) (set_rc n v) = Ok x.
Proof. exact Hx. Qed.

(** Nothing changes. *)
Lemma untouched : stepped key (Some v) (after start) log.
Proof.
  split; [by eexists _, _|]. split; [by apply recorded_refl|]. exists kv, vs.
  split_and!; [|unfold col_map; by rewrite Hkv|done]. destruct Hinv. by split.
Qed.

(** The value is gone: so is the entry of the index. *)
Lemma existing_removed {n} s' :
  value_plan start = (Ok (None, None), s') →
  vpost (hc_col c) (hc_ref_counted c) PARTIAL_SIZE n start s' (upd_at vs a (delete (Address_offset a))) →
  ∃ c' log', write_plan_existing junk change (hc_index c) i a (c, log) = (Ok Written, (c', log')) ∧ stepped key None c' log'.
Proof.
  intros E Hp. pose proof (col_index_kept Hinv Hp) as Hix.
  assert (He : read_entry (chunk_view (hc_index c) (vs_log s') (key_chunk (hc_index c) key)) i = Ok (key_entry (hc_index c) key a)).
  { unfold chunk_view. rewrite (vp_index Hp). exact Hentry. }
  destruct (index_plan_remove Hix key a i Hkv Hi He) as (log2 & Ei & Hi2 & Hve).
  exists (after s'), log2. split.
  - unfold write_plan_existing. mrun. change (id (c, log)) with (c, log). cbv beta iota. rewrite Hchange.
    mstep (on_values_run _ c log _ _ E). mstep (on_index_run _ (after s') _ _ _ Ei). done.
  - split; [by eexists _, _|]. split; [by eapply (recorded_written Hp key log2 (proj1 (key_facts Hinv _ _ Hkv)))|].
    exists (delete key kv). eexists. eapply (col_del_value Hinv Hp log2 key a v); try done. intros tbl j. by eapply entry_written_values.
Qed.

(** The value has moved to a new address: the entry of the index follows. *)
Lemma existing_moved {n} s' a2 v' y vs1 :
  value_plan start = (Ok (None, Some a2), s') →
  vs1 = upd_at vs a (delete (Address_offset a)) → val_at vs1 a2 = None →
  vpost (hc_col c) (hc_ref_counted c) PARTIAL_SIZE n start s' (upd_at vs1 a2 (insert (Address_offset a2) v')) →
  val_at (upd_at vs1 a2 (insert (Address_offset a2) v')) a2 = Some v' →
  0 < a2 < 2 ^ (bits_of (hc_index c) + 6 + 8) → v_key v' = partial_key key → plain (hc_compression c) v' = Ok y →
  ∃ c' log', write_plan_existing junk change (hc_index c) i a (c, log) = (Ok Written, (c', log')) ∧
    stepped key (Some v') c' log'.
Proof.
  intros E Hvs1 Hn Hp Hat Ha2 Hvk' Hy. pose proof (col_index_kept Hinv Hp) as Hix.
  destruct (key_facts Hinv _ _ Hkv) as (Hk & _ & Ha). destruct (new_address_ok a2 Ha2) as [Hal Ha64].
  assert (He : read_entry (chunk_view (hc_index c) (vs_log s') (key_chunk (hc_index c) key)) i = Ok (key_entry (hc_index c) key a)).
  { unfold chunk_view. rewrite (vp_index Hp). exact Hentry. }
  assert (H1 : ∀ b, 0 ≤ b < 2 ^ 64 → kv !! key ≠ Some b → val_at vs1 b = val_at vs b).
  { intros b Hb Hne. rewrite Hvs1. apply val_at_upd; try done; [|congruence]. intros m o Ho. by apply lookup_delete_ne. }
  assert (Hfresh : ∀ k, k ≠ key → kv !! k ≠ Some a2).
  { intros k Hne Hka. destruct (ci_links Hinv _ _ Hka) as (w & _ & Hw & _). rewrite H1 in Hn; [congruence|lia|].
    intros Hka'. apply Hne. by eapply (xi_inj (ci_index Hinv)). }
  destruct (index_plan_replace Hix key a a2 i Hkv Hi He ltac:(lia) Hfresh) as [(log2 & Ei & Hi2 & Hve)|[_ Hbad]]; [|lia].
  exists (after s'), log2. split.
  - unfold write_plan_existing. mrun. change (id (c, log)) with (c, log). cbv beta iota. rewrite Hchange.
    mstep (on_values_run _ c log _ _ E). rewrite bool_decide_true by done. by apply on_index_run.
  - split; [by eexists _, _|]. split; [by eapply (recorded_written Hp key log2 Hk)|]. exists (<[key := a2]> kv). eexists.
    eapply (col_move_value Hinv Hp log2 key a2 v' y vs1); try done; [|intros tbl j; by eapply entry_written_values].
    intros b Hb. rewrite Hkv in Hb. injection Hb as <-. rewrite Hvs1, val_at_upd_eq.
    destruct (vs !! _); [|done]. simpl. apply lookup_delete_eq.
Qed.

Definition existing_step (now : option (Z * bytes)) : Prop :=
  ∃ oc c' log' nw, write_plan_existing junk change (hc_index c) i a (c, log) = (Ok oc, (c', log')) ∧ oc ≠ NeedReindex ∧
    stepped key nw c' log' ∧
    nw ≫= reading (hc_compression c) = now.
Abbreviation spec_now := (spec_step (hc_ref_counted c) (hc_preimage c) change (Some (v_rc v, x))).

Lemma reading_ok w y : plain (hc_compression c) w = Ok y → reading (hc_compression c) w = Some (v_rc w, y).
Proof. unfold reading. by intros ->. Qed.

(** One more reference, from [Reference] or from [Set] on a column that counts. *)
Lemma incremented (f : ColumnStats → ColumnStats) :
  hc_ref_counted c = true →
  (∃ s1, on_table (Z.to_nat (Address_size_tier a)) (write_inc_ref junk (Address_offset a)) start = (Ok tt, s1) ∧
     stepped key (Some (set_rc (inc (v_rc v)) v)) (after s1) (vs_log s1) ∧
     stepped key (Some (set_rc (inc (v_rc v)) v)) (after (mkVS (vs_tables s1) (vs_log s1) (f <$> vs_stats s1))) (vs_log s1)) ∧
  reading (hc_compression c) (set_rc (inc (v_rc v)) v) = Some (inc (v_rc v), x).
Proof.
  intros Hrc. split; [|by apply (reading_ok (set_rc (inc (v_rc v)) v))].
  destruct (plan_inc junk Hjunk (s := start) (ci_tables Hinv) a v Hrc Hv) as (s1 & E1 & _ & Hp).
  exists s1. split; [done|]. split; [by eapply (in_place s1 (set_rc (inc (v_rc v)) v) x)|].
  eapply (in_place (mkVS (vs_tables s1) (vs_log s1) (f <$> vs_stats s1)) (set_rc (inc (v_rc v)) v) x); try done.
  by apply vpost_stats.
Qed.

Lemma reference_step k : change = OpReference k → existing_step spec_now.
Proof.
  intros Hc. rewrite Hc. simpl spec_step. unfold existing_step.
  destruct (hc_ref_counted c) eqn:Hrc.
  - destruct (incremented reference_increase Hrc) as [(s1 & E1 & _ & Hs) Hr].
    eexists Written, _, _, _. split; [|split; [done|split; [exact Hs|exact Hr]]].
    eapply (existing_kept _ None (mkVS (vs_tables s1) (vs_log s1) (reference_increase <$> vs_stats s1))).
    rewrite Hc, Hrc. cbn [write_existing_value_plan]. mstep E1.
    mstep (upd_stats_run reference_increase s1). done.
  - eexists Skipped, _, _, _. split; [|split; [done|split; [apply untouched|]]].
    + apply (existing_kept _ None start). rewrite Hc, Hrc. done.
    + by apply reading_ok.
Qed.

Lemma dereference_step k : change = OpDereference k → existing_step spec_now.
Proof.
  intros Hc. rewrite Hc. simpl spec_step. unfold existing_step.
  destruct (key_facts Hinv _ _ Hkv) as (Hk & _ & _).
  destruct (fetch_size_spec junk Hjunk (s := start) (ci_tables Hinv) (hc_compression c) a v (Partial key) x Hv eq_refl Hvk Hx) as [[cz uz] Ef].
  set (szs := if hc_collect_stats c then Some (cz, uz) else None).
  assert (Es : (match vs_stats start with None => mret None
                | Some _ => r ← fetch_size junk (hc_compression c) (Partial key) a; mret (Some r) end) start = (Ok szs, start)).
  { unfold szs. destruct (hc_collect_stats c); [|done]. cbn [vs_stats]. mstep Ef. done. }
  set (s1stats s1 := match szs with Some (z, u) => remove_val u z <$> vs_stats s1 | None => vs_stats s1 end).
  assert (Eu : ∀ s1, (match szs with Some (z, u) => upd_stats (remove_val u z) | None => mret tt end) s1
    = (Ok tt, mkVS (vs_tables s1) (vs_log s1) (s1stats s1))).
  { intros s1. unfold s1stats. destruct szs as [[z u]|]; [done|]. by destruct s1. }
  destruct (hc_ref_counted c) eqn:Hrc.
  - destruct (plan_dec junk Hjunk (s := start) (ci_tables Hinv) a v Hrc Hv) as (s1 & E1 & _ & Hp).
    case_bool_decide as Hz.
    + destruct (existing_removed (n := 0) (mkVS (vs_tables s1) (vs_log s1) (s1stats s1))) as (c' & log' & E & Hs).
      * rewrite Hc, Hrc. cbn [write_existing_value_plan]. mrun. change (id start) with start. cbv beta iota.
        mstep Es. rewrite M_bind_assoc. rewrite bool_decide_false in E1 by auto. mstep E1. mrun.
        change (negb false) with true. cbv iota. mstep (Eu s1). done.
      * by apply vpost_stats.
      * eexists Written, c', log', None. done.
    + eexists Written, _, _, (Some (set_rc (dec (v_rc v)) v)).
      split; [|split; [done|split]].
      * apply (existing_kept _ None s1). rewrite Hc, Hrc. cbn [write_existing_value_plan]. mrun. change (id start) with start.
        cbv beta iota. mstep Es. rewrite M_bind_assoc. rewrite bool_decide_true in E1 by auto. mstep E1. mrun.
        change (negb true) with false. cbv iota. done.
      * by eapply (in_place s1 (set_rc (dec (v_rc v)) v) x).
      * by apply (reading_ok (set_rc (dec (v_rc v)) v)).
  - destruct (plan_remove junk Hjunk (s := start) (ci_tables Hinv) a v Hv) as (t' & log1 & E1 & Hp).
    set (s1 := mkVS _ log1 _) in *.
    destruct (existing_removed (n := 0) (mkVS (vs_tables s1) (vs_log s1) (s1stats s1))) as (c' & log' & E & Hs).
    + rewrite Hc, Hrc. cbn [write_existing_value_plan]. mrun. change (id start) with start. cbv beta iota.
      mstep Es. rewrite M_bind_assoc. mstep E1. mrun. cbv iota. mstep (Eu s1). done.
    + by apply vpost_stats.
    + eexists Written, c', log', None. done.
Qed.

(** The statistics of a replacement. *)
Lemma replaced_stats f :
  length key = KEY_SIZE →
  ∃ st, (match vs_stats start with
         | None => mret tt
         | Some _ => '(cur_size, uncompressed) ← fetch_size junk (hc_compression c) (Partial key) a;
                     upd_stats (f cur_size uncompressed)
         end) start = (Ok tt, mkVS (hc_value c) log st).
Proof.
  intros Hk.
  destruct (fetch_size_spec junk Hjunk (s := start) (ci_tables Hinv) (hc_compression c) a v (Partial key) x Hv eq_refl Hvk Hx) as [[cz uz] Ef].
  destruct (hc_collect_stats c); cbn [vs_stats]; [|by eexists]. mstep Ef. by eexists.
Qed.

Section set_value.
Context {val : bytes} {cval : option bytes} {tier : nat} {sv : bytes} {cc : bool} {st : option ColumnStats}.
Context (Hroom : col_room c (length val + 31)).
Context (Ec : Column_compress (hc_compression c) (Partial key) val (hc_value c) = (cval, tier)).
Context (Es : stored_form cval val = (sv, cc)).
Abbreviation s0 := (mkVS (hc_value c) log st).

Lemma set_same_tier :
  Z.to_nat (Address_size_tier a) = tier →
  ∃ s1, on_table tier (ValueTable_write_replace_plan junk (Address_offset a) (Partial key) sv cc) s0 = (Ok tt, s1) ∧
    stepped key (Some (new_value key sv cc)) (after s1) (vs_log s1) ∧
    reading (hc_compression c) (new_value key sv cc) = Some (1, val).
Proof.
  intros <-. destruct (key_facts Hinv _ _ Hkv) as (Hk & _ & _).
  destruct (compress_spec (ci_tables Hinv) _ _ _ _ _ _ _ Ec Es) as ((t & Et & Hfit) & Hlen & Hdec).
  destruct (plan_replace junk Hjunk (s := s0) (ci_tables Hinv) a v (Partial key) sv cc t Hv Hk eq_refl Et Hfit) as (s1 & E1 & _ & Hp).
  { by eapply (stored_room _ t Et). }
  exists s1. split; [done|]. pose proof (new_value_plain key val sv cc Hdec) as Hpl.
  split; [|by apply (reading_ok (new_value key sv cc))].
  eapply (in_place s1 (new_value key sv cc) val); try done. destruct Hp. by split.
Qed.

Lemma set_other_tier {n} s1 :
  Z.to_nat (Address_size_tier a) ≠ tier →
  (∃ t', on_table (Z.to_nat (Address_size_tier a)) (ValueTable_write_remove_plan junk (Address_offset a)) s0
    = (Ok tt, s1) ∧ vs_tables s1 = <[Z.to_nat (Address_size_tier a) := t']> (hc_value c)) →
  vpost (hc_col c) (hc_ref_counted c) PARTIAL_SIZE n s0 s1 (upd_at vs a (delete (Address_offset a))) →
  ∃ o s2, on_table tier (ValueTable_write_insert_plan junk (Partial key) sv cc) s1 = (Ok o, s2) ∧
    (value_plan start = (Ok (None, Some (Address_new o (Z.of_nat tier))), s2) →
     ∃ c' log', write_plan_existing junk change (hc_index c) i a (c, log) = (Ok Written, (c', log')) ∧
       stepped key (Some (new_value key sv cc)) c' log') ∧
    reading (hc_compression c) (new_value key sv cc) = Some (1, val).
Proof.
  intros Hne (t' & _ & Hts) Hp1. destruct (key_facts Hinv _ _ Hkv) as (Hk & _ & _).
  destruct (compress_spec (ci_tables Hinv) _ _ _ _ _ _ _ Ec Es) as ((t & Et & Hfit) & Hlen & Hdec).
  pose proof (new_value_plain key val sv cc Hdec) as Hpl. pose proof (xi_bits (ci_index Hinv)) as Hbits.
  destruct (plan_insert junk Hjunk (vp_tables Hp1) (bits_of (hc_index c) + 6) tier t (Partial key) sv cc)
    as (o & s2 & E2 & _ & H56 & Hlt & Ha & Hn & Hp2); try done; [lia| |by eapply (stored_room tier t Et)..|].
  { rewrite Hts. by rewrite list_lookup_insert_ne. }
  exists o, s2. split; [done|]. split; [|by apply (reading_ok (new_value key sv cc))]. intros Eplan.
  assert (Ho : Address_offset (Address_new o (Z.of_nat tier)) = o) by (apply Address_offset_new; [done|by apply tier_range]).
  eapply (existing_moved s2 (Address_new o (Z.of_nat tier)) (new_value key sv cc) val); try done; rewrite ?Ho.
  - destruct (vpost_trans _ _ _ _ _ _ _ _ _ _ Hp1 Hp2). by split.
  - rewrite val_at_upd_eq, Ho, Address_size_tier_new, Nat2Z.id by (done || by apply tier_range).
    destruct (lookup_lt_is_Some_2 (upd_at vs a (delete (Address_offset a))) tier) as [m ->].
    { unfold upd_at. rewrite length_alter. by destruct (tt_len (ci_tables Hinv)) as [_ ->]. }
    simpl. apply lookup_insert_eq.
Qed.
End set_value.

Lemma set_step k val : change = OpSet k val → col_room c (length val + 31) → existing_step spec_now.
Proof.
  intros Hc Hroom. rewrite Hc. simpl spec_step. unfold existing_step.
  destruct (hc_ref_counted c) eqn:Hrc; [|destruct (hc_preimage c) eqn:Hpre].
  - destruct (incremented id Hrc) as [(s1 & E1 & Hs & _) Hr].
    eexists Written, _, _, _. split; [|split; [done|split; [exact Hs|exact Hr]]].
    apply (existing_kept _ None s1). rewrite Hc, Hrc. cbn [write_existing_value_plan]. mstep E1. done.
  - eexists Skipped, _, _, _. split; [|split; [done|split; [apply untouched|by apply reading_ok]]].
    apply (existing_kept _ None start). rewrite Hc, Hrc, Hpre. done.
  - destruct (Column_compress (hc_compression c) (Partial key) val (hc_value c)) as [cval tier] eqn:Ec.
    destruct (stored_form cval val) as [sv cc] eqn:Es. destruct (key_facts Hinv _ _ Hkv) as (Hk & _ & _).
    destruct (replaced_stats (λ cs us, replace_val cs us (u32 (Z.of_nat (length val))) (u32 (Z.of_nat (length sv)))) Hk)
      as [st Est].
    assert (Erun : ∀ r s', (if bool_decide (Z.to_nat (Address_size_tier a) = tier) then
        _ ← on_table tier (ValueTable_write_replace_plan junk (Address_offset a) (Partial key) sv cc);
        mret (Some Written, None)
      else
        _ ← on_table (Z.to_nat (Address_size_tier a)) (ValueTable_write_remove_plan junk (Address_offset a));
        new_offset ← on_table tier (ValueTable_write_insert_plan junk (Partial key) sv cc);
        mret (None, Some (Address_new new_offset (Z.of_nat tier)))) (mkVS (hc_value c) log st) = (Ok r, s') →
      value_plan start = (Ok r, s')).
    { intros r s' E. rewrite Hc, Hrc, Hpre. cbn [write_existing_value_plan]. mrun. change (id start) with start.
      cbv beta iota. change (vs_tables start) with (hc_value c). rewrite Ec, Es. mstep Est. exact E. }
    destruct (decide (Z.to_nat (Address_size_tier a) = tier)) as [Htier|Htier].
    + destruct (set_same_tier (st := st) Hroom Ec Es Htier) as (s1 & E1 & Hs & Hr).
      eexists Written, _, _, _. split; [|split; [done|split; [exact Hs|exact Hr]]].
      apply (existing_kept _ None s1), Erun. rewrite bool_decide_true by done. mstep E1. done.
    + destruct (plan_remove junk Hjunk (s := mkVS (hc_value c) log st) (ci_tables Hinv) a v Hv) as (t' & log1 & E1 & Hp1).
      destruct (set_other_tier Hroom Ec Es _ Htier ltac:(eauto) Hp1) as (o & s2 & E2 & Hmv & Hr).
      destruct Hmv as (c' & log' & E & Hs).
      { apply Erun. rewrite bool_decide_false by done. mstep E1. mstep E2. done. }
      eexists Written, c', log', _. done.
Qed.
End existing.
End operations.
