(* ===== verification/ColumnTheorems.v ===== *)
(** * Columns: the theorems

    The contract of a hash column stated against the operations of src/src/column.rs, with
    concrete instances. *)

From S2P Require Import Prelude IndexEntry IndexChunk Log Stats IndexTable ValueEntry File ValueTable ValueSlots ValueChains ValueWrite ValueRead ValueInv ValueSpec ValueFile ValueTheorems Compress Column ColumnSearch ColumnIndex ColumnTables ColumnValues ColumnRecord ColumnInv ColumnWrite.

Definition change_size (change : Operation bytes bytes) : nat :=
  match change with OpSet _ v => length v | _ => 0%nat end.

(** ** A new column *)
Lemma open_tables_spec files col rc version ts :
  open_tables files col rc version = Ok ts →
  length ts = SIZE_TIERS ∧
  ∀ tier t, ts !! tier = Some t →
    ValueTable_open (files tier) (TableId_new col (Z.of_nat tier)) (SIZES !! tier) rc version = Ok t.
Proof.
  unfold open_tables. set (f := λ tier rest, _).
  assert (Hg : ∀ n a ts, foldr f (Ok []) (seq a n) = Ok ts → length ts = n ∧
    ∀ i t, ts !! i = Some t →
      ValueTable_open (files (a + i)%nat) (TableId_new col (Z.of_nat (a + i))) (SIZES !! (a + i)%nat) rc version = Ok t).
  { induction n as [|n IH]; intros a ts'; simpl.
    - intros [= <-]. split; [done|]. intros i t. by rewrite lookup_nil.
    - unfold f at 1. intros Hf. apply outcome_bind_inv in Hf as (x & Hx & Hf).
      apply outcome_bind_inv in Hf as (l & Hl & [= <-]). destruct (IH _ _ Hl) as [<- Hi]. split; [done|]. intros [|i] t; simpl.
      + intros [= <-]. rewrite Nat.add_0_r. exact Hx.
      + intros Ht. rewrite <-Nat.add_succ_comm. by apply Hi. }
  intros E. apply (Hg SIZE_TIERS 0%nat ts E).
Qed.

Lemma open_fields file id es rc version t :
  ValueTable_open file id es rc version = Ok t →
  vt_id t = id ∧ ref_counted t = rc ∧ multipart t = bool_decide (es = None) ∧ entry_size t = default MULTIPART_ENTRY_SIZE es.
Proof.
  unfold ValueTable_open. intros Hf. destruct es; simpl in Hf.
  all: repeat (case_match; simplify_eq/=; try done); minv; repeat (case_match; simplify_eq/=; try done).
Qed.

Definition new_column (col : Z) (rc preimage stats : bool) (comp : Compress) : HashColumn :=
  mkColumn col (create_new (TableId_new col MIN_INDEX_BITS))
    (match open_tables (λ _, None) col rc 8 with Ok ts => ts | _ => [] end)
    [] 0 preimage false stats rc (replicate 32 Byte.x00) stats_empty comp 8.
Definition no_values : list (gmap Z vrec) := replicate SIZE_TIERS ∅.

Lemma new_index_bits col : bits_of (create_new (TableId_new col MIN_INDEX_BITS)) = 16.
Proof.
  unfold bits_of, create_new, TableId_index_bits. simpl it_id. unfold MIN_INDEX_BITS.
  rewrite TableId_new_eq by (vm_compute; split; congruence). change 255 with (2 ^ 8 - 1).
  rewrite land_mask by lia. unfold wrap. rewrite Z.add_comm, Z.mod_add by lia. done.
Qed.

Lemma new_tables col rc : ∃ ts, open_tables (λ _, None) col rc 8 = Ok ts.
Proof.
  unfold open_tables. generalize 0%nat at 1. induction SIZE_TIERS as [|n IH]; intros a; simpl; [eauto|].
  destruct (IH (S a)) as [ts ->].
  assert (∃ t, ValueTable_open None (TableId_new col (Z.of_nat a)) (SIZES !! a) rc 8 = Ok t) as [t ->]; [|simpl; eauto].
  unfold ValueTable_open. destruct (SIZES !! a) as [s|] eqn:E; simpl.
  - apply SIZES_facts in E. unfold MIN_ENTRY_SIZE, MAX_ENTRY_SIZE. rewrite !bool_decide_false by lia. simpl. eauto.
  - eauto.
Qed.

Lemma new_tables_inv `{HL : LogQuery L} (log : L) col rc kl ts : (kl ≤ PARTIAL_SIZE)%nat →
  open_tables (λ _, None) col rc 8 = Ok ts → tables_inv col rc kl ts log no_values.
Proof.
  intros Hkl Ets. destruct (open_tables_spec _ _ _ _ _ Ets) as [Hl Ho]. split.
  - split; [done|apply length_replicate].
  - intros tier t Et. destruct (open_fields _ _ _ _ _ _ (Ho _ _ Et)) as (? & ? & _). by split.
  - intros tier t Et. destruct (open_fields _ _ _ _ _ _ (Ho _ _ Et)) as (_ & _ & ? & ?). by split.
  - intros tier t m Et Em. apply lookup_replicate in Em as [-> _].
    eapply fresh_inv; [done| |by apply Ho]. destruct (SIZES !! tier) eqn:E; [by apply SIZES_facts in E|done].
Qed.

Lemma new_column_inv `{Compressors} `{HL : LogQuery L} (log : L) col rc preimage stats comp :
  (∀ ci, with_index log (TableId_new col MIN_INDEX_BITS) ci = None) →
  col_inv (new_column col rc preimage stats comp) log ∅ no_values.
Proof.
  intros Hlog. destruct (new_tables col rc) as [ts Ets]. destruct (open_tables_spec _ _ _ _ _ Ets) as [Hl Ho].
  set (idx := create_new (TableId_new col MIN_INDEX_BITS)).
  assert (Hb : bits_of idx = 16) by apply new_index_bits.
  assert (Hc : ∀ ci, chunk_view idx log ci = EMPTY_CHUNK).
  { intros ci. unfold chunk_view. by rewrite Hlog. }
  unfold new_column. rewrite Ets. split; simpl.
  - fold idx. split.
    + split; [rewrite Hb; unfold valid_bits; lia|]. intros ci. rewrite Hc. apply length_replicate.
    + rewrite Hb. lia.
    + intros key a Hka. by rewrite lookup_empty in Hka.
    + intros ci i e Hi Hci. rewrite Hc, read_empty_chunk by done. by intros [= <-].
    + intros ci i j e Hi Hj Hci. rewrite Hc, read_empty_chunk by done. by intros [= <-].
    + intros k1 k2 a Hka. by rewrite lookup_empty in Hka.
  - by apply new_tables_inv.
  - intros k a. by rewrite lookup_empty.
  - intros a v _. unfold val_at, no_values. destruct (replicate _ _ !! _) as [m|] eqn:E; [|done].
    apply lookup_replicate in E as [-> _]. simpl. by rewrite lookup_empty.
Qed.

(** ** Changes *)
Section refines.
Context `{HC : Compressors} {c : HashColumn} {log : LogWriter} {kv : gmap bytes Z} {vs : list (gmap Z vrec)}.
Context (Hinv : col_inv c log kv vs).

Lemma contents_some key a v x :
  kv !! key = Some a → val_at vs a = Some v → plain (hc_compression c) v = Ok x → contents c kv vs key = Some (v_rc v, x).
Proof. intros Hkv Hv Hx. unfold contents, col_map. rewrite Hkv. simpl. rewrite Hv. simpl. unfold reading. by rewrite Hx. Qed.

Lemma contents_none key : kv !! key = None → contents c kv vs key = None.
Proof. intros Hkv. unfold contents, col_map. by rewrite Hkv. Qed.

(** The contents after a step. *)
Lemma stepped_contents key nw c' log' f :
  hc_queue c = [] → stepped (c := c) (log := log) (kv := kv) (vs := vs) key nw c' log' →
  nw ≫= reading (hc_compression c) = f (contents c kv vs key) →
  ∃ kv' vs', col_inv c' log' kv' vs' ∧ hc_queue c' = [] ∧
    ∀ k, contents c' kv' vs' k = if decide (k = key) then f (contents c kv vs k) else contents c kv vs k.
Proof.
  intros Hq ((stats & ts & ->) & _ & kv' & vs' & Hi & Hnw & Hrest) Hf. exists kv', vs'. split_and!; try done.
  intros k. unfold contents at 1. simpl. case_decide as Hd; [subst k; by rewrite <-Hf, Hnw|].
  unfold contents. by rewrite Hrest.
Qed.

(** A change of a key that is not there only counts in the statistics. *)
Lemma missed_step key f :
  kv !! key = None → ∃ c', col_stats f (c, log) = (Ok tt, (c', log)) ∧
    stepped (c := c) (log := log) (kv := kv) (vs := vs) key None c' log.
Proof.
  intros Hkv. unfold col_stats, modify. eexists. split; [done|]. split.
  - destruct (hc_collect_stats c); [exists (f (hc_stats c)), (hc_value c)|exists (hc_stats c), (hc_value c)]; by destruct c.
  - split; [apply recorded_refl; by destruct (hc_collect_stats c)|].
    exists kv, vs. split_and!; [|unfold col_map; by rewrite Hkv|done].
    destruct Hinv. destruct (hc_collect_stats c); by split.
Qed.

(** Any change of a key. *)
Lemma write_plan_stepped `{!CompressorsOk HC} x86 junk change :
  length junk = MAX_ENTRY_BUF_SIZE → hc_queue c = [] →
  length (Operation_key change) = KEY_SIZE → col_room c (change_size change + 31) →
  (kv !! Operation_key change = None → ¬ chunk_full (hc_index c) log (key_chunk (hc_index c) (Operation_key change))) →
  ∃ oc c' log' nw, HashColumn_write_plan x86 junk change (c, log) = (Ok oc, (c', log')) ∧ oc ≠ NeedReindex ∧
    stepped (c := c) (log := log) (kv := kv) (vs := vs) (Operation_key change) nw c' log' ∧
    nw ≫= reading (hc_compression c)
    = spec_step (hc_ref_counted c) (hc_preimage c) change (contents c kv vs (Operation_key change)).
Proof.
  intros Hj Hq Hk Hroom Hfree. set (key := Operation_key change) in *.
  destruct (search_all_spec junk Hj x86 Hinv key Hk Hq) as (r & Es & Hr).
  assert (Ew : HashColumn_write_plan x86 junk change (c, log) = (match r with
      | Some (table, sub_index, existing_address) => write_plan_existing junk change table sub_index existing_address
      | None => match change with
                | OpSet key value => write_plan_new junk key value
                | OpDereference _ => _ ← col_stats remove_miss; mret Skipped
                | OpReference _ => _ ← col_stats reference_increase_miss; mret Skipped
                end end) (c, log)).
  { unfold HashColumn_write_plan. mrun. change (id (c, log)) with (c, log). cbv beta iota. fold key. mlift Es. done. }
  rewrite Ew. unfold search_result in Hr. destruct (kv !! key) as [a|] eqn:Hkv.
  - destruct Hr as (i & -> & Hi & He). destruct (ci_links Hinv _ _ Hkv) as (v & x & Hv & Hvk & Hx).
    rewrite (contents_some key a v x) by done. destruct change as [k val|k|k] eqn:Hc.
    + by eapply (set_step junk Hj Hinv Hkv Hv Hvk Hx Hi He _ eq_refl k val).
    + by eapply (dereference_step junk Hj Hinv Hkv Hv Hvk Hx Hi He _ eq_refl k).
    + by eapply (reference_step junk Hj Hinv Hkv Hv Hvk Hx _ eq_refl k).
  - subst r. rewrite contents_none by done. destruct change as [k val|k|k].
    + destruct (write_new_spec junk Hj Hinv k val Hk Hkv Hroom (Hfree eq_refl)) as (v & c' & log' & E & Hs & H1 & Hp).
      exists Written, c', log', (Some v). split_and!; try done. simpl. unfold reading. by rewrite Hp, H1.
    + destruct (missed_step key remove_miss Hkv) as (c' & Em & Hs). exists Skipped, c', log, None.
      split; [mstep Em; done|]. done.
    + destruct (missed_step key reference_increase_miss Hkv) as (c' & Em & Hs). exists Skipped, c', log, None.
      split; [mstep Em; done|]. done.
Qed.
End refines.

(** C5. Planning any change of a key (setting it, referencing it, dereferencing it) on a column
    that is not being reindexed, whose tables have room and whose chunk has a free entry if the
    key is new, succeeds and changes the contents of the column as [spec_step] says: the value
    and the reference counter of that key only, wherever and in whatever form the values are
    stored. *)
Theorem column_write_refines `{HC : Compressors} x86 junk c log kv vs change :
  CompressorsOk HC → length junk = MAX_ENTRY_BUF_SIZE → col_inv c log kv vs → hc_queue c = [] →
  length (Operation_key change) = KEY_SIZE → col_room c (change_size change + 31) →
  (kv !! Operation_key change = None → ¬ chunk_full (hc_index c) log (key_chunk (hc_index c) (Operation_key change))) →
  ∃ outcome c' log' kv' vs', HashColumn_write_plan x86 junk change (c, log) = (Ok outcome, (c', log')) ∧
    outcome ≠ NeedReindex ∧ col_inv c' log' kv' vs' ∧ hc_queue c' = [] ∧
    ∀ k, contents c' kv' vs' k
      = if decide (k = Operation_key change)
        then spec_step (hc_ref_counted c) (hc_preimage c) change (contents c kv vs k)
        else contents c kv vs k.
Proof.
  intros HCO Hj Hinv Hq Hk Hroom Hfree.
  destruct (write_plan_stepped Hinv x86 junk change Hj Hq Hk Hroom Hfree) as (oc & c' & log' & nw & E & Hoc & Hs & Hn).
  destruct (stepped_contents _ nw c' log' _ Hq Hs Hn) as (kv' & vs' & ?). exists oc, c', log', kv', vs'. naive_solver.
Qed.

(** *** An instance: a new column *)
Lemma new_column_room col rc preimage stats comp n :
  (Z.of_nat n < 2 ^ 20) → col_room (new_column col rc preimage stats comp) n.
Proof.
  intros Hn tier t. destruct (new_tables col rc) as [ts Ets]. destruct (open_tables_spec _ _ _ _ _ Ets) as [Hl Ho].
  unfold new_column. rewrite Ets. cbn [hc_value hc_index]. intros Et.
  assert (Hf : filled t = 1 ∧ 32 ≤ entry_size t ≤ 32760).
  { pose proof (Ho _ _ Et) as E. destruct SIZES_facts as (_ & Hs & _). revert E. unfold ValueTable_open.
    destruct (SIZES !! tier) as [z|] eqn:Ez; simpl.
    - apply Hs in Ez. case_match; [done|]. intros [= <-]. split; [reflexivity|exact Ez].
    - intros [= <-]. simpl. unfold MULTIPART_ENTRY_SIZE. lia. }
  destruct Hf as [Hf Hes]. split; [rewrite new_index_bits, Hf; simpl; lia|]. unfold room. rewrite Hf. nia.
Qed.

Definition sample_column : HashColumn := new_column 3 true false true (Compress_new Lz4 4).
Lemma sample_column_inv : col_inv (H := toy) sample_column fresh_log ∅ no_values.
Proof. by apply new_column_inv. Qed.
Definition other_key : bytes := replicate 32 Byte.x08.

Lemma column_write_refines_witness :
  ∃ outcome c' log' kv' vs',
    HashColumn_write_plan (H := toy) true zeros (OpSet sample_key short_value) (sample_column, fresh_log) = (Ok outcome, (c', log')) ∧
    outcome ≠ NeedReindex ∧ col_inv (H := toy) c' log' kv' vs' ∧
    contents (H := toy) c' kv' vs' sample_key = Some (1, short_value) ∧ contents (H := toy) c' kv' vs' other_key = None.
Proof.
  destruct (column_write_refines (HC := toy) true zeros sample_column fresh_log ∅ no_values (OpSet sample_key short_value))
    as (outcome & c' & log' & kv' & vs' & E & Ho & Hi & _ & Hc).
  - apply toy_ok.
  - apply zeros_length.
  - apply sample_column_inv.
  - reflexivity.
  - reflexivity.
  - by apply new_column_room.
  - intros _ Hf. assert (Hx : Entry_is_empty 0 = false).
    { apply (Hf 0%nat); [unfold CHUNK_ENTRIES; lia|]. vm_compute. reflexivity. }
    discriminate Hx.
  - exists outcome, c', log', kv', vs'. split_and!; [exact E|exact Ho|exact Hi|rewrite Hc; reflexivity|].
    rewrite Hc. rewrite decide_False by (vm_compute; congruence). reflexivity.
Defined.

(** ** Reading *)

Lemma column_get_run `{HC : Compressors} `{HL : LogQuery L} x86 junk c (log : L) kv vs key :
  length junk = MAX_ENTRY_BUF_SIZE → col_inv c log kv vs → hc_queue c = [] → length key = KEY_SIZE →
  (hc_collect_stats c = true → length (query_histogram (hc_stats c)) = SIZE_TIERS) →
  (HashColumn_get x86 junk key log c).1
  = match col_map kv vs key with
    | None => Ok None
    | Some v => x ← plain (hc_compression c) v; Ok (Some x)
    end ∧
  ∀ v, col_map kv vs key = Some v → ∃ x, plain (hc_compression c) v = Ok x.
Proof.
  intros Hj Hinv Hq Hk Hst. unfold col_map. split.
  2: { intros v Hv. destruct (kv !! key) as [a|] eqn:Ha; [|done]. simpl in Hv.
       destruct (ci_links Hinv _ _ Ha) as (w & x & Hw & _ & Hx). exists x. congruence. }
  unfold HashColumn_get. mrun. change (id c) with c. rewrite Hq. cbn [get_in_indexes].
  rewrite (get_in_index_spec Hinv junk Hj x86) by done. unfold lookup_result.
  destruct (kv !! key) as [a|] eqn:Ha; cbn [mbind option_bind].
  2: { erewrite M_bind_lift by reflexivity. cbv beta iota. by destruct (hc_collect_stats c). }
  destruct (ci_links Hinv _ _ Ha) as (v & x & Hv & _ & Hx). rewrite Hv, Hx.
  erewrite M_bind_lift by reflexivity. cbv beta iota. destruct (hc_collect_stats c); [|done].
  unfold stats_query_hit. rewrite decide_True; [done|]. rewrite Hst by done.
  destruct (key_facts Hinv _ _ Ha) as (_ & _ & Ha'). by destruct (address_parts a Ha') as (_ & _ & ? & _).
Qed.

(** C6. Reading a key of a column that is not being reindexed returns the value the column's
    contents give to the key, decompressed if it was stored compressed, and nothing for every
    other key: no entry is missed, and no other key's value is taken for the key's, whichever
    of the two searches the processor has. *)
Theorem column_get_is_lookup `{HC : Compressors} `{HL : LogQuery L} x86 junk c (log : L) kv vs key :
  length junk = MAX_ENTRY_BUF_SIZE → col_inv c log kv vs → hc_queue c = [] → length key = KEY_SIZE →
  (hc_collect_stats c = true → length (query_histogram (hc_stats c)) = SIZE_TIERS) →
  (HashColumn_get x86 junk key log c).1
  = match col_map kv vs key with
    | None => Ok None
    | Some v => x ← plain (hc_compression c) v; Ok (Some x)
    end ∧
  ∀ v, col_map kv vs key = Some v → ∃ x, plain (hc_compression c) v = Ok x.
Proof. apply column_get_run. Qed.

Definition quiet_column : HashColumn := new_column 3 true false false (Compress_new Lz4 4).
Lemma quiet_column_inv : col_inv (H := toy) quiet_column fresh_log ∅ no_values.
Proof. by apply new_column_inv. Qed.

Lemma column_get_is_lookup_witness :
  ∃ c' log', HashColumn_write_plan (H := toy) true zeros (OpSet sample_key short_value) (quiet_column, fresh_log)
    = (Ok Written, (c', log')) ∧
  (HashColumn_get (H := toy) true zeros sample_key log' c').1 = Ok (Some short_value).
Proof.
  destruct (write_new_spec (HCO := toy_ok) zeros zeros_length quiet_column_inv sample_key short_value)
    as (v & c' & log' & E & ((stats & ts & ->) & _ & kv' & vs' & Hi & Hv & _) & _ & Hp).
  - reflexivity.
  - reflexivity.
  - by apply new_column_room.
  - intros Hf. assert (Hx : Entry_is_empty 0 = false).
    { apply (Hf 0%nat); [unfold CHUNK_ENTRIES; lia|]. vm_compute. reflexivity. }
    discriminate Hx.
  - eexists _, log'. split; [|refine (eq_trans (proj1 (column_get_is_lookup true zeros _ log' kv' vs' sample_key zeros_length Hi eq_refl eq_refl _)) _)].
    + unfold HashColumn_write_plan. mrun. change (id (quiet_column, fresh_log)) with (quiet_column, fresh_log). cbv beta iota.
      mlift (eq_refl : search_all_indexes true zeros sample_key quiet_column fresh_log = Ok None). exact E.
    + intros Hs. discriminate Hs.
    + rewrite Hv. cbv iota. change (hc_compression (set_stats stats (set_values ts quiet_column))) with (hc_compression quiet_column).
      rewrite Hp. reflexivity.
Defined.

(** ** Keys *)

(** With uniform keys, the current version of the database accepts exactly the keys of 32
    bytes: the hash keeps the last 16 bytes of such a key, and every other key, longer ones
    included, makes the program panic. *)
Theorem hash_key_uniform `{Hashes} key salt :
  length salt = 32%nat →
  if decide (length key = KEY_SIZE)
  then ∃ h, hash_key key salt true 8 = Ok h ∧ length h = KEY_SIZE ∧ drop 16 h = drop 16 key
  else hash_key key salt true 8 = Panic.
Proof.
  intros Hs. unfold hash_key. rewrite !bool_decide_false by lia.
  assert (Hsalt : slice salt 0 16 = Ok (take 16 salt)) by (unfold slice; by rewrite decide_True by lia).
  rewrite Hsalt. clear Hsalt. cbn [mbind outcome_bind]. destruct (siphash13_128 _ key) as [h1 h2]. unfold slice, KEY_SIZE in *.
  destruct (decide (16 ≤ length key ∧ length key ≤ length key)%nat) as [Hl|Hl]; simpl.
  - rewrite take_ge by (rewrite length_drop; lia). rewrite length_drop. case_decide as Hk.
    + rewrite (bool_decide_true (length key - 16 = 16)%nat) by lia. eexists. split; [done|].
      rewrite !length_app, !le_bytes_length, length_drop. split; [lia|].
      rewrite app_assoc. apply drop_app_length'. by rewrite length_app, !le_bytes_length.
    + by rewrite (bool_decide_false (length key - 16 = 16)%nat) by lia.
  - rewrite (decide_False (P := length key = 32%nat)) by lia. done.
Qed.

Definition toy_hashes : Hashes := {| blake2b_mac _ key := take 32 key; siphash13_128 _ _ := (1, 2) |}.
Lemma hash_key_uniform_witness :
  hash_key (H := toy_hashes) (replicate 33 Byte.x01) (replicate 32 Byte.x00) true 8 = Panic.
Proof. exact (hash_key_uniform (H := toy_hashes) (replicate 33 Byte.x01) (replicate 32 Byte.x00) eq_refl). Defined.

(** ** A value that moves to a tier whose addresses no longer fit the index *)
Definition set_filled_at (tier : nat) (n : Z) (c : HashColumn) : HashColumn :=
  set_values (alter (λ t, mkTable (vt_id t) (entry_size t) (vt_file t) n (last_removed t) (dirty_header t)
    (multipart t) (ref_counted t) (db_version t)) tier (hc_value c)) c.
Definition plain_column : HashColumn := new_column 3 false false false NO_COMPRESSION.
Definition long_value : bytes := replicate 100 Byte.x2b.
(** The key has a short value; the tier of values of 100 bytes has 2^22 slots. *)
Definition crowded : HashColumn * LogWriter :=
  let '(c, log) := (HashColumn_write_plan (H := toy) true zeros (OpSet sample_key short_value) (plain_column, fresh_log)).2 in
  (set_filled_at 51 (2 ^ 22) c, log).
Definition overwritten : outcome PlanOutcome * (HashColumn * LogWriter) :=
  HashColumn_write_plan (H := toy) true zeros (OpSet sample_key long_value) crowded.

