(* ===== verification/ColumnReindex.v ===== *)
(** * Columns: reindexing

    A column whose index is too small gets a larger one; the entries of the old index are
    copied in batches.  A batch holds the entries of consecutive chunks; the batches of an index
    cover all of it, and the index is dropped with the last one. *)

From S2P Require Import Prelude IndexEntry IndexChunk Log Stats IndexTable ValueEntry File ValueTable Compress Column ColumnEnact ColumnIndex.

(** The keys and addresses of the chunks from [ci] on, [n] of them. *)
Definition chunk_plans `{LogQuery L} (source : IndexTable) (log : L) (ci : Z) (n : nat) : list (bytes * Z) :=
  seqZ ci (Z.of_nat n) ≫= λ k, plan_entries source k (transmute_chunk (chunk_view source log k)).

Section reindex.
Context `{HL : LogQuery L} (source : IndexTable) (log : L).

Lemma entries_view ci :
  0 ≤ ci < total_chunks (bits_of source) → entries source ci log = Ok (transmute_chunk (chunk_view source log ci)).
Proof.
  intros Hci. unfold entries, chunk_view. destruct (with_index log (it_id source) ci); [done|].
  destruct (it_map source) as [m|]; [|done]. unfold chunk_at. by rewrite bool_decide_true.
Qed.

Lemma chunk_plans_0 ci : chunk_plans source log ci 0 = [].
Proof. reflexivity. Qed.

Lemma chunk_plans_S ci n :
  chunk_plans source log ci (S n)
  = plan_entries source ci (transmute_chunk (chunk_view source log ci)) ++ chunk_plans source log (ci + 1) n.
Proof.
  unfold chunk_plans. rewrite seqZ_cons by lia. rewrite bind_cons. do 3 f_equal; lia.
Qed.

Lemma reindex_loop_spec fuel : ∀ ci plan,
  0 ≤ ci ≤ total_chunks (bits_of source) → (Z.to_nat (total_chunks (bits_of source) - ci) ≤ fuel)%nat →
  ∃ n, reindex_loop fuel source log ci plan = Ok (ci + Z.of_nat n, plan ++ chunk_plans source log ci n) ∧
    ci + Z.of_nat n ≤ total_chunks (bits_of source) ∧
    (ci + Z.of_nat n = total_chunks (bits_of source) ∨
     (MAX_REINDEX_BATCH ≤ length (plan ++ chunk_plans source log ci n))%nat) ∧
    (n = 0%nat → ci = total_chunks (bits_of source) ∨ (MAX_REINDEX_BATCH ≤ length plan)%nat).
Proof.
  induction fuel as [|fuel IH]; intros ci plan Hci Hfu; cbn [reindex_loop].
  - exists 0%nat. rewrite bool_decide_false by lia. cbv beta iota delta [andb].
    rewrite Z.add_0_r, chunk_plans_0, (app_nil_r plan). split; [done|]. split_and!; [lia|left; lia|left; lia].
  - destruct (bool_decide _ && _) eqn:E.
    + apply andb_prop in E as [E1 E2]. apply bool_decide_eq_true in E1, E2.
      rewrite entries_view by lia. cbn [mbind outcome_bind].
      destruct (IH (ci + 1) (plan ++ plan_entries source ci (transmute_chunk (chunk_view source log ci)))) as (n & En & Hn & Hd & _); [lia..|].
      exists (S n). rewrite chunk_plans_S. rewrite app_assoc. rewrite Nat2Z.inj_succ.
      replace (ci + Z.succ (Z.of_nat n)) with (ci + 1 + Z.of_nat n) by lia. split; [exact En|]. split_and!; [lia|exact Hd|lia].
    + exists 0%nat. rewrite Z.add_0_r, chunk_plans_0, (app_nil_r plan). split; [done|]. split; [lia|].
      apply andb_false_iff in E as [E|E]; apply bool_decide_eq_false in E; split; (left; lia) || (right; lia) || (intros; (left; lia) || (right; lia)).
Qed.
End reindex.


