(* ===== verification/RecordItems.v ===== *)
(** * Records as lists of items

    A record of the log is a list of items: contents of slots, and chunks of an index of which
    only the entries named by a mask count.  Of several items for the same place the last one
    wins.  [over] says that the overlays of the log show exactly what the records that are not
    enacted yet have written last. *)

From S2P Require Import Prelude IndexEntry IndexChunk Log.

#[local] Arguments mask_bits : simpl never.
#[local] Opaque mask_bits.

Inductive item := IIndex (id ci mask : Z) (chunk : bytes) | IValue (id i : Z) (d : bytes).

Definition item_id (it : item) : Z := match it with IIndex id _ _ _ | IValue id _ _ => id end.
Definition enc_item (it : item) : bytes :=
  match it with
  | IIndex id ci mask chunk => encode_index_item id ci mask chunk
  | IValue id i d => encode_value_item id i d
  end.

(** ** What an item says about a place *)
Definition slot_data (id i : Z) (it : item) : option bytes :=
  match it with IValue id' i' d => if decide (id' = id ∧ i' = i) then Some d else None | _ => None end.
Definition chunk_data (id ci : Z) (it : item) : option (Z * bytes) :=
  match it with IIndex id' ci' mask chunk => if decide (id' = id ∧ ci' = ci) then Some (mask, chunk) else None | _ => None end.
Definition entry_data (id ci : Z) (k : nat) (it : item) : option bytes :=
  '(mask, chunk) ← chunk_data id ci it; if decide (k ∈ mask_bits mask) then Some (chunk_entry chunk k) else None.

(** The last item that says something. *)
Definition last_of {A} (f : item → option A) (l : list item) : option A :=
  foldl (λ acc it, match f it with Some x => Some x | None => acc end) None l.

Lemma last_of_from {A} (f : item → option A) l acc :
  foldl (λ acc it, match f it with Some x => Some x | None => acc end) acc l
  = match last_of f l with Some x => Some x | None => acc end.
Proof.
  unfold last_of. revert acc. induction l as [|it l IH]; intros acc; [done|]. simpl. rewrite IH.
  rewrite (IH (match f it with Some x => Some x | None => None end)). destruct (foldl _ None l); [done|]. by destruct (f it).
Qed.
Lemma last_of_app {A} (f : item → option A) l l' :
  last_of f (l ++ l') = match last_of f l' with Some x => Some x | None => last_of f l end.
Proof. unfold last_of at 1. rewrite foldl_app. apply last_of_from. Qed.
Lemma last_of_cons {A} (f : item → option A) it l :
  last_of f (it :: l) = match last_of f l with Some x => Some x | None => f it end.
Proof. change (it :: l) with ([it] ++ l). rewrite last_of_app. unfold last_of at 2. simpl. by destruct (f it). Qed.

Lemma last_of_Some {A} (f : item → option A) l x : last_of f l = Some x → ∃ it, it ∈ l ∧ f it = Some x.
Proof.
  induction l as [|it l IH]; [done|]. rewrite last_of_cons. destruct (last_of f l) as [y|].
  - intros [= ->]. destruct (IH eq_refl) as (it' & ? & ?). exists it'. split; [by right|done].
  - intros Hf. exists it. split; [by left|done].
Qed.
Lemma last_of_None {A} (f : item → option A) l : last_of f l = None ↔ ∀ it, it ∈ l → f it = None.
Proof.
  split.
  - intros Hn it Hin. induction l as [|it' l IH]; [by apply elem_of_nil in Hin|]. rewrite last_of_cons in Hn.
    destruct (last_of f l); [done|]. apply elem_of_cons in Hin as [->|Hin]; [done|by apply IH].
  - intros H. destruct (last_of f l) as [x|] eqn:E; [|done]. apply last_of_Some in E as (it & Hin & Hx). by rewrite H in Hx.
Qed.

(** Items for other chunks say nothing about an entry. *)
Lemma last_entry_None id ci k l : last_of (chunk_data id ci) l = None → last_of (entry_data id ci k) l = None.
Proof. rewrite !last_of_None. intros H it Hin. unfold entry_data. by rewrite H. Qed.

(** ** Records that wait to be enacted *)
Abbreviation rec := (Z * list item)%type.
Definition items_in (rs : list rec) : list item := rs ≫= snd.
Definition last_rec {A} (f : item → option A) (rs : list rec) : option (Z * A) :=
  foldl (λ acc r, match last_of f r.2 with Some x => Some (r.1, x) | None => acc end) None rs.

Lemma last_rec_from {A} (f : item → option A) rs acc :
  foldl (λ acc r, match last_of f r.2 with Some x => Some (r.1, x) | None => acc end) acc rs
  = match last_rec f rs with Some x => Some x | None => acc end.
Proof.
  unfold last_rec. revert acc. induction rs as [|r rs IH]; intros acc; [done|]. simpl. rewrite IH.
  rewrite (IH (match last_of f r.2 with Some x => Some (r.1, x) | None => None end)). destruct (foldl _ None rs); [done|]. by destruct (last_of f r.2).
Qed.
Lemma last_rec_cons {A} (f : item → option A) r rs :
  last_rec f (r :: rs) = match last_rec f rs with Some x => Some x | None => (λ x, (r.1, x)) <$> last_of f r.2 end.
Proof. unfold last_rec at 1. simpl. rewrite last_rec_from. destruct (last_rec f rs); [done|]. by destruct (last_of f r.2). Qed.
Lemma last_rec_snoc {A} (f : item → option A) r rs :
  last_rec f (rs ++ [r]) = match last_of f r.2 with Some x => Some (r.1, x) | None => last_rec f rs end.
Proof. unfold last_rec. by rewrite foldl_app. Qed.
Lemma last_rec_items {A} (f : item → option A) rs : snd <$> last_rec f rs = last_of f (items_in rs).
Proof.
  induction rs as [|r rs IH]; [done|]. rewrite last_rec_cons. change (items_in (r :: rs)) with (r.2 ++ items_in rs).
  rewrite last_of_app, <-IH. destruct (last_rec f rs) as [[? ?]|]; [done|]. simpl. by destruct (last_of f r.2).
Qed.
Lemma last_rec_id {A} (f : item → option A) rs rid x : last_rec f rs = Some (rid, x) → rid ∈ rs.*1.
Proof.
  induction rs as [|r rs IH]; [done|]. rewrite last_rec_cons. destruct (last_rec f rs) as [y|].
  - intros [= ->]. right. by apply IH.
  - destruct (last_of f r.2); [|done]. intros [= <- _]. left.
Qed.
Lemma items_in_app a b : items_in (a ++ b) = items_in a ++ items_in b.
Proof. apply bind_app. Qed.

(** The overlays show the last items of the records. *)
Definition raw_value (o : LogOverlays) (id i : Z) : option (Z * bytes) := ov_value o !! id ≫= λ m, m !! i.
Definition raw_index (o : LogOverlays) (id ci : Z) : option (Z * Z * bytes) := ov_index o !! id ≫= λ m, m !! ci.
Definition over (o : LogOverlays) (rs : list rec) : Prop :=
  (∀ id i, raw_value o id i = last_rec (slot_data id i) rs) ∧
  (∀ id ci, raw_index o id ci = (λ x, (x.1, x.2.1, x.2.2)) <$> last_rec (chunk_data id ci) rs).

Lemma over_value {o rs} (H : over o rs) id i : value_entry o id i = last_of (slot_data id i) (items_in rs).
Proof.
  simpl. rewrite lookup_value_bind. change (ov_value o !! id ≫= λ m, m !! i) with (raw_value o id i). rewrite (proj1 H), <-last_rec_items.
  by destruct (last_rec _ rs).
Qed.
Lemma over_index {o rs} (H : over o rs) id ci : with_index o id ci = snd <$> last_of (chunk_data id ci) (items_in rs).
Proof.
  simpl. rewrite lookup_index_bind. change (ov_index o !! id ≫= λ m, m !! ci) with (raw_index o id ci). rewrite (proj2 H), <-last_rec_items.
  by destruct (last_rec _ rs) as [[? [? ?]]|].
Qed.
Lemma over_nil : over LogOverlays_default [].
Proof. done. Qed.

(** The places that reading a record lists for clearing. *)
Definition clears (cl : Cleared) (l : list item) : Prop :=
  (∀ id i d, IValue id i d ∈ l → (id, i) ∈ cl_values cl) ∧ (∀ id ci m ch, IIndex id ci m ch ∈ l → (id, ci) ∈ cl_index cl).

Lemma over_clear o rid l rs cl : over o ((rid, l) :: rs) → rid ∉ rs.*1 → clears cl l → over (end_read_overlays cl rid o) rs.
Proof.
  intros [Hv Hi] Hid [Cv Ci]. split.
  - intros id i. unfold raw_value, end_read_overlays. simpl. rewrite lookup_clear_entries.
    change (ov_value o !! id ≫= λ m, m !! i) with (raw_value o id i). rewrite Hv, last_rec_cons.
    destruct (last_rec _ rs) as [[rid' x]|] eqn:E; simpl.
    + rewrite decide_False; [done|]. intros [_ ->]. apply Hid. by eapply last_rec_id.
    + destruct (last_of _ l) as [x|] eqn:El; simpl; [|done]. rewrite decide_True; [done|]. split; [|done].
      apply last_of_Some in El as (it & Hin & Hx). destruct it as [|id' i' d]; [done|]. simpl in Hx. case_decide as Hd; [|done].
      destruct Hd as [-> ->]. by eapply Cv.
  - intros id ci. unfold raw_index, end_read_overlays. simpl. rewrite lookup_filter_nonempty, lookup_clear_entries.
    change (ov_index o !! id ≫= λ m, m !! ci) with (raw_index o id ci). rewrite Hi, last_rec_cons.
    destruct (last_rec _ rs) as [[rid' x]|] eqn:E; simpl.
    + rewrite decide_False; [done|]. intros [_ ->]. apply Hid. by eapply last_rec_id.
    + destruct (last_of _ l) as [x|] eqn:El; simpl; [|done]. rewrite decide_True; [done|]. split; [|done].
      apply last_of_Some in El as (it & Hin & Hx). destruct it as [id' ci' m ch|]; [|done]. simpl in Hx. case_decide as Hd; [|done].
      destruct Hd as [-> ->]. by eapply Ci.
Qed.

(** ** The items of a change, in the order in which the maps are written *)
Definition index_part (is_ : index_items) : list item := is_ ≫= λ p, (λ q : Z * (Z * Z * bytes), IIndex p.1 q.1 q.2.1.2 q.2.2) <$> p.2.
Definition value_part (vs : value_items) : list item := vs ≫= λ p, (λ q : Z * (Z * bytes), IValue p.1 q.1 q.2.2) <$> p.2.

Lemma index_part_bytes is_ :
  concat ((λ '(id, o), concat ((λ '(index, (_, mask, chunk)), encode_index_item id index mask chunk) <$> o)) <$> is_)
  = concat (enc_item <$> index_part is_).
Proof.
  induction is_ as [|[id o] is_ IH]; [done|]. change (index_part ((id, o) :: is_)) with (((λ q : Z * (Z * Z * bytes), IIndex id q.1 q.2.1.2 q.2.2) <$> o) ++ index_part is_).
  rewrite fmap_cons, concat_cons, IH, fmap_app, concat_app. f_equal.
  rewrite <-list_fmap_compose. f_equal. apply list_fmap_ext. by intros i [ci [[r m] ch]].
Qed.
Lemma value_part_bytes vs :
  concat ((λ '(id, o), concat ((λ '(index, (_, value)), encode_value_item id index value) <$> o)) <$> vs)
  = concat (enc_item <$> value_part vs).
Proof.
  induction vs as [|[id o] vs IH]; [done|]. change (value_part ((id, o) :: vs)) with (((λ q : Z * (Z * bytes), IValue id q.1 q.2.2) <$> o) ++ value_part vs).
  rewrite fmap_cons, concat_cons, IH, fmap_app, concat_app. f_equal.
  rewrite <-list_fmap_compose. f_equal. apply list_fmap_ext. by intros i [ci [r d]].
Qed.
Lemma record_body_items rid is_ vs ds :
  record_body rid is_ vs ds
  = le_bytes 1 BEGIN_RECORD ++ le_bytes 8 rid ++ concat (enc_item <$> index_part is_ ++ value_part vs)
    ++ concat (encode_drop <$> ds) ++ le_bytes 1 END_RECORD.
Proof. unfold record_body. by rewrite fmap_app, concat_app, index_part_bytes, value_part_bytes, <-!app_assoc. Qed.

(** A hash map is written in some order, every entry of it and nothing else. *)
Definition lists {A} (order : gmap Z (gmap Z A) → list (Z * list (Z * A))) : Prop :=
  ∀ m id i x, (∃ l, (id, l) ∈ order m ∧ (i, x) ∈ l) ↔ m !! id ≫= (λ o, o !! i) = Some x.

Section change.
Context (order_index : gmap Z IndexLogOverlay → index_items) (order_value : gmap Z ValueLogOverlay → value_items).
Context (Hli : lists order_index) (Hlv : lists order_value).

Definition change_items (c : LogChange) : list item := index_part (order_index (local_index c)) ++ value_part (order_value (local_values c)).

Lemma elem_value_item c id i d :
  IValue id i d ∈ change_items c ↔ ∃ r, (local_values c !! id ≫= λ o, o !! i) = Some (r, d).
Proof.
  unfold change_items. rewrite elem_of_app. split.
  - intros [Hin|Hin].
    + unfold index_part in Hin. apply list_elem_of_bind in Hin as ([? ?] & Hin & _). by apply list_elem_of_fmap in Hin as (? & [=] & _).
    + unfold value_part in Hin. apply list_elem_of_bind in Hin as ([id' o] & Hin & Ho).
      apply list_elem_of_fmap in Hin as ([i' [r d']] & [= <- <- <-] & Hin). exists r. apply Hlv. eauto.
  - intros (r & Hr). right. apply Hlv in Hr as (o & Ho & Hin). unfold value_part. apply list_elem_of_bind. exists (id, o). split; [|done].
    apply list_elem_of_fmap. by exists (i, (r, d)).
Qed.
Lemma elem_index_item c id ci m ch :
  IIndex id ci m ch ∈ change_items c ↔ ∃ r, (local_index c !! id ≫= λ o, o !! ci) = Some (r, m, ch).
Proof.
  unfold change_items. rewrite elem_of_app. split.
  - intros [Hin|Hin].
    + unfold index_part in Hin. apply list_elem_of_bind in Hin as ([id' o] & Hin & Ho).
      apply list_elem_of_fmap in Hin as ([i' [[r m'] d']] & [= <- <- <- <-] & Hin). exists r. apply Hli. eauto.
    + unfold value_part in Hin. apply list_elem_of_bind in Hin as ([? ?] & Hin & _). by apply list_elem_of_fmap in Hin as (? & [=] & _).
  - intros (r & Hr). left. apply Hli in Hr as (o & Ho & Hin). unfold index_part. apply list_elem_of_bind. exists (id, o). split; [|done].
    apply list_elem_of_fmap. by exists (ci, (r, m, ch)).
Qed.

Lemma last_slot c id i : last_of (slot_data id i) (change_items c) = snd <$> (local_values c !! id ≫= λ o, o !! i).
Proof.
  destruct (local_values c !! id ≫= _) as [[r d]|] eqn:E; simpl.
  - destruct (last_of _ _) as [d'|] eqn:El.
    + apply last_of_Some in El as (it & Hin & Hx). destruct it as [|id' i' d0]; [done|]. simpl in Hx. case_decide as Hd; [|done].
      destruct Hd as [-> ->]. injection Hx as ->. apply elem_value_item in Hin as [r' Hr]. congruence.
    + rewrite last_of_None in El. assert (Hin : IValue id i d ∈ change_items c) by (apply elem_value_item; eauto).
      specialize (El _ Hin). simpl in El. by rewrite decide_True in El.
  - apply last_of_None. intros it Hin. destruct it as [|id' i' d0]; [done|]. simpl. case_decide as Hd; [|done]. destruct Hd as [-> ->].
    apply elem_value_item in Hin as [r' Hr]. congruence.
Qed.
Lemma last_chunk c id ci :
  last_of (chunk_data id ci) (change_items c) = (λ x, (x.1.2, x.2)) <$> (local_index c !! id ≫= λ o, o !! ci).
Proof.
  destruct (local_index c !! id ≫= _) as [[[r m] ch]|] eqn:E; simpl.
  - destruct (last_of _ _) as [d'|] eqn:El.
    + apply last_of_Some in El as (it & Hin & Hx). destruct it as [id' i' m0 d0|]; [|done]. simpl in Hx. case_decide as Hd; [|done].
      destruct Hd as [-> ->]. injection Hx as <-. apply elem_index_item in Hin as [r' Hr]. congruence.
    + rewrite last_of_None in El. assert (Hin : IIndex id ci m ch ∈ change_items c) by (apply elem_index_item; eauto).
      specialize (El _ Hin). simpl in El. by rewrite decide_True in El.
  - apply last_of_None. intros it Hin. destruct it as [id' i' m0 d0|]; [|done]. simpl. case_decide as Hd; [|done]. destruct Hd as [-> ->].
    apply elem_index_item in Hin as [r' Hr]. congruence.
Qed.
Lemma last_entry c id ci k : last_of (entry_data id ci k) (change_items c)
  = x ← (local_index c !! id ≫= λ o, o !! ci); if decide (k ∈ mask_bits x.1.2) then Some (chunk_entry x.2 k) else None.
Proof.
  destruct (local_index c !! id ≫= _) as [[[r m] ch]|] eqn:E; simpl.
  - assert (Hall : ∀ it, it ∈ change_items c → entry_data id ci k it = None ∨ entry_data id ci k it = if decide (k ∈ mask_bits m) then Some (chunk_entry ch k) else None).
    { intros it Hin. destruct it as [id' i' m0 d0|]; [|by left]. unfold entry_data. simpl. case_decide as Hd; [|by left]. destruct Hd as [-> ->].
      apply elem_index_item in Hin as [r' Hr]. right. simpl. assert (m0 = m ∧ d0 = ch) as [-> ->] by (split; congruence). done. }
    assert (Hin : IIndex id ci m ch ∈ change_items c) by (apply elem_index_item; eauto).
    destruct (last_of _ _) as [d'|] eqn:El.
    + apply last_of_Some in El as (it & Hit & Hx). destruct (Hall it Hit) as [Hn|Hn]; congruence.
    + rewrite last_of_None in El. specialize (El _ Hin). unfold entry_data in El. simpl in El. rewrite decide_True in El by done. simpl in El. by rewrite El.
  - apply last_entry_None. rewrite last_chunk, E. done.
Qed.

(** Publishing a record. *)
Lemma over_publish o rs c :
  over o rs → (∀ id i x, (local_values c !! id ≫= λ m, m !! i) = Some x → x.1 = record_id c) →
  (∀ id i x, (local_index c !! id ≫= λ m, m !! i) = Some x → x.1.1 = record_id c) →
  over (end_record_overlays c o) (rs ++ [(record_id c, change_items c)]).
Proof.
  intros [Hv Hi] Rv Ri. split.
  - intros id i. unfold raw_value. simpl. rewrite lookup_extend_tables, last_rec_snoc. cbn [fst snd]. rewrite last_slot.
    specialize (Rv id i). destruct (local_values c !! id ≫= _) as [[r d]|]; [|apply Hv]. simpl. by rewrite <-(Rv _ eq_refl).
  - intros id ci. unfold raw_index. simpl. rewrite lookup_extend_tables, last_rec_snoc. cbn [fst snd]. rewrite last_chunk.
    specialize (Ri id ci). destruct (local_index c !! id ≫= _) as [[[r m] ch]|]; [|apply Hi]. simpl. by rewrite <-(Ri _ eq_refl).
Qed.
End change.
