(* ===== verification/ColumnApply.v ===== *)
(** * Columns: enacting items

    [enacted l c c'] says that the files of the column [c'] are those of [c] with the items [l]
    written over them, and that nothing else of the column has changed.  Enacting an item of a
    record does this; sequences of items compose. *)

From S2P Require Import Prelude IndexEntry IndexChunk Log Stats IndexTable IndexEnact ValueEntry File ValueTable ValueSlots ValueChains ValueWrite ValueRead ValueInv ValueSpec ValueFile Compress Column ColumnEnact ColumnTables RecordItems.
#[local] Arguments mask_bits : simpl never.
#[local] Opaque mask_bits.

(** ** One slot *)
(** What a slot can hold: slot 0 is the header. *)
Definition slot_shape (t : ValueTable) (i : Z) (d : bytes) : Prop :=
  (i = 0 ∧ length d = 16%nat) ∨ (1 ≤ i ∧ ∃ c, wf_slot t c ∧ d = enc c).
(** What can be written to the file of a table. *)
Definition slot_item (t : ValueTable) (i : Z) (d : bytes) : Prop :=
  (i = 0 ∧ length d = 16%nat) ∨
  (1 ≤ i ∧ (i + GROW_SIZE_BYTES / entry_size t) * entry_size t < 2 ^ 64 ∧ ∃ c, wf_slot t c ∧ d = enc c).

(** The slot of a file begins with [d]. *)
Definition on_file (t : ValueTable) (f : TableFile) (i : Z) (d : bytes) : Prop :=
  ∃ rest, TableFile_read_at f (es_nat t) (i * entry_size t) = Ok (d ++ rest).

Lemma slot_item_shape t i d : slot_item t i d → slot_shape t i d.
Proof. intros [?|(? & _ & ?)]; [by left|by right]. Qed.

(** The bytes of a slot say how long its contents are. *)
Lemma on_file_inj t f i d d' : wf_table t → slot_shape t i d → slot_shape t i d' → on_file t f i d → on_file t f i d' → d = d'.
Proof.
  intros Ht Hd Hd' [rest Hr] [rest' Hr']. assert (E : d ++ rest = d' ++ rest') by congruence. clear Hr Hr'.
  destruct Hd as [[-> Hl]|(Hi & c & Hc & ->)], Hd' as [[Hi' Hl']|(Hi' & c' & Hc' & ->)]; try lia.
  - apply app_inj_1 in E as [? _]; [done|lia].
  - pose proof (read_entry_body_spec t Ht c rest (LogReader_new (enc c ++ rest) false) Hc eq_refl) as E1.
    pose proof (read_entry_body_spec t Ht c' rest' (LogReader_new (enc c ++ rest) false) Hc' E) as E2. congruence.
Qed.

Lemma enact_slot t i d rest r :
  wf_table t → file_ok (entry_size t) (vt_file t) → slot_item t i d → rd_stream r = d ++ rest →
  ∃ f', ValueTable_enact_plan i (t, r) = (Ok tt, (set_file f' t, consume d r)) ∧ file_ok (entry_size t) f' ∧ on_file t f' i d ∧
    ∀ j n x, 0 ≤ j → j ≠ i → (n ≤ es_nat t)%nat →
      TableFile_read_at (vt_file t) n (j * entry_size t) = Ok x → TableFile_read_at f' n (j * entry_size t) = Ok x.
Proof.
  intros Ht Hf [[-> Hd]|(Hi & Hroom & c & Hc & ->)] Hs; [|by apply (enact_spec t Ht Hf i c rest r)].
  pose proof (wf_es _ Ht) as Hes. pose proof (es_nat_eq _ Ht) as [Hesn _].
  destruct (enact_grow t Ht Hf 0 r) as (f & _ & Hf1 & Hx & Hlt & ->); [lia| |].
  { simpl. rewrite Z.mul_comm. pose proof (Z.mul_div_le GROW_SIZE_BYTES (entry_size t)). unfold GROW_SIZE_BYTES in *. lia. }
  rewrite bool_decide_true by done. mstep (log_read_app (set_file f t) 16 d rest r Hs (eq_sym Hd)).
  destruct (write_file_spec t Ht f d 0 (consume d r)) as (f' & -> & Hf' & Hr & Hy); [done|lia|lia|lia|].
  exists f'. split_and!; try done. intros j n x Hj Hne Hn Hx'. rewrite Hy by done. apply Hx; [nia|done].
Qed.

(** ** The file of a table after a list of items *)
Record file_after (t : ValueTable) (l : list item) (f f' : TableFile) : Prop := {
  fa_ok : file_ok (entry_size t) f';
  fa_has : ∀ i d, last_of (slot_data (vt_id t) i) l = Some d → on_file t f' i d;
  fa_keeps : ∀ j n x, 0 ≤ j → last_of (slot_data (vt_id t) j) l = None → (n ≤ es_nat t)%nat →
    TableFile_read_at f n (j * entry_size t) = Ok x → TableFile_read_at f' n (j * entry_size t) = Ok x;
  fa_same : (∀ i, last_of (slot_data (vt_id t) i) l = None) → f' = f;
}.

Lemma file_after_nil t f : file_ok (entry_size t) f → file_after t [] f f.
Proof. intros Hf. split; try done. Qed.

Lemma file_after_app t l l' f f1 f2 :
  (∀ i d, last_of (slot_data (vt_id t) i) l = Some d → 0 ≤ i) → file_after t l f f1 → file_after t l' f1 f2 → file_after t (l ++ l') f f2.
Proof.
  intros Hpos [O1 H1 K1 S1] [O2 H2 K2 S2]. split; [done|..].
  - intros i d. rewrite last_of_app. destruct (last_of _ l') as [x|] eqn:E; [intros [= ->]; by apply H2|].
    intros Hl. destruct (H1 _ _ Hl) as [rest Hr]. exists rest. apply K2; try done. by eapply Hpos.
  - intros j n x Hj. rewrite last_of_app. destruct (last_of _ l') eqn:E; [done|]. intros Hl Hn Hr. apply K2; try done. by apply K1.
  - intros Hn. rewrite S2, S1; [done|..]; intros i; specialize (Hn i); rewrite last_of_app in Hn; by destruct (last_of (slot_data _ i) l').
Qed.

(** An item of another table. *)
Lemma file_after_other t it f : file_ok (entry_size t) f → (∀ i, slot_data (vt_id t) i it = None) → file_after t [it] f f.
Proof.
  intros Hf Hn. assert (Hl : ∀ i, last_of (slot_data (vt_id t) i) [it] = None) by (intros i; rewrite last_of_cons; apply Hn).
  split; try done. intros i d. by rewrite Hl.
Qed.

(** ** The files of a column *)
(** The column with other files. *)
Definition refiled (c c' : HashColumn) : Prop :=
  c' = set_values (hc_value c') (set_indexes (hc_index c') (hc_queue c) (hc_progress c) c).

Record enacted (l : list item) (c c' : HashColumn) : Prop := {
  en_rest : refiled c c';
  en_tables : Forall2 (λ t t', ∃ f', t' = set_file f' t ∧ file_after t l (vt_file t) f') (hc_value c) (hc_value c');
  en_id : it_id (hc_index c') = it_id (hc_index c);
  en_len : ∀ ci, length (file_chunk (hc_index c') ci) = CHUNK_LEN;
  en_index : ∀ ci k, (k < CHUNK_ENTRIES)%nat →
    chunk_entry (file_chunk (hc_index c') ci) k
    = default (chunk_entry (file_chunk (hc_index c) ci) k) (last_of (entry_data (it_id (hc_index c)) ci k) l);
}.
#[global] Arguments en_rest {l c c'}.
#[global] Arguments en_tables {l c c'}.
#[global] Arguments en_id {l c c'}.
#[global] Arguments en_len {l c c'}.
#[global] Arguments en_index {l c c'}.

(** Files that items can be written to. *)
Record files_ok (c : HashColumn) : Prop := {
  fo_bits : valid_bits (bits_of (hc_index c));
  fo_len : ∀ ci, length (file_chunk (hc_index c) ci) = CHUNK_LEN;
  fo_id : in_range 16 (it_id (hc_index c));
  fo_col : in_range 8 (hc_col c) ∧ TableId_col (it_id (hc_index c)) = hc_col c;
  fo_table : ∀ tier t, hc_value c !! tier = Some t → wf_table t ∧ file_ok (entry_size t) (vt_file t) ∧
    vt_id t = TableId_new (hc_col c) (Z.of_nat tier) ∧ (tier < SIZE_TIERS)%nat;
}.

(** An item for a column. *)
Definition item_for (c : HashColumn) (it : item) : Prop :=
  match it with
  | IIndex id ci mask chunk => id = it_id (hc_index c) ∧ 0 ≤ ci < total_chunks (bits_of (hc_index c)) ∧ in_range 64 mask ∧ length chunk = CHUNK_LEN
  | IValue id i d => ∃ tier t, hc_value c !! tier = Some t ∧ vt_id t = id ∧ slot_item t i d
  end.

Lemma slot_shape_pos t i d : slot_shape t i d → 0 ≤ i.
Proof. intros [[-> _]|(? & _)]; lia. Qed.

Definition item_pos (it : item) : Prop := match it with IValue _ i _ => 0 ≤ i | _ => True end.
Lemma item_for_pos c it : item_for c it → item_pos it.
Proof. destruct it as [|id i d]; [done|]. intros (tier & t & _ & _ & Hs). by eapply slot_shape_pos, slot_item_shape. Qed.
Lemma last_slot_pos l id i d : Forall item_pos l → last_of (slot_data id i) l = Some d → 0 ≤ i.
Proof.
  intros Hl Hs. apply last_of_Some in Hs as (it & Hin & Hd). destruct it as [|id' i' d']; [done|]. simpl in Hd. case_decide as E; [|done].
  destruct E as [-> ->]. rewrite Forall_forall in Hl. apply (Hl _ Hin).
Qed.

Lemma set_file_twice f g t : set_file f (set_file g t) = set_file f t.
Proof. done. Qed.

Lemma enacted_nil c : files_ok c → enacted [] c c.
Proof.
  intros [Hb Hl Hid Hcol Ht]. split; try done.
  - unfold refiled. by destruct c.
  - apply Forall2_same_length_lookup_2; [done|]. intros i t t' Et Et'. assert (t' = t) as -> by congruence.
    exists (vt_file t). split; [by destruct t|]. apply file_after_nil. by apply (Ht i t Et).
Qed.

Lemma enacted_app l l' c c1 c2 : Forall item_pos l → enacted l c c1 → enacted l' c1 c2 → enacted (l ++ l') c c2.
Proof.
  intros Hl [R1 T1 I1 L1 X1] [R2 T2 I2 L2 X2]. split.
  - unfold refiled in *. rewrite R2, R1. by destruct c.
  - apply Forall2_same_length_lookup_2.
    { by rewrite (Forall2_length _ _ _ T1), (Forall2_length _ _ _ T2). }
    intros i t t2 Et Et2. destruct (Forall2_lookup_l _ _ _ _ _ T1 Et) as (t1 & Et1 & f1 & -> & F1).
    destruct (Forall2_lookup_l _ _ _ _ _ T2 Et1) as (t2' & Et2' & f2 & -> & F2). rewrite Et2 in Et2'. injection Et2' as ->.
    exists f2. split; [done|]. eapply file_after_app; [|done|]; [intros j d; by apply last_slot_pos|].
    destruct F2 as [O H K S]. split; try done.
  - congruence.
  - done.
  - intros ci k Hk. rewrite X2 by done. rewrite I1, X1 by done. rewrite last_of_app. by destruct (last_of (entry_data _ ci k) l').
Qed.

Lemma bits_of_id t t' : it_id t' = it_id t → bits_of t' = bits_of t.
Proof. unfold bits_of. by intros ->. Qed.

Lemma wf_table_file f t : wf_table t → wf_table (set_file f t).
Proof. intros Ht. split; apply Ht. Qed.

(** What holds of the files after. *)
Lemma enacted_files_ok l c c' : files_ok c → enacted l c c' → files_ok c'.
Proof.
  intros [Hb Hl Hid Hcol Ht] [R T I L X]. split.
  - by rewrite (bits_of_id _ _ I).
  - done.
  - by rewrite I.
  - rewrite I, R. exact Hcol.
  - intros tier t' Et'. destruct (Forall2_lookup_r _ _ _ _ _ T Et') as (t & Et & f' & -> & F). destruct (Ht _ _ Et) as (Hw & _ & Hi & Hlt).
    split_and!; [by apply wf_table_file|apply F| |done]. change (vt_id (set_file f' t)) with (vt_id t). rewrite Hi. f_equal. by rewrite R.
Qed.
Lemma slot_item_file f t i d : slot_item t i d → slot_item (set_file f t) i d.
Proof. done. Qed.
Lemma enacted_item_for l c c' it : enacted l c c' → item_for c it → item_for c' it.
Proof.
  intros [R T I L X]. destruct it as [id ci mask chunk|id i d]; simpl; [by rewrite I, (bits_of_id _ _ I)|].
  intros (tier & t & Et & Hid & Hs). destruct (Forall2_lookup_l _ _ _ _ _ T Et) as (t' & Et' & f' & -> & _). by exists tier, (set_file f' t).
Qed.

(** ** One item of a record *)
Definition action_of (it : item) : LogAction :=
  match it with IIndex id ci _ _ => InsertIndex id ci | IValue id i _ => InsertValue id i end.
(** The reader after an item. *)
Definition read_item (it : item) (r : LogReader) : LogReader :=
  consume (enc_item it) (match it with IIndex id ci _ _ => push_cleared_index id ci r | IValue id i _ => push_cleared_value id i r end).

Lemma size_tier_new col tier : (tier < SIZE_TIERS)%nat → Z.to_nat (ValueTableId_size_tier (TableId_new col (Z.of_nat tier))) = tier.
Proof.
  intros Ht. unfold ValueTableId_size_tier. rewrite TableId_new_eq by (by apply tier_range). change 255 with (2 ^ 8 - 1).
  rewrite land_mask by lia. pose proof (tier_range _ Ht) as Hr. unfold wrap. rewrite Z.add_comm, Z.mod_add by lia.
  unfold in_range in Hr. rewrite !Z.mod_small by (rewrite ?Z.mod_small by lia; lia). lia.
Qed.

(** The tables of a column have its number in their identifiers. *)
Lemma fo_table_col {c tier t} : files_ok c → hc_value c !! tier = Some t → TableId_col (vt_id t) = hc_col c.
Proof.
  intros Hc Et. destruct (fo_table _ Hc _ _ Et) as (_ & _ & -> & Hlt). apply TableId_col_new; [apply Hc|by apply tier_range].
Qed.
Lemma item_for_col {c it} : files_ok c → item_for c it → TableId_col (item_id it) = hc_col c.
Proof.
  intros Hc. destruct it as [id ci mask chunk|id i d]; simpl; [intros (-> & _); apply Hc|].
  intros (tier & t & Et & <- & _). by eapply fo_table_col.
Qed.

(** An item of another column. *)
Lemma enacted_other c it : files_ok c → TableId_col (item_id it) ≠ hc_col c → enacted [it] c c.
Proof.
  intros Hc Hne. split; try done.
  - unfold refiled. by destruct c.
  - apply Forall2_same_length_lookup_2; [done|]. intros i t t' Et Et'. assert (t' = t) as -> by congruence.
    exists (vt_file t). split; [by destruct t|]. apply file_after_other; [by apply (fo_table _ Hc i t Et)|].
    intros j. destruct it as [|id k d]; [done|]. simpl. rewrite decide_False; [done|]. intros [-> _]. apply Hne. by eapply fo_table_col.
  - apply (fo_len _ Hc).
  - intros ci k Hk. rewrite last_of_cons. simpl. destruct it as [id ci' m ch|]; [|done]. unfold entry_data. simpl.
    rewrite decide_False; [done|]. intros [-> _]. apply Hne. apply Hc.
Qed.

(** An item is read in two steps: where it goes, and what goes there. *)
Definition item_head (it : item) : bytes :=
  match it with
  | IIndex id ci _ _ => le_bytes 1 INSERT_INDEX ++ le_bytes 2 id ++ le_bytes 8 ci
  | IValue id i _ => le_bytes 1 INSERT_VALUE ++ le_bytes 2 id ++ le_bytes 8 i
  end.
Definition item_body (it : item) : bytes :=
  match it with
  | IIndex _ _ mask chunk => le_bytes 8 mask ++ concat (chunk_entry chunk <$> mask_bits mask)
  | IValue _ _ d => d
  end.
Definition read_head (it : item) (r : LogReader) : LogReader :=
  match it with
  | IIndex id ci _ _ => push_cleared_index id ci (consume (item_head it) r)
  | IValue id i _ => push_cleared_value id i (consume (item_head it) r)
  end.

Lemma enc_item_split it : enc_item it = item_head it ++ item_body it.
Proof. destruct it; simpl; unfold encode_index_item, encode_value_item; by rewrite <-!app_assoc. Qed.
Lemma read_head_stream it rest r : rd_stream r = enc_item it ++ rest → rd_stream (read_head it r) = item_body it ++ rest.
Proof.
  rewrite enc_item_split, <-app_assoc. intros Hs. pose proof (consume_stream _ _ _ Hs) as E. by destruct it.
Qed.
Lemma read_head_body it r : consume (item_body it) (read_head it r) = read_item it r.
Proof.
  unfold read_item. rewrite enc_item_split. destruct it; unfold read_head;
    [rewrite push_cleared_index_consume|rewrite push_cleared_value_consume]; by rewrite consume_app.
Qed.

Section item.
Context {c : HashColumn} (Hc : files_ok c).

Lemma next_head crc32 it rest r :
  item_for c it → rd_stream r = enc_item it ++ rest → LogReader_next crc32 r = (Ok (action_of it), read_head it r).
Proof.
  destruct it as [id ci mask chunk|id i d]; intros Hit Hs.
  - destruct Hit as (-> & Hci & _). pose proof (fo_bits _ Hc) as Hb. apply (next_index_item crc32 _ _ _ _ _ _ (fo_id _ Hc)) in Hs; [done|].
    unfold valid_bits in Hb. rewrite total_chunks_eq in Hci by lia.
    pose proof (Z.pow_le_mono_r 2 (bits_of (hc_index c)) 64 ltac:(lia) ltac:(lia)). unfold in_range. lia.
  - destruct Hit as (tier & t & Et & <- & Hsi). destruct (fo_table _ Hc _ _ Et) as (Hw & Hf & Hid & Hlt).
    apply (next_value_item crc32 _ _ _ _ _) in Hs; [done|..].
    + rewrite Hid, TableId_new_eq by (by apply tier_range). pose proof (tier_range _ Hlt) as Hr. unfold in_range in *.
      pose proof (Z.mod_pos_bound (hc_col c) (2 ^ 8) eq_refl). change (2 ^ 8) with 256 in *. change (2 ^ 16) with 65536. lia.
    + pose proof (wf_es _ Hw). pose proof (grow_step (entry_size t) ltac:(lia)). destruct Hsi as [[-> _]|(? & ? & _)]; unfold in_range; [lia|nia].
Qed.

Lemma enact_index ci mask chunk rest r :
  let it := IIndex (it_id (hc_index c)) ci mask chunk in item_for c it → rd_stream r = item_body it ++ rest →
  ∃ c', HashColumn_enact_plan (InsertIndex (it_id (hc_index c)) ci) (c, r) = (Ok tt, (c', consume (item_body it) r)) ∧ enacted [it] c c'.
Proof.
  intros it (_ & Hci & Hm & Hch) Hs. cbn [item_body it] in Hs. rewrite <-app_assoc in Hs.
  destruct (IndexEnact.enact_item (hc_index c) r rest ci mask chunk (fo_bits _ Hc) Hci Hm Hch (fo_len _ Hc ci) Hs) as (i' & E & Hid & Hl & He & Ho).
  exists (set_indexes i' (hc_queue c) (hc_progress c) c). split.
  - unfold HashColumn_enact_plan. mrun. change (id (c, r)) with (c, r). cbv beta iota. rewrite bool_decide_true by done. unfold on_main. by rewrite E.
  - split; simpl; try done.
    + apply Forall2_same_length_lookup_2; [done|]. intros k t t' Et Et'. assert (t' = t) as -> by congruence.
      exists (vt_file t). split; [by destruct t|]. apply file_after_other; [by apply (fo_table _ Hc _ _ Et)|done].
    + intros k. destruct (decide (k = ci)) as [->|Hne]; [done|]. rewrite Ho by done. apply (fo_len _ Hc).
    + intros k e Hk. rewrite last_of_cons. change (last_of (entry_data (it_id (hc_index c)) k e) []) with (@None bytes). cbv iota.
      unfold entry_data. simpl. case_decide as Hd.
      * destruct Hd as [_ <-]. simpl. rewrite He by done. by case_decide.
      * rewrite Ho by naive_solver. done.
Qed.

(** The files of the column after a write to one of them. *)
Lemma enacted_value tier t i d f' :
  hc_value c !! tier = Some t → file_ok (entry_size t) f' → on_file t f' i d →
  (∀ j n x, 0 ≤ j → j ≠ i → (n ≤ es_nat t)%nat →
    TableFile_read_at (vt_file t) n (j * entry_size t) = Ok x → TableFile_read_at f' n (j * entry_size t) = Ok x) →
  enacted [IValue (vt_id t) i d] c (set_values (<[tier := set_file f' t]> (hc_value c)) c).
Proof.
  intros Et Hf' Hon Hx. destruct (fo_table _ Hc _ _ Et) as (_ & _ & Hid & Hlt). split; simpl; try done; [|apply (fo_len _ Hc)].
  apply Forall2_same_length_lookup_2; [by rewrite length_insert|]. intros k t0 t' Et0. rewrite list_lookup_insert. case_decide as Hd.
  - destruct Hd as [<- _]. intros [= <-]. assert (t0 = t) as -> by congruence. exists f'. split; [done|].
    assert (Hl : ∀ j, last_of (slot_data (vt_id t) j) [IValue (vt_id t) i d] = if decide (i = j) then Some d else None).
    { intros j. rewrite last_of_cons. simpl. by apply decide_ext; naive_solver. }
    split; [done|..].
    + intros j x. rewrite Hl. case_decide; [|done]. intros [= <-]. by subst j.
    + intros j n x Hj. rewrite Hl. case_decide; [done|]. intros _ Hn. apply Hx; auto.
    + intros Hn. specialize (Hn i). rewrite Hl, decide_True in Hn by done. done.
  - intros Et'. assert (t' = t0) as -> by congruence. exists (vt_file t0). split; [by destruct t0|].
    destruct (fo_table _ Hc _ _ Et0) as (_ & Hf0 & Hid0 & Hlt0). apply file_after_other; [done|]. intros j. simpl. rewrite decide_False; [done|].
    intros [Heq _]. rewrite Hid, Hid0 in Heq. apply TableId_tier_inj in Heq as <-; [|done|done]. apply Hd. split; [done|]. by eapply lookup_lt_Some.
Qed.

Lemma enact_value id i d rest r :
  item_for c (IValue id i d) → rd_stream r = d ++ rest →
  ∃ c', HashColumn_enact_plan (InsertValue id i) (c, r) = (Ok tt, (c', consume d r)) ∧ enacted [IValue id i d] c c'.
Proof.
  intros (tier & t & Et & <- & Hsi) Hs. destruct (fo_table _ Hc _ _ Et) as (Hw & Hf & Hid & Hlt).
  destruct (enact_slot t i d rest r Hw Hf Hsi Hs) as (f' & E & Hf' & Hon & Hx).
  exists (set_values (<[tier := set_file f' t]> (hc_value c)) c). split; [|by apply enacted_value].
  unfold HashColumn_enact_plan. mrun. change (id (c, r)) with (c, r). cbv beta iota.
  assert (Hst : Z.to_nat (ValueTableId_size_tier (vt_id t)) = tier) by (rewrite Hid; by apply size_tier_new).
  rewrite Hst. unfold on_value_table. by rewrite Et, E.
Qed.

Lemma enact_item_run it rest r :
  item_for c it → rd_stream r = enc_item it ++ rest →
  ∃ c', HashColumn_enact_plan (action_of it) (c, read_head it r) = (Ok tt, (c', read_item it r)) ∧ enacted [it] c c'.
Proof.
  intros Hit Hs. pose proof (read_head_stream _ _ _ Hs) as Hs1. rewrite <-read_head_body. destruct it as [id ci mask chunk|id i d].
  - pose proof Hit as [-> _]. by apply (enact_index ci mask chunk rest).
  - by apply (enact_value id i d rest).
Qed.
End item.
