(* ===== verification/ColumnPipeline.v ===== *)
(** * Columns: what readers see while records wait

    The readers of a column look through the overlays of the log at the files.  [col_ready] says
    that the files, the overlays, the records that are not enacted yet and those that are enacted
    but still in the log fit together; then enacting the first of the waiting records changes
    nothing that a reader can see. *)

From S2P Require Import Prelude IndexEntry IndexChunk Log Stats IndexTable IndexEnact ValueEntry File ValueTable ValueSlots ValueChains ValueWrite ValueRead ValueInv ValueSpec ValueFile Compress Column ColumnEnact ColumnIndex ColumnTables ColumnInv RecordItems ColumnApply.
#[local] Arguments mask_bits : simpl never.
#[local] Opaque mask_bits.

(** ** What a reader sees of a slot *)
Definition shows `{LogQuery L} (t : ValueTable) (log : L) (i : Z) (d : bytes) : Prop :=
  match value_entry log (vt_id t) i with Some d' => d' = d | None => on_file t (vt_file t) i d end.

(** The same column with other files and another log, and nothing else to see. *)
Record same_view `{HL : LogQuery L} `{HL' : LogQuery L'} (c : HashColumn) (log : L) (c' : HashColumn) (log' : L') : Prop := {
  sv_rest : hc_col c' = hc_col c ∧ hc_ref_counted c' = hc_ref_counted c ∧ hc_compression c' = hc_compression c;
  sv_id : it_id (hc_index c') = it_id (hc_index c);
  sv_index : ∀ ci, chunk_view (hc_index c') log' ci = chunk_view (hc_index c) log ci;
  sv_tables : Forall2 (λ t t', ∃ f', t' = set_file f' t ∧ ∀ i d, slot_shape t i d → shows t log i d → shows t' log' i d) (hc_value c) (hc_value c');
}.
#[global] Arguments sv_rest {L HL L' HL' c log c' log'}.
#[global] Arguments sv_id {L HL L' HL' c log c' log'}.
#[global] Arguments sv_index {L HL L' HL' c log c' log'}.
#[global] Arguments sv_tables {L HL L' HL' c log c' log'}.

Section view.
Context `{HL : LogQuery L} `{HL' : LogQuery L'} {log : L} {log' : L'}.

Lemma table_inv_shows t f' kl vals :
  (∀ i d, slot_shape t i d → shows t log i d → shows (set_file f' t) log' i d) → table_inv t log kl vals → table_inv (set_file f' t) log' kl vals.
Proof.
  intros Hx (H & slots & fl & Hst). exists H, slots, fl. split; try apply Hst.
  - apply wf_table_file, Hst.
  - intros i c Hc. destruct (ts_repr Hst _ _ Hc) as (Hi & Hw & Hs). split; [done|]. split; [done|]. apply Hx; [|done]. right. split; [lia|]. by exists c.
Qed.

Lemma index_inv_moved t t' kv :
  it_id t' = it_id t → (∀ ci, chunk_view t' log' ci = chunk_view t log ci) → index_inv t log kv → index_inv t' log' kv.
Proof.
  intros Hid Hx [[Hb Hl] H2 H3 H4 H5 H6]. pose proof (bits_of_id _ _ Hid) as Hbits.
  assert (Hkc : ∀ key, key_chunk t' key = key_chunk t key) by (intros; unfold key_chunk; by rewrite Hbits).
  assert (Hke : ∀ key a, key_entry t' key a = key_entry t key a) by (intros; unfold key_entry; by rewrite Hbits).
  split; try done; rewrite ?Hbits; try done.
  - split; [by rewrite Hbits|]. intros ci. by rewrite Hx.
  - intros key a. rewrite Hkc, Hx, Hke. apply H3.
  - intros ci i e. rewrite Hx. intros Hi Hci Hr He. destruct (H4 _ _ _ Hi Hci Hr He) as (key & a & ?). exists key, a. by rewrite Hkc, Hke.
  - intros ci i j e. rewrite Hx. apply H5.
Qed.

Lemma col_inv_view `{HC : Compressors} {c c' kv vs} : same_view c log c' log' → col_inv c log kv vs → col_inv c' log' kv vs.
Proof.
  intros [R I X T] [H1 [G1 G2 G3 G4] H3 H4]. split.
  - by eapply index_inv_moved.
  - destruct R as (-> & -> & _).
    assert (Hback : ∀ tier t', hc_value c' !! tier = Some t' → ∃ t f', hc_value c !! tier = Some t ∧ t' = set_file f' t ∧
      ∀ i d, slot_shape t i d → shows t log i d → shows t' log' i d).
    { intros tier t' Et'. destruct (Forall2_lookup_r _ _ _ _ _ T Et') as (t & Et & f' & -> & Hs). by exists t, f'. }
    split.
    + by rewrite <-(Forall2_length _ _ _ T).
    + intros tier t' Et'. destruct (Hback _ _ Et') as (t & f' & Et & -> & _). by apply (G2 tier t).
    + intros tier t' Et'. destruct (Hback _ _ Et') as (t & f' & Et & -> & _). by apply (G3 tier t).
    + intros tier t' m Et' Em. destruct (Hback _ _ Et') as (t & f' & Et & -> & Hs). apply table_inv_shows; [done|]. by apply (G4 tier).
  - destruct R as (_ & _ & ->). done.
  - done.
Qed.
End view.

(** ** Chunks and their entries *)
Lemma chunk_view_file {L} {HL : LogQuery L} t (log : L) ci : with_index log (it_id t) ci = None → chunk_view t log ci = file_chunk t ci.
Proof. intros Hn. unfold chunk_view. by rewrite Hn. Qed.
Lemma chunk_view_log {L} {HL : LogQuery L} t (log : L) ci ch : with_index log (it_id t) ci = Some ch → chunk_view t log ci = ch.
Proof. intros Hn. unfold chunk_view. by rewrite Hn. Qed.

(** Writing the items [l] over the file of the index gives what the log shows. *)
Definition index_agrees `{LogQuery L} (t : IndexTable) (log : L) (l : list item) : Prop :=
  ∀ ci k, (k < CHUNK_ENTRIES)%nat →
    default (chunk_entry (file_chunk t ci) k) (last_of (entry_data (it_id t) ci k) l) = chunk_entry (chunk_view t log ci) k.

(** ** Enacting a record *)
Section enact.
Context {c c' : HashColumn} {o : LogOverlays} {rid : Z} {l : list item} {rs : list rec} {cl : Cleared}.
Context (Hover : over o ((rid, l) :: rs)) (Hid : rid ∉ rs.*1) (Hcl : clears cl l) (Hpos : Forall item_pos l).
Context (Hen : enacted l c c') (Hlen : ∀ ci, length (chunk_view (hc_index c) o ci) = CHUNK_LEN).
Context (Hagree : index_agrees (hc_index c) o (items_in ((rid, l) :: rs))).
Abbreviation o' := (end_read_overlays cl rid o).

Lemma enact_over : over o' rs.
Proof. by eapply over_clear. Qed.

Lemma enact_shows t f' i d :
  0 ≤ i → file_after t l (vt_file t) f' → shows t o i d → shows (set_file f' t) o' i d.
Proof.
  intros Hi Hf. unfold shows. change (vt_id (set_file f' t)) with (vt_id t). rewrite (over_value enact_over), (over_value Hover).
  change (items_in ((rid, l) :: rs)) with (l ++ items_in rs). rewrite last_of_app. destruct (last_of _ (items_in rs)) as [x|]; [done|].
  destruct (last_of (slot_data (vt_id t) i) l) as [x|] eqn:El; [intros ->; by apply (fa_has _ _ _ _ Hf)|].
  intros [rest Hr]. exists rest. by apply (fa_keeps _ _ _ _ Hf).
Qed.

Lemma enact_index_view ci : chunk_view (hc_index c') o' ci = chunk_view (hc_index c) o ci.
Proof.
  assert (Hw : with_index o' (it_id (hc_index c')) ci = snd <$> last_of (chunk_data (it_id (hc_index c)) ci) (items_in rs)).
  { rewrite (en_id Hen). apply (over_index enact_over). }
  pose proof (over_index Hover (it_id (hc_index c)) ci) as Hw0. change (items_in ((rid, l) :: rs)) with (l ++ items_in rs) in Hw0.
  rewrite last_of_app in Hw0. destruct (last_of (chunk_data (it_id (hc_index c)) ci) (items_in rs)) as [x|] eqn:Er.
  - by rewrite (chunk_view_log _ _ _ _ Hw), (chunk_view_log _ _ _ _ Hw0).
  - rewrite (chunk_view_file _ _ _ Hw). apply chunk_ext; [apply (en_len Hen)|apply Hlen|]. intros k Hk.
    rewrite (en_index Hen) by done. rewrite <-(Hagree ci k Hk). change (items_in ((rid, l) :: rs)) with (l ++ items_in rs).
    rewrite last_of_app. by rewrite (last_entry_None _ _ _ _ Er).
Qed.

Lemma enact_same_view : same_view c o c' o'.
Proof.
  split; [by rewrite (en_rest Hen)|apply Hen|apply enact_index_view|].
  eapply Forall2_impl; [apply (en_tables Hen)|]. intros t t' (f' & -> & Hf). exists f'. split; [done|]. intros i d Hi. apply enact_shows; [|done]. by eapply slot_shape_pos.
Qed.

(** The rest of the records still gives what readers see. *)
Lemma enact_agrees : index_agrees (hc_index c') o' (items_in rs).
Proof.
  intros ci k Hk. rewrite enact_index_view, <-(Hagree ci k Hk), (en_id Hen), (en_index Hen) by done.
  change (items_in ((rid, l) :: rs)) with (l ++ items_in rs). rewrite last_of_app. by destruct (last_of _ (items_in rs)).
Qed.
End enact.

(** ** A column whose records wait

    [kept] are the records that are enacted but still in the log: they are enacted again if the
    database is opened after a crash.  [pending] are the records that are not enacted yet. *)
Definition header_of (t : ValueTable) : bytes := Header_set_filled (filled t) (Header_set_last_removed (last_removed t) Header_default).
(** The header of a table that readers of the file would see after the pending records. *)
Definition header_ok (t : ValueTable) (o : LogOverlays) : Prop :=
  dirty_header t = false ∧
  (shows t o 0 (header_of t) ∨
   (filled t = 1 ∧ last_removed t = 0 ∧ tf_file (vt_file t) = None ∧ ∀ i, value_entry o (vt_id t) i = None)).

Record col_ready (c : HashColumn) (o : LogOverlays) (kept pending : list rec) : Prop := {
  cr_files : files_ok c;
  cr_quiet : hc_queue c = [];
  cr_items : ∀ it, it ∈ items_in (kept ++ pending) → TableId_col (item_id it) = hc_col c → item_for c it;
  cr_index : index_agrees (hc_index c) o (items_in pending);
  cr_kept_index : index_agrees (hc_index c) o (items_in (kept ++ pending));
  cr_kept_slots : ∀ tier t i d, hc_value c !! tier = Some t →
    last_of (slot_data (vt_id t) i) (items_in (kept ++ pending)) = Some d → shows t o i d;
  cr_header : ∀ tier t, hc_value c !! tier = Some t → header_ok t o;
}.
#[global] Arguments cr_files {c o kept pending}.
#[global] Arguments cr_quiet {c o kept pending}.
#[global] Arguments cr_items {c o kept pending}.
#[global] Arguments cr_index {c o kept pending}.
#[global] Arguments cr_kept_index {c o kept pending}.
#[global] Arguments cr_kept_slots {c o kept pending}.
#[global] Arguments cr_header {c o kept pending}.

Lemma last_slot_item {c o kept pending} tier t i d :
  col_ready c o kept pending → hc_value c !! tier = Some t →
  last_of (slot_data (vt_id t) i) (items_in (kept ++ pending)) = Some d → slot_item t i d.
Proof.
  intros Hr Et Hl. apply last_of_Some in Hl as (it & Hin & Hd). destruct it as [|id i' d']; [done|]. simpl in Hd. case_decide as E; [|done].
  destruct E as [-> ->]. injection Hd as ->. destruct (cr_items Hr _ Hin) as (tier' & t' & Et' & Hid & Hs).
  { simpl. eapply fo_table_col; [apply Hr|done]. }
  destruct (fo_table _ (cr_files Hr) _ _ Et) as (_ & _ & I1 & L1). destruct (fo_table _ (cr_files Hr) _ _ Et') as (_ & _ & I2 & L2).
  rewrite I1, I2 in Hid. apply TableId_tier_inj in Hid as <-; [|done|done]. by rewrite Et in Et'; injection Et' as <-.
Qed.

(** Enacting the first of the pending records. *)
Lemma col_ready_enact c c' o kept rid l rs cl :
  col_ready c o kept ((rid, l) :: rs) → over o ((rid, l) :: rs) → rid ∉ rs.*1 → clears cl l → Forall item_pos l →
  (∀ ci, length (chunk_view (hc_index c) o ci) = CHUNK_LEN) → enacted l c c' →
  same_view c o c' (end_read_overlays cl rid o) ∧ col_ready c' (end_read_overlays cl rid o) (kept ++ [(rid, l)]) rs.
Proof.
  intros Hr Hover Hid Hcl Hpos Hlen Hen.
  pose proof (enact_same_view Hover Hid Hcl Hen Hlen (cr_index Hr)) as Hsv. split; [done|].
  assert (Hall : (kept ++ [(rid, l)]) ++ rs = kept ++ (rid, l) :: rs) by (by rewrite <-app_assoc).
  assert (Hcol : hc_col c' = hc_col c) by (by rewrite (en_rest Hen)).
  assert (Hl : ∀ {A} (f : item → option A), last_of f (items_in (kept ++ (rid, l) :: rs)) = None → last_of f l = None).
  { intros A f. rewrite !last_of_None. intros Hn it Hin. apply Hn. rewrite items_in_app. apply elem_of_app. right.
    change (items_in ((rid, l) :: rs)) with (l ++ items_in rs). set_solver. }
  split; rewrite ?Hall.
  - eapply enacted_files_ok; [apply Hr|done].
  - rewrite (en_rest Hen). apply Hr.
  - rewrite Hcol. intros it Hin Hc. eapply enacted_item_for; [done|]. by apply (cr_items Hr).
  - by apply (enact_agrees Hover Hid Hcl Hen Hlen (cr_index Hr)).
  - intros ci k Hk. rewrite (sv_index Hsv), <-(cr_kept_index Hr ci k Hk), (en_id Hen), (en_index Hen) by done.
    destruct (last_of (entry_data _ ci k) (items_in (kept ++ (rid, l) :: rs))) as [e|] eqn:E; [done|]. simpl. by rewrite (Hl _ _ E).
  - intros tier t' i d Et' Hd. destruct (Forall2_lookup_r _ _ _ _ _ (sv_tables Hsv) Et') as (t & Et & f' & -> & Hs).
    change (vt_id (set_file f' t)) with (vt_id t) in Hd. apply Hs; [|by eapply (cr_kept_slots Hr)].
    eapply slot_item_shape. by eapply last_slot_item.
  - intros tier t' Et'. destruct (Forall2_lookup_r _ _ _ _ _ (en_tables Hen) Et') as (t & Et & f' & -> & Hf).
    destruct (cr_header Hr _ _ Et) as [Hd Hh]. split; [done|]. destruct Hh as [Hh|(H1 & H2 & H3 & H4)].
    + left. apply (enact_shows Hover Hid Hcl t f' 0); try done.
    + right. split_and!; try done.
      * rewrite (fa_same _ _ _ _ Hf); [done|]. intros i. specialize (H4 i). rewrite (over_value Hover) in H4.
        change (items_in ((rid, l) :: rs)) with (l ++ items_in rs) in H4. rewrite last_of_app in H4. by destruct (last_of _ (items_in rs)).
      * intros i. specialize (H4 i). change (vt_id (set_file f' t)) with (vt_id t). rewrite (over_value (enact_over Hover Hid Hcl)).
        rewrite (over_value Hover) in H4. change (items_in ((rid, l) :: rs)) with (l ++ items_in rs) in H4.
        rewrite last_of_app in H4. by destruct (last_of _ (items_in rs)).
Qed.
