(* ===== verification/ColumnRecover.v ===== *)
(** * Columns: recovery

    After a crash the places of the files that the records of the log mention may hold anything:
    the writes of a record that was being enacted may have happened in part and in any order.
    [damaged] is a column opened on such files.  Enacting all the records of the log again gives
    the column that readers saw before. *)

From S2P Require Import Prelude IndexEntry IndexChunk Log Stats IndexTable IndexEnact ValueEntry File ValueTable ValueSlots ValueChains ValueWrite ValueRead ValueInv ValueSpec ValueFile Compress Column ColumnEnact ColumnIndex ColumnTables ColumnInv RecordItems ColumnApply ColumnPipeline.
#[local] Arguments mask_bits : simpl never.
#[local] Opaque mask_bits.

(** A table opened on the damaged file of [t]. *)
Record damaged_table (l : list item) (t t1 : ValueTable) : Prop := {
  dt_same : vt_id t1 = vt_id t ∧ entry_size t1 = entry_size t ∧ multipart t1 = multipart t ∧ ref_counted t1 = ref_counted t ∧ db_version t1 = db_version t;
  dt_clean : dirty_header t1 = false;
  dt_fresh : tf_file (vt_file t1) = None → filled t1 = 1 ∧ last_removed t1 = 0;
  dt_keeps : ∀ j x, 0 ≤ j → last_of (slot_data (vt_id t) j) l = None →
    TableFile_read_at (vt_file t) (es_nat t) (j * entry_size t) = Ok x → TableFile_read_at (vt_file t1) (es_nat t) (j * entry_size t) = Ok x;
  dt_untouched : (∀ i, last_of (slot_data (vt_id t) i) l = None) → vt_file t1 = vt_file t;
}.

Record damaged (l : list item) (c c1 : HashColumn) : Prop := {
  dm_same : hc_col c1 = hc_col c ∧ hc_ref_counted c1 = hc_ref_counted c ∧ hc_compression c1 = hc_compression c ∧ hc_preimage c1 = hc_preimage c;
  dm_quiet : hc_queue c1 = [];
  dm_id : it_id (hc_index c1) = it_id (hc_index c);
  dm_index : ∀ ci k, (k < CHUNK_ENTRIES)%nat → last_of (entry_data (it_id (hc_index c)) ci k) l = None →
    chunk_entry (file_chunk (hc_index c1) ci) k = chunk_entry (file_chunk (hc_index c) ci) k;
  dm_tables : Forall2 (damaged_table l) (hc_value c) (hc_value c1);
  dm_files : files_ok c1;
}.
#[global] Arguments dm_same {l c c1}.
#[global] Arguments dm_quiet {l c c1}.
#[global] Arguments dm_id {l c c1}.
#[global] Arguments dm_index {l c c1}.
#[global] Arguments dm_tables {l c c1}.
#[global] Arguments dm_files {l c c1}.

Lemma header_of_fields t : wf_table t → 0 ≤ last_removed t < filled t →
  length (header_of t) = 16%nat ∧ Header_filled (header_of t) = filled t ∧ Header_last_removed (header_of t) = last_removed t.
Proof.
  intros Ht [Hl0 Hl1]. pose proof (wf_filled _ Ht). pose proof (wf_room _ Ht). pose proof (wf_es _ Ht). apply header_fields; unfold in_range; nia.
Qed.

Section table.
Context {t t1 : ValueTable} {o : LogOverlays} {kept pending : list rec} {f2 : TableFile} (Ht : wf_table t).
Abbreviation l := (items_in (kept ++ pending)).
Context (Hover : over o pending) (Hshape : ∀ i d, last_of (slot_data (vt_id t) i) l = Some d → slot_shape t i d ∧ shows t o i d).
Context (Hd : damaged_table l t t1) (Hf : file_after t1 l (vt_file t1) f2).

(** The file after the records holds what readers saw. *)
Lemma recovered_slot i d : slot_shape t i d → shows t o i d → on_file t f2 i d.
Proof.
  intros Hs Hd0. destruct (dt_same _ _ _ Hd) as (Hid & Hes & _). assert (Hn : es_nat t1 = es_nat t) by (unfold es_nat; by rewrite Hes).
  assert (Hon : ∀ i d, on_file t1 f2 i d → on_file t f2 i d) by (intros i' d'; unfold on_file; by rewrite Hn, Hes).
  unfold shows in Hd0. rewrite (over_value Hover) in Hd0.
  pose proof (fa_has _ _ _ _ Hf i) as Hhas. pose proof (fa_keeps _ _ _ _ Hf i (es_nat t)) as Hkeep. rewrite Hid in Hhas, Hkeep. rewrite Hn, Hes in Hkeep.
  assert (Hsplit : last_of (slot_data (vt_id t) i) l = match last_of (slot_data (vt_id t) i) (items_in pending) with Some x => Some x
    | None => last_of (slot_data (vt_id t) i) (items_in kept) end) by (by rewrite items_in_app, last_of_app).
  destruct (last_of (slot_data (vt_id t) i) l) as [d'|] eqn:El.
  - apply Hon. assert (d' = d) as ->; [|by apply Hhas]. destruct (Hshape _ _ El) as [Hs' Hd']. unfold shows in Hd'. rewrite (over_value Hover) in Hd'.
    destruct (last_of _ (items_in pending)) as [x|]; [congruence|]. by eapply on_file_inj.
  - destruct (last_of _ (items_in pending)); [done|]. destruct Hd0 as [rest Hr]. pose proof (slot_shape_pos _ _ _ Hs) as Hi. exists rest.
    apply Hkeep; try done. by apply (dt_keeps _ _ _ Hd).
Qed.

(** [refresh_metadata] restores the table. *)
Lemma recovered_table : 0 ≤ last_removed t < filled t → header_ok t o → ValueTable_refresh_metadata (set_file f2 t1) = Ok (set_file f2 t).
Proof.
  intros Hl [Hdirty Hh]. destruct (dt_same _ _ _ Hd) as (Hid & Hes & Hm & Hrc & Hver). pose proof (es_nat_eq _ Ht) as [Hesn Hran].
  assert (Hset : ∀ t', vt_id t' = vt_id t → entry_size t' = entry_size t → multipart t' = multipart t → ref_counted t' = ref_counted t →
    db_version t' = db_version t → dirty_header t' = dirty_header t → filled t' = filled t → last_removed t' = last_removed t → set_file f2 t' = set_file f2 t).
  { intros. unfold set_file. by f_equal. }
  destruct (header_of_fields t Ht Hl) as (Hlen & Hfi & Hlr). destruct Hh as [Hh|(H1 & H2 & H3 & H4)].
  - destruct (recovered_slot 0 (header_of t)) as [rest Hr]; [by left|done|].
    apply (TableFile_read_at_shorter _ 16) in Hr; [|lia|lia]. rewrite take_app_length' in Hr by done. change (0 * entry_size t) with 0 in Hr.
    unfold ValueTable_refresh_metadata. simpl vt_file. destruct (tf_file f2) as [b|] eqn:Eb.
    + rewrite Hr. simpl. rewrite Hfi, Hlr. pose proof (wf_filled _ Ht). rewrite bool_decide_false by lia. f_equal.
      rewrite Hid, Hes, Hm, Hrc, Hver, (dt_clean _ _ _ Hd). unfold set_file. by rewrite Hdirty.
    + unfold TableFile_read_at in Hr. by rewrite Eb in Hr.
  - assert (Hno : ∀ i, last_of (slot_data (vt_id t) i) l = None).
    { intros i. destruct (last_of (slot_data (vt_id t) i) l) as [d|] eqn:El; [|done]. destruct (Hshape _ _ El) as [_ Hs]. unfold shows in Hs.
      rewrite H4 in Hs. destruct Hs as [rest Hr]. unfold TableFile_read_at in Hr. by rewrite H3 in Hr. }
    assert (f2 = vt_file t1) as E2 by (apply (fa_same _ _ _ _ Hf); by rewrite Hid). assert (Hfile : tf_file f2 = None) by (by rewrite E2, (dt_untouched _ _ _ Hd Hno)).
    unfold ValueTable_refresh_metadata. simpl vt_file. rewrite Hfile. f_equal. rewrite E2 in Hfile. destruct (dt_fresh _ _ _ Hd Hfile) as [G1 G2].
    apply Hset; try done; [by rewrite (dt_clean _ _ _ Hd)|congruence|congruence].
Qed.
End table.

Lemma refresh_tables_run ts : ∀ P : nat → ValueTable → Prop,
  (∀ i t, ts !! i = Some t → ∃ t', ValueTable_refresh_metadata t = Ok t' ∧ P i t') →
  ∃ ts', refresh_tables ts = Ok ts' ∧ length ts' = length ts ∧ ∀ i t', ts' !! i = Some t' → P i t'.
Proof.
  induction ts as [|t ts IH]; intros P Hts; [by exists []|]. destruct (Hts 0%nat t eq_refl) as (t' & E & Hp).
  destruct (IH (λ i, P (S i))) as (ts' & E' & Hl & Hps); [intros i; apply (Hts (S i))|]. exists (t' :: ts'). split_and!.
  - simpl. rewrite E. simpl. by rewrite E'.
  - simpl. by rewrite Hl.
  - intros [|i] x; [by intros [= <-]|apply Hps].
Qed.

(** ** A column *)
Section column.
Context `{HC : Compressors} {c c1 c2 : HashColumn} {o : LogOverlays} {kept pending : list rec} {kv : gmap bytes Z} {vs : list (gmap Z vrec)}.
Context (Hready : col_ready c o kept pending) (Hover : over o pending) (Hinv : col_inv c o kv vs).
Context (Hdam : damaged (items_in (kept ++ pending)) c c1) (Hen : enacted (items_in (kept ++ pending)) c1 c2).

Lemma recovered_index ci : file_chunk (hc_index c2) ci = chunk_view (hc_index c) o ci.
Proof.
  apply chunk_ext; [apply (en_len Hen)|apply (xi_wf (ci_index Hinv))|]. intros k Hk.
  rewrite (en_index Hen) by done. rewrite <-(cr_kept_index Hready ci k Hk), (dm_id Hdam).
  destruct (last_of _ _) eqn:E; [done|]. simpl. by apply (dm_index Hdam).
Qed.

(** The tables after the records and after reading the headers. *)
Definition restored (t t2 t3 : ValueTable) : Prop := ∃ f2, file_ok (entry_size t) f2 ∧ t3 = set_file f2 t ∧
  ValueTable_refresh_metadata t2 = Ok t3 ∧ (∀ i d, slot_shape t i d → shows t o i d → on_file t f2 i d) ∧ header_ok t3 LogOverlays_default.

Lemma restored_table tier t t2 : hc_value c !! tier = Some t → hc_value c2 !! tier = Some t2 → ∃ t3, restored t t2 t3.
Proof.
  intros Et Et2. destruct (Forall2_lookup_r _ _ _ _ _ (en_tables Hen) Et2) as (t1 & Et1 & f2 & -> & Hf).
  destruct (Forall2_lookup_l _ _ _ _ _ (dm_tables Hdam) Et) as (t1' & Et1' & Hd). assert (t1' = t1) as -> by congruence.
  pose proof (tables_wf (ci_tables Hinv) _ _ Et) as Hw.
  assert (Hshape : ∀ i d, last_of (slot_data (vt_id t) i) (items_in (kept ++ pending)) = Some d → slot_shape t i d ∧ shows t o i d).
  { intros i d Hl. split; [by eapply slot_item_shape, last_slot_item|by eapply (cr_kept_slots Hready)]. }
  pose proof (λ i d, recovered_slot Hw Hover Hshape Hd Hf i d) as Hslot. pose proof (cr_header Hready _ _ Et) as Hh.
  destruct (tables_get (ci_tables Hinv) tier) as (t' & m & Et' & _ & H & slots & fl & Hst).
  { destruct (tt_len (ci_tables Hinv)) as [<- _]. by eapply lookup_lt_Some. }
  assert (t' = t) as -> by congruence. pose proof (wf_filled _ Hw) as Hfi.
  assert (Hlr : 0 ≤ last_removed t < filled t). { destruct (ts_free Hst) as [|? ? ? Hx]; [lia|]. apply (ts_repr Hst) in Hx. lia. }
  pose proof (recovered_table Hw Hover Hshape Hd Hf Hlr Hh) as Eref. destruct (dt_same _ _ _ Hd) as (Hid & Hes & _).
  exists (set_file f2 t), f2. split_and!; try done.
  - rewrite <-Hes. apply Hf.
  - destruct Hh as [Hdirty [Hh|(H1 & H2 & H3 & H4)]]; (split; [done|]).
    + left. change (on_file t f2 0 (header_of t)). apply Hslot; [|done]. left. split; [done|]. by apply header_of_fields.
    + right. split_and!; try done. assert (Hno : ∀ i, last_of (slot_data (vt_id t) i) (items_in (kept ++ pending)) = None).
      { intros i. destruct (last_of _ _) as [d|] eqn:El; [|done]. destruct (Hshape _ _ El) as [_ Hs]. unfold shows in Hs.
        rewrite H4 in Hs. destruct Hs as [rest Hr]. unfold TableFile_read_at in Hr. by rewrite H3 in Hr. }
      simpl. rewrite (fa_same _ _ _ _ Hf) by (by rewrite Hid). by rewrite (dt_untouched _ _ _ Hd Hno).
Qed.

Lemma recovered_column :
  ∃ c3, HashColumn_refresh_metadata c2 = Ok c3 ∧ col_inv c3 LogOverlays_default kv vs ∧ col_ready c3 LogOverlays_default [] [] ∧
    hc_col c3 = hc_col c ∧ hc_compression c3 = hc_compression c ∧ hc_ref_counted c3 = hc_ref_counted c ∧ hc_preimage c3 = hc_preimage c.
Proof.
  assert (Hlen : length (hc_value c2) = length (hc_value c)) by (by rewrite (Forall2_length _ _ _ (dm_tables Hdam)), (Forall2_length _ _ _ (en_tables Hen))).
  destruct (refresh_tables_run (hc_value c2) (λ i t3, ∃ t t2, hc_value c !! i = Some t ∧ restored t t2 t3)) as (ts & Ets & Hl & Hts).
  { intros i t2 Et2. destruct (lookup_lt_is_Some_2 (hc_value c) i) as [t Et]; [rewrite <-Hlen; by eapply lookup_lt_Some|].
    destruct (restored_table _ _ _ Et Et2) as [t3 Hr]. exists t3. pose proof Hr as (f2 & _ & _ & E & _). split; [done|]. by exists t, t2. }
  exists (set_values ts c2). split; [unfold HashColumn_refresh_metadata; by rewrite Ets|].
  destruct (dm_same Hdam) as (S1 & S2 & S3 & S4). pose proof (en_rest Hen) as R.
  assert (Hidx : it_id (hc_index c2) = it_id (hc_index c)) by (by rewrite (en_id Hen), (dm_id Hdam)).
  assert (Hsame : hc_col c2 = hc_col c ∧ hc_ref_counted c2 = hc_ref_counted c ∧ hc_compression c2 = hc_compression c ∧ hc_preimage c2 = hc_preimage c ∧
    hc_queue c2 = []) by (rewrite R; simpl; by rewrite (dm_quiet Hdam)).
  destruct Hsame as (R1 & R2 & R3 & R4 & R5). split_and!; try done.
  - apply (col_inv_view (c := c) (log := o)); [|done]. split; simpl; try done.
    + apply recovered_index.
    + apply Forall2_same_length_lookup_2; [by rewrite Hl|]. intros i t t3 Et Et3. destruct (Hts _ _ Et3) as (t' & t2 & Et' & f2 & _ & -> & _ & Hs & _).
      assert (t' = t) as -> by congruence. exists f2. split; [done|]. intros j d. unfold shows at 2. simpl. apply Hs.
  - pose proof (cr_files Hready) as [Hb Hc Hid Hcol Htab]. split; try done.
    + split; simpl; rewrite ?(bits_of_id _ _ Hidx), ?Hidx, ?R1; try done; [apply (en_len Hen)|].
      intros tier t3 Et3. destruct (Hts _ _ Et3) as (t & t2 & Et & f2 & Hf & -> & _). destruct (Htab _ _ Et) as (Hw & _ & Hi & Hlt).
      split_and!; try done. by apply wf_table_file.
    + intros it Hin. by apply elem_of_nil in Hin.
    + intros tier t3 Et3. by destruct (Hts _ _ Et3) as (t & t2 & Et & f2 & _ & _ & _ & _ & ?).
Qed.
End column.
