(* ===== verification/KeyOrder.v ===== *)
(** * The order of keys

    Slices of bytes are compared lexicographically ([Ord] for [[u8]]).  Ordered columns rely on
    this order: the change sets are sorted by it, the overlay is a [BTreeMap] over it and the
    nodes of a tree are searched with it. *)

From S2P Require Import Prelude.

Fixpoint bytes_cmp (a b : bytes) : comparison :=
  match a, b with
  | [], [] => Eq
  | [], _ => Lt
  | _, [] => Gt
  | x :: a', y :: b' =>
      match Z.compare (byte_val x) (byte_val y) with Eq => bytes_cmp a' b' | c => c end
  end.
Definition bytes_lt (a b : bytes) : bool := match bytes_cmp a b with Lt => true | _ => false end.
Definition bytes_le (a b : bytes) : bool := match bytes_cmp a b with Gt => false | _ => true end.

(** The strict order as a relation. *)
Definition key_lt (a b : bytes) : Prop := bytes_cmp a b = Lt.

#[export] Instance key_lt_dec a b : Decision (key_lt a b).
Proof. unfold key_lt. solve_decision. Defined.

Lemma bytes_cmp_refl a : bytes_cmp a a = Eq.
Proof. induction a as [|x a IH]; simpl; [done|]. by rewrite Z.compare_refl. Qed.

Lemma bytes_cmp_eq a b : bytes_cmp a b = Eq ↔ a = b.
Proof.
  split; [|intros ->; apply bytes_cmp_refl]. revert b. induction a as [|x a IH]; intros [|y b]; simpl; try done.
  destruct (Z.compare_spec (byte_val x) (byte_val y)) as [H|H|H]; try done.
  intros Hr. f_equal; [by apply byte_val_inj|by apply IH].
Qed.

Lemma bytes_cmp_antisym a b : bytes_cmp b a = CompOpp (bytes_cmp a b).
Proof.
  revert b. induction a as [|x a IH]; intros [|y b]; simpl; try done.
  rewrite (Z.compare_antisym (byte_val x)). by destruct (Z.compare (byte_val x) (byte_val y)); simpl.
Qed.

Lemma bytes_cmp_gt a b : bytes_cmp a b = Gt ↔ key_lt b a.
Proof. unfold key_lt. rewrite (bytes_cmp_antisym a b). by destruct (bytes_cmp a b). Qed.

#[export] Instance key_lt_trans : Transitive key_lt.
Proof.
  intros a b c. unfold key_lt. revert b c. induction a as [|x a IH]; intros [|y b] [|z c]; simpl; try done.
  destruct (Z.compare_spec (byte_val x) (byte_val y)) as [H1|H1|H1],
    (Z.compare_spec (byte_val y) (byte_val z)) as [H2|H2|H2], (Z.compare_spec (byte_val x) (byte_val z)) as [H3|H3|H3];
    try done; try lia; naive_solver.
Qed.

Lemma key_lt_irrefl a : ¬ key_lt a a.
Proof. unfold key_lt. by rewrite bytes_cmp_refl. Qed.

#[export] Instance key_lt_strict : StrictOrder key_lt.
Proof. split; [intros a; apply key_lt_irrefl|apply _]. Qed.

Lemma key_lt_asym a b : key_lt a b → ¬ key_lt b a.
Proof. intros H1 H2. apply (key_lt_irrefl a). by etrans. Qed.

Lemma key_cases a b : key_lt a b ∨ a = b ∨ key_lt b a.
Proof.
  destruct (bytes_cmp a b) eqn:E; [right; left; by apply bytes_cmp_eq|by left|]. right. right. by apply bytes_cmp_gt.
Qed.

Lemma bytes_lt_spec a b : bytes_lt a b = true ↔ key_lt a b.
Proof. unfold bytes_lt, key_lt. by destruct (bytes_cmp a b). Qed.

Lemma bytes_le_spec a b : bytes_le a b = true ↔ ¬ key_lt b a.
Proof. unfold bytes_le. rewrite <-bytes_cmp_gt. destruct (bytes_cmp a b); naive_solver. Qed.
