(* ===== verification/BTreeNode.v ===== *)
(** * Nodes of a B-tree (src/src/btree/node.rs, src/src/btree/mod.rs)

    A node is an array of [ORDER] separators (a key and the address of its value) and an array
    of [ORDER_CHILD] addresses of children, filled from the left.  This file models the arrays,
    with the panic of an index out of range, the operations that shift, split and merge them,
    and the encoding of a node as the bytes of a value. *)

From S2P Require Import Prelude IndexEntry ValueEntry KeyOrder.

Definition ORDER : nat := 8.
Definition ORDER_CHILD : nat := 9.
Definition NULL_ADDRESS : Z := 0.
Definition BTREE_HEADER_SIZE : nat := 12.
Definition HEADER_ADDRESS : Z := Address_new 1 0.

Record SeparatorInner := mkInner { si_key : bytes; si_value : Z }.
Record Separator := mkSep { sp_modified : bool; sp_sep : option SeparatorInner }.
Record Child := mkChild { ch_moved : bool; ch_index : option Z }.
Record Node := mkNode { nd_separators : list Separator; nd_children : list Child; nd_changed : bool }.
Record BTreeHeader := mkBHeader { bh_root : Z; bh_depth : Z }.

Definition Separator_default : Separator := mkSep false None.
Definition Child_default : Child := mkChild false None.
Definition Node_default : Node := mkNode (replicate ORDER Separator_default) (replicate ORDER_CHILD Child_default) true.

(** ** Arrays *)
Definition arr_get {A} (i : nat) (l : list A) : outcome A :=
  match l !! i with Some x => Ok x | None => Panic end.
Definition arr_set {A} (i : nat) (x : A) (l : list A) : outcome (list A) :=
  if decide (i < length l)%nat then Ok (<[i := x]> l) else Panic.
(** [std::mem::replace(&mut l[i], x)] *)
Definition arr_replace {A} (i : nat) (x : A) (l : list A) : outcome (A * list A) :=
  y ← arr_get i l; l ← arr_set i x l; Ok (y, l).

Definition with_seps (l : list Separator) (n : Node) : Node := mkNode l (nd_children n) true.
Definition with_children (l : list Child) (n : Node) : Node := mkNode (nd_separators n) l true.

(** ** Reading a node *)
Definition last_separator_index (n : Node) : option nat :=
  foldr (λ '(i, s) rest, match rest with
                         | Some j => Some j
                         | None => match sp_sep s with Some _ => Some i | None => None end
                         end) None (imap pair (nd_separators n)).
Definition has_separator (at_ : nat) (n : Node) : outcome bool :=
  s ← arr_get at_ (nd_separators n); Ok (match sp_sep s with Some _ => true | None => false end).
Definition separator_key (at_ : nat) (n : Node) : outcome (option bytes) :=
  s ← arr_get at_ (nd_separators n); Ok (si_key <$> sp_sep s).
Definition separator_address (at_ : nat) (n : Node) : outcome (option Z) :=
  s ← arr_get at_ (nd_separators n); Ok (si_value <$> sp_sep s).

Fixpoint count_separators (l : list Separator) : nat :=
  match l with
  | s :: l' => match sp_sep s with Some _ => S (count_separators l') | None => O end
  | [] => O
  end.
Definition number_separator (n : Node) : nat := count_separators (nd_separators n).

Fixpoint position_from (i : nat) (key : bytes) (l : list Separator) : bool * nat :=
  match l with
  | s :: l' =>
      match sp_sep s with
      | Some x =>
          match bytes_cmp key (si_key x) with
          | Gt => position_from (S i) key l'
          | Lt => (false, i)
          | Eq => (true, i)
          end
      | None => (false, i)
      end
  | [] => (false, i)
  end.
Definition position (key : bytes) (n : Node) : bool * nat := position_from 0 key (nd_separators n).

(** ** Changing a node *)
Definition remove_separator (at_ : nat) (n : Node) : outcome (Separator * Node) :=
  '(s, l) ← arr_replace at_ (mkSep true None) (nd_separators n);
  Ok (mkSep true (sp_sep s), with_seps l n).
Definition remove_child (at_ : nat) (n : Node) : outcome (Child * Node) :=
  '(c, l) ← arr_replace at_ (mkChild true None) (nd_children n);
  Ok (mkChild true (ch_index c), with_children l n).
Definition set_separator (at_ : nat) (s : Separator) (n : Node) : outcome Node :=
  l ← arr_set at_ (mkSep true (sp_sep s)) (nd_separators n); Ok (with_seps l n).
Definition new_child (index : option Z) : Child := mkChild true index.
Definition set_child (at_ : nat) (c : Child) (n : Node) : outcome Node :=
  l ← arr_set at_ (mkChild true (ch_index c)) (nd_children n); Ok (with_children l n).
Definition need_rebalance (n : Node) : outcome bool :=
  b ← has_separator (ORDER / 2 - 1) n; Ok (negb b).

(** The loops over the two arrays are the same but for the type of the entries: [get] is what an
    entry holds and [mk] marks an entry as changed. *)
Section loops.
Context {A B : Type} (get : A → option B) (mk : option B → A) (order : nat).

(** The loop of [shift_from]: [current] is carried to the right until it is empty. *)
Fixpoint shift_loop (fuel i : nat) (current : A) (l : list A) : outcome (list A) :=
  match get current with
  | None => Ok l
  | Some _ =>
      if bool_decide (S i = order) then Ok l
      else match fuel with
           | O => NoFuel
           | S fuel' => '(next, l) ← arr_replace (S i) (mk (get current)) l; shift_loop fuel' (S i) next l
           end
  end.

(** The loop of [remove_from]: the entries right of [i] move to the left. *)
Fixpoint unshift_loop (fuel i : nat) (l : list A) : outcome (list A) :=
  if bool_decide (i < order - 1)%nat then
    match fuel with
    | O => NoFuel
    | S fuel' =>
        '(x, l) ← arr_replace (S i) (mk None) l;
        l ← arr_set i (mk (get x)) l;
        match get x with None => Ok l | Some _ => unshift_loop fuel' (S i) l end
    end
  else Ok l.

(** The loop of [split]: the entries [is_] move to [right], from [start] on, with a new entry put
    in at [j]. *)
Fixpoint split_loop (is_ : list nat) (start offset : nat) (ins : option (nat * A)) (l right : list A)
    : outcome (option (nat * A) * list A * list A) :=
  match is_ with
  | [] => Ok (ins, l, right)
  | i :: is_' =>
      '(x, l) ← arr_replace i (mk None) l;
      '(ins, right, offset) ←
        (match ins with
         | Some (j, new) =>
             if bool_decide (j = i) then right ← arr_set (i - start) new right; Ok (None, right, 1%nat)
             else Ok (ins, right, offset)
         | None => Ok (ins, right, offset)
         end);
      right ← arr_set (i + offset - start) (mk (get x)) right;
      split_loop is_' start offset ins l right
  end.
Definition split_array (from start : nat) (ins : option (nat * A)) (l right : list A) : outcome (list A * list A) :=
  '(ins, l, right) ← split_loop (seq from (order - from)) start 0 ins l right;
  right ← (match ins with Some (j, new) => arr_set (j - start) new right | None => Ok right end);
  Ok (l, right).
End loops.

Definition shift_from (from : nat) (has_child with_left_child : bool) (n : Node) : outcome Node :=
  '(current, n) ← remove_separator from n;
  l ← shift_loop sp_sep (mkSep true) ORDER ORDER from current (nd_separators n);
  let n := with_seps l n in
  if has_child then
    let i := if with_left_child then from else S from in
    '(current, n) ← remove_child i n;
    l ← shift_loop ch_index (mkChild true) ORDER_CHILD ORDER_CHILD i current (nd_children n);
    Ok (with_children l n)
  else Ok n.

Definition remove_from (from : nat) (has_child with_left_child : bool) (n : Node) : outcome Node :=
  l ← unshift_loop sp_sep (mkSep true) ORDER ORDER from (nd_separators n);
  let n := with_seps l n in
  if has_child then
    l ← unshift_loop ch_index (mkChild true) ORDER_CHILD ORDER_CHILD (if with_left_child then from else S from) (nd_children n);
    Ok (with_children l n)
  else Ok n.

(** [split] returns the new right node and what is left; the right node has no address yet.  A
    child to insert goes right of the separator inserted with it. *)
Definition Node_split (at_ : nat) (skip_left_child : bool) (insert_right : option (nat * Separator))
    (insert_right_child : option (nat * Child)) (has_child : bool) (n : Node) : outcome (Node * Node) :=
  let right := Node_default in
  '(seps, rseps) ← split_array sp_sep (mkSep true) ORDER at_ at_ insert_right (nd_separators n) (nd_separators right);
  let n := mkNode seps (nd_children n) (nd_changed n || bool_decide (at_ < ORDER)%nat) in
  if has_child then
    let from := (if skip_left_child then S at_ else at_) in
    let ins := option_map (λ '(j, c), (S j, mkChild true (ch_index c))) insert_right_child in
    '(children, rchildren) ← split_array ch_index (mkChild true) ORDER_CHILD from at_ ins (nd_children n) (nd_children right);
    Ok (mkNode rseps rchildren true, mkNode seps children (nd_changed n || bool_decide (from < ORDER_CHILD)%nat))
  else Ok (mkNode rseps (nd_children right) true, n).

(** [if has_child { child = Some(left.remove_child(i)) }], and [if let Some(child) = child] on the
    other side. *)
Definition take_child (has_child : bool) (i : nat) (n : Node) : outcome (option Child * Node) :=
  if has_child then '(c, n) ← remove_child i n; Ok (Some c, n) else Ok (None, n).
Definition put_child (i : nat) (child : option Child) (n : Node) : outcome Node :=
  match child with Some c => set_child i c n | None => Ok n end.

(** The loop of [rebalance] that moves the entries of the right node behind those of the left. *)
Fixpoint merge_loop (count : nat) (has_child : bool) (right_i i : nat) (lft rgt : Node) : outcome (nat * nat * Node * Node) :=
  match count with
  | O => Ok (right_i, i, lft, rgt)
  | S count' =>
      '(child, rgt) ← take_child has_child right_i rgt;
      '(separator, rgt) ← remove_separator right_i rgt;
      lft ← set_separator i separator lft;
      lft ← put_child i child lft;
      merge_loop count' has_child (S right_i) (S i) lft rgt
  end.

(** ** The encoding of a node *)
(** [Vec::resize] of the buffer of an entry. *)
Definition resize (len : nat) (e : VEntry) : VEntry :=
  mkEntry (e_off e) (take len (e_buf e) ++ replicate (len - length (e_buf e)) Byte.x00).

Definition read_separator (e : VEntry) : outcome (option SeparatorInner * VEntry) :=
  if bool_decide (e_off e = length (e_buf e)) then Ok (None, e)
  else
    _ ← check_remaining_len (8 + 1) (Corruption "Unaligned separator") e;
    '(value, e) ← read_u64 e;
    '(head, e) ← read_slice 1 e;
    let head := le_val head in
    '(size, e) ←
      (if bool_decide (head = u8_max) then
         _ ← check_remaining_len 4 (Corruption "Cannot read size of key") e;
         '(n, e) ← read_u32 e; Ok (Z.to_nat n, e)
       else Ok (Z.to_nat head, e));
    _ ← check_remaining_len size (Corruption "Entry too small for key") e;
    '(key, e) ← read_slice size e;
    Ok (if bool_decide (value = 0) then None else Some (mkInner key value), e).

Definition write_separator (key : bytes) (value : Z) (e : VEntry) : outcome VEntry :=
  let size := length key in
  let long := bool_decide (u8_max ≤ Z.of_nat size) in
  let e := resize (length (e_buf e) + 8 + 1 + (if long then 4 else 0) + size) e in
  e ← write_u64 value e;
  e ← (if long then e ← write_slice (le_bytes 1 u8_max) e; write_u32 (u32 (Z.of_nat size)) e
       else write_slice (le_bytes 1 (Z.of_nat size)) e);
  write_slice key e.

Definition read_child_index (e : VEntry) : outcome (option Z * VEntry) :=
  _ ← check_remaining_len 8 (Corruption "Entry too small for Index") e;
  '(index, e) ← read_u64 e;
  Ok (if bool_decide (index = 0) then None else Some index, e).
Definition write_child_index (index : Z) (e : VEntry) : outcome VEntry :=
  write_u64 index (resize (length (e_buf e) + 8) e).

Definition write_header (h : BTreeHeader) (e : VEntry) : outcome VEntry :=
  e ← write_u64 (bh_root h) (resize 12 (set_offset 0 e)); write_u32 (bh_depth h) e.

(** The loop of [Node::from_encoded] reads a child, then a separator and the next child, as
    long as there are separators and at most [ORDER_CHILD] children. *)
Fixpoint decode_loop (fuel i : nat) (n : Node) (e : VEntry) : outcome Node :=
  match fuel with
  | O => NoFuel
  | S fuel' =>
      '(index, e) ← read_child_index e;
      children ← (match index with
                  | Some a => c ← arr_get i (nd_children n); arr_set i (mkChild (ch_moved c) (Some a)) (nd_children n)
                  | None => Ok (nd_children n)
                  end);
      let n := mkNode (nd_separators n) children (nd_changed n) in
      if bool_decide (S i = ORDER_CHILD) then Ok n
      else
        '(sep, e) ← read_separator e;
        match sep with
        | None => Ok n
        | Some x =>
            s ← arr_get i (nd_separators n);
            seps ← arr_set i (mkSep (sp_modified s) (Some x)) (nd_separators n);
            decode_loop fuel' (S i) (mkNode seps (nd_children n) (nd_changed n)) e
        end
  end.
Definition from_encoded (enc : bytes) : outcome Node :=
  decode_loop ORDER_CHILD 0
    (mkNode (replicate ORDER Separator_default) (replicate ORDER_CHILD Child_default) false) (VEntry_new enc).

(** The loop of [write_node_plan] that encodes a node. *)
Fixpoint encode_loop (fuel i : nat) (n : Node) (e : VEntry) : outcome VEntry :=
  match fuel with
  | O => NoFuel
  | S fuel' =>
      c ← arr_get i (nd_children n);
      e ← write_child_index (default NULL_ADDRESS (ch_index c)) e;
      if bool_decide (S i = ORDER_CHILD) then Ok e
      else
        s ← arr_get i (nd_separators n);
        match sp_sep s with
        | Some x => e ← write_separator (si_key x) (si_value x) e; encode_loop fuel' (S i) n e
        | None => Ok e
        end
  end.
Definition encode_node (n : Node) : outcome bytes :=
  e ← encode_loop ORDER_CHILD 0 n (VEntry_new []); Ok (e_buf e).

(** The flags [write_node_plan] looks at before it writes. *)
Fixpoint any_moved (l : list Child) : bool :=
  match l with
  | c :: l' => if ch_moved c then true else match ch_index c with Some _ => any_moved l' | None => false end
  | [] => false
  end.
Fixpoint any_modified (l : list Separator) : bool :=
  match l with
  | s :: l' => if sp_modified s then true else match sp_sep s with Some _ => any_modified l' | None => false end
  | [] => false
  end.
Definition node_changed (n : Node) : bool := nd_changed n || any_moved (nd_children n) || any_modified (nd_separators n).
