(* ===== verification/BTree.v ===== *)
(** * B-trees: the operations (src/src/btree/mod.rs, btree.rs, node.rs)

    The nodes and the values of a tree column are values of its tables.  A change of the tree
    walks down from the root, changes the nodes it has loaded, and writes each one back under
    its address when the walk returns; a node that has outgrown its size tier moves and its
    parent is told.  The recursion is on the depth of the tree.

    A tree column has no statistics, so the plans for values run on a [VState] without any. *)

From S2P Require Import Prelude IndexEntry IndexChunk Log Stats IndexTable ValueEntry File ValueTable Compress Options KeyOrder Column BTreeNode.

(** What the methods know of the table they belong to ([TablesRef]); the tables themselves and
    the log are the state. *)
Record TreeRef := mkTreeRef { tr_ref_counted : bool; tr_compression : Compress }.

Record BTree := mkBTreeRoot { bt_depth : Z; bt_root_index : option Z; bt_record_id : Z }.

Section btree.
Context (junk : bytes) `{Compressors}.
Abbreviation MV := (M VState).
Abbreviation Change := (Operation bytes bytes).
Implicit Types (r : TreeRef) (n : Node).

(** ** Reading *)
Definition get_encoded_entry `{LogQuery L} r (at_ : Z) (log : L) (tables : list ValueTable) : outcome bytes :=
  v ← get_value junk (tr_compression r) tables (QCheck NoHash) at_ log;
  match v with
  | Some (_, value) => Ok value
  | None => Err (Corruption "Missing btree entry")
  end.

Definition fetch_child `{LogQuery L} r (i : nat) (log : L) (tables : list ValueTable) n : outcome (option Node) :=
  c ← arr_get i (nd_children n);
  match ch_index c with
  | Some ix => entry ← get_encoded_entry r ix log tables; n ← from_encoded entry; Ok (Some n)
  | None => Ok None
  end.

Definition fetch_root `{LogQuery L} r (root : Z) (log : L) (tables : list ValueTable) : outcome Node :=
  if bool_decide (root = NULL_ADDRESS) then Ok Node_default
  else entry ← get_encoded_entry r root log tables; from_encoded entry.

(** [Node::get] follows the children without looking at the depth; a path that visits no slot
    twice is shorter than the number of slots. *)
Definition path_fuel (tables : list ValueTable) : nat := S (foldr (λ t k, Z.to_nat (filled t) + k)%nat 0%nat tables).

Fixpoint Node_get `{LogQuery L} (fuel : nat) r (key : bytes) (log : L) (tables : list ValueTable) n : outcome (option Z) :=
  match fuel with
  | O => NoFuel
  | S fuel' =>
      let '(at_, i) := position key n in
      if (at_ : bool) then separator_address i n
      else
        child ← fetch_child r i log tables n;
        match child with
        | Some child => Node_get fuel' r key log tables child
        | None => Ok None
        end
  end.

Definition btree_header `{LogQuery L} r (log : L) (tables : list ValueTable) : outcome BTreeHeader :=
  v ← get_value junk (tr_compression r) tables (QFetch false) HEADER_ADDRESS log;
  match v with
  | Some (_, encoded) =>
      let buf := VEntry_new encoded in
      _ ← check_remaining_len (8 + 4) (Corruption "Invalid header length.") buf;
      '(root, buf) ← read_u64 buf;
      '(depth, _) ← read_u32 buf;
      Ok (mkBHeader root depth)
  | None => Ok (mkBHeader NULL_ADDRESS 0)
  end.

Definition BTree_open `{LogQuery L} r (log : L) (record_id : Z) (tables : list ValueTable) : outcome BTree :=
  h ← btree_header r log tables;
  Ok (mkBTreeRoot (bh_depth h) (if bool_decide (bh_root h = NULL_ADDRESS) then None else Some (bh_root h)) record_id).

Definition BTree_get `{LogQuery L} r (key : bytes) (log : L) (tables : list ValueTable) (t : BTree) : outcome (option bytes) :=
  root ← fetch_root r (default NULL_ADDRESS (bt_root_index t)) log tables;
  a ← Node_get (path_fuel tables) r key log tables root;
  match a with
  | Some address => v ← get_value junk (tr_compression r) tables (QFetch false) address log; Ok (option_map snd v)
  | None => Ok None
  end.

Definition BTreeTable_get `{LogQuery L} r (key : bytes) (log : L) (tables : list ValueTable) : outcome (option bytes) :=
  h ← btree_header r log tables;
  if bool_decide (bh_root h = NULL_ADDRESS) then Ok None
  else BTree_get r key log tables (mkBTreeRoot (bh_depth h) (Some (bh_root h)) 0).

(** The same on the state of a plan. *)
Definition fetch r (i : nat) n : MV (option Node) := reads (λ s, fetch_child r i (vs_log s) (vs_tables s) n).

(** ** Writing nodes and values *)
Definition write_plan_remove_node r (node_index : Z) : MV unit :=
  _ ← write_existing_value_plan junk (tr_compression r) false NoHash node_index (OpDereference tt) false; mret tt.

Definition write_node_plan n (node_id : option Z) : MV (option Z) :=
  if negb (node_changed n) then mret None
  else
    enc ← lift (encode_node n);
    match node_id with
    | Some existing =>
        '(_, new_index) ← write_existing_value_plan junk NO_COMPRESSION false NoHash existing (OpSet tt enc) false;
        mret new_index
    | None => a ← write_new_value_plan junk NO_COMPRESSION NoHash enc; mret (Some a)
    end.

Definition create_separator r (key value : bytes) (existing : option Z) : MV Separator :=
  v ← (match existing with
       | Some address =>
           '(_, a) ← write_existing_value_plan junk (tr_compression r) false NoHash address (OpSet tt value) (tr_ref_counted r);
           mret (default address a)
       | None => write_new_value_plan junk (tr_compression r) NoHash value
       end);
  mret (mkSep (negb (bool_decide (Some v = existing))) (Some (mkInner key v))).

Definition write_child (i : nat) (child n : Node) : MV Node :=
  if nd_changed child then
    c ← lift (arr_get i (nd_children n));
    new_index ← write_node_plan child (ch_index c);
    match new_index with
    | Some a => l ← lift (arr_set i (mkChild (ch_moved c) (Some a)) (nd_children n)); mret (mkNode (nd_separators n) l true)
    | None => mret n
    end
  else mret n.

Definition write_split_child (right_ix : option Z) (rgt : Node) : MV Child :=
  new_index ← write_node_plan rgt right_ix;
  mret (new_child (match new_index with Some a => Some a | None => right_ix end)).

(** ** Splitting *)
Definition Split : Type := option (Separator * Child).

Definition insert_node (at_ : nat) (separator : Separator) (child : Child) n : MV (Split * Node) :=
  full ← lift (has_separator (ORDER - 1) n);
  if (full : bool) then
    let middle := (ORDER / 2)%nat in
    match Nat.compare at_ middle with
    | Eq =>
        '(rgt, n) ← lift (Node_split middle true None None true n);
        rgt ← lift (set_child 0 child rgt);
        rgt ← write_split_child None rgt;
        mret (Some (separator, rgt), n)
    | Lt =>
        '(rgt, n) ← lift (Node_split middle false None None true n);
        '(sep, n) ← lift (remove_separator (middle - 1) n);
        n ← lift (shift_from at_ true false n);
        n ← lift (set_separator at_ separator n);
        n ← lift (set_child (S at_) child n);
        rgt ← write_split_child None rgt;
        mret (Some (sep, rgt), n)
    | Gt =>
        '(rgt, n) ← lift (Node_split (S middle) false (Some (at_, separator)) (Some (at_, child)) true n);
        '(sep, n) ← lift (remove_separator middle n);
        rgt ← write_split_child None rgt;
        mret (Some (sep, rgt), n)
    end
  else
    n ← lift (shift_from at_ true false n);
    n ← lift (set_separator at_ separator n);
    n ← lift (set_child (S at_) child n);
    mret (None, n).

(** A new key in a leaf. *)
Definition insert_leaf r (i : nat) (key value : bytes) n : MV (Split * Node) :=
  full ← lift (has_separator (ORDER - 1) n);
  if (full : bool) then
    let middle := (ORDER / 2)%nat in
    insert_separator ← create_separator r key value None;
    match Nat.compare i middle with
    | Eq =>
        '(rgt, n) ← lift (Node_split middle true None None false n);
        rgt ← write_split_child None rgt;
        mret (Some (insert_separator, rgt), n)
    | Lt =>
        '(rgt, n) ← lift (Node_split middle false None None false n);
        '(sep, n) ← lift (remove_separator (middle - 1) n);
        n ← lift (shift_from i false false n);
        n ← lift (set_separator i insert_separator n);
        rgt ← write_split_child None rgt;
        mret (Some (sep, rgt), n)
    | Gt =>
        '(rgt, n) ← lift (Node_split (S middle) false (Some (i, insert_separator)) None false n);
        '(sep, n) ← lift (remove_separator middle n);
        rgt ← write_split_child None rgt;
        mret (Some (sep, rgt), n)
    end
  else
    n ← lift (shift_from i false false n);
    s ← create_separator r key value None;
    n ← lift (set_separator i s n);
    mret (None, n).

(** ** Rebalancing *)
(** [left.as_ref().unwrap()] *)
Definition unwrap {A} (o : option A) : MV A := match o with Some a => mret a | None => lift Panic end.
(** Does the sibling at [i], if there is one, have an entry to spare? *)
Definition sibling r (ok : bool) (i : nat) n : MV (option Node * bool) :=
  if ok then
    s ← fetch r i n;
    match s with
    | Some x => b ← lift (has_separator (ORDER / 2) x); mret (s, b)
    | None => mret (None, false)
    end
  else mret (None, false).

Definition balance_from_left r (has_child : bool) (at_ : nat) (lft n : Node) : MV Node :=
  last_sibling ← unwrap (last_separator_index lft);
  '(child, lft) ← lift (take_child has_child (S last_sibling) lft);
  '(separator2, lft) ← lift (remove_separator last_sibling lft);
  '(separator, n) ← lift (remove_separator (at_ - 1) n);
  n ← lift (set_separator (at_ - 1) separator2 n);
  rgt ← fetch r at_ n;
  rgt ← unwrap rgt;
  rgt ← lift (shift_from 0 has_child true rgt);
  rgt ← lift (put_child 0 child rgt);
  rgt ← lift (set_separator 0 separator rgt);
  n ← write_child (at_ - 1) lft n;
  write_child at_ rgt n.

Definition balance_from_right r (has_child : bool) (at_ : nat) (rgt n : Node) : MV Node :=
  '(child, rgt) ← lift (take_child has_child 0 rgt);
  '(separator2, rgt) ← lift (remove_separator 0 rgt);
  rgt ← lift (remove_from 0 has_child true rgt);
  '(separator, n) ← lift (remove_separator at_ n);
  n ← lift (set_separator at_ separator2 n);
  lft ← fetch r at_ n;
  lft ← unwrap lft;
  let last_left := number_separator lft in
  lft ← lift (set_separator last_left separator lft);
  lft ← lift (put_child (S last_left) child lft);
  n ← write_child at_ lft n;
  write_child (S at_) rgt n.

Definition merge_children r (has_child : bool) (at_ at_right : nat) (lft rgt n : Node) : MV Node :=
  '(separator, n) ← lift (remove_separator at_ n);
  let i := number_separator lft in
  lft ← lift (set_separator i separator lft);
  '(right_i, i, lft, rgt) ← lift (merge_loop (number_separator rgt) has_child 0 (S i) lft rgt);
  '(child, _) ← lift (take_child has_child right_i rgt);
  lft ← lift (put_child i child lft);
  '(removed, n) ← lift (remove_child at_right n);
  _ ← (match ch_index removed with Some index => write_plan_remove_node r index | None => mret tt end);
  n ← write_child at_ lft n;
  lift (remove_from at_ true false n).

(** The rest of [rebalance] when the left neighbour, if there is one, has nothing to spare. *)
Definition rebalance_right r (has_child : bool) (at_ : nat) (lft : option Node) n : MV Node :=
  let number_child := S (number_separator n) in
  '(rgt, balance) ← sibling r (bool_decide (S at_ < number_child)%nat) (S at_) n;
  if (balance : bool) then rgt ← unwrap rgt; balance_from_right r has_child at_ rgt n
  else if bool_decide (S at_ = number_child) then
    rgt ← fetch r at_ n;
    (* [at - 1] underflows for the only child of a node *)
    if bool_decide (at_ = 0%nat) then lift Panic
    else lft ← unwrap lft; rgt ← unwrap rgt; merge_children r has_child (at_ - 1) at_ lft rgt n
  else
    lft ← fetch r at_ n;
    rgt ← (match rgt with Some _ => mret rgt | None => fetch r (S at_) n end);
    lft ← unwrap lft; rgt ← unwrap rgt; merge_children r has_child at_ (S at_) lft rgt n.

Definition rebalance r (depth at_ : nat) n : MV Node :=
  let has_child := negb (bool_decide (depth - 1 = 0)%nat) in
  '(lft, balance) ← sibling r (bool_decide (0 < at_)%nat) (at_ - 1) n;
  if (balance : bool) then lft ← unwrap lft; balance_from_left r has_child at_ lft n
  else rebalance_right r has_child at_ lft n.

(** Take out the greatest entry below a node. *)
Fixpoint remove_last r (depth : nat) n : MV (bool * option Separator * Node) :=
  match last_separator_index n with
  | None => mret (false, None, n)
  | Some i =>
      match depth with
      | O =>
          '(result, n) ← lift (remove_separator i n);
          b ← lift (need_rebalance n);
          mret (b, Some result, n)
      | S depth' =>
          child ← fetch r (S i) n;
          match child with
          | None => mret (false, None, n)
          | Some child =>
              '(balance, result, child) ← remove_last r depth' child;
              n ← write_child (S i) child n;
              if (balance : bool) then
                n ← rebalance r depth (S i) n;
                b ← lift (need_rebalance n);
                mret (b, result, n)
              else mret (balance, result, n)
          end
      end
  end.

(** ** Changes

    A change of a node returns what it has split off, whether the node is too small now, and
    the changes from the last one it has dealt with on. *)
Definition Changed : Type := Split * bool * list Change * Node.

Section changing.
(** The change of a child, one level down. *)
Context (change_child : Node * nat → list Change → Node → MV Changed).

(** After a change of the child at [i]: write it and repair this node. *)
Definition after_child r (depth i : nat) (result : Changed) n : MV Changed :=
  let '(split, balance, changes, child) := result in
  n ← write_child i child n;
  match split, (balance : bool) with
  | Some (sep, rgt), _ =>
      '(split, n) ← insert_node i sep rgt n; mret (split, false, changes, n)
  | None, true =>
      n ← rebalance r depth i n; b ← lift (need_rebalance n); mret (None, b, changes, n)
  | None, false => mret (None, false, changes, n)
  end.

Definition Node_insert r (depth : nat) (key value : bytes) (changes : list Change) n : MV Changed :=
  let '(at_, i) := position key n in
  if (at_ : bool) then
    existing ← lift (separator_address i n);
    s ← create_separator r key value existing;
    n ← lift (set_separator i s n);
    mret (None, false, changes, n)
  else if bool_decide (depth ≠ 0)%nat then
    child ← fetch r i n;
    match child with
    | Some child => result ← change_child (n, i) changes child; after_child r depth i result n
    | None => mret (None, false, changes, n)
    end
  else
    '(split, n) ← insert_leaf r i key value n; mret (split, false, changes, n).

(** The separator at [i] has lost its value: close the gap, with the greatest entry of the left
    child if there is one. *)
Definition close_gap r (depth i : nat) n : MV Node :=
  '(_, n) ← lift (remove_separator i n);
  if bool_decide (depth ≠ 0)%nat then
    child ← fetch r i n;
    match child with
    | Some child =>
        '(need_balance, sep, child) ← remove_last r (depth - 1) child;
        n ← write_child i child n;
        n ← (match sep with Some sep => lift (set_separator i sep n) | None => mret n end);
        if (need_balance : bool) then rebalance r depth i n else mret n
    | None => mret n
    end
  else lift (remove_from i false true n).

Definition on_existing r (depth : nat) (change : Change) (changes : list Change) n : MV Changed :=
  let '(at_, i) := position (Operation_key change) n in
  if (at_ : bool) then
    existing ← lift (separator_address i n);
    n ← (match existing with
         | Some existing =>
             '(kept, _) ← write_existing_value_plan junk (tr_compression r) false NoHash existing change (tr_ref_counted r);
             match kept with Some _ => mret n | None => close_gap r depth i n end
         | None => mret n
         end);
    b ← lift (need_rebalance n);
    mret (None, b, changes, n)
  else if bool_decide (depth = 0)%nat then mret (None, false, changes, n)
  else
    child ← fetch r i n;
    match child with
    | Some child => result ← change_child (n, i) changes child; after_child r depth i result n
    | None => mret (None, false, changes, n)
    end.

(** Is the first of two changes overwritten by the second? *)
Definition overwritten r (c c' : Change) : bool :=
  negb (tr_ref_counted r) && negb (match c' with OpReference _ => true | _ => false end)
  && bool_decide (Operation_key c = Operation_key c').

(** Can the next change be made in this node too? *)
Definition stays (parent : option (Node * nat)) (key : bytes) n : bool :=
  match parent with
  | None => false
  | Some (p, pi) =>
      let '(at_, i) := position key n in
      if at_ || bool_decide (i < number_separator n)%nat then true
      else let '(at_, i) := position key p in
           negb at_ && bool_decide (i = pi) && bool_decide (i < number_separator p)%nat
  end.

Fixpoint change_loop (fuel : nat) r (parent : option (Node * nat)) (depth : nat) (changes : list Change) n : MV Changed :=
  match fuel with
  | O => lift NoFuel
  | S fuel' =>
      match changes with
      | [] => lift Panic
      | c :: rest =>
          if match rest with c' :: _ => overwritten r c c' | [] => false end
          then change_loop fuel' r parent depth rest n
          else
            '(split, balance, changes, n) ←
              (match c with
               | OpSet key value => Node_insert r depth key value changes n
               | _ => on_existing r depth c changes n
               end);
            if match split with Some _ => true | None => balance end then mret (split, balance, changes, n)
            else match changes with
                 | _ :: (c' :: _) as rest =>
                     if stays parent (Operation_key c') n then change_loop fuel' r parent depth rest n
                     else mret (None, false, changes, n)
                 | _ => mret (None, false, changes, n)
                 end
      end
  end.
End changing.

(** The loop drops a change in every round, so the number of changes bounds the rounds. *)
Fixpoint Node_change r (depth : nat) (parent : option (Node * nat)) (changes : list Change) n : MV Changed :=
  let change_child p changes child :=
    match depth with
    | O => lift Panic
    | S depth' => Node_change r depth' (Some p) changes child
    end in
  change_loop change_child (length changes) r parent depth changes n.

(** ** The tree *)
Definition need_remove_root r n : MV (option (option Z * Node)) :=
  if bool_decide (number_separator n = 0%nat) then
    child ← fetch r 0 n;
    match child with
    | Some node => '(c, _) ← lift (remove_child 0 n); mret (Some (ch_index c, node))
    | None => mret None
    end
  else mret None.

(** The root has been split: add one level. *)
Definition add_level (sep : Separator) (rgt : Child) (t : BTree) (root : Node) : MV (BTree * Node) :=
  let left_index := bt_root_index t in
  new_index ← write_node_plan root left_index;
  let new_index := match new_index with Some a => Some a | None => left_index end in
  root ← lift (set_child 0 (new_child new_index) Node_default);
  root ← lift (set_child 1 rgt root);
  root ← lift (set_separator 0 sep root);
  mret (mkBTreeRoot (u32 (bt_depth t + 1)) None (bt_record_id t), root).

(** The root is too small: if it is empty, its only child becomes the root. *)
Definition drop_level r (t : BTree) (root : Node) : MV (BTree * Node) :=
  o ← need_remove_root r root;
  match o with
  | Some (node_index, node) =>
      _ ← (match bt_root_index t with Some index => write_plan_remove_node r index | None => mret tt end);
      mret (mkBTreeRoot (u32 (bt_depth t - 1)) node_index (bt_record_id t), node)
  | None => mret (t, root)
  end.

Fixpoint changes_loop (fuel : nat) r (changes : list Change) (t : BTree) (root : Node) : MV (BTree * Node) :=
  match changes with
  | [] => mret (t, root)
  | _ =>
      match fuel with
      | O => lift NoFuel
      | S fuel' =>
          '(split, balance, changes, root) ← Node_change r (Z.to_nat (bt_depth t)) None changes root;
          '(t, root) ←
            (match split, (balance : bool) with
             | Some (sep, rgt), _ => add_level sep rgt t root
             | None, true => drop_level r t root
             | None, false => mret (t, root)
             end);
          changes_loop fuel' r (drop 1 changes) t root
      end
  end.

Definition write_sorted_changes r (changes : list Change) (t : BTree) : MV BTree :=
  root ← reads (λ s, fetch_root r (default NULL_ADDRESS (bt_root_index t)) (vs_log s) (vs_tables s));
  '(t, root) ← changes_loop (length changes) r changes t root;
  if nd_changed root then
    new_index ← write_node_plan root (bt_root_index t);
    mret (match new_index with Some a => mkBTreeRoot (bt_depth t) (Some a) (bt_record_id t) | None => t end)
  else mret t.

(** [changes.sort()]: a stable sort by key. *)
Fixpoint insert_change (c : Change) (l : list Change) : list Change :=
  match l with
  | [] => [c]
  | x :: l' => if bytes_le (Operation_key c) (Operation_key x) then c :: l else x :: insert_change c l'
  end.
Definition sort_changes (l : list Change) : list Change := foldr insert_change [] l.

(** [BTreeChangeSet::write_plan]; returns the number of operations. *)
Definition BTree_write_plan r (record_id : Z) (changes : list Change) : MV Z :=
  tree ← reads (λ s, BTree_open r (vs_log s) record_id (vs_tables s));
  let old_header := mkBHeader (default NULL_ADDRESS (bt_root_index tree)) (bt_depth tree) in
  let changes := sort_changes changes in
  tree ← write_sorted_changes r changes tree;
  let header := mkBHeader (default NULL_ADDRESS (bt_root_index tree)) (bt_depth tree) in
  _ ← (if bool_decide (bh_root old_header = bh_root header) && bool_decide (bh_depth old_header = bh_depth header) then mret tt
       else
         e ← lift (write_header header (VEntry_new []));
         _ ← write_existing_value_plan junk (tr_compression r) false NoHash HEADER_ADDRESS
               (OpSet tt (take BTREE_HEADER_SIZE (e_buf e))) false;
         mret tt);
  mret (Z.of_nat (length changes)).
End btree.
