(* ===== verification/LogFiles.v ===== *)
(** * The files of the log ([Log] of src/src/log.rs)

    A log file is appended to, then read back record by record and enacted, then emptied and
    put in a pool for reuse; the files found at startup are replayed first.  The state holds
    the queues of file numbers and the files themselves ([lg_disk]); a file that the log reads
    is represented by what is left to read of it.  The file system does not fail here: an error
    of the operating system makes the operation return it and leaves the rest of the state as
    the code has built it so far. *)

From S2P Require Import Prelude IndexEntry IndexChunk Log.

Definition MAX_LOG_POOL_SIZE : nat := 16.

Record Appending := mkAppending { ap_id : Z; ap_size : Z }.
Record Reading := mkReading { rg_id : Z; rg_stream : bytes }.

Record LogState := mkLog {
  lg_overlays : LogOverlays;
  lg_appending : option Appending;
  lg_reading : option Reading;
  lg_read_queue : list Z;
  lg_next_record_id : Z;
  lg_dirty : bool;
  lg_pool : list Z;
  lg_cleanup : list Z;
  lg_replay : list (Z * Z);
  lg_next_log_id : Z;
  lg_disk : gmap Z bytes;
}.

Definition with_overlays (o : LogOverlays) (l : LogState) : LogState :=
  mkLog o (lg_appending l) (lg_reading l) (lg_read_queue l) (lg_next_record_id l) (lg_dirty l) (lg_pool l)
    (lg_cleanup l) (lg_replay l) (lg_next_log_id l) (lg_disk l).
Definition with_reading (r : option Reading) (l : LogState) : LogState :=
  mkLog (lg_overlays l) (lg_appending l) r (lg_read_queue l) (lg_next_record_id l) (lg_dirty l) (lg_pool l)
    (lg_cleanup l) (lg_replay l) (lg_next_log_id l) (lg_disk l).
Definition with_cleanup (c : list Z) (l : LogState) : LogState :=
  mkLog (lg_overlays l) (lg_appending l) (lg_reading l) (lg_read_queue l) (lg_next_record_id l) (lg_dirty l)
    (lg_pool l) c (lg_replay l) (lg_next_log_id l) (lg_disk l).

Definition file_of (l : LogState) (id : Z) : bytes := default [] (lg_disk l !! id).

(** [sort_by_key]: a stable sort. *)
Fixpoint insert_by {A} (key : A → Z) (x : A) (l : list A) : list A :=
  match l with
  | [] => [x]
  | y :: l' => if bool_decide (key x ≤ key y) then x :: l else y :: insert_by key x l'
  end.
Definition sort_by_key {A} (key : A → Z) (l : list A) : list A := foldr (insert_by key) [] l.

(** ** Opening *)
Definition read_first_record_id (file : bytes) : outcome Z :=
  '(buf, _) ← read_exact 9 file; Ok (le_val (drop 1 buf)).

Definition open_log_file (file : bytes) : outcome (option Z) :=
  if bool_decide (length file = 0%nat) then Ok None
  else match read_first_record_id file with
       | Err (Io UnexpectedEof) => Ok None
       | Err e => Err e
       | Ok id => Ok (Some id)
       | Panic => Panic
       | NoFuel => NoFuel
       end.

(** [files]: the files "log<n>" in the order of the directory.  Files without a record are
    removed. *)
Fixpoint open_logs (files : list Z) (disk : gmap Z bytes) (logs : list (Z * Z)) (max_log_id : Z)
    : outcome (list (Z * Z) * Z * gmap Z bytes) :=
  match files with
  | [] => Ok (logs, max_log_id, disk)
  | nlog :: files' =>
      record_id ← open_log_file (default [] (disk !! nlog));
      match record_id with
      | Some rid => open_logs files' disk (logs ++ [(nlog, rid)]) (Z.max max_log_id nlog)
      | None => open_logs files' (delete nlog disk) logs max_log_id
      end
  end.

Definition Log_open (files : list Z) (disk : gmap Z bytes) : outcome LogState :=
  '(logs, max_log_id, disk) ← open_logs files disk [] 0;
  let logs := sort_by_key snd logs in
  let next_log_id := if bool_decide (logs = []) then 0 else max_log_id + 1 in
  Ok (mkLog LogOverlays_default None None [] 1 true [] [] logs next_log_id disk).

Definition replay_record_id (l : LogState) : option Z := snd <$> head (lg_replay l).

Definition drop_log (id : Z) (l : LogState) : LogState :=
  mkLog (lg_overlays l) (lg_appending l) (lg_reading l) (lg_read_queue l) (lg_next_record_id l) (lg_dirty l)
    (lg_pool l) (lg_cleanup l) (lg_replay l) (lg_next_log_id l) (delete id (lg_disk l)).

(** [if let Some(reading) = self.reading.take() { cleanup_queue.push_back(reading) }] *)
Definition retire_reading (l : LogState) : LogState :=
  match lg_reading l with
  | Some r => with_reading None (with_cleanup (lg_cleanup l ++ [rg_id r]) l)
  | None => l
  end.

Definition clear_replay_logs (l : LogState) : LogState :=
  let l := retire_reading l in
  mkLog LogOverlays_default (lg_appending l) (lg_reading l) (lg_read_queue l) (lg_next_record_id l) false
    (lg_pool l) (lg_cleanup l ++ (fst <$> lg_replay l)) [] (lg_next_log_id l) (lg_disk l).

(** ** Writing *)
Definition begin_record : M LogState LogWriter := λ l,
  let id := lg_next_record_id l in
  (Ok (LogWriter_new (lg_overlays l) id),
   mkLog (lg_overlays l) (lg_appending l) (lg_reading l) (lg_read_queue l) (u64 (id + 1)) (lg_dirty l) (lg_pool l)
     (lg_cleanup l) (lg_replay l) (lg_next_log_id l) (lg_disk l)).

(** The file to append to: the current one, one of the pool, or a new one. *)
Definition activate (l : LogState) : Appending * LogState :=
  match lg_appending l with
  | Some a => (a, l)
  | None =>
      match lg_pool l with
      | id :: pool =>
          let a := mkAppending id 0 in
          (a, mkLog (lg_overlays l) (Some a) (lg_reading l) (lg_read_queue l) (lg_next_record_id l) (lg_dirty l) pool
                (lg_cleanup l) (lg_replay l) (lg_next_log_id l) (lg_disk l))
      | [] =>
          let id := lg_next_log_id l in
          let a := mkAppending id 0 in
          (a, mkLog (lg_overlays l) (Some a) (lg_reading l) (lg_read_queue l) (lg_next_record_id l) (lg_dirty l) []
                (lg_cleanup l) (lg_replay l) (u32 (id + 1)) (<[id := file_of l id]> (lg_disk l)))
      end
  end.

(** Write at the position of the writer: the file may hold more. *)
Definition write_from (pos : nat) (d file : bytes) : bytes :=
  take pos file ++ d ++ drop (pos + length d) file.

Section files.
Context (crc32 : bytes → Z).

(** [is_] and [vs] are the items of the two maps of the change in the order they iterate. *)
Definition Log_end_record (is_ : index_items) (vs : value_items) (c : LogChange) : M LogState Z := λ l,
  if negb (bool_decide (record_id c + 1 = lg_next_record_id l)) then (Panic, l)
  else
    let '(a, l) := activate l in
    let record := flush_to_file crc32 (record_id c) is_ vs (dropped_tables c) in
    let bytes := Z.of_nat (length record) in
    (Ok bytes,
     mkLog (end_record_overlays c (lg_overlays l)) (Some (mkAppending (ap_id a) (ap_size a + bytes))) (lg_reading l)
       (lg_read_queue l) (lg_next_record_id l) true (lg_pool l) (lg_cleanup l) (lg_replay l) (lg_next_log_id l)
       (<[ap_id a := write_from (Z.to_nat (ap_size a)) record (file_of l (ap_id a))]> (lg_disk l))).

Definition Log_end_read (cleared : Cleared) (rid : Z) (l : LogState) : LogState :=
  mkLog (end_read_overlays cleared rid (lg_overlays l)) (lg_appending l) (lg_reading l) (lg_read_queue l)
    (if bool_decide (lg_next_record_id l ≤ rid) then u64 (rid + 1) else lg_next_record_id l) (lg_dirty l)
    (lg_pool l) (lg_cleanup l) (lg_replay l) (lg_next_log_id l) (lg_disk l).

Definition flush_one (min_size : Z) : M LogState bool := λ l,
  let cur_size := match lg_appending l with Some a => ap_size a | None => 0 end in
  if bool_decide (min_size < cur_size) then
    (Ok true,
     match lg_appending l with
     | Some a => mkLog (lg_overlays l) None (lg_reading l) (lg_read_queue l ++ [ap_id a]) (lg_next_record_id l)
                   (lg_dirty l) (lg_pool l) (lg_cleanup l) (lg_replay l) (lg_next_log_id l) (lg_disk l)
     | None => l
     end)
  else (Ok false, l).

(** ** Reading *)
Definition replay_next : M LogState (option Z) := λ l,
  let l := retire_reading l in
  match lg_replay l with
  | (id, _) :: q =>
      (Ok (Some id),
       mkLog (lg_overlays l) (lg_appending l) (Some (mkReading id (file_of l id))) (lg_read_queue l)
         (lg_next_record_id l) (lg_dirty l) (lg_pool l) (lg_cleanup l) q (lg_next_log_id l) (lg_disk l))
  | [] => (Ok None, l)
  end.

(** The reader holds the file while it is alive; what it leaves is put back when it goes. *)
Definition put_back (r : LogReader) (l : LogState) : LogState :=
  match lg_reading l with
  | Some rg => with_reading (Some (mkReading (rg_id rg) (rd_stream r))) l
  | None => l
  end.

(** The next record of the file that is being read. *)
Definition read_record (validate : bool) (rg : Reading) : M LogState (option LogReader) := λ l,
  match LogReader_next crc32 (LogReader_new (rg_stream rg) validate) with
  | (Ok BeginRecord, r) => (Ok (Some r), put_back r l)
  | (Ok _, r) => (Err (Corruption "Bad log record structure"), put_back r l)
  | (Err (Io UnexpectedEof), _) => (Ok None, retire_reading l)
  | (Err e, r) => (Err e, put_back r l)
  | (Panic, _) => (Panic, l)
  | (NoFuel, _) => (NoFuel, l)
  end.

Definition Log_read_next (validate : bool) : M LogState (option LogReader) := λ l,
  match lg_reading l with
  | Some rg => read_record validate rg l
  | None =>
      match lg_read_queue l with
      | id :: q =>
          let rg := mkReading id (file_of l id) in
          read_record validate rg
            (mkLog (lg_overlays l) (lg_appending l) (Some rg) q (lg_next_record_id l) (lg_dirty l) (lg_pool l)
               (lg_cleanup l) (lg_replay l) (lg_next_log_id l) (lg_disk l))
      | [] => (Ok None, l)
      end
  end.

(** ** Cleaning *)
Definition empty_files (ids : list Z) (disk : gmap Z bytes) : gmap Z bytes :=
  foldr (λ id, <[id := []]>) disk ids.

Definition clean_logs (max_count : nat) : M LogState bool := λ l,
  let count := (max_count `min` length (lg_cleanup l))%nat in
  let cleaned := take count (lg_cleanup l) in
  let cleanup := drop count (lg_cleanup l) in
  let pool := sort_by_key id (lg_pool l ++ cleaned) in
  let disk := empty_files cleaned (lg_disk l) in
  let removed := drop MAX_LOG_POOL_SIZE pool in
  (Ok (negb (bool_decide (cleanup = []))),
   mkLog (lg_overlays l) (lg_appending l) (lg_reading l) (lg_read_queue l) (lg_next_record_id l) (lg_dirty l)
     (take MAX_LOG_POOL_SIZE pool) cleanup (lg_replay l) (lg_next_log_id l)
     (foldr delete disk removed)).

Definition num_dirty_logs (l : LogState) : nat := length (lg_cleanup l).
Definition has_log_files_to_read (l : LogState) : bool := bool_decide (0 < length (lg_read_queue l))%nat.

Definition kill_logs (l : LogState) : LogState :=
  let l' := foldr drop_log l (lg_pool l) in
  let l' := mkLog (lg_overlays l') (lg_appending l') (lg_reading l') (lg_read_queue l') (lg_next_record_id l')
              (lg_dirty l') [] (lg_cleanup l') (lg_replay l') (lg_next_log_id l') (lg_disk l') in
  match lg_reading l' with
  | Some r => drop_log (rg_id r) (with_reading None l')
  | None => l'
  end.
End files.
