(* ===== verification/LogQueue.v ===== *)
(** * The log is a queue

    Every log file is in one place: the pool of empty files, the file being written, the queue
    of files to read, the file being read, the files to replay, or the files to clean.  What is
    left to read of the log, over all its files, is a queue of bytes: a record is added at its
    end, and it is read in the order it was written. *)

From S2P Require Import Prelude IndexEntry IndexChunk Log LogFiles.

Definition appending_id (l : LogState) : list Z := match lg_appending l with Some a => [ap_id a] | None => [] end.
Definition reading_id (l : LogState) : list Z := match lg_reading l with Some r => [rg_id r] | None => [] end.
Definition log_ids (l : LogState) : list Z :=
  lg_pool l ++ lg_cleanup l ++ lg_read_queue l ++ (fst <$> lg_replay l) ++ appending_id l ++ reading_id l.

Record log_ok (l : LogState) : Prop := {
  lo_nodup : NoDup (log_ids l);
  lo_disk : ∀ id, id ∈ log_ids l ↔ is_Some (lg_disk l !! id);
  lo_pool : ∀ id, id ∈ lg_pool l → file_of l id = [];
  lo_next : ∀ id, id ∈ log_ids l → 0 ≤ id < lg_next_log_id l;
  lo_size : ∀ a, lg_appending l = Some a → ap_size a = Z.of_nat (length (file_of l (ap_id a)));
  lo_bound : 0 ≤ lg_next_log_id l < 2 ^ 32;
}.

(** What is left to read, oldest first. *)
Definition tape (l : LogState) : bytes :=
  (match lg_reading l with Some r => rg_stream r | None => [] end)
  ++ concat (file_of l <$> lg_read_queue l)
  ++ (match lg_appending l with Some a => file_of l (ap_id a) | None => [] end).

(** ** Sorting *)
Lemma insert_by_perm {A} (key : A → Z) x l : insert_by key x l ≡ₚ x :: l.
Proof.
  induction l as [|y l IH]; simpl; [done|]. case_bool_decide; [done|]. rewrite IH. apply Permutation_swap.
Qed.
Lemma sort_by_key_perm {A} (key : A → Z) l : sort_by_key key l ≡ₚ l.
Proof. induction l as [|x l IH]; simpl; [done|]. unfold sort_by_key in *. simpl. by rewrite insert_by_perm, IH. Qed.

(** ** The invariant only depends on the multiset of files *)
Lemma log_ok_perm l l' :
  log_ids l' ≡ₚ log_ids l → lg_disk l' = lg_disk l → lg_next_log_id l' = lg_next_log_id l →
  (∀ id, id ∈ lg_pool l' → id ∈ lg_pool l) → (∀ a, lg_appending l' = Some a → lg_appending l = Some a) →
  log_ok l → log_ok l'.
Proof.
  intros Hp Hd Hn Hpool Happ [H1 H2 H3 H4 H5 H6]. assert (Hf : ∀ id, file_of l' id = file_of l id).
  { intros id. unfold file_of. by rewrite Hd. }
  split.
  - by rewrite Hp.
  - intros id. by rewrite Hp, Hd.
  - intros id Hid. rewrite Hf. by apply H3, Hpool.
  - intros id. rewrite Hp, Hn. apply H4.
  - intros a Ha. rewrite Hf. by apply H5, Happ.
  - by rewrite Hn.
Qed.

Lemma retire_ok l : log_ok l → log_ok (retire_reading l) ∧ lg_reading (retire_reading l) = None.
Proof.
  intros Hl. unfold retire_reading. destruct (lg_reading l) as [r|] eqn:Er; [|done]. split; [|done].
  apply (log_ok_perm l); try done. unfold log_ids, appending_id, reading_id. simpl. rewrite Er. solve_Permutation.
Qed.

Lemma put_back_ok r l : log_ok l → log_ok (put_back r l).
Proof.
  intros Hl. unfold put_back. destruct (lg_reading l) as [rg|] eqn:Er; [|done].
  apply (log_ok_perm l); try done. unfold log_ids, appending_id, reading_id. simpl. by rewrite Er.
Qed.

Lemma clear_replay_ok l : log_ok l → log_ok (clear_replay_logs l).
Proof.
  intros Hl. destruct (retire_ok l Hl) as [Hr _]. unfold clear_replay_logs. cbv zeta.
  apply (log_ok_perm (retire_reading l)); try done. unfold log_ids, appending_id, reading_id. simpl. solve_Permutation.
Qed.

Lemma replay_next_ok l o l' : log_ok l → replay_next l = (o, l') → log_ok l'.
Proof.
  intros Hl. destruct (retire_ok l Hl) as [Hr Hn]. unfold replay_next. cbv zeta.
  destruct (lg_replay (retire_reading l)) as [|[id rid] q] eqn:Eq; intros [= <- <-]; [done|].
  apply (log_ok_perm (retire_reading l)); try done. unfold log_ids, appending_id, reading_id. simpl. rewrite Hn, Eq. simpl. solve_Permutation.
Qed.

Lemma flush_one_ok n l o l' : log_ok l → flush_one n l = (o, l') → log_ok l'.
Proof.
  intros Hl. unfold flush_one. case_bool_decide; intros [= <- <-]; [|done].
  destruct (lg_appending l) as [a|] eqn:Ea; [|done].
  apply (log_ok_perm l); try done. unfold log_ids, appending_id, reading_id. simpl. rewrite Ea. solve_Permutation.
Qed.

Section files.
Context (crc32 : bytes → Z).

Lemma read_record_ok v rg l o l' : log_ok l → read_record crc32 v rg l = (o, l') → log_ok l'.
Proof.
  intros Hl. pose proof (λ r, put_back_ok r l Hl). destruct (retire_ok l Hl) as [H2 _]. unfold read_record.
  destruct (LogReader_next _ _) as [[[]|[[]| | | | | | | | | |]| |] r]; intros [= <- <-]; auto.
Qed.

Lemma read_next_ok v l o l' : log_ok l → Log_read_next crc32 v l = (o, l') → log_ok l'.
Proof.
  intros Hl. unfold Log_read_next. destruct (lg_reading l) as [rg|] eqn:Er; [by apply read_record_ok|].
  destruct (lg_read_queue l) as [|id q] eqn:Eq; [by intros [= <- <-]|].
  apply read_record_ok. apply (log_ok_perm l); try done.
  unfold log_ids, appending_id, reading_id. simpl. rewrite Er, Eq. simpl. solve_Permutation.
Qed.

(** ** Files that change *)
Lemma file_of_insert l id d id' :
  default [] (<[id := d]> (lg_disk l) !! id') = if decide (id = id') then d else file_of l id'.
Proof. rewrite lookup_insert. by case_decide. Qed.

Lemma activate_ok l a l' :
  log_ok l → lg_next_log_id l < 2 ^ 32 - 1 → activate l = (a, l') →
  log_ok l' ∧ lg_appending l' = Some a ∧ lg_overlays l' = lg_overlays l ∧ lg_reading l' = lg_reading l ∧
  lg_read_queue l' = lg_read_queue l ∧ lg_next_record_id l' = lg_next_record_id l ∧ tape l' = tape l.
Proof.
  intros Hl Hb. pose proof Hl as [H1 H2 H3 H4 H5 H6]. unfold activate. destruct (lg_appending l) as [a0|] eqn:Ea; [by intros [= <- <-]|].
  destruct (lg_pool l) as [|id pool] eqn:Ep; intros [= <- <-].
  - set (id := lg_next_log_id l) in *.
    assert (Hfresh : id ∉ log_ids l) by (intros Hin; apply H4 in Hin; lia).
    assert (Hno : lg_disk l !! id = None).
    { destruct (lg_disk l !! id) eqn:E; [|done]. destruct Hfresh. apply H2. by rewrite E. }
    assert (Hfile : file_of l id = []) by (unfold file_of; by rewrite Hno).
    assert (Hids : id :: log_ids l ≡ₚ log_ids (mkLog (lg_overlays l) (Some (mkAppending id 0)) (lg_reading l) (lg_read_queue l)
      (lg_next_record_id l) (lg_dirty l) [] (lg_cleanup l) (lg_replay l) (u32 (id + 1)) (<[id := file_of l id]> (lg_disk l)))).
    { unfold log_ids, appending_id, reading_id. simpl. rewrite Ep, Ea. simpl. solve_Permutation. }
    assert (Hu : u32 (id + 1) = id + 1) by (apply wrap_small; unfold in_range; lia).
    assert (Hsame : ∀ j, default [] (<[id := file_of l id]> (lg_disk l) !! j) = file_of l j).
    { intros j. rewrite file_of_insert. by case_decide; [subst|]. }
    split_and!; try done.
    + split.
      * rewrite <-Hids. by constructor.
      * intros j. rewrite <-Hids, elem_of_cons, H2. simpl. rewrite lookup_insert. case_decide; naive_solver.
      * simpl. intros j Hj. by apply elem_of_nil in Hj.
      * intros j. rewrite <-Hids, elem_of_cons. simpl. rewrite Hu. intros [->|Hj]; [lia|apply H4 in Hj; lia].
      * intros a [= <-]. simpl. unfold file_of. simpl. by rewrite Hsame, Hfile.
      * simpl. rewrite Hu. lia.
    + unfold tape. simpl. rewrite Ea. f_equal. f_equal; [|unfold file_of; simpl; by rewrite Hsame].
      f_equal. apply list_fmap_ext. intros i j _. unfold file_of. simpl. apply Hsame.
  - assert (Hids : log_ids (mkLog (lg_overlays l) (Some (mkAppending id 0)) (lg_reading l) (lg_read_queue l)
      (lg_next_record_id l) (lg_dirty l) pool (lg_cleanup l) (lg_replay l) (lg_next_log_id l) (lg_disk l)) ≡ₚ log_ids l).
    { unfold log_ids, appending_id, reading_id. simpl. rewrite Ep, Ea. solve_Permutation. }
    assert (Hfile : file_of l id = []) by (apply H3; by left).
    split_and!; try done.
    + split; try done.
      * by rewrite Hids.
      * intros j. by rewrite Hids, H2.
      * intros j Hj. apply (H3 j). by right.
      * intros j. rewrite Hids. apply H4.
      * intros a [= <-]. unfold file_of in *. simpl. by rewrite Hfile.
    + unfold tape. simpl. rewrite Ea. f_equal. f_equal. exact Hfile.
Qed.

Lemma write_from_end d file : write_from (length file) d file = file ++ d.
Proof. unfold write_from. rewrite take_ge, drop_ge by lia. by rewrite app_nil_r. Qed.

(** The files being written and the files to read are not the same. *)
Lemma appending_apart l a : log_ok l → lg_appending l = Some a → (ap_id a ∉ lg_read_queue l) ∧ (ap_id a ∉ lg_pool l).
Proof.
  intros [H1 _ _ _ _ _] Ha. unfold log_ids, appending_id in H1. rewrite Ha in H1.
  apply NoDup_app in H1 as (_ & Hp & H1). apply NoDup_app in H1 as (_ & _ & H1). apply NoDup_app in H1 as (_ & Hq & _).
  split; [intros Hin; apply (Hq _ Hin)|intros Hin; apply (Hp _ Hin)]; rewrite !elem_of_app; set_solver.
Qed.

Lemma end_record_ok is_ vs c l o l' :
  log_ok l → lg_next_log_id l < 2 ^ 32 - 1 → Log_end_record crc32 is_ vs c l = (o, l') →
  log_ok l' ∧
  (record_id c + 1 = lg_next_record_id l →
    tape l' = tape l ++ flush_to_file crc32 (record_id c) is_ vs (dropped_tables c)).
Proof.
  intros Hl Hb. unfold Log_end_record. case_bool_decide as Hr; change (negb true) with false; change (negb false) with true; cbv iota.
  2: { intros [= <- <-]. done. }
  destruct (activate l) as [a l1] eqn:Ea. destruct (activate_ok l a l1 Hl Hb Ea) as (Hl1 & Ha & Ho & Hrd & Hq & _ & Ht).
  set (record := flush_to_file _ _ _ _ _). intros [= <- <-]. pose proof Hl1 as [H1 H2 H3 H4 H5 H6].
  destruct (appending_apart l1 a Hl1 Ha) as [Hnq Hnp]. pose proof (H5 a Ha) as Hsz.
  assert (Hin : ap_id a ∈ log_ids l1) by (unfold log_ids, appending_id; rewrite Ha; set_solver).
  assert (Hw : write_from (Z.to_nat (ap_size a)) record (file_of l1 (ap_id a)) = file_of l1 (ap_id a) ++ record).
  { rewrite Hsz, Nat2Z.id. apply write_from_end. }
  set (l2 := mkLog _ _ _ _ _ _ _ _ _ _ _).
  assert (Hids : log_ids l2 = log_ids l1) by (unfold log_ids, appending_id; simpl; by rewrite Ha).
  assert (Hf : ∀ j, file_of l2 j = if decide (ap_id a = j) then (file_of l1 (ap_id a) ++ record) else file_of l1 j).
  { intros j. unfold file_of at 1. simpl. rewrite file_of_insert, Hw. done. }
  split.
  - split; try done.
    + by rewrite Hids.
    + intros j. rewrite Hids, H2. simpl. rewrite lookup_insert. case_decide; [|done]. subst j.
      apply H2 in Hin. naive_solver.
    + intros j Hj. rewrite Hf, decide_False; [by apply H3|]. intros <-. done.
    + intros j. rewrite Hids. apply H4.
    + intros a'. change (lg_appending l2) with (Some (mkAppending (ap_id a) (ap_size a + Z.of_nat (length record)))).
      intros [= <-]. simpl. rewrite Hf, decide_True, length_app by done. rewrite Hsz. lia.
  - intros _. rewrite <-Ht. unfold tape. simpl. rewrite Ha, Hrd, Hf, decide_True by done. rewrite <-!app_assoc.
    f_equal. f_equal. f_equal. apply list_fmap_ext. intros i j Hj. rewrite Hf, decide_False; [done|].
    intros <-. apply Hnq. by eapply list_elem_of_lookup_2.
Qed.

Lemma empty_files_lookup ids disk id :
  empty_files ids disk !! id = if decide (id ∈ ids) then Some [] else disk !! id.
Proof.
  induction ids as [|x ids IH]; simpl; [done|]. destruct (decide (x = id)) as [->|Hx].
  - rewrite lookup_insert_eq, decide_True; [done|by left].
  - rewrite lookup_insert_ne by done. rewrite IH. by apply decide_ext; rewrite elem_of_cons; naive_solver.
Qed.

Lemma delete_files_lookup (ids : list Z) (disk : gmap Z bytes) id :
  foldr delete disk ids !! id = if decide (id ∈ ids) then None else disk !! id.
Proof.
  induction ids as [|x ids IH]; simpl; [done|]. destruct (decide (x = id)) as [->|Hx].
  - rewrite lookup_delete_eq, decide_True; [done|by left].
  - rewrite lookup_delete_ne by done. rewrite IH. by apply decide_ext; rewrite elem_of_cons; naive_solver.
Qed.
End files.

Lemma clean_logs_ok n l o l' : log_ok l → clean_logs n l = (o, l') → log_ok l' ∧ tape l' = tape l ∧
  ∀ id, id ∈ drop (n `min` length (lg_cleanup l)) (lg_cleanup l) ++ lg_read_queue l ++ (fst <$> lg_replay l) ++ appending_id l ++ reading_id l →
    file_of l' id = file_of l id.
Proof.
  intros Hl. pose proof Hl as [H1 H2 H3 H4 H5 H6]. unfold clean_logs. cbv zeta.
  set (k := (n `min` length (lg_cleanup l))%nat). set (cleaned := take k (lg_cleanup l)). set (rest := drop k (lg_cleanup l)).
  set (pool := sort_by_key id (lg_pool l ++ cleaned)). set (kept := take MAX_LOG_POOL_SIZE pool).
  set (removed := drop MAX_LOG_POOL_SIZE pool). intros [= <- <-].
  set (others := rest ++ lg_read_queue l ++ (fst <$> lg_replay l) ++ appending_id l ++ reading_id l).
  assert (Hperm : log_ids l ≡ₚ kept ++ removed ++ others).
  { rewrite app_assoc. unfold kept, removed. rewrite take_drop. unfold pool. rewrite sort_by_key_perm.
    unfold log_ids, others. rewrite <-(take_drop k (lg_cleanup l)) at 1. fold cleaned rest. solve_Permutation. }
  set (l2 := mkLog _ _ _ _ _ _ _ _ _ _ _). assert (Hids : log_ids l2 = kept ++ others) by done.
  assert (Hsplit : kept ++ removed ≡ₚ lg_pool l ++ cleaned) by (unfold kept, removed; rewrite take_drop; apply sort_by_key_perm).
  rewrite Hperm in H1. apply NoDup_app in H1 as (N1 & N2 & N3). apply NoDup_app in N3 as (N3 & N4 & N5).
  assert (Hdisk : ∀ j, j ∉ removed → lg_disk l2 !! j = if decide (j ∈ cleaned) then Some [] else lg_disk l !! j).
  { intros j Hj. unfold l2. simpl. rewrite delete_files_lookup, decide_False by done. apply empty_files_lookup. }
  assert (Hother : ∀ j, j ∈ others → file_of l2 j = file_of l j).
  { intros j Hj. assert (Hjr : j ∉ removed) by (intros ?; by eapply N4). unfold file_of. rewrite Hdisk by done.
    rewrite decide_False; [done|]. intros Hc. assert (Hx : j ∈ kept ++ removed) by (rewrite Hsplit; set_solver).
    apply elem_of_app in Hx as [Hx|Hx]; [|done]. apply (N2 j Hx). set_solver. }
  split_and!; [| |exact Hother].
  - split; try done.
    + rewrite Hids. apply NoDup_app. split_and!; try done. intros j Hj Ho. apply (N2 j Hj). set_solver.
    + intros j. rewrite Hids. destruct (decide (j ∈ removed)) as [Hr|Hr].
      * unfold l2. simpl. rewrite delete_files_lookup, decide_True by done. split; [|by intros [? ?]].
        intros [Hk|Ho]%elem_of_app; exfalso; [apply (N2 j Hk); set_solver|by apply (N4 j Hr)].
      * rewrite Hdisk by done. case_decide as Hc.
        -- split; [by eauto|intros _]. apply elem_of_app. left.
           assert (Hx : j ∈ kept ++ removed) by (rewrite Hsplit; set_solver). set_solver.
        -- rewrite <-H2, Hperm. set_solver.
    + intros j Hj. change (j ∈ kept) in Hj. assert (Hr : j ∉ removed) by (intros ?; apply (N2 j Hj); set_solver).
      unfold file_of. rewrite Hdisk by done. case_decide as Hc; [done|]. apply H3.
      assert (Hx : j ∈ lg_pool l ++ cleaned) by (rewrite <-Hsplit; set_solver). set_solver.
    + intros j. rewrite Hids. intros Hj. apply H4. rewrite Hperm. set_solver.
    + intros a Ha. rewrite Hother; [by apply H5|]. change (lg_appending l = Some a) in Ha. unfold others, appending_id. rewrite Ha. set_solver.
  - unfold tape. change (lg_reading l2) with (lg_reading l). change (lg_read_queue l2) with (lg_read_queue l).
    change (lg_appending l2) with (lg_appending l). f_equal. f_equal.
    + f_equal. apply list_fmap_ext. intros i j Hj. apply Hother. apply list_elem_of_lookup_2 in Hj. set_solver.
    + destruct (lg_appending l) as [a|] eqn:Ea; [|done]. apply Hother. unfold others, appending_id. rewrite Ea. set_solver.
Qed.

Lemma open_logs_spec : ∀ files disk logs m logs' m' disk',
  NoDup ((fst <$> logs) ++ files) → (∀ id, id ∈ (fst <$> logs) ++ files ↔ is_Some (disk !! id)) →
  (∀ id, id ∈ fst <$> logs → 0 ≤ id ≤ m) → (∀ id, id ∈ files → 0 ≤ id) → 0 ≤ m →
  open_logs files disk logs m = Ok (logs', m', disk') →
  NoDup (fst <$> logs') ∧ (∀ id, id ∈ fst <$> logs' ↔ is_Some (disk' !! id)) ∧
  (∀ id, id ∈ fst <$> logs' → 0 ≤ id ≤ m') ∧ 0 ≤ m' ∧ (m' = m ∨ m' ∈ files).
Proof.
  induction files as [|f files IH]; intros disk logs m logs' m' disk' H1 H2 H3 H4 H5; cbn [open_logs].
  - intros [= <- <- <-]. rewrite app_nil_r in *. naive_solver.
  - destruct (open_log_file _) as [[rid|]| | |]; cbn [mbind outcome_bind]; try done; intros E.
    + apply IH in E as (? & ? & ? & ? & Hm).
      * split_and!; try done. destruct Hm as [->|?]; [|right; by right]. destruct (Z.max_spec m f) as [[_ ->]|[_ ->]]; [right; by left|by left].
      * rewrite fmap_app. simpl. rewrite <-app_assoc. done.
      * intros id. rewrite fmap_app. simpl. rewrite <-app_assoc. apply H2.
      * intros id. rewrite fmap_app, elem_of_app. change (fst <$> [(f, rid)]) with [f]. rewrite list_elem_of_singleton.
        intros [?%H3| ->]; [lia|]. split; [apply H4; by left|simpl; lia].
      * intros id Hid. apply H4. by right.
      * lia.
    + assert (Hf : f ∉ (fst <$> logs) ++ files).
      { rewrite (Permutation_app_comm _ (f :: files)) in H1. simpl in H1. apply NoDup_cons in H1 as [Hf _]. set_solver. }
      apply IH in E as (? & ? & ? & ? & Hm).
      * split_and!; try done. destruct Hm as [->|?]; [by left|right; by right].
      * rewrite (Permutation_app_comm _ (f :: files)) in H1. simpl in H1. apply NoDup_cons in H1 as [_ H1].
        by rewrite Permutation_app_comm.
      * intros id. rewrite lookup_delete. case_decide as Hd.
        -- subst id. split; [done|by intros [? ?]].
        -- rewrite <-H2. set_solver.
      * done.
      * intros id Hid. apply H4. by right.
      * done.
Qed.

Lemma open_ok files disk l :
  NoDup files → (∀ id, id ∈ files ↔ is_Some (disk !! id)) → (∀ id, id ∈ files → 0 ≤ id < 2 ^ 32 - 1) →
  Log_open files disk = Ok l → log_ok l ∧ tape l = [].
Proof.
  intros H1 H2 H3 E. unfold Log_open in E. apply outcome_bind_inv in E as ([[logs m] disk'] & E & [= <-]).
  apply open_logs_spec in E as (N & D & B & Hm & Hin); try done.
  2: { intros id Hid. by apply elem_of_nil in Hid. }
  2: { intros id Hid. by apply H3. }
  assert (Hlt : m < 2 ^ 32 - 1) by (destruct Hin as [->|Hin]; [lia|by apply H3]).
  assert (Hp : log_ids (mkLog LogOverlays_default None None [] 1 true [] [] (sort_by_key snd logs)
    (if bool_decide (sort_by_key snd logs = []) then 0 else m + 1) disk') ≡ₚ fst <$> logs).
  { unfold log_ids, appending_id, reading_id. simpl. rewrite app_nil_r. by rewrite sort_by_key_perm. }
  split; [|done]. split; simpl; try done.
  - by rewrite Hp.
  - intros id. by rewrite Hp, D.
  - intros id Hid. by apply elem_of_nil in Hid.
  - intros id. rewrite Hp. intros Hid. pose proof (B id Hid). case_bool_decide as He; [|lia].
    apply (f_equal length) in He. rewrite (Permutation_length (sort_by_key_perm snd logs)) in He.
    destruct logs; [by apply elem_of_nil in Hid|done].
  - case_bool_decide; lia.
Qed.

(** ** Readers only move forward *)
Definition forward {A} (m : M LogReader A) : Prop :=
  ∀ r o r', m r = (o, r') → ∃ d, rd_stream r = d ++ rd_stream r'.

Lemma forward_bind {A B} (m : M LogReader A) (k : A → M LogReader B) :
  forward m → (∀ a, forward (k a)) → forward (m ≫= k).
Proof.
  intros Hm Hk r o r' E. unfold mbind, M_bind in E. destruct (m r) as [om r1] eqn:Em.
  destruct (Hm _ _ _ Em) as [d Hd]. destruct om as [a| | |]; try (simplify_eq; eauto; fail).
  destruct (Hk a _ _ _ E) as [d' Hd']. exists (d ++ d'). by rewrite Hd, Hd', app_assoc.
Qed.

Lemma forward_same {A} (m : M LogReader A) : (∀ r o r', m r = (o, r') → rd_stream r' = rd_stream r) → forward m.
Proof. intros H r o r' E. exists []. by rewrite (H _ _ _ E). Qed.

Lemma forward_read n : forward (LogReader_read n).
Proof.
  intros r o r'. unfold LogReader_read, read_exact. case_decide; intros [= <- <-]; simpl; [|by exists []].
  exists (take n (rd_stream r)). by rewrite take_drop.
Qed.

Lemma forward_checksum crc32 : forward (read_checksum crc32).
Proof.
  intros r o r'. unfold read_checksum, read_exact. case_decide; [|intros [= <- <-]; by exists []].
  destruct (_ && _); intros [= <- <-]; simpl; exists (take 4 (rd_stream r)); by rewrite take_drop.
Qed.

Create HintDb fwd.
#[local] Hint Resolve forward_bind forward_read forward_checksum : fwd.
#[local] Hint Extern 5 (forward _) => apply forward_same; by intros ? ? ? [= <- <-] : fwd.

Lemma forward_next crc32 : forward (LogReader_next crc32).
Proof.
  unfold LogReader_next. apply forward_bind; [auto with fwd|]. intros b. cbv zeta.
  repeat case_bool_decide; repeat (apply forward_bind; [auto with fwd|intros ?]); auto with fwd.
Qed.

(** ** The steps of the log *)
Inductive log_step (crc32 : bytes → Z) : LogState → LogState → Prop :=
  | step_begin l w l' : begin_record l = (Ok w, l') → log_step crc32 l l'
  | step_end is_ vs c l o l' : lg_next_log_id l < 2 ^ 32 - 1 →
      Log_end_record crc32 is_ vs c l = (o, l') → log_step crc32 l l'
  | step_end_read cleared rid l : log_step crc32 l (Log_end_read cleared rid l)
  | step_flush n l o l' : flush_one n l = (o, l') → log_step crc32 l l'
  | step_replay l o l' : replay_next l = (o, l') → log_step crc32 l l'
  | step_read v l o l' : Log_read_next crc32 v l = (o, l') → log_step crc32 l l'
  | step_put_back r l : log_step crc32 l (put_back r l)
  | step_clean n l o l' : clean_logs n l = (o, l') → log_step crc32 l l'
  | step_clear_replay l : log_step crc32 l (clear_replay_logs l).

Lemma log_step_ok crc32 l l' : log_step crc32 l l' → log_ok l → log_ok l'.
Proof.
  intros Hstep Hl. inversion Hstep as [? ? ? E|? ? ? ? ? ? Hb E| |? ? ? ? E|? ? ? E|? ? ? ? E| |? ? ? ? E|]; subst.
  - injection E as <- <-. by apply (log_ok_perm l).
  - by destruct (end_record_ok crc32 is_ vs c l o l' Hl Hb E).
  - by apply (log_ok_perm l).
  - by eapply flush_one_ok.
  - by eapply replay_next_ok.
  - by eapply read_next_ok.
  - by apply put_back_ok.
  - by destruct (clean_logs_ok n l o l' Hl E) as (? & _).
  - by apply clear_replay_ok.
Qed.

(** C20. From the opening of a directory on, through any sequence of operations of the log, every
    log file is in exactly one place, no file of the directory is forgotten and none that is
    gone is referred to, the files of the pool are empty, and the next number is not in use. *)
Theorem log_files_have_one_place crc32 files disk l0 l :
  NoDup files → (∀ id, id ∈ files ↔ is_Some (disk !! id)) → (∀ id, id ∈ files → 0 ≤ id < 2 ^ 32 - 1) →
  Log_open files disk = Ok l0 → rtc (log_step crc32) l0 l → log_ok l.
Proof.
  intros H1 H2 H3 E Hr. destruct (open_ok files disk l0 H1 H2 H3 E) as [Hok _].
  clear E. induction Hr as [|l1 l2 l3 Hs Hr IH]; [done|]. apply IH. by eapply log_step_ok.
Qed.

Definition toy_crc (b : bytes) : Z := Z.of_nat (length b).
Definition old_log : bytes := flush_to_file toy_crc 7 [] [] [].
Lemma log_files_have_one_place_witness :
  ∃ l0, Log_open [4] {[4 := old_log]} = Ok l0 ∧ lg_replay l0 = [(4, 7)] ∧ log_ok (clear_replay_logs l0).
Proof.
  eexists. split; [vm_compute; reflexivity|]. split; [vm_compute; reflexivity|].
  eapply (log_files_have_one_place toy_crc [4] {[4 := old_log]}).
  - apply NoDup_singleton.
  - intros id. rewrite list_elem_of_singleton, lookup_singleton. case_decide; naive_solver.
  - intros id. rewrite list_elem_of_singleton. intros ->. lia.
  - vm_compute; reflexivity.
  - eapply rtc_l; [apply step_clear_replay|apply rtc_refl].
Defined.

(** ** Reading takes from the front *)
Lemma next_begin_inv crc32 r r' :
  LogReader_next crc32 r = (Ok BeginRecord, r') →
  ∃ rid, rd_stream r = le_bytes 1 BEGIN_RECORD ++ rid ++ rd_stream r' ∧ length rid = 8%nat ∧ rd_record_id r' = le_val rid.
Proof.
  assert (Hread : ∀ n r d r', LogReader_read n r = (Ok d, r') → rd_stream r = d ++ rd_stream r' ∧ length d = n).
  { intros n r0 d r0'. unfold LogReader_read, read_exact. case_decide; intros [= <- <-]. simpl. by rewrite take_drop, length_take_le. }
  intros E. unfold LogReader_next in E. apply M_bind_inv in E as (b & r1 & Eb & E). apply Hread in Eb as [Hb Hlb].
  cbv zeta in E. case_bool_decide as Ht.
  - apply M_bind_inv in E as (d & r2 & Ed & E). apply Hread in Ed as [Hd Hld].
    rewrite M_bind_modify in E. injection E as <-. exists d. simpl. split_and!; try done.
    rewrite Hb, Hd. f_equal. rewrite <-Ht. by rewrite (le_bytes_val_n 1 b).
  - repeat case_bool_decide; try discriminate E;
      repeat (apply M_bind_inv in E as (? & ? & _ & E)); discriminate E.
Qed.

Lemma put_back_tape r l rg d :
  lg_reading l = Some rg → rg_stream rg = d ++ rd_stream r → tape l = d ++ tape (put_back r l).
Proof. intros Hl Hd. unfold put_back. rewrite Hl. unfold tape. simpl. by rewrite Hl, Hd, <-app_assoc. Qed.

Lemma retire_tape l : ∃ d, tape l = d ++ tape (retire_reading l).
Proof.
  unfold retire_reading. destruct (lg_reading l) as [rg|] eqn:Er; [|by exists []]. exists (rg_stream rg). unfold tape. simpl. by rewrite Er.
Qed.

Lemma read_record_tape crc32 v rg l o l' :
  lg_reading l = Some rg → read_record crc32 v rg l = (o, l') →
  (∃ d, tape l = d ++ tape l') ∧
  (∀ r, o = Ok (Some r) → lg_reading l' = Some (mkReading (rg_id rg) (rd_stream r)) ∧
     ∃ rid, tape l = le_bytes 1 BEGIN_RECORD ++ rid ++ tape l' ∧ length rid = 8%nat ∧ rd_record_id r = le_val rid).
Proof.
  intros Er. unfold read_record. destruct (LogReader_next crc32 _) as [on r] eqn:En.
  destruct (forward_next crc32 _ _ _ En) as [d Hd]. simpl in Hd. pose proof (put_back_tape r l rg d Er Hd) as Hp.
  pose proof (retire_tape l) as Ht.
  destruct on as [[]|[[]| | | | | | | | | |]| |]; intros [= <- <-]; (split; [eauto; by exists []|intros r0 [=]]).
  subst r0. apply next_begin_inv in En as (rid & Hs & Hl & Hr). simpl in Hs. split.
  - unfold put_back. by rewrite Er.
  - exists rid. split; [|done]. rewrite (put_back_tape r l rg (le_bytes 1 BEGIN_RECORD ++ rid)); [|done|by rewrite <-app_assoc].
    by rewrite <-app_assoc.
Qed.

Lemma read_next_tape crc32 v l o l' :
  Log_read_next crc32 v l = (o, l') →
  (∃ d, tape l = d ++ tape l') ∧
  (∀ r, o = Ok (Some r) → (∃ id, lg_reading l' = Some (mkReading id (rd_stream r))) ∧
     ∃ rid, tape l = le_bytes 1 BEGIN_RECORD ++ rid ++ tape l' ∧ length rid = 8%nat ∧ rd_record_id r = le_val rid).
Proof.
  unfold Log_read_next. destruct (lg_reading l) as [rg|] eqn:Er.
  { intros E. destruct (read_record_tape _ _ _ _ _ _ Er E) as [H1 H2]. split; [done|]. intros r Hr. destruct (H2 r Hr). eauto. }
  destruct (lg_read_queue l) as [|id q] eqn:Eq; [intros [= <- <-]; split; [by exists []|done]|].
  set (l1 := mkLog _ _ _ _ _ _ _ _ _ _ _). intros E.
  assert (Ht : tape l1 = tape l) by (unfold tape; simpl; rewrite Er, Eq; simpl; by rewrite <-app_assoc).
  destruct (read_record_tape _ _ (mkReading id (file_of l id)) l1 _ _ eq_refl E) as [H1 H2]. rewrite Ht in H1, H2.
  split; [done|]. intros r Hr. destruct (H2 r Hr). eauto.
Qed.


Definition new_log : LogState := mkLog LogOverlays_default None None [] 1 true [] [] [] 0 ∅.
Lemma new_log_ok : log_ok new_log.
Proof.
  apply (open_ok [] ∅ new_log); [apply NoDup_nil_2| | |reflexivity].
  - intros id. rewrite lookup_empty. split; [by intros ?%elem_of_nil|by intros [? ?]].
  - by intros id ?%elem_of_nil.
Qed.
