(* ===== verification/LogRecords.v ===== *)
(** * The records of the log

    Every file of the log holds whole records.  [log_holds l kept pending] says which: [pending]
    are the records that are not enacted yet, in the rest of the file being read, the files
    queued for reading and the file being written; [kept] are the enacted ones, in the files to
    clean and the part of the file being read that was read. *)

From S2P Require Import Prelude IndexEntry IndexChunk Log LogFiles LogQueue RecordItems.

Section records.
Context (crc32 : bytes → Z).

(** A record that drops no table. *)
Definition record_items (r : rec) : bytes :=
  le_bytes 1 BEGIN_RECORD ++ le_bytes 8 r.1 ++ concat (enc_item <$> r.2) ++ le_bytes 1 END_RECORD.
Definition record_bytes (r : rec) : bytes := record_items r ++ le_bytes 4 (crc32 (record_items r)).
Definition file_bytes (rs : list rec) : bytes := concat (record_bytes <$> rs).

Lemma flush_record rid is_ vs :
  flush_to_file crc32 rid is_ vs [] = record_bytes (rid, index_part is_ ++ value_part vs).
Proof. unfold flush_to_file, record_bytes, record_items. by rewrite record_body_items, !app_nil_l. Qed.

Lemma file_bytes_app a b : file_bytes (a ++ b) = file_bytes a ++ file_bytes b.
Proof. unfold file_bytes. by rewrite fmap_app, concat_app. Qed.

(** [old]: the files to clean; [done] and [now]: the file being read, before and after the place
    reached; [queued]: the files to read; [last]: the file being written. *)
Record holding (l : LogState) (old : list (list rec)) (done now : list rec) (queued : list (list rec)) (last : list rec) : Prop := {
  hg_old : Forall2 (λ id rs, file_of l id = file_bytes rs) (lg_cleanup l) old;
  hg_now : match lg_reading l with
           | Some rg => rg_stream rg = file_bytes now ∧ file_of l (rg_id rg) = file_bytes (done ++ now)
           | None => done = [] ∧ now = []
           end;
  hg_queued : Forall2 (λ id rs, file_of l id = file_bytes rs) (lg_read_queue l) queued;
  hg_last : match lg_appending l with Some a => file_of l (ap_id a) = file_bytes last | None => last = [] end;
  hg_replay : lg_replay l = [];
}.
Definition log_holds (l : LogState) (kept pending : list rec) : Prop :=
  ∃ old done now queued last, holding l old done now queued last ∧ kept = concat old ++ done ∧ pending = now ++ concat queued ++ last.

(** ** Reading *)
(** The reader at the first item of a record. *)
Definition at_record (r : rec) (rest : bytes) (rd : LogReader) : Prop :=
  rd_record_id rd = r.1 ∧ rd_cleared rd = mkCleared [] [] ∧
  rd_crc rd = (if rd_validate rd then le_bytes 1 BEGIN_RECORD ++ le_bytes 8 r.1 else []) ∧
  rd_stream rd = concat (enc_item <$> r.2) ++ le_bytes 1 END_RECORD ++ le_bytes 4 (crc32 (record_items r)) ++ rest.

Lemma next_record v r rest stream :
  in_range 64 r.1 → stream = record_bytes r ++ rest →
  ∃ rd, LogReader_next crc32 (LogReader_new stream v) = (Ok BeginRecord, rd) ∧ at_record r rest rd ∧ rd_validate rd = v ∧ rd_read_bytes rd = 9.
Proof.
  intros Hr Hs. unfold record_bytes, record_items in Hs. rewrite <-!app_assoc in Hs.
  rewrite (next_begin crc32 r.1 _ (LogReader_new stream v) Hr Hs). eexists. split; [done|]. unfold at_record. simpl.
  split; [|split; [done|]; rewrite length_app, !le_bytes_length; done]. split_and!; try done; try (by destruct v).
  rewrite Hs, (app_assoc (le_bytes 1 BEGIN_RECORD) (le_bytes 8 r.1)), drop_app_length. done.
Qed.

(** Reading the next record of the log: the first of the pending ones, or none yet and the same
    records are pending. *)
Lemma read_record_holds v rg l old done now queued last :
  holding l old done now queued last → lg_reading l = Some rg → Forall (λ r, in_range 64 r.1) now →
  (∃ l', read_record crc32 v rg l = (Ok None, l') ∧ log_holds l' (concat old ++ done) (now ++ concat queued ++ last) ∧
    lg_overlays l' = lg_overlays l ∧ lg_next_record_id l' = lg_next_record_id l) ∨
  (∃ r now' rest rd, now = r :: now' ∧ read_record crc32 v rg l = (Ok (Some rd), put_back rd l) ∧ at_record r rest rd ∧ rd_validate rd = v ∧
    ∀ rd', rd_stream rd' = rest → log_holds (put_back rd' (put_back rd l)) (concat old ++ done ++ [r]) (now' ++ concat queued ++ last)).
Proof.
  intros [Ho Hn Hq Hl Hr] Er Hrange. rewrite Er in Hn. destruct Hn as [Hs Hf]. destruct now as [|r now].
  - left. exists (retire_reading l). unfold read_record, retire_reading. rewrite Hs, Er. split_and!; try done.
    exists (old ++ [done]), [], [], queued, last. rewrite app_nil_r in Hf. split_and!; [|by rewrite concat_app; simpl; rewrite !app_nil_r|done].
    split; simpl; try done. apply Forall2_app; [done|]. by constructor.
  - right. apply Forall_cons in Hrange as [Hr1 _]. destruct (next_record v r (file_bytes now) (rg_stream rg) Hr1 Hs) as (rd & E & Hat & Hv & _).
    exists r, now, (file_bytes now), rd. split_and!; try done; [unfold read_record; by rewrite E|]. intros rd' Hrd.
    exists old, (done ++ [r]), now, queued, last. split_and!; [|done|done].
    unfold put_back at 2. rewrite Er. unfold put_back. simpl. split; simpl; try done. split; [done|]. by rewrite <-app_assoc.
Qed.

Lemma read_next_record v l kept rs :
  log_holds l kept rs → Forall (λ r, in_range 64 r.1) rs →
  (∃ l', Log_read_next crc32 v l = (Ok None, l') ∧ log_holds l' kept rs ∧ lg_overlays l' = lg_overlays l ∧ lg_next_record_id l' = lg_next_record_id l) ∨
  (∃ r rs' rest rd l', rs = r :: rs' ∧ Log_read_next crc32 v l = (Ok (Some rd), l') ∧ lg_overlays l' = lg_overlays l ∧
    lg_next_record_id l' = lg_next_record_id l ∧ at_record r rest rd ∧ rd_validate rd = v ∧
    ∀ rd', rd_stream rd' = rest → log_holds (put_back rd' l') (kept ++ [r]) rs').
Proof.
  intros (old & done & now & queued & last & Hh & -> & ->) Hrange.
  assert (Hread : ∀ rg l0 q qs, holding l0 old done q qs last → lg_reading l0 = Some rg → lg_overlays l0 = lg_overlays l →
    lg_next_record_id l0 = lg_next_record_id l → q ++ concat qs = now ++ concat queued →
    (∃ l', read_record crc32 v rg l0 = (Ok None, l') ∧ log_holds l' (concat old ++ done) (now ++ concat queued ++ last) ∧
      lg_overlays l' = lg_overlays l ∧ lg_next_record_id l' = lg_next_record_id l) ∨
    (∃ r rs' rest rd l', now ++ concat queued ++ last = r :: rs' ∧ read_record crc32 v rg l0 = (Ok (Some rd), l') ∧ lg_overlays l' = lg_overlays l ∧
      lg_next_record_id l' = lg_next_record_id l ∧ at_record r rest rd ∧ rd_validate rd = v ∧
      ∀ rd', rd_stream rd' = rest → log_holds (put_back rd' l') ((concat old ++ done) ++ [r]) rs')).
  { intros rg l0 q qs H0 E0 Ho Hnx Heq. rewrite !app_assoc, <-Heq, <-!app_assoc. assert (Hrq : Forall (λ r, in_range 64 r.1) q).
    { rewrite app_assoc, <-Heq, <-app_assoc in Hrange. by apply Forall_app in Hrange as [? _]. }
    destruct (read_record_holds v rg l0 _ _ _ _ _ H0 E0 Hrq) as [(l' & E & H1 & H2 & H3)|(r & q' & rest & rd & -> & E & Hat & Hv & Hback)]; [left|right].
    - exists l'. by rewrite H2, H3.
    - exists r, (q' ++ concat qs ++ last), rest, rd, (put_back rd l0). assert (lg_overlays (put_back rd l0) = lg_overlays l0 ∧
        lg_next_record_id (put_back rd l0) = lg_next_record_id l0) as [-> ->] by (unfold put_back; by rewrite E0). rewrite <-app_assoc. done. }
  unfold Log_read_next. destruct (lg_reading l) as [rg|] eqn:Er; [by apply (Hread rg l now queued)|].
  destruct Hh as [Ho Hn Hq Hl Hr]. rewrite Er in Hn. destruct Hn as [-> ->]. inversion Hq as [E1 E2|id q qs queued' Hid Hqs E1 E2].
  - left. exists l. split_and!; try done. exists old, [], [], [], last. split_and!; try done. split; [done|by rewrite Er|by rewrite <-E1|done|done].
  - subst queued. apply (Hread _ _ q queued'); try done; by split.
Qed.

(** ** Writing *)
Lemma activate_files l a l1 : log_ok l → activate l = (a, l1) →
  (∀ j, file_of l1 j = file_of l j) ∧ match lg_appending l with Some a' => a' = a | None => file_of l (ap_id a) = [] end.
Proof.
  intros [H1 H2 H3 H4 H5 H6]. unfold activate. destruct (lg_appending l) as [a0|] eqn:Ea; [by intros [= <- <-]|].
  destruct (lg_pool l) as [|id pool] eqn:Ep; intros [= <- <-].
  - split; [intros j; unfold file_of at 1; simpl; rewrite file_of_insert; by case_decide as E; [rewrite E|]|]. simpl. unfold file_of.
    destruct (lg_disk l !! lg_next_log_id l) eqn:E; [|done]. exfalso. assert (Hin : lg_next_log_id l ∈ log_ids l) by (apply H2; by rewrite E).
    apply H4 in Hin. lia.
  - split; [done|]. apply H3. by left.
Qed.

(** The file being written is not one of the others. *)
Lemma appending_alone l a : log_ok l → lg_appending l = Some a → (ap_id a ∉ lg_cleanup l) ∧ (ap_id a ∉ reading_id l).
Proof.
  intros [H1 _ _ _ _ _] Ha. unfold log_ids, appending_id in H1. rewrite Ha in H1. rewrite !NoDup_app in H1.
  destruct H1 as (_ & _ & _ & Hc & _ & _ & _ & _ & _ & Har & _). split; [intros Hin; apply (Hc _ Hin)|intros Hin; apply (Har (ap_id a))]; set_solver.
Qed.
Lemma activate_same l a l1 : activate l = (a, l1) → lg_cleanup l1 = lg_cleanup l ∧ lg_replay l1 = lg_replay l.
Proof.
  unfold activate. destruct (lg_appending l); [by intros [= <- <-]|]. by destruct (lg_pool l); intros [= <- <-].
Qed.

Lemma end_record_holds is_ vs c l kept rs :
  log_ok l → lg_next_log_id l < 2 ^ 32 - 1 → record_id c + 1 = lg_next_record_id l → dropped_tables c = [] → log_holds l kept rs →
  ∃ n l', Log_end_record crc32 is_ vs c l = (Ok n, l') ∧ log_ok l' ∧ lg_overlays l' = end_record_overlays c (lg_overlays l) ∧
    lg_next_record_id l' = lg_next_record_id l ∧ log_holds l' kept (rs ++ [(record_id c, index_part is_ ++ value_part vs)]).
Proof.
  intros Hl Hb Hid Hdrop (old & done & now & queued & last & [Ho0 Hn Hq Hlast Hrep] & -> & ->).
  destruct (Log_end_record crc32 is_ vs c l) as [on l'] eqn:E. pose proof (proj1 (end_record_ok crc32 is_ vs c l on l' Hl Hb E)) as Hl'.
  unfold Log_end_record in E. rewrite bool_decide_true in E by done. change (negb true) with false in E. cbv iota in E.
  destruct (activate l) as [a l1] eqn:Ea. destruct (activate_ok l a l1 Hl Hb Ea) as (Hl1 & Ha & Ho & Hrd & Hqq & Hnx & _).
  destruct (activate_files l a l1 Hl Ea) as [Hf Ha0]. destruct (appending_apart l1 a Hl1 Ha) as [Hnq _].
  rewrite Hdrop, flush_record in E. set (r := (record_id c, _)) in *. injection E as <- <-.
  rewrite (lo_size _ Hl1 _ Ha), Nat2Z.id, write_from_end in *. set (l2 := mkLog _ _ _ _ _ _ _ _ _ _ _) in *.
  assert (Hf2 : ∀ j, file_of l2 j = if decide (ap_id a = j) then file_of l (ap_id a) ++ record_bytes r else file_of l j).
  { intros j. unfold file_of at 1. simpl. rewrite file_of_insert, !Hf. done. }
  eexists _, l2. split; [done|]. split_and!; [done|simpl; by rewrite Ho|simpl; by rewrite Hnx|].
  exists old, done, now, queued, (last ++ [r]). split_and!; [|done|by rewrite <-!app_assoc].
  assert (Hother : ∀ ids rss, Forall2 (λ id rs, file_of l id = file_bytes rs) ids rss → ap_id a ∉ ids → Forall2 (λ id rs, file_of l2 id = file_bytes rs) ids rss).
  { intros ids rss HF Hni. induction HF as [|id q ids qs Hid0 HF IH]; constructor; [rewrite Hf2, decide_False; [done|set_solver]|]. apply IH. set_solver. }
  destruct (activate_same l a l1 Ea) as [Hcl Hrp]. split.
  - change (lg_cleanup l2) with (lg_cleanup l1). rewrite Hcl. apply Hother; [done|]. rewrite <-Hcl. by apply (appending_alone l1 a Hl1 Ha).
  - change (lg_reading l2) with (lg_reading l1). rewrite Hrd. destruct (lg_reading l) as [rg|] eqn:Erg; [|done]. destruct Hn as [H1 H2].
    split; [done|]. rewrite Hf2, decide_False; [done|]. intros He. apply (appending_alone l1 a Hl1 Ha). unfold reading_id. rewrite Hrd, He. by left.
  - change (lg_read_queue l2) with (lg_read_queue l1). rewrite Hqq. apply Hother; [done|]. by rewrite <-Hqq.
  - change (file_of l2 (ap_id a) = file_bytes (last ++ [r])). rewrite Hf2, decide_True, file_bytes_app by done. f_equal; [|symmetry; apply app_nil_r].
    destruct (lg_appending l) as [a'|]; [by subst a'|]. by rewrite Ha0, Hlast.
  - change (lg_replay l2) with (lg_replay l1). by rewrite Hrp.
Qed.

(** ** Handing files over, and cleaning *)
Lemma flush_one_holds n l b l' kept rs : flush_one n l = (b, l') → log_holds l kept rs → log_holds l' kept rs.
Proof.
  intros E (old & done & now & queued & last & Hh & -> & ->). unfold flush_one in E. case_bool_decide; injection E as <- <-; [|by exists old, done, now, queued, last].
  destruct (lg_appending l) as [a|] eqn:Ea; [|by exists old, done, now, queued, last]. destruct Hh as [Ho Hn Hq Hlast Hrep]. rewrite Ea in Hlast.
  exists old, done, now, (queued ++ [last]), []. split_and!; [|done|rewrite concat_app; simpl; by rewrite !app_nil_r]. split; simpl; try done.
  apply Forall2_app; [done|]. by constructor.
Qed.

(** Cleaning forgets records that are enacted. *)
Lemma clean_logs_holds n l b l' kept rs :
  log_ok l → clean_logs n l = (b, l') → log_holds l kept rs → ∃ gone kept', kept = gone ++ kept' ∧ log_holds l' kept' rs.
Proof.
  intros Hl E (old & done & now & queued & last & [Ho Hn Hq Hlast Hrep] & -> & ->).
  set (k := (n `min` length (lg_cleanup l))%nat). exists (concat (take k old)), (concat (drop k old) ++ done).
  split; [by rewrite app_assoc, <-concat_app, take_drop|]. exists (drop k old), done, now, queued, last. split_and!; try done.
  assert (Hfile : ∀ id, id ∈ drop k (lg_cleanup l) ++ lg_read_queue l ++ appending_id l ++ reading_id l → file_of l' id = file_of l id).
  { intros id Hin. apply (clean_logs_ok n l b l' Hl E). rewrite Hrep. exact Hin. }
  unfold clean_logs in E. injection E as <- <-. fold k in Hfile |- *. set (l' := mkLog _ _ _ _ _ _ _ _ _ _ _) in *.
  assert (Hall : ∀ ids rss, (∀ id, id ∈ ids → file_of l' id = file_of l id) → Forall2 (λ id rs, file_of l id = file_bytes rs) ids rss →
    Forall2 (λ id rs, file_of l' id = file_bytes rs) ids rss).
  { intros ids rss Hx HF. induction HF as [|id q ids qs Hid HF IH]; constructor; [rewrite Hx; [done|by left]|]. apply IH. set_solver. }
  split.
  - change (lg_cleanup l') with (drop k (lg_cleanup l)). apply Hall; [set_solver|]. by apply Forall2_drop.
  - change (lg_reading l') with (lg_reading l). destruct (lg_reading l) as [rg|] eqn:Er; [|done]. rewrite Hfile; [done|]. unfold reading_id. rewrite Er. set_solver.
  - change (lg_read_queue l') with (lg_read_queue l). apply Hall; [set_solver|done].
  - change (lg_appending l') with (lg_appending l). destruct (lg_appending l) as [a|] eqn:Ea; [|done]. rewrite Hfile; [done|]. unfold appending_id. rewrite Ea. set_solver.
  - done.
Qed.
End records.
