(* ===== verification/LogReopen.v ===== *)
(** * Opening the files of the log

    After a crash the files are found in the order of the directory.  Sorted by the number of
    their first record they are in the order in which they were written; the last of them may
    end in the middle of a record. *)

From stdpp Require Import sorting.
From S2P Require Import Prelude IndexEntry IndexChunk Log LogFiles LogQueue RecordItems LogRecords.

(** ** Sorting *)
Section sort.
Context {A : Type} (key : A → Z).

Lemma insert_by_sorted x l : StronglySorted (λ a b, key a ≤ key b) l → StronglySorted (λ a b, key a ≤ key b) (insert_by key x l).
Proof.
  induction 1 as [|y l Hl IH Hy]; simpl; [by repeat constructor|]. case_bool_decide as Hk.
  - constructor; [by constructor|]. constructor; [done|]. eapply Forall_impl; [done|]. simpl. lia.
  - constructor; [done|]. rewrite insert_by_perm. constructor; [lia|done].
Qed.
Lemma sort_by_key_sorted l : StronglySorted (λ a b, key a ≤ key b) (sort_by_key key l).
Proof. induction l as [|x l IH]; [constructor|]. by apply insert_by_sorted. Qed.

Lemma sorted_unique l l' :
  StronglySorted (λ a b, key a < key b) l → StronglySorted (λ a b, key a ≤ key b) l' → l' ≡ₚ l → l' = l.
Proof.
  intros Hl. revert l'. induction Hl as [|x l Hl IH Hx]; intros l' Hl' Hp; [by apply Permutation_nil_r in Hp|].
  destruct l' as [|y l']; [by apply Permutation_nil_cons in Hp|]. apply StronglySorted_inv in Hl' as [Hl' Hy].
  assert (y = x) as ->.
  { assert (Hyl : y ∈ x :: l) by (rewrite <-Hp; by left). apply elem_of_cons in Hyl as [?|Hyl]; [done|]. rewrite Forall_forall in Hx. specialize (Hx _ Hyl).
    assert (Hxl : x ∈ y :: l') by (rewrite Hp; by left). apply elem_of_cons in Hxl as [?|Hxl]; [done|]. rewrite Forall_forall in Hy. specialize (Hy _ Hxl). simpl in *. lia. }
  f_equal. apply IH; [done|]. by apply Permutation_cons_inv in Hp.
Qed.
Lemma sort_by_key_unique l l' : StronglySorted (λ a b, key a < key b) l → l' ≡ₚ l → sort_by_key key l' = l.
Proof. intros Hl Hp. apply sorted_unique; [done|apply sort_by_key_sorted|]. by rewrite sort_by_key_perm. Qed.
End sort.

(** ** The first record of a file *)
Lemma first_record b rid rest : in_range 64 rid → b = le_bytes 1 BEGIN_RECORD ++ le_bytes 8 rid ++ rest → open_log_file b = Ok (Some rid).
Proof.
  intros Hr ->. unfold open_log_file. rewrite bool_decide_false by (rewrite length_app, le_bytes_length; lia).
  unfold read_first_record_id. rewrite app_assoc, (read_exact_app 9) by (by rewrite length_app, !le_bytes_length). cbn [mbind outcome_bind].
  rewrite drop_app_length' by (by rewrite le_bytes_length). by rewrite in_range_le_val.
Qed.
Lemma short_file b : (length b < 9)%nat → open_log_file b = Ok None.
Proof.
  intros Hb. unfold open_log_file. case_bool_decide; [done|]. unfold read_first_record_id, read_exact. by rewrite decide_False by lia.
Qed.

Lemma sorted_fmap {A B} (f : A → B) (R : B → B → Prop) l : StronglySorted (λ a b, R (f a) (f b)) l → StronglySorted R (f <$> l).
Proof. induction 1 as [|x l Hl IH Hx]; [constructor|]. rewrite fmap_cons. constructor; [done|]. by apply Forall_fmap. Qed.
Lemma omap_nodup {A B} (f : A → option B) (l : list A) :
  NoDup l → (∀ a a' b, f a = Some b → f a' = Some b → a = a') → NoDup (omap f l).
Proof.
  intros Hl Hf. induction Hl as [|x l Hx Hl IH]; [constructor|]. simpl. destruct (f x) as [b|] eqn:E; [|done]. constructor; [|done].
  intros (a & Ha & Hb)%list_elem_of_omap. apply Hx. by rewrite (Hf x a b).
Qed.

(** ** Opening *)
(** What [open_logs] makes of each file. *)
Lemma open_logs_run (first : Z → option Z) files : ∀ disk logs m,
  NoDup files → (∀ id, id ∈ files → open_log_file (default [] (disk !! id)) = Ok (first id)) →
  ∃ m' disk', open_logs files disk logs m = Ok (logs ++ omap (λ id, (λ rid, (id, rid)) <$> first id) files, m', disk') ∧
    ∀ id, disk' !! id = if decide (id ∈ files ∧ first id = None) then None else disk !! id.
Proof.
  induction files as [|f files IH]; intros disk logs m Hnd Hf.
  { exists m, disk. split; [simpl; by rewrite app_nil_r|]. intros id. rewrite decide_False; [done|]. intros [H _]. by apply elem_of_nil in H. }
  apply NoDup_cons in Hnd as [Hnf Hnd]. cbn [open_logs]. rewrite (Hf f) by (by left). cbn [mbind outcome_bind]. destruct (first f) as [rid|] eqn:Ef.
  - destruct (IH disk (logs ++ [(f, rid)]) (Z.max m f) Hnd) as (m' & disk' & E & Hd); [intros; apply Hf; by right|].
    exists m', disk'. rewrite E. split; [do 3 f_equal; rewrite <-app_assoc; simpl; by rewrite Ef|]. intros id. rewrite Hd.
    apply decide_ext. rewrite elem_of_cons. naive_solver.
  - destruct (IH (delete f disk) logs m Hnd) as (m' & disk' & E & Hd).
    { intros id Hid. rewrite lookup_delete_ne by (intros ->; done). apply Hf. by right. }
    exists m', disk'. rewrite E. split; [do 3 f_equal; simpl; by rewrite Ef|]. intros id. rewrite Hd, lookup_delete.
    repeat case_decide; subst; try done; exfalso; set_solver.
Qed.

(** ** The files after a crash *)
Section disk.
Context (crc32 : bytes → Z).

(** The beginning of a record. *)
Definition torn (rid : Z) (tail : bytes) : Prop := ∃ items rest, rest ≠ [] ∧ record_bytes crc32 (rid, items) = tail ++ rest.

(** A file: its number, its records, and what follows them. *)
Abbreviation logfile := (Z * (list rec * bytes))%type.
Definition lf_records (e : logfile) : list rec := e.2.1.
Definition lf_tail (e : logfile) : bytes := e.2.2.
Definition lf_bytes (e : logfile) : bytes := file_bytes crc32 (lf_records e) ++ lf_tail e.

Definition lf_live (e : logfile) : bool := negb (bool_decide (lf_records e = [])) || bool_decide (9 ≤ length (lf_tail e))%nat.
Definition lf_first (next : Z) (e : logfile) : Z := match lf_records e with r :: _ => r.1 | [] => next end.
Definition live_files (es : list logfile) : list logfile := filter (λ e, lf_live e = true) es.

Record on_disk (files : list Z) (disk : gmap Z bytes) (es : list logfile) (first next : Z) : Prop := {
  od_files : NoDup files ∧ (∀ id, id ∈ files ↔ is_Some (disk !! id)) ∧ ∀ id, id ∈ files → 0 ≤ id < 2 ^ 32 - 1;
  od_entries : NoDup es.*1 ∧ ∀ e, e ∈ es → disk !! e.1 = Some (lf_bytes e);
  od_others : ∀ id, id ∈ files → id ∉ es.*1 → disk !! id = Some [];
  od_ids : 0 ≤ first ∧ next < 2 ^ 64 ∧ next = first + Z.of_nat (length (es ≫= lf_records)) ∧
    (es ≫= lf_records).*1 = seqZ first (Z.of_nat (length (es ≫= lf_records)));
  od_tails : ∀ es1 e es2, es = es1 ++ e :: es2 → lf_tail e ≠ [] → es2 = [] ∧ torn next (lf_tail e);
}.

Lemma torn_header rid tail : torn rid tail → (9 ≤ length tail)%nat → ∃ rest, tail = le_bytes 1 BEGIN_RECORD ++ le_bytes 8 rid ++ rest.
Proof.
  intros (items & rest & _ & E) Hl. exists (drop 9 tail). assert (Ht : take 9 tail = le_bytes 1 BEGIN_RECORD ++ le_bytes 8 rid).
  { apply (f_equal (take 9)) in E. rewrite take_app_le in E by lia. rewrite <-E. unfold record_bytes, record_items.
    rewrite <-!app_assoc, app_assoc, take_app_length' by (by rewrite length_app, !le_bytes_length). done. }
  rewrite app_assoc, <-Ht. by rewrite take_drop.
Qed.

Lemma open_entry next e : in_range 64 (lf_first next e) → (lf_tail e ≠ [] → torn next (lf_tail e)) →
  open_log_file (lf_bytes e) = Ok (if lf_live e then Some (lf_first next e) else None).
Proof.
  unfold lf_bytes, lf_live, lf_first. destruct (lf_records e) as [|r rs]; intros Hr Ht.
  - rewrite bool_decide_true by done. simpl. case_bool_decide as Hl; [|apply short_file; lia].
    destruct (torn_header next (lf_tail e)) as [rest Hrest]; [apply Ht; intros E; rewrite E in Hl; simpl in Hl; lia|done|]. by eapply first_record.
  - rewrite bool_decide_false by done. simpl. change (file_bytes crc32 (r :: rs)) with (record_bytes crc32 r ++ file_bytes crc32 rs).
    unfold record_bytes, record_items. eapply first_record; [done|]. rewrite <-!app_assoc. done.
Qed.

(** The first records of the files that are not empty are in order. *)
Lemma firsts_sorted next es : ∀ first, next = first + Z.of_nat (length (es ≫= lf_records)) →
  (es ≫= lf_records).*1 = seqZ first (Z.of_nat (length (es ≫= lf_records))) →
  (∀ es1 e es2, es = es1 ++ e :: es2 → lf_tail e ≠ [] → es2 = []) →
  StronglySorted (λ a b, lf_first next a < lf_first next b) (live_files es) ∧ Forall (λ e, first ≤ lf_first next e) (live_files es).
Proof.
  induction es as [|e es IH]; intros first Hn Hids Ht; [split; constructor|]. rewrite bind_cons in Hids, Hn. rewrite length_app in Hids, Hn.
  rewrite fmap_app, Nat2Z.inj_add, seqZ_app in Hids by lia. apply app_inj_1 in Hids as [Hids1 Hids2]; [|rewrite length_fmap, length_seqZ; lia].
  destruct (IH (first + Z.of_nat (length (lf_records e)))) as [Hs Hf]; [lia|done|intros es1 e' es2 ->; apply (Ht (e :: es1)); done|].
  unfold live_files in *. rewrite filter_cons. destruct (decide (lf_live e = true)) as [Hlive|_].
  2: { split; [done|]. eapply Forall_impl; [done|]. simpl. lia. }
  destruct (lf_records e) as [|r rs] eqn:Er.
  - assert (es = []) as ->.
    { apply (Ht [] e es eq_refl). unfold lf_live in Hlive. rewrite Er, bool_decide_true in Hlive by done. simpl in Hlive. apply bool_decide_eq_true in Hlive.
      intros E. rewrite E in Hlive. simpl in Hlive. lia. }
    split; [repeat constructor|]. repeat constructor. unfold lf_first. rewrite Er. lia.
  - assert (Hk : lf_first next e = first).
    { unfold lf_first. rewrite Er. cbn [length] in Hids1. rewrite fmap_cons, seqZ_cons in Hids1 by lia. by injection Hids1. }
    split; constructor; try done; [|lia|]; (eapply Forall_impl; [done|]); intros x; rewrite ?Hk; cbn [length]; lia.
Qed.

Section reopen.
Context {files : list Z} {disk : gmap Z bytes} {es : list logfile} {first next : Z}.
Context (Hd : on_disk files disk es first next).

Lemma first_range e : e ∈ es → in_range 64 (lf_first next e).
Proof.
  intros He. destruct (od_ids _ _ _ _ _ Hd) as (H1 & H2 & H3 & H4). unfold lf_first, in_range. destruct (lf_records e) as [|r rs] eqn:Er; [lia|].
  assert (Hin : r.1 ∈ (es ≫= lf_records).*1).
  { apply list_elem_of_fmap_2. apply list_elem_of_bind. exists e. rewrite Er. split; [by left|done]. }
  rewrite H4 in Hin. apply elem_of_seqZ in Hin. lia.
Qed.
Lemma tail_torn e : e ∈ es → lf_tail e ≠ [] → torn next (lf_tail e).
Proof. intros (es1 & es2 & He)%list_elem_of_split Ht. by apply (od_tails _ _ _ _ _ Hd es1 e es2). Qed.

(** What opening finds in a file of the directory. *)
Definition found_first (id : Z) : option Z :=
  snd <$> head (filter (λ p, p.1 = id) ((λ e : logfile, (e.1, lf_first next e)) <$> live_files es)).

Lemma found_first_Some id rid : found_first id = Some rid ↔ ∃ e, e ∈ es ∧ lf_live e = true ∧ e.1 = id ∧ lf_first next e = rid.
Proof.
  destruct (od_entries _ _ _ _ _ Hd) as [Hnd _]. unfold found_first. set (ps := _ <$> live_files es).
  assert (Hps : ∀ p, p ∈ ps ↔ ∃ e, e ∈ es ∧ lf_live e = true ∧ p = (e.1, lf_first next e)).
  { intros p. unfold ps, live_files. rewrite list_elem_of_fmap. setoid_rewrite list_elem_of_filter. naive_solver. }
  assert (Hone : ∀ e e', e ∈ es → e' ∈ es → e.1 = e'.1 → e = e').
  { intros e e' [i Hi]%list_elem_of_lookup [j Hj]%list_elem_of_lookup He.
    assert (i = j); [|congruence]. apply (NoDup_lookup _ i j e.1 Hnd); rewrite list_lookup_fmap, ?Hi, ?Hj; simpl; congruence. }
  split.
  - destruct (filter _ ps) as [|p l] eqn:Ef; [done|]. simpl. intros [= <-]. assert (Hp : p ∈ filter (λ p, p.1 = id) ps) by (rewrite Ef; by left).
    apply list_elem_of_filter in Hp as [Hp1 Hp2]. apply Hps in Hp2 as (e & He & Hl & ->). exists e. done.
  - intros (e & He & Hl & <- & <-). assert (Hp : (e.1, lf_first next e) ∈ filter (λ p, p.1 = e.1) ps).
    { apply list_elem_of_filter. split; [done|]. apply Hps. eauto. }
    destruct (filter (λ p, p.1 = e.1) ps) as [|p l] eqn:Ef; [by apply elem_of_nil in Hp|]. simpl. f_equal.
    assert (Hp' : p ∈ filter (λ p, p.1 = e.1) ps) by (rewrite Ef; by left). apply list_elem_of_filter in Hp' as [Hp1 Hp2].
    apply Hps in Hp2 as (e' & He' & Hl' & ->). simpl in *. by rewrite (Hone e' e).
Qed.

Lemma found_open id : id ∈ files → open_log_file (default [] (disk !! id)) = Ok (found_first id).
Proof.
  intros Hid. destruct (decide (id ∈ es.*1)) as [Hin|Hin].
  - apply list_elem_of_fmap in Hin as (e & -> & He). destruct (od_entries _ _ _ _ _ Hd) as [_ Hc]. rewrite (Hc e He). simpl.
    rewrite (open_entry next e (first_range e He) (tail_torn e He)). f_equal. symmetry. destruct (lf_live e) eqn:El.
    + apply found_first_Some. eauto.
    + destruct (found_first e.1) as [rid|] eqn:Ef; [|done]. apply found_first_Some in Ef as (e' & He' & Hl' & Heq & _).
      assert (e' = e) as ->; [|congruence]. destruct (od_entries _ _ _ _ _ Hd) as [Hnd _].
      apply list_elem_of_lookup in He as [i Hi]. apply list_elem_of_lookup in He' as [j Hj].
      assert (j = i); [|congruence]. apply (NoDup_lookup _ j i e.1 Hnd); rewrite list_lookup_fmap, ?Hi, ?Hj; simpl; congruence.
  - rewrite (od_others _ _ _ _ _ Hd id Hid Hin). simpl. rewrite short_file by (simpl; lia). f_equal.
    destruct (found_first id) as [rid|] eqn:Ef; [|done]. apply found_first_Some in Ef as (e & He & _ & <- & _). destruct Hin. by apply list_elem_of_fmap_2.
Qed.

Lemma reopen_run : ∃ l0, Log_open files disk = Ok l0 ∧ log_ok l0 ∧ lg_replay l0 = (λ e, (e.1, lf_first next e)) <$> live_files es ∧
  lg_overlays l0 = LogOverlays_default ∧ lg_reading l0 = None ∧ lg_read_queue l0 = [] ∧ lg_appending l0 = None ∧ lg_next_record_id l0 = 1 ∧
  ∀ e, e ∈ live_files es → file_of l0 e.1 = lf_bytes e.
Proof.
  destruct (od_files _ _ _ _ _ Hd) as (H1 & H2 & H3). destruct (od_entries _ _ _ _ _ Hd) as [Hnd Hc]. destruct (od_ids _ _ _ _ _ Hd) as (G1 & G2 & G3 & G4).
  destruct (open_logs_run found_first files disk [] 0 H1 (λ id, found_open id)) as (m' & disk' & E & Hdisk).
  assert (Eo : ∃ l0, Log_open files disk = Ok l0 ∧ lg_replay l0 = sort_by_key snd (omap (λ id, (λ rid, (id, rid)) <$> found_first id) files) ∧
    lg_overlays l0 = LogOverlays_default ∧ lg_reading l0 = None ∧ lg_read_queue l0 = [] ∧ lg_appending l0 = None ∧ lg_next_record_id l0 = 1 ∧ lg_disk l0 = disk').
  { unfold Log_open. rewrite E. simpl. eexists. split; [done|]. done. }
  destruct Eo as (l0 & Eo & Hr & Ho & Hrd & Hq & Ha & Hn & Hdk). exists l0. split_and!; try done; [by apply (open_ok files disk l0)| |].
  - rewrite Hr. apply sort_by_key_unique.
    + apply sorted_fmap. apply (firsts_sorted next es first); try done. intros es1 e es2 He Ht. by apply (od_tails _ _ _ _ _ Hd es1 e es2).
    + apply NoDup_Permutation.
      * apply omap_nodup; [done|]. intros a a' b. destruct (found_first a), (found_first a'); naive_solver.
      * apply NoDup_fmap_2_strong; [|apply NoDup_filter; by eapply NoDup_fmap_1]. intros e e' [_ He]%list_elem_of_filter [_ He']%list_elem_of_filter [= Heq _].
        apply list_elem_of_lookup in He as [i Hi]. apply list_elem_of_lookup in He' as [j Hj].
        assert (i = j); [|congruence]. apply (NoDup_lookup _ i j e.1 Hnd); rewrite list_lookup_fmap, ?Hi, ?Hj; simpl; congruence.
      * intros [id rid]. rewrite list_elem_of_omap, list_elem_of_fmap. setoid_rewrite list_elem_of_filter. split.
        -- intros (id' & Hid & Hs). destruct (found_first id') as [rid'|] eqn:Ef; [|done]. injection Hs as -> ->.
           apply found_first_Some in Ef as (e & He & Hl & <- & <-). eauto.
        -- intros (e & [= -> ->] & Hl & He). exists e.1. split; [apply H2; rewrite (Hc e He); eauto|].
           assert (found_first e.1 = Some (lf_first next e)) as -> by (apply found_first_Some; eauto). done.
  - intros e [Hl He]%list_elem_of_filter. unfold file_of. rewrite Hdk, Hdisk, decide_False, (Hc e He); [done|].
    intros [_ Hf]. assert (found_first e.1 = Some (lf_first next e)) by (apply found_first_Some; eauto). congruence.
Qed.
End reopen.

(** ** From the log to its files *)
(** The directory when a record that was being written is cut off after [tail]. *)
Definition crash_disk (l : LogState) (tail : bytes) : gmap Z bytes :=
  match lg_appending l with
  | Some a => <[ap_id a := file_of l (ap_id a) ++ tail]> (lg_disk l)
  | None => lg_disk l
  end.

Definition whole_files (ids : list Z) (rss : list (list rec)) : list logfile := zip_with (λ id rs, (id, (rs, []))) ids rss.
Definition last_file (l : LogState) (last : list rec) (tail : bytes) : list logfile :=
  match lg_appending l with
  | Some a => [(ap_id a, (last, tail))]
  | None => []
  end.

Lemma whole_files_ids ids rss : length ids = length rss → (whole_files ids rss).*1 = ids ∧ whole_files ids rss ≫= lf_records = concat rss ∧
  Forall (λ e, lf_tail e = []) (whole_files ids rss).
Proof.
  revert rss. induction ids as [|id ids IH]; intros [|rs rss] Hl; try done. simpl in Hl. destruct (IH rss) as (H1 & H2 & H3); [lia|].
  unfold whole_files in *. cbn [zip_with]. rewrite fmap_cons, bind_cons, H1, H2. split_and!; try done. by constructor.
Qed.
Lemma whole_files_elem ids rss e l : Forall2 (λ id rs, file_of l id = file_bytes crc32 rs) ids rss → e ∈ whole_files ids rss → e.1 ∈ ids ∧ file_of l e.1 = lf_bytes e.
Proof.
  intros HF He. unfold whole_files in He. apply elem_of_lookup_zip_with in He as (i & id & rs & -> & Hi & Hr). split; [by eapply list_elem_of_lookup_2|].
  change (file_of l id = file_bytes crc32 rs ++ []). rewrite app_nil_r. destruct (Forall2_lookup_l _ _ _ _ _ HF Hi) as (rs' & Hrs & E).
  assert (rs' = rs) as -> by congruence. done.
Qed.

Lemma last_only (pre post : list logfile) : Forall (λ e, lf_tail e = []) pre → (length post ≤ 1)%nat →
  ∀ es1 e es2, pre ++ post = es1 ++ e :: es2 → lf_tail e ≠ [] → es2 = [] ∧ e ∈ post.
Proof.
  intros Hp Hl. induction Hp as [|x pre Hx Hp IH]; intros es1 e es2 E Ht.
  - destruct post as [|y [|]]; [by destruct es1| |simpl in Hl; lia]. destruct es1 as [|? es1]; [injection E as <- <-; split; [done|by left]|].
    by destruct es1.
  - destruct es1 as [|z es1]; injection E as -> E; [done|]. by apply (IH es1 e es2).
Qed.

Section crash.
Context {l : LogState} {old : list (list rec)} {done now : list rec} {queued : list (list rec)} {last : list rec} (tail : bytes).
Context (Hok : log_ok l) (Hh : holding crc32 l old done now queued last).

Definition read_files : list logfile :=
  whole_files (lg_cleanup l) old ++ match lg_reading l with Some rg => [(rg_id rg, (done ++ now, []))] | None => [] end ++ whole_files (lg_read_queue l) queued.
Abbreviation es := (read_files ++ last_file l last tail).

Lemma read_files_facts : read_files.*1 = lg_cleanup l ++ reading_id l ++ lg_read_queue l ∧ read_files ≫= lf_records = (concat old ++ done) ++ now ++ concat queued ∧
  Forall (λ e, lf_tail e = []) read_files ∧ ∀ e, e ∈ read_files → file_of l e.1 = lf_bytes e.
Proof.
  destruct Hh as [Ho Hn Hq Hl Hr]. destruct (whole_files_ids (lg_cleanup l) old (Forall2_length _ _ _ Ho)) as (O1 & O2 & O3).
  destruct (whole_files_ids (lg_read_queue l) queued (Forall2_length _ _ _ Hq)) as (Q1 & Q2 & Q3).
  unfold read_files. set (mid := match lg_reading l with Some rg => [(rg_id rg, (done ++ now, []))] | None => [] end : list logfile).
  assert (Hmid : mid.*1 = reading_id l ∧ mid ≫= lf_records = done ++ now ∧ Forall (λ e, lf_tail e = []) mid).
  { unfold mid, reading_id. destruct (lg_reading l); [simpl; rewrite app_nil_r; by repeat constructor|]. destruct Hn as [-> ->]. by repeat constructor. }
  destruct Hmid as (M1 & M2 & M3). split_and!.
  - by rewrite !fmap_app, O1, M1, Q1.
  - rewrite !bind_app, O2, M2, Q2. by rewrite <-!app_assoc.
  - by repeat apply Forall_app_2.
  - intros e. rewrite !elem_of_app. intros [He|[He|He]]; [by apply (whole_files_elem _ _ e l Ho)| |by apply (whole_files_elem _ _ e l Hq)].
    unfold mid in He. destruct (lg_reading l) as [rg|]; [|by apply elem_of_nil in He]. apply list_elem_of_singleton in He as ->.
    unfold lf_bytes. simpl. rewrite app_nil_r. apply Hn.
Qed.

Lemma last_file_facts : last_file l last tail ≫= lf_records = last ∧ (length (last_file l last tail) ≤ 1)%nat ∧
  ∀ e, e ∈ last_file l last tail → lf_tail e = tail ∧ crash_disk l tail !! e.1 = Some (lf_bytes e).
Proof.
  destruct Hh as [_ _ _ Hl _]. unfold last_file, crash_disk. destruct (lg_appending l) as [a|].
  - simpl. rewrite app_nil_r. split_and!; try done. intros e ->%list_elem_of_singleton. split; [done|]. rewrite lookup_insert_eq.
    unfold lf_bytes. cbn [lf_records lf_tail fst snd]. by rewrite Hl.
  - subst last. simpl. split_and!; [done|lia|]. intros e He. by apply elem_of_nil in He.
Qed.

Lemma crash_ids : NoDup es.*1 ∧ (∀ id, id ∈ read_files.*1 → crash_disk l tail !! id = lg_disk l !! id) ∧
  ∀ id, is_Some (crash_disk l tail !! id) → id ∈ es.*1 ∨ (id ∈ lg_pool l ∧ crash_disk l tail !! id = lg_disk l !! id).
Proof.
  destruct read_files_facts as (Hids & _). destruct Hok as [N1 N2 N3 N4 N5 N6]. unfold log_ids in N1, N2, N4. rewrite (hg_replay _ _ _ _ _ _ _ Hh) in N1, N2, N4.
  rewrite fmap_app, Hids. unfold last_file, crash_disk. destruct (lg_appending l) as [a|] eqn:Ea; unfold appending_id in *; rewrite Ea in *.
  - apply NoDup_app in N1 as (_ & Np & N1). split_and!.
    + assert (Hperm : (lg_cleanup l ++ reading_id l ++ lg_read_queue l) ++ [ap_id a] ≡ₚ lg_cleanup l ++ lg_read_queue l ++ (@nil (Z * Z)).*1 ++ [ap_id a] ++ reading_id l)
        by solve_Permutation. simpl fmap. by rewrite Hperm.
    + intros id Hin. apply lookup_insert_ne. intros <-. rewrite !NoDup_app in N1. set_solver.
    + intros id. rewrite lookup_insert. case_decide as He; [intros _; left; subst id; set_solver|]. rewrite <-N2. rewrite !elem_of_app. set_solver.
  - apply NoDup_app in N1 as (_ & Np & N1). simpl in N1, N2.
    assert (Hperm : lg_cleanup l ++ reading_id l ++ lg_read_queue l ≡ₚ lg_cleanup l ++ lg_read_queue l ++ reading_id l) by solve_Permutation.
    simpl fmap. rewrite app_nil_r. split_and!; [by rewrite Hperm|done|]. intros id. rewrite <-N2. rewrite !elem_of_app. set_solver.
Qed.

Lemma crash_on_disk files first next :
  lg_next_log_id l < 2 ^ 32 - 1 → NoDup files → (∀ id, id ∈ files ↔ is_Some (crash_disk l tail !! id)) → (tail ≠ [] → torn next tail) →
  let all := (concat old ++ done) ++ now ++ concat queued ++ last in
  0 ≤ first → next < 2 ^ 64 → next = first + Z.of_nat (length all) → all.*1 = seqZ first (Z.of_nat (length all)) →
  on_disk files (crash_disk l tail) es first next ∧ es ≫= lf_records = all.
Proof.
  intros Hnx Hnd Hfiles Htorn all H0 H1 Hnext Hids. destruct read_files_facts as (R1 & R2 & R3 & R4). destruct last_file_facts as (L1 & L2 & L3).
  destruct crash_ids as (C1 & C2 & C3). assert (Hrec : es ≫= lf_records = all) by (rewrite bind_app, R2, L1; unfold all; by rewrite <-!app_assoc).
  assert (Hlog : ∀ id, id ∈ read_files.*1 ∨ id ∈ lg_pool l → is_Some (lg_disk l !! id) ∧ 0 ≤ id < 2 ^ 32 - 1).
  { intros id Hid. assert (id ∈ log_ids l) as Hin by (unfold log_ids; rewrite R1 in Hid; set_solver).
    split; [by apply (lo_disk _ Hok)|]. apply (lo_next _ Hok) in Hin. lia. }
  split; [|done]. split; rewrite ?Hrec; try done.
  - split_and!; [done|done|]. intros id Hid. apply Hfiles, C3 in Hid as [Hid|[Hid _]]; [|by apply Hlog; right].
    rewrite fmap_app, elem_of_app in Hid. destruct Hid as [Hid|Hid]; [by apply Hlog; left|]. unfold last_file in Hid. pose proof (lo_bound _ Hok).
    destruct (lg_appending l) as [a|] eqn:Ea.
    + apply list_elem_of_singleton in Hid as ->. assert (Hin : ap_id a ∈ log_ids l) by (unfold log_ids, appending_id; rewrite Ea; set_solver).
      apply (lo_next _ Hok) in Hin. simpl. lia.
    + by apply elem_of_nil in Hid.
  - split; [done|]. intros e [He|He]%elem_of_app; [|by apply L3]. assert (Hin : e.1 ∈ read_files.*1) by (by apply list_elem_of_fmap_2).
    rewrite C2 by done. rewrite <-(R4 e He). unfold file_of. destruct (Hlog e.1 (or_introl Hin)) as [[b ->] _]. done.
  - intros id Hid Hno. apply Hfiles, C3 in Hid as [Hid|[Hid ->]]; [done|]. pose proof (lo_pool _ Hok id Hid) as Hf. unfold file_of in Hf.
    destruct (Hlog id (or_intror Hid)) as [[b Eb] _]. rewrite Eb in Hf |- *. simpl in Hf. by rewrite Hf.
  - intros es1 e es2 E Ht. destruct (last_only _ _ R3 L2 es1 e es2 E Ht) as [-> He]. destruct (L3 e He) as [Hte _]. split; [done|]. rewrite Hte in *. by apply Htorn.
Qed.
End crash.

(** The log when a record is being written: the file to append to is known. *)
Definition writing (l : LogState) (tail : bytes) : LogState := if bool_decide (tail = []) then l else (activate l).2.

Lemma writing_holds l tail kept rs : log_ok l → lg_next_log_id l < 2 ^ 32 - 2 → log_holds crc32 l kept rs →
  log_ok (writing l tail) ∧ log_holds crc32 (writing l tail) kept rs ∧ lg_next_log_id (writing l tail) < 2 ^ 32 - 1.
Proof.
  intros Hl Hn Hh. unfold writing. case_bool_decide; [split_and!; [done|done|lia]|].
  destruct (activate l) as [a l1] eqn:Ea. destruct (activate_ok l a l1 Hl ltac:(lia) Ea) as (Hl1 & Ha & Ho & Hrd & Hq & _).
  destruct (activate_files l a l1 Hl Ea) as [Hf Ha0]. destruct (activate_same l a l1 Ea) as [Hc Hrp]. simpl. split_and!; [done| |].
  - destruct Hh as (old & done & now & queued & last & [H1 H2 H3 H4 H5] & -> & ->). exists old, done, now, queued, last. split_and!; try done.
    split; rewrite ?Hc, ?Hrd, ?Hq, ?Hrp; try done.
    + eapply Forall2_impl; [exact H1|]. intros. by rewrite Hf.
    + destruct (lg_reading l); [|done]. by rewrite Hf.
    + eapply Forall2_impl; [exact H3|]. intros. by rewrite Hf.
    + rewrite Ha, Hf. destruct (lg_appending l) as [a'|]; [by subst a'|]. by rewrite Ha0, H4.
  - unfold activate in Ea. pose proof (lo_bound _ Hl). destruct (lg_appending l); [injection Ea as <- <-; lia|]. destruct (lg_pool l); injection Ea as <- <-; simpl; [|lia].
    unfold wrap. pose proof (Z.mod_le (lg_next_log_id l + 1) (2 ^ 32) ltac:(lia) ltac:(lia)). lia.
Qed.

Lemma live_records es : live_files es ≫= lf_records = es ≫= lf_records.
Proof.
  unfold live_files. induction es as [|e es IH]; [done|]. rewrite filter_cons. case_decide as Hl; rewrite !bind_cons, ?IH; [done|].
  unfold lf_live in Hl. destruct (lf_records e); [done|]. by rewrite bool_decide_false in Hl.
Qed.
Lemma live_first next first e es : lf_live e = true → (lf_tail e ≠ [] → es = []) → next = first + Z.of_nat (length ((e :: es) ≫= lf_records)) →
  ((e :: es) ≫= lf_records).*1 = seqZ first (Z.of_nat (length ((e :: es) ≫= lf_records))) → lf_first next e = first.
Proof.
  rewrite bind_cons. unfold lf_live, lf_first. destruct (lf_records e) as [|r rs].
  - rewrite bool_decide_true by done. simpl. intros Hl%bool_decide_eq_true Ht ->. rewrite Ht; [simpl; lia|]. intros E. rewrite E in Hl. simpl in Hl. lia.
  - intros _ _ _. rewrite <-app_comm_cons, fmap_cons. cbn [length]. rewrite seqZ_cons by lia. by intros [= ->].
Qed.

(** Opening the log after a crash gives its records again, the files in order. *)
Lemma reopen_crashed l kept rs tail files first next :
  log_ok l → lg_next_log_id l < 2 ^ 32 - 2 → log_holds crc32 l kept rs → NoDup files → (∀ id, id ∈ files ↔ is_Some (crash_disk (writing l tail) tail !! id)) →
  (tail ≠ [] → torn next tail) → 1 ≤ first → next < 2 ^ 64 → next = first + Z.of_nat (length (kept ++ rs)) → (kept ++ rs).*1 = seqZ first (Z.of_nat (length (kept ++ rs))) →
  ∃ l0 es, Log_open files (crash_disk (writing l tail) tail) = Ok l0 ∧ log_ok l0 ∧ lg_overlays l0 = LogOverlays_default ∧ lg_reading l0 = None ∧
    lg_read_queue l0 = [] ∧ lg_appending l0 = None ∧ lg_next_record_id l0 = 1 ∧
    lg_replay l0 = (λ e, (e.1, lf_first next e)) <$> es ∧ es ≫= lf_records = kept ++ rs ∧ (∀ e, e ∈ es → file_of l0 e.1 = lf_bytes e) ∧
    (∀ es1 e es2, es = es1 ++ e :: es2 → lf_tail e ≠ [] → es2 = [] ∧ lf_tail e = tail) ∧
    (∀ e es', es = e :: es' → lf_first next e = first).
Proof.
  intros Hl Hn Hh Hnd Hfiles Htorn H1 H2 H3 H4. destruct (writing_holds l tail kept rs Hl Hn Hh) as (Hl1 & Hh1 & Hn1). clear Hl Hn Hh.
  set (l1 := writing l tail) in *. destruct Hh1 as (old & done & now & queued & last & Hh & -> & ->).
  set (rf := read_files (l := l1) (old := old) (done := done) (now := now) (queued := queued)).
  destruct (crash_on_disk tail Hl1 Hh files first next Hn1 Hnd Hfiles Htorn) as [Hd Hrec]; [lia|done|done|done|]. fold rf in Hd, Hrec.
  destruct (reopen_run Hd) as (l0 & E & G1 & G2 & G3 & G4 & G5 & G6 & G7 & G8). exists l0, (live_files (rf ++ last_file l1 last tail)).
  assert (Htails : ∀ es1 e es2, live_files (rf ++ last_file l1 last tail) = es1 ++ e :: es2 → lf_tail e ≠ [] → es2 = [] ∧ lf_tail e = tail).
  { destruct (read_files_facts Hh) as (_ & _ & R3 & _). fold rf in R3. destruct (last_file_facts tail Hh) as (_ & L2 & L3). unfold live_files. rewrite filter_app. intros es1 e es2 Ee Ht.
    assert (Hrf : Forall (λ e, lf_tail e = []) (filter (λ e, lf_live e = true) rf)).
    { apply Forall_forall. intros x [_ Hx]%list_elem_of_filter. rewrite Forall_forall in R3. by apply R3. }
    destruct (last_only _ (filter _ (last_file l1 last tail)) Hrf ltac:(etrans; [apply length_filter|done]) es1 e es2 Ee Ht) as [-> He].
    apply list_elem_of_filter in He as [_ He]. split; [done|]. by apply L3. }
  rewrite live_records, Hrec. split_and!; try done. intros e es' Ee. apply (live_first next first e es').
  - assert (He : e ∈ live_files (rf ++ last_file l1 last tail)) by (rewrite Ee; by left). by apply list_elem_of_filter in He as [? _].
  - intros Ht. by apply (Htails [] e es' Ee).
  - by rewrite <-Ee, live_records, Hrec.
  - by rewrite <-Ee, live_records, Hrec.
Qed.
End disk.
