(* ===== verification/Commit.v ===== *)
(** * Commits: change sets and the commit overlay (src/src/db.rs, src/src/btree/mod.rs)

    A commit is queued and its changes are copied to the overlay of each column, where readers
    find them until the commit has been logged.  An entry of the overlay carries the number of
    the commit that wrote it last; a commit only removes its own entries. *)

From S2P Require Import Prelude IndexEntry IndexChunk Log Stats IndexTable ValueEntry File ValueTable Compress Options Column KeyOrder.

(** [RcValue] is a shared, immutable vector of bytes. *)
Record CommitOverlay := mkOverlay {
  ov_indexed : gmap bytes (Z * option bytes);
  ov_btree : gmap bytes (Z * option bytes);
}.
Definition CommitOverlay_new : CommitOverlay := mkOverlay ∅ ∅.

Definition CommitOverlay_get (key : bytes) (o : CommitOverlay) : option (option bytes) := snd <$> ov_indexed o !! key.
Definition CommitOverlay_get_size (key : bytes) (o : CommitOverlay) : option (option Z) :=
  option_map (option_map (λ b : bytes, u32 (Z.of_nat (length b)))) (CommitOverlay_get key o).
Definition btree_get (key : bytes) (o : CommitOverlay) : option (option bytes) := snd <$> ov_btree o !! key.

(** ** The ordered part: [BTreeMap::range] with [next] or [rev().next()] *)
(** The least (for [before := bytes_lt]) or greatest key that satisfies a bound. *)
Definition best_key (before : bytes → bytes → bool) (P : bytes → bool) (m : gmap bytes (Z * option bytes)) : option bytes :=
  foldr (λ k best, if P k then match best with
                               | Some b => if before k b then Some k else Some b
                               | None => Some k
                               end else best)
    None (fst <$> map_to_list m).
Definition range_next (before : bytes → bytes → bool) (P : bytes → bool) (m : gmap bytes (Z * option bytes))
    : option (bytes * option bytes) :=
  k ← best_key before P m; '(_, v) ← m !! k; Some (k, v).

Inductive LastKey := LKStart | LKEnd | LKAt (key : bytes) | LKSeeked (key : bytes).

Definition btree_next (last_key : LastKey) (o : CommitOverlay) : option (bytes * option bytes) :=
  match last_key with
  | LKStart => range_next bytes_lt (λ _, true) (ov_btree o)
  | LKEnd => None
  | LKAt key => range_next bytes_lt (λ k, bytes_lt key k) (ov_btree o)
  | LKSeeked key => range_next bytes_lt (λ k, bytes_le key k) (ov_btree o)
  end.
Definition btree_prev (last_key : LastKey) (o : CommitOverlay) : option (bytes * option bytes) :=
  let after a b := bytes_lt b a in
  match last_key with
  | LKEnd => range_next after (λ _, true) (ov_btree o)
  | LKStart => None
  | LKAt key => range_next after (λ k, bytes_lt k key) (ov_btree o)
  | LKSeeked key => range_next after (λ k, bytes_le k key) (ov_btree o)
  end.

(** ** Change sets *)
Definition map_key {K K' V} (f : K → outcome K') (op : Operation K V) : outcome (Operation K' V) :=
  match op with
  | OpSet k v => k ← f k; Ok (OpSet k v)
  | OpDereference k => k ← f k; Ok (OpDereference k)
  | OpReference k => k ← f k; Ok (OpReference k)
  end.

Record IndexedChangeSet := mkIndexed { is_col : Z; is_changes : list (Operation bytes bytes) }.
Record BTreeChangeSet := mkBTree { bs_col : Z; bs_changes : list (Operation bytes bytes) }.

Definition column_options (o : Options) (col : Z) : outcome ColumnOptions :=
  match op_columns o !! Z.to_nat col with Some c => Ok c | None => Panic end.

Definition push_change_hashed (change : Operation bytes bytes) (s : IndexedChangeSet) : IndexedChangeSet :=
  mkIndexed (is_col s) (is_changes s ++ [change]).
Definition IndexedChangeSet_push `{Hashes} (change : Operation bytes bytes) (options : Options) (db_version : Z)
    (s : IndexedChangeSet) : outcome IndexedChangeSet :=
  let salt := default (replicate 32 Byte.x00) (op_salt options) in
  opts ← column_options options (is_col s);
  change ← map_key (λ k, hash_key k salt (co_uniform opts) db_version) change;
  Ok (push_change_hashed change s).
Definition BTreeChangeSet_push (change : Operation bytes bytes) (s : BTreeChangeSet) : BTreeChangeSet :=
  mkBTree (bs_col s) (bs_changes s ++ [change]).

(** [copy_to_overlay]: the state is the map and the number of bytes; an error leaves what has
    been copied so far. *)
Abbreviation MO := (M (gmap bytes (Z * option bytes) * Z)).
Definition copy_change (record_id : Z) (ref_counted : bool) (change : Operation bytes bytes) : MO unit :=
  match change with
  | OpSet k v => modify (λ '(m, n), (<[k := (record_id, Some v)]> m, n + Z.of_nat (length k) + Z.of_nat (length v)))
  | OpDereference k => if ref_counted then mret tt else modify (λ '(m, n), (<[k := (record_id, None)]> m, n))
  | OpReference _ => if ref_counted then mret tt else fail (InvalidInput "No Rc for column")
  end.
Fixpoint copy_changes (f : Operation bytes bytes → MO unit) (l : list (Operation bytes bytes)) : MO unit :=
  match l with [] => mret tt | c :: l' => _ ← f c; copy_changes f l' end.
Definition Indexed_copy_to_overlay (record_id : Z) (ref_counted : bool) (s : IndexedChangeSet) : MO unit :=
  copy_changes (copy_change record_id ref_counted) (is_changes s).

(** In an ordered column a removal counts the bytes of the key. *)
Definition copy_btree_change (record_id : Z) (ref_counted : bool) (change : Operation bytes bytes) : MO unit :=
  match change with
  | OpDereference k =>
      if ref_counted then mret tt
      else modify (λ '(m, n), (<[k := (record_id, None)]> m, n + Z.of_nat (length k)))
  | _ => copy_change record_id ref_counted change
  end.
Definition BTree_copy_to_overlay (record_id : Z) (ref_counted : bool) (s : BTreeChangeSet) : MO unit :=
  copy_changes (copy_btree_change record_id ref_counted) (bs_changes s).

Definition clean_key (record_id : Z) (k : bytes) (m : gmap bytes (Z * option bytes)) : gmap bytes (Z * option bytes) :=
  match m !! k with
  | Some (rid, _) => if bool_decide (rid = record_id) then delete k m else m
  | None => m
  end.
Definition Indexed_clean_overlay (record_id : Z) (s : IndexedChangeSet) (m : gmap bytes (Z * option bytes))
    : gmap bytes (Z * option bytes) :=
  foldl (λ m change, match change with
                     | OpSet k _ => clean_key record_id k m
                     | OpDereference k => clean_key record_id k m
                     | OpReference _ => m
                     end) m (is_changes s).
(** The changes are drained: the change set is empty afterwards. *)
Definition BTree_clean_overlay (record_id : Z) (s : BTreeChangeSet) (m : gmap bytes (Z * option bytes))
    : BTreeChangeSet * gmap bytes (Z * option bytes) :=
  (mkBTree (bs_col s) [], foldl (λ m change, clean_key record_id (Operation_key change) m) m (bs_changes s)).

(** [write_plan] of a change set on a hash column: the number of operations and whether the
    index has to be rebuilt. *)
Fixpoint write_changes `{Compressors} (x86 : bool) (junk : bytes) (l : list (Operation bytes bytes)) (ops : Z) (reindex : bool)
    : M (HashColumn * LogWriter) (Z * bool) :=
  match l with
  | [] => mret (ops, reindex)
  | change :: l' =>
      r ← HashColumn_write_plan x86 junk change;
      write_changes x86 junk l' (ops + 1) (match r with NeedReindex => true | _ => reindex end)
  end.
Definition Indexed_write_plan `{Compressors} (x86 : bool) (junk : bytes) (s : IndexedChangeSet) (ops : Z) (reindex : bool)
    : M (HashColumn * LogWriter) (Z * bool) := write_changes x86 junk (is_changes s) ops reindex.
