(* ===== verification/ColumnPlan.v ===== *)
(** * Columns: the plans of a commit

    A change set is planned change by change; at the end of a record every table of the column
    whose header has changed logs it. *)

From S2P Require Import Prelude IndexEntry IndexChunk Log Stats IndexTable IndexEnact ValueEntry File ValueTable ValueSlots ValueChains ValueWrite ValueRead ValueInv ValueSpec ValueFile Compress Column ColumnSearch ColumnIndex ColumnTables ColumnValues ColumnRecord ColumnInv ColumnWrite ColumnTheorems RecordItems ColumnApply ColumnPipeline Commit.

(** ** The changes of a commit *)
(** The contents after a list of changes. *)
Definition spec_changes (rc preimage : bool) (l : list (Operation bytes bytes)) (f : bytes → option (Z * bytes)) : bytes → option (Z * bytes) :=
  foldl (λ f change k, if decide (k = Operation_key change) then spec_step rc preimage change (f k) else f k) f l.

Section changes.
Context `{HC : Compressors} `{HCO : !CompressorsOk HC} (x86 : bool) (junk : bytes) (Hjunk : length junk = MAX_ENTRY_BUF_SIZE).

(** When each change is planned, its key is a hash, the tables have room and its chunk of the
    index has a free entry. *)
Fixpoint changes_fit (l : list (Operation bytes bytes)) (s : HashColumn * LogWriter) : Prop :=
  match l with
  | [] => True
  | change :: l' =>
      length (Operation_key change) = KEY_SIZE ∧ col_room s.1 (change_size change + 31) ∧
      ¬ chunk_full (hc_index s.1) s.2 (key_chunk (hc_index s.1) (Operation_key change)) ∧
      changes_fit l' (HashColumn_write_plan x86 junk change s).2
  end.

(** The column with other tables and statistics. *)
Definition retabled (c c' : HashColumn) : Prop := ∃ stats ts, c' = set_stats stats (set_values ts c).
Lemma retabled_refl c : retabled c c.
Proof. exists (hc_stats c), (hc_value c). by destruct c. Qed.
Lemma retabled_trans c1 c2 c3 : retabled c1 c2 → retabled c2 c3 → retabled c1 c3.
Proof. intros (s & ts & ->) (s' & ts' & ->). by exists s', ts'. Qed.

Lemma write_changes_run l : ∀ c w kv vs ops reindex,
  col_inv c w kv vs → hc_queue c = [] → changes_fit l (c, w) →
  ∃ ops' c' w' kv' vs', write_changes x86 junk l ops reindex (c, w) = (Ok (ops', reindex), (c', w')) ∧
    col_inv c' w' kv' vs' ∧ retabled c c' ∧ recorded c c' w w' ∧
    ∀ k, contents c' kv' vs' k = spec_changes (hc_ref_counted c) (hc_preimage c) l (contents c kv vs) k.
Proof.
  induction l as [|change l IH]; intros c w kv vs ops reindex Hinv Hq Hfit.
  { exists ops, c, w, kv, vs. split_and!; try done; [apply retabled_refl|by apply recorded_refl]. }
  destruct Hfit as (Hk & Hroom & Hfull & Hfit). cbn [fst snd] in Hroom, Hfull.
  destruct (write_plan_stepped Hinv x86 junk change Hjunk Hq Hk Hroom (λ _, Hfull)) as (oc & c1 & w1 & nw & E & Hoc & Hs & Hn).
  pose proof Hs as (Hret & Hrec & _). destruct (stepped_contents _ nw c1 w1 _ Hq Hs Hn) as (kv1 & vs1 & Hinv1 & Hq1 & Hc1).
  rewrite E in Hfit. cbn [snd] in Hfit. destruct Hret as (stats & ts & Ec1). assert (Hret : retabled c c1) by (by exists stats, ts).
  destruct (IH c1 w1 kv1 vs1 (ops + 1) reindex Hinv1 Hq1 Hfit) as (ops' & c2 & w2 & kv2 & vs2 & E2 & Hinv2 & Hret2 & Hrec2 & Hc2).
  exists ops', c2, w2, kv2, vs2. split_and!; [|done|by eapply retabled_trans| |].
  - cbn [write_changes]. erewrite M_bind_Ok by exact E. by destruct oc.
  - eapply (recorded_trans c c1 c2 w w1 w2); [by rewrite Ec1| |done|done]. pose proof (xi_wf (ci_index Hinv1)) as Hw. by rewrite Ec1 in Hw.
  - intros k. rewrite Hc2. assert (hc_ref_counted c1 = hc_ref_counted c ∧ hc_preimage c1 = hc_preimage c) as [-> ->] by (by rewrite Ec1).
    unfold spec_changes. cbn [foldl]. set (f := foldl _). clear -Hc1.
    assert (Hext : ∀ l g g', (∀ k, g k = g' k) → ∀ k, spec_changes (hc_ref_counted c) (hc_preimage c) l g k = spec_changes (hc_ref_counted c) (hc_preimage c) l g' k).
    { clear. induction l as [|ch l IH]; intros g g' Hg k; [apply Hg|]. unfold spec_changes. cbn [foldl]. apply IH. intros k'. by rewrite !Hg. }
    by apply Hext.
Qed.
End changes.

(** ** The end of a record *)
Definition settled (t : ValueTable) : ValueTable :=
  mkTable (vt_id t) (entry_size t) (vt_file t) (filled t) (last_removed t) false (multipart t) (ref_counted t) (db_version t).
Definition header_log (w : LogWriter) (t : ValueTable) : LogWriter :=
  if dirty_header t then insert_value (vt_id t) 0 (header_of t) w else w.
Definition headers_log (ts : list ValueTable) (w : LogWriter) : LogWriter := foldl header_log w ts.

Lemma settled_clean t : dirty_header t = false → settled t = t.
Proof. destruct t. simpl. by intros ->. Qed.

Lemma table_complete t w : ValueTable_complete_plan (t, w) = (Ok tt, (settled t, header_log w t)).
Proof.
  unfold ValueTable_complete_plan, header_log. mrun. change (id (t, w)) with (t, w). cbv beta iota.
  destruct (dirty_header t) eqn:E; [done|]. by rewrite settled_clean.
Qed.

Lemma complete_tables_run n : ∀ k s, (k + n)%nat = length (vs_tables s) →
  complete_tables (seq k n) s
  = (Ok tt, mkVS (take k (vs_tables s) ++ (settled <$> drop k (vs_tables s))) (headers_log (drop k (vs_tables s)) (vs_log s)) (vs_stats s)).
Proof.
  induction n as [|n IH]; intros k s Hk.
  - simpl. rewrite drop_ge, take_ge by lia. simpl. rewrite app_nil_r. by destruct s.
  - destruct (lookup_lt_is_Some_2 (vs_tables s) k ltac:(lia)) as [t Et]. cbn [seq complete_tables].
    assert (E : on_table k ValueTable_complete_plan s = (Ok tt, mkVS (<[k := settled t]> (vs_tables s)) (header_log (vs_log s) t) (vs_stats s))).
    { unfold on_table. by rewrite Et, table_complete. }
    erewrite M_bind_Ok by exact E. rewrite IH by (simpl; rewrite length_insert; lia). cbn [vs_tables vs_log vs_stats].
    rewrite (drop_S _ _ _ Et), (drop_insert_lt _ (S k) k) by lia. rewrite (take_S_r _ _ (settled t)) by (apply list_lookup_insert_eq; lia).
    rewrite take_insert_ge by lia. rewrite <-app_assoc. done.
Qed.

Lemma column_complete c w :
  ∃ c', HashColumn_complete_plan (c, w) = (Ok tt, (c', headers_log (hc_value c) w)) ∧ retabled c c' ∧ hc_value c' = settled <$> hc_value c.
Proof.
  unfold HashColumn_complete_plan. mrun. change (id (c, w)) with (c, w). cbv beta iota.
  set (st := if hc_collect_stats c then Some (hc_stats c) else None).
  pose proof (complete_tables_run (length (hc_value c)) 0 (mkVS (hc_value c) w st) eq_refl) as E. cbn [vs_tables vs_log vs_stats] in E.
  rewrite take_0, drop_0, app_nil_l in E. erewrite M_bind_Ok by (apply on_values_run; exact E).
  unfold col_stats, modify. eexists. split; [done|]. simpl. split.
  - destruct (hc_collect_stats c); eexists _, _; reflexivity.
  - by destruct (hc_collect_stats c).
Qed.

(** What the headers add to the record. *)
Lemma headers_same_rest ts : ∀ w, same_rest w (headers_log ts w).
Proof.
  induction ts as [|t ts IH]; intros w; [done|]. unfold headers_log. cbn [foldl]. etrans; [|apply IH].
  unfold header_log. by destruct (dirty_header t).
Qed.
Lemma headers_value ts id i : ∀ w, (i = 0 → ∀ t, t ∈ ts → dirty_header t = true → vt_id t ≠ id) →
  local_value (headers_log ts w) id i = local_value w id i.
Proof.
  induction ts as [|t ts IH]; intros w Hn; [done|]. unfold headers_log. cbn [foldl]. fold (headers_log ts (header_log w t)).
  rewrite IH by set_solver. unfold header_log. destruct (dirty_header t) eqn:E; [|done]. rewrite local_value_insert.
  rewrite decide_False; [done|]. intros [He <-]. by apply (Hn eq_refl t); [left|..].
Qed.
Lemma headers_value_dirty ts t : ∀ w, NoDup (vt_id <$> ts) → t ∈ ts → dirty_header t = true →
  local_value (headers_log ts w) (vt_id t) 0 = Some (record_id (change w), header_of t).
Proof.
  induction ts as [|t' ts IH]; intros w Hnd Hin Hd; [by apply elem_of_nil in Hin|]. apply NoDup_cons in Hnd as [Hni Hnd].
  unfold headers_log. cbn [foldl]. fold (headers_log ts (header_log w t')). apply elem_of_cons in Hin as [<-|Hin].
  - rewrite headers_value.
    + unfold header_log. rewrite Hd, local_value_insert, decide_True; done.
    + intros _ x Hx _ He. apply Hni. rewrite <-He. by apply list_elem_of_fmap_2.
  - rewrite IH by done. unfold header_log. by destruct (dirty_header t').
Qed.
Lemma headers_app ts ts' w : headers_log (ts ++ ts') w = headers_log ts' (headers_log ts w).
Proof. apply foldl_app. Qed.

(** Reading does not depend on the headers. *)
Lemma table_inv_settled `{HL : LogQuery L} `{HL' : LogQuery L'} t (log : L) (log' : L') kl vals :
  (∀ j, j ≠ 0 → value_entry log' (vt_id t) j = value_entry log (vt_id t) j) →
  table_inv t log kl vals → table_inv (settled t) log' kl vals.
Proof.
  intros Hx (H & slots & fl & Hst). exists H, slots, fl. split; try apply Hst.
  - split; apply Hst.
  - intros i c Hc. destruct (ts_repr Hst _ _ Hc) as (Hi & Hw & Hs). split; [done|]. split; [done|].
    unfold slot_has in *. change (vt_id (settled t)) with (vt_id t). rewrite Hx by lia. done.
Qed.

Lemma col_inv_settled `{HC : Compressors} `{HL : LogQuery L} `{HL' : LogQuery L'} c c' (log : L) (log' : L') kv vs :
  retabled c c' → hc_value c' = settled <$> hc_value c →
  (∀ tier t j, hc_value c !! tier = Some t → j ≠ 0 → value_entry log' (vt_id t) j = value_entry log (vt_id t) j) →
  (∀ ci, with_index log' (it_id (hc_index c)) ci = with_index log (it_id (hc_index c)) ci) →
  col_inv c log kv vs → col_inv c' log' kv vs.
Proof.
  intros (st & ts & ->) Hv Hx Hi [H1 [G1 G2 G3 G4] H3 H4]. simpl in Hv. subst ts.
  assert (Hback : ∀ tier t', (settled <$> hc_value c) !! tier = Some t' → ∃ t, hc_value c !! tier = Some t ∧ t' = settled t).
  { intros tier t'. rewrite list_lookup_fmap. destruct (hc_value c !! tier) as [t|]; [|done]. intros [= <-]. by exists t. }
  split; simpl; try done.
  - eapply (index_inv_view _ log); [|done]. intros ci. unfold chunk_view. by rewrite Hi.
  - split.
    + by rewrite length_fmap.
    + intros tier t' Et'. destruct (Hback _ _ Et') as (t & Et & ->). by apply (G2 tier t).
    + intros tier t' Et'. destruct (Hback _ _ Et') as (t & Et & ->). by apply (G3 tier t).
    + intros tier t' m Et' Em. destruct (Hback _ _ Et') as (t & Et & ->). apply (table_inv_settled t log); [|by apply (G4 tier)].
      intros j. by eapply Hx.
Qed.
