(* ===== verification/ColumnPublish.v ===== *)
(** * Columns: publishing a record

    A record that is written to the log becomes the last of the pending records: the column is
    as ready as before, and readers see the contents that were planned. *)

From S2P Require Import Prelude IndexEntry IndexChunk Log Stats IndexTable IndexEnact ValueEntry File ValueTable ValueSlots ValueChains ValueWrite ValueRead ValueInv ValueSpec ValueFile Compress Column ColumnSearch ColumnIndex ColumnTables ColumnValues ColumnRecord ColumnInv ColumnWrite RecordItems ColumnApply ColumnPipeline Commit ColumnPlan.
#[local] Arguments mask_bits : simpl never.
#[local] Opaque mask_bits.

(** The files of the tables can grow once more. *)
Definition file_room (c : HashColumn) : Prop :=
  ∀ tier t, hc_value c !! tier = Some t → (filled t + GROW_SIZE_BYTES / entry_size t) * entry_size t < 2 ^ 64.

(** What a writer shows: the record, then the overlays. *)
Lemma writer_value w id i : value_entry w id i = match local_value w id i with Some x => Some x.2 | None => value_entry (overlays w) id i end.
Proof. simpl. rewrite (lookup_value_bind (local_values _)). fold (local_value w id i). by destruct (local_value w id i). Qed.
Lemma writer_index w id ci : with_index w id ci = match local_chunk w id ci with Some x => Some x.2 | None => with_index (overlays w) id ci end.
Proof. simpl. rewrite (lookup_index_bind (local_index _)). fold (local_chunk w id ci). by destruct (local_chunk w id ci). Qed.

Section publish.
Context (order_index : gmap Z IndexLogOverlay → index_items) (order_value : gmap Z ValueLogOverlay → value_items).
Context (Hli : lists order_index) (Hlv : lists order_value).
Context `{HC : Compressors} {c0 c c' : HashColumn} {o : LogOverlays} {kept pending : list rec} {w : LogWriter}.
Context {kv : gmap bytes Z} {vs : list (gmap Z vrec)} {ts : list ValueTable}.
Context (Hready : col_ready c0 o kept pending) (Hret : retabled c0 c) (Hev : Forall2 evolved (hc_value c0) (hc_value c)).
Context (Hmasks : masks_ok (hc_index c0) w) (Hover : overlays w = o) (Hinv : col_inv c w kv vs) (Hroom : file_room c).
(** The record holds slots of the tables, chunks of the index, and things of other columns. *)
Context (Hitems : ∀ tier t i x, hc_value c !! tier = Some t → local_value w (vt_id t) i = Some x → item_ok t i x.2).
Context (Hother : ∀ id i x, local_value w id i = Some x → TableId_col id = hc_col c → ∃ tier t, hc_value c !! tier = Some t ∧ vt_id t = id).
Context (Hchunks : ∀ id ci x, local_chunk w id ci = Some x → TableId_col id = hc_col c →
  id = it_id (hc_index c) ∧ 0 ≤ ci < total_chunks (bits_of (hc_index c))).
(** [ts] are the tables of all columns. *)
Context (Hts : NoDup (vt_id <$> ts)) (Hsub : ∀ t, t ∈ hc_value c → t ∈ ts).
Context (Hown : ∀ t, t ∈ ts → TableId_col (vt_id t) = hc_col c → t ∈ hc_value c).
Context (Hret' : retabled c c') (Hval' : hc_value c' = settled <$> hc_value c).

Abbreviation w' := (headers_log ts w).
Abbreviation o' := (end_record_overlays (change w') o).
Abbreviation new := (change_items order_index order_value (change w')).

(** The tables before, after the plans and after the headers. *)
Lemma old_table tier t : hc_value c !! tier = Some t → ∃ t0, hc_value c0 !! tier = Some t0 ∧ evolved t0 t.
Proof. intros Et. destruct (Forall2_lookup_r _ _ _ _ _ Hev Et) as (t0 & ? & ?). eauto. Qed.
Lemma new_table tier t' : hc_value c' !! tier = Some t' → ∃ t, hc_value c !! tier = Some t ∧ t' = settled t.
Proof. rewrite Hval', list_lookup_fmap. destruct (hc_value c !! tier) as [t|]; [|done]. intros [= <-]. by exists t. Qed.
Lemma same_index : hc_index c' = hc_index c0 ∧ hc_index c = hc_index c0 ∧ hc_col c' = hc_col c ∧ hc_col c = hc_col c0.
Proof. destruct Hret as (st & tl & ->). destruct Hret' as (st' & tl' & ->). done. Qed.
Lemma table_col tier t : hc_value c !! tier = Some t → TableId_col (vt_id t) = hc_col c.
Proof.
  intros Et. destruct (old_table _ _ Et) as (t0 & Et0 & Hs & _). apply shape_inv in Hs as (-> & _).
  rewrite (proj2 (proj2 (proj2 same_index))). by apply (fo_table_col (cr_files Hready) Et0).
Qed.

Lemma rest_same : same_rest w w'.
Proof. apply headers_same_rest. Qed.
Lemma chunk_same id ci : local_chunk w' id ci = local_chunk w id ci.
Proof. apply same_rest_chunk, rest_same. Qed.

Lemma overlay_value id i : value_entry o' id i = match local_value w' id i with Some x => Some x.2 | None => value_entry o id i end.
Proof.
  pose proof (end_record_view w' id i) as [E _]. rewrite (proj1 rest_same), Hover in E. by rewrite E, writer_value, (proj1 rest_same), Hover.
Qed.
Lemma overlay_index id ci : with_index o' id ci = match local_chunk w id ci with Some x => Some x.2 | None => with_index o id ci end.
Proof.
  pose proof (end_record_view w' id ci) as [_ E]. rewrite (proj1 rest_same), Hover in E. by rewrite E, writer_index, chunk_same, (proj1 rest_same), Hover.
Qed.

(** The items of a table. *)
Lemma value_of_table tier t i x : hc_value c !! tier = Some t → local_value w' (vt_id t) i = Some x →
  (i = 0 ∧ dirty_header t = true ∧ x.2 = header_of t) ∨ item_ok t i x.2.
Proof.
  intros Et Hx. assert (Hin : t ∈ hc_value c) by (by eapply list_elem_of_lookup_2).
  destruct (decide (i = 0 ∧ dirty_header t = true)) as [[-> Hd]|Hn].
  - left. rewrite headers_value_dirty in Hx; [by injection Hx as <-|done|by apply Hsub|done].
  - right. rewrite headers_value in Hx; [by eapply Hitems|]. intros -> t1 Ht1 Hd He. apply Hn. split; [done|].
    assert (t1 ∈ hc_value c) as Hin1 by (apply Hown; [done|rewrite He; by eapply table_col]).
    assert (t1 = t) as <-; [|done]. apply list_elem_of_lookup in Ht1 as [a Ha]. apply Hsub, list_elem_of_lookup in Hin as [b Hb].
    assert (a = b); [|congruence]. apply (NoDup_lookup _ _ _ (vt_id t) Hts); rewrite list_lookup_fmap, ?Ha, ?Hb; simpl; congruence.
Qed.
Lemma value_of_column id i x : local_value w' id i = Some x → TableId_col id = hc_col c → ∃ tier t, hc_value c !! tier = Some t ∧ vt_id t = id.
Proof.
  intros Hx Hc. destruct (decide (i = 0 ∧ Exists (λ t, dirty_header t = true ∧ vt_id t = id) ts)) as [[-> He]|Hn].
  - apply Exists_exists in He as (t & Ht & _ & Hid).
    assert (Hin : t ∈ hc_value c) by (apply Hown; [done|congruence]). apply list_elem_of_lookup in Hin as [tier Et]. eauto.
  - rewrite headers_value in Hx; [by eapply Hother|]. intros -> t Ht Hd He. apply Hn. split; [done|]. apply Exists_exists. eauto.
Qed.

(** ** What readers see *)
Lemma publish_contents : col_inv c' o' kv vs.
Proof.
  eapply (col_inv_settled c c' w o'); [done|done| | |done].
  - intros tier t j Et Hj. by rewrite overlay_value, headers_value, writer_value, Hover by done.
  - intros ci. by rewrite overlay_index, writer_index, Hover.
Qed.

(** ** The items of the record *)
Lemma new_slot id i : last_of (slot_data id i) new = snd <$> local_value w' id i.
Proof. apply (last_slot order_index order_value Hlv). Qed.
Lemma new_entry id ci k : last_of (entry_data id ci k) new
  = x ← local_chunk w id ci; if decide (k ∈ mask_bits x.1.2) then Some (chunk_entry x.2 k) else None.
Proof. rewrite (last_entry order_index order_value Hli). fold (local_chunk w' id ci). by rewrite chunk_same. Qed.

Lemma publish_agrees l : index_agrees (hc_index c0) o l → index_agrees (hc_index c') o' (l ++ new).
Proof.
  destruct same_index as (-> & Hi & _). intros Hl ci k Hk. rewrite last_of_app, new_entry. specialize (Hl ci k Hk).
  unfold chunk_view in Hl |- *. rewrite overlay_index. destruct (local_chunk w (it_id (hc_index c0)) ci) as [[[r m] ch]|] eqn:E; simpl; [|exact Hl].
  destruct (Hmasks _ _ _ _ E) as (_ & _ & Hcov). case_decide as Hm; [done|]. rewrite Hover in Hcov. rewrite (Hcov k Hk Hm). exact Hl.
Qed.

(** A slot that the record does not mention. *)
Lemma publish_shows_old tier t t0 i d :
  hc_value c !! tier = Some t → evolved t0 t → local_value w' (vt_id t) i = None → shows t0 o i d → shows (settled t) o' i d.
Proof.
  intros Et (Hs & _) Hn. unfold shows, on_file. change (vt_id (settled t)) with (vt_id t). change (vt_file (settled t)) with (vt_file t).
  change (es_nat (settled t)) with (es_nat t). change (entry_size (settled t)) with (entry_size t). rewrite overlay_value, Hn.
  apply shape_inv in Hs as (-> & He & -> & _). unfold es_nat. by rewrite He.
Qed.

Lemma publish_header tier t : hc_value c !! tier = Some t → header_ok (settled t) o'.
Proof.
  intros Et. split; [done|]. assert (Hin : t ∈ hc_value c) by (by eapply list_elem_of_lookup_2).
  destruct (old_table _ _ Et) as (t0 & Et0 & Hevo). destruct (dirty_header t) eqn:Hd.
  - left. unfold shows. rewrite overlay_value. change (vt_id (settled t)) with (vt_id t).
    by rewrite headers_value_dirty by (try done; by apply Hsub).
  - pose proof Hevo as (_ & _ & [Heq|]); [subst t0|congruence]. destruct (cr_header Hready _ _ Et0) as [_ [Hh|(H1 & H2 & H3 & H4)]].
    + left. eapply publish_shows_old; [done|done| |done]. destruct (local_value w' (vt_id t) 0) as [x|] eqn:E; [|done].
      destruct (value_of_table _ _ _ _ Et E) as [(_ & ? & _)|[? _]]; [congruence|lia].
    + right. split_and!; try done. intros i. change (vt_id (settled t)) with (vt_id t). rewrite overlay_value, H4.
      destruct (local_value w' (vt_id t) i) as [x|] eqn:E; [|done].
      destruct (value_of_table _ _ _ _ Et E) as [(_ & ? & _)|[? _]]; [congruence|lia].
Qed.

Lemma publish_item it : it ∈ new → TableId_col (item_id it) = hc_col c → item_for c' it.
Proof.
  destruct same_index as (Hi & Hi0 & _). intros Hin Hc. destruct it as [id ci m ch|id i d]; simpl in Hc.
  - apply (elem_index_item order_index order_value Hli) in Hin as [r Hr]. fold (local_chunk w' id ci) in Hr. rewrite chunk_same in Hr.
    destruct (Hchunks _ _ _ Hr Hc) as [-> Hci]. rewrite Hi0 in Hr, Hci. destruct (Hmasks _ _ _ _ Hr) as (Hm & Hl & _).
    simpl. by rewrite Hi, Hi0.
  - apply (elem_value_item order_index order_value Hlv) in Hin as [r Hr]. fold (local_value w' id i) in Hr.
    destruct (value_of_column _ _ _ Hr Hc) as (tier & t & Et & <-). exists tier, (settled t). rewrite Hval', list_lookup_fmap, Et.
    split_and!; try done. destruct (value_of_table _ _ _ _ Et Hr) as [(-> & _ & Hd)|(Hi' & s & Hs & Hd)]; simpl in Hd; subst d; [left|right].
    + split; [done|]. destruct (tables_get (ci_tables Hinv) tier) as (t1 & m & Et1 & _ & H & slots & fl & Hst).
      { destruct (tt_len (ci_tables Hinv)) as [<- _]. by eapply lookup_lt_Some. }
      assert (t1 = t) as -> by congruence. pose proof (ts_wf Hst) as Hw. pose proof (wf_filled _ Hw). pose proof (wf_room _ Hw). pose proof (wf_es _ Hw).
      apply header_fields; [unfold in_range; nia|]. destruct (ts_free Hst) as [|? ? ? Hx]; [unfold in_range; lia|]. apply (ts_repr Hst) in Hx. unfold in_range. nia.
    + pose proof (Hroom _ _ Et) as Hr'. split; [lia|]. change (entry_size (settled t)) with (entry_size t). split; [|by exists s].
      pose proof (wf_es _ (tables_wf (ci_tables Hinv) _ _ Et)). nia.
Qed.

Lemma publish_old_item it : item_for c0 it → item_for c' it.
Proof.
  destruct same_index as (Hi & _). destruct it as [id ci m ch|id i d]; simpl; [by rewrite Hi|]. intros (tier & t0 & Et0 & Hid & Hs).
  destruct (Forall2_lookup_l _ _ _ _ _ Hev Et0) as (t & Et & Hsh & _). exists tier, (settled t). rewrite Hval', list_lookup_fmap, Et.
  pose proof (shape_inv _ _ Hsh) as (E1 & E2 & _ & E3 & _). split; [done|]. split; [simpl; congruence|].
  unfold slot_item in *. change (entry_size (settled t)) with (entry_size t). rewrite E2. destruct Hs as [?|(? & ? & x & Hx & ->)]; [by left|right].
  split_and!; try done. exists x. split; [|done]. apply (wf_slot_shape t0 (settled t)); [|done]. unfold shape. simpl. by unfold shape in Hsh.
Qed.

Lemma publish_files : files_ok c'.
Proof.
  destruct same_index as (Hi & _ & Hc & Hc0). destruct (cr_files Hready) as [Hb Hl Hid Hcol Ht]. split; rewrite ?Hi, ?Hc, ?Hc0; try done.
  intros tier t' Et'. destruct (new_table _ _ Et') as (t & Et & ->). destruct (old_table _ _ Et) as (t0 & Et0 & Hs & _).
  destruct (Ht _ _ Et0) as (_ & Hf & Hid0 & Hlt). pose proof (shape_inv _ _ Hs) as (E1 & E2 & E3 & _). split_and!; try done.
  - pose proof (tables_wf (ci_tables Hinv) _ _ Et) as Hw. split; apply Hw.
  - simpl. by rewrite E2, E3.
  - simpl. congruence.
Qed.

Lemma publish_ready rid : col_ready c' o' kept (pending ++ [(rid, new)]).
Proof.
  destruct same_index as (_ & _ & Hc & Hc0).
  assert (Hitms : ∀ rs, items_in (rs ++ [(rid, new)]) = items_in rs ++ new).
  { intros rs. rewrite items_in_app. f_equal. apply app_nil_r. }
  split; rewrite ?app_assoc, ?Hitms.
  - apply publish_files.
  - destruct Hret as (st & tl & Ec). destruct Hret' as (st' & tl' & Ec'). rewrite Ec', Ec. apply Hready.
  - intros it [Hin|Hin]%elem_of_app Hcol; rewrite Hc in Hcol; [|by apply publish_item].
    apply publish_old_item, (cr_items Hready); [done|congruence].
  - apply publish_agrees, Hready.
  - apply publish_agrees, Hready.
  - intros tier t' i d Et' Hd. destruct (new_table _ _ Et') as (t & Et & ->). change (vt_id (settled t)) with (vt_id t) in Hd.
    rewrite last_of_app, new_slot in Hd. destruct (local_value w' (vt_id t) i) as [x|] eqn:E; simpl in Hd.
    + injection Hd as <-. unfold shows. change (vt_id (settled t)) with (vt_id t). by rewrite overlay_value, E.
    + destruct (old_table _ _ Et) as (t0 & Et0 & Hevo). eapply publish_shows_old; [done|done|done|]. eapply (cr_kept_slots Hready); [done|].
      destruct Hevo as (Hs & _). apply shape_inv in Hs as (<- & _). done.
  - intros tier t' Et'. destruct (new_table _ _ Et') as (t & Et & ->). by eapply publish_header.
Qed.
End publish.
