(* ===== verification/CommitView.v ===== *)
(** * Commits: what readers see

    A reader looks in the overlay first and in the tables second.  For a column that does not
    count references, a commit is visible as a whole as soon as it is queued, and the work that
    follows in the background (writing the commit to the tables and taking it out of the
    overlay) changes nothing for readers, whatever other commits are queued meanwhile. *)

From S2P Require Import Prelude IndexEntry IndexChunk Log Stats IndexTable ValueEntry File ValueTable Compress Options KeyOrder Column Commit.

(** ** The abstract map *)
Definition apply_change (cur : option bytes) (change : Operation bytes bytes) : option bytes :=
  match change with OpSet _ v => Some v | OpDereference _ => None | OpReference _ => cur end.
Definition apply_changes (k : bytes) (l : list (Operation bytes bytes)) (cur : option bytes) : option bytes :=
  foldl (λ cur c, if decide (Operation_key c = k) then apply_change cur c else cur) cur l.

(** Whether a change writes a key; references do not. *)
Definition writes (k : bytes) (c : Operation bytes bytes) : bool :=
  match c with OpSet k' _ | OpDereference k' => bool_decide (k' = k) | OpReference _ => false end.
Definition touches (k : bytes) (l : list (Operation bytes bytes)) : bool := existsb (writes k) l.

Definition no_reference (c : Operation bytes bytes) : Prop := match c with OpReference _ => False | _ => True end.

Lemma apply_changes_cons k c l cur :
  apply_changes k (c :: l) cur = apply_changes k l (if decide (Operation_key c = k) then apply_change cur c else cur).
Proof. reflexivity. Qed.
Lemma touches_cons k c l : touches k (c :: l) = writes k c || touches k l.
Proof. reflexivity. Qed.

Lemma apply_untouched k l cur : Forall no_reference l → touches k l = false → apply_changes k l cur = cur.
Proof.
  intros Hl. revert cur. induction Hl as [|c l Hc Hl IH]; intros cur; [done|]. rewrite touches_cons, apply_changes_cons.
  intros [Hw Ht]%orb_false_elim. rewrite decide_False; [by apply IH|].
  destruct c; simpl in *; try done; by apply bool_decide_eq_false in Hw.
Qed.

Lemma apply_touched k l cur cur' :
  touches k l = true → apply_changes k l cur = apply_changes k l cur'.
Proof.
  revert cur cur'. induction l as [|c l IH]; intros cur cur'; [done|]. rewrite touches_cons, !apply_changes_cons.
  destruct (touches k l) eqn:Et; [intros _; by apply IH|]. rewrite orb_false_r. intros Hw.
  f_equal. destruct c; simpl in *; [..|done]; apply bool_decide_eq_true in Hw; by rewrite !decide_True.
Qed.

(** ** Copying to the overlay *)
Lemma copy_changes_run rid l : Forall no_reference l → ∀ m n,
  ∃ m' n', copy_changes (copy_change rid false) l (m, n) = (Ok tt, (m', n')) ∧
    ∀ k, m' !! k = if touches k l then Some (rid, apply_changes k l None) else m !! k.
Proof.
  induction 1 as [|c l Hc Hl IH]; intros m n; [by exists m, n|]. cbn [copy_changes].
  destruct c as [k v|k|k]; [..|done].
  - destruct (IH (<[k := (rid, Some v)]> m) (n + Z.of_nat (length k) + Z.of_nat (length v))) as (m' & n' & E & Hm).
    exists m', n'. split; [exact E|]. intros k'. rewrite Hm. rewrite touches_cons, apply_changes_cons. cbn [writes Operation_key apply_change].
    destruct (touches k' l) eqn:Et.
    + rewrite orb_true_r. do 2 f_equal. by apply apply_touched.
    + rewrite orb_false_r, lookup_insert. destruct (decide (k = k')) as [->|Hne].
      * rewrite bool_decide_true by done. by rewrite apply_untouched.
      * by rewrite bool_decide_false.
  - destruct (IH (<[k := (rid, None)]> m) n) as (m' & n' & E & Hm).
    exists m', n'. split; [exact E|]. intros k'. rewrite Hm. rewrite touches_cons, apply_changes_cons. cbn [writes Operation_key apply_change].
    destruct (touches k' l) eqn:Et.
    + rewrite orb_true_r. do 2 f_equal. by apply apply_touched.
    + rewrite orb_false_r, lookup_insert. destruct (decide (k = k')) as [->|Hne].
      * rewrite bool_decide_true by done. by rewrite apply_untouched.
      * by rewrite bool_decide_false.
Qed.

(** ** Cleaning the overlay *)
Lemma clean_key_lookup rid k m k' :
  clean_key rid k m !! k' = if bool_decide (k = k') then
    match m !! k' with Some (r, v) => if bool_decide (r = rid) then None else Some (r, v) | None => None end else m !! k'.
Proof.
  unfold clean_key. case_bool_decide as Hk.
  - subst k'. destruct (m !! k) as [[r v]|] eqn:E; [|done]. case_bool_decide; [apply lookup_delete_eq|done].
  - destruct (m !! k) as [[r v]|]; [|done]. case_bool_decide; [by apply lookup_delete_ne|done].
Qed.

Lemma clean_overlay_lookup rid col l m k :
  Indexed_clean_overlay rid (mkIndexed col l) m !! k = if touches k l then
    match m !! k with Some (r, v) => if bool_decide (r = rid) then None else Some (r, v) | None => None end else m !! k.
Proof.
  unfold Indexed_clean_overlay. cbn [is_changes]. revert m. induction l as [|c l IH]; intros m; [done|]. cbn [foldl]. rewrite IH.
  rewrite touches_cons.
  destruct c as [k' v|k'|k']; cbn [writes]; rewrite ?clean_key_lookup; [..|done];
    (destruct (decide (k' = k)) as [->|Hne]; [rewrite !bool_decide_true by done|by rewrite !bool_decide_false]);
    simpl; destruct (touches k l), (m !! k) as [[r w]|]; try done; repeat case_bool_decide; done.
Qed.

(** ** The pipeline of one column

    The overlay, the commits that wait in the queue (oldest first) and the contents of the
    tables. *)
Record pipe := mkPipe {
  pp_overlay : gmap bytes (Z * option bytes);
  pp_queue : list (Z * list (Operation bytes bytes));
  pp_tables : bytes → option bytes;
  pp_next : Z;
}.
Definition pipe_view (p : pipe) (k : bytes) : option bytes :=
  match pp_overlay p !! k with Some (_, v) => v | None => pp_tables p k end.

Inductive pipe_step (col : Z) : pipe → list (Operation bytes bytes) → pipe → Prop :=
  | pipe_commit p l m n n' :
      Forall no_reference l →
      Indexed_copy_to_overlay (pp_next p) false (mkIndexed col l) (pp_overlay p, n) = (Ok tt, (m, n')) →
      pipe_step col p l (mkPipe m (pp_queue p ++ [(pp_next p, l)]) (pp_tables p) (pp_next p + 1))
  | pipe_process p id l q tables :
      pp_queue p = (id, l) :: q → (∀ k, tables k = apply_changes k l (pp_tables p k)) →
      pipe_step col p [] (mkPipe (Indexed_clean_overlay id (mkIndexed col l) (pp_overlay p)) q tables (pp_next p)).

(** The entry of a key in the overlay: that of the last commit of the queue that writes it. *)
Definition last_write (k : bytes) (q : list (Z * list (Operation bytes bytes))) : option (Z * option bytes) :=
  foldl (λ acc '(id, l), if touches k l then Some (id, apply_changes k l None) else acc) None q.

Record pipe_ok (p : pipe) : Prop := {
  po_overlay : ∀ k, pp_overlay p !! k = last_write k (pp_queue p);
  po_ids : NoDup (pp_queue p).*1;
  po_next : Forall (λ c, c.1 < pp_next p) (pp_queue p);
  po_norc : Forall (λ c, Forall no_reference c.2) (pp_queue p);
}.

Lemma last_write_from k q acc :
  foldl (λ acc '(id, l), if touches k l then Some (id, apply_changes k l None) else acc) acc q
  = match last_write k q with Some x => Some x | None => acc end.
Proof.
  unfold last_write. revert acc. induction q as [|[id l] q IH]; intros acc; [done|]. simpl.
  rewrite IH. rewrite (IH (if touches k l then _ else None)). destruct (foldl _ None q); [done|]. by destruct (touches k l).
Qed.

Lemma last_write_cons k id l q :
  last_write k ((id, l) :: q)
  = match last_write k q with Some x => Some x | None => if touches k l then Some (id, apply_changes k l None) else None end.
Proof. unfold last_write at 1. simpl. apply last_write_from. Qed.

Lemma last_write_snoc k id l q :
  last_write k (q ++ [(id, l)]) = if touches k l then Some (id, apply_changes k l None) else last_write k q.
Proof. unfold last_write. by rewrite foldl_app. Qed.

Lemma last_write_id k q id v : last_write k q = Some (id, v) → id ∈ q.*1.
Proof.
  induction q as [|[i l] q IH]; [done|]. rewrite last_write_cons. destruct (last_write k q) as [[i' v']|] eqn:E.
  - intros [= -> ->]. right. by apply IH.
  - destruct (touches k l); [|done]. intros [= -> _]. left.
Qed.

Lemma pipe_step_ok col p l p' :
  pipe_ok p → pipe_step col p l p' → pipe_ok p' ∧ ∀ k, pipe_view p' k = apply_changes k l (pipe_view p k).
Proof.
  intros [H1 H2 H3 H4] Hs. destruct Hs as [p l m n n' Hl E|p id l q tables Hq Ht].
  - destruct (copy_changes_run (pp_next p) l Hl (pp_overlay p) n) as (m' & n2 & E' & Hm).
    unfold Indexed_copy_to_overlay in E. simpl in E. rewrite E' in E. injection E as <- <-. split.
    + split; cbn [pp_overlay pp_queue pp_next].
      * intros k. by rewrite Hm, last_write_snoc, H1.
      * rewrite fmap_app. apply NoDup_app. split_and!; [done| |apply NoDup_singleton].
        intros x Hx Hin. apply list_elem_of_singleton in Hin. simpl in Hin. subst x.
        apply list_elem_of_fmap in Hx as ([i l'] & Hi & Hin). rewrite Forall_forall in H3. apply H3 in Hin. simpl in *. lia.
      * apply Forall_app. split; [|apply Forall_singleton; simpl; lia].
        eapply Forall_impl; [exact H3|]. intros [i l']. simpl. lia.
      * apply Forall_app. split; [done|]. by apply Forall_singleton.
    + intros k. unfold pipe_view. simpl. rewrite Hm. destruct (touches k l) eqn:Et; [by apply apply_touched|].
      by rewrite apply_untouched.
  - rewrite Hq in H1, H2, H3, H4. simpl in H2. apply NoDup_cons in H2 as [Hid H2].
    apply Forall_cons in H3 as [_ H3]. apply Forall_cons in H4 as [Hl H4]. simpl in Hl.
    assert (Hov : ∀ k, Indexed_clean_overlay id (mkIndexed col l) (pp_overlay p) !! k = last_write k q).
    { intros k. rewrite clean_overlay_lookup, H1, last_write_cons.
      destruct (last_write k q) as [[i v]|] eqn:Ew.
      - apply last_write_id in Ew. rewrite (bool_decide_false (i = id)) by (intros ->; done). by destruct (touches k l).
      - destruct (touches k l); [|done]. by rewrite bool_decide_true. }
    split; [by split|]. intros k. unfold pipe_view. simpl. rewrite Hov, H1, last_write_cons.
    destruct (last_write k q) as [[i v]|]; [done|]. rewrite Ht. destruct (touches k l) eqn:Et; [by apply apply_touched|].
    by rewrite apply_untouched.
Qed.

(** Sequences of steps, with the changes committed on the way. *)
Inductive pipe_steps (col : Z) : pipe → list (Operation bytes bytes) → pipe → Prop :=
  | steps_refl p : pipe_steps col p [] p
  | steps_step p l p' ls p'' : pipe_step col p l p' → pipe_steps col p' ls p'' → pipe_steps col p (l ++ ls) p''.


Definition empty_pipe : pipe := mkPipe ∅ [] (λ _, None) 2.
Definition key_a : bytes := replicate 32 Byte.x0a.
