(* ===== verification/Db.v ===== *)
(** * The database (src/src/db.rs)

    [DbInner] ties the columns, the log, the queue of commits and the overlays together.  Its
    operations are the steps of the worker threads: [process_commits] and [process_reindex]
    write records, [flush_logs] hands files over, [enact_logs] applies records to the tables,
    [clean_logs] recycles files.  The condition variables that throttle the threads are not
    modelled: a step that would wait is a step that happens later.

    Tree columns (src/src/btree) come in through the interface [TreeColumn].  The order in which
    a hash map iterates is a parameter of the writing of a record. *)

From S2P Require Import Prelude IndexEntry IndexChunk Log LogFiles Stats IndexTable ValueEntry File ValueTable Compress Options KeyOrder Column ColumnEnact Commit.

Definition MAX_COMMIT_QUEUE_BYTES : Z := 16 * 1024 * 1024.
Definition KEEP_LOGS : nat := 16.

(** What the database needs from a tree column. *)
Class TreeColumn (T : Type) := {
  tree_open : Z → list ValueTable → Options → Metadata → outcome T;
  tree_get : bytes → LogOverlays → T → outcome (option bytes);
  tree_write_plan : list (Operation bytes bytes) → M (T * LogWriter) Z;
  tree_complete_plan : M (T * LogWriter) unit;
  tree_enact_plan : LogAction → M (T * LogReader) unit;
  tree_validate_plan : LogAction → M (T * LogReader) unit;
  tree_refresh_metadata : T → outcome T;
}.

Inductive ColumnOf (T : Type) := Hash (c : HashColumn) | Tree (t : T).
Arguments Hash {T} c.
Arguments Tree {T} t.

Record CommitChangeSet := mkChangeSet {
  cs_indexed : list (Z * IndexedChangeSet);
  cs_btree : list (Z * BTreeChangeSet);
}.
Record Commit := mkCommit { cm_id : Z; cm_bytes : Z; cm_changeset : CommitChangeSet }.
Record CommitQueue := mkQueue { cq_record_id : Z; cq_bytes : Z; cq_commits : list Commit }.

Record DbInner (T : Type) := mkDb {
  db_columns : list (ColumnOf T);
  db_options : Options;
  db_log : LogState;
  db_queue : CommitQueue;
  db_overlay : list CommitOverlay;
  db_logged_bytes : Z;
  db_last_enacted : Z;
  db_next_reindex : Z;
  db_bg_err : option error;
  db_version_ : Z;
}.
Arguments mkDb {T}.
Arguments db_columns {T} d : rename.
Arguments db_options {T} d : rename.
Arguments db_log {T} d : rename.
Arguments db_queue {T} d : rename.
Arguments db_overlay {T} d : rename.
Arguments db_logged_bytes {T} d : rename.
Arguments db_last_enacted {T} d : rename.
Arguments db_next_reindex {T} d : rename.
Arguments db_bg_err {T} d : rename.
Arguments db_version_ {T} d : rename.

Section db.
Context {T : Type} `{TreeColumn T} `{Compressors} `{Hashes}.
Context (x86 : bool) (junk : bytes) (crc32 : bytes → Z).
Context (order_index : gmap Z IndexLogOverlay → index_items) (order_value : gmap Z ValueLogOverlay → value_items).
Abbreviation Db := (DbInner T).
Abbreviation MD := (M Db).

Definition set_columns (c : list (ColumnOf T)) (d : Db) : Db :=
  mkDb c (db_options d) (db_log d) (db_queue d) (db_overlay d) (db_logged_bytes d) (db_last_enacted d)
    (db_next_reindex d) (db_bg_err d) (db_version_ d).
Definition set_log (l : LogState) (d : Db) : Db :=
  mkDb (db_columns d) (db_options d) l (db_queue d) (db_overlay d) (db_logged_bytes d) (db_last_enacted d)
    (db_next_reindex d) (db_bg_err d) (db_version_ d).
Definition set_queue (q : CommitQueue) (d : Db) : Db :=
  mkDb (db_columns d) (db_options d) (db_log d) q (db_overlay d) (db_logged_bytes d) (db_last_enacted d)
    (db_next_reindex d) (db_bg_err d) (db_version_ d).
Definition set_overlay (o : list CommitOverlay) (d : Db) : Db :=
  mkDb (db_columns d) (db_options d) (db_log d) (db_queue d) o (db_logged_bytes d) (db_last_enacted d)
    (db_next_reindex d) (db_bg_err d) (db_version_ d).
Definition set_logged (n : Z) (d : Db) : Db :=
  mkDb (db_columns d) (db_options d) (db_log d) (db_queue d) (db_overlay d) n (db_last_enacted d)
    (db_next_reindex d) (db_bg_err d) (db_version_ d).
Definition set_enacted (n : Z) (d : Db) : Db :=
  mkDb (db_columns d) (db_options d) (db_log d) (db_queue d) (db_overlay d) (db_logged_bytes d) n
    (db_next_reindex d) (db_bg_err d) (db_version_ d).
Definition start_reindex (record_id : Z) (d : Db) : Db :=
  mkDb (db_columns d) (db_options d) (db_log d) (db_queue d) (db_overlay d) (db_logged_bytes d) (db_last_enacted d)
    record_id (db_bg_err d) (db_version_ d).

Definition on_log {A} (m : M LogState A) : MD A := zoom db_log set_log m.

(** ** Reading *)
Definition get_column (col : Z) (d : Db) : outcome (ColumnOf T) :=
  match db_columns d !! Z.to_nat col with Some c => Ok c | None => Panic end.
Definition put_column (col : Z) (c : ColumnOf T) (d : Db) : Db :=
  set_columns (<[Z.to_nat col := c]> (db_columns d)) d.

Definition Db_get (col : Z) (key : bytes) : MD (option bytes) :=
  d ← gets id;
  column ← lift (get_column col d);
  match column with
  | Hash c =>
      key ← lift (hash_key key (hc_salt c) (hc_uniform_keys c) (hc_db_version c));
      match db_overlay d !! Z.to_nat col ≫= CommitOverlay_get key with
      | Some v => mret v
      | None =>
          let '(o, c') := HashColumn_get x86 junk key (lg_overlays (db_log d)) c in
          _ ← modify (put_column col (Hash c')); lift o
      end
  | Tree t =>
      match db_overlay d !! Z.to_nat col ≫= btree_get key with
      | Some v => mret v
      | None => lift (tree_get key (lg_overlays (db_log d)) t)
      end
  end.

Definition Db_get_size (col : Z) (key : bytes) : MD (option Z) :=
  d ← gets id;
  column ← lift (get_column col d);
  let len (v : bytes) := u32 (Z.of_nat (length v)) in
  match column with
  | Hash c =>
      key ← lift (hash_key key (hc_salt c) (hc_uniform_keys c) (hc_db_version c));
      match db_overlay d !! Z.to_nat col ≫= CommitOverlay_get_size key with
      | Some v => mret v
      | None =>
          let '(o, c') := HashColumn_get_size x86 junk key (lg_overlays (db_log d)) c in
          _ ← modify (put_column col (Hash c')); lift o
      end
  | Tree t =>
      match db_overlay d !! Z.to_nat col ≫= btree_get key with
      | Some v => mret (len <$> v)
      | None => v ← lift (tree_get key (lg_overlays (db_log d)) t); mret (len <$> v)
      end
  end.

(** ** Committing *)
Fixpoint entry_update {A} (col : Z) (new : A) (f : A → outcome A) (l : list (Z * A)) : outcome (list (Z * A)) :=
  match l with
  | [] => a ← f new; Ok [(col, a)]
  | (c, a) :: l' =>
      if bool_decide (c = col) then a ← f a; Ok ((c, a) :: l')
      else l' ← entry_update col new f l'; Ok ((c, a) :: l')
  end.

Fixpoint collect_changes (tx : list (Z * Operation bytes bytes)) (d : Db) (commit : CommitChangeSet) : outcome CommitChangeSet :=
  match tx with
  | [] => Ok commit
  | (col, change) :: tx' =>
      opts ← column_options (db_options d) col;
      commit ←
        (if co_btree_index opts then
           l ← entry_update col (mkBTree col []) (λ s, Ok (BTreeChangeSet_push change s)) (cs_btree commit);
           Ok (mkChangeSet (cs_indexed commit) l)
         else
           l ← entry_update col (mkIndexed col []) (IndexedChangeSet_push change (db_options d) (db_version_ d)) (cs_indexed commit);
           Ok (mkChangeSet l (cs_btree commit)));
      collect_changes tx' d commit
  end.

(** Copy the change sets of a commit to the overlays, counting bytes; an error stops there. *)
Definition on_overlay (col : Z) (get : CommitOverlay → gmap bytes (Z * option bytes))
    (put : gmap bytes (Z * option bytes) → CommitOverlay → CommitOverlay) (m : bool → MO unit) (bytes : Z) : MD Z := λ d,
  match column_options (db_options d) col, db_overlay d !! Z.to_nat col with
  | Ok opts, Some o =>
      let '(r, (mp, n)) := m (co_ref_counted opts) (get o, bytes) in
      let d' := set_overlay (<[Z.to_nat col := put mp o]> (db_overlay d)) d in
      match r with Ok _ => (Ok n, d') | Err e => (Err e, d') | Panic => (Panic, d') | NoFuel => (NoFuel, d') end
  | _, _ => (Panic, d)
  end.
Definition put_indexed (m : gmap bytes (Z * option bytes)) (o : CommitOverlay) : CommitOverlay := mkOverlay m (ov_btree o).
Definition put_btree (m : gmap bytes (Z * option bytes)) (o : CommitOverlay) : CommitOverlay := mkOverlay (ov_indexed o) m.

Fixpoint copy_indexed (record_id : Z) (l : list (Z * IndexedChangeSet)) (bytes : Z) : MD Z :=
  match l with
  | [] => mret bytes
  | (c, s) :: l' =>
      bytes ← on_overlay c ov_indexed put_indexed (λ rc, Indexed_copy_to_overlay record_id rc s) bytes;
      copy_indexed record_id l' bytes
  end.
Fixpoint copy_btree (record_id : Z) (l : list (Z * BTreeChangeSet)) (bytes : Z) : MD Z :=
  match l with
  | [] => mret bytes
  | (c, s) :: l' =>
      bytes ← on_overlay c ov_btree put_btree (λ rc, BTree_copy_to_overlay record_id rc s) bytes;
      copy_btree record_id l' bytes
  end.

Definition commit_raw (commit : CommitChangeSet) : MD unit :=
  d ← gets id;
  match db_bg_err d with
  | Some e => fail (Background e)
  | None =>
      let q := db_queue d in
      let qid := u64 (cq_record_id q + 1) in
      _ ← modify (set_queue (mkQueue qid (cq_bytes q) (cq_commits q)));
      let record_id := u64 (qid + 1) in
      bytes ← copy_indexed record_id (cs_indexed commit) 0;
      bytes ← copy_btree record_id (cs_btree commit) bytes;
      modify (λ d, set_queue (mkQueue (cq_record_id (db_queue d)) (cq_bytes (db_queue d) + bytes)
                     (cq_commits (db_queue d) ++ [mkCommit record_id bytes commit])) d)
  end.

Definition commit_changes (tx : list (Z * Operation bytes bytes)) : MD unit :=
  d ← gets id;
  commit ← lift (collect_changes tx d (mkChangeSet [] []));
  commit_raw commit.

Definition Db_commit (tx : list (Z * bytes * option bytes)) : MD unit :=
  commit_changes ((λ '(c, k, v), (c, match v with Some v => OpSet k v | None => OpDereference k end)) <$> tx).

(** ** Writing a commit to the log *)
Definition on_hash {A} (col : Z) (m : M (HashColumn * LogWriter) A) (w : LogWriter) (tree : A) : MD (A * LogWriter) := λ d,
  match db_columns d !! Z.to_nat col with
  | None => (Panic, d)
  | Some (Tree _) => (Ok (tree, w), d)
  | Some (Hash c) =>
      let '(o, (c', w')) := m (c, w) in
      (match o with Ok a => Ok (a, w') | Err e => Err e | Panic => Panic | NoFuel => NoFuel end, put_column col (Hash c') d)
  end.
Definition on_tree {A} (col : Z) (m : M (T * LogWriter) A) (w : LogWriter) (hash : outcome A) : MD (A * LogWriter) := λ d,
  match db_columns d !! Z.to_nat col with
  | None => (Panic, d)
  | Some (Hash _) => (match hash with Ok a => Ok (a, w) | Err e => Err e | Panic => Panic | NoFuel => NoFuel end, d)
  | Some (Tree t) =>
      let '(o, (t', w')) := m (t, w) in
      (match o with Ok a => Ok (a, w') | Err e => Err e | Panic => Panic | NoFuel => NoFuel end, put_column col (Tree t') d)
  end.

Fixpoint plan_indexed (l : list (Z * IndexedChangeSet)) (w : LogWriter) (ops : Z) (reindex : bool) : MD (Z * bool * LogWriter) :=
  match l with
  | [] => mret (ops, reindex, w)
  | (c, s) :: l' =>
      '((ops, reindex), w) ← on_hash c (Indexed_write_plan x86 junk s ops reindex) w (ops, reindex);
      plan_indexed l' w ops reindex
  end.
Fixpoint plan_btree (l : list (Z * BTreeChangeSet)) (w : LogWriter) (ops : Z) : MD (Z * LogWriter) :=
  match l with
  | [] => mret (ops, w)
  | (c, s) :: l' =>
      '(n, w) ← on_tree c (tree_write_plan (bs_changes s)) w (Err (InvalidConfiguration "Not an indexed column."));
      plan_btree l' w (ops + n)
  end.
Fixpoint complete_columns (cols : list nat) (w : LogWriter) : MD LogWriter :=
  match cols with
  | [] => mret w
  | i :: cols' =>
      '(_, w) ← on_hash (Z.of_nat i) HashColumn_complete_plan w tt;
      '(_, w) ← on_tree (Z.of_nat i) tree_complete_plan w (Ok tt);
      complete_columns cols' w
  end.

Definition end_record (w : LogWriter) : MD Z :=
  let l := change w in
  bytes ← on_log (Log_end_record crc32 (order_index (local_index l)) (order_value (local_values l)) l);
  _ ← modify (λ d, set_logged (db_logged_bytes d + bytes) d);
  mret bytes.

Definition clean_indexed (id : Z) (l : list (Z * IndexedChangeSet)) (o : list CommitOverlay) : list CommitOverlay :=
  foldl (λ o '(c, s), alter (λ x, put_indexed (Indexed_clean_overlay id s (ov_indexed x)) x) (Z.to_nat c) o) o l.
Definition clean_btree (id : Z) (l : list (Z * BTreeChangeSet)) (o : list CommitOverlay) : list CommitOverlay :=
  foldl (λ o '(c, s), alter (λ x, put_btree (BTree_clean_overlay id s (ov_btree x)).2 x) (Z.to_nat c) o) o l.

Definition process_commits : MD bool :=
  d ← gets id;
  match cq_commits (db_queue d) with
  | [] => mret false
  | commit :: rest =>
      _ ← modify (set_queue (mkQueue (cq_record_id (db_queue d)) (cq_bytes (db_queue d) - cm_bytes commit) rest));
      w ← on_log begin_record;
      '(ops, reindex, w) ← plan_indexed (cs_indexed (cm_changeset commit)) w 0 false;
      '(_, w) ← plan_btree (cs_btree (cm_changeset commit)) w ops;
      w ← complete_columns (seq 0 (length (db_columns d))) w;
      let record := record_id (change w) in
      _ ← end_record w;
      _ ← modify (λ d, set_overlay (clean_btree (cm_id commit) (cs_btree (cm_changeset commit))
                         (clean_indexed (cm_id commit) (cs_indexed (cm_changeset commit)) (db_overlay d))) d);
      _ ← (if (reindex : bool) then modify (start_reindex record) else mret tt);
      mret true
  end.

(** ** Reindexing *)
Fixpoint plan_batch (col : Z) (batch : list (bytes * Z)) (w : LogWriter) (next : bool) : MD (bool * LogWriter) :=
  match batch with
  | [] => mret (next, w)
  | (key, address) :: batch' =>
      '(r, w) ← on_hash col (write_reindex_plan x86 key address) w Skipped;
      plan_batch col batch' w (match r with NeedReindex => true | _ => next end)
  end.

Fixpoint reindex_columns (cols : list nat) : MD bool :=
  match cols with
  | [] => _ ← modify (start_reindex 0); mret false
  | i :: cols' =>
      d ← gets id;
      match db_columns d !! i with
      | Some (Hash c) =>
          let '(o, c') := HashColumn_reindex (lg_overlays (db_log d)) c in
          _ ← modify (put_column (Z.of_nat i) (Hash c'));
          b ← lift o;
          if bool_decide (batch b = []) && bool_decide (drop_index_id b = None) then reindex_columns cols'
          else
            w ← on_log begin_record;
            '(next_reindex, w) ← plan_batch (Z.of_nat i) (batch b) w false;
            let w := match drop_index_id b with Some t => drop_table t w | None => w end in
            let record := record_id (change w) in
            _ ← end_record w;
            _ ← (if (next_reindex : bool) then modify (start_reindex record) else mret tt);
            mret true
      | _ => reindex_columns cols'
      end
  end.

Definition process_reindex : MD bool :=
  d ← gets id;
  if bool_decide (db_next_reindex d = 0) || bool_decide (db_last_enacted d < db_next_reindex d) then mret false
  else reindex_columns (seq 0 (length (db_columns d))).
End db.
