(* ===== verification/DbEnact.v ===== *)
(** * The database: enacting, replaying and closing (src/src/db.rs)

    [enact_logs] applies the next record of the log to the tables.  At startup every record is
    first validated as a whole (its checksum, its sequence number, its items) and only then
    applied; the first record that fails ends the replay.  Loops run on fuel bounded by the
    bytes left in the log: every round reads at least one. *)

From S2P Require Import Prelude IndexEntry IndexChunk Log LogFiles Stats IndexTable ValueEntry File ValueTable Compress Options Column ColumnEnact Commit Db.

Section enact.
Context {T : Type} `{TreeColumn T} `{Compressors} `{Hashes}.
Context (x86 : bool) (junk : bytes) (crc32 : bytes → Z).
Context (order_index : gmap Z IndexLogOverlay → index_items) (order_value : gmap Z ValueLogOverlay → value_items).
Abbreviation Db := (DbInner T).
Abbreviation MR := (M (Db * LogReader)).

(** ** One item of a record *)
Definition action_col (action : LogAction) : Z :=
  match action with
  | InsertIndex t _ | InsertValue t _ | DropTable t => TableId_col t
  | _ => 0
  end.

Definition on_column (col : Z) (missing : outcome unit) (hash : M (HashColumn * LogReader) unit)
    (tree : M (T * LogReader) unit) : MR unit := λ '(d, r),
  match db_columns d !! Z.to_nat col with
  | None => (missing, (d, r))
  | Some (Hash c) => let '(o, (c', r')) := hash (c, r) in (o, (put_column col (Hash c') d, r'))
  | Some (Tree t) => let '(o, (t', r')) := tree (t, r) in (o, (put_column col (Tree t') d, r'))
  end.

(** [self.columns.get(col)] for validation, [self.columns[col]] for enacting. *)
Definition validate_item (action : LogAction) : MR unit :=
  on_column (action_col action) (Err (Corruption "Invalid column id"))
    (HashColumn_validate_plan action) (tree_validate_plan action).
Definition enact_item (action : LogAction) : MR unit :=
  on_column (action_col action) Panic (HashColumn_enact_plan action) (tree_enact_plan action).

Definition next_action : MR LogAction := λ '(d, r),
  let '(o, r') := LogReader_next crc32 r in (o, (d, r')).

(** ** A record *)
(** Whether a record may be enacted: it may, it may not and the remaining logs are to be
    cleared, or it may not. *)
Inductive verdict := Valid | ClearLogs | StopReplay.

Fixpoint validate_record (fuel : nat) : MR verdict := λ s,
  match fuel with
  | O => (NoFuel, s)
  | S fuel' =>
      match next_action s with
      | (Err _, s') => (Ok StopReplay, s')
      | (Panic, s') => (Panic, s')
      | (NoFuel, s') => (NoFuel, s')
      | (Ok BeginRecord, s') => (Ok ClearLogs, s')
      | (Ok EndRecord, s') => (Ok Valid, s')
      | (Ok (DropTable _), s') => validate_record fuel' s'
      | (Ok action, s') =>
          match validate_item action s' with
          | (Ok _, s'') => validate_record fuel' s''
          | (Err _, s'') => (Ok ClearLogs, s'')
          | (Panic, s'') => (Panic, s'')
          | (NoFuel, s'') => (NoFuel, s'')
          end
      end
  end.

Definition drop_index_at (id : Z) : MR unit := λ '(d, r),
  match db_columns d !! Z.to_nat (TableId_col id) with
  | None => (Panic, (d, r))
  | Some (Hash c) =>
      (Ok tt, (start_reindex (rd_record_id r) (put_column (TableId_col id) (Hash (HashColumn_drop_index id c)) d), r))
  | Some (Tree _) => (Ok tt, (d, r))
  end.

Fixpoint enact_record (fuel : nat) : MR unit :=
  match fuel with
  | O => lift NoFuel
  | S fuel' =>
      action ← next_action;
      match action with
      | BeginRecord => fail (Corruption "Bad log record")
      | EndRecord => mret tt
      | DropTable id => _ ← drop_index_at id; enact_record fuel'
      | _ => _ ← enact_item action; enact_record fuel'
      end
  end.

Definition reading_file (d : Db) : bytes :=
  match lg_reading (db_log d) with Some rg => file_of (db_log d) (rg_id rg) | None => [] end.
Definition record_fuel (r : LogReader) : nat := S (length (rd_stream r)).

Definition update_log (f : LogState → LogState) (d : Db) : Db := set_log (f (db_log d)) d.

(** Apply the record the reader is at, then forget its entries of the overlay. *)
Definition apply_record (validation : bool) (r : LogReader) : M Db bool := λ d,
  match enact_record (record_fuel r) (d, r) with
  | (Ok _, (d', r')) =>
      let rid := rd_record_id r' in
      let d' := update_log (Log_end_read (rd_cleared r') rid) (update_log (put_back r') (set_enacted rid d')) in
      (Ok true, if validation then d' else set_logged (db_logged_bytes d' - rd_read_bytes r') d')
  | (Err e, (d', r')) => (Err e, update_log (put_back r') d')
  | (Panic, (d', _)) => (Panic, d')
  | (NoFuel, (d', _)) => (NoFuel, d')
  end.

Definition enact_logs (validation : bool) : M Db bool := λ d,
  match Log_read_next crc32 validation (db_log d) with
  | (Err (Corruption m), l) =>
      if validation then (Ok false, set_log (clear_replay_logs l) d) else (Err (Corruption m), set_log l d)
  | (Err e, l) => (Err e, set_log l d)
  | (Panic, l) => (Panic, set_log l d)
  | (NoFuel, l) => (NoFuel, set_log l d)
  | (Ok None, l) => (Ok false, set_log l d)
  | (Ok (Some r), l) =>
      let d := set_log l d in
      if validation then
        if negb (bool_decide (rd_record_id r = u64 (db_last_enacted d + 1))) then (Ok false, update_log clear_replay_logs d)
        else match validate_record (record_fuel r) (d, r) with
             | (Ok Valid, (d', r')) =>
                 match LogReader_next crc32 (LogReader_reset (reading_file d') r') with
                 | (Ok _, r'') => apply_record validation r'' d'
                 | (Err e, r'') => (Err e, update_log (put_back r'') d')
                 | (Panic, _) => (Panic, d')
                 | (NoFuel, _) => (NoFuel, d')
                 end
             | (Ok ClearLogs, (d', _)) => (Ok false, update_log clear_replay_logs d')
             | (Ok StopReplay, (d', r')) => (Ok false, update_log (put_back r') d')
             | (Err e, (d', _)) => (Err e, d')
             | (Panic, (d', _)) => (Panic, d')
             | (NoFuel, (d', _)) => (NoFuel, d')
             end
      else apply_record validation r d
  end.

(** ** Flushing and cleaning *)
Definition flush_logs (min_log_size : Z) : M Db bool := on_log (flush_one min_log_size).

Definition Db_clean_logs : M Db bool :=
  d ← gets id;
  let keep_logs := if op_sync_data (db_options d) then 0%nat else KEEP_LOGS in
  let num_cleanup := num_dirty_logs (db_log d) in
  if bool_decide (keep_logs < num_cleanup)%nat then on_log (clean_logs (num_cleanup - keep_logs)) else mret false.
Definition clean_all_logs : M Db unit :=
  d ← gets id; _ ← on_log (clean_logs (num_dirty_logs (db_log d))); mret tt.

(** [while self.enact_logs(validation)? {}] *)
Fixpoint enact_all (fuel : nat) (validation : bool) : M Db unit :=
  match fuel with
  | O => lift NoFuel
  | S fuel' => more ← enact_logs validation; if (more : bool) then enact_all fuel' validation else mret tt
  end.
Definition log_size (d : Db) : nat := sum_list (length <$> (map_to_list (lg_disk (db_log d))).*2).
Definition log_fuel (d : Db) : nat := (2 + log_size d)%nat.

(** ** Startup *)
Fixpoint refresh_columns (l : list (ColumnOf T)) : outcome (list (ColumnOf T)) :=
  match l with
  | [] => Ok []
  | Hash c :: l' => c ← HashColumn_refresh_metadata c; l' ← refresh_columns l'; Ok (Hash c :: l')
  | Tree t :: l' => t ← tree_refresh_metadata t; l' ← refresh_columns l'; Ok (Tree t :: l')
  end.

Fixpoint replay_loop (fuel : nat) : M Db unit :=
  match fuel with
  | O => lift NoFuel
  | S fuel' =>
      next ← on_log replay_next;
      match next with
      | None => mret tt
      | Some _ => d ← gets id; _ ← enact_all (log_fuel d) true; replay_loop fuel'
      end
  end.
Definition replay_all_logs : M Db unit :=
  d ← gets id;
  _ ← replay_loop (S (length (lg_replay (db_log d))));
  d ← gets id;
  cols ← lift (refresh_columns (db_columns d));
  modify (set_columns cols).

(** [Db::open_inner] once the columns are open. *)
Definition finish_open : M Db unit :=
  _ ← replay_all_logs;
  _ ← modify (update_log clear_replay_logs);
  _ ← clean_all_logs;
  modify (update_log kill_logs).

(** [Column::open]: [value_files] and [index_files] are the files of the column. *)
Definition HashColumn_open (index_files : Z → option IndexMap) (col : Z) (value : list ValueTable) (options : Options)
    (metadata : Metadata) : outcome HashColumn :=
  '(index, reindexing, stats) ← open_index index_files col;
  match md_columns metadata !! Z.to_nat col with
  | None => Panic
  | Some o =>
      Ok (mkColumn col index value reindexing 0 (co_preimage o) (co_uniform o) (op_stats options) (co_ref_counted o)
            (md_salt metadata) stats
            (Compress_new (co_compression o) (default DEFAULT_COMPRESSION_THRESHOLD (op_compression_threshold options !! col)))
            (md_version metadata))
  end.
Definition Column_open (value_files : nat → option bytes) (index_files : Z → option IndexMap) (col : Z) (options : Options)
    (metadata : Metadata) : outcome (ColumnOf T) :=
  match md_columns metadata !! Z.to_nat col with
  | None => Panic
  | Some o =>
      value ← open_tables value_files col (co_ref_counted o) (md_version metadata);
      if co_btree_index o then t ← tree_open col value options metadata; Ok (Tree t)
      else c ← HashColumn_open index_files col value options metadata; Ok (Hash c)
  end.

Definition DbInner_open (options : Options) (metadata : Metadata) (log : LogState) (columns : list (ColumnOf T)) : Db :=
  let options := match op_salt options with
                 | Some _ => options
                 | None => mkOptions (op_columns options) (op_sync_wal options) (op_sync_data options) (op_stats options)
                             (Some (md_salt metadata)) (op_compression_threshold options)
                 end in
  mkDb columns options log (mkQueue 0 0 []) (replicate (length columns) CommitOverlay_new) 0
    (u64 (default 2 (replay_record_id log) - 1)) 1 None (md_version metadata).

Fixpoint open_columns (value_files : Z → nat → option bytes) (index_files : Z → Z → option IndexMap) (options : Options)
    (metadata : Metadata) (cols : list nat) : outcome (list (ColumnOf T)) :=
  match cols with
  | [] => Ok []
  | i :: cols' =>
      c ← Column_open (value_files (Z.of_nat i)) (index_files (Z.of_nat i)) (Z.of_nat i) options metadata;
      l ← open_columns value_files index_files options metadata cols';
      Ok (c :: l)
  end.

(** [Db::open_inner]: the files of the database directory are the metadata, the logs, and the
    tables of each column; the result is the database after the replay and the metadata file. *)
Definition Db_open `{Hex} (create : bool) (options : Options) (random : bytes) (metadata_file : option string)
    (log_files : list Z) (log_disk : gmap Z bytes) (value_files : Z → nat → option bytes)
    (index_files : Z → Z → option IndexMap) : outcome (Db * option string) :=
  if negb (Options_is_valid options) then Panic
  else
    '(metadata, file) ← load_and_validate_metadata options create random metadata_file;
    log ← Log_open log_files log_disk;
    columns ← open_columns value_files index_files options metadata (seq 0 (length (md_columns metadata)));
    match finish_open (DbInner_open options metadata log columns) with
    | (Ok _, d) => Ok (d, file)
    | (Err e, _) => Err e
    | (Panic, _) => Panic
    | (NoFuel, _) => NoFuel
    end.

(** ** Shutdown *)
Fixpoint process_all (fuel : nat) : M Db unit :=
  match fuel with
  | O => lift NoFuel
  | S fuel' =>
      more ← process_commits x86 junk crc32 order_index order_value;
      if (more : bool) then process_all fuel' else mret tt
  end.
Definition enact_rest : M Db unit := d ← gets id; enact_all (log_fuel d) false.
Definition Db_kill_logs : M Db unit :=
  d ← gets id;
  match db_bg_err d with
  | Some _ => _ ← on_log (clean_logs (num_dirty_logs (db_log d))); mret tt
  | None =>
      _ ← enact_rest; _ ← flush_logs 0;
      d ← gets id;
      _ ← process_all (S (length (cq_commits (db_queue d))));
      _ ← enact_rest; _ ← flush_logs 0; _ ← enact_rest;
      _ ← clean_all_logs;
      modify (update_log kill_logs)
  end.

Definition store_err (e : error) (d : Db) : Db :=
  match db_bg_err d with
  | Some _ => d
  | None => mkDb (db_columns d) (db_options d) (db_log d) (db_queue d) (db_overlay d) (db_logged_bytes d) (db_last_enacted d)
              (db_next_reindex d) (Some e) (db_version_ d)
  end.
End enact.
