(* ===== verification/DbTheorems.v ===== *)
(** * The database: theorems *)

From Stdlib Require Import String.
From S2P Require Import Prelude IndexEntry IndexChunk Log LogFiles LogQueue Stats IndexTable ValueEntry File ValueTable ValueTheorems Compress Options Column ColumnEnact Commit CommitView Db DbEnact.

(** ** A database with one hash column and no tree columns *)
#[export] Instance no_trees : TreeColumn Empty_set := {|
  tree_open _ _ _ _ := Panic;
  tree_get _ _ (t : Empty_set) := match t with end;
  tree_write_plan _ := lift Panic;
  tree_complete_plan := lift Panic;
  tree_enact_plan _ := lift Panic;
  tree_validate_plan _ := lift Panic;
  tree_refresh_metadata t := Ok t;
|}.

Definition one_column : Options :=
  mkOptions [mkColumnOptions false true false NoCompression false] true true false (Some (replicate 32 Byte.x00)) ∅.
Definition one_metadata : Metadata := mkMetadata (replicate 32 Byte.x00) 8 (op_columns one_column).
Definition test_hashes : Hashes := {| blake2b_mac _ key := take 32 key; siphash13_128 _ _ := (1, 2) |}.
Definition one_db : DbInner Empty_set :=
  match Db_open (H2 := toy_hex) toy_crc true one_column [] None [] ∅ (λ _ _, None) (λ _ _, None) with
  | Ok (d, _) => d
  | _ => DbInner_open one_column one_metadata new_log []
  end.

(** ** A commit that is refused *)
Definition refused : list (Z * Operation bytes bytes) :=
  [(0, OpSet key_a [Byte.x01; Byte.x02]); (0, OpReference key_a)].
Definition after_refused : outcome unit * DbInner Empty_set := commit_changes (H1 := test_hashes) refused one_db.


(** ** Adding a column to an older database *)
Lemma xor_bytes_id a b : length a = length b → xor_bytes a b = a → b = replicate (length b) Byte.x00.
Proof.
  revert b. induction a as [|x a IH]; intros [|y b]; try done. simpl. intros [= Hl] [= Hx Hr]. f_equal; [|by apply IH].
  apply (f_equal byte_val) in Hx. rewrite byte_val_of in Hx. change 256 with (2 ^ 8) in Hx.
  apply byte_val_inj. change (byte_val Byte.x00) with 0. pose proof (byte_val_range y).
  rewrite <-(Z.mod_small (byte_val y) (2 ^ 8)) by lia. apply Z.bits_inj_iff'. intros n Hn. rewrite Z.bits_0.
  destruct (decide (n < 8)); [|by rewrite Z.mod_pow2_bits_high by lia].
  apply (f_equal (λ z, Z.testbit z n)) in Hx. rewrite Z.mod_pow2_bits_low, Z.lxor_spec in Hx by lia.
  rewrite Z.mod_pow2_bits_low by lia. by destruct (Z.testbit (byte_val x) n), (Z.testbit (byte_val y) n).
Qed.

(** C37. [add_column] rewrites the metadata with the current version, whatever the version of the
    database was.  After adding a column to a database of version 6 or 7, the key of a uniform
    column is hashed differently than before whenever the second half of the salt is not all
    zero: the values stored before under any key of 32 bytes are looked up elsewhere. *)
Theorem add_column_rehashes_keys (HX : Hex) (HS : Hashes) o new_column key salt version :
  HexOk HX → length salt = 32%nat → length key = 32%nat → 6 ≤ version ≤ 7 → drop 16 salt ≠ replicate 16 Byte.x00 →
  ∃ md, load_metadata_file (Some (add_column o new_column salt).2) = Ok (Some md) ∧ md_version md = 8 ∧
    hash_key key salt true version ≠ hash_key key salt true (md_version md).
Proof.
  intros Hhex Hs Hk Hv Hz. eexists. split.
  { apply load_written; [done|done|]. vm_compute. split; congruence. }
  split; [reflexivity|].
  cbn [md_version]. unfold hash_key. rewrite bool_decide_false, bool_decide_true by lia.
  cbn [default from_option id]. rewrite !bool_decide_false by (unfold CURRENT_VERSION; lia).
  assert (E : slice key 0 32 = Ok key). { rewrite <-Hk. rewrite <-(app_nil_r key) at 1. by apply slice_app_l. }
  rewrite E. cbn [mbind outcome_bind]. destruct (slice salt 0 16) as [s16| | |] eqn:E16; cbn [mbind outcome_bind]; [|done..].
  destruct (siphash13_128 s16 key) as [h1 h2].
  assert (E2 : slice key 16 (length key) = Ok (drop 16 key)).
  { rewrite <-(take_drop 16 key) at 1. rewrite <-(app_nil_r (drop 16 key)) at 1.
    apply slice_mid; rewrite length_take, ?length_drop; lia. }
  rewrite E2. cbn [mbind outcome_bind]. rewrite bool_decide_true by (rewrite length_drop; lia). intros [= Hx].
  apply Hz. apply (f_equal (drop 16)) in Hx. unfold xor_bytes in Hx. rewrite zip_with_drop in Hx.
  rewrite app_assoc, drop_app_length' in Hx by (rewrite length_app, !le_bytes_length; done).
  apply xor_bytes_id in Hx; [|rewrite !length_drop; lia]. rewrite Hx, length_drop, Hs. done.
Qed.

Lemma add_column_rehashes_keys_witness :
  ∃ md, load_metadata_file (H := toy_hex) (Some (add_column (H := toy_hex) one_column ColumnOptions_default (replicate 32 Byte.x2a)).2)
    = Ok (Some md) ∧ md_version md = 8 ∧
    hash_key (H := test_hashes) key_a (replicate 32 Byte.x2a) true 7
    ≠ hash_key (H := test_hashes) key_a (replicate 32 Byte.x2a) true (md_version md).
Proof.
  apply (add_column_rehashes_keys toy_hex test_hashes one_column ColumnOptions_default key_a (replicate 32 Byte.x2a) 7).
  - apply toy_hex_ok.
  - reflexivity.
  - reflexivity.
  - lia.
  - intros E. vm_compute in E. congruence.
Defined.
