(* ===== verification/DbPipeline.v ===== *)
(** * The database: enacting records

    A database of hash columns whose log holds records that are not enacted yet.  Enacting the
    next record writes it to the files of the columns and removes it from the overlays. *)

From S2P Require Import Prelude IndexEntry IndexChunk Log LogFiles LogQueue Stats IndexTable IndexEnact ValueEntry File ValueTable ValueSlots ValueChains ValueWrite ValueRead ValueInv ValueSpec ValueFile Compress Options Column ColumnEnact ColumnIndex ColumnTables ColumnInv RecordItems LogRecords ColumnApply ColumnPipeline Commit Db DbEnact.
#[local] Arguments mask_bits : simpl never.
#[local] Opaque mask_bits.

(** ** The columns of a database *)
(** The contents of a column: the addresses of the keys and the values. *)
Abbreviation contents_of := (gmap bytes Z * list (gmap Z vrec))%type.
Definition cols_ok (cols : list HashColumn) : Prop := ∀ i c, cols !! i = Some c → files_ok c ∧ hc_col c = Z.of_nat i.
Definition item_in (cols : list HashColumn) (it : item) : Prop :=
  ∃ c, cols !! Z.to_nat (TableId_col (item_id it)) = Some c ∧ item_for c it.

(** What a column does with its changes and its values; it does not change. *)
Definition settings (c : HashColumn) : bool * bool * Compress := (hc_ref_counted c, hc_preimage c, hc_compression c).
Lemma settings_Forall2 (R : HashColumn → HashColumn → Prop) cols cols' :
  (∀ c c', R c c' → settings c' = settings c) → Forall2 R cols cols' → settings <$> cols' = settings <$> cols.
Proof. intros HR. induction 1 as [|c c' cols cols' Hc _ IH]; [done|]. rewrite !fmap_cons. f_equal; [by apply HR|done]. Qed.

Lemma item_in_pos cols it : item_in cols it → item_pos it.
Proof. intros (c & _ & Hit). by eapply item_for_pos. Qed.

Section lists.
Context {cols : list HashColumn} (Hok : cols_ok cols).

(** One item changes its own column. *)
Lemma enacted_at it c c' :
  cols !! Z.to_nat (TableId_col (item_id it)) = Some c → enacted [it] c c' →
  Forall2 (enacted [it]) cols (<[Z.to_nat (TableId_col (item_id it)) := c']> cols).
Proof.
  intros Ec Hen. apply Forall2_same_length_lookup_2; [by rewrite length_insert|]. intros i x y Ex. rewrite list_lookup_insert.
  case_decide as Hd; [destruct Hd as [<- _]; intros [= <-]; congruence|]. intros Ey. assert (y = x) as -> by congruence.
  destruct (Hok _ _ Ex) as [Hx Hcol]. apply enacted_other; [done|]. rewrite Hcol. intros He. apply Hd. rewrite He, Nat2Z.id.
  split; [done|]. by eapply lookup_lt_Some.
Qed.

Lemma enacted_cols_ok {l cols'} : Forall2 (enacted l) cols cols' → cols_ok cols'.
Proof.
  intros He i c' Ec'. destruct (Forall2_lookup_r _ _ _ _ _ He Ec') as (c & Ec & Hen). destruct (Hok _ _ Ec) as [Hc Hcol].
  split; [by eapply enacted_files_ok|]. by rewrite (en_rest Hen).
Qed.
Lemma enacted_item_in {l cols'} it : Forall2 (enacted l) cols cols' → item_in cols it → item_in cols' it.
Proof.
  intros He (c & Ec & Hit). destruct (Forall2_lookup_l _ _ _ _ _ He Ec) as (c' & Ec' & Hen). exists c'. split; [done|].
  by eapply enacted_item_for.
Qed.
Lemma enacted_cols_nil : Forall2 (enacted []) cols cols.
Proof.
  apply Forall2_same_length_lookup_2; [done|]. intros i x y Ex Ey. assert (y = x) as -> by congruence. apply enacted_nil. by eapply Hok.
Qed.
Lemma enacted_cols_app {l l' cols1 cols2} :
  Forall item_pos l → Forall2 (enacted l) cols cols1 → Forall2 (enacted l') cols1 cols2 → Forall2 (enacted (l ++ l')) cols cols2.
Proof.
  intros Hp H1 H2. apply Forall2_same_length_lookup_2; [by rewrite (Forall2_length _ _ _ H1), (Forall2_length _ _ _ H2)|].
  intros i x z Ex Ez. destruct (Forall2_lookup_l _ _ _ _ _ H1 Ex) as (y & Ey & He1).
  destruct (Forall2_lookup_l _ _ _ _ _ H2 Ey) as (z' & Ez' & He2). assert (z' = z) as -> by congruence. by eapply enacted_app.
Qed.
End lists.

(** ** A record *)
(** What a reader has to clear after some items. *)
Definition cleared_more (cl cl' : Cleared) (l : list item) : Prop :=
  (∀ x, x ∈ cl_index cl → x ∈ cl_index cl') ∧ (∀ x, x ∈ cl_values cl → x ∈ cl_values cl') ∧ clears cl' l.

Lemma cleared_cons it r r' l :
  cleared_more (rd_cleared (read_item it r)) (rd_cleared r') l → cleared_more (rd_cleared r) (rd_cleared r') (it :: l).
Proof.
  intros (Hi & Hv & Ci & Cv). destruct it as [id ci m ch|id i d]; simpl in Hi, Hv.
  - split_and!; try done; [set_solver|]. split.
    + intros id' i d [[=]|Hin]%elem_of_cons. by eapply Ci.
    + intros id' ci' m' ch' [[= <- <- <- <-]|Hin]%elem_of_cons; [apply Hi; set_solver|by eapply Cv].
  - split_and!; try done; [set_solver|]. split.
    + intros id' i' d' [[= <- <- <-]|Hin]%elem_of_cons; [apply Hv; set_solver|by eapply Ci].
    + intros id' ci' m' ch' [[=]|Hin]%elem_of_cons. by eapply Cv.
Qed.

Section db.
Context {T : Type} `{TreeColumn T} (crc32 : bytes → Z).
Abbreviation Db := (DbInner T).
Definition hash_columns (cols : list HashColumn) (d : Db) : Db := set_columns (Hash <$> cols) d.

Lemma enact_one it cols d r rest :
  cols_ok cols → item_in cols it → db_columns d = Hash <$> cols → rd_stream r = enc_item it ++ rest →
  ∃ r1 cols', LogReader_next crc32 r = (Ok (action_of it), r1) ∧ Forall2 (enacted [it]) cols cols' ∧
    enact_item (action_of it) (d, r1) = (Ok tt, (hash_columns cols' d, read_item it r)).
Proof.
  intros Hok (c & Ec & Hit) Hd Hs. destruct (Hok _ _ Ec) as [Hc Hcol].
  destruct (enact_item_run Hc it rest r Hit Hs) as (c' & E2 & Hen). pose proof (next_head Hc crc32 it rest r Hit Hs) as E1.
  exists (read_head it r), (<[Z.to_nat (TableId_col (item_id it)) := c']> cols). split_and!; [done|by eapply enacted_at|].
  assert (Hac : action_col (action_of it) = TableId_col (item_id it)) by (by destruct it).
  unfold enact_item, on_column. rewrite Hac, Hd, list_lookup_fmap, Ec. simpl. rewrite E2. unfold put_column, hash_columns.
  by rewrite Hd, list_fmap_insert.
Qed.

Lemma read_item_stream it rest r : rd_stream r = enc_item it ++ rest → rd_stream (read_item it r) = rest.
Proof. intros Hs. unfold read_item. by destruct it; apply consume_stream. Qed.
Lemma read_item_id it r : rd_record_id (read_item it r) = rd_record_id r.
Proof. by destruct it. Qed.
Lemma read_item_validate it r : rd_validate (read_item it r) = rd_validate r.
Proof. by destruct it. Qed.
Lemma read_item_crc it r : rd_validate r = true → rd_crc (read_item it r) = rd_crc r ++ enc_item it.
Proof. destruct it; simpl; by intros ->. Qed.

Lemma enact_record_run l : ∀ fuel cols d r sum rest,
  (length l < fuel)%nat → cols_ok cols → Forall (item_in cols) l → db_columns d = Hash <$> cols → in_range 32 sum →
  rd_stream r = concat (enc_item <$> l) ++ le_bytes 1 END_RECORD ++ le_bytes 4 sum ++ rest →
  (rd_validate r = true → sum = crc32 (rd_crc r ++ concat (enc_item <$> l) ++ le_bytes 1 END_RECORD)) →
  ∃ cols' r', enact_record crc32 fuel (d, r) = (Ok tt, (hash_columns cols' d, r')) ∧ Forall2 (enacted l) cols cols' ∧
    rd_stream r' = rest ∧ rd_record_id r' = rd_record_id r ∧ cleared_more (rd_cleared r) (rd_cleared r') l.
Proof.
  induction l as [|it l IH]; intros [|fuel] cols d r sum rest Hf Hok Hin Hd Hsum Hs Hv; try (simpl in Hf; lia); cbn [enact_record].
  - destruct (next_end crc32 sum rest r Hsum Hs) as (r' & E & H1 & H2 & H3 & _); [by intros ?; apply Hv|].
    exists cols, r'. split_and!; try done.
    + assert (Ea : next_action crc32 (d, r) = (Ok EndRecord, (d, r'))) by (unfold next_action; by rewrite E). mstep Ea.
      unfold hash_columns. rewrite <-Hd. by destruct d.
    + by apply enacted_cols_nil.
    + rewrite H3. split_and!; try done. split; intros; set_solver.
  - apply Forall_cons in Hin as [Hit Hin]. change (concat (enc_item <$> it :: l)) with (enc_item it ++ concat (enc_item <$> l)) in Hs, Hv.
    rewrite <-app_assoc in Hs. destruct (enact_one it cols d r _ Hok Hit Hd Hs) as (r1 & cols1 & E1 & Hen & E2).
    destruct (IH fuel cols1 (hash_columns cols1 d) (read_item it r) sum rest) as (cols2 & r2 & E & H1 & H2 & H3 & H4); try done.
    + simpl in Hf. lia.
    + by eapply enacted_cols_ok.
    + eapply Forall_impl; [done|]. intros. by eapply enacted_item_in.
    + by apply read_item_stream.
    + rewrite read_item_validate. intros Ev. rewrite read_item_crc by done. rewrite (Hv Ev). by rewrite <-!app_assoc.
    + exists cols2, r2. split_and!.
      * assert (Ea : next_action crc32 (d, r) = (Ok (action_of it), (d, r1))) by (unfold next_action; by rewrite E1). mstep Ea.
        change (hash_columns cols2 (hash_columns cols1 d)) with (hash_columns cols2 d) in E. 
        destruct it; (etransitivity; [exact (M_bind_Ok _ _ _ _ _ E2)|exact E]).
      * change (it :: l) with ([it] ++ l). eapply enacted_cols_app; [|done|done]. constructor; [by eapply item_in_pos|constructor].
      * done.
      * by rewrite H3, read_item_id.
      * by apply cleared_cons.
Qed.

(** ** A database whose records wait

    [cts] are the contents of the columns, as readers see them. *)
Record db_ready `{Compressors} (d : Db) (cols : list HashColumn) (kept pending : list rec) (cts : list contents_of) : Prop := {
  dr_cols : db_columns d = Hash <$> cols;
  dr_number : ∀ i c, cols !! i = Some c → hc_col c = Z.of_nat i;
  dr_log : log_ok (db_log d) ∧ log_holds crc32 (db_log d) kept pending;
  dr_over : over (lg_overlays (db_log d)) pending;
  dr_ids : ∃ first, 1 ≤ first ∧ (kept ++ pending).*1 = seqZ first (Z.of_nat (length (kept ++ pending))) ∧
    first + Z.of_nat (length (kept ++ pending)) = lg_next_record_id (db_log d) ∧ lg_next_record_id (db_log d) < 2 ^ 64;
  dr_items : ∀ it, it ∈ items_in (kept ++ pending) → is_Some (cols !! Z.to_nat (TableId_col (item_id it)));
  dr_ready : ∀ c, c ∈ cols → col_ready c (lg_overlays (db_log d)) kept pending;
  dr_contents : Forall2 (λ c ct, col_inv c (lg_overlays (db_log d)) ct.1 ct.2) cols cts;
}.

Section ready.
Context `{HC : Compressors} {d : Db} {cols : list HashColumn} {kept pending : list rec} {cts : list contents_of}.
Context (Hdb : db_ready d cols kept pending cts).

Lemma ready_cols_ok : cols_ok cols.
Proof.
  intros i c Ec. split; [|by apply (dr_number _ _ _ _ _ Hdb)]. eapply cr_files. apply (dr_ready _ _ _ _ _ Hdb). by eapply list_elem_of_lookup_2.
Qed.
Lemma ready_item it : it ∈ items_in (kept ++ pending) → item_in cols it.
Proof.
  intros Hin. destruct (dr_items _ _ _ _ _ Hdb _ Hin) as [c Ec]. exists c. split; [done|].
  eapply cr_items; [apply (dr_ready _ _ _ _ _ Hdb); by eapply list_elem_of_lookup_2|done|]. rewrite (dr_number _ _ _ _ _ Hdb _ _ Ec).
  rewrite Z2Nat.id; [done|]. unfold TableId_col, wrap. by apply Z.mod_pos_bound.
Qed.
Lemma ready_range : Forall (λ r, in_range 64 r.1) (kept ++ pending) ∧ NoDup (kept ++ pending).*1.
Proof.
  destruct (dr_ids _ _ _ _ _ Hdb) as (first & H1 & H2 & H3 & H4). split; [|rewrite H2; apply NoDup_seqZ].
  apply Forall_forall. intros r Hr. assert (Hin : r.1 ∈ (kept ++ pending).*1) by (by apply list_elem_of_fmap_2).
  rewrite H2 in Hin. apply elem_of_seqZ in Hin. unfold in_range. lia.
Qed.
Lemma ready_chunks c : c ∈ cols → ∀ ci, length (chunk_view (hc_index c) (lg_overlays (db_log d)) ci) = CHUNK_LEN.
Proof.
  intros [i Hi]%list_elem_of_lookup_1. destruct (Forall2_lookup_l _ _ _ _ _ (dr_contents _ _ _ _ _ Hdb) Hi) as (ct & _ & Hinv).
  apply (xi_wf (ci_index Hinv)).
Qed.
End ready.

(** The state after the first record has been enacted and its entries of the overlays removed. *)
Lemma db_ready_enact `{HC : Compressors} d cols kept r rs cts cols' cl l' :
  db_ready d cols kept (r :: rs) cts → Forall2 (enacted r.2) cols cols' → clears cl r.2 →
  log_ok l' → log_holds crc32 l' (kept ++ [r]) rs → lg_overlays l' = end_read_overlays cl r.1 (lg_overlays (db_log d)) →
  lg_next_record_id l' = lg_next_record_id (db_log d) →
  ∀ d', db_columns d' = Hash <$> cols' → db_log d' = l' → db_ready d' cols' (kept ++ [r]) rs cts.
Proof.
  intros Hdb Hen Hcl Hok Hh Ho Hnx d' Hc' Hl'. destruct r as [rid l]. simpl in Hen, Hcl, Ho.
  assert (Hall : (kept ++ [(rid, l)]) ++ rs = kept ++ (rid, l) :: rs) by (by rewrite <-app_assoc).
  assert (Hsub : ∀ it, it ∈ l → it ∈ items_in (kept ++ (rid, l) :: rs)).
  { intros it Hin. rewrite items_in_app. apply elem_of_app. right. change (items_in ((rid, l) :: rs)) with (l ++ items_in rs). set_solver. }
  assert (Hpos : Forall item_pos l).
  { apply Forall_forall. intros it Hin. eapply item_in_pos, (ready_item Hdb). by apply Hsub. }
  assert (Hid : rid ∉ rs.*1).
  { destruct (ready_range Hdb) as [_ Hn]. rewrite fmap_app in Hn. apply NoDup_app in Hn as (_ & _ & Hn). by apply NoDup_cons in Hn as [? _]. }
  assert (Hcol : ∀ i c', cols' !! i = Some c' → ∃ c, cols !! i = Some c ∧ enacted l c c' ∧
    same_view c (lg_overlays (db_log d)) c' (lg_overlays l') ∧ col_ready c' (lg_overlays l') (kept ++ [(rid, l)]) rs).
  { intros i c' Ec'. destruct (Forall2_lookup_r _ _ _ _ _ Hen Ec') as (c & Ec & He). exists c. rewrite Ho.
    assert (Hin : c ∈ cols) by (by eapply list_elem_of_lookup_2).
    destruct (col_ready_enact c c' (lg_overlays (db_log d)) kept rid l rs cl) as [H1 H2]; try done; [by apply Hdb|apply Hdb|by apply (ready_chunks Hdb)]. }
  split; rewrite ?Hl', ?Hnx, ?Hall; try done.
  - intros i c' Ec'. destruct (Hcol _ _ Ec') as (c & Ec & He & _). rewrite (en_rest He). exact (dr_number _ _ _ _ _ Hdb _ _ Ec).
  - rewrite Ho. by eapply over_clear; [apply Hdb|..].
  - apply Hdb.
  - intros it Hin. destruct (dr_items _ _ _ _ _ Hdb _ Hin) as [c Ec]. destruct (Forall2_lookup_l _ _ _ _ _ Hen Ec) as (c' & -> & _). eauto.
  - intros c' [i Ei]%list_elem_of_lookup_1. by destruct (Hcol _ _ Ei) as (c & _ & _ & _ & ?).
  - apply Forall2_same_length_lookup_2; [by rewrite <-(Forall2_length _ _ _ Hen), (Forall2_length _ _ _ (dr_contents _ _ _ _ _ Hdb))|].
    intros i c' ct Ec' Ect. destruct (Hcol _ _ Ec') as (c & Ec & _ & Hsv & _). apply (col_inv_view Hsv).
    destruct (Forall2_lookup_l _ _ _ _ _ (dr_contents _ _ _ _ _ Hdb) Ec) as (ct' & Ect' & ?). by rewrite Ect in Ect'; injection Ect' as <-.
Qed.

Context (Hcrc : ∀ b, in_range 32 (crc32 b)).

Lemma enc_items_length l : (length l ≤ length (concat (enc_item <$> l)))%nat.
Proof.
  induction l as [|it l IH]; [done|]. change (concat (enc_item <$> it :: l)) with (enc_item it ++ concat (enc_item <$> l)).
  rewrite length_app. cbn [length]. assert (1 ≤ length (enc_item it))%nat; [|lia].
  destruct it; simpl enc_item; unfold encode_index_item, encode_value_item; rewrite length_app, le_bytes_length; lia.
Qed.

Lemma enact_logs_run `{HC : Compressors} d cols kept pending cts :
  db_ready d cols kept pending cts →
  (∃ d', enact_logs crc32 false d = (Ok false, d') ∧ db_ready d' cols kept pending cts) ∨
  (∃ r rs d' cols', pending = r :: rs ∧ enact_logs crc32 false d = (Ok true, d') ∧ db_ready d' cols' (kept ++ [r]) rs cts ∧
    settings <$> cols' = settings <$> cols).
Proof.
  intros Hdb. destruct (dr_log _ _ _ _ _ Hdb) as [Hok Hh]. destruct (ready_range Hdb) as [Hrange _]. apply Forall_app in Hrange as [_ Hrange].
  unfold enact_logs.
  destruct (read_next_record crc32 false (db_log d) kept pending Hh Hrange)
    as [(l' & E & Hh' & Ho & Hnx)|(r & rs & rest & rd & l' & -> & E & Ho & Hnx & Hat & Hv & Hback)];
    rewrite E; pose proof (read_next_ok crc32 _ _ _ _ Hok E) as Hok'.
  - left. eexists. split; [done|]. destruct Hdb. split; simpl; rewrite ?Ho, ?Hnx; done.
  - right. destruct Hat as (Hrid & Hcl0 & _ & Hs). set (d1 := set_log l' d).
    assert (Hin : ∀ it, it ∈ r.2 → it ∈ items_in (kept ++ r :: rs)).
    { intros it Hin. rewrite items_in_app. apply elem_of_app. right. change (items_in (r :: rs)) with (r.2 ++ items_in rs). set_solver. }
    destruct (enact_record_run r.2 (record_fuel rd) cols d1 rd (crc32 (record_items r)) rest) as (cols' & r' & E' & Hen & Hrest & Hid & Hcl).
    + unfold record_fuel. rewrite Hs, length_app. pose proof (enc_items_length r.2). lia.
    + apply (ready_cols_ok Hdb).
    + apply Forall_forall. intros it Hit. by apply (ready_item Hdb), Hin.
    + apply Hdb.
    + apply Hcrc.
    + done.
    + rewrite Hv. done.
    + exists r, rs. eexists _, cols'. split; [done|]. split; [unfold apply_record; rewrite E'; done|]. rewrite Hid, Hrid.
      split; [|eapply settings_Forall2, Hen; intros c c' He; unfold settings; by rewrite (en_rest He)].
      set (cl := rd_cleared r') in *. set (lf := Log_end_read cl r.1 (put_back r' l')).
      assert (Hput : lg_overlays (put_back r' l') = lg_overlays l' ∧ lg_next_record_id (put_back r' l') = lg_next_record_id l').
      { unfold put_back. by destruct (lg_reading l'). }
      eapply (db_ready_enact d cols kept r rs cts cols' cl lf); try done.
      * apply Hcl.
      * apply (log_ok_perm (put_back r' l')); try done. by apply put_back_ok.
      * destruct (Hback r' Hrest) as (old & done & now & queued & last & [? ? ? ? ?] & ? & ?). exists old, done, now, queued, last. by split.
      * simpl. by rewrite (proj1 Hput), Ho.
      * simpl. rewrite (proj2 Hput), Hnx. rewrite bool_decide_false; [done|]. destruct (dr_ids _ _ _ _ _ Hdb) as (first & _ & H2 & H3 & _).
        assert (Hr : r.1 ∈ (kept ++ r :: rs).*1) by (rewrite fmap_app; set_solver). rewrite H2 in Hr. apply elem_of_seqZ in Hr. lia.
Qed.
End db.
