(* ===== verification/DbPlan.v ===== *)
(** * The database: writing a commit to the log

    [process_commits] plans the changes of a commit on its columns, completes the record with
    the headers that have changed, and appends it to the log. *)

From S2P Require Import Prelude IndexEntry IndexChunk Log LogFiles LogQueue Stats IndexTable IndexEnact ValueEntry File ValueTable ValueSlots ValueChains ValueWrite ValueRead ValueInv ValueSpec ValueFile Compress Options Column ColumnEnact ColumnSearch ColumnIndex ColumnTables ColumnValues ColumnRecord ColumnInv ColumnWrite ColumnTheorems RecordItems LogRecords ColumnApply ColumnPipeline Commit ColumnPlan ColumnPublish Db DbEnact DbPipeline.
#[local] Arguments mask_bits : simpl never.
#[local] Opaque mask_bits.

(** ** A record under construction *)
Record planned `{Compressors} (cols0 cols : list HashColumn) (w : LogWriter) (rid : Z) (cts : list contents_of) : Prop := {
  pl_id : record_id (change w) = rid;
  pl_drop : dropped_tables (change w) = [];
  pl_cols : Forall2 (λ c0 c, retabled c0 c ∧ Forall2 evolved (hc_value c0) (hc_value c) ∧ masks_ok (hc_index c0) w) cols0 cols;
  pl_items : ∀ id i x, local_value w id i = Some x → x.1 = rid ∧
    ∃ k c tier t, cols !! k = Some c ∧ hc_value c !! tier = Some t ∧ vt_id t = id ∧ item_ok t i x.2;
  pl_chunks : ∀ id ci x, local_chunk w id ci = Some x → x.1.1 = rid ∧
    ∃ k c, cols !! k = Some c ∧ id = it_id (hc_index c) ∧ 0 ≤ ci < total_chunks (bits_of (hc_index c));
  pl_contents : Forall2 (λ c ct, col_inv c w ct.1 ct.2) cols cts;
}.
#[global] Arguments pl_id {_ cols0 cols w rid cts}.
#[global] Arguments pl_drop {_ cols0 cols w rid cts}.
#[global] Arguments pl_cols {_ cols0 cols w rid cts}.
#[global] Arguments pl_items {_ cols0 cols w rid cts}.
#[global] Arguments pl_chunks {_ cols0 cols w rid cts}.
#[global] Arguments pl_contents {_ cols0 cols w rid cts}.

(** The contents only depend on what the log shows for the tables of the column. *)
Lemma col_inv_log `{HC : Compressors} `{HL : LogQuery L} `{HL' : LogQuery L'} c (log : L) (log' : L') kv vs :
  (∀ tier t j, hc_value c !! tier = Some t → value_entry log' (vt_id t) j = value_entry log (vt_id t) j) →
  (∀ ci, with_index log' (it_id (hc_index c)) ci = with_index log (it_id (hc_index c)) ci) →
  col_inv c log kv vs → col_inv c log' kv vs.
Proof.
  intros Hx Hi [H1 [G1 G2 G3 G4] H3 H4]. split; try done.
  - eapply (index_inv_view _ log); [|done]. intros ci. unfold chunk_view. by rewrite Hi.
  - split; try done. intros tier t m Et Em. apply (table_inv_view t log log'); [|by apply (G4 tier)]. intros j. by eapply Hx.
Qed.

Section planned.
Context `{HC : Compressors} {cols0 cols : list HashColumn} {w : LogWriter} {rid : Z} {cts : list contents_of}.
Context (Hok : cols_ok cols0) (Hpl : planned cols0 cols w rid cts).

Lemma planned_col i c : cols !! i = Some c →
  ∃ c0, cols0 !! i = Some c0 ∧ retabled c0 c ∧ hc_col c = Z.of_nat i ∧ TableId_col (it_id (hc_index c)) = Z.of_nat i ∧
    ∀ tier t, hc_value c !! tier = Some t → TableId_col (vt_id t) = Z.of_nat i.
Proof.
  intros Ec. destruct (Forall2_lookup_r _ _ _ _ _ (pl_cols Hpl) Ec) as (c0 & Ec0 & Hret & Hev & _). destruct (Hok _ _ Ec0) as [Hf Hn].
  exists c0. split; [done|]. split; [done|]. destruct (fo_col _ Hf) as [_ Hcol]. rewrite Hn in Hcol.
  assert (hc_col c = hc_col c0 ∧ hc_index c = hc_index c0) as [-> ->] by (destruct Hret as (? & ? & ->); done). split_and!; try done.
  intros tier t Et. destruct (Forall2_lookup_r _ _ _ _ _ Hev Et) as (t0 & Et0 & Hs & _). apply shape_inv in Hs as (-> & _).
  rewrite <-Hn. by eapply fo_table_col.
Qed.

(** The plans of a column leave the entries of the other columns alone. *)
Lemma planned_apart i c c' w' : cols !! i = Some c → recorded c c' w w' →
  (∀ k ck tier t j, k ≠ i → cols !! k = Some ck → hc_value ck !! tier = Some t → local_value w' (vt_id t) j = local_value w (vt_id t) j) ∧
  (∀ k ck ci, k ≠ i → cols !! k = Some ck → local_chunk w' (it_id (hc_index ck)) ci = local_chunk w (it_id (hc_index ck)) ci).
Proof.
  intros Ec Hrec. destruct (planned_col _ _ Ec) as (c0 & Ec0 & Hret0 & Hcol & Hidx & Htab).
  assert (Htab' : ∀ tier t', hc_value c' !! tier = Some t' → TableId_col (vt_id t') = Z.of_nat i).
  { intros tier t' Et'. destruct (Forall2_lookup_r _ _ _ _ _ (re_tables Hrec) Et') as (t & Et & Hs & _). apply shape_inv in Hs as (-> & _).
    by eapply Htab. }
  split.
  - intros k ck tier t j Hk Eck Et. apply (re_items Hrec). intros tier' t' Et' He. apply Hk. destruct (planned_col _ _ Eck) as (_ & _ & _ & _ & _ & Ht).
    specialize (Ht _ _ Et). specialize (Htab' _ _ Et'). rewrite He in Htab'. lia.
  - intros k ck ci Hk Eck. apply (re_others Hrec). intros He. apply Hk. destruct (planned_col _ _ Eck) as (_ & _ & _ & _ & Ht & _).
    rewrite He in Ht. lia.
Qed.

(** The plans of one column. *)
Lemma planned_step i c c' w' kv' vs' :
  cols !! i = Some c → retabled c c' → recorded c c' w w' → col_inv c' w' kv' vs' →
  planned cols0 (<[i := c']> cols) w' rid (<[i := (kv', vs')]> cts).
Proof.
  intros Ec Hret Hrec Hinv. destruct (planned_col _ _ Ec) as (c0 & Ec0 & Hret0 & Hcol & Hidx & Htab).
  assert (Hlt : (i < length cols)%nat) by (by eapply lookup_lt_Some).
  assert (Hidx' : hc_index c' = hc_index c) by (destruct Hret as (? & ? & ->); done).
  assert (Hidx0 : hc_index c = hc_index c0) by (destruct Hret0 as (? & ? & ->); done).
  destruct (planned_apart i c c' w' Ec Hrec) as [Hv Hch].
  pose proof (re_overlays Hrec) as Ho. split.
  - by rewrite (re_id Hrec), (pl_id Hpl).
  - by rewrite (re_dropped Hrec), (pl_drop Hpl).
  - apply Forall2_same_length_lookup_2; [rewrite length_insert; apply (Forall2_length _ _ _ (pl_cols Hpl))|].
    intros k x y Ex Ey. rewrite list_lookup_insert in Ey. case_decide as Hd.
    + destruct Hd as [<- _]. injection Ey as <-. assert (x = c0) as -> by congruence.
      destruct (Forall2_lookup_r _ _ _ _ _ (pl_cols Hpl) Ec) as (c1 & Ec1 & _ & Hev & Hm). assert (c1 = c0) as -> by congruence.
      split_and!; [by eapply retabled_trans|etrans; [done|apply Hrec]|]. rewrite <-Hidx0 in Hm |- *. apply (re_masks Hrec); [|done].
      destruct (Forall2_lookup_l _ _ _ _ _ (pl_contents Hpl) Ec) as (ct & _ & Hi). apply (xi_wf (ci_index Hi)).
    + destruct (Forall2_lookup_r _ _ _ _ _ (pl_cols Hpl) Ey) as (x' & Ex' & H1 & H2 & H3). assert (x' = x) as -> by congruence.
      split_and!; try done. assert (Hk : k ≠ i) by (intros ->; naive_solver). intros ci r m ch Hc. rewrite Ho. apply (H3 ci r m ch).
      rewrite <-Hc. symmetry. assert (hc_index y = hc_index x) as <- by (destruct H1 as (? & ? & ->); done). by apply (Hch k).
  - intros id j x Hx. destruct (proj1 (re_items Hrec) _ _ _ Hx) as [Hold|(G1 & tier & t & Et & Hid & Hit)].
    + destruct (pl_items Hpl _ _ _ Hold) as (G1 & k & ck & tier & t & Eck & Et & Hid & Hit). split; [done|].
      destruct (decide (k = i)) as [->|Hk].
      * assert (ck = c) as -> by congruence. destruct (Forall2_lookup_l _ _ _ _ _ (re_tables Hrec) Et) as (t' & Et' & Hs & Hf & _).
        exists i, c', tier, t'. rewrite list_lookup_insert_eq by done. pose proof (shape_inv _ _ Hs) as (E1 & _).
        split_and!; [done|done|congruence|by eapply item_ok_shape].
      * exists k, ck, tier, t. by rewrite list_lookup_insert_ne.
    + split; [by rewrite G1, (pl_id Hpl)|]. exists i, c', tier, t. by rewrite list_lookup_insert_eq.
  - intros id ci x Hx. destruct (re_chunks Hrec _ _ _ Hx) as [Hold|(G1 & -> & Hci)].
    + destruct (pl_chunks Hpl _ _ _ Hold) as (G1 & k & ck & Eck & -> & Hci). split; [done|]. destruct (decide (k = i)) as [->|Hk].
      * assert (ck = c) as -> by congruence. exists i, c'. rewrite list_lookup_insert_eq by done. by rewrite Hidx'.
      * exists k, ck. by rewrite list_lookup_insert_ne.
    + split; [by rewrite G1, (pl_id Hpl)|]. exists i, c'. rewrite list_lookup_insert_eq by done. by rewrite Hidx'.
  - apply Forall2_same_length_lookup_2; [rewrite !length_insert; apply (Forall2_length _ _ _ (pl_contents Hpl))|].
    intros k x ct Ex Ect. rewrite list_lookup_insert in Ex. case_decide as Hd.
    + destruct Hd as [<- _]. injection Ex as <-. rewrite list_lookup_insert_eq in Ect; [by injection Ect as <-|].
      by rewrite <-(Forall2_length _ _ _ (pl_contents Hpl)).
    + assert (Hk : k ≠ i) by (intros ->; naive_solver). rewrite list_lookup_insert_ne in Ect by done.
      destruct (Forall2_lookup_l _ _ _ _ _ (pl_contents Hpl) Ex) as (ct' & Ect' & Hi). assert (ct' = ct) as -> by congruence.
      eapply (col_inv_log _ w); [| |done].
      * intros tier t j Et. by rewrite !writer_value, Ho, (Hv k x tier t).
      * intros ci. by rewrite !writer_index, Ho, (Hch k x).
Qed.
End planned.

Lemma planned_start `{HC : Compressors} cols o rid cts :
  Forall2 (λ c ct, col_inv c o ct.1 ct.2) cols cts → planned cols cols (LogWriter_new o rid) rid cts.
Proof.
  intros Hc. split; try done.
  - apply Forall2_same_length_lookup_2; [done|]. intros i x y Ex Ey. assert (y = x) as -> by congruence. split_and!; [apply retabled_refl| |].
    + by apply Forall_Forall2_diag, Forall_true.
    + intros ci r m ch Hl. unfold local_chunk in Hl. simpl in Hl. by rewrite lookup_empty in Hl.
  - eapply Forall2_impl; [done|]. intros c ct Hi. eapply (col_inv_log _ o); [| |done].
    + intros tier t j _. simpl. unfold lookup_value at 1. by rewrite lookup_empty.
    + intros ci. simpl. unfold lookup_index at 1. by rewrite lookup_empty.
Qed.

(** ** The contents of a database *)
Definition contents_at `{Compressors} (cols : list HashColumn) (cts : list contents_of) (i : nat) (key : bytes) : option (Z * bytes) :=
  match cols !! i, cts !! i with Some c, Some ct => contents c ct.1 ct.2 key | _, _ => None end.
Lemma retabled_settings c c' : retabled c c' → settings c' = settings c.
Proof. by intros (st & ts & ->). Qed.
Lemma contents_at_settings `{Compressors} cols cols' cts i k : settings <$> cols' = settings <$> cols → contents_at cols' cts i k = contents_at cols cts i k.
Proof.
  intros Hs. apply (f_equal (lookup i)) in Hs. rewrite !list_lookup_fmap in Hs. unfold contents_at, contents.
  destruct (cols' !! i), (cols !! i); try done. simpl in Hs. by injection Hs as _ _ ->.
Qed.

(** The contents after the changes of a commit. *)
Definition spec_commit (cols : list HashColumn) (l : list (Z * IndexedChangeSet)) (f : nat → bytes → option (Z * bytes))
    : nat → bytes → option (Z * bytes) :=
  foldl (λ f p i k, match cols !! i with
                    | Some c => if decide (i = Z.to_nat p.1) then spec_changes (hc_ref_counted c) (hc_preimage c) (is_changes p.2) (f i) k else f i k
                    | None => None
                    end) f l.

Section commit.
Context {T : Type} `{TreeColumn T} `{HC : Compressors} `{HCO : !CompressorsOk HC}.
Context (x86 : bool) (junk : bytes) (Hjunk : length junk = MAX_ENTRY_BUF_SIZE).
Abbreviation Db := (DbInner T).

(** When each change set is planned, its changes fit its column. *)
Fixpoint commit_fits (l : list (Z * IndexedChangeSet)) (cols : list HashColumn) (w : LogWriter) : Prop :=
  match l with
  | [] => ∀ i c, cols !! i = Some c → file_room c
  | (col, s) :: l' =>
      match cols !! Z.to_nat col with
      | None => False
      | Some c =>
          changes_fit x86 junk (is_changes s) (c, w) ∧
          let r := (write_changes x86 junk (is_changes s) 0 false (c, w)).2 in commit_fits l' (<[Z.to_nat col := r.1]> cols) r.2
      end
  end.

Lemma write_changes_state l : ∀ ops reindex s,
  (write_changes x86 junk l ops reindex s).2 = (write_changes x86 junk l 0 false s).2.
Proof.
  induction l as [|change l IH]; intros ops reindex s; [done|]. cbn [write_changes]. unfold mbind, M_bind.
  destruct (HashColumn_write_plan x86 junk change s) as [[r| | |] s']; [|done..]. rewrite IH. symmetry. apply IH.
Qed.

Lemma spec_commit_ext cols l : ∀ f g, (∀ i k, f i k = g i k) → ∀ i k, spec_commit cols l f i k = spec_commit cols l g i k.
Proof.
  assert (Hx : ∀ rc pre l (f g : bytes → option (Z * bytes)), (∀ k, f k = g k) → ∀ k, spec_changes rc pre l f k = spec_changes rc pre l g k).
  { clear. intros rc pre l. induction l as [|ch l IH]; intros f g Hf k; [apply Hf|]. unfold spec_changes. cbn [foldl]. apply IH. intros k'. by rewrite !Hf. }
  induction l as [|p l IH]; intros f g Hf i k; [apply Hf|]. unfold spec_commit. cbn [foldl]. apply IH. intros i' k'.
  destruct (cols !! i'); [|done]. case_decide; [by apply Hx|apply Hf].
Qed.

Lemma spec_commit_settings cols cols' l : settings <$> cols' = settings <$> cols → ∀ f i k, spec_commit cols' l f i k = spec_commit cols l f i k.
Proof.
  intros Hs. induction l as [|p l IH]; intros f i k; [done|]. unfold spec_commit in *. cbn [foldl]. rewrite IH. apply spec_commit_ext. intros i' k'.
  apply (f_equal (lookup i')) in Hs. rewrite !list_lookup_fmap in Hs. destruct (cols' !! i'), (cols !! i'); try done. simpl in Hs. by injection Hs as -> -> _.
Qed.

Lemma plan_indexed_run cols0 l : ∀ cols w rid cts ops reindex (d : Db),
  cols_ok cols0 → (∀ c, c ∈ cols0 → hc_queue c = []) → planned cols0 cols w rid cts → db_columns d = Hash <$> cols → commit_fits l cols w →
  ∃ ops' cols' w' cts', plan_indexed x86 junk l w ops reindex d = (Ok (ops', reindex, w'), hash_columns cols' d) ∧
    overlays w' = overlays w ∧ planned cols0 cols' w' rid cts' ∧ (∀ i c, cols' !! i = Some c → file_room c) ∧
    ∀ i k, contents_at cols' cts' i k = spec_commit cols0 l (contents_at cols cts) i k.
Proof.
  induction l as [|[col s] l IH]; intros cols w rid cts ops reindex d Hok Hq Hpl Hd Hfit.
  { exists ops, cols, w, cts. split_and!; try done. unfold hash_columns. rewrite <-Hd. by destruct d. }
  cbn [commit_fits] in Hfit. destruct (cols !! Z.to_nat col) as [c|] eqn:Ec; [|done]. destruct Hfit as [Hcf Hfit].
  destruct (Forall2_lookup_l _ _ _ _ _ (pl_contents Hpl) Ec) as (ct & Ect & Hinv).
  destruct (planned_col Hok Hpl _ _ Ec) as (c0 & Ec0 & Hret0 & _).
  assert (hc_queue c = []) as Hqc by (destruct Hret0 as (? & ? & ->); apply (Hq c0); by eapply list_elem_of_lookup_2).
  destruct (write_changes_run x86 junk Hjunk (is_changes s) c w ct.1 ct.2 ops reindex Hinv Hqc Hcf)
    as (ops1 & c' & w' & kv' & vs' & E & Hinv' & Hret & Hrec & Hcont).
  pose proof (write_changes_state (is_changes s) ops reindex (c, w)) as Est. rewrite E in Est. cbn [snd] in Est. rewrite <-Est in Hfit. cbn [fst snd] in Hfit.
  pose proof (planned_step Hok Hpl _ c c' w' kv' vs' Ec Hret Hrec Hinv') as Hpl'.
  destruct (IH _ w' rid _ ops1 reindex (hash_columns (<[Z.to_nat col := c']> cols) d) Hok Hq Hpl' eq_refl Hfit)
    as (ops2 & cols2 & w2 & cts2 & E2 & Ho2 & Hpl2 & Hroom & Hc2).
  exists ops2, cols2, w2, cts2. split_and!; try done.
  - cbn [plan_indexed].
    assert (Eon : on_hash col (Indexed_write_plan x86 junk s ops reindex) w (ops, reindex) d
      = (Ok (ops1, reindex, w'), hash_columns (<[Z.to_nat col := c']> cols) d)).
    { unfold on_hash. rewrite Hd, list_lookup_fmap, Ec. simpl. unfold Indexed_write_plan. rewrite E. unfold put_column, hash_columns.
      by rewrite Hd, list_fmap_insert. }
    erewrite M_bind_Ok by exact Eon. exact E2.
  - by rewrite Ho2, (re_overlays Hrec).
  - intros i k. rewrite Hc2. unfold spec_commit at 2. cbn [foldl fst snd]. apply spec_commit_ext. intros i' k'. unfold contents_at.
    assert (Hlen : length cols = length cts) by apply (Forall2_length _ _ _ (pl_contents Hpl)).
    assert (Hlen0 : length cols0 = length cols) by apply (Forall2_length _ _ _ (pl_cols Hpl)).
    destruct (decide (i' = Z.to_nat col)) as [->|Hne].
    + rewrite !list_lookup_insert_eq by (rewrite <-?Hlen; by eapply lookup_lt_Some). rewrite Ec0, Ec, Ect. simpl. rewrite Hcont.
      by destruct Hret0 as (? & ? & ->).
    + rewrite !list_lookup_insert_ne by done. destruct (cols0 !! i') eqn:E0; [done|]. by rewrite lookup_ge_None_2 by (rewrite <-Hlen0; by apply lookup_ge_None_1).
Qed.

(** ** The end of the record *)
Definition all_tables (cols : list HashColumn) : list ValueTable := cols ≫= hc_value.

Lemma complete_columns_run n : ∀ k cols w (d : Db), (k + n)%nat = length cols → db_columns d = Hash <$> cols →
  ∃ cols', complete_columns (seq k n) w d = (Ok (headers_log (all_tables (drop k cols)) w), hash_columns cols' d) ∧
    length cols' = length cols ∧ (∀ i, (i < k)%nat → cols' !! i = cols !! i) ∧
    ∀ i c, (k ≤ i)%nat → cols !! i = Some c → ∃ c', cols' !! i = Some c' ∧ retabled c c' ∧ hc_value c' = settled <$> hc_value c.
Proof.
  induction n as [|n IH]; intros k cols w d Hk Hd.
  { exists cols. rewrite drop_ge by lia. split_and!; try done.
    - unfold hash_columns. rewrite <-Hd. by destruct d.
    - intros i c Hi Ei. apply lookup_lt_Some in Ei. lia. }
  destruct (lookup_lt_is_Some_2 cols k ltac:(lia)) as [c Ec]. destruct (column_complete c w) as (c' & E & Hret & Hv).
  set (cols1 := <[k := c']> cols). set (w1 := headers_log (hc_value c) w).
  destruct (IH (S k) cols1 w1 (hash_columns cols1 d)) as (cols2 & E2 & Hl & Hlo & Hhi); [unfold cols1; rewrite length_insert; lia|done|].
  exists cols2. split_and!.
  - cbn [seq complete_columns].
    assert (Eon : on_hash (Z.of_nat k) HashColumn_complete_plan w tt d = (Ok (tt, w1), hash_columns cols1 d)).
    { unfold on_hash. rewrite Nat2Z.id, Hd, list_lookup_fmap, Ec. simpl. rewrite E. unfold put_column, hash_columns, cols1.
      by rewrite Nat2Z.id, Hd, list_fmap_insert. }
    erewrite M_bind_Ok by exact Eon. cbv beta iota.
    assert (Etr : on_tree (Z.of_nat k) tree_complete_plan w1 (Ok tt) (hash_columns cols1 d) = (Ok (tt, w1), hash_columns cols1 d)).
    { unfold on_tree. simpl. rewrite Nat2Z.id, list_lookup_fmap. unfold cols1. rewrite list_lookup_insert_eq by lia. done. }
    erewrite M_bind_Ok by exact Etr. cbv beta iota. rewrite E2. unfold cols1. rewrite drop_insert_lt by lia. rewrite (drop_S _ _ _ Ec).
    unfold all_tables. rewrite bind_cons, headers_app. done.
  - rewrite Hl. unfold cols1. by rewrite length_insert.
  - intros i Hi. rewrite Hlo by lia. unfold cols1. by rewrite list_lookup_insert_ne by lia.
  - intros i x Hi Ex. destruct (decide (i = k)) as [->|Hne].
    + rewrite Hlo by lia. exists c'. unfold cols1. rewrite list_lookup_insert_eq by lia. assert (x = c) as -> by congruence. done.
    + apply Hhi; [lia|]. unfold cols1. by rewrite list_lookup_insert_ne by done.
Qed.

(** The tables of all columns have different numbers. *)
Lemma all_tables_nodup cols : ∀ off,
  (∀ i c, cols !! i = Some c → NoDup (vt_id <$> hc_value c) ∧ ∀ t, t ∈ hc_value c → TableId_col (vt_id t) = Z.of_nat (off + i)) →
  NoDup (vt_id <$> all_tables cols).
Proof.
  induction cols as [|c cols IH]; intros off Hc; [constructor|]. unfold all_tables. rewrite bind_cons, fmap_app. apply NoDup_app. split_and!.
  - by apply (Hc 0%nat c).
  - intros id Hid Hin. apply list_elem_of_fmap in Hid as (t & -> & Ht). apply list_elem_of_fmap in Hin as (t' & He & Ht').
    apply list_elem_of_bind in Ht' as (c' & Ht' & Hc'). apply list_elem_of_lookup in Hc' as [i Ei].
    destruct (Hc 0%nat c eq_refl) as [_ H1]. destruct (Hc (S i) c' Ei) as [_ H2]. specialize (H1 _ Ht). specialize (H2 _ Ht'). rewrite He in H1. lia.
  - apply (IH (S off)). intros i x Ex. destruct (Hc (S i) x Ex) as [H1 H2]. split; [done|]. intros t Ht. rewrite H2 by done. lia.
Qed.

Lemma column_tables_nodup `{HL : LogQuery L} c (log : L) kv vs : col_inv c log kv vs → NoDup (vt_id <$> hc_value c).
Proof.
  intros Hi. apply NoDup_alt. intros a b x Ha Hb. rewrite list_lookup_fmap in Ha, Hb.
  destruct (hc_value c !! a) as [t|] eqn:Ea; [|done]. destruct (hc_value c !! b) as [t'|] eqn:Eb; [|done]. injection Ha as <-. injection Hb as Hb.
  destruct (tt_id (ci_tables Hi) _ _ Ea) as [I1 _]. destruct (tt_id (ci_tables Hi) _ _ Eb) as [I2 _].
  destruct (tt_len (ci_tables Hi)) as [Hl _]. apply lookup_lt_Some in Ea, Eb. apply (TableId_tier_inj (hc_col c)); [lia|lia|congruence].
Qed.

(** ** Publishing *)
Section publish.
Context (crc32 : bytes → Z) (order_index : gmap Z IndexLogOverlay → index_items) (order_value : gmap Z ValueLogOverlay → value_items).
Context (Hli : lists order_index) (Hlv : lists order_value).

Context {d : Db} {cols0 cols cols' : list HashColumn} {kept pending : list rec} {cts0 cts : list contents_of} {w : LogWriter}.
Context (Hdb : db_ready crc32 d cols0 kept pending cts0) (Hpl : planned cols0 cols w (lg_next_record_id (db_log d)) cts).
Context (Hover : overlays w = lg_overlays (db_log d)) (Hroom : ∀ i c, cols !! i = Some c → file_room c).
Context (Hcols : Forall2 (λ c c', retabled c c' ∧ hc_value c' = settled <$> hc_value c) cols cols').
Abbreviation Hok0 := (ready_cols_ok crc32 Hdb).
Abbreviation w' := (headers_log (all_tables cols) w).
Abbreviation o' := (end_record_overlays (change w') (lg_overlays (db_log d))).
Abbreviation r := (lg_next_record_id (db_log d), change_items order_index order_value (change w')).

Lemma planned_nodup : NoDup (vt_id <$> all_tables cols).
Proof.
  apply (all_tables_nodup cols 0). intros i c Ec. destruct (Forall2_lookup_l _ _ _ _ _ (pl_contents Hpl) Ec) as (ct & _ & Hi).
  split; [by eapply column_tables_nodup|]. intros t [tier Et]%list_elem_of_lookup. destruct (planned_col Hok0 Hpl _ _ Ec) as (_ & _ & _ & _ & _ & Ht).
  rewrite (Ht _ _ Et). lia.
Qed.
Lemma planned_one i j c c' : cols !! i = Some c → cols !! j = Some c' → Z.of_nat i = Z.of_nat j → c = c'.
Proof. intros Ei Ej He. assert (i = j) as -> by lia. congruence. Qed.

(** What the record holds of a column. *)
Lemma planned_item i c id j x : cols !! i = Some c → local_value w id j = Some x → TableId_col id = hc_col c →
  ∃ tier t, hc_value c !! tier = Some t ∧ vt_id t = id ∧ item_ok t j x.2.
Proof.
  intros Ec Hx Hc. destruct (pl_items Hpl _ _ _ Hx) as (_ & k & ck & tier & t & Eck & Et & <- & Hit).
  destruct (planned_col Hok0 Hpl _ _ Ec) as (_ & _ & _ & Hn & _ & _).
  destruct (planned_col Hok0 Hpl _ _ Eck) as (_ & _ & _ & _ & _ & Htk). specialize (Htk _ _ Et).
  assert (ck = c) as -> by (apply (planned_one k i); [done|done|congruence]). eauto.
Qed.
Lemma planned_table i c t : cols !! i = Some c → t ∈ all_tables cols → TableId_col (vt_id t) = hc_col c → t ∈ hc_value c.
Proof.
  intros Ec Hin Hc. apply list_elem_of_bind in Hin as (ck & Hin & Hck). apply list_elem_of_lookup in Hck as [k Eck].
  apply list_elem_of_lookup in Hin as [tier Et]. destruct (planned_col Hok0 Hpl _ _ Ec) as (_ & _ & _ & Hn & _ & _).
  destruct (planned_col Hok0 Hpl _ _ Eck) as (_ & _ & _ & _ & _ & Htk). specialize (Htk _ _ Et).
  assert (ck = c) as -> by (apply (planned_one k i); [done|done|congruence]). by eapply list_elem_of_lookup_2.
Qed.

Lemma publish_column i c c' : cols !! i = Some c → cols' !! i = Some c' →
  ∃ ct, cts !! i = Some ct ∧ col_inv c' o' ct.1 ct.2 ∧ col_ready c' o' kept (pending ++ [r]) ∧ hc_col c' = Z.of_nat i.
Proof.
  intros Ec Ec'. destruct (Forall2_lookup_l _ _ _ _ _ (pl_contents Hpl) Ec) as (ct & Ect & Hi).
  destruct (planned_col Hok0 Hpl _ _ Ec) as (c0 & Ec0 & Hret & Hn & Hidx & Ht).
  destruct (Forall2_lookup_r _ _ _ _ _ (pl_cols Hpl) Ec) as (c1 & Ec1 & _ & Hev & Hm). assert (c1 = c0) as -> by congruence.
  destruct (Forall2_lookup_l _ _ _ _ _ Hcols Ec) as (c2 & Ec2 & Hret' & Hv'). assert (c2 = c') as -> by congruence.
  assert (Hready : col_ready c0 (lg_overlays (db_log d)) kept pending) by (apply Hdb; by eapply list_elem_of_lookup_2).
  exists ct. split_and!; [done| | |destruct Hret' as (? & ? & ->); done].
  - by apply (publish_contents (c := c)).
  - apply (publish_ready order_index order_value Hli Hlv (c0 := c0) (c := c) (kv := ct.1) (vs := ct.2)); try done.
    + by eapply Hroom.
    + intros tier t j x Et Hx. destruct (planned_item _ _ _ _ _ Ec Hx) as (tier' & t' & Et' & Hid & Hit); [rewrite Hn; by eapply Ht|].
      assert (tier' = tier) as ->; [|by rewrite Et in Et'; injection Et' as <-]. pose proof (column_tables_nodup _ _ _ _ Hi) as Hnd'.
      apply (NoDup_lookup _ _ _ (vt_id t) Hnd'); rewrite list_lookup_fmap, ?Et, ?Et'; simpl; congruence.
    + intros id j x Hx Hc. destruct (planned_item _ _ _ _ _ Ec Hx Hc) as (tier & t & ? & ? & _). eauto.
    + intros id ci x Hx Hc. destruct (pl_chunks Hpl _ _ _ Hx) as (_ & k & ck & Eck & -> & Hci).
      destruct (planned_col Hok0 Hpl _ _ Eck) as (_ & _ & _ & _ & Hik & _). assert (ck = c) as -> by (apply (planned_one k i); [done|done|congruence]). done.
    + apply planned_nodup.
    + intros t Hin. apply list_elem_of_bind. exists c. split; [done|]. by eapply list_elem_of_lookup_2.
    + intros t. by eapply planned_table.
Qed.

(** Every item is of this record, and of a column. *)
Lemma record_values id j x : local_value w' id j = Some x → x.1 = lg_next_record_id (db_log d) ∧ is_Some (cols !! Z.to_nat (TableId_col id)).
Proof.
  assert (Hcol : ∀ k c tier t, cols !! k = Some c → hc_value c !! tier = Some t → is_Some (cols !! Z.to_nat (TableId_col (vt_id t)))).
  { intros k c tier t Ec Et. destruct (planned_col Hok0 Hpl _ _ Ec) as (_ & _ & _ & _ & _ & Ht). rewrite (Ht _ _ Et), Nat2Z.id. eauto. }
  destruct (decide (j = 0 ∧ Exists (λ t, dirty_header t = true ∧ vt_id t = id) (all_tables cols))) as [[-> He]|Hn].
  - apply Exists_exists in He as (t & Ht & Hd & <-). rewrite headers_value_dirty by (try done; apply planned_nodup). intros [= <-].
    split; [apply (pl_id Hpl)|]. apply list_elem_of_bind in Ht as (c & [tier Et]%list_elem_of_lookup & [k Ek]%list_elem_of_lookup). by eapply Hcol.
  - rewrite headers_value; [|intros -> t Ht Hd He; apply Hn; split; [done|]; apply Exists_exists; eauto]. intros Hx.
    destruct (pl_items Hpl _ _ _ Hx) as (H1 & k & c & tier & t & Ec & Et & <- & _). split; [done|]. by eapply Hcol.
Qed.
Lemma record_chunks id ci x : local_chunk w' id ci = Some x → x.1.1 = lg_next_record_id (db_log d) ∧ is_Some (cols !! Z.to_nat (TableId_col id)).
Proof.
  rewrite (same_rest_chunk _ _ _ _ (headers_same_rest (all_tables cols) w)). intros Hx. destruct (pl_chunks Hpl _ _ _ Hx) as (H1 & k & c & Ec & -> & _).
  split; [done|]. destruct (planned_col Hok0 Hpl _ _ Ec) as (_ & _ & _ & _ & -> & _). rewrite Nat2Z.id. eauto.
Qed.

Lemma db_ready_publish (d' : Db) :
  lg_next_record_id (db_log d) + 1 < 2 ^ 64 → log_ok (db_log d') → log_holds crc32 (db_log d') kept (pending ++ [r]) →
  lg_overlays (db_log d') = o' → lg_next_record_id (db_log d') = lg_next_record_id (db_log d) + 1 → db_columns d' = Hash <$> cols' →
  db_ready crc32 d' cols' kept (pending ++ [r]) cts.
Proof.
  intros Hnx Hok Hh Ho Hnx' Hd'. destruct (headers_same_rest (all_tables cols) w) as (_ & Hrid & _ & _).
  assert (Hlen : length cols' = length cols0 ∧ length cols' = length cols).
  { by rewrite <-(Forall2_length _ _ _ Hcols), (Forall2_length _ _ _ (pl_cols Hpl)). }
  assert (Hback : ∀ i c', cols' !! i = Some c' → ∃ c, cols !! i = Some c).
  { intros i c' Ec'. destruct (Forall2_lookup_r _ _ _ _ _ Hcols Ec') as (c & ? & _). eauto. }
  split; rewrite ?Ho, ?Hnx'; try done.
  - intros i c' Ec'. destruct (Hback _ _ Ec') as [c Ec]. by destruct (publish_column _ _ _ Ec Ec') as (_ & _ & _ & _ & ?).
  - assert (Erid : record_id (change w') = lg_next_record_id (db_log d)) by (rewrite Hrid; apply (pl_id Hpl)). rewrite <-Erid.
    apply (over_publish order_index order_value Hli Hlv); [apply Hdb|..]; rewrite Erid.
    + intros id j x Hx. by apply (record_values id j).
    + intros id j x Hx. by apply (record_chunks id j).
  - destruct (dr_ids _ _ _ _ _ _ Hdb) as (first & H1 & H2 & H3 & H4). exists first. rewrite app_assoc, length_app, fmap_app, H2. simpl length.
    split_and!; try done; [|lia]. rewrite Nat2Z.inj_add, seqZ_app by lia. simpl. f_equal. rewrite H3. done.
  - intros it. rewrite app_assoc, items_in_app, elem_of_app. intros [Hin|Hin].
    + destruct (dr_items _ _ _ _ _ _ Hdb _ Hin) as [c0 Ec0]. apply lookup_lt_is_Some. destruct Hlen as [-> _]. by eapply lookup_lt_Some.
    + apply lookup_lt_is_Some. destruct Hlen as [_ ->]. apply lookup_lt_is_Some. unfold items_in in Hin. simpl in Hin. rewrite app_nil_r in Hin.
      destruct it as [id ci m ch|id j x]; simpl.
      * apply (elem_index_item order_index order_value Hli) in Hin as [r0 Hr]. by eapply record_chunks.
      * apply (elem_value_item order_index order_value Hlv) in Hin as [r0 Hr]. by eapply record_values.
  - intros c' [i Ec']%list_elem_of_lookup. destruct (Hback _ _ Ec') as [c Ec]. by destruct (publish_column _ _ _ Ec Ec') as (_ & _ & _ & ? & _).
  - apply Forall2_same_length_lookup_2; [by rewrite (proj2 Hlen), (Forall2_length _ _ _ (pl_contents Hpl))|]. intros i c' ct Ec' Ect.
    destruct (Hback _ _ Ec') as [c Ec]. destruct (publish_column _ _ _ Ec Ec') as (ct' & Ect' & ? & _). by rewrite Ect in Ect'; injection Ect' as <-.
Qed.
End publish.

(** Every column is completed. *)
Lemma complete_all_run cols w (d : Db) : db_columns d = Hash <$> cols →
  ∃ cols', complete_columns (seq 0 (length cols)) w d = (Ok (headers_log (all_tables cols) w), hash_columns cols' d) ∧
    Forall2 (λ c c', retabled c c' ∧ hc_value c' = settled <$> hc_value c) cols cols'.
Proof.
  intros Hd. destruct (complete_columns_run (length cols) 0 cols w d eq_refl Hd) as (cols' & E & Hl & _ & Hhi). exists cols'. rewrite drop_0 in E. split; [done|].
  apply Forall2_same_length_lookup_2; [done|]. intros i c c' Ec Ec'. destruct (Hhi i c ltac:(lia) Ec) as (c2 & Ec2 & ? & ?).
  by rewrite Ec2 in Ec'; injection Ec' as <-.
Qed.

(** ** A commit *)
Section process.
Context (crc32 : bytes → Z) (order_index : gmap Z IndexLogOverlay → index_items) (order_value : gmap Z ValueLogOverlay → value_items).
Context (Hli : lists order_index) (Hlv : lists order_value).

Lemma process_commits_run (d : Db) cols kept pending cts commit rest :
  db_ready crc32 d cols kept pending cts → cq_commits (db_queue d) = commit :: rest → cs_btree (cm_changeset commit) = [] →
  lg_next_record_id (db_log d) + 1 < 2 ^ 64 → lg_next_log_id (db_log d) < 2 ^ 32 - 1 →
  commit_fits (cs_indexed (cm_changeset commit)) cols (LogWriter_new (lg_overlays (db_log d)) (lg_next_record_id (db_log d))) →
  ∃ d' cols' items cts', process_commits x86 junk crc32 order_index order_value d = (Ok true, d') ∧
    db_ready crc32 d' cols' kept (pending ++ [(lg_next_record_id (db_log d), items)]) cts' ∧
    cq_commits (db_queue d') = rest ∧
    db_overlay d' = clean_indexed (cm_id commit) (cs_indexed (cm_changeset commit)) (db_overlay d) ∧
    settings <$> cols' = settings <$> cols ∧
    ∀ i k, contents_at cols' cts' i k = spec_commit cols (cs_indexed (cm_changeset commit)) (contents_at cols cts) i k.
Proof.
  intros Hdb Hq Hbt Hnx Hlog Hfit. unfold process_commits. mrun. change (id d) with d. rewrite Hq. cbv iota. mrun.
  set (d1 := set_queue _ d). set (o := lg_overlays (db_log d)) in *. set (rid := lg_next_record_id (db_log d)) in *.
  set (l1 := mkLog o (lg_appending (db_log d)) (lg_reading (db_log d)) (lg_read_queue (db_log d)) (rid + 1) (lg_dirty (db_log d)) (lg_pool (db_log d))
     (lg_cleanup (db_log d)) (lg_replay (db_log d)) (lg_next_log_id (db_log d)) (lg_disk (db_log d))).
  assert (Hrid : 1 ≤ rid). { destruct (dr_ids _ _ _ _ _ _ Hdb) as (first & H1 & _ & H3 & _). fold rid in H3. lia. }
  assert (Eb : on_log begin_record d1 = (Ok (LogWriter_new o rid), set_log l1 d1)).
  { unfold on_log, zoom, begin_record. cbn [set_queue db_log d1]. fold rid o. replace (u64 (rid + 1)) with (rid + 1); [done|].
    symmetry. apply wrap_small. unfold in_range. lia. }
  erewrite M_bind_Ok by exact Eb. set (d2 := set_log l1 d1). cbv beta.
  pose proof (ready_cols_ok crc32 Hdb) as Hok.
  assert (Hquiet : ∀ c, c ∈ cols → hc_queue c = []) by (intros c Hc; by eapply cr_quiet, (dr_ready _ _ _ _ _ _ Hdb)).
  destruct (plan_indexed_run cols (cs_indexed (cm_changeset commit)) cols (LogWriter_new o rid) rid cts 0 false d2 Hok Hquiet
    (planned_start cols o rid cts (dr_contents _ _ _ _ _ _ Hdb)) (dr_cols _ _ _ _ _ _ Hdb) Hfit)
    as (ops & cols1 & w1 & cts1 & E1 & Ho1 & Hpl & Hroom & Hspec).
  erewrite M_bind_Ok by exact E1. cbv beta iota. rewrite Hbt. cbn [plan_btree]. mrun.
  replace (length (db_columns d)) with (length cols1) by (by rewrite (dr_cols _ _ _ _ _ _ Hdb), length_fmap, (Forall2_length _ _ _ (pl_cols Hpl))).
  destruct (complete_all_run cols1 w1 (hash_columns cols1 d2) eq_refl) as (cols2 & E2 & Hc2). erewrite M_bind_Ok by exact E2. set (w2 := headers_log (all_tables cols1) w1). cbv beta.
  set (d3 := hash_columns cols2 (hash_columns cols1 d2)).
  destruct (headers_same_rest (all_tables cols1) w1) as (Ho2 & Hid2 & _ & Hdr2). fold w2 in Ho2, Hid2, Hdr2.
  destruct (dr_log _ _ _ _ _ _ Hdb) as [Hlok Hh].
  destruct (end_record_holds crc32 (order_index (local_index (change w2))) (order_value (local_values (change w2))) (change w2) l1 kept pending)
    as (n & l2 & E3 & Hlok2 & Hol2 & Hnx2 & Hh2).
  { by apply (log_ok_perm (db_log d)). }
  { done. }
  { by rewrite Hid2, (pl_id Hpl). }
  { by rewrite Hdr2, (pl_drop Hpl). }
  { destruct Hh as (old & done & now & queued & last & [? ? ? ? ?] & ? & ?). exists old, done, now, queued, last. by split. }
  assert (E4 : end_record crc32 order_index order_value w2 d3 = (Ok n, set_logged (db_logged_bytes d3 + n) (set_log l2 d3))).
  { unfold end_record. cbv zeta. erewrite M_bind_Ok; [|unfold on_log, zoom; change (db_log d3) with l1; rewrite E3; done]. by mrun. }
  erewrite M_bind_Ok by exact E4. cbv beta. mrun. cbv iota. mrun.
  assert (Hset : settings <$> cols2 = settings <$> cols1) by (eapply settings_Forall2, Hc2; intros c c' [Hc _]; by apply retabled_settings).
  eexists _, cols2, (change_items order_index order_value (change w2)), cts1. split; [reflexivity|]. split_and!; try done.
  - rewrite Hid2, (pl_id Hpl) in Hh2. by apply (db_ready_publish crc32 order_index order_value Hli Hlv Hdb Hpl).
  - rewrite Hset. eapply settings_Forall2, (pl_cols Hpl). intros c c' [Hc _]. by apply retabled_settings.
  - intros i k. rewrite <-Hspec. by apply contents_at_settings.
Qed.
End process.
End commit.
