(* ===== verification/DbReplay.v ===== *)
(** * The database: replaying the log

    At startup every record of the log is read twice: first to validate it, then, if its
    checksum and its items are right, to enact it. *)

From S2P Require Import Prelude IndexEntry IndexChunk Log LogFiles LogQueue Stats IndexTable IndexEnact ValueEntry File ValueTable ValueSlots ValueChains ValueWrite ValueRead ValueInv ValueSpec ValueFile Compress Options Column ColumnEnact ColumnIndex ColumnTables ColumnInv RecordItems LogRecords ColumnApply ColumnPipeline Commit Db DbEnact DbPipeline.
#[local] Arguments mask_bits : simpl never.
#[local] Opaque mask_bits.

(** ** Validating an item *)
Lemma skip_entries_run chunk bits : ∀ r rest,
  length chunk = CHUNK_LEN → (∀ i, i ∈ bits → (i < CHUNK_ENTRIES)%nat) → rd_stream r = concat (chunk_entry chunk <$> bits) ++ rest →
  skip_entries bits r = (Ok tt, consume (concat (chunk_entry chunk <$> bits)) r).
Proof.
  induction bits as [|b bits IH]; intros r rest Hc Hb Hs; [by rewrite consume_nil|]. cbn [skip_entries].
  change (concat (chunk_entry chunk <$> b :: bits)) with (chunk_entry chunk b ++ concat (chunk_entry chunk <$> bits)) in *.
  rewrite <-app_assoc in Hs. assert (Hl : length (chunk_entry chunk b) = 8%nat) by (apply chunk_entry_length; [done|apply Hb; by left]).
  erewrite M_bind_Ok by (eapply LogReader_read_consume; [exact Hs|done]). erewrite IH; [|done|intros; apply Hb; by right|by apply consume_stream].
  by rewrite consume_app.
Qed.

Lemma index_validate_run t ci mask chunk rest r :
  valid_bits (bits_of t) → 0 ≤ ci < total_chunks (bits_of t) → in_range 64 mask → length chunk = CHUNK_LEN →
  rd_stream r = le_bytes 8 mask ++ concat (chunk_entry chunk <$> mask_bits mask) ++ rest →
  IndexTable_validate_plan t ci r = (Ok tt, consume (le_bytes 8 mask ++ concat (chunk_entry chunk <$> mask_bits mask)) r).
Proof.
  intros Hb Hci Hm Hc Hs. unfold IndexTable_validate_plan. rewrite bool_decide_false.
  2: { unfold valid_bits in Hb. rewrite total_chunks_eq in Hci by lia. 
       unfold total_entries. rewrite total_chunks_eq by lia. rewrite wrap_small; [unfold CHUNK_ENTRIES; lia|].
       pose proof (Z.pow_le_mono_r 2 (bits_of t) 49 ltac:(lia) ltac:(lia)). unfold in_range, CHUNK_ENTRIES. lia. }
  erewrite M_bind_Ok by (eapply LogReader_read_consume; [exact Hs|apply le_bytes_length]). rewrite in_range_le_val by done.
  erewrite skip_entries_run; [|done|intros i Hi; by eapply mask_bits_lt|by apply consume_stream]. by rewrite consume_app.
Qed.

Section item.
Context {c : HashColumn} (Hc : files_ok c).

(** The reader is where enacting the item would leave it. *)
Lemma validate_item_run it rest r :
  item_for c it → rd_stream r = enc_item it ++ rest →
  HashColumn_validate_plan (action_of it) (c, read_head it r) = (Ok tt, (c, read_item it r)).
Proof.
  intros Hit Hs. pose proof (read_head_stream _ _ _ Hs) as Hs1. rewrite <-read_head_body. set (r1 := read_head it r) in *.
  unfold HashColumn_validate_plan, GROW_FUEL. cbn [validate_loop]. mrun. change (id (c, r1)) with (c, r1). cbv beta iota.
  destruct it as [id ci mask chunk|id i d]; cbn [action_of item_body] in *.
  - destruct Hit as (-> & Hci & Hm & Hch). rewrite bool_decide_true by done. unfold on_reader. rewrite <-app_assoc in Hs1.
    by rewrite (index_validate_run (hc_index c) ci mask chunk rest r1 (fo_bits _ Hc) Hci Hm Hch Hs1).
  - destruct Hit as (tier & t & Et & <- & Hsi). destruct (fo_table _ Hc _ _ Et) as (Hw & Hf & Hid & Hlt).
    assert (Hst : Z.to_nat (ValueTableId_size_tier (vt_id t)) = tier) by (rewrite Hid; by apply size_tier_new).
    assert (E : ValueTable_validate_plan i (t, r1) = (Ok tt, (t, consume d r1))).
    { unfold ValueTable_validate_plan. destruct Hsi as [[-> Hl]|(Hi & _ & x & Hx & ->)].
      - rewrite bool_decide_true by done. by mstep (log_read_app t 16 d rest r1 Hs1 (eq_sym Hl)).
      - rewrite bool_decide_false by lia. by mstep (read_entry_body_spec t Hw x rest r1 Hx Hs1). }
    rewrite Hst. unfold on_value_table. rewrite Et, E. rewrite list_insert_id by done. by destruct c.
Qed.
End item.

(** ** Validating a record *)
Section record.
Context {T : Type} `{TreeColumn T} (crc32 : bytes → Z).
Abbreviation Db := (DbInner T).

Lemma read_item_bytes it r : rd_read_bytes (read_item it r) = rd_read_bytes r + Z.of_nat (length (enc_item it)).
Proof. by destruct it. Qed.

Lemma validate_one it cols (d : Db) r rest :
  cols_ok cols → item_in cols it → db_columns d = Hash <$> cols → rd_stream r = enc_item it ++ rest →
  next_action crc32 (d, r) = (Ok (action_of it), (d, read_head it r)) ∧
  validate_item (action_of it) (d, read_head it r) = (Ok tt, (d, read_item it r)).
Proof.
  intros Hok (c & Ec & Hit) Hd Hs. destruct (Hok _ _ Ec) as [Hc Hcol]. split.
  - unfold next_action. by rewrite (next_head Hc crc32 it rest r Hit Hs).
  - assert (Hac : action_col (action_of it) = TableId_col (item_id it)) by (by destruct it).
    unfold validate_item, on_column. rewrite Hac, Hd, list_lookup_fmap, Ec. simpl. rewrite (validate_item_run Hc it rest r Hit Hs).
    unfold put_column. rewrite list_insert_id by (by rewrite Hd, list_lookup_fmap, Ec). by destruct d.
Qed.

Lemma validate_record_run l : ∀ fuel cols (d : Db) r sum rest,
  (length l < fuel)%nat → cols_ok cols → Forall (item_in cols) l → db_columns d = Hash <$> cols → in_range 32 sum →
  rd_stream r = concat (enc_item <$> l) ++ le_bytes 1 END_RECORD ++ le_bytes 4 sum ++ rest →
  (rd_validate r = true → sum = crc32 (rd_crc r ++ concat (enc_item <$> l) ++ le_bytes 1 END_RECORD)) →
  ∃ r', validate_record crc32 fuel (d, r) = (Ok Valid, (d, r')) ∧ rd_stream r' = rest ∧ rd_validate r' = rd_validate r ∧
    rd_read_bytes r' = rd_read_bytes r + Z.of_nat (length (concat (enc_item <$> l))) + 5.
Proof.
  induction l as [|it l IH]; intros [|fuel] cols d r sum rest Hf Hok Hin Hd Hsum Hs Hv; try (simpl in Hf; lia); cbn [validate_record].
  - destruct (next_end crc32 sum rest r Hsum Hs) as (r' & E & H1 & _ & _ & H2 & H3); [by intros ?; apply Hv|].
    exists r'. unfold next_action. rewrite E. simpl. split_and!; try done. lia.
  - apply Forall_cons in Hin as [Hit Hin]. change (concat (enc_item <$> it :: l)) with (enc_item it ++ concat (enc_item <$> l)) in Hs, Hv |- *.
    rewrite <-app_assoc in Hs. destruct (validate_one it cols d r _ Hok Hit Hd Hs) as [E1 E2]. rewrite E1.
    destruct (IH fuel cols d (read_item it r) sum rest) as (r' & E & H1 & H2 & H3); try done.
    + simpl in Hf. lia.
    + by apply (read_item_stream it).
    + rewrite read_item_validate. intros Ev. rewrite read_item_crc by done. rewrite (Hv Ev). by rewrite <-!app_assoc.
    + exists r'. destruct it; rewrite E2; (split_and!; [exact E|done|by rewrite H2|rewrite H3, read_item_bytes, length_app; lia]).
Qed.

(** [reset] goes back to the beginning of the record. *)
Lemma reset_record done r rest r' :
  rd_stream r' = rest → rd_read_bytes r' = Z.of_nat (length (record_bytes crc32 r)) →
  LogReader_reset (done ++ record_bytes crc32 r ++ rest) r' = LogReader_new (record_bytes crc32 r ++ rest) (rd_validate r').
Proof.
  intros Hs Hb. unfold LogReader_reset, LogReader_new. rewrite Hs, Hb, Nat2Z.id. f_equal.
  rewrite !length_app. replace (_ - _ - _)%nat with (length done) by lia. apply drop_app_length.
Qed.

(** ** Replaying a record *)
Record replaying (d : Db) (cols : list HashColumn) : Prop := {
  rp_cols : db_columns d = Hash <$> cols;
  rp_ok : cols_ok cols;
  rp_log : log_ok (db_log d) ∧ lg_overlays (db_log d) = LogOverlays_default ∧ lg_read_queue (db_log d) = [] ∧ lg_appending (db_log d) = None;
  rp_next : 1 ≤ lg_next_record_id (db_log d) ≤ db_last_enacted d + 1;
}.

Lemma end_read_default cl rid : end_read_overlays cl rid LogOverlays_default = LogOverlays_default.
Proof.
  assert (He : ∀ {A} (f : A → Z) l, foldl (clear_entry f rid) ∅ l = (∅ : gmap Z (gmap Z A))).
  { intros A f l. induction l as [|x l IH]; [done|]. simpl. unfold clear_entry at 2. by rewrite lookup_empty. }
  unfold end_read_overlays, LogOverlays_default. simpl. rewrite !He. by rewrite map_filter_empty.
Qed.

Lemma record_length r : Z.of_nat (length (record_bytes crc32 r)) = 9 + Z.of_nat (length (concat (enc_item <$> r.2))) + 5.
Proof. unfold record_bytes, record_items. rewrite !length_app, !le_bytes_length. lia. Qed.

(** The state after a record. *)
Lemma replayed_state (d : Db) cols cols' rg cl rid stream l :
  replaying d cols → cols_ok cols' → lg_reading (db_log d) = Some rg → 0 ≤ rid → rid + 1 < 2 ^ 64 → rid = db_last_enacted d + 1 →
  l = with_reading (Some (mkReading (rg_id rg) stream)) (db_log d) →
  let d' := set_log (Log_end_read cl rid l) (set_enacted rid (hash_columns cols' d)) in
  replaying d' cols' ∧ db_last_enacted d' = rid ∧ lg_reading (db_log d') = Some (mkReading (rg_id rg) stream) ∧
  lg_disk (db_log d') = lg_disk (db_log d) ∧ lg_replay (db_log d') = lg_replay (db_log d).
Proof.
  intros Hrp Hok' Erg H0 H1 Hid -> d'. destruct (rp_log _ _ Hrp) as (Hok & Hov & Hq & Hap). pose proof (rp_next _ _ Hrp) as Hnx. split; [|done].
  split; simpl; try done.
  - split_and!; try done; [|by rewrite Hov, end_read_default].
    apply (log_ok_perm (db_log d)); try done. unfold log_ids, appending_id, reading_id. simpl. by rewrite Erg.
  - case_bool_decide; [|lia]. rewrite wrap_small; [lia|]. unfold in_range. lia.
Qed.

Context (Hcrc : ∀ b, in_range 32 (crc32 b)).

Lemma replay_record d cols rg pre r rest :
  replaying d cols → lg_reading (db_log d) = Some rg → rg_stream rg = record_bytes crc32 r ++ rest →
  file_of (db_log d) (rg_id rg) = pre ++ record_bytes crc32 r ++ rest →
  r.1 = db_last_enacted d + 1 → 0 ≤ r.1 → r.1 + 1 < 2 ^ 64 → Forall (item_in cols) r.2 →
  ∃ d' cols', enact_logs crc32 true d = (Ok true, d') ∧ Forall2 (enacted r.2) cols cols' ∧ replaying d' cols' ∧ db_last_enacted d' = r.1 ∧
    lg_reading (db_log d') = Some (mkReading (rg_id rg) rest) ∧
    lg_disk (db_log d') = lg_disk (db_log d) ∧ lg_replay (db_log d') = lg_replay (db_log d).
Proof.
  intros Hrp Erg Hst Hfile Hid Hid0 Hid1 Hin. destruct (rp_log _ _ Hrp) as (Hok & Hov & Hq & Hap). pose proof (rp_next _ _ Hrp) as Hnx.
  assert (Hr64 : in_range 64 r.1) by (unfold in_range; lia).
  destruct (next_record crc32 true r rest (rg_stream rg) Hr64 Hst) as (rd & E1 & (G1 & G2 & G3 & G4) & Hv & Hrb).
  set (d1 := set_log (put_back rd (db_log d)) d).
  assert (El1 : put_back rd (db_log d) = with_reading (Some (mkReading (rg_id rg) (rd_stream rd))) (db_log d)) by (unfold put_back; by rewrite Erg).
  assert (Hfuel : ∀ x : LogReader, rd_stream x = rd_stream rd → (length r.2 < record_fuel x)%nat).
  { intros x Hx. unfold record_fuel. rewrite Hx, G4, length_app. pose proof (enc_items_length r.2). lia. }
  assert (Hsum : rd_validate rd = true → crc32 (record_items r) = crc32 (rd_crc rd ++ concat (enc_item <$> r.2) ++ le_bytes 1 END_RECORD)).
  { intros Ev. rewrite G3, Ev. unfold record_items. by rewrite <-!app_assoc. }
  destruct (validate_record_run r.2 (record_fuel rd) cols d1 rd (crc32 (record_items r)) rest (Hfuel rd eq_refl) (rp_ok _ _ Hrp) Hin
    (rp_cols _ _ Hrp) (Hcrc _) G4 Hsum) as (r' & E2 & V1 & V2 & V3).
  assert (Ereset : LogReader_reset (reading_file d1) r' = LogReader_new (record_bytes crc32 r ++ rest) true).
  { assert (reading_file d1 = pre ++ record_bytes crc32 r ++ rest) as ->.
    { unfold reading_file, d1. cbn [set_log db_log]. rewrite El1. exact Hfile. }
    rewrite reset_record; [by rewrite V2, Hv|done|]. rewrite V3, Hrb, record_length. lia. }
  destruct (next_record crc32 true r rest _ Hr64 eq_refl) as (rd2 & E3 & (F1 & F2 & F3 & F4) & Fv & _).
  assert (Hsum2 : rd_validate rd2 = true → crc32 (record_items r) = crc32 (rd_crc rd2 ++ concat (enc_item <$> r.2) ++ le_bytes 1 END_RECORD)).
  { intros Ev. rewrite F3, Ev. unfold record_items. by rewrite <-!app_assoc. }
  destruct (enact_record_run crc32 r.2 (record_fuel rd2) cols d1 rd2 (crc32 (record_items r)) rest) as (cols' & r2 & E4 & Hen & W1 & W2 & W3); try done.
  { apply Hfuel. by rewrite F4, G4. }
  { apply Hrp. }
  { apply Hrp. }
  eexists _, cols'. split; [|split; [done|]].
  - unfold enact_logs, Log_read_next. rewrite Erg. unfold read_record. rewrite E1. fold d1. rewrite G1. change (db_last_enacted d1) with (db_last_enacted d).
    rewrite wrap_small by (unfold in_range; lia). rewrite bool_decide_true by done. change (negb true) with false. cbv iota. rewrite E2, Ereset, E3.
    unfold apply_record. rewrite E4. reflexivity.
  - rewrite W2, F1. apply (replayed_state d cols cols' rg); try done; [by eapply enacted_cols_ok; [apply Hrp|]|].
    simpl. rewrite El1. unfold put_back. simpl. by rewrite W1.
Qed.

(** ** Replaying a file *)
(** What can be left at the end of a file: nothing that a replay would enact.  Only the last
    file can end in the middle of a record. *)
Definition unreadable (cols0 : list HashColumn) (tail : bytes) : Prop := ∀ (d : Db) cols rg,
  replaying d cols → (∀ it, item_in cols0 it → item_in cols it) → lg_reading (db_log d) = Some rg → rg_stream rg = tail →
  tail = [] ∨ lg_replay (db_log d) = [] →
  ∃ d', enact_logs crc32 true d = (Ok false, d') ∧ replaying d' cols ∧ db_last_enacted d' = db_last_enacted d ∧
    lg_disk (db_log d') = lg_disk (db_log d) ∧ lg_replay (db_log d') = lg_replay (db_log d).

Lemma unreadable_enacted l cols cols' tail : cols_ok cols → Forall2 (enacted l) cols cols' → unreadable cols tail → unreadable cols' tail.
Proof. intros Hok Hen Hu d cols1 rg Hrp Hin. apply Hu; [done|]. intros it Hit. apply Hin. by apply (enacted_item_in it Hen). Qed.

Lemma unreadable_nil cols0 : unreadable cols0 [].
Proof.
  intros d cols rg Hrp _ Erg Hst _. exists (set_log (retire_reading (db_log d)) d). split_and!; try done.
  - unfold enact_logs, Log_read_next. rewrite Erg. unfold read_record. by rewrite Hst.
  - destruct (rp_log _ _ Hrp) as (Hok & Hov & Hq & Hap). destruct (retire_ok _ Hok) as [Hok' _]. destruct Hrp as [H1 H2 _ H4].
    split; try done; simpl; unfold retire_reading in *; rewrite Erg in *; done.
  - simpl. unfold retire_reading. by rewrite Erg.
  - simpl. unfold retire_reading. by rewrite Erg.
Qed.

Lemma replay_file tail : ∀ rs fuel d cols rg pre,
  unreadable cols tail → tail = [] ∨ lg_replay (db_log d) = [] → (length rs < fuel)%nat → replaying d cols → lg_reading (db_log d) = Some rg → rg_stream rg = file_bytes crc32 rs ++ tail →
  file_of (db_log d) (rg_id rg) = pre ++ file_bytes crc32 rs ++ tail →
  rs.*1 = seqZ (db_last_enacted d + 1) (Z.of_nat (length rs)) → 0 ≤ db_last_enacted d → db_last_enacted d + Z.of_nat (length rs) + 1 < 2 ^ 64 →
  Forall (item_in cols) (items_in rs) →
  ∃ d' cols', enact_all crc32 fuel true d = (Ok tt, d') ∧ Forall2 (enacted (items_in rs)) cols cols' ∧ replaying d' cols' ∧
    db_last_enacted d' = db_last_enacted d + Z.of_nat (length rs) ∧
    lg_disk (db_log d') = lg_disk (db_log d) ∧ lg_replay (db_log d') = lg_replay (db_log d).
Proof.
  induction rs as [|r rs IH]; intros [|fuel] d cols rg pre Htail Hlast Hf Hrp Erg Hst Hfile Hids H0 H1 Hin; try (simpl in Hf; lia); cbn [enact_all].
  - destruct (Htail d cols rg Hrp (λ _ H, H) Erg Hst Hlast) as (d' & E & Hrp' & Hl & Hd & Hr). exists d', cols. split_and!; try done.
    + erewrite M_bind_Ok by exact E. done.
    + apply enacted_cols_nil. apply Hrp.
    + simpl. lia.
  - change (file_bytes crc32 (r :: rs)) with (record_bytes crc32 r ++ file_bytes crc32 rs) in Hst, Hfile. rewrite <-app_assoc in Hst, Hfile.
    change (items_in (r :: rs)) with (r.2 ++ items_in rs) in Hin |- *. apply Forall_app in Hin as [Hin1 Hin2].
    cbn [length] in *. rewrite fmap_cons, seqZ_cons in Hids by lia. injection Hids as Hid Hids.
    destruct (replay_record d cols rg pre r _ Hrp Erg Hst Hfile Hid ltac:(lia) ltac:(lia) Hin1) as (d1 & cols1 & E & Hen & Hrp1 & Hl1 & Erg1 & Hd1 & Hr1).
    destruct (IH fuel d1 cols1 (mkReading (rg_id rg) (file_bytes crc32 rs ++ tail)) (pre ++ record_bytes crc32 r)) as (d2 & cols2 & E2 & Hen2 & Hrp2 & Hl2 & Hd2 & Hr2); try done.
    + eapply unreadable_enacted; [apply Hrp|done|done].
    + by rewrite Hr1.
    + lia.
    + unfold file_of in *. simpl. rewrite Hd1, Hfile. by rewrite <-app_assoc.
    + rewrite Hids, Hl1, Hid. f_equal. lia.
    + lia.
    + lia.
    + eapply Forall_impl; [done|]. intros it. by apply (enacted_item_in it Hen).
    + exists d2, cols2. split_and!; try done; [| |lia|congruence|congruence].
      * erewrite M_bind_Ok by exact E. exact E2.
      * eapply enacted_cols_app; [|done|done]. eapply Forall_impl; [done|]. intros it. apply item_in_pos.
Qed.

(** ** Replaying the files *)
Lemma log_fuel_enough (d : Db) n : (length (file_of (db_log d) n) + 2 ≤ log_fuel d)%nat.
Proof.
  unfold log_fuel, file_of. destruct (lg_disk (db_log d) !! n) as [b|] eqn:E; cbn [default from_option length id]; [|lia].
  assert (Hle : (length b ≤ log_size d)%nat); [|lia]. apply (sum_list_with_in _ id).
  apply list_elem_of_fmap_2. apply elem_of_map_to_list in E. by apply (list_elem_of_fmap_2 snd) in E.
Qed.
Lemma file_bytes_length rs : (length rs ≤ length (file_bytes crc32 rs))%nat.
Proof.
  induction rs as [|r rs IH]; [done|]. change (file_bytes crc32 (r :: rs)) with (record_bytes crc32 r ++ file_bytes crc32 rs).
  rewrite length_app. pose proof (record_length r). simpl length at 1. lia.
Qed.

Lemma retire_same l : lg_overlays (retire_reading l) = lg_overlays l ∧ lg_read_queue (retire_reading l) = lg_read_queue l ∧
  lg_appending (retire_reading l) = lg_appending l ∧ lg_replay (retire_reading l) = lg_replay l ∧
  lg_next_record_id (retire_reading l) = lg_next_record_id l ∧ lg_disk (retire_reading l) = lg_disk l.
Proof. unfold retire_reading. by destruct (lg_reading l). Qed.

Lemma replay_end d cols : replaying d cols → lg_replay (db_log d) = [] →
  let d' := set_log (retire_reading (db_log d)) d in on_log replay_next d = (Ok None, d') ∧ replaying d' cols.
Proof.
  intros Hrp Hr d'. destruct (rp_log _ _ Hrp) as (Hok & Hov & Hq & Hap). destruct (retire_same (db_log d)) as (R1 & R2 & R3 & R4 & R5 & _). split.
  - unfold on_log, zoom, replay_next. cbv zeta. by rewrite R4, Hr.
  - destruct Hrp as [G1 G2 G3 G4]. split; simpl; rewrite ?R1, ?R2, ?R3, ?R5; try done. split; [|done]. by apply retire_ok.
Qed.
Lemma replay_begin d cols id rid q : replaying d cols → lg_replay (db_log d) = (id, rid) :: q →
  ∃ d', on_log replay_next d = (Ok (Some id), d') ∧ replaying d' cols ∧ lg_reading (db_log d') = Some (mkReading id (file_of (db_log d) id)) ∧
    lg_replay (db_log d') = q ∧ lg_disk (db_log d') = lg_disk (db_log d) ∧ db_last_enacted d' = db_last_enacted d.
Proof.
  intros Hrp Hr. destruct (rp_log _ _ Hrp) as (Hok & Hov & Hq & Hap). destruct (retire_same (db_log d)) as (R1 & R2 & R3 & R4 & R5 & R6).
  destruct (replay_next (db_log d)) as [o l'] eqn:E. pose proof (replay_next_ok _ _ _ Hok E) as Hok'.
  exists (set_log l' d). unfold on_log, zoom. rewrite E. unfold replay_next in E. rewrite R4, Hr in E. injection E as <- <-.
  assert (Hf : file_of (retire_reading (db_log d)) id = file_of (db_log d) id) by (unfold file_of; by rewrite R6). split_and!; simpl; try done; [|by rewrite Hf].
  destruct Hrp as [G1 G2 G3 G4]. split; try done; cbn [set_log db_log lg_next_record_id]; [|by rewrite R5]. split; [done|]. simpl. by rewrite R1, R2, R3.
Qed.

Lemma replay_files (files : list (list rec * bytes)) : ∀ fuel d cols,
  Forall (λ f, unreadable cols f.2) files → (∀ fs f fs', files = fs ++ f :: fs' → f.2 ≠ [] → fs' = []) → (length files < fuel)%nat → replaying d cols →
  Forall2 (λ p f, file_of (db_log d) p.1 = file_bytes crc32 f.1 ++ f.2) (lg_replay (db_log d)) files →
  let rs := files ≫= fst in
  rs.*1 = seqZ (db_last_enacted d + 1) (Z.of_nat (length rs)) → 0 ≤ db_last_enacted d → db_last_enacted d + Z.of_nat (length rs) + 1 < 2 ^ 64 →
  Forall (item_in cols) (items_in rs) →
  ∃ d' cols', replay_loop crc32 fuel d = (Ok tt, d') ∧ Forall2 (enacted (items_in rs)) cols cols' ∧ replaying d' cols' ∧
    db_last_enacted d' = db_last_enacted d + Z.of_nat (length rs).
Proof.
  induction files as [|[rs tail] files IH]; intros [|fuel] d cols Htails Hlast Hf Hrp Hfiles all Hids H0 H1 Hin; try (simpl in Hf; lia); cbn [replay_loop].
  - apply Forall2_nil_inv_r in Hfiles. destruct (replay_end d cols Hrp Hfiles) as [E Hrp']. eexists _, cols. split_and!; [|apply enacted_cols_nil, Hrp|exact Hrp'|simpl; lia].
    by erewrite M_bind_Ok by exact E.
  - apply Forall2_cons_inv_r in Hfiles as ([id rid] & q & Hfile & Hfiles & Eq). apply Forall_cons in Htails as [Htail Htails]. cbn [fst snd] in *.
    destruct (replay_begin d cols id rid q Hrp Eq) as (d1 & E & Hrp1 & Erg & Hq1 & Hd1 & Hl1).
    assert (Hf1 : ∀ i, file_of (db_log d1) i = file_of (db_log d) i) by (intros i; unfold file_of; by rewrite Hd1).
    assert (Eall : all = rs ++ (files ≫= fst)) by done. clearbody all. subst all. rewrite fmap_app, length_app, Nat2Z.inj_add, seqZ_app in Hids by lia.
    apply app_inj_1 in Hids as [Hids1 Hids2]; [|rewrite length_fmap, length_seqZ; lia].
    rewrite length_app, Nat2Z.inj_add in H1. rewrite items_in_app in Hin |- *. apply Forall_app in Hin as [Hin1 Hin2].
    destruct (replay_file tail rs (log_fuel d1) d1 cols (mkReading id (file_of (db_log d) id)) []) as (d2 & cols2 & E2 & Hen & Hrp2 & Hl2 & Hd2 & Hr2);
      rewrite ?Hl1, ?Hf1; try done.
    + destruct (decide (tail = [])) as [?|Ht]; [by left|right]. specialize (Hlast [] (rs, tail) files eq_refl Ht). subst files. apply Forall2_nil_inv_r in Hfiles. by rewrite Hq1.
    + pose proof (log_fuel_enough d1 id) as Hlf. rewrite Hf1, Hfile, length_app in Hlf. pose proof (file_bytes_length rs). lia.
    + lia.
    + destruct (IH fuel d2 cols2) as (d3 & cols3 & E3 & Hen3 & Hrp3 & Hl3); rewrite ?Hl2, ?Hl1; try done; try lia.
      * eapply Forall_impl; [done|]. intros f. apply (unreadable_enacted _ _ _ _ (rp_ok _ _ Hrp) Hen).
      * intros fs f fs' ->. by apply (Hlast ((rs, tail) :: fs)).
      * simpl in Hf. lia.
      * rewrite Hr2, Hq1. eapply Forall2_impl; [done|]. intros p f. unfold file_of. by rewrite Hd2, Hd1.
      * rewrite Hids2. f_equal. lia.
      * eapply Forall_impl; [done|]. intros it. by apply (enacted_item_in it Hen).
      * exists d3, cols3. split_and!; try done; [|eapply enacted_cols_app; [|done|done]; eapply Forall_impl; [done|]; intros it; apply item_in_pos|rewrite Hl3, Hl2, Hl1, length_app; lia].
        erewrite M_bind_Ok by exact E. cbv iota. mrun. change (Datatypes.id d1) with d1. erewrite M_bind_Ok by exact E2. exact E3.
Qed.
End record.
