(* ===== verification/DbRecover.v ===== *)
(** * The database: opening after a crash

    The log still holds every record that was not enacted, and the records that were enacted but
    whose files were not synced yet.  Replaying them gives the database that readers saw. *)

From S2P Require Import Prelude IndexEntry IndexChunk Log LogFiles LogQueue Stats IndexTable IndexEnact ValueEntry File ValueTable ValueSlots ValueChains ValueWrite ValueRead ValueInv ValueSpec ValueFile Compress Options Column ColumnEnact ColumnIndex ColumnTables ColumnInv RecordItems LogRecords LogReopen ColumnApply ColumnPipeline ColumnRecover Commit Db DbEnact DbPipeline DbReplay.

(** ** The items of the log in damaged columns *)
Lemma damaged_item l c c1 it : damaged l c c1 → item_for c it → item_for c1 it.
Proof.
  intros Hd. destruct it as [id ci mask chunk|id i x]; simpl.
  - rewrite (dm_id Hd), (bits_of_id _ _ (dm_id Hd)). done.
  - intros (tier & t & Et & Hid & Hs). destruct (Forall2_lookup_l _ _ _ _ _ (dm_tables Hd) Et) as (t1 & Et1 & Hdt).
    destruct (dt_same _ _ _ Hdt) as (S1 & S2 & S3 & S4 & S5). exists tier, t1. split_and!; [done|congruence|].
    destruct Hs as [?|(H1 & H2 & s & Hw & ->)]; [by left|right]. rewrite S2. split_and!; try done. exists s. split; [|done].
    unfold wf_slot, es_nat in *. by rewrite S2, S3.
Qed.

Section recover.
Context {T : Type} `{TreeColumn T} (crc32 : bytes → Z).
Abbreviation Db := (DbInner T).

(** ** The log after the replay *)
Definition unused_log (l : LogState) : Prop :=
  lg_overlays l = LogOverlays_default ∧ lg_appending l = None ∧ lg_reading l = None ∧ lg_read_queue l = [] ∧ lg_pool l = [] ∧
  lg_cleanup l = [] ∧ lg_replay l = [].

Lemma unused_holds l : unused_log l → log_holds crc32 l [] [].
Proof.
  intros (H1 & H2 & H3 & H4 & H5 & H6 & H7). exists [], [], [], [], []. split_and!; try done.
  split; rewrite ?H2, ?H3, ?H4, ?H6; done.
Qed.

Lemma drop_logs ids l : foldr drop_log l ids = mkLog (lg_overlays l) (lg_appending l) (lg_reading l) (lg_read_queue l) (lg_next_record_id l) (lg_dirty l)
    (lg_pool l) (lg_cleanup l) (lg_replay l) (lg_next_log_id l) (foldr delete (lg_disk l) ids).
Proof. induction ids as [|id ids IH]; [by destruct l|]. simpl. by rewrite IH. Qed.

Lemma finish_log l o l' : log_ok l → lg_appending l = None → lg_read_queue l = [] →
  clean_logs (num_dirty_logs (clear_replay_logs l)) (clear_replay_logs l) = (o, l') →
  log_ok (kill_logs l') ∧ unused_log (kill_logs l') ∧ lg_next_record_id (kill_logs l') = lg_next_record_id l.
Proof.
  intros Hl Ha Hq. set (l1 := clear_replay_logs l). intros E.
  destruct (clean_logs_ok _ _ _ _ (clear_replay_ok _ Hl) E) as (Hl' & _). pose proof (retire_ok _ Hl) as [_ Hrd].
  destruct (retire_same l) as (_ & R2 & R1 & _ & R3 & _).
  assert (Hs : lg_overlays l' = LogOverlays_default ∧ lg_appending l' = None ∧ lg_reading l' = None ∧ lg_read_queue l' = [] ∧ lg_cleanup l' = [] ∧ lg_replay l' = [] ∧
    lg_next_record_id l' = lg_next_record_id l).
  { unfold clean_logs in E. injection E as <- <-. simpl. rewrite R1, R2, R3, Hrd. split_and!; try done. unfold num_dirty_logs. simpl.
    by rewrite Nat.min_id, drop_all. }
  destruct Hs as (S1 & S2 & S3 & S4 & S5 & S6 & S7). unfold kill_logs. rewrite drop_logs. simpl. rewrite S3. simpl. split_and!; try done.
  destruct Hl' as [_ N2 _ _ _ N6]. unfold log_ids, appending_id, reading_id in N2. rewrite S2, S3, S4, S5, S6 in N2. simpl in N2. rewrite app_nil_r in N2.
  set (l2 := mkLog _ _ _ _ _ _ _ _ _ _ _). assert (Hids : log_ids l2 = []) by (unfold log_ids, appending_id, reading_id; simpl; by rewrite ?S2, ?S3, ?S4, ?S5, ?S6).
  split; rewrite ?Hids; try done.
  - constructor.
  - intros id. split; [intros Hin; by apply elem_of_nil in Hin|]. simpl. rewrite delete_files_lookup. case_decide as Hd; [by intros []|]. rewrite <-N2. done.
  - intros id Hin. by apply elem_of_nil in Hin.
  - intros id Hin. by apply elem_of_nil in Hin.
  - intros a. simpl. by rewrite S2.
Qed.

(** ** The columns after the replay *)
Lemma refresh_columns_run (P : nat → HashColumn → Prop) cols : ∀ n,
  (∀ i c, cols !! i = Some c → ∃ c', HashColumn_refresh_metadata c = Ok c' ∧ P (n + i)%nat c') →
  ∃ cols', refresh_columns (T := T) (Hash <$> cols) = Ok (Hash <$> cols') ∧ length cols' = length cols ∧ ∀ i c, cols' !! i = Some c → P (n + i)%nat c.
Proof.
  induction cols as [|c cols IH]; intros n Hc; [by exists []|]. destruct (Hc 0%nat c eq_refl) as (c' & E & Hp). rewrite Nat.add_0_r in Hp.
  destruct (IH (S n)) as (cols' & E' & Hl & Hps).
  { intros i x Hx. destruct (Hc (S i) x Hx) as (x' & ? & Hp'). exists x'. by rewrite Nat.add_succ_r in Hp'. }
  exists (c' :: cols'). split_and!.
  - rewrite fmap_cons. simpl. rewrite E. simpl. by rewrite E'.
  - simpl. by rewrite Hl.
  - intros [|i] x Hx; simpl in Hx; [injection Hx as <-; by rewrite Nat.add_0_r|]. rewrite Nat.add_succ_r. by apply Hps.
Qed.

(** ** Recovery *)
Context (Hcrc : ∀ b, in_range 32 (crc32 b)).

Lemma open_columns_replay options md l0 cols1 (es : list (Z * (list rec * bytes))) next first :
  cols_ok cols1 → log_ok l0 → lg_overlays l0 = LogOverlays_default → lg_read_queue l0 = [] → lg_appending l0 = None → lg_next_record_id l0 = 1 →
  lg_replay l0 = (λ e, (e.1, lf_first next e)) <$> es → 1 ≤ first → first < 2 ^ 64 → (∀ e es', es = e :: es' → lf_first next e = first) →
  let d0 : Db := DbInner_open options md l0 (Hash <$> cols1) in
  replaying d0 cols1 ∧ 0 ≤ db_last_enacted d0 ∧ (es ≠ [] → db_last_enacted d0 = first - 1) ∧ (es = [] → db_last_enacted d0 = 1).
Proof.
  intros Hok Hl Ho Hq Ha Hn Hr H1 H2 Hfirst d0.
  assert (Hen : db_last_enacted d0 = match es with [] => 1 | _ => first - 1 end).
  { simpl. unfold replay_record_id. rewrite Hr. destruct es as [|e es]; [done|]. simpl. rewrite (Hfirst e es eq_refl). apply wrap_small. unfold in_range. lia. }
  rewrite Hen. split; [|destruct es; split_and!; done || lia]. split; try done. rewrite Hen. simpl. rewrite Hn. destruct es; lia.
Qed.

Section crashed.
Context `{HC : Compressors} {d : Db} {cols : list HashColumn} {kept pending : list rec} {cts : list contents_of}.
Context (Hdb : db_ready crc32 d cols kept pending cts) (Hlog : lg_next_log_id (db_log d) < 2 ^ 32 - 2).
Context {cols1 : list HashColumn} (Hdam : Forall2 (damaged (items_in (kept ++ pending))) cols cols1).

Lemma damaged_cols : cols_ok cols1 ∧ ∀ it, item_in cols it → item_in cols1 it.
Proof.
  split.
  - intros i c1 Ec1. destruct (Forall2_lookup_r _ _ _ _ _ Hdam Ec1) as (c & Ec & Hd). split; [by apply dm_files in Hd|].
    destruct (dm_same Hd) as (-> & _). exact (dr_number _ _ _ _ _ _ Hdb _ _ Ec).
  - intros it (c & Ec & Hfor). destruct (Forall2_lookup_l _ _ _ _ _ Hdam Ec) as (c1 & Ec1 & Hd). exists c1. split; [done|]. by eapply damaged_item.
Qed.

(** Every record is enacted again. *)
Lemma replay_crashed tail files options md :
  NoDup files → (∀ id, id ∈ files ↔ is_Some (crash_disk (writing (db_log d) tail) tail !! id)) →
  (tail ≠ [] → torn crc32 (lg_next_record_id (db_log d)) tail) → unreadable (T := T) crc32 cols1 tail →
  ∃ l0 d1 cols2, Log_open files (crash_disk (writing (db_log d) tail) tail) = Ok l0 ∧
    replay_loop crc32 (S (length (lg_replay l0))) (DbInner_open options md l0 (Hash <$> cols1)) = (Ok tt, d1) ∧
    Forall2 (enacted (items_in (kept ++ pending))) cols1 cols2 ∧ replaying d1 cols2 ∧ db_last_enacted d1 + 1 < 2 ^ 64.
Proof.
  intros Hnd Hfiles Htorn Hun. destruct (dr_log _ _ _ _ _ _ Hdb) as [Hok Hh]. destruct (dr_ids _ _ _ _ _ _ Hdb) as (first & I1 & I2 & I3 & I4).
  destruct (reopen_crashed crc32 _ _ _ tail files first _ Hok Hlog Hh Hnd Hfiles Htorn I1 I4 (eq_sym I3) I2)
    as (l0 & es & E0 & L1 & L2 & L3 & L4 & L5 & L6 & L7 & L8 & L9 & L10 & L11).
  destruct damaged_cols as [Hok1 Hin1].
  destruct (open_columns_replay options md l0 cols1 es _ first Hok1 L1 L2 L4 L5 L6 L7 I1 ltac:(lia) L11) as (Hrp & Hp0 & Hp1 & Hp2).
  set (d0 := DbInner_open options md l0 (Hash <$> cols1)) in *. assert (Hes : es.*2 ≫= fst = kept ++ pending).
  { rewrite <-L8. clear. induction es as [|e es IH]; [done|]. by rewrite fmap_cons, !bind_cons, IH. }
  assert (Hids : (kept ++ pending).*1 = seqZ (db_last_enacted d0 + 1) (Z.of_nat (length (kept ++ pending))) ∧
    db_last_enacted d0 + Z.of_nat (length (kept ++ pending)) + 1 < 2 ^ 64).
  { destruct (decide (es = [])) as [He|He]; [|rewrite (Hp1 He); split; [rewrite I2; f_equal|]; lia]. rewrite (Hp2 He), <-L8, He. simpl. done. }
  destruct (replay_files crc32 Hcrc es.*2 (S (length (lg_replay l0))) d0 cols1) as (d1 & cols2 & E1 & Hen & Hrp1 & Hle); rewrite ?Hes; try done; try apply Hids.
  - apply Forall_fmap, Forall_forall. intros e (es1 & es2 & He)%list_elem_of_split. simpl. destruct (decide (lf_tail e = [])) as [Ht|Ht].
    + change (e.2.2) with (lf_tail e). rewrite Ht. apply unreadable_nil.
    + destruct (L10 _ _ _ He Ht) as [_ Ht']. change (e.2.2) with (lf_tail e). by rewrite Ht'.
  - intros fs f fs' E Ht. apply fmap_app_inv in E as (es1 & es' & _ & E2 & E3). destruct es' as [|e es2]; [done|]. injection E2 as -> ->.
    by rewrite (proj1 (L10 _ _ _ E3 Ht)).
  - rewrite L7, !length_fmap. lia.
  - simpl. rewrite L7. apply Forall2_fmap_2, Forall_Forall2_diag, Forall_forall. intros e He. exact (L9 e He).
  - apply Forall_forall. intros it Hit. apply Hin1. by apply (ready_item _ Hdb).
  - rewrite Hes in Hen, Hle. exists l0, d1, cols2. split_and!; try done. rewrite Hle. apply Hids.
Qed.

(** After the headers are read again the columns hold what readers saw. *)
Lemma refreshed cols2 : Forall2 (enacted (items_in (kept ++ pending))) cols1 cols2 →
  ∃ cols3, refresh_columns (T := T) (Hash <$> cols2) = Ok (Hash <$> cols3) ∧ Forall2 (λ c ct, col_inv c LogOverlays_default ct.1 ct.2) cols3 cts ∧
    settings <$> cols3 = settings <$> cols ∧ ∀ i c3, cols3 !! i = Some c3 → hc_col c3 = Z.of_nat i ∧ col_ready c3 LogOverlays_default [] [].
Proof.
  intros Hen. destruct (refresh_columns_run (λ i c3, hc_col c3 = Z.of_nat i ∧ col_ready c3 LogOverlays_default [] [] ∧
    ∃ ct c, cts !! i = Some ct ∧ col_inv c3 LogOverlays_default ct.1 ct.2 ∧ cols !! i = Some c ∧ settings c3 = settings c) cols2 0) as (cols3 & E & Hl & Hc).
  - intros i c2 Ec2. destruct (Forall2_lookup_r _ _ _ _ _ Hen Ec2) as (c1 & Ec1 & He). destruct (Forall2_lookup_r _ _ _ _ _ Hdam Ec1) as (c & Ec & Hd).
    destruct (Forall2_lookup_l _ _ _ _ _ (dr_contents _ _ _ _ _ _ Hdb) Ec) as (ct & Ect & Hi).
    destruct (recovered_column (dr_ready _ _ _ _ _ _ Hdb c ltac:(by eapply list_elem_of_lookup_2)) (dr_over _ _ _ _ _ _ Hdb) Hi Hd He)
      as (c3 & E3 & Hi3 & Hr3 & Hcol & C1 & C2 & C3). exists c3. split; [done|].
    split_and!; [|done|exists ct, c; split_and!; try done; unfold settings; by rewrite C1, C2, C3]. rewrite Hcol. exact (dr_number _ _ _ _ _ _ Hdb _ _ Ec).
  - assert (Hlen : length cols = length cols3) by (by rewrite Hl, <-(Forall2_length _ _ _ Hen), <-(Forall2_length _ _ _ Hdam)).
    exists cols3. split_and!; [done| | |intros i c3 Ec3; by destruct (Hc _ _ Ec3) as (? & ? & _)].
    + apply Forall2_same_length_lookup_2; [by rewrite <-Hlen, (Forall2_length _ _ _ (dr_contents _ _ _ _ _ _ Hdb))|].
      intros i c3 ct Ec3 Ect. destruct (Hc _ _ Ec3) as (_ & _ & ct' & c & Ect' & Hi & _). simpl in Ect'. by rewrite Ect in Ect'; injection Ect' as <-.
    + apply (settings_Forall2 (λ c c', settings c' = settings c)); [done|]. apply Forall2_same_length_lookup_2; [done|].
      intros i c c3 Ec Ec3. destruct (Hc _ _ Ec3) as (_ & _ & ct & c' & _ & _ & Ec' & Hs). simpl in Ec'. by rewrite Ec in Ec'; injection Ec' as <-.
Qed.

Lemma recover_run tail files options md :
  NoDup files → (∀ id, id ∈ files ↔ is_Some (crash_disk (writing (db_log d) tail) tail !! id)) →
  (tail ≠ [] → torn crc32 (lg_next_record_id (db_log d)) tail) → unreadable (T := T) crc32 cols1 tail →
  ∃ l0 d' cols', Log_open files (crash_disk (writing (db_log d) tail) tail) = Ok l0 ∧
    finish_open crc32 (DbInner_open options md l0 (Hash <$> cols1)) = (Ok tt, d') ∧ db_ready crc32 d' cols' [] [] cts ∧
    settings <$> cols' = settings <$> cols.
Proof.
  intros Hnd Hfiles Htorn Hun. destruct (replay_crashed tail files options md Hnd Hfiles Htorn Hun) as (l0 & d1 & cols2 & E0 & E1 & Hen & Hrp & Hle).
  destruct (refreshed cols2 Hen) as (cols3 & E2 & Hc3 & Hset & Hr3). destruct (rp_log _ _ Hrp) as (Hok & Hov & Hq & Ha). pose proof (rp_next _ _ Hrp) as Hnx.
  exists l0. destruct (clean_logs (num_dirty_logs (clear_replay_logs (db_log d1))) (clear_replay_logs (db_log d1))) as [o l2] eqn:Ec.
  destruct (finish_log _ _ _ Hok Ha Hq Ec) as (Hok2 & Hun2 & Hnx2).
  assert (Eall : replay_all_logs crc32 (DbInner_open options md l0 (Hash <$> cols1)) = (Ok tt, hash_columns cols3 d1)).
  { unfold replay_all_logs. mrun. change (id ?x) with x. erewrite M_bind_Ok by exact E1. mrun. change (id d1) with d1. rewrite (rp_cols _ _ Hrp).
    rewrite E2. by mrun. }
  assert (Eclean : ∀ x : Db, db_log x = db_log d1 → clean_all_logs (update_log clear_replay_logs x) = (Ok tt, set_log l2 x)).
  { intros x Hx. unfold clean_all_logs. mrun. assert (E : on_log (clean_logs (num_dirty_logs (db_log (update_log clear_replay_logs x)))) (update_log clear_replay_logs x) =
      (o, set_log l2 x)) by (unfold on_log, zoom, update_log; cbn [set_log db_log]; by rewrite Hx, Ec).
    assert (∃ b, o = Ok b) as [b ->] by (unfold clean_logs in Ec; injection Ec as <- _; eauto). change (id ?y) with y. mstep E. done. }
  exists (set_log (kill_logs l2) (hash_columns cols3 d1)), cols3. split; [done|]. split.
  - unfold finish_open. mstep Eall. mrun. mstep (Eclean (hash_columns cols3 d1) eq_refl). done.
  - split; [|done]. destruct Hun2 as (U1 & Hun2). split; simpl; rewrite ?U1; try done.
    + intros i c3 Ec3. by apply (Hr3 _ _ Ec3).
    + split; [done|]. by apply unused_holds.
    + exists (lg_next_record_id (kill_logs l2)). simpl. rewrite Hnx2. split_and!; try done; lia.
    + intros it Hit. by apply elem_of_nil in Hit.
    + intros c3 [i Ec3]%list_elem_of_lookup. by apply (Hr3 _ _ Ec3).
Qed.
End crashed.
End recover.
