(* ===== verification/DbTorn.v ===== *)
(** * The database: a record that is cut off

    A crash in the middle of writing a record leaves the beginning of it at the end of the log.
    Reading it gets to the end of the file before the checksum: the record is not enacted, and
    the replay stops there. *)

From S2P Require Import Prelude IndexEntry IndexChunk Log LogFiles LogQueue Stats IndexTable IndexEnact ValueEntry File ValueTable ValueSlots ValueChains ValueWrite ValueRead ValueInv ValueSpec ValueFile Compress Options Column ColumnEnact ColumnIndex ColumnTables ColumnInv RecordItems LogRecords LogReopen ColumnApply ColumnPipeline Commit Db DbEnact DbPipeline DbReplay.
#[local] Arguments mask_bits : simpl never.
#[local] Opaque mask_bits.

(** ** Reading less than there was *)
Definition lengthen (rest : bytes) (r : LogReader) : LogReader :=
  mkReader (rd_stream r ++ rest) (rd_record_id r) (rd_read_bytes r) (rd_crc r) (rd_validate r) (rd_cleared r).

(** [more] is the same state with more to read: what succeeds there succeeds here in the same
    way, or fails; [view] is not changed. *)
Definition cut_safe {S V A} (more : S → S) (view : S → V) (m : M S A) : Prop := ∀ s a s',
  m (more s) = (Ok a, s') →
  (∃ s1, m s = (Ok a, s1) ∧ s' = more s1 ∧ view s1 = view s) ∨ (∃ s1, m s = (Err (Io UnexpectedEof), s1) ∧ view s1 = view s).

Section cut.
Context {S V : Type} {more : S → S} {view : S → V}.

Lemma cut_bind {A B} (m : M S A) (k : A → M S B) :
  cut_safe more view m → (∀ a, cut_safe more view (k a)) → cut_safe more view (m ≫= k).
Proof.
  intros Hm Hk s b s'. unfold mbind, M_bind. destruct (m (more s)) as [[a| | |] s1] eqn:E; try done. intros E2.
  destruct (Hm s a s1 E) as [(s2 & -> & -> & Hv)|(s2 & -> & Hv)]; [|right; eauto].
  destruct (Hk a s2 b s' E2) as [(s3 & -> & -> & Hv3)|(s3 & -> & Hv3)]; [left|right]; rewrite <-Hv; eauto.
Qed.
Lemma cut_mret {A} (a : A) : cut_safe more view (mret a).
Proof. intros s b s' [= <- <-]. left. eauto. Qed.
Lemma cut_lift {A} (o : outcome A) : cut_safe more view (lift o).
Proof. intros s b s' [= -> <-]. left. eexists. done. Qed.
Lemma cut_modify f : (∀ s, f (more s) = more (f s)) → (∀ s, view (f s) = view s) → cut_safe more view (modify f).
Proof. intros Hf Hv s b s' [= <- <-]. left. eexists. split; [done|]. by rewrite Hf. Qed.
Lemma cut_gets {A} (k : S → M S A) : (∀ s, k (more s) = k s) → (∀ s, cut_safe more view (k s)) → cut_safe more view (gets id ≫= k).
Proof. intros Hk Hs s a s'. rewrite !M_bind_gets. unfold id. rewrite Hk. apply Hs. Qed.
End cut.

Section readers.
Context (rest : bytes).
Abbreviation cut := (cut_safe (lengthen rest) (λ _, tt)).

Lemma cut_read_exact n s d s' : read_exact n (s ++ rest) = Ok (d, s') →
  (∃ s1, read_exact n s = Ok (d, s1) ∧ s' = s1 ++ rest) ∨ read_exact n s = Err (Io UnexpectedEof).
Proof.
  unfold read_exact at 1. case_decide; [|done]. intros [= <- <-]. unfold read_exact. case_decide; [left|by right].
  eexists. by rewrite take_app_le, drop_app_le by done.
Qed.

Lemma cut_read n : cut (LogReader_read n).
Proof.
  intros r d r'. unfold LogReader_read. simpl rd_stream. destruct (read_exact n (rd_stream r ++ rest)) as [[d0 s0]| | |] eqn:E; try done. intros [= -> <-].
  destruct (cut_read_exact _ _ _ _ E) as [(s1 & -> & ->)| ->]; [left|right]; eauto.
Qed.
Lemma cut_checksum crc32 : cut (read_checksum crc32).
Proof.
  intros r d r'. unfold read_checksum. simpl rd_stream. destruct (read_exact 4 (rd_stream r ++ rest)) as [[d0 s0]| | |] eqn:E; try done.
  destruct (cut_read_exact _ _ _ _ E) as [(s1 & -> & ->)| ->]; [|right; eauto]. simpl. case_match; [done|]. intros [= <- <-]. left. eauto.
Qed.
Lemma cut_next crc32 : cut (LogReader_next crc32).
Proof.
  unfold LogReader_next. apply cut_bind; [apply cut_read|]. intros b. cbv zeta.
  repeat case_bool_decide; repeat first [apply cut_read|apply cut_checksum|apply cut_mret|by apply cut_modify|apply cut_bind; [|intros ?]].
  intros r a r' [=].
Qed.

Lemma cut_skip bits : cut (skip_entries bits).
Proof. induction bits as [|b bits IH]; [apply cut_mret|]. apply cut_bind; [apply cut_read|done]. Qed.
Lemma cut_index t ci : cut (IndexTable_validate_plan t ci).
Proof.
  unfold IndexTable_validate_plan. case_bool_decide; [intros r a r' [=]|]. apply cut_bind; [apply cut_read|intros; apply cut_skip].
Qed.

Abbreviation cut_table := (cut_safe (λ s : ValueTable * LogReader, (s.1, lengthen rest s.2)) fst).
Lemma cut_log_read n : cut_table (log_read n).
Proof.
  intros [t r] d s'. unfold log_read, zoom. simpl. destruct (LogReader_read n (lengthen rest r)) as [o r1] eqn:E. intros [= -> <-].
  destruct (cut_read n r d r1 E) as [(r2 & -> & -> & _)|(r2 & -> & _)]; [left|right]; eauto.
Qed.
Lemma cut_entry_body : cut_table read_entry_body.
Proof.
  unfold read_entry_body. apply cut_gets; [by intros []|]. intros [t r]. apply cut_bind; [apply cut_log_read|]. intros d. cbv zeta.
  repeat case_match; repeat first [apply cut_log_read|apply cut_mret|apply cut_lift|apply cut_bind; [|intros ?]].
  repeat case_match; repeat first [apply cut_log_read|apply cut_mret|apply cut_lift|apply cut_bind; [|intros ?]].
Qed.
Lemma cut_table_plan i : cut_table (ValueTable_validate_plan i).
Proof.
  unfold ValueTable_validate_plan. case_bool_decide; (apply cut_bind; [|intros; apply cut_mret]); [apply cut_log_read|apply cut_entry_body].
Qed.
End readers.

(** ** An item that is cut off *)
Lemma cut_plan {c : HashColumn} (Hc : files_ok c) rest it r a s' :
  item_for c it → HashColumn_validate_plan (action_of it) (c, lengthen rest r) = (Ok a, s') →
  (∃ r1, HashColumn_validate_plan (action_of it) (c, r) = (Ok a, (c, r1)) ∧ s' = (c, lengthen rest r1)) ∨
  (∃ e r1, HashColumn_validate_plan (action_of it) (c, r) = (Err e, (c, r1))).
Proof.
  intros Hit. unfold HashColumn_validate_plan, GROW_FUEL. cbn [validate_loop]. rewrite !M_bind_gets. unfold id.
  destruct it as [id ci mask chunk|id i d]; cbn [action_of] in *.
  - destruct Hit as (-> & _). rewrite bool_decide_true by done. unfold on_reader.
    destruct (IndexTable_validate_plan (hc_index c) ci (lengthen rest r)) as [o r1] eqn:E. intros [= -> <-].
    destruct (cut_index rest (hc_index c) ci r a r1 E) as [(r2 & -> & -> & _)|(r2 & -> & _)]; [left|right]; eauto.
  - destruct Hit as (tier & t & Et & <- & _). destruct (fo_table _ Hc _ _ Et) as (_ & _ & Hid & Hlt). unfold on_value_table.
    rewrite Hid, size_tier_new, Et by done. destruct (ValueTable_validate_plan i (t, lengthen rest r)) as [o [t1 r1]] eqn:E. intros [= -> <-].
    destruct (cut_table_plan rest i (t, r) a _ E) as [([t2 r2] & -> & [= -> ->] & Hv)|([t2 r2] & -> & Hv)]; simpl in Hv; subst t2;
      rewrite list_insert_id by done; [left|right]; (replace (set_values (hc_value c) c) with c by (by destruct c)); eauto.
Qed.

(** ** A record that is cut off *)
Section record.
Context {T : Type} `{TreeColumn T} (crc32 : bytes → Z).
Abbreviation Db := (DbInner T).

Lemma cut_validate_one it cols (d : Db) rest r :
  cols_ok cols → item_in cols it → db_columns d = Hash <$> cols → (length (rd_stream r) < length (enc_item it))%nat →
  (∃ rest', rd_stream r ++ rest = enc_item it ++ rest') →
  (∃ e r', next_action crc32 (d, r) = (Err e, (d, r'))) ∨
  (∃ r1 e r', next_action crc32 (d, r) = (Ok (action_of it), (d, r1)) ∧ validate_item (action_of it) (d, r1) = (Err e, (d, r'))).
Proof.
  intros Hok Hin Hd Hlen [rest' Hs]. destruct (validate_one crc32 it cols d (lengthen rest r) rest' Hok Hin Hd Hs) as [E1 E2].
  unfold next_action in E1 |- *. destruct (LogReader_next crc32 (lengthen rest r)) as [o r1] eqn:E. injection E1 as -> ->.
  destruct (cut_next rest crc32 r _ _ E) as [(r1 & -> & Hr1 & _)|(r1 & -> & _)]; [right|left; eauto]. rewrite Hr1 in E2. exists r1.
  destruct Hin as (c & Ec & Hit). destruct (Hok _ _ Ec) as [Hc Hcol]. assert (Hac : action_col (action_of it) = TableId_col (item_id it)) by (by destruct it).
  unfold validate_item, on_column in E2 |- *. rewrite Hac, Hd, list_lookup_fmap, Ec in E2 |- *. simpl fmap in *. cbv iota beta in *.
  destruct (HashColumn_validate_plan (action_of it) (c, lengthen rest r1)) as [o s'] eqn:Ep. destruct s' as [c' r']. injection E2 as -> Ed Er.
  destruct (cut_plan Hc rest it r1 tt _ Hit Ep) as [(r2 & _ & [= -> ->])|(e & r2 & ->)].
  - exfalso. apply (f_equal (λ x, length (rd_stream x))) in Er. cbv beta in Er. change (rd_stream (lengthen rest r2)) with (rd_stream r2 ++ rest) in Er. rewrite (read_item_stream it rest') in Er by done.
    apply (f_equal length) in Hs. rewrite !length_app in *. lia.
  - exists e, r2. split; [done|]. unfold put_column. rewrite list_insert_id by (by rewrite Hd, list_lookup_fmap, Ec). by destruct d.
Qed.

Lemma cut_end sum rest r :
  rest ≠ [] → rd_stream r ++ rest = le_bytes 1 END_RECORD ++ le_bytes 4 sum → ∃ e r', LogReader_next crc32 r = (Err e, r').
Proof.
  intros Hne Hs. assert (Hl : (length (rd_stream r) < 5)%nat).
  { apply (f_equal length) in Hs. rewrite !length_app, !le_bytes_length in Hs. destruct rest; [done|]. simpl in Hs. lia. }
  unfold LogReader_next. destruct (decide (rd_stream r = [])) as [E|E].
  { eexists _, r. unfold mbind at 1, M_bind, LogReader_read, read_exact. by rewrite E. }
  assert (Es : rd_stream r = le_bytes 1 END_RECORD ++ drop 1 (rd_stream r)).
  { assert (1 ≤ length (rd_stream r))%nat by (destruct (rd_stream r); [done|]; simpl; lia).
    apply (f_equal (take 1)) in Hs. rewrite take_app_le, take_app_length' in Hs by (rewrite ?le_bytes_length; done). rewrite <-Hs. by rewrite take_drop. }
  rewrite (next_tag END_RECORD _ r Es) by done. rewrite in_range_le_val by done. simpl. pose proof (consume_stream _ _ _ Es) as E1.
  unfold mbind, M_bind, read_checksum. rewrite E1. unfold read_exact. rewrite decide_False by (rewrite length_drop; lia). eauto.
Qed.

Lemma cut_record l : ∀ fuel cols (d : Db) r sum rest,
  (length (rd_stream r) < fuel)%nat → cols_ok cols → Forall (item_in cols) l → db_columns d = Hash <$> cols → rest ≠ [] →
  rd_stream r ++ rest = concat (enc_item <$> l) ++ le_bytes 1 END_RECORD ++ le_bytes 4 sum →
  ∃ v r', validate_record crc32 fuel (d, r) = (Ok v, (d, r')) ∧ v ≠ Valid.
Proof.
  induction l as [|it l IH]; intros [|fuel] cols d r sum rest Hf Hok Hin Hd Hne Hs; try lia; cbn [validate_record].
  - destruct (cut_end sum rest r Hne Hs) as (e & r' & E). exists StopReplay, r'. unfold next_action. by rewrite E.
  - apply Forall_cons in Hin as [Hit Hin]. change (concat (enc_item <$> it :: l)) with (enc_item it ++ concat (enc_item <$> l)) in Hs. rewrite <-app_assoc in Hs.
    destruct (decide (length (enc_item it) ≤ length (rd_stream r))%nat) as [Hle|Hlt].
    + assert (Hr : rd_stream r = enc_item it ++ drop (length (enc_item it)) (rd_stream r)).
      { apply (f_equal (take (length (enc_item it)))) in Hs. rewrite take_app_le, take_app_length in Hs by done. rewrite <-Hs at 1. by rewrite take_drop. }
      destruct (validate_one crc32 it cols d r _ Hok Hit Hd Hr) as [-> E2].
      destruct (IH fuel cols d (read_item it r) sum rest) as (v & r' & E & Hv); try done.
      * rewrite (read_item_stream it _ _ Hr), length_drop. pose proof (enc_items_length [it]) as Hi. simpl in Hi. rewrite app_nil_r in Hi. lia.
      * rewrite (read_item_stream it _ _ Hr). rewrite Hr, <-app_assoc in Hs. by apply app_inv_head in Hs.
      * exists v, r'. by destruct it; rewrite E2.
    + destruct (cut_validate_one it cols d rest r Hok Hit Hd ltac:(lia) ltac:(eauto)) as [(e & r' & ->)|(r1 & e & r' & -> & E)]; [by exists StopReplay, r'|].
      exists ClearLogs, r'. by destruct it; rewrite E.
Qed.

Lemma replaying_log (d : Db) cols l : replaying d cols → log_ok l → lg_overlays l = LogOverlays_default → lg_read_queue l = lg_read_queue (db_log d) →
  lg_appending l = lg_appending (db_log d) → lg_next_record_id l = lg_next_record_id (db_log d) → replaying (set_log l d) cols.
Proof. intros [H1 H2 (_ & _ & Hq & Ha) H4] Hok Ho Eq Ea En. split; simpl; try done; [by rewrite Eq, Ea|by rewrite En]. Qed.

(** The replay stops in front of a record that is cut off. *)
Lemma torn_unreadable cols0 rid items rest tail :
  in_range 64 rid → Forall (item_in cols0) items → rest ≠ [] → record_bytes crc32 (rid, items) = tail ++ rest → unreadable (T := T) crc32 cols0 tail.
Proof.
  intros Hr Hitems Hne Hrec. destruct (decide (tail = [])) as [->|Ht]; [apply unreadable_nil|]. intros d cols rg Hrp Hin Erg Hst [?|Hlast]; [done|].
  destruct (rp_log _ _ Hrp) as (Hok & Hov & Hq & Hap).
  assert (Hres : ∀ r' l', l' = put_back r' (db_log d) ∨ (∃ r1, l' = clear_replay_logs (put_back r1 (db_log d))) ∨ l' = retire_reading (db_log d) →
    replaying (set_log l' d) cols ∧ lg_disk l' = lg_disk (db_log d) ∧ lg_replay l' = lg_replay (db_log d)).
  { intros r' l' Hl'. assert (Hl : log_ok l') by (destruct Hl' as [->|[[r1 ->]| ->]]; [by apply put_back_ok|by apply clear_replay_ok, put_back_ok|by apply retire_ok]).
    destruct Hl' as [->|[[r1 ->]| ->]]; (split; [apply replaying_log; try done|]); unfold clear_replay_logs, retire_reading, put_back; rewrite ?Erg; simpl; rewrite ?Hlast; try done. }
  unfold enact_logs, Log_read_next. rewrite Erg. unfold read_record.
  destruct (next_record crc32 true (rid, items) [] (tail ++ rest) Hr ltac:(by rewrite Hrec, app_nil_r)) as (rd & E & (A1 & A2 & A3 & A4) & Hv & Hb).
  change (LogReader_new (tail ++ rest) true) with (lengthen rest (LogReader_new tail true)) in E. rewrite Hst.
  destruct (cut_next rest crc32 _ _ _ E) as [(r1 & -> & -> & _)|(r1 & -> & _)].
  - set (d1 := set_log (put_back r1 (db_log d)) d).
    assert (Hput : ∀ r', put_back r' (put_back r1 (db_log d)) = put_back r' (db_log d)) by (intros r'; unfold put_back; by rewrite Erg).
    destruct (Hres r1 (clear_replay_logs (put_back r1 (db_log d)))) as (G1 & G2 & G3); [eauto|]. case_bool_decide as Hid.
    2: { eexists. split; [reflexivity|]. done. }
    change (negb true) with false. cbv iota.
    destruct (cut_record items (record_fuel r1) cols d1 r1 (crc32 (record_items (rid, items))) rest) as (v & r' & Ev & Hvv); try done.
    { unfold record_fuel. lia. } { apply Hrp. } { by apply (Forall_impl _ _ _ Hitems). } { apply Hrp. }
    change (set_log (put_back r1 (db_log d)) d) with d1. rewrite Ev. destruct v; [done| |]; (eexists; split; [reflexivity|]); [done|].
    unfold update_log. simpl db_log. rewrite Hput. destruct (Hres r' (put_back r' (db_log d))) as (F1 & F2 & F3); eauto.
  - eexists. split; [done|]. destruct (Hres r1 (retire_reading (db_log d))) as (G1 & G2 & G3); eauto.
Qed.
End record.
