(* ===== verification/DbFresh.v ===== *)
(** * The database: a new one

    Opening a directory without files creates a database whose columns are empty. *)

From S2P Require Import Prelude IndexEntry IndexChunk Log LogFiles LogQueue Stats IndexTable IndexEnact ValueEntry File ValueTable ValueSlots ValueChains ValueWrite ValueRead ValueInv ValueSpec ValueFile ValueTheorems Compress Options Column ColumnEnact ColumnIndex ColumnTables ColumnInv ColumnWrite ColumnTheorems RecordItems LogRecords LogReopen ColumnApply ColumnPipeline ColumnRecover Commit Db DbEnact DbPipeline DbPlan DbReplay DbRecover.
#[local] Arguments mask_bits : simpl never.
#[local] Opaque mask_bits.

(** ** A new column *)
Lemma fresh_table id es rc version t :
  match es with Some s => 32 ≤ s ≤ 32760 | None => True end → ValueTable_open None id es rc version = Ok t →
  wf_table t ∧ vt_id t = id ∧ vt_file t = mkFile None 0 ∧ filled t = 1 ∧ last_removed t = 0 ∧ dirty_header t = false.
Proof.
  intros Hes E. assert (Hw : wf_table t).
  { destruct (fresh_inv LogOverlays_default id es rc version t 0 ltac:(lia) Hes E) as (H & slots & fl & Hst). apply Hst. }
  split; [done|]. revert E. unfold ValueTable_open. destruct es; case_match; try done; by intros [= <-].
Qed.

Record new_hash (col : Z) (c : HashColumn) : Prop := {
  nc_col : hc_col c = col;
  nc_index : hc_index c = create_new (TableId_new col MIN_INDEX_BITS);
  nc_tables : open_tables (λ _, None) col (hc_ref_counted c) 8 = Ok (hc_value c);
  nc_queue : hc_queue c = [];
}.

Section column.
Context {col : Z} {c : HashColumn} (Hcol : in_range 8 col) (Hc : new_hash col c).

Lemma new_tables_facts tier t : hc_value c !! tier = Some t →
  wf_table t ∧ vt_id t = TableId_new col (Z.of_nat tier) ∧ vt_file t = mkFile None 0 ∧ filled t = 1 ∧ last_removed t = 0 ∧ dirty_header t = false ∧ (tier < SIZE_TIERS)%nat.
Proof.
  intros Et. destruct (open_tables_spec _ _ _ _ _ (nc_tables _ _ Hc)) as [Hl Ho].
  assert (Hs : match SIZES !! tier with Some s => 32 ≤ s ≤ 32760 | None => True end) by (destruct (SIZES !! tier) eqn:Es; [by apply SIZES_facts in Es|done]).
  destruct (fresh_table _ _ _ _ _ Hs (Ho _ _ Et)) as (? & ? & ? & ? & ? & ?).
  split_and!; try done. rewrite <-Hl. by eapply lookup_lt_Some.
Qed.

Lemma new_hash_files : files_ok c.
Proof.
  pose proof (nc_index _ _ Hc) as Hi. split.
  - rewrite Hi, new_index_bits. unfold valid_bits. lia.
  - intros ci. rewrite Hi. apply length_replicate.
  - rewrite Hi. unfold create_new. cbn [it_id]. rewrite TableId_new_eq by (vm_compute; split; congruence). unfold in_range, MIN_INDEX_BITS in *. 
    pose proof (Z.mod_pos_bound col (2 ^ 8)). lia.
  - rewrite (nc_col _ _ Hc), Hi. split; [done|]. by apply TableId_col_new.
  - intros tier t Et. destruct (new_tables_facts _ _ Et) as (Hw & Hid & Hf & _ & _ & _ & Hlt). rewrite (nc_col _ _ Hc), Hf. split_and!; try done.
Qed.

Lemma new_hash_ready : col_ready c LogOverlays_default [] [].
Proof.
  split; try done; [apply new_hash_files|apply (nc_queue _ _ Hc)|..].
  - intros it Hin. by apply elem_of_nil in Hin.
  - intros tier t Et. destruct (new_tables_facts _ _ Et) as (Hw & Hid & Hf & H1 & H2 & H3 & _). split; [done|]. right. rewrite Hf. split_and!; done.
Qed.

Lemma new_hash_inv `{Compressors} : col_inv c LogOverlays_default ∅ no_values.
Proof.
  destruct (new_column_inv LogOverlays_default col (hc_ref_counted c) (hc_preimage c) (hc_collect_stats c) (hc_compression c)) as [H1 H2 H3 H4]; [done|].
  unfold new_column in *. rewrite (nc_tables _ _ Hc) in *. split; simpl in *; try done; [by rewrite (nc_index _ _ Hc)|by rewrite (nc_col _ _ Hc)].
Qed.

(** Its files are not damaged. *)
Lemma new_hash_damaged : damaged [] c c.
Proof.
  split; try done; [apply (nc_queue _ _ Hc)| |apply new_hash_files]. apply Forall_Forall2_diag, Forall_forall. intros t [tier Et]%list_elem_of_lookup.
  destruct (new_tables_facts _ _ Et) as (_ & _ & _ & H1 & H2 & H3 & _). by split.
Qed.
End column.

(** ** Opening the columns *)
Lemma no_index_files col bits top q st : open_index_loop (λ _, None) col bits top q st = Ok (top, q, st).
Proof. induction bits as [|b bits IH]; [done|]. apply IH. Qed.

Section open.
Context {T : Type} `{TreeColumn T}.
Abbreviation Db := (DbInner T).

Definition opened (options : Options) (md : Metadata) (i : nat) (o : ColumnOptions) (c : HashColumn) : Prop :=
  new_hash (Z.of_nat i) c ∧ settings c = (co_ref_counted o, co_preimage o,
    Compress_new (co_compression o) (default DEFAULT_COMPRESSION_THRESHOLD (op_compression_threshold options !! Z.of_nat i))).

Lemma open_new_column options md i o : md_columns md !! i = Some o → md_version md = 8 → co_btree_index o = false →
  ∃ c, Column_open (T := T) (λ _, None) (λ _, None) (Z.of_nat i) options md = Ok (Hash c) ∧ opened options md i o c.
Proof.
  intros Ho Hv Hb. unfold Column_open. rewrite Nat2Z.id, Ho, Hv, Hb. destruct (new_tables (Z.of_nat i) (co_ref_counted o)) as [ts Ets]. rewrite Ets.
  cbn [mbind outcome_bind]. unfold HashColumn_open, open_index. rewrite no_index_files. cbn [mbind outcome_bind]. rewrite Nat2Z.id, Ho. cbn [mbind outcome_bind].
  eexists. split; [done|]. by split.
Qed.

Lemma open_new_columns options md n : ∀ k, (k + n)%nat = length (md_columns md) → md_version md = 8 → Forall (λ o, co_btree_index o = false) (md_columns md) →
  ∃ cols, open_columns (T := T) (λ _ _, None) (λ _ _, None) options md (seq k n) = Ok (Hash <$> cols) ∧ length cols = n ∧
    ∀ i c, cols !! i = Some c → ∃ o, md_columns md !! (k + i)%nat = Some o ∧ opened options md (k + i) o c.
Proof.
  induction n as [|n IH]; intros k Hk Hv Hb; [by exists []|]. destruct (lookup_lt_is_Some_2 (md_columns md) k ltac:(lia)) as [o Eo].
  destruct (open_new_column options md k o Eo Hv) as (c & Ec & Hc); [rewrite Forall_forall in Hb; apply Hb; by eapply list_elem_of_lookup_2|].
  destruct (IH (S k) ltac:(lia) Hv Hb) as (cols & E & Hl & Hcols). exists (c :: cols). split_and!.
  - cbn [seq open_columns]. rewrite Ec. cbn [mbind outcome_bind]. by rewrite E.
  - simpl. by rewrite Hl.
  - intros [|i] x; simpl; [intros [= <-]; rewrite Nat.add_0_r; eauto|]. rewrite Nat.add_succ_r. apply Hcols.
Qed.

(** ** The database *)
Context (crc32 : bytes → Z) (Hcrc : ∀ b, in_range 32 (crc32 b)).

Lemma new_db_ready `{HC : Compressors} options md cols : (∀ i c, cols !! i = Some c → in_range 8 (Z.of_nat i) ∧ new_hash (Z.of_nat i) c) →
  db_ready crc32 (DbInner_open options md new_log (Hash (T := T) <$> cols)) cols [] [] (replicate (length cols) (∅, no_values)).
Proof.
  intros Hc. split; try done.
  - intros i c Ec. by apply Hc.
  - split; [apply new_log_ok|]. by apply unused_holds.
  - exists 1. done.
  - intros it Hin. by apply elem_of_nil in Hin.
  - intros c [i Ec]%list_elem_of_lookup. destruct (Hc _ _ Ec) as [Hi Hn]. by apply (new_hash_ready Hi Hn).
  - apply Forall2_same_length_lookup_2; [by rewrite length_replicate|]. intros i c ct Ec [-> _]%lookup_replicate. destruct (Hc _ _ Ec) as [Hi Hn]. apply (new_hash_inv Hn).
Qed.

Definition column_settings (options : Options) (i : nat) (o : ColumnOptions) : bool * bool * Compress :=
  (co_ref_counted o, co_preimage o, Compress_new (co_compression o) (default DEFAULT_COMPRESSION_THRESHOLD (op_compression_threshold options !! Z.of_nat i))).

Lemma no_contents `{HC : Compressors} cols n i k : contents_at cols (replicate n (∅, no_values)) i k = None.
Proof.
  unfold contents_at. destruct (cols !! i); [|done]. destruct (replicate n _ !! i) eqn:E; [|done]. apply lookup_replicate in E as [-> _].
  unfold contents, col_map. simpl. by rewrite lookup_empty.
Qed.

Lemma new_database `{HC : Compressors} `{HX : Hex} options random :
  Options_is_valid options = true → Forall (λ o, co_btree_index o = false) (op_columns options) → (length (op_columns options) ≤ 256)%nat →
  ∃ d file cols, Db_open crc32 true options random None [] ∅ (λ _ _, None) (λ _ _, None) = Ok (d : Db, Some file) ∧
    db_ready crc32 d cols [] [] (replicate (length cols) (∅, no_values)) ∧ settings <$> cols = imap (column_settings options) (op_columns options).
Proof.
  intros Hv Hb Hn. set (md := mkMetadata (default random (op_salt options)) 8 (op_columns options)).
  destruct (open_new_columns options md (length (op_columns options)) 0 eq_refl eq_refl Hb) as (cols & E & Hl & Hcols).
  assert (Hnew : ∀ i c, cols !! i = Some c → in_range 8 (Z.of_nat i) ∧ new_hash (Z.of_nat i) c).
  { intros i c Ec. destruct (Hcols _ _ Ec) as (o & _ & Hc & _). split; [|done]. apply lookup_lt_Some in Ec. unfold in_range. lia. }
  pose proof (new_db_ready options md cols Hnew) as Hr. assert (Hdam : Forall2 (damaged (items_in ([] ++ []))) cols cols).
  { apply Forall_Forall2_diag, Forall_forall. intros c [i Ec]%list_elem_of_lookup. destruct (Hnew _ _ Ec) as [Hi Hc]. by apply (new_hash_damaged Hi Hc). }
  destruct (recover_run crc32 Hcrc Hr ltac:(done) Hdam [] [] options md) as (l0 & d' & cols' & El & Ef & Hr' & Hs); try done.
  { apply NoDup_nil_2. } { intros id. split; [by intros ?%elem_of_nil|by intros [? ?]]. } { apply unreadable_nil. }
  change (Log_open [] (crash_disk (writing (db_log (DbInner_open options md new_log (Hash (T := T) <$> cols))) []) [])) with (Ok new_log) in El.
  injection El as <-. eexists d', _, cols'. split; [|split].
  - unfold Db_open. rewrite Hv. change (negb true) with false. cbv iota.
    change (load_and_validate_metadata options true random None) with (Ok (md, Some (write_metadata_file_with_version options (md_salt md) None))).
    change (Log_open [] ∅) with (Ok new_log). cbn [mbind outcome_bind]. change (md_columns md) with (op_columns options). rewrite E. cbn [mbind outcome_bind].
    by rewrite Ef.
  - replace (length cols') with (length cols); [done|]. by rewrite <-(length_fmap settings cols), <-Hs, length_fmap.
  - rewrite Hs. apply list_eq. intros i. rewrite list_lookup_fmap, list_lookup_imap. destruct (cols !! i) as [c|] eqn:Ec.
    + destruct (Hcols _ _ Ec) as (o & Eo & _ & Hset). simpl in Eo. rewrite Eo. simpl. by rewrite Hset.
    + apply lookup_ge_None_1 in Ec. rewrite (lookup_ge_None_2 (op_columns options)) by lia. done.
Qed.
End open.
