(* ===== verification/DbRun.v ===== *)
(** * The database as a transition system

    The steps of the threads of the database, in any order: a commit is queued, the next queued
    commit is written to the log, a file of the log is handed over, the next record is enacted,
    files of the log are cleaned, a key is read, and the process dies and the database is opened
    again.  The contents that readers see are always those that the commits written to the log
    give, in their order. *)

From S2P Require Import Prelude IndexEntry IndexChunk Log LogFiles LogQueue Stats IndexTable IndexEnact ValueEntry File ValueTable ValueSlots ValueChains ValueWrite ValueRead ValueInv ValueSpec ValueFile Compress Options KeyOrder Column ColumnEnact ColumnSearch ColumnIndex ColumnTables ColumnValues ColumnRecord ColumnInv ColumnWrite ColumnTheorems RecordItems LogRecords LogReopen ColumnApply ColumnPipeline ColumnRecover Commit ColumnPlan ColumnPublish Db DbEnact DbPipeline DbPlan DbReplay DbRecover DbTorn.
#[local] Arguments mask_bits : simpl never.
#[local] Opaque mask_bits.

(** ** Records that are forgotten *)
Lemma col_ready_clean c o gone kept pending : col_ready c o (gone ++ kept) pending → col_ready c o kept pending.
Proof.
  intros [H1 H2 H3 H4 H5 H6 H7]. assert (Hsub : ∀ {A} (f : item → option A) x, last_of f (items_in (kept ++ pending)) = Some x →
    last_of f (items_in ((gone ++ kept) ++ pending)) = Some x).
  { intros A f x Hx. by rewrite <-app_assoc, items_in_app, last_of_app, Hx. }
  split; try done.
  - intros it Hin. apply H3. rewrite <-app_assoc, items_in_app. set_solver.
  - intros ci k Hk. destruct (last_of (entry_data _ ci k) (items_in (kept ++ pending))) as [e|] eqn:E.
    + rewrite <-(H5 ci k Hk), (Hsub _ _ _ E). done.
    + rewrite <-(H4 ci k Hk). rewrite items_in_app, last_of_app in E. by destruct (last_of _ (items_in pending)).
  - intros tier t i d Et Hd. eapply H6; [done|]. by apply Hsub.
Qed.

Lemma col_ready_stats s c o kept pending : col_ready c o kept pending → col_ready (set_stats s c) o kept pending.
Proof. intros [[? ? ? ? ?] ? ? ? ? ? ?]. by split. Qed.
Lemma col_inv_stats `{HC : Compressors} s c o kv vs : col_inv c o kv vs → col_inv (set_stats s c) (o : LogOverlays) kv vs.
Proof. intros [? ? ? ?]. by split. Qed.

Section run.
Context {T : Type} `{TreeColumn T} `{HC : Compressors} `{HCO : !CompressorsOk HC} `{HS : Hashes}.
Context (x86 : bool) (junk : bytes) (crc32 : bytes → Z).
Context (order_index : gmap Z IndexLogOverlay → index_items) (order_value : gmap Z ValueLogOverlay → value_items).
Abbreviation Db := (DbInner T).
Abbreviation ready := (db_ready (T := T) crc32).

Lemma ready_same (d d' : Db) cols kept pending cts :
  db_columns d' = db_columns d → db_log d' = db_log d → ready d cols kept pending cts → ready d' cols kept pending cts.
Proof. intros Hc Hl [? ? ? ? ? ? ? ?]. split; rewrite ?Hl, ?Hc; done. Qed.

Lemma ready_log (d : Db) cols kept pending cts l gone kept' :
  ready d cols kept pending cts → kept = gone ++ kept' → log_ok l → log_holds crc32 l kept' pending → lg_overlays l = lg_overlays (db_log d) →
  lg_next_record_id l = lg_next_record_id (db_log d) → ready (set_log l d) cols kept' pending cts.
Proof.
  intros Hr -> Hl Hh Ho Hn. destruct Hr as [H1 H2 H3 H4 H5 H6 H7 H8]. split; simpl; rewrite ?Ho, ?Hn; try done.
  - destruct H5 as (first & I1 & I2 & I3 & I4). exists (first + Z.of_nat (length gone)).
    rewrite <-app_assoc, length_app, fmap_app, Nat2Z.inj_add, seqZ_app in I2 by lia. apply app_inj_1 in I2 as [_ I2]; [|rewrite length_fmap, length_seqZ; lia].
    rewrite <-app_assoc, length_app in I3. split_and!; try done; lia.
  - intros it Hin. apply H6. rewrite <-app_assoc, items_in_app. set_solver.
  - intros c Hc. by apply (col_ready_clean c _ gone), H7.
Qed.

(** ** The steps that change no contents *)
Lemma flush_run n (d : Db) cols kept pending cts b d' : ready d cols kept pending cts → flush_logs n d = (b, d') → ready d' cols kept pending cts.
Proof.
  intros Hr. unfold flush_logs, on_log, zoom. destruct (flush_one n (db_log d)) as [o l] eqn:E. intros [= <- <-]. destruct (dr_log _ _ _ _ _ _ Hr) as [Hl Hh].
  eapply (ready_log d cols kept pending cts l []); try done; [by eapply flush_one_ok|by eapply flush_one_holds|..];
    unfold flush_one in E; case_bool_decide; injection E as <- <-; try done; by destruct (lg_appending (db_log d)).
Qed.

Lemma clean_run (d : Db) cols kept pending cts b d' :
  ready d cols kept pending cts → Db_clean_logs d = (b, d') → ∃ gone kept', kept = gone ++ kept' ∧ ready d' cols kept' pending cts.
Proof.
  intros Hr. unfold Db_clean_logs. rewrite M_bind_gets. unfold id. cbv zeta. case_bool_decide; [|intros [= <- <-]; by exists [], kept].
  unfold on_log, zoom. set (n := (_ - _)%nat). destruct (clean_logs n (db_log d)) as [o l] eqn:E. intros [= <- <-]. destruct (dr_log _ _ _ _ _ _ Hr) as [Hl Hh].
  destruct (clean_logs_holds crc32 n _ _ _ kept pending Hl E Hh) as (gone & kept' & -> & Hh'). exists gone, kept'. split; [done|].
  eapply (ready_log d cols _ pending cts l gone); try done; [by eapply clean_logs_ok|..]; unfold clean_logs in E; by injection E as <- <-.
Qed.

(** With no old index to empty there is nothing to reindex. *)
Lemma reindex_idle l : ∀ (d : Db) cols, db_columns d = Hash <$> cols → (∀ c, c ∈ cols → hc_queue c = []) →
  reindex_columns x86 crc32 order_index order_value l d = (Ok false, start_reindex 0 d).
Proof.
  induction l as [|i l IH]; intros d cols Hd Hq; [done|]. cbn [reindex_columns]. rewrite M_bind_gets. unfold id. rewrite Hd, list_lookup_fmap.
  destruct (cols !! i) as [c|] eqn:Ec; [|by eapply IH]. change (Hash (T := T) <$> Some c) with (Some (Hash (T := T) c)). cbv iota. assert (Hc : hc_queue c = []) by (apply Hq; by eapply list_elem_of_lookup_2).
  assert (E : HashColumn_reindex (lg_overlays (db_log d)) c = (Ok (mkBatch None []), c)) by (unfold HashColumn_reindex; rewrite M_bind_gets; unfold id; by rewrite Hc).
  rewrite E, M_bind_modify. erewrite M_bind_lift by reflexivity. cbn [batch drop_index_id]. rewrite !bool_decide_true by done. cbn [andb].
  replace (put_column (Z.of_nat i) (Hash c) d) with d; [by eapply IH|]. unfold put_column. rewrite Nat2Z.id, list_insert_id; [by destruct d|].
  by rewrite Hd, list_lookup_fmap, Ec.
Qed.
Lemma reindex_run (d : Db) cols kept pending cts o d' :
  ready d cols kept pending cts → process_reindex x86 crc32 order_index order_value d = (o, d') → ready d' cols kept pending cts.
Proof.
  intros Hr. unfold process_reindex. rewrite M_bind_gets. unfold id. destruct (_ || _); [by intros [= <- <-]|].
  rewrite (reindex_idle _ d cols (dr_cols _ _ _ _ _ _ Hr)); [|intros c Hc; by eapply cr_quiet, (dr_ready _ _ _ _ _ _ Hr)].
  intros [= <- <-]. by apply (ready_same d).
Qed.

(** Queueing a commit touches neither the columns nor the log. *)
Definition apart {A} (m : M Db A) : Prop := ∀ d o d', m d = (o, d') → db_columns d' = db_columns d ∧ db_log d' = db_log d.
Lemma apart_bind {A B} (m : M Db A) (k : A → M Db B) : apart m → (∀ a, apart (k a)) → apart (m ≫= k).
Proof.
  intros Hm Hk d o d'. unfold mbind, M_bind. destruct (m d) as [[a| | |] d1] eqn:E; try (intros [= <- <-]; by eapply Hm).
  intros E2. destruct (Hm _ _ _ E) as [<- <-]. by eapply Hk.
Qed.
Lemma apart_modify f : (∀ d, db_columns (f d) = db_columns d ∧ db_log (f d) = db_log d) → apart (modify f).
Proof. intros Hf d o d' [= <- <-]. apply Hf. Qed.
Lemma apart_overlay col get put m n : apart (on_overlay (T := T) col get put m n).
Proof.
  intros d o d'. unfold on_overlay. destruct (column_options _ col); [|by intros [= <- <-]..]. destruct (db_overlay d !! _); [|by intros [= <- <-]].
  destruct (m _ _) as [[| | |] [mp k]]; by intros [= <- <-].
Qed.
Lemma apart_copy_indexed rid l : ∀ n, apart (copy_indexed (T := T) rid l n).
Proof. induction l as [|[c s] l IH]; intros n; [by intros d o d' [= <- <-]|]. apply apart_bind; [apply apart_overlay|apply IH]. Qed.
Lemma apart_copy_btree rid l : ∀ n, apart (copy_btree (T := T) rid l n).
Proof. induction l as [|[c s] l IH]; intros n; [by intros d o d' [= <- <-]|]. apply apart_bind; [apply apart_overlay|apply IH]. Qed.
Lemma apart_commit tx : apart (commit_changes (T := T) tx).
Proof.
  unfold commit_changes, commit_raw. apply apart_bind; [by intros ? ? ? [= <- <-]|]. intros d0. apply apart_bind; [by intros ? ? ? [= <- <-]|]. intros cs.
  apply apart_bind; [by intros ? ? ? [= <- <-]|]. intros d1. destruct (db_bg_err d1); [by intros ? ? ? [= <- <-]|]. cbv zeta.
  apply apart_bind; [by apply apart_modify|]. intros _. apply apart_bind; [apply apart_copy_indexed|]. intros n1.
  apply apart_bind; [apply apart_copy_btree|]. intros n2. by apply apart_modify.
Qed.

(** ** Reading a key *)
Lemma get_stats key (log : LogOverlays) c : ∃ s, (HashColumn_get x86 junk key log c).2 = set_stats s c.
Proof.
  assert (Hsame : c = set_stats (hc_stats c) c) by (by destruct c). unfold HashColumn_get. rewrite M_bind_gets. unfold id, mbind at 1, M_bind, lift.
  destruct (get_in_indexes x86 junk c key (hc_index c :: hc_queue c) log) as [[[tier v]|]| | |]; try (simpl; by eexists).
  - destruct (hc_collect_stats c); [|by eexists]. unfold mbind, M_bind, lift. destruct (stats_query_hit tier (hc_stats c)); simpl; by eexists.
  - destruct (hc_collect_stats c); simpl; by eexists.
Qed.

Lemma ready_stats (d : Db) cols kept pending cts i c s :
  ready d cols kept pending cts → cols !! i = Some c →
  ready (put_column (Z.of_nat i) (Hash (set_stats s c)) d) (<[i := set_stats s c]> cols) kept pending cts ∧ settings <$> <[i := set_stats s c]> cols = settings <$> cols.
Proof.
  intros [H1 H2 H3 H4 H5 H6 H7 H8] Ei. assert (Hset : settings <$> <[i := set_stats s c]> cols = settings <$> cols).
  { rewrite list_fmap_insert. apply list_insert_id. by rewrite list_lookup_fmap, Ei. }
  assert (Hl : ∀ j c', <[i := set_stats s c]> cols !! j = Some c' → ∃ c0 s', cols !! j = Some c0 ∧ c' = set_stats s' c0).
  { intros j c'. rewrite list_lookup_insert. case_decide as Hd; [destruct Hd as [<- _]; intros [= <-]; eauto|]. intros Ec. exists c', (hc_stats c').
    split; [done|]. by destruct c'. }
  split; [|done]. split; simpl; try done.
  - by rewrite H1, Nat2Z.id, list_fmap_insert.
  - intros j c' Hc. destruct (Hl _ _ Hc) as (c0 & s' & Ec & ->). exact (H2 _ _ Ec).
  - intros it Hin. apply lookup_lt_is_Some. rewrite length_insert. by apply lookup_lt_is_Some, H6.
  - intros c' [j Hc]%list_elem_of_lookup. destruct (Hl _ _ Hc) as (c0 & s' & Ec & ->). apply col_ready_stats, H7. by eapply list_elem_of_lookup_2.
  - apply Forall2_same_length_lookup_2; [rewrite length_insert; by eapply Forall2_length|]. intros j c' ct Hc Hct. destruct (Hl _ _ Hc) as (c0 & s' & Ec & ->).
    apply col_inv_stats. by eapply (Forall2_lookup_lr _ _ _ _ _ _ H8).
Qed.

Lemma get_run (d : Db) cols kept pending cts col key o d' :
  ready d cols kept pending cts → Db_get x86 junk col key d = (o, d') →
  ∃ cols', ready d' cols' kept pending cts ∧ settings <$> cols' = settings <$> cols.
Proof.
  intros Hr. unfold Db_get. rewrite M_bind_gets. unfold id, get_column. rewrite (dr_cols _ _ _ _ _ _ Hr), list_lookup_fmap.
  destruct (cols !! Z.to_nat col) as [c|] eqn:Ec; [|simpl; intros [= <- <-]; by exists cols]. simpl fmap. erewrite M_bind_lift by reflexivity. cbv beta iota.
  destruct (hash_key key _ _ _) as [h| | |]; [|simpl; intros [= <- <-]; by exists cols..]. erewrite M_bind_lift by reflexivity. cbv beta.
  destruct (db_overlay d !! _ ≫= _) as [v|]; [intros [= <- <-]; by exists cols|].
  destruct (get_stats h (lg_overlays (db_log d)) c) as [s Hs]. destruct (HashColumn_get x86 junk h _ c) as [r c']. simpl in Hs. subst c'.
  rewrite M_bind_modify. intros [= <- <-]. destruct (ready_stats d cols kept pending cts _ c s Hr Ec) as [H1 H2]. exists (<[Z.to_nat col := set_stats s c]> cols).
  split; [|done]. unfold put_column in *. by rewrite Nat2Z.id in H1.
Qed.

(** ** The steps *)
Abbreviation changes := (list (Z * IndexedChangeSet)).

(** The files of the database after a crash: those of the log, of which the last may end in the
    middle of a record that was being written, and those of the columns, in which the places
    that the records of the log mention may hold anything. *)
Record crashed (d : Db) (files : list Z) (disk : gmap Z bytes) (cols1 : list HashColumn) : Prop := {
  cd_limit : lg_next_log_id (db_log d) < 2 ^ 32 - 2;
  cd_files : NoDup files ∧ ∀ id, id ∈ files ↔ is_Some (disk !! id);
  cd_log : ∃ tail, disk = crash_disk (writing (db_log d) tail) tail ∧
    (tail = [] ∨ ∃ cols items rest, db_columns d = Hash <$> cols ∧ Forall (item_in cols) items ∧ rest ≠ [] ∧
       record_bytes crc32 (lg_next_record_id (db_log d), items) = tail ++ rest);
  cd_columns : ∃ cols, db_columns d = Hash <$> cols ∧
    ∀ kept pending, log_holds crc32 (db_log d) kept pending → Forall2 (damaged (items_in (kept ++ pending))) cols cols1;
}.

Inductive db_step (d : Db) : option changes → Db → Prop :=
  | step_queue tx o d' : commit_changes tx d = (o, d') → db_step d None d'
  | step_process cols commit rest o d' :
      db_columns d = Hash <$> cols → cq_commits (db_queue d) = commit :: rest → cs_btree (cm_changeset commit) = [] →
      lg_next_record_id (db_log d) + 1 < 2 ^ 64 → lg_next_log_id (db_log d) < 2 ^ 32 - 1 →
      commit_fits x86 junk (cs_indexed (cm_changeset commit)) cols (LogWriter_new (lg_overlays (db_log d)) (lg_next_record_id (db_log d))) →
      process_commits x86 junk crc32 order_index order_value d = (o, d') → db_step d (Some (cs_indexed (cm_changeset commit))) d'
  | step_flush n o d' : flush_logs n d = (o, d') → db_step d None d'
  | step_enact o d' : enact_logs crc32 false d = (o, d') → db_step d None d'
  | step_reindex o d' : process_reindex x86 crc32 order_index order_value d = (o, d') → db_step d None d'
  | step_clean o d' : Db_clean_logs d = (o, d') → db_step d None d'
  | step_get col key o d' : Db_get x86 junk col key d = (o, d') → db_step d None d'
  | step_crash files disk cols1 l options md o d' :
      crashed d files disk cols1 → Log_open files disk = Ok l →
      finish_open crc32 (DbInner_open options md l (Hash <$> cols1)) = (o, d') → db_step d None d'.

(** A run, with the changes of the commits that were written to the log. *)
Inductive db_run (d : Db) : list changes → Db → Prop :=
  | run_start : db_run d [] d
  | run_more cs d1 l d2 : db_run d cs d1 → db_step d1 l d2 → db_run d (cs ++ option_list l) d2.

(** The contents that commits give. *)
Definition spec_commits (cols : list HashColumn) (cs : list changes) (f : nat → bytes → option (Z * bytes)) : nat → bytes → option (Z * bytes) :=
  foldl (λ f l, spec_commit cols l f) f cs.

Lemma hash_columns_inj (cols cols' : list HashColumn) : Hash (T := T) <$> cols = Hash <$> cols' → cols = cols'.
Proof. apply list_fmap_eq_inj. by intros ? ? [=]. Qed.

Context (Hcrc : ∀ b, in_range 32 (crc32 b)).

Lemma crash_step (d : Db) cols kept pending cts files disk cols1 options md :
  ready d cols kept pending cts → crashed d files disk cols1 →
  ∃ l d' cols', Log_open files disk = Ok l ∧ finish_open crc32 (DbInner_open options md l (Hash <$> cols1)) = (Ok tt, d') ∧
    ready d' cols' [] [] cts ∧ settings <$> cols' = settings <$> cols.
Proof.
  intros Hr [Hlim [Hnd Hf] (tail & -> & Htail) (cols0 & Hc0 & Hdam)]. rewrite (dr_cols _ _ _ _ _ _ Hr) in Hc0, Htail. apply hash_columns_inj in Hc0 as <-.
  destruct (dr_log _ _ _ _ _ _ Hr) as [_ Hh]. specialize (Hdam _ _ Hh). destruct (dr_ids _ _ _ _ _ _ Hr) as (first & I1 & _ & I3 & I4).
  apply (recover_run crc32 Hcrc Hr Hlim Hdam tail files options md Hnd Hf).
  - intros Ht. destruct Htail as [?|(cols0 & items & rest & _ & _ & Hne & E)]; [done|]. by exists items, rest.
  - destruct Htail as [->|(cols0 & items & rest & Hc0 & Hit & Hne & E)]; [apply unreadable_nil|]. apply hash_columns_inj in Hc0 as <-.
    eapply torn_unreadable; [|eapply Forall_impl; [exact Hit|apply (damaged_cols crc32 Hr Hdam)]|exact Hne|exact E]. unfold in_range. lia.
Qed.

Context (Hli : lists order_index) (Hlv : lists order_value) (Hjunk : length junk = MAX_ENTRY_BUF_SIZE).

Lemma step_run (d : Db) cols kept pending cts l d' :
  ready d cols kept pending cts → db_step d l d' →
  ∃ cols' kept' pending' cts', ready d' cols' kept' pending' cts' ∧ settings <$> cols' = settings <$> cols ∧
    ∀ i k, contents_at cols' cts' i k = spec_commits cols (option_list l) (contents_at cols cts) i k.
Proof.
  assert (Hsame : ∀ d' cols' kept' pending', ready d' cols' kept' pending' cts → settings <$> cols' = settings <$> cols →
    ∃ cols' kept' pending' cts', ready d' cols' kept' pending' cts' ∧ settings <$> cols' = settings <$> cols ∧
      ∀ i k, contents_at cols' cts' i k = spec_commits cols [] (contents_at cols cts) i k).
  { intros d1 cols' kept' pending' Hr Hs. exists cols', kept', pending', cts. split_and!; try done. intros i k. by apply contents_at_settings. }
  intros Hr. destruct 1 as [tx o d' E|cols0 commit rest o d' Hc Hq Hb Hn Hl Hfit E|n o d' E|o d' E|o d' E|o d' E|col key o d' E|files disk cols1 lg options md o d' Hcr El E];
    cbn [option_list].
  - destruct (apart_commit _ _ _ _ E) as [E1 E2]. eapply Hsame; [by eapply ready_same|done].
  - rewrite (dr_cols _ _ _ _ _ _ Hr) in Hc. apply hash_columns_inj in Hc as <-.
    destruct (process_commits_run x86 junk Hjunk crc32 order_index order_value Hli Hlv d cols kept pending cts commit rest Hr Hq Hb Hn Hl Hfit)
      as (d1 & cols' & items & cts' & E1 & Hr' & _ & _ & Hs & Hc'). rewrite E1 in E. injection E as <- <-. eauto 10.
  - eapply Hsame; [by eapply flush_run|done].
  - destruct (enact_logs_run crc32 Hcrc d cols kept pending cts Hr) as [(d1 & E1 & Hr')|(r & rs & d1 & cols' & -> & E1 & Hr' & Hs)];
      rewrite E1 in E; injection E as <- <-; by eapply Hsame.
  - eapply Hsame; [by eapply reindex_run|done].
  - destruct (clean_run d cols kept pending cts o d' Hr E) as (gone & kept' & -> & Hr'). by eapply Hsame.
  - destruct (get_run d cols kept pending cts col key o d' Hr E) as (cols' & Hr' & Hs). by eapply Hsame.
  - destruct (crash_step d cols kept pending cts files disk cols1 options md Hr Hcr) as (l0 & d1 & cols' & El' & E1 & Hr' & Hs).
    rewrite El in El'. injection El' as <-. rewrite E1 in E. injection E as <- <-. by eapply Hsame.
Qed.

Lemma spec_commits_ext cols cols' cs : settings <$> cols' = settings <$> cols → ∀ f g, (∀ i k, f i k = g i k) →
  ∀ i k, spec_commits cols' cs f i k = spec_commits cols cs g i k.
Proof.
  intros Hs. induction cs as [|l cs IH]; intros f g Hf; [done|]. unfold spec_commits in *. cbn [foldl]. apply IH. intros i k.
  rewrite (spec_commit_settings _ _ l Hs). by apply spec_commit_ext.
Qed.

Lemma run_run (d : Db) cols kept pending cts cs d' :
  ready d cols kept pending cts → db_run d cs d' →
  ∃ cols' kept' pending' cts', ready d' cols' kept' pending' cts' ∧ settings <$> cols' = settings <$> cols ∧
    ∀ i k, contents_at cols' cts' i k = spec_commits cols cs (contents_at cols cts) i k.
Proof.
  intros Hr. induction 1 as [|cs d1 l d2 _ (cols1 & kept1 & pending1 & cts1 & Hr1 & Hs1 & Hc1) Hstep]; [by exists cols, kept, pending, cts|].
  destruct (step_run d1 cols1 kept1 pending1 cts1 l d2 Hr1 Hstep) as (cols2 & kept2 & pending2 & cts2 & Hr2 & Hs2 & Hc2).
  exists cols2, kept2, pending2, cts2. split_and!; [done|by rewrite Hs2|]. intros i k. rewrite Hc2. unfold spec_commits. rewrite foldl_app.
  by apply (spec_commits_ext _ _ (option_list l) Hs1).
Qed.
End run.
