(* ===== verification/DbDurability.v ===== *)
(** * The database: durability

    The theorems about the database as a whole: writing commits, enacting records, crashes, and
    every interleaving of them. *)

From S2P Require Import Prelude IndexEntry IndexChunk Log LogFiles LogQueue Stats IndexTable IndexEnact ValueEntry File ValueTable ValueSlots ValueChains ValueWrite ValueRead ValueInv ValueSpec ValueFile ValueTheorems Compress Options KeyOrder Column ColumnEnact ColumnSearch ColumnIndex ColumnTables ColumnValues ColumnRecord ColumnInv ColumnWrite ColumnTheorems RecordItems LogRecords LogReopen ColumnApply ColumnPipeline ColumnRecover Commit CommitView ColumnPlan ColumnPublish Db DbEnact DbTheorems DbPipeline DbPlan DbReplay DbRecover DbTorn DbFresh DbRun.
#[local] Arguments mask_bits : simpl never.
#[local] Opaque mask_bits.

Section durability.
Context {T : Type} `{TreeColumn T} `{HC : Compressors} `{HCO : !CompressorsOk HC} `{HS : Hashes}.
Context (x86 : bool) (junk : bytes) (crc32 : bytes → Z).
Context (order_index : gmap Z IndexLogOverlay → index_items) (order_value : gmap Z ValueLogOverlay → value_items).
Abbreviation Db := (DbInner T).
Abbreviation ready := (db_ready (T := T) crc32).

(** A key that no queued commit changes is read from its column. *)
Lemma db_get_contents (d : Db) cols kept pending cts i c key h :
  length junk = MAX_ENTRY_BUF_SIZE → ready d cols kept pending cts → cols !! i = Some c →
  hash_key key (hc_salt c) (hc_uniform_keys c) (hc_db_version c) = Ok h → length h = KEY_SIZE → db_overlay d !! i ≫= CommitOverlay_get h = None →
  (hc_collect_stats c = true → length (query_histogram (hc_stats c)) = SIZE_TIERS) →
  (Db_get x86 junk (Z.of_nat i) key d).1 = Ok (snd <$> contents_at cols cts i h).
Proof.
  intros Hj Hr Ec Hh Hl Ho Hst. destruct (Forall2_lookup_l _ _ _ _ _ (dr_contents _ _ _ _ _ _ Hr) Ec) as (ct & Ect & Hinv).
  assert (Hq : hc_queue c = []) by (eapply cr_quiet, (dr_ready _ _ _ _ _ _ Hr); by eapply list_elem_of_lookup_2).
  unfold Db_get. rewrite M_bind_gets. unfold id, get_column. rewrite (dr_cols _ _ _ _ _ _ Hr), list_lookup_fmap, Nat2Z.id, Ec. simpl fmap.
  erewrite M_bind_lift by reflexivity. cbv beta iota. rewrite Hh. erewrite M_bind_lift by reflexivity. cbv beta. rewrite Ho.
  destruct (column_get_run x86 junk c (lg_overlays (db_log d)) ct.1 ct.2 h Hj Hinv Hq Hl Hst) as [Eg Hp].
  destruct (HashColumn_get x86 junk h (lg_overlays (db_log d)) c) as [o c']. simpl in Eg. subst o. rewrite M_bind_modify. simpl.
  unfold contents_at, contents, reading. rewrite Ec, Ect. destruct (col_map ct.1 ct.2 h) as [v|]; [|done]. destruct (Hp v eq_refl) as [x Hx]. simpl. by rewrite Hx.
Qed.

(** C1. From a new database of hash columns, whatever the threads do and however often the
    process dies (queueing commits, writing them to the log, handing over, enacting and cleaning
    the log, reading, and opening the database again on the files that a crash leaves), a reader
    of a key that no queued commit changes gets the value that the commits written to the log
    give, applied in their order to an empty map. *)
Theorem database_reads_what_was_committed `{HX : Hex} options random (d : Db) file cs d' :
  length junk = MAX_ENTRY_BUF_SIZE → (∀ b, in_range 32 (crc32 b)) → lists order_index → lists order_value →
  Options_is_valid options = true → Forall (λ o, co_btree_index o = false) (op_columns options) → (length (op_columns options) ≤ 256)%nat →
  Db_open crc32 true options random None [] ∅ (λ _ _, None) (λ _ _, None) = Ok (d, file) →
  db_run x86 junk crc32 order_index order_value d cs d' →
  ∃ cols, db_columns d' = Hash <$> cols ∧ ∀ i c key h,
    cols !! i = Some c → hash_key key (hc_salt c) (hc_uniform_keys c) (hc_db_version c) = Ok h → length h = KEY_SIZE →
    db_overlay d' !! i ≫= CommitOverlay_get h = None → (hc_collect_stats c = true → length (query_histogram (hc_stats c)) = SIZE_TIERS) →
    (Db_get x86 junk (Z.of_nat i) key d').1 = Ok (snd <$> spec_commits cols cs (λ _ _, None) i h).
Proof.
  intros Hj Hcrc Hli Hlv Hv Hb Hn Eo Hrun. destruct (new_database crc32 Hcrc options random Hv Hb Hn) as (d0 & f & cols & E & Hr & _).
  assert (d0 = d) as -> by congruence.
  destruct (run_run x86 junk crc32 order_index order_value Hcrc Hli Hlv Hj d cols [] [] _ cs d' Hr Hrun) as (cols' & kept & pending & cts & Hr' & Hs & Hc).
  exists cols'. split; [apply Hr'|]. intros i c key h Ec Hh Hl Ho Hst. rewrite (db_get_contents d' cols' kept pending cts i c key h Hj Hr' Ec Hh Hl Ho Hst).
  rewrite Hc. do 2 f_equal. apply spec_commits_ext; [done|]. intros i' k. apply no_contents.
Qed.

(** C2. Opening a database after a crash restores its contents.  The log may end in the middle of
    a record, and the places of the table files that the records of the log mention may hold
    anything: the writes of the records that were being enacted or not yet synced may have
    happened in part and in any order.  Opening succeeds, replays every whole record, and every
    column has the contents that readers saw before the crash. *)
Theorem crash_recovery_restores_contents (d : Db) cols kept pending cts files disk cols1 options md :
  (∀ b, in_range 32 (crc32 b)) → ready d cols kept pending cts → crashed crc32 d files disk cols1 →
  ∃ l d' cols', Log_open files disk = Ok l ∧ finish_open crc32 (DbInner_open options md l (Hash <$> cols1)) = (Ok tt, d') ∧
    ready d' cols' [] [] cts ∧ ∀ i k, contents_at cols' cts i k = contents_at cols cts i k.
Proof.
  intros Hcrc Hr Hcd. destruct (crash_step crc32 Hcrc d cols kept pending cts files disk cols1 options md Hr Hcd) as (l & d' & cols' & El & E & Hr' & Hs).
  exists l, d', cols'. split_and!; try done. intros i k. by apply contents_at_settings.
Qed.

(** C3. Writing the next queued commit to the log succeeds when its changes fit: one record is
    appended to the log, the commit leaves the queue and the commit overlays, and the contents of
    every column become those after the changes of the commit, applied in order. *)
Theorem process_commits_refines (d : Db) cols kept pending cts commit rest :
  length junk = MAX_ENTRY_BUF_SIZE → lists order_index → lists order_value →
  ready d cols kept pending cts → cq_commits (db_queue d) = commit :: rest → cs_btree (cm_changeset commit) = [] →
  lg_next_record_id (db_log d) + 1 < 2 ^ 64 → lg_next_log_id (db_log d) < 2 ^ 32 - 1 →
  commit_fits x86 junk (cs_indexed (cm_changeset commit)) cols (LogWriter_new (lg_overlays (db_log d)) (lg_next_record_id (db_log d))) →
  ∃ d' cols' items cts', process_commits x86 junk crc32 order_index order_value d = (Ok true, d') ∧
    ready d' cols' kept (pending ++ [(lg_next_record_id (db_log d), items)]) cts' ∧ cq_commits (db_queue d') = rest ∧
    db_overlay d' = clean_indexed (cm_id commit) (cs_indexed (cm_changeset commit)) (db_overlay d) ∧
    ∀ i k, contents_at cols' cts' i k = spec_commit cols (cs_indexed (cm_changeset commit)) (contents_at cols cts) i k.
Proof.
  intros Hj Hli Hlv Hr Hq Hb Hn Hl Hfit.
  destruct (process_commits_run x86 junk Hj crc32 order_index order_value Hli Hlv d cols kept pending cts commit rest Hr Hq Hb Hn Hl Hfit)
    as (d' & cols' & items & cts' & E & Hr' & H1 & H2 & _ & H3). by exists d', cols', items, cts'.
Qed.

(** C4. Enacting never fails and changes nothing that readers see: either no record can be read
    yet and nothing changes, or the oldest record that is not enacted is written to the files of
    the columns and taken out of the overlays of the log, and the contents stay the same. *)
Theorem enact_logs_keeps_contents (d : Db) cols kept pending cts :
  (∀ b, in_range 32 (crc32 b)) → ready d cols kept pending cts →
  ∃ d' cols' b enacted, enact_logs crc32 false d = (Ok b, d') ∧ pending = enacted ++ drop (length enacted) pending ∧
    length enacted = (if b then 1 else 0)%nat ∧ ready d' cols' (kept ++ enacted) (drop (length enacted) pending) cts ∧
    ∀ i k, contents_at cols' cts i k = contents_at cols cts i k.
Proof.
  intros Hcrc Hr. destruct (enact_logs_run crc32 Hcrc d cols kept pending cts Hr) as [(d' & E & Hr')|(r & rs & d' & cols' & -> & E & Hr' & Hs)].
  - exists d', cols, false, []. rewrite app_nil_r. by rewrite drop_0.
  - exists d', cols', true, [r]. split_and!; try done. intros i k. by apply contents_at_settings.
Qed.

(** C16. Creating a database in an empty directory succeeds when the options are valid and ask for
    hash columns only: the metadata file is written, every column has the settings of its
    options, and no column has a value for any key. *)
Theorem new_database_is_empty `{HX : Hex} options random :
  (∀ b, in_range 32 (crc32 b)) →
  Options_is_valid options = true → Forall (λ o, co_btree_index o = false) (op_columns options) → (length (op_columns options) ≤ 256)%nat →
  ∃ (d : Db) file cols cts, Db_open crc32 true options random None [] ∅ (λ _ _, None) (λ _ _, None) = Ok (d, Some file) ∧
    ready d cols [] [] cts ∧ settings <$> cols = imap (column_settings options) (op_columns options) ∧ ∀ i k, contents_at cols cts i k = None.
Proof.
  intros Hcrc Hv Hb Hn. destruct (new_database crc32 Hcrc options random Hv Hb Hn) as (d & f & cols & E & Hr & Hs).
  exists d, f, cols, (replicate (length cols) (∅, no_values)). split_and!; try done. intros i k. apply no_contents.
Qed.
End durability.

(** ** An instance *)
Definition any_order {A} (m : gmap Z (gmap Z A)) : list (Z * list (Z * A)) := prod_map id map_to_list <$> map_to_list m.
Lemma any_order_lists {A} : lists (A := A) any_order.
Proof.
  intros m id i x. unfold any_order. split.
  - intros (l & ([id' o] & [= -> ->] & Ho)%list_elem_of_fmap & Hx). apply elem_of_map_to_list in Ho, Hx. by rewrite Ho.
  - intros (o & Ho & Hx)%bind_Some. exists (map_to_list o). split; [|by apply elem_of_map_to_list].
    apply list_elem_of_fmap. exists (id, o). split; [done|]. by apply elem_of_map_to_list.
Qed.
Definition no_crc (_ : bytes) : Z := 0.
Lemma no_crc_range b : in_range 32 (no_crc b).
Proof. done. Qed.
Definition created : outcome (DbInner Empty_set * option string) :=
  Db_open (H2 := toy_hex) no_crc true one_column [] None [] ∅ (λ _ _, None) (λ _ _, None).
Definition first_db : DbInner Empty_set := match created with Ok (d, _) => d | _ => DbInner_open one_column one_metadata new_log [] end.
Definition first_file : option string := match created with Ok (_, f) => f | _ => None end.
Definition queued_db : DbInner Empty_set := (commit_changes (H1 := test_hashes) [(0, OpSet key_a [Byte.x01; Byte.x02])] first_db).2.
Definition logged : outcome bool * DbInner Empty_set := process_commits (H0 := toy) true zeros no_crc any_order any_order queued_db.
Definition logged_db : DbInner Empty_set := logged.2.

Definition hash_cols (d : DbInner Empty_set) : list HashColumn := omap (λ c, match c with Hash c => Some c | Tree _ => None end) (db_columns d).
Definition queued_commit : Commit := match cq_commits (db_queue queued_db) with c :: _ => c | [] => mkCommit 0 0 (mkChangeSet [] []) end.
Definition first_changes : list (Z * IndexedChangeSet) := cs_indexed (cm_changeset queued_commit).
Definition hashed_a : bytes := match hash_key (H := test_hashes) key_a (replicate 32 Byte.x00) true 8 with Ok h => h | _ => [] end.

(** The limits of a commit, checked. *)
Definition room_check (n : nat) (c : HashColumn) : bool := forallb (λ t,
  bool_decide (filled t + Z.of_nat n ≤ 2 ^ (bits_of (hc_index c) + 6)) && bool_decide ((filled t + Z.of_nat n) * entry_size t < 2 ^ 64)) (hc_value c).
Definition file_check (c : HashColumn) : bool := forallb (λ t, bool_decide ((filled t + GROW_SIZE_BYTES / entry_size t) * entry_size t < 2 ^ 64)) (hc_value c).
Lemma room_checked n c : room_check n c = true → col_room c n.
Proof.
  intros Hc tier t Et. unfold room_check in Hc. rewrite forallb_forall in Hc. specialize (Hc t ltac:(apply list_elem_of_In; by eapply list_elem_of_lookup_2)).
  apply andb_prop in Hc as [H1%bool_decide_eq_true H2%bool_decide_eq_true]. by split.
Qed.
Lemma file_checked c : file_check c = true → file_room c.
Proof.
  intros Hc tier t Et. unfold file_check in Hc. rewrite forallb_forall in Hc. specialize (Hc t ltac:(apply list_elem_of_In; by eapply list_elem_of_lookup_2)).
  by apply bool_decide_eq_true in Hc.
Qed.

Definition first_col : HashColumn := match hash_cols queued_db with c :: _ => c | [] => quiet_column end.
Definition first_writer : LogWriter := LogWriter_new (lg_overlays (db_log queued_db)) (lg_next_record_id (db_log queued_db)).
Lemma first_fits : commit_fits (HC := toy) true zeros first_changes (hash_cols queued_db) first_writer.
Proof.
  replace first_changes with [(0, mkIndexed 0 [OpSet hashed_a [Byte.x01; Byte.x02]])] by (vm_compute; reflexivity). cbn [commit_fits].
  replace (hash_cols queued_db !! Z.to_nat 0) with (Some first_col) by (vm_compute; reflexivity). split; [split_and!|].
  - vm_compute. reflexivity.
  - apply room_checked. vm_compute. reflexivity.
  - intros Hf. assert (Hx : Entry_is_empty 0 = false) by (apply (Hf 0%nat); [unfold CHUNK_ENTRIES; lia|vm_compute; reflexivity]). discriminate Hx.
  - exact I.
  - cbv zeta. set (cols := <[_ := _]> _). assert (Hc : forallb file_check cols = true) by (vm_compute; reflexivity).
    intros i c Ei. apply file_checked. rewrite forallb_forall in Hc. apply Hc, list_elem_of_In. by eapply list_elem_of_lookup_2.
Qed.

(** *** A crash after the record was written and in the middle of the next one, before any of it
    was enacted: the files of the tables are those of the new database. *)
Definition unwritten (t t1 : ValueTable) : bool :=
  bool_decide (vt_id t1 = vt_id t) && bool_decide (entry_size t1 = entry_size t) && bool_decide (multipart t1 = multipart t) &&
  bool_decide (ref_counted t1 = ref_counted t) && bool_decide (db_version t1 = db_version t) && negb (dirty_header t1) &&
  bool_decide (filled t1 = 1) && bool_decide (last_removed t1 = 0) && bool_decide (tf_file (vt_file t1) = tf_file (vt_file t)) &&
  bool_decide (tf_capacity (vt_file t1) = tf_capacity (vt_file t)).
Lemma unwritten_damaged l t t1 : unwritten t t1 = true → damaged_table l t t1.
Proof.
  unfold unwritten. rewrite !andb_true_iff, !bool_decide_eq_true, negb_true_iff. intros [[[[[[[[[H1 H2] H3] H4] H5] H6] H7] H8] H9] H10].
  assert (Hf : vt_file t1 = vt_file t) by (destruct (vt_file t1), (vt_file t); simpl in *; congruence). split; try done. by rewrite Hf.
Qed.
Fixpoint all_unwritten (ts ts1 : list ValueTable) : bool :=
  match ts, ts1 with
  | [], [] => true
  | t :: ts, t1 :: ts1 => unwritten t t1 && all_unwritten ts ts1
  | _, _ => false
  end.
Lemma all_unwritten_damaged l ts : ∀ ts1, all_unwritten ts ts1 = true → Forall2 (damaged_table l) ts ts1.
Proof. induction ts as [|t ts IH]; intros [|t1 ts1]; try done. intros [H1 H2]%andb_prop. constructor; [by apply unwritten_damaged|by apply IH]. Qed.

Definition torn_tail : bytes := le_bytes 1 BEGIN_RECORD ++ le_bytes 8 2.
Definition torn_disk : gmap Z bytes := crash_disk (writing (db_log logged_db) torn_tail) torn_tail.
Definition written_col : HashColumn := match hash_cols logged_db with c :: _ => c | [] => quiet_column end.
Definition opened_col : HashColumn := match hash_cols first_db with c :: _ => c | [] => quiet_column end.

Lemma opened_col_new : new_hash 0 opened_col.
Proof. split; vm_compute; reflexivity. Qed.
Lemma opened_col_damaged l : damaged l written_col opened_col.
Proof.
  split.
  - vm_compute. done.
  - vm_compute. reflexivity.
  - vm_compute. reflexivity.
  - assert (E : hc_index opened_col = hc_index written_col) by (vm_compute; reflexivity). intros ci k _ _. by rewrite E.
  - apply all_unwritten_damaged. vm_compute. reflexivity.
  - by apply (new_hash_files (col := 0)), opened_col_new.
Qed.
Lemma logged_db_crashed : crashed no_crc logged_db [0] torn_disk [opened_col].
Proof.
  assert (Hc : db_columns logged_db = Hash <$> [written_col]) by (vm_compute; reflexivity). split.
  - vm_compute. reflexivity.
  - split; [apply NoDup_singleton|]. clear Hc. intros id.
    replace torn_disk with (<[0 := default [] (torn_disk !! 0)]> (∅ : gmap Z bytes)) by (vm_compute; reflexivity). rewrite list_elem_of_singleton.
    rewrite lookup_insert. case_decide as Hd; [subst id; split; [intros _; eexists; reflexivity|intros _; reflexivity]|]. rewrite lookup_empty. split; [intros ->; by destruct Hd|by intros [? ?]].
  - exists torn_tail. split; [reflexivity|]. right. exists [written_col], [], (le_bytes 1 END_RECORD ++ le_bytes 4 0).
    split; [exact Hc|]. split; [constructor|]. split; [discriminate|vm_compute; reflexivity].
  - exists [written_col]. split; [exact Hc|]. intros kept pending _. constructor; [apply opened_col_damaged|constructor].
Qed.

(** *** The state of the instance *)
Lemma created_first : created = Ok (first_db, first_file).
Proof. vm_compute. reflexivity. Qed.
Lemma created_unique d f : created = Ok (d, f) → d = first_db.
Proof. unfold first_db. by intros ->. Qed.
Lemma one_column_hash : Forall (λ o, co_btree_index o = false) (op_columns one_column).
Proof. by repeat constructor. Qed.

Lemma new_database_is_empty_witness : ∃ (d : DbInner Empty_set) file cols cts,
  Db_open (H2 := toy_hex) no_crc true one_column [] None [] ∅ (λ _ _, None) (λ _ _, None) = Ok (d, Some file) ∧
  db_ready (H0 := toy) no_crc d cols [] [] cts ∧ length cols = 1%nat ∧ contents_at (H := toy) cols cts 0 key_a = None.
Proof.
  destruct (new_database_is_empty (HC := toy) no_crc (HX := toy_hex) one_column [] no_crc_range eq_refl one_column_hash ltac:(simpl; lia))
    as (d & file & cols & cts & E & Hr & Hs & Hc).
  exists d, file, cols, cts. split_and!; [exact E|exact Hr| |apply Hc]. apply (f_equal length) in Hs. rewrite length_fmap in Hs. exact Hs.
Defined.

Lemma first_ready : db_ready (H0 := toy) no_crc first_db [opened_col] [] [] [(∅, no_values)].
Proof.
  destruct (new_database (HC := toy) no_crc no_crc_range (HX := toy_hex) one_column [] eq_refl one_column_hash ltac:(simpl; lia)) as (d & file & cols & E & Hr & _).
  apply created_unique in E as ->.
  assert (cols = [opened_col]) as ->; [|exact Hr]. apply (hash_columns_inj (T := Empty_set)). rewrite <-(dr_cols _ _ _ _ _ _ Hr). vm_compute. reflexivity.
Qed.
Lemma queued_ready : db_ready (H0 := toy) no_crc queued_db (hash_cols queued_db) [] [] [(∅, no_values)].
Proof.
  replace (hash_cols queued_db) with [opened_col] by (vm_compute; reflexivity). eapply ready_same; [| |exact first_ready]; vm_compute; reflexivity.
Qed.

Lemma process_commits_refines_witness : ∃ d' cols' items cts',
  process_commits (H0 := toy) true zeros no_crc any_order any_order queued_db = (Ok true, d') ∧
  db_ready (H0 := toy) no_crc d' cols' [] [(1, items)] cts' ∧ contents_at (H := toy) cols' cts' 0 hashed_a = Some (1, [Byte.x01; Byte.x02]).
Proof.
  destruct (process_commits_refines (HCO := toy_ok) true zeros no_crc any_order any_order queued_db (hash_cols queued_db) [] [] [(∅, no_values)] queued_commit []
    zeros_length any_order_lists any_order_lists queued_ready) as (d' & cols' & items & cts' & E & Hr & _ & _ & Hc).
  - vm_compute. reflexivity.
  - vm_compute. reflexivity.
  - vm_compute. reflexivity.
  - vm_compute. reflexivity.
  - exact first_fits.
  - exists d', cols', items, cts'. split; [exact E|]. split; [exact Hr|]. rewrite Hc. vm_compute. reflexivity.
Defined.

Lemma logged_ready : ∃ cols kept pending cts, db_ready (H0 := toy) no_crc logged_db cols kept pending cts ∧
  contents_at (H := toy) cols cts 0 hashed_a = Some (1, [Byte.x01; Byte.x02]).
Proof.
  destruct (process_commits_run (HCO := toy_ok) true zeros zeros_length no_crc any_order any_order any_order_lists any_order_lists queued_db (hash_cols queued_db) [] []
    [(∅, no_values)] queued_commit [] queued_ready) as (d' & cols' & items & cts' & E & Hr & _ & _ & _ & Hc); [vm_compute; reflexivity..|exact first_fits|].
  exists cols', [], [(1, items)], cts'. unfold logged_db, logged. rewrite E. split; [exact Hr|]. rewrite Hc. vm_compute. reflexivity.
Qed.

Lemma enact_logs_keeps_contents_witness : ∃ d' cols' kept' pending' cts,
  enact_logs no_crc false (flush_logs 0 logged_db).2 = (Ok true, d') ∧
  db_ready (H0 := toy) no_crc d' cols' kept' pending' cts ∧ contents_at (H := toy) cols' cts 0 hashed_a = Some (1, [Byte.x01; Byte.x02]).
Proof.
  destruct logged_ready as (cols & kept & pending & cts & Hr & Hc).
  pose proof (flush_run no_crc 0 logged_db cols kept pending cts _ _ Hr (surjective_pairing _)) as Hf.
  destruct (enact_logs_keeps_contents (HC := toy) no_crc _ cols kept pending cts no_crc_range Hf) as (d' & cols' & b & enacted & E & _ & _ & Hr' & Hs).
  exists d', cols', (kept ++ enacted), (drop (length enacted) pending), cts. split; [|split; [exact Hr'|by rewrite Hs]].
  assert (Hb : (enact_logs no_crc false (flush_logs 0 logged_db).2).1 = Ok true) by (vm_compute; reflexivity). rewrite E in Hb. simpl in Hb. rewrite E. by rewrite Hb.
Defined.

Lemma crash_recovery_restores_contents_witness : ∃ l d' cols' cts,
  Log_open [0] torn_disk = Ok l ∧ finish_open no_crc (DbInner_open one_column one_metadata l [Hash (T := Empty_set) opened_col]) = (Ok tt, d') ∧
  db_ready (H0 := toy) no_crc d' cols' [] [] cts ∧ contents_at (H := toy) cols' cts 0 hashed_a = Some (1, [Byte.x01; Byte.x02]).
Proof.
  destruct logged_ready as (cols & kept & pending & cts & Hr & Hc).
  destruct (crash_recovery_restores_contents (HC := toy) no_crc logged_db cols kept pending cts [0] torn_disk [opened_col] one_column one_metadata no_crc_range Hr logged_db_crashed)
    as (l & d' & cols' & El & E & Hr' & Hs).
  exists l, d', cols', cts. split; [exact El|]. split; [exact E|]. split; [exact Hr'|]. by rewrite Hs.
Defined.

(** *** A run: a commit is queued and written to the log, and the process dies *)
Definition torn_log : LogState := match Log_open [0] torn_disk with Ok l => l | _ => new_log end.
Definition recovered : outcome unit * DbInner Empty_set := finish_open no_crc (DbInner_open one_column one_metadata torn_log [Hash opened_col]).

Abbreviation step := (db_step (HC := toy) (HS := test_hashes) true zeros no_crc any_order any_order).
Lemma run_queue : step first_db None queued_db.
Proof. eapply step_queue. apply surjective_pairing. Qed.
Lemma run_process : step queued_db (Some first_changes) logged_db.
Proof.
  eapply (step_process _ _ _ _ _ queued_db (hash_cols queued_db) queued_commit [] logged.1 logged_db); [vm_compute; reflexivity..|exact first_fits|].
  unfold logged_db, logged. apply surjective_pairing.
Qed.
Lemma run_crash : step logged_db None recovered.2.
Proof.
  eapply (step_crash _ _ _ _ _ logged_db [0] torn_disk [opened_col] torn_log one_column one_metadata recovered.1 recovered.2);
    [exact logged_db_crashed|vm_compute; reflexivity|]. unfold recovered. apply surjective_pairing.
Qed.
Lemma recovered_run : db_run (HC := toy) (HS := test_hashes) true zeros no_crc any_order any_order first_db [first_changes] recovered.2.
Proof. exact (run_more _ _ _ _ _ _ _ _ _ _ (run_more _ _ _ _ _ _ _ _ _ _ (run_more _ _ _ _ _ _ _ _ _ _ (run_start _ _ _ _ _ _) run_queue) run_process) run_crash). Qed.

Lemma only_hash (d : DbInner Empty_set) : db_columns d = Hash <$> hash_cols d.
Proof. unfold hash_cols. induction (db_columns d) as [|[c|[]] l IH]; [done|]. simpl. by f_equal. Qed.
Definition recovered_col : HashColumn := match hash_cols recovered.2 with c :: _ => c | [] => quiet_column end.
Lemma recovered_first : hash_cols recovered.2 !! 0%nat = Some recovered_col.
Proof.
  unfold recovered_col. assert (Hl : length (hash_cols recovered.2) = 1%nat) by (vm_compute; reflexivity).
  destruct (hash_cols recovered.2); [discriminate Hl|reflexivity].
Qed.

Lemma database_reads_what_was_committed_witness :
  (Db_get (H0 := toy) (H1 := test_hashes) true zeros 0 key_a recovered.2).1 = Ok (Some [Byte.x01; Byte.x02]).
Proof.
  destruct (database_reads_what_was_committed (HCO := toy_ok) (HS := test_hashes) true zeros no_crc any_order any_order (HX := toy_hex) one_column [] first_db first_file
    [first_changes] recovered.2 zeros_length no_crc_range any_order_lists any_order_lists eq_refl one_column_hash ltac:(simpl; lia) created_first recovered_run) as (cols & Hd & Hg).
  rewrite only_hash in Hd. apply hash_columns_inj in Hd as <-.
  refine (eq_trans (Hg 0%nat recovered_col key_a hashed_a recovered_first _ _ _ _) _).
  - vm_compute. reflexivity.
  - vm_compute. reflexivity.
  - vm_compute. reflexivity.
  - vm_compute. discriminate.
  - vm_compute. reflexivity.
Defined.
