(* ===== verification/BTreeColumn.v ===== *)
(** * Tree columns (src/src/btree/mod.rs)

    A [BTreeTable] holds the value tables of the column.  The header of the tree, the address of
    its root and its depth, is the first entry of the first table.  The last part gives the
    database its tree columns: an instance of the interface [TreeColumn]. *)

From S2P Require Import Prelude IndexEntry IndexChunk Log Stats IndexTable ValueEntry File ValueTable Compress Options KeyOrder Column ColumnEnact BTreeNode BTree Commit Db.

Record BTreeTable := mkTree { bt_id : Z; bt_tables : list ValueTable; bt_ref_counted : bool; bt_compression : Compress }.

Section column.
Context (junk : bytes) `{Compressors}.

Definition locked (c : BTreeTable) : TreeRef := mkTreeRef (bt_ref_counted c) (bt_compression c).
Definition set_tables (l : list ValueTable) (c : BTreeTable) : BTreeTable :=
  mkTree (bt_id c) l (bt_ref_counted c) (bt_compression c).

Definition BTreeTable_open (id : Z) (values : list ValueTable) (options : Options) (metadata : Metadata) : outcome BTreeTable :=
  let size_tier := Z.to_nat (Address_size_tier HEADER_ADDRESS) in
  t ← arr_get size_tier values;
  values ←
    (if is_init t then Ok values
     else
       e ← write_header (mkBHeader NULL_ADDRESS 0) (VEntry_new []);
       let '(o, t) := init_with_entry junk (e_buf e) t in
       _ ← o; Ok (<[size_tier := t]> values));
  o ← arr_get (Z.to_nat id) (md_columns metadata);
  Ok (mkTree id values (co_ref_counted o)
        (Compress_new (co_compression o) (default DEFAULT_COMPRESSION_THRESHOLD (op_compression_threshold options !! id)))).

Definition get_at_value_index `{LogQuery L} (key : TableKeyQuery) (address : Z) (log : L) (c : BTreeTable) : outcome (option (Z * bytes)) :=
  get_value junk (bt_compression c) (bt_tables c) key address log.

(** The plans act on the tables and the writer of the record. *)
Definition on_tables {A} (m : TreeRef → M VState A) : M (BTreeTable * LogWriter) A := λ '(c, w),
  let '(o, s) := m (locked c) (mkVS (bt_tables c) w None) in
  (o, (set_tables (vs_tables s) c, vs_log s)).

Definition BTreeChangeSet_write_plan (changes : list (Operation bytes bytes)) : M (BTreeTable * LogWriter) Z :=
  '(_, w) ← gets id;
  on_tables (λ r, BTree_write_plan junk r (record_id (change w)) changes).

Definition BTreeTable_complete_plan : M (BTreeTable * LogWriter) unit :=
  '(c, _) ← gets id;
  on_tables (λ _, complete_tables (seq 0 (length (bt_tables c)))).

(** Records are validated and applied table by table. *)
Definition on_tier {A} (tier : nat) (m : M (ValueTable * LogReader) A) : M (BTreeTable * LogReader) A := λ '(c, r),
  match bt_tables c !! tier with
  | None => (Panic, (c, r))
  | Some t => let '(o, (t', r')) := m (t, r) in (o, (set_tables (<[tier := t']> (bt_tables c)) c, r'))
  end.

Definition BTreeTable_enact_plan (action : LogAction) : M (BTreeTable * LogReader) unit :=
  match action with
  | InsertValue table index => on_tier (Z.to_nat (ValueTableId_size_tier table)) (ValueTable_enact_plan index)
  | _ => lift Panic
  end.

Definition BTreeTable_validate_plan (action : LogAction) : M (BTreeTable * LogReader) unit :=
  match action with
  | InsertValue table index => on_tier (Z.to_nat (ValueTableId_size_tier table)) (ValueTable_validate_plan index)
  | _ => fail (Corruption "Unexpected log action")
  end.

Definition BTreeTable_refresh_metadata (c : BTreeTable) : outcome BTreeTable :=
  ts ← refresh_tables (bt_tables c); Ok (set_tables ts c).

#[export] Instance btree_column : TreeColumn BTreeTable := {
  tree_open := BTreeTable_open;
  tree_get key log c := BTreeTable_get junk (locked c) key log (bt_tables c);
  tree_write_plan := BTreeChangeSet_write_plan;
  tree_complete_plan := BTreeTable_complete_plan;
  tree_enact_plan := BTreeTable_enact_plan;
  tree_validate_plan := BTreeTable_validate_plan;
  tree_refresh_metadata := BTreeTable_refresh_metadata;
}.
End column.
