(* ===== verification/BTreeIter.v ===== *)
(** * Iterators over tree columns (src/src/btree/iter.rs, [Node::seek] of node.rs)

    An iterator merges two ordered sequences: the entries of the tree, walked with a stack of
    nodes, and the entries of the commit overlay, looked up by the last key returned.  An entry
    read from the tree but not returned yet is kept as pending.  The column, the log and the
    overlays are shared with the rest of the database and can change between two calls, so each
    call takes them as arguments; when a record of the column has been logged in between, the
    walk starts again from the last key. *)

From S2P Require Import Prelude IndexEntry IndexChunk Log Stats IndexTable ValueEntry File ValueTable Compress Options KeyOrder Column ColumnEnact BTreeNode BTree Commit LogFiles Db BTreeColumn.

Inductive IterDirection := Backward | Forward.
#[export] Instance IterDirection_eq_dec : EqDecision IterDirection.
Proof. solve_decision. Defined.

Inductive SeekTo := SeekInclude (key : bytes) | SeekExclude (key : bytes) | SeekLast.
Definition SeekTo_key (s : SeekTo) : option bytes :=
  match s with SeekInclude key | SeekExclude key => Some key | SeekLast => None end.

Inductive LastIndex := Seeked (i : nat) | At (i : nat) | Before (i : nat) | Descend (i : nat).

Record PendingBackend := mkPending { pb_next_item : option (bytes * bytes); pb_direction : IterDirection }.

(** The stack of nodes, the innermost one first. *)
Abbreviation Stack := (list (LastIndex * Node)).
Record BTreeIterState := mkIterState { is_state : Stack; is_record_id : Z }.
Record BTreeIterator := mkIterator {
  bi_tree : BTree;
  bi_iter : BTreeIterState;
  bi_col : Z;
  bi_pending : option PendingBackend;
  bi_last_key : LastKey;
}.

Definition set_stack (st : Stack) (it : BTreeIterator) : BTreeIterator :=
  mkIterator (bi_tree it) (mkIterState st (is_record_id (bi_iter it))) (bi_col it) (bi_pending it) (bi_last_key it).
Definition set_tree (t : BTree) (it : BTreeIterator) : BTreeIterator :=
  mkIterator t (bi_iter it) (bi_col it) (bi_pending it) (bi_last_key it).
Definition set_iter_record (id : Z) (it : BTreeIterator) : BTreeIterator :=
  mkIterator (bi_tree it) (mkIterState (is_state (bi_iter it)) id) (bi_col it) (bi_pending it) (bi_last_key it).
Definition set_pending (p : option PendingBackend) (it : BTreeIterator) : BTreeIterator :=
  mkIterator (bi_tree it) (bi_iter it) (bi_col it) p (bi_last_key it).
Definition set_last_key (k : LastKey) (it : BTreeIterator) : BTreeIterator :=
  mkIterator (bi_tree it) (bi_iter it) (bi_col it) (bi_pending it) k.

(** ** Walking the stack *)
Definition node_start (node : Node) (direction : IterDirection) (is_leaf : bool) : LastIndex :=
  let ix := match direction with
            | Forward => 0%nat
            | Backward => match last_separator_index node with Some i => S i | None => 0%nat end
            end in
  if is_leaf then Before ix else Descend ix.

(** The loop of [exit], after the node on top has been popped; the result is [true] when the
    stack is empty. *)
Fixpoint exit_up (direction : IterDirection) (st : Stack) : outcome (bool * Stack) :=
  match st with
  | [] => Ok (true, [])
  | (ix, node) :: rest =>
      match ix with
      | Descend child =>
          more ← (match direction with
                  | Backward => Ok (bool_decide (child = 0%nat))
                  | Forward =>
                      if bool_decide (child = ORDER) then Ok true
                      else b ← has_separator child node; Ok (negb b)
                  end);
          if (more : bool) then exit_up direction rest else Ok (false, (Before child, node) :: rest)
      | _ => Ok (false, [])
      end
  end.
Definition exit (direction : IterDirection) (st : Stack) : outcome (bool * Stack) := exit_up direction (tail st).

(** What the top of the stack says to do next; [None] is to leave the node. *)
Definition next_index (direction : IterDirection) (is_leaf : bool) (ix : LastIndex) : option LastIndex :=
  match direction, ix with
  | _, Descend sep => Some (Descend sep)
  | _, Seeked sep => Some (At sep)
  | Forward, At sep =>
      if is_leaf && bool_decide (S sep = ORDER) then None
      else if is_leaf then Some (At (S sep)) else Some (Descend (S sep))
  | Forward, Before sep => if bool_decide (sep = ORDER) then None else Some (At sep)
  | Backward, At sep =>
      if is_leaf && bool_decide (sep = 0%nat) then None
      else if is_leaf then Some (At (sep - 1)) else Some (Descend sep)
  | Backward, Before sep => if bool_decide (sep = 0%nat) then None else Some (At (sep - 1))
  end.

Section iter.
Context (junk : bytes) `{Compressors} `{LogQuery L} (col : BTreeTable) (log : L).

(** One round of the loop of [next]: [inl] is a result, [inr] the stack of the next round.  The
    stack is left behind when a read fails. *)
Definition next_round (direction : IterDirection) (depth : Z) (st : Stack)
    : outcome (option (bytes * bytes) + unit) * Stack :=
  let leave :=
    match exit direction st with
    | Ok (true, st') => (Ok (inl None), st')
    | Ok (false, st') => (Ok (inr tt), st')
    | Err e => (Err e, st)
    | Panic => (Panic, st)
    | NoFuel => (NoFuel, st)
    end in
  match st with
  | [] => (Ok (inl None), st)
  | (ix, node) :: rest =>
      let is_leaf := bool_decide (depth + 1 = Z.of_nat (length st)) in
      match next_index direction is_leaf ix with
      | None => leave
      | Some (At at_) =>
          match separator_address at_ node with
          | Ok (Some address) =>
              let st' := (At at_, node) :: rest in
              (key ← separator_key at_ node;
               key ← (match key with Some key => Ok key | None => Panic end);
               v ← get_at_value_index junk (QFetch false) address log col;
               Ok (inl (option_map (λ v, (key, snd v)) v)), st')
          | Ok None => leave
          | Err e => (Err e, st)
          | Panic => (Panic, st)
          | NoFuel => (NoFuel, st)
          end
      | Some (Descend child_ix) =>
          match fetch_child junk (locked col) child_ix log (bt_tables col) node with
          | Ok (Some child) =>
              let is_child_leaf := bool_decide (depth = Z.of_nat (length st)) in
              (Ok (inr tt), (node_start child direction is_child_leaf, child) :: (Descend child_ix, node) :: rest)
          | Ok None => leave
          | Err e => (Err e, st)
          | Panic => (Panic, st)
          | NoFuel => (NoFuel, st)
          end
      | Some _ => (Panic, st)
      end
  end.

Fixpoint next_loop (fuel : nat) (direction : IterDirection) (depth : Z) : M Stack (option (bytes * bytes)) :=
  match fuel with
  | O => lift NoFuel
  | S fuel' =>
      r ← next_round direction depth;
      match r with
      | inl result => mret result
      | inr _ => next_loop fuel' direction depth
      end
  end.

(** A walk of a balanced tree leaves one node and goes down one path. *)
Definition walk_fuel (depth : Z) : nat := 2 * Z.to_nat depth + 6.

Definition IterState_next (btree : BTree) (direction : IterDirection) : M Stack (option (bytes * bytes)) :=
  st ← gets id;
  _ ← (match st with
       | [] =>
           root ← lift (fetch_root junk (locked col) (default NULL_ADDRESS (bt_root_index btree)) log (bt_tables col));
           modify (λ _, [(node_start root direction (bool_decide (bt_depth btree = 0)), root)])
       | _ => mret tt
       end);
  next_loop (walk_fuel (bt_depth btree)) direction (bt_depth btree).

(** [Node::seek]; the recursion is on the depth. *)
Fixpoint Node_seek (seek_to : SeekTo) (depth : nat) (from : Node) : M Stack unit :=
  let '(at_, i) :=
    match SeekTo_key seek_to with
    | Some key => position key from
    | None => (false, match last_separator_index from with Some i => S i | None => 0%nat end)
    end in
  let push e := modify (λ st, e :: st) in
  if (at_ : bool) then
    match seek_to with
    | SeekExclude _ => push (At i, from)
    | SeekInclude _ => push (Seeked i, from)
    | SeekLast => lift Panic
    end
  else
    match depth with
    | O => push (Before i, from)
    | S depth' =>
        child ← lift (fetch_child junk (locked col) i log (bt_tables col) from);
        match child with
        | Some child => _ ← push (Descend i, from); Node_seek seek_to depth' child
        | None => fail (Corruption "A btree node is missing a child")
        end
    end.

Definition IterState_seek (seek_to : SeekTo) (btree : BTree) : M Stack unit :=
  _ ← modify (λ _, []);
  root ← lift (fetch_root junk (locked col) (default NULL_ADDRESS (bt_root_index btree)) log (bt_tables col));
  Node_seek seek_to (Z.to_nat (bt_depth btree)) root.

(** ** The iterator *)
Definition on_stack {A} (m : BTree → M Stack A) : M BTreeIterator A := λ it,
  let '(o, st) := m (bi_tree it) (is_state (bi_iter it)) in (o, set_stack st it).

Definition reopen (record_id : Z) : M BTreeIterator unit :=
  t ← lift (BTree_open junk (locked col) log record_id (bt_tables col)); modify (set_tree t).

Definition seek_backend (seek_to : SeekTo) (record_id : Z) : M BTreeIterator unit :=
  it ← gets id;
  _ ← (if bool_decide (record_id ≠ bt_record_id (bi_tree it)) then
         _ ← reopen record_id; modify (set_iter_record record_id)
       else mret tt);
  on_stack (IterState_seek seek_to).

Definition next_backend (record_id : Z) (direction : IterDirection) : M BTreeIterator (option (bytes * bytes)) :=
  it ← gets id;
  _ ← (if bool_decide (record_id ≠ bt_record_id (bi_tree it)) then
         _ ← reopen record_id;
         _ ← on_stack (IterState_seek (match bi_last_key it with
                                       | LKAt k => SeekExclude k
                                       | LKSeeked k => SeekInclude k
                                       | LKStart => SeekInclude []
                                       | LKEnd => SeekLast
                                       end));
         modify (set_iter_record record_id)
       else mret tt);
  on_stack (λ t, IterState_next t direction).
End iter.

Section iterator.
Context (junk : bytes) `{Compressors} (col : BTreeTable) (log : LogOverlays).

Definition BTreeIterator_new (c : Z) : outcome BTreeIterator :=
  let record_id := LogOverlays_last_record_id log c in
  tree ← BTree_open junk (locked col) log record_id (bt_tables col);
  Ok (mkIterator tree (mkIterState [] (bt_record_id tree)) c None LKStart).

Definition iterator_seek (key : bytes) : M BTreeIterator unit :=
  it ← gets id;
  let record_id := LogOverlays_last_record_id log (bi_col it) in
  _ ← modify (set_last_key (LKSeeked key));
  _ ← modify (set_pending None);
  seek_backend junk col log (SeekInclude key) record_id.
Definition seek_to_first : M BTreeIterator unit := iterator_seek [].
Definition seek_to_last : M BTreeIterator unit :=
  it ← gets id;
  let record_id := LogOverlays_last_record_id log (bi_col it) in
  _ ← modify (set_last_key LKEnd);
  seek_backend junk col log SeekLast record_id.

(** What a round of [iter_inner] makes of the next entries of the overlay and of the tree: an
    entry to return or the key to go on from, and the entry left pending. *)
Definition merge_next (direction : IterDirection) (next_commit : option (bytes * option bytes)) (next_backend : option (bytes * bytes))
    : (option (bytes * bytes) + bytes) * option PendingBackend :=
  match next_commit, next_backend with
  | Some (commit_key, commit_value), Some (backend_key, backend_value) =>
      match direction, bytes_cmp commit_key backend_key with
      | Backward, Gt | Forward, Lt =>
          (match commit_value with Some value => inl (Some (commit_key, value)) | None => inr commit_key end,
           Some (mkPending (Some (backend_key, backend_value)) direction))
      | Backward, Lt | Forward, Gt => (inl (Some (backend_key, backend_value)), None)
      | _, Eq => (match commit_value with Some value => inl (Some (backend_key, value)) | None => inr commit_key end, None)
      end
  | Some (commit_key, commit_value), None =>
      (match commit_value with Some value => inl (Some (commit_key, value)) | None => inr commit_key end,
       Some (mkPending None direction))
  | None, Some item => (inl (Some item), None)
  | None, None => (inl None, Some (mkPending None direction))
  end.

Fixpoint iter_inner (fuel : nat) (overlay : list CommitOverlay) (direction : IterDirection) : M BTreeIterator (option (bytes * bytes)) :=
  match fuel with
  | O => lift NoFuel
  | S fuel' =>
      it ← gets id;
      let next_commit_overlay :=
        overlay !! Z.to_nat (bi_col it) ≫=
          λ o, match direction with Forward => btree_next (bi_last_key it) o | Backward => btree_prev (bi_last_key it) o end in
      let record_id := LogOverlays_last_record_id log (bi_col it) in
      let pending := if bool_decide (record_id ≠ is_record_id (bi_iter it)) then None else bi_pending it in
      _ ← modify (set_pending None);
      let next_from_pending :=
        match pending with
        | Some p => if bool_decide (pb_direction p = direction) then Some (pb_next_item p) else None
        | None => None
        end in
      next_backend ← (match next_from_pending with
                      | Some item => mret item
                      | None => next_backend junk col log record_id direction
                      end);
      let '(result, pending) := merge_next direction next_commit_overlay next_backend in
      _ ← (match pending with Some _ => modify (set_pending pending) | None => mret tt end);
      match result with
      | inr key => _ ← modify (set_last_key (LKAt key)); iter_inner fuel' overlay direction
      | inl r =>
          _ ← modify (set_last_key (match r with
                                    | Some (key, _) => LKAt key
                                    | None => match direction with Backward => LKStart | Forward => LKEnd end
                                    end));
          mret r
      end
  end.

(** Each round that does not return has skipped an entry of the overlay. *)
Definition iter_fuel (overlay : list CommitOverlay) (c : Z) : nat :=
  S (match overlay !! Z.to_nat c with Some o => size (ov_btree o) | None => 0 end).
Definition iterator_next (overlay : list CommitOverlay) : M BTreeIterator (option (bytes * bytes)) :=
  it ← gets id; iter_inner (iter_fuel overlay (bi_col it)) overlay Forward.
Definition iterator_prev (overlay : list CommitOverlay) : M BTreeIterator (option (bytes * bytes)) :=
  it ← gets id; iter_inner (iter_fuel overlay (bi_col it)) overlay Backward.
End iterator.

Definition DbInner_btree_iter (junk : bytes) `{Compressors} (c : Z) (d : DbInner BTreeTable) : outcome BTreeIterator :=
  column ← get_column c d;
  match column with
  | Hash _ => Err (InvalidConfiguration "Not an indexed column.")
  | Tree t => BTreeIterator_new junk t (lg_overlays (db_log d)) c
  end.
