(* ===== verification/BTreeItems.v ===== *)
(** * What a tree column promises: an ordered sequence of entries

    The entries of a tree in the order of their keys, and what a sequence of changes does to
    them.  This is the specification the operations on nodes are proved against. *)

From stdpp Require Import sorting.
From S2P Require Import Prelude Compress Stats Column ColumnValues KeyOrder BTree.

(** An entry: a key, a reference counter and a value. *)
Abbreviation item := (bytes * (Z * bytes))%type.
Abbreviation Change := (Operation bytes bytes).

Definition item_lt (x y : item) : Prop := key_lt x.1 y.1.
#[export] Instance item_lt_trans : Transitive item_lt.
Proof. intros x y z. unfold item_lt. apply transitivity. Qed.
Abbreviation ordered := (StronglySorted item_lt).
Definition below (key : bytes) (l : list item) : Prop := Forall (λ x, key_lt x.1 key) l.
Definition above (key : bytes) (l : list item) : Prop := match l with [] => True | x :: _ => key_lt key x.1 end.

(** Changes come in the order of their keys. *)
Definition change_le (c c' : Change) : Prop := ¬ key_lt (Operation_key c') (Operation_key c).

Definition one (key : bytes) (o : option (Z * bytes)) : list item := match o with Some p => [(key, p)] | None => [] end.

(** One change. *)
Fixpoint item_step (rc : bool) (op : Change) (l : list item) : list item :=
  let key := Operation_key op in
  match l with
  | [] => one key (spec_step rc false op None)
  | x :: l' =>
      match bytes_cmp key x.1 with
      | Lt => one key (spec_step rc false op None) ++ l
      | Eq => one key (spec_step rc false op (Some x.2)) ++ l'
      | Gt => x :: item_step rc op l'
      end
  end.
Definition item_steps (rc : bool) (ops : list Change) (l : list item) : list item := foldl (λ l op, item_step rc op l) l ops.

(** The entry of a key. *)
Definition item_get (key : bytes) (l : list item) : option (Z * bytes) := list_to_map (M := gmap bytes (Z * bytes)) l !! key.

Lemma ordered_app l1 l2 : ordered (l1 ++ l2) ↔ ordered l1 ∧ ordered l2 ∧ ∀ x y, x ∈ l1 → y ∈ l2 → item_lt x y.
Proof.
  induction l1 as [|x l1 IH]; simpl.
  - split; [|tauto]. intros H. split_and!; [constructor|done|]. by intros x y ?%elem_of_nil.
  - split.
    + intros H. apply StronglySorted_inv in H as [(H1 & H2 & H3)%IH Hx]. rewrite Forall_app, !Forall_forall in Hx. destruct Hx as [Hx1 Hx2].
      split_and!; [constructor; [done|by apply Forall_forall]|done|]. intros a b [->|Ha]%elem_of_cons Hb; auto.
    + intros (H1 & H2 & H3). apply StronglySorted_inv in H1 as [H1 Hx]. constructor.
      * apply IH. split_and!; [done..|]. intros a b Ha Hb. apply H3; [by right|done].
      * apply Forall_app. split; [done|]. apply Forall_forall. intros b Hb. apply H3; [by left|done].
Qed.

Lemma below_app key l1 l2 : below key (l1 ++ l2) ↔ below key l1 ∧ below key l2.
Proof. apply Forall_app. Qed.

(** In an ordered sequence the entries before a small one are small. *)
Lemma ordered_below key l1 e l2 : ordered (l1 ++ e :: l2) → ¬ key_lt key e.1 → below key l1.
Proof.
  intros (_ & _ & H)%ordered_app Hk. apply Forall_forall. intros x Hx.
  assert (Hxe : key_lt x.1 e.1) by (apply H; [done|by left]). destruct (key_cases e.1 key) as [Hc|[Hc|Hc]]; [by etrans|by rewrite <-Hc|done].
Qed.

Section step.
Context (rc : bool) (op : Change).
Abbreviation key := (Operation_key op).

Lemma step_below l1 l : below key l1 → item_step rc op (l1 ++ l) = l1 ++ item_step rc op l.
Proof. induction 1 as [|x l1 Hx _ IH]; [done|]. cbn [app item_step]. by rewrite (proj2 (bytes_cmp_gt _ _) Hx), IH. Qed.
Lemma step_above l l2 : above key l2 → item_step rc op (l ++ l2) = item_step rc op l ++ l2.
Proof.
  intros Ha. induction l as [|x l IH]; cbn [app item_step].
  - destruct l2 as [|y l2]; cbn [item_step]; [by rewrite app_nil_r|]. simpl in Ha. unfold key_lt in Ha. by rewrite Ha.
  - destruct (bytes_cmp key x.1); [by rewrite app_assoc|by rewrite <-app_assoc|by rewrite IH].
Qed.
Lemma step_hit l1 e l2 : below key l1 → e.1 = key →
  item_step rc op (l1 ++ e :: l2) = l1 ++ one key (spec_step rc false op (Some e.2)) ++ l2.
Proof. intros Hb He. rewrite step_below by done. cbn [item_step]. by rewrite He, bytes_cmp_refl. Qed.
Lemma step_miss l1 l2 : below key l1 → above key l2 → item_step rc op (l1 ++ l2) = l1 ++ one key (spec_step rc false op None) ++ l2.
Proof. intros Hb Ha. rewrite step_below by done. f_equal. by apply (step_above []). Qed.

(** Every ordered sequence has a place for the key. *)
Lemma split_at l : ordered l → (∃ l1 e l2, l = l1 ++ e :: l2 ∧ below key l1 ∧ e.1 = key) ∨ (∃ l1 l2, l = l1 ++ l2 ∧ below key l1 ∧ above key l2).
Proof.
  induction 1 as [|x l Hl IH Hx]; [right; exists [], []; by split_and!; [|constructor|]|].
  destruct (key_cases x.1 key) as [Hc|[Hc|Hc]].
  - destruct IH as [(l1 & e & l2 & -> & Hb & He)|(l1 & l2 & -> & Hb & Ha)].
    + left. exists (x :: l1), e, l2. split_and!; [done| |done]. by constructor.
    + right. exists (x :: l1), l2. split_and!; [done| |done]. by constructor.
  - left. exists [], x, l. split_and!; [done|constructor|done].
  - right. exists [], (x :: l). split_and!; [done|constructor|done].
Qed.

Lemma in_step x l : x ∈ item_step rc op l → x.1 = key ∨ x ∈ l.
Proof.
  assert (Hone : ∀ o, x ∈ one key o → x.1 = key) by (intros [p|]; simpl; [by intros ->%list_elem_of_singleton|by intros ?%elem_of_nil]).
  induction l as [|y l IH]; cbn [item_step]; [by intros ?%Hone; left|].
  destruct (bytes_cmp key y.1); rewrite ?elem_of_app, ?elem_of_cons; naive_solver.
Qed.

Lemma step_ordered l : ordered l → ordered (item_step rc op l).
Proof.
  intros Hl. induction Hl as [|x l Hl IH Hx]; cbn [item_step]; [by destruct (spec_step _ _ _ _); repeat constructor|].
  destruct (bytes_cmp key x.1) eqn:E.
  - apply bytes_cmp_eq in E. destruct (spec_step _ _ _ _); simpl; [|done]. constructor; [done|].
    eapply Forall_impl; [done|]. intros y Hy. unfold item_lt in *. simpl. by rewrite E.
  - destruct (spec_step _ _ _ _); simpl; [|by constructor]. constructor; [by constructor|]. constructor; [done|].
    eapply Forall_impl; [done|]. intros y Hy. unfold item_lt in *. simpl. by etrans.
  - apply bytes_cmp_gt in E. constructor; [done|]. apply Forall_forall. intros y [Hy|Hy]%in_step; [unfold item_lt; by rewrite Hy|].
    rewrite Forall_forall in Hx. by apply Hx.
Qed.

Lemma step_bound b l : key_lt key b → below b l → below b (item_step rc op l).
Proof. intros Hk Hb. apply Forall_forall. intros x [->|Hx]%in_step; [done|]. unfold below in Hb. rewrite Forall_forall in Hb. by apply Hb. Qed.

End step.

Implicit Types (op : Change) (ops : list Change).

(** After a change, the key is where it was. *)
Lemma step_again rc op (op' : Change) l1 o l2 : Operation_key op' = Operation_key op → below (Operation_key op) l1 → above (Operation_key op) l2 →
  item_step rc op' (l1 ++ one (Operation_key op) o ++ l2) = l1 ++ one (Operation_key op) (spec_step rc false op' o) ++ l2.
Proof.
  intros Hk Hb Ha. rewrite <-Hk in *. destruct o as [p|]; simpl; [|by apply step_miss]. by rewrite (step_hit _ _ _ (_, p)).
Qed.

Lemma ordered_above key l1 e l2 : ordered (l1 ++ e :: l2) → e.1 = key → above key l2.
Proof.
  intros (_ & H & _)%ordered_app <-. apply StronglySorted_inv in H as [_ H]. destruct l2; [done|]. by apply Forall_cons in H as [? _].
Qed.

(** A later change of the same key that does not depend on the value hides an earlier one. *)
Lemma step_overwrite op (op' : Change) l : match op' with OpReference _ => False | _ => True end → Operation_key op = Operation_key op' →
  ordered l → item_step false op' (item_step false op l) = item_step false op' l.
Proof.
  intros Hop Hk Hl. assert (Hs : ∀ o, spec_step false false op' (spec_step false false op o) = spec_step false false op' o).
  { intros [[n x]|]; destruct op, op'; done. }
  destruct (split_at op l Hl) as [(l1 & e & l2 & -> & Hb & He)|(l1 & l2 & -> & Hb & Ha)].
  - pose proof (ordered_above _ _ _ _ Hl He). rewrite (step_hit _ op), step_again by done. rewrite (step_hit _ op') by (congruence || by rewrite <-Hk).
    by rewrite Hs, Hk.
  - rewrite (step_miss _ op), step_again by done. rewrite (step_miss _ op') by (by rewrite <-Hk). by rewrite Hs, Hk.
Qed.

(** *** Sequences of changes *)
Section steps.
Context (rc : bool).
Lemma steps_cons op ops l : item_steps rc (op :: ops) l = item_steps rc ops (item_step rc op l).
Proof. done. Qed.
Lemma steps_app ops ops' l : item_steps rc (ops ++ ops') l = item_steps rc ops' (item_steps rc ops l).
Proof. apply foldl_app. Qed.

Lemma steps_ordered ops l : ordered l → ordered (item_steps rc ops l).
Proof. revert l. induction ops as [|op ops IH]; intros l Hl; [done|]. by apply IH, step_ordered. Qed.
Lemma steps_bound b ops l : Forall (λ op, key_lt (Operation_key op) b) ops → below b l → below b (item_steps rc ops l).
Proof. intros Hf. revert l. induction Hf as [|op ops Ho _ IH]; intros l Hl; [done|]. by apply IH, step_bound. Qed.

(** Changes of keys that belong to the middle. *)
Lemma steps_inside ops l1 l l2 : Forall (λ op, below (Operation_key op) l1 ∧ above (Operation_key op) l2) ops →
  item_steps rc ops (l1 ++ l ++ l2) = l1 ++ item_steps rc ops l ++ l2.
Proof.
  intros Hf. revert l. induction Hf as [|op ops [Hb Ha] _ IH]; intros l; [done|]. rewrite !steps_cons.
  by rewrite step_below, step_above, IH.
Qed.
End steps.

(** *** Lookup *)
Lemma item_get_app key l1 l2 : below key l1 → item_get key (l1 ++ l2) = item_get key l2.
Proof.
  intros Hb. unfold item_get. rewrite list_to_map_app, lookup_union_r; [done|]. apply not_elem_of_list_to_map_1.
  intros (x & -> & Hx)%list_elem_of_fmap. unfold below in Hb. rewrite Forall_forall in Hb. apply (key_lt_irrefl x.1), Hb, Hx.
Qed.
Lemma item_get_above key l : ordered l → above key l → item_get key l = None.
Proof.
  intros Hl Ha. unfold item_get. apply not_elem_of_list_to_map_1. intros (x & -> & Hx)%list_elem_of_fmap. destruct l as [|y l]; [by apply elem_of_nil in Hx|].
  apply (key_lt_irrefl x.1). apply elem_of_cons in Hx as [->|Hx]; [done|]. apply StronglySorted_inv in Hl as [_ Hl]. rewrite Forall_forall in Hl.
  etrans; [apply Ha|by apply Hl].
Qed.
Lemma item_get_hit l1 e l2 : below e.1 l1 → item_get e.1 (l1 ++ e :: l2) = Some e.2.
Proof. intros Hb. rewrite item_get_app by done. destruct e as [k p]. apply lookup_insert_eq. Qed.

(** A change in the sequence is a change of the value of its key. *)
Lemma item_get_step rc op key l : ordered l →
  item_get key (item_step rc op l) = if bool_decide (key = Operation_key op) then spec_step rc false op (item_get key l) else item_get key l.
Proof.
  assert (Hother : ∀ o l, key ≠ Operation_key op → item_get key (one (Operation_key op) o ++ l) = item_get key l).
  { intros [p|] l' Hk; [|done]. unfold item_get. simpl. by apply lookup_insert_ne. }
  assert (Hcommon : ∀ l1 l2 l2', key ≠ Operation_key op → item_get key l2 = item_get key l2' → item_get key (l1 ++ l2) = item_get key (l1 ++ l2')).
  { intros l1 l2 l2' _ E. unfold item_get in *. rewrite !list_to_map_app, !lookup_union. by rewrite E. }
  intros Hl. destruct (split_at op l Hl) as [(l1 & e & l2 & -> & Hb & He)|(l1 & l2 & -> & Hb & Ha)].
  - pose proof (ordered_above _ _ _ _ Hl He) as Ha. rewrite step_hit by done. case_bool_decide as Hk.
    + subst key. rewrite <-He in *. rewrite item_get_hit by done. rewrite item_get_app by done. destruct (spec_step _ _ _ _); [apply lookup_insert_eq|].
      apply item_get_above; [|done]. apply ordered_app in Hl as (_ & Hl & _). by apply StronglySorted_inv in Hl as [? _].
    + apply Hcommon; [done|]. rewrite Hother by done. destruct e as [k p]. symmetry. apply lookup_insert_ne. simpl in *. by rewrite He.
  - rewrite step_miss by done. case_bool_decide as Hk.
    + subst key. rewrite (item_get_app _ l1 (one _ _ ++ l2)), (item_get_app _ l1 l2) by done. apply ordered_app in Hl as (_ & Hl & _). rewrite (item_get_above _ l2) by done.
      destruct (spec_step _ _ _ _); [apply lookup_insert_eq|]. by apply item_get_above.
    + apply Hcommon; [done|]. by apply Hother.
Qed.

(** What a sequence of changes does to the value of a key: the changes of this key, in order. *)
Definition key_changes (key : bytes) (ops : list Change) : list Change := filter (λ op, Operation_key op = key) ops.
Definition key_steps (rc : bool) (ops : list Change) (o : option (Z * bytes)) : option (Z * bytes) := foldl (λ o op, spec_step rc false op o) o ops.

Lemma item_get_steps rc key ops l : ordered l → item_get key (item_steps rc ops l) = key_steps rc (key_changes key ops) (item_get key l).
Proof.
  revert l. induction ops as [|op ops IH]; intros l Hl; [done|]. rewrite steps_cons, IH by (by apply step_ordered).
  rewrite item_get_step by done. unfold key_changes. rewrite filter_cons. case_bool_decide as Hk.
  - by rewrite decide_True by done.
  - by rewrite decide_False by congruence.
Qed.

(** *** The sort *)
Lemma insert_change_perm c l : insert_change c l ≡ₚ c :: l.
Proof. induction l as [|x l IH]; simpl; [done|]. case_match; [done|]. rewrite IH. by constructor. Qed.
Lemma sort_changes_perm l : sort_changes l ≡ₚ l.
Proof. induction l as [|c l IH]; [done|]. simpl. by rewrite insert_change_perm, IH. Qed.

#[export] Instance change_le_trans : Transitive change_le.
Proof.
  unfold change_le. intros a b c H1 H2 H3. destruct (key_cases (Operation_key b) (Operation_key c)) as [H|[H|H]]; [|by rewrite <-H in H3|done].
  apply H1. by etrans.
Qed.
Lemma insert_change_sorted c l : StronglySorted change_le l → StronglySorted change_le (insert_change c l).
Proof.
  induction 1 as [|x l Hl IH Hx]; simpl; [by repeat constructor|]. destruct (bytes_le (Operation_key c) (Operation_key x)) eqn:E.
  - apply bytes_le_spec in E. constructor; [by constructor|]. constructor; [done|]. eapply Forall_impl; [done|]. intros y Hy. by etrans.
  - constructor; [done|]. rewrite insert_change_perm. constructor; [|done]. unfold change_le. intros Hlt.
    assert (bytes_le (Operation_key c) (Operation_key x) = true) as E'; [|by rewrite E in E']. apply bytes_le_spec. by apply key_lt_asym.
Qed.
Lemma sort_changes_sorted l : StronglySorted change_le (sort_changes l).
Proof. induction l as [|c l IH]; [constructor|]. simpl. by apply insert_change_sorted. Qed.

(** The sort keeps the changes of a key in the order they were made. *)
Lemma insert_change_stable key c l : key_changes key (insert_change c l) = key_changes key (c :: l).
Proof.
  induction l as [|x l IH]; simpl; [done|]. destruct (bytes_le (Operation_key c) (Operation_key x)) eqn:E; [done|].
  unfold key_changes in *. rewrite filter_cons, IH, !filter_cons. destruct (decide (Operation_key x = key)), (decide (Operation_key c = key)); try done.
  exfalso. assert (bytes_le (Operation_key c) (Operation_key x) = true) as E'; [|by rewrite E in E'].
  apply bytes_le_spec. replace (Operation_key x) with (Operation_key c) by congruence. apply key_lt_irrefl.
Qed.
Lemma sort_changes_stable key l : key_changes key (sort_changes l) = key_changes key l.
Proof.
  induction l as [|c l IH]; [done|]. simpl. rewrite insert_change_stable. unfold key_changes in *. by rewrite !filter_cons, IH.
Qed.
