(* ===== verification/BTreeShape.v ===== *)
(** * Nodes of a B-tree as sequences

    A node shows a sequence of separators and a sequence of children, each at the front of its
    array with nothing but empty entries behind it ([shape]); an entry taken out leaves a gap.
    The operations on nodes are described on these sequences. *)

From S2P Require Import Prelude IndexEntry ValueEntry KeyOrder BTreeNode.

(** ** Arrays *)
Lemma arr_get_ok {A} (l : list A) i x : l !! i = Some x → arr_get i l = Ok x.
Proof. unfold arr_get. by intros ->. Qed.
Lemma arr_set_ok {A} (l : list A) i x : (i < length l)%nat → arr_set i x l = Ok (<[i := x]> l).
Proof. unfold arr_set. intros. by rewrite decide_True. Qed.
Lemma arr_replace_ok {A} (l : list A) i x y : l !! i = Some y → arr_replace i x l = Ok (y, <[i := x]> l).
Proof.
  intros H. unfold arr_replace. rewrite (arr_get_ok _ _ _ H). cbn [mbind outcome_bind].
  rewrite arr_set_ok by (by eapply lookup_lt_Some). done.
Qed.

Lemma insert_at {A} (l1 l2 : list A) i x y : length l1 = i → <[i := x]> (l1 ++ y :: l2) = l1 ++ x :: l2.
Proof. intros <-. rewrite <-(Nat.add_0_r (length l1)). by rewrite insert_app_r. Qed.
Lemma lookup_at {A} (l1 l2 : list A) i x : length l1 = i → (l1 ++ x :: l2) !! i = Some x.
Proof. intros <-. by apply list_lookup_middle. Qed.

(** An array seen through [get], split where an entry is. *)
Lemma fmap_split {A B} (f : A → B) l l1 x l2 :
  f <$> l = l1 ++ x :: l2 → ∃ k1 y k2, l = k1 ++ y :: k2 ∧ f <$> k1 = l1 ∧ f y = x ∧ f <$> k2 = l2.
Proof.
  intros (k1 & k' & -> & H & ->)%fmap_app_inv. symmetry in H. apply fmap_cons_inv in H as (y & k2 & -> & -> & ->). eauto 10.
Qed.

Section loops.
Context {A B : Type} {get : A → option B} {mk : option B → A} {order : nat} (Hmk : ∀ o, get (mk o) = o).

Lemma shift_loop_spec b : ∀ fuel i cur l pre rest x,
  get cur = Some x → get <$> l = pre ++ (Some <$> b) ++ None :: rest → length pre = S i → length l = order → (length b < fuel)%nat →
  ∃ l', shift_loop get mk order fuel i cur l = Ok l' ∧ get <$> l' = pre ++ (Some <$> x :: b) ++ rest.
Proof.
  induction b as [|b0 b IH]; intros [|fuel] i cur l pre rest x Hc Hl Hp Ho Hf; simpl in Hf; try lia.
  all: simpl in Hl; destruct (fmap_split _ _ _ _ _ Hl) as (k1 & y & k2 & -> & H1 & Hy & H2);
    assert (length k1 = S i) as Hk by (by rewrite <-Hp, <-H1, length_fmap);
    cbn [shift_loop]; rewrite Hc, bool_decide_false by (rewrite <-Ho, length_app, Hk; simpl; lia);
    rewrite (arr_replace_ok _ _ _ y) by (by apply lookup_at); cbn [mbind outcome_bind]; rewrite insert_at by done.
  - exists (k1 ++ mk (Some x) :: k2). split; [destruct fuel; simpl; by rewrite Hy|].
    rewrite fmap_app, fmap_cons, H1, H2, Hmk. done.
  - edestruct (IH fuel (S i) y (k1 ++ mk (Some x) :: k2) (pre ++ [Some x]) rest b0) as (l' & E & Hv).
    { done. }
    { rewrite fmap_app, fmap_cons, H1, H2, Hmk, <-app_assoc. done. }
    { rewrite length_app, Hp. simpl. lia. }
    { rewrite <-Ho, !length_app. done. }
    { lia. }
    exists l'. split; [done|]. rewrite Hv, <-app_assoc. done.
Qed.

Lemma shift_loop_empty fuel i cur (l : list A) : get cur = None → shift_loop get mk order fuel i cur l = Ok l.
Proof. intros H. destruct fuel; simpl; by rewrite H. Qed.

Lemma unshift_loop_spec b : ∀ fuel i l pre rest,
  get <$> l = pre ++ None :: (Some <$> b) ++ rest → head rest = None ∨ head rest = Some None → length pre = i → length l = order →
  (length b < fuel)%nat →
  ∃ l', unshift_loop get mk order fuel i l = Ok l' ∧ get <$> l' = pre ++ (Some <$> b) ++ None :: rest.
Proof.
  induction b as [|b0 b IH]; intros [|fuel] i l pre rest Hl Hr Hp Ho Hf; simpl in Hf; try lia.
  all: cbn [unshift_loop].
  - simpl in Hl. destruct rest as [|r rest].
    + rewrite bool_decide_false; [eauto|]. rewrite <-Ho, <-(length_fmap get l), Hl, length_app. simpl. lia.
    + assert (r = None) as -> by (destruct Hr; simpl in *; congruence).
      rewrite bool_decide_true by (rewrite <-Ho, <-(length_fmap get l), Hl, length_app; simpl; lia).
      destruct (fmap_split _ _ _ _ _ Hl) as (k1 & y & k2 & -> & H1 & Hy & H2).
      apply fmap_cons_inv in H2 as (z & k3 & Hz & -> & ->).
      assert (length k1 = i) as Hk by (by rewrite <-Hp, <-H1, length_fmap).
      rewrite (cons_middle y), app_assoc, (arr_replace_ok _ _ _ z) by (apply lookup_at; rewrite length_app; simpl; lia).
      cbn [mbind outcome_bind]. rewrite insert_at by (rewrite length_app; simpl; lia). rewrite <-app_assoc. simpl.
      rewrite arr_set_ok by (rewrite length_app; simpl; lia). cbn [mbind outcome_bind].
      rewrite insert_at by done. rewrite <-Hz. eexists. split; [done|].
      rewrite fmap_app, !fmap_cons, !Hmk, H1. done.
  - rewrite bool_decide_true by (rewrite <-Ho, <-(length_fmap get l), Hl, length_app; simpl; lia).
    simpl in Hl. destruct (fmap_split _ _ _ _ _ Hl) as (k1 & y & k2 & -> & H1 & Hy & H2).
    apply fmap_cons_inv in H2 as (z & k3 & Hz & H3 & ->).
    assert (length k1 = i) as Hk by (by rewrite <-Hp, <-H1, length_fmap).
    rewrite (cons_middle y), app_assoc, (arr_replace_ok _ _ _ z) by (apply lookup_at; rewrite length_app; simpl; lia).
    cbn [mbind outcome_bind]. rewrite insert_at by (rewrite length_app; simpl; lia). rewrite <-app_assoc. simpl.
    rewrite arr_set_ok by (rewrite length_app; simpl; lia). cbn [mbind outcome_bind].
    rewrite insert_at by done. rewrite <-Hz.
    edestruct (IH fuel (S i) (k1 ++ mk (Some b0) :: mk None :: k3) (pre ++ [Some b0]) rest) as (l' & E & Hv).
    { rewrite fmap_app, !fmap_cons, !Hmk, H1, <-H3, <-app_assoc. done. }
    { done. }
    { rewrite length_app, Hp. simpl. lia. }
    { rewrite <-Ho, !length_app. done. }
    { lia. }
    exists l'. split; [done|]. rewrite Hv, <-app_assoc. done.
Qed.
End loops.

(** ** The shape of a node *)
Definition seps (n : Node) : list (option SeparatorInner) := sp_sep <$> nd_separators n.
Definition kids (n : Node) : list (option Z) := ch_index <$> nd_children n.

Record shape (n : Node) (so : list (option SeparatorInner)) (co : list (option Z)) : Prop := {
  sh_seps : seps n = so ++ replicate (ORDER - length so) None;
  sh_kids : kids n = co ++ replicate (ORDER_CHILD - length co) None;
  sh_seps_len : (length so ≤ ORDER)%nat;
  sh_kids_len : (length co ≤ ORDER_CHILD)%nat;
}.
#[global] Arguments sh_seps {n so co}.
#[global] Arguments sh_kids {n so co}.
#[global] Arguments sh_seps_len {n so co}.
#[global] Arguments sh_kids_len {n so co}.

Lemma pad_none {A} (l : list (option A)) N :
  (length l < N)%nat → l ++ replicate (N - length l) None = (l ++ [None]) ++ replicate (N - length (l ++ [None])) None.
Proof.
  intros H. rewrite <-app_assoc. f_equal. rewrite length_app. simpl.
  replace (N - length l)%nat with (S (N - (length l + 1))) by lia. done.
Qed.

Lemma pad_head {A} (l : list (option A)) N :
  head (replicate (N - length l) (None (A := A))) = None ∨ head (replicate (N - length l) (None (A := A))) = Some None.
Proof. destruct (N - length l)%nat; simpl; auto. Qed.

Section shape.
Context {n : Node} {so : list (option SeparatorInner)} {co : list (option Z)}.

Lemma shape_arrays : shape n so co → length (nd_separators n) = ORDER ∧ length (nd_children n) = ORDER_CHILD.
Proof.
  intros [H1 H2 H3 H4]. apply (f_equal length) in H1, H2. unfold seps, kids in *.
  rewrite length_fmap, length_app, length_replicate in H1. rewrite length_fmap, length_app, length_replicate in H2. lia.
Qed.

(** An empty entry at the end can be seen as part of the padding. *)
Lemma shape_sep_none : (length so < ORDER)%nat → shape n so co ↔ shape n (so ++ [None]) co.
Proof.
  intros Hl. split; intros [H1 H2 H3 H4]; split; try done; try lia.
  - by rewrite <-pad_none.
  - rewrite length_app. simpl. lia.
  - by rewrite pad_none.
Qed.
Lemma shape_kid_none : (length co < ORDER_CHILD)%nat → shape n so co ↔ shape n so (co ++ [None]).
Proof.
  intros Hl. split; intros [H1 H2 H3 H4]; split; try done; try lia.
  - by rewrite <-pad_none.
  - rewrite length_app. simpl. lia.
  - by rewrite pad_none.
Qed.

Lemma with_seps_shape l so' :
  shape n so co → sp_sep <$> l = so' ++ replicate (ORDER - length so') None → (length so' ≤ ORDER)%nat → shape (with_seps l n) so' co.
Proof. intros [H1 H2 H3 H4] Hl Hle. by split. Qed.
Lemma with_children_shape l co' :
  shape n so co → ch_index <$> l = co' ++ replicate (ORDER_CHILD - length co') None → (length co' ≤ ORDER_CHILD)%nat →
  shape (with_children l n) so co'.
Proof. intros [H1 H2 H3 H4] Hl Hle. by split. Qed.
End shape.

(** *** Entries *)
Section entries.
Context {n : Node} {a b : list (option SeparatorInner)} {c d : list (option Z)} {o : option SeparatorInner} {oc : option Z}
  {co : list (option Z)} {so : list (option SeparatorInner)} {i : nat}.

Lemma sep_at : shape n (a ++ o :: b) co → length a = i → ∃ s, nd_separators n !! i = Some s ∧ sp_sep s = o.
Proof.
  intros Hs Ha. pose proof (sh_seps Hs) as H. unfold seps in H. rewrite <-app_assoc in H. simpl in H.
  assert (E : (sp_sep <$> nd_separators n) !! i = Some o) by (rewrite H; by apply lookup_at).
  rewrite list_lookup_fmap in E. destruct (nd_separators n !! i) as [s|]; [|done]. simpl in E. exists s. split; congruence.
Qed.
Lemma kid_at : shape n so (c ++ oc :: d) → length c = i → ∃ x, nd_children n !! i = Some x ∧ ch_index x = oc.
Proof.
  intros Hs Hc. pose proof (sh_kids Hs) as H. unfold kids in H. rewrite <-app_assoc in H. simpl in H.
  assert (E : (ch_index <$> nd_children n) !! i = Some oc) by (rewrite H; by apply lookup_at).
  rewrite list_lookup_fmap in E. destruct (nd_children n !! i) as [s|]; [|done]. simpl in E. exists s. split; congruence.
Qed.

Lemma has_separator_spec : shape n (a ++ o :: b) co → length a = i → has_separator i n = Ok (bool_decide (is_Some o)).
Proof.
  intros Hs Ha. destruct (sep_at Hs Ha) as (s & E & <-). unfold has_separator. rewrite (arr_get_ok _ _ _ E). simpl.
  by destruct (sp_sep s).
Qed.
Lemma separator_address_spec : shape n (a ++ o :: b) co → length a = i → separator_address i n = Ok (si_value <$> o).
Proof.
  intros Hs Ha. destruct (sep_at Hs Ha) as (s & E & <-). unfold separator_address. by rewrite (arr_get_ok _ _ _ E).
Qed.

Lemma set_sep_shape s : shape n (a ++ o :: b) co → length a = i →
  shape (with_seps (<[i := s]> (nd_separators n)) n) (a ++ sp_sep s :: b) co.
Proof.
  intros Hs Ha. pose proof (sh_seps_len Hs) as Hl. rewrite length_app in Hl. simpl in Hl.
  apply (with_seps_shape _ _ Hs); [|rewrite length_app; simpl; lia].
  rewrite list_fmap_insert. fold (seps n). rewrite (sh_seps Hs), <-!app_assoc. simpl. rewrite insert_at by done.
  by rewrite !length_app.
Qed.
Lemma set_kid_shape x : shape n so (c ++ oc :: d) → length c = i →
  shape (with_children (<[i := x]> (nd_children n)) n) so (c ++ ch_index x :: d).
Proof.
  intros Hs Ha. pose proof (sh_kids_len Hs) as Hl. rewrite length_app in Hl. simpl in Hl.
  apply (with_children_shape _ _ Hs); [|rewrite length_app; simpl; lia].
  rewrite list_fmap_insert. fold (kids n). rewrite (sh_kids Hs), <-!app_assoc. simpl. rewrite insert_at by done.
  by rewrite !length_app.
Qed.

Lemma set_separator_spec s : shape n (a ++ o :: b) co → length a = i →
  ∃ n', set_separator i s n = Ok n' ∧ shape n' (a ++ sp_sep s :: b) co ∧ nd_changed n' = true.
Proof.
  intros Hs Ha. unfold set_separator. destruct (sep_at Hs Ha) as (s0 & E & _).
  rewrite arr_set_ok by (by eapply lookup_lt_Some). cbn [mbind outcome_bind]. eexists. split; [done|]. split; [|done].
  by apply (set_sep_shape (mkSep true (sp_sep s))).
Qed.
Lemma remove_separator_spec : shape n (a ++ o :: b) co → length a = i →
  ∃ s n', remove_separator i n = Ok (s, n') ∧ sp_sep s = o ∧ shape n' (a ++ None :: b) co ∧ nd_changed n' = true.
Proof.
  intros Hs Ha. unfold remove_separator. destruct (sep_at Hs Ha) as (s0 & E & Ho).
  rewrite (arr_replace_ok _ _ _ _ E). cbn [mbind outcome_bind]. eexists _, _. split; [done|]. split; [done|]. split; [|done].
  by apply (set_sep_shape (mkSep true None)).
Qed.
Lemma set_child_spec x : shape n so (c ++ oc :: d) → length c = i →
  ∃ n', set_child i x n = Ok n' ∧ shape n' so (c ++ ch_index x :: d) ∧ nd_changed n' = true.
Proof.
  intros Hs Ha. unfold set_child. destruct (kid_at Hs Ha) as (s0 & E & _).
  rewrite arr_set_ok by (by eapply lookup_lt_Some). cbn [mbind outcome_bind]. eexists. split; [done|]. split; [|done].
  by apply (set_kid_shape (mkChild true (ch_index x))).
Qed.
Lemma remove_child_spec : shape n so (c ++ oc :: d) → length c = i →
  ∃ x n', remove_child i n = Ok (x, n') ∧ ch_index x = oc ∧ shape n' so (c ++ None :: d) ∧ nd_changed n' = true.
Proof.
  intros Hs Ha. unfold remove_child. destruct (kid_at Hs Ha) as (s0 & E & Ho).
  rewrite (arr_replace_ok _ _ _ _ E). cbn [mbind outcome_bind]. eexists _, _. split; [done|]. split; [done|]. split; [|done].
  by apply (set_kid_shape (mkChild true None)).
Qed.
End entries.

(** *** Moving entries *)
Lemma pad_lt {A} (l : list (option A)) N : (length l < N)%nat → replicate (N - length l) None = None :: replicate (N - S (length l)) (None (A := A)).
Proof. intros. by replace (N - length l)%nat with (S (N - S (length l))) by lia. Qed.

(** A gap opens before [b] in an array that is not full: the first entry of [b] has been taken
    out and is carried to the right. *)
Lemma open_gap {A B} {get : A → option B} {mk : option B → A} {order : nat} (Hmk : ∀ o, get (mk o) = o) (l : list A) pre b cur :
  (length pre + length b < order)%nat → length l = order → get cur = head b →
  get <$> l = (pre ++ None :: (Some <$> tail b)) ++ replicate (order - length (pre ++ None :: (Some <$> tail b))) None →
  ∃ l', shift_loop get mk order order (length pre) cur l = Ok l' ∧
    get <$> l' = (pre ++ None :: (Some <$> b)) ++ replicate (order - length (pre ++ None :: (Some <$> b))) None.
Proof.
  intros Hlt Hl Hc Hv. destruct b as [|x b].
  { exists l. by rewrite shift_loop_empty. }
  rewrite fmap_cons. cbn [tail head length] in Hv, Hc, Hlt.
  assert (Hn : length (pre ++ None :: (Some <$> b)) = (length pre + S (length b))%nat) by (rewrite length_app; simpl; by rewrite length_fmap).
  rewrite pad_lt in Hv by (rewrite Hn; lia).
  destruct (shift_loop_spec (order := order) Hmk b order (length pre) cur l (pre ++ [None]) (replicate (order - S (length (pre ++ None :: (Some <$> b)))) None) x)
    as (l' & E & Hv'); try done.
  - by rewrite Hv, <-!app_assoc.
  - rewrite length_app. simpl. lia.
  - lia.
  - exists l'. split; [done|]. rewrite Hv', <-!app_assoc.
    replace (length (pre ++ None :: Some x :: (Some <$> b))) with (S (length (pre ++ None :: (Some <$> b)))); [done|].
    rewrite !length_app. simpl. lia.
Qed.

Lemma close_gap_loop {A B} {get : A → option B} {mk : option B → A} {order : nat} (Hmk : ∀ o, get (mk o) = o) (l : list A) pre b :
  length l = order → (length pre + S (length b) ≤ order)%nat →
  get <$> l = (pre ++ None :: (Some <$> b)) ++ replicate (order - length (pre ++ None :: (Some <$> b))) None →
  ∃ l', unshift_loop get mk order order (length pre) l = Ok l' ∧
    get <$> l' = (pre ++ (Some <$> b)) ++ replicate (order - length (pre ++ (Some <$> b))) None.
Proof.
  intros Hl Hlt Hv. rewrite <-app_assoc in Hv. simpl in Hv.
  destruct (unshift_loop_spec (order := order) Hmk b order (length pre) l pre _ Hv) as (l' & E & Hv'); try done; [apply pad_head|lia|].
  exists l'. split; [done|]. rewrite Hv', <-app_assoc. do 2 f_equal. rewrite !length_app. simpl. rewrite length_fmap.
  replace (order - (length pre + length b))%nat with (S (order - (length pre + S (length b)))) by lia. done.
Qed.

(** [shift_from] takes out an entry, if there is one at its place, and opens a gap there. *)
Lemma take_out_sep n so (b : list SeparatorInner) co :
  shape n (so ++ (Some <$> b)) co → (length so + length b < ORDER)%nat →
  ∃ s n', remove_separator (length so) n = Ok (s, n') ∧ sp_sep s = head b ∧ shape n' (so ++ None :: (Some <$> tail b)) co.
Proof.
  intros Hs Hlt. destruct b as [|x b]; simpl in *.
  - rewrite app_nil_r in Hs. apply shape_sep_none in Hs; [|lia].
    destruct (remove_separator_spec Hs eq_refl) as (s & n' & E & Hx & Hs' & _). eauto 10.
  - destruct (remove_separator_spec Hs eq_refl) as (s & n' & E & Hx & Hs' & _). eauto 10.
Qed.
Lemma take_out_kid n so c (d : list Z) :
  shape n so (c ++ (Some <$> d)) → (length c + length d < ORDER_CHILD)%nat →
  ∃ x n', remove_child (length c) n = Ok (x, n') ∧ ch_index x = head d ∧ shape n' so (c ++ None :: (Some <$> tail d)).
Proof.
  intros Hs Hlt. destruct d as [|x d]; simpl in *.
  - rewrite app_nil_r in Hs. apply shape_kid_none in Hs; [|lia].
    destruct (remove_child_spec Hs eq_refl) as (s & n' & E & Hx & Hs' & _). eauto 10.
  - destruct (remove_child_spec Hs eq_refl) as (s & n' & E & Hx & Hs' & _). eauto 10.
Qed.

Lemma shift_from_spec n so (b : list SeparatorInner) co i :
  shape n (so ++ (Some <$> b)) co → (length so + length b < ORDER)%nat → length so = i →
  (∀ wl, ∃ n', shift_from i false wl n = Ok n' ∧ nd_changed n' = true ∧ shape n' (so ++ None :: (Some <$> b)) co) ∧
  (∀ (wl : bool) c (d : list Z), co = c ++ (Some <$> d) → (length c + length d < ORDER_CHILD)%nat →
    length c = (if wl then i else S i) →
    ∃ n', shift_from i true wl n = Ok n' ∧ nd_changed n' = true ∧ shape n' (so ++ None :: (Some <$> b)) (c ++ None :: (Some <$> d))).
Proof.
  intros Hs Hb <-. unfold shift_from. destruct (take_out_sep n so b _ Hs Hb) as (s & n1 & -> & Hx & H1). cbn [mbind outcome_bind].
  destruct (open_gap (order := ORDER) (get := sp_sep) (mk := mkSep true) (λ _, eq_refl) (nd_separators n1) so b s)
    as (l1 & -> & Hv1); [done|apply (shape_arrays H1)|done|apply (sh_seps H1)|]. cbn [mbind outcome_bind].
  assert (H2 : shape (with_seps l1 n1) (so ++ None :: (Some <$> b)) co).
  { apply (with_seps_shape _ _ H1 Hv1). rewrite length_app. simpl. rewrite length_fmap. lia. }
  split; [eauto|]. intros wl c d -> Hd Hc. rewrite <-Hc.
  destruct (take_out_kid _ _ c d H2 Hd) as (x & n3 & -> & Hxc & H3). cbn [mbind outcome_bind].
  destruct (open_gap (order := ORDER_CHILD) (get := ch_index) (mk := mkChild true) (λ _, eq_refl) (nd_children n3) c d x)
    as (l3 & -> & Hv3); [done|apply (shape_arrays H3)|done|apply (sh_kids H3)|]. cbn [mbind outcome_bind].
  eexists. split; [done|]. split; [done|]. apply (with_children_shape _ _ H3 Hv3). rewrite length_app. simpl. rewrite length_fmap. lia.
Qed.

(** [remove_from] closes the gaps. *)
Lemma remove_from_spec n so (b : list SeparatorInner) co i :
  shape n (so ++ None :: (Some <$> b)) co → length so = i →
  (∀ wl, ∃ n', remove_from i false wl n = Ok n' ∧ nd_changed n' = true ∧ shape n' (so ++ (Some <$> b)) co) ∧
  (∀ (wl : bool) c (d : list Z), co = c ++ None :: (Some <$> d) → length c = (if wl then i else S i) →
    ∃ n', remove_from i true wl n = Ok n' ∧ nd_changed n' = true ∧ shape n' (so ++ (Some <$> b)) (c ++ (Some <$> d))).
Proof.
  intros Hs <-. unfold remove_from. pose proof (sh_seps_len Hs) as Hb. rewrite length_app in Hb. simpl in Hb. rewrite length_fmap in Hb.
  destruct (close_gap_loop (order := ORDER) (get := sp_sep) (mk := mkSep true) (λ _, eq_refl) (nd_separators n) so b)
    as (l1 & -> & Hv1); [apply (shape_arrays Hs)|done|apply (sh_seps Hs)|]. cbn [mbind outcome_bind].
  assert (H2 : shape (with_seps l1 n) (so ++ (Some <$> b)) co).
  { apply (with_seps_shape _ _ Hs Hv1). rewrite length_app, length_fmap. lia. }
  split; [eauto|]. intros wl c d -> Hc. rewrite <-Hc.
  pose proof (sh_kids_len Hs) as Hd. rewrite length_app in Hd. simpl in Hd. rewrite length_fmap in Hd.
  destruct (close_gap_loop (order := ORDER_CHILD) (get := ch_index) (mk := mkChild true) (λ _, eq_refl) (nd_children (with_seps l1 n)) c d)
    as (l3 & -> & Hv3); [apply (shape_arrays H2)|done|apply (sh_kids H2)|]. cbn [mbind outcome_bind].
  eexists. split; [done|]. split; [done|]. apply (with_children_shape _ _ H2 Hv3). rewrite length_app, length_fmap. lia.
Qed.

(** *** Reading a node *)
Section read.
Context {n : Node} {ks : list SeparatorInner} {co : list (option Z)} (Hs : shape n (Some <$> ks) co).

Lemma number_separator_spec : number_separator n = length ks.
Proof.
  unfold number_separator. assert (H : ∀ l ks k, sp_sep <$> l = (Some <$> ks) ++ replicate k None → count_separators l = length ks).
  { clear. intros l ks k. revert l. induction ks as [|x ks IH]; intros [|s l] H; try done; simpl in *.
    - destruct k; [done|]. injection H as -> _. done.
    - injection H as -> H. by rewrite (IH l H). }
  eapply H, (sh_seps Hs).
Qed.

Lemma sep_lookup i x : ks !! i = Some x → ∃ a b, ks = a ++ x :: b ∧ length a = i ∧ shape n ((Some <$> a) ++ Some x :: (Some <$> b)) co.
Proof.
  intros H. destruct (list_elem_of_split_length _ _ _ H) as (a & b & E & ->). exists a, b. split; [done|]. split; [done|].
  rewrite <-fmap_cons, <-fmap_app, <-E. done.
Qed.

Lemma has_separator_full i : (i < ORDER)%nat → has_separator i n = Ok (bool_decide (i < length ks)%nat).
Proof.
  intros Hi. destruct (decide (i < length ks)%nat) as [H|H].
  - destruct (lookup_lt_is_Some_2 ks i H) as [x Hx]. destruct (sep_lookup i x Hx) as (a & b & _ & <- & Hs').
    rewrite (has_separator_spec Hs') by (by rewrite length_fmap). by rewrite !bool_decide_true by (done || eauto).
  - unfold has_separator. pose proof (sh_seps Hs) as Hv. unfold seps in Hv.
    assert (E : (sp_sep <$> nd_separators n) !! i = Some None).
    { rewrite Hv, lookup_app_r by (rewrite length_fmap; lia). apply lookup_replicate. rewrite length_fmap. split; [done|]. lia. }
    rewrite list_lookup_fmap in E. destruct (nd_separators n !! i) as [s|] eqn:Es; [|done]. simpl in E.
    rewrite (arr_get_ok _ _ _ Es). simpl. injection E as ->. by rewrite bool_decide_false.
Qed.

Lemma need_rebalance_spec : need_rebalance n = Ok (bool_decide (length ks < 4)%nat).
Proof.
  unfold need_rebalance. rewrite has_separator_full by (compute; lia). cbn [mbind outcome_bind]. f_equal.
  change (ORDER / 2 - 1)%nat with 3%nat. rewrite <-bool_decide_not. apply bool_decide_ext. lia.
Qed.

Lemma last_separator_index_spec : last_separator_index n = if bool_decide (ks = []) then None else Some (pred (length ks)).
Proof.
  unfold last_separator_index. set (f := λ '(i, s) rest, _).
  assert (H : ∀ l ks k (i : nat), sp_sep <$> l = (Some <$> ks) ++ replicate k None →
    foldr f None (imap (λ j s, (i + j, s))%nat l) = if bool_decide (ks = []) then None else Some (i + pred (length ks))%nat).
  { clear. intros l. induction l as [|s l IH]; intros ks k i H; [by destruct ks|].
    rewrite imap_cons. simpl foldr. rewrite Nat.add_0_r.
    rewrite (imap_ext _ (λ j s, ((S i + j)%nat, s))) by (intros; simpl; f_equal; lia).
    destruct ks as [|x ks].
    - destruct k; [done|]. injection H as Hs H. by rewrite (IH [] k (S i) H), Hs.
    - injection H as Hs H. rewrite (IH ks k (S i) H). destruct ks; simpl; [by rewrite Hs, Nat.add_0_r|]. do 2 f_equal. lia. }
  change (imap pair (nd_separators n)) with (imap (λ j s, (0 + j, s))%nat (nd_separators n)). by eapply H, (sh_seps Hs).
Qed.

(** [position] finds where a key belongs among the separators. *)
Lemma position_spec key :
  ∃ a b, ks = a ++ b ∧ position key n = (bool_decide (si_key <$> head b = Some key), length a) ∧
    Forall (λ x, key_lt (si_key x) key) a ∧ (∀ x, head b = Some x → si_key x = key ∨ key_lt key (si_key x)).
Proof.
  unfold position.
  assert (H : ∀ l ks k (i : nat), sp_sep <$> l = (Some <$> ks) ++ replicate k None →
    ∃ a b, ks = a ++ b ∧ position_from i key l = (bool_decide (si_key <$> head b = Some key), i + length a)%nat ∧
    Forall (λ x, key_lt (si_key x) key) a ∧ (∀ x, head b = Some x → si_key x = key ∨ key_lt key (si_key x))).
  { clear. intros l ks k. revert ks. induction l as [|s l IH]; intros [|x ks] i H; try done.
    - exists [], []. simpl. rewrite Nat.add_0_r. done.
    - destruct k; [done|]. injection H as Hs H. exists [], []. simpl. by rewrite Hs, Nat.add_0_r.
    - injection H as Hs H. simpl. rewrite Hs. destruct (bytes_cmp key (si_key x)) eqn:Ec.
      + apply bytes_cmp_eq in Ec as ->. exists [], (x :: ks). simpl. rewrite bool_decide_true, Nat.add_0_r by done.
        split_and!; try done. intros y [= <-]. by left.
      + exists [], (x :: ks). simpl. rewrite Nat.add_0_r. split_and!; try done.
        * rewrite bool_decide_false; [done|]. intros [= E]. rewrite E in Ec. by rewrite (proj2 (bytes_cmp_eq _ _) eq_refl) in Ec.
        * intros y [= <-]. by right.
      + destruct (IH ks (S i) H) as (a & b & -> & E & Ha & Hb). exists (x :: a), b. split_and!; try done.
        * rewrite E. f_equal. simpl. lia.
        * constructor; [|done]. by apply bytes_cmp_gt. }
  eapply H, (sh_seps Hs).
Qed.
End read.

(** *** Splitting a full node *)
(** A list of known length is the list of its entries. *)
Ltac explode_lists :=
  repeat match goal with
         | H : length ?l = _ |- _ => is_var l; destruct l; [try discriminate H|try discriminate H; injection H as H]
         end.
Lemma full_node n (ks : list SeparatorInner) co :
  shape n (Some <$> ks) co → length ks = 8%nat → length co = 9%nat → ∃ ms mc, length ms = 8%nat ∧ length mc = 9%nat ∧
  nd_separators n = zip_with mkSep ms (Some <$> ks) ∧ nd_children n = zip_with mkChild mc co.
Proof.
  intros Hs Hk Hc. destruct (shape_arrays Hs) as [H1 H2]. exists (sp_modified <$> nd_separators n), (ch_moved <$> nd_children n).
  rewrite !length_fmap. split_and!; try done.
  - pose proof (sh_seps Hs) as E. rewrite length_fmap, Hk in E. simpl in E. rewrite app_nil_r in E. rewrite <-E. unfold seps.
    rewrite zip_with_fmap_l, zip_with_fmap_r. rewrite zip_with_diag. rewrite <-(list_fmap_id (nd_separators n)) at 1.
    apply list_fmap_ext. intros i [] _. done.
  - pose proof (sh_kids Hs) as E. rewrite Hc in E. simpl in E. rewrite app_nil_r in E. rewrite <-E. unfold kids.
    rewrite zip_with_fmap_l, zip_with_fmap_r, zip_with_diag. rewrite <-(list_fmap_id (nd_children n)) at 1.
    apply list_fmap_ext. intros i [] _. done.
Qed.

Ltac split_by_computation :=
  lazymatch goal with
  | Hs : shape ?n (Some <$> ?ks) ?co, Hk : length ?ks = _, Hc : length ?co = _ |- _ =>
      destruct (full_node _ _ _ Hs Hk Hc) as (? & ? & ? & ? & ? & ?); clear Hs; destruct n as [? ? ch];
      cbn [nd_separators nd_children] in *; subst; explode_lists;
      eexists _, _; split; [vm_compute; reflexivity|]; split; [by destruct ch|]; split; [done|];
      split; split; vm_compute; (reflexivity || lia)
  end.

Lemma split_middle n (ks : list SeparatorInner) co (hc : bool) :
  shape n (Some <$> ks) co → length ks = 8%nat → length co = 9%nat → (hc = false → co = replicate 9 None) →
  ∃ n' r, Node_split 4 false None None hc n = Ok (r, n') ∧ nd_changed n' = true ∧ nd_changed r = true ∧
    shape n' (Some <$> take 4 ks) (take 4 co) ∧ shape r (Some <$> drop 4 ks) (drop 4 co).
Proof. intros Hs Hk Hc Hf. destruct hc; [clear Hf|rewrite (Hf eq_refl) in *; clear Hf]; split_by_computation. Qed.

Lemma split_skip n (ks : list SeparatorInner) co (hc : bool) :
  shape n (Some <$> ks) co → length ks = 8%nat → length co = 9%nat → (hc = false → co = replicate 9 None) →
  ∃ n' r, Node_split 4 true None None hc n = Ok (r, n') ∧ nd_changed n' = true ∧ nd_changed r = true ∧
    shape n' (Some <$> take 4 ks) (take 5 co) ∧ shape r (Some <$> drop 4 ks) (None :: drop 5 co).
Proof. intros Hs Hk Hc Hf. destruct hc; [clear Hf|rewrite (Hf eq_refl) in *; clear Hf]; split_by_computation. Qed.

Lemma split_insert n (ks : list SeparatorInner) co (hc : bool) i s k c :
  shape n (Some <$> ks) co → length ks = 8%nat → length co = 9%nat → (5 ≤ i ≤ 8)%nat → sp_sep s = Some k → (hc = false → co = replicate 9 None ∧ ch_index c = None) →
  ∃ n' r, Node_split 5 false (Some (i, s)) (if hc then Some (i, c) else None) hc n = Ok (r, n') ∧
    nd_changed n' = true ∧ nd_changed r = true ∧ shape n' (Some <$> take 5 ks) (take 5 co) ∧
    shape r (Some <$> take (i - 5) (drop 5 ks) ++ k :: drop i ks) (take (i - 4) (drop 5 co) ++ ch_index c :: drop (S i) co).
Proof.
  intros Hs Hk Hc Hi Hsk Hf. destruct s as [m o], c as [mv oc]. cbn [sp_sep ch_index] in *. subst o.
  assert (i = 5 ∨ i = 6 ∨ i = 7 ∨ i = 8)%nat as [-> | [-> | [-> | ->]]] by lia.
  all: destruct hc; [clear Hf|destruct (Hf eq_refl) as [E0 ->]; clear Hf; rewrite E0 in *]; split_by_computation.
Qed.

(** ** Inserting into a node

    The children of a node are all there or, in a leaf, all missing. *)
Definition uniform (hc : bool) (cs : list (option Z)) : Prop := if hc then ∃ ds, cs = Some <$> ds else cs = replicate (length cs) None.

Lemma uniform_app hc c1 c2 : uniform hc (c1 ++ c2) ↔ uniform hc c1 ∧ uniform hc c2.
Proof.
  destruct hc; simpl.
  - split; [intros [ds H]; symmetry in H; apply fmap_app_inv in H as (d1 & d2 & -> & -> & ->); eauto|].
    intros [[d1 ->] [d2 ->]]. exists (d1 ++ d2). by rewrite fmap_app.
  - rewrite length_app, replicate_add. split; [|by intros [<- <-]]. intros H. apply app_inj_1 in H; [done|]. by rewrite length_replicate.
Qed.
Lemma uniform_cons hc c cs : uniform hc (c :: cs) ↔ uniform hc [c] ∧ uniform hc cs.
Proof. apply (uniform_app hc [c] cs). Qed.

(** In a leaf the number of children seen does not matter. *)
Lemma shape_leaf n so m m' : shape n so (replicate m None) → (m' ≤ ORDER_CHILD)%nat → shape n so (replicate m' None).
Proof.
  intros [H1 H2 H3 H4] Hm. rewrite length_replicate in *. split; try done; rewrite length_replicate; [|done].
  rewrite H2, <-!replicate_add. f_equal. lia.
Qed.

Section insert.
Context {n : Node} {k1 k2 : list SeparatorInner} {c1 c2 : list (option Z)} {i : nat} {hc : bool}.
Context (Hs : shape n (Some <$> k1 ++ k2) (c1 ++ c2)) (Hk : length k1 = i) (Hc1 : length c1 = S i) (Hc2 : length c2 = length k2).
Context (Hu : uniform hc (c1 ++ c2)).
Context {s : Separator} {k : SeparatorInner} (Hsk : sp_sep s = Some k) {ch : Child} (Huc : uniform hc [ch_index ch]).

(** There is room. *)
Lemma insert_room : (length k1 + length k2 < ORDER)%nat →
  ∃ n1 n2 n3, shift_from i hc false n = Ok n1 ∧ set_separator i s n1 = Ok n2 ∧
    (if hc then set_child (S i) ch n2 else Ok n2) = Ok n3 ∧
    shape n3 (Some <$> k1 ++ k :: k2) (c1 ++ ch_index ch :: c2) ∧ nd_changed n3 = true.
Proof.
  intros Hlt. rewrite fmap_app in Hs. pose proof (sh_kids_len Hs) as Hkl. rewrite length_app in Hkl.
  destruct (shift_from_spec n (Some <$> k1) k2 (c1 ++ c2) i Hs) as [Hleaf Hinner]; [by rewrite length_fmap|by rewrite length_fmap|].
  destruct hc; simpl in Hu, Huc.
  - apply (uniform_app true) in Hu as [[d1 E1] [d2 E2]].
    destruct (Hinner false c1 d2) as (n1 & E & _ & H1); [by rewrite E2| |done|].
    { rewrite <-(length_fmap Some d2), <-E2. unfold ORDER, ORDER_CHILD in *. lia. }
    destruct (set_separator_spec (i := i) s H1) as (n2 & En2 & H2 & _); [by rewrite length_fmap|].
    destruct (set_child_spec (i := S i) ch H2) as (n3 & En3 & H3 & Hch); [done|]. exists n1, n2, n3. split_and!; try done.
    by rewrite Hsk, <-fmap_cons, <-fmap_app, <-E2 in H3.
  - destruct (Hleaf false) as (n1 & E & _ & H1).
    destruct (set_separator_spec (i := i) s H1) as (n2 & En2 & H2 & Hch); [by rewrite length_fmap|]. exists n1, n2, n2. split_and!; try done.
    rewrite Hsk, <-fmap_cons, <-fmap_app in H2. rewrite Hu in H2. apply (uniform_app false) in Hu as [U1 U2]. simpl in U1, U2.
    injection Huc as ->. rewrite U1, U2. change (None :: replicate (length c2) None) with (replicate (S (length c2)) (None (A := Z))).
    rewrite <-replicate_add. eapply shape_leaf; [done|]. unfold ORDER, ORDER_CHILD in *. lia.
Qed.

End insert.

Section insert_full.
Context {n : Node} {k1 k2 : list SeparatorInner} {c1 c2 : list (option Z)} {i : nat} {hc : bool}.
Context (Hs : shape n (Some <$> k1 ++ k2) (c1 ++ c2)) (Hk : length k1 = i) (Hc1 : length c1 = S i) (Hc2 : length c2 = length k2).
Context (Hu : uniform hc (c1 ++ c2)).
Context {s : Separator} {k : SeparatorInner} (Hsk : sp_sep s = Some k) {ch : Child} (Huc : uniform hc [ch_index ch]).

(** The node is full: it is split around its middle, or around the new separator. *)
Context (Hfull : (length k1 + length k2 = ORDER)%nat).

Lemma leaf_kids : hc = false → c1 ++ c2 = replicate 9 None.
Proof. intros ->. simpl in Hu. rewrite Hu, length_app. f_equal. unfold ORDER in *. lia. Qed.

Lemma full_lengths : length (k1 ++ k2) = 8%nat ∧ length (c1 ++ c2) = 9%nat.
Proof. rewrite !length_app. unfold ORDER in *. lia. Qed.

Lemma insert_full_eq : i = 4%nat →
  ∃ n' r r', Node_split 4 true None None hc n = Ok (r, n') ∧ (if hc then set_child 0 ch r else Ok r) = Ok r' ∧
    shape n' (Some <$> k1) c1 ∧ shape r' (Some <$> k2) (ch_index ch :: c2) ∧ nd_changed n' = true ∧ nd_changed r' = true.
Proof.
  intros Hi. destruct full_lengths as [L1 L2]. destruct (split_skip n (k1 ++ k2) (c1 ++ c2) hc Hs L1 L2 leaf_kids) as (n' & r & E & Hn & Hr & H1 & H2).
  rewrite (take_app_length' k1), (take_app_length' c1) in H1 by lia. rewrite (drop_app_length' k1), (drop_app_length' c1) in H2 by lia.
  destruct hc.
  - destruct (set_child_spec (c := []) (i := 0) ch H2 eq_refl) as (r' & E' & H3 & Hr'). exists n', r, r'. done.
  - exists n', r, r. simpl in Huc. injection Huc as ->. done.
Qed.

Lemma insert_full_lt k2a x k2b c2a c2b :
  k2 = k2a ++ x :: k2b → c2 = c2a ++ c2b → (length k1 + length k2a = 3)%nat → length c2a = length k2a →
  ∃ n1 r sep n2 n3 n4 n5, Node_split 4 false None None hc n = Ok (r, n1) ∧ remove_separator 3 n1 = Ok (sep, n2) ∧ sp_sep sep = Some x ∧
    shift_from i hc false n2 = Ok n3 ∧ set_separator i s n3 = Ok n4 ∧ (if hc then set_child (S i) ch n4 else Ok n4) = Ok n5 ∧
    shape n5 (Some <$> k1 ++ k :: k2a) (c1 ++ ch_index ch :: c2a) ∧ shape r (Some <$> k2b) c2b ∧ nd_changed n5 = true ∧ nd_changed r = true.
Proof.
  intros E2 Ec H3 Hca. destruct full_lengths as [L1 L2].
  destruct (split_middle n (k1 ++ k2) (c1 ++ c2) hc Hs L1 L2 leaf_kids) as (n1 & r & E & Hn & Hr & H1 & H2).
  assert (Hu1 : uniform hc (c1 ++ c2a)) by (rewrite Ec, (app_assoc c1) in Hu; by apply uniform_app in Hu as [? _]). rewrite E2, Ec in H1, H2.
  assert (Ek : k1 ++ k2a ++ x :: k2b = (k1 ++ k2a ++ [x]) ++ k2b) by (by rewrite <-!app_assoc).
  rewrite Ek, (take_app_length' (k1 ++ _)) in H1 by (rewrite !length_app; simpl; lia).
  rewrite Ek, (drop_app_length' (k1 ++ _)) in H2 by (rewrite !length_app; simpl; lia).
  rewrite !(app_assoc c1), (take_app_length' (c1 ++ _)) in H1 by (rewrite length_app; lia).
  rewrite !(app_assoc c1), (drop_app_length' (c1 ++ _)) in H2 by (rewrite length_app; lia).
  rewrite app_assoc, fmap_app in H1. simpl in H1.
  destruct (remove_separator_spec (i := 3) H1) as (sep & n2 & Er & Hsep & Hs2 & _); [rewrite length_fmap, length_app; lia|].
  apply shape_sep_none in Hs2; [|rewrite length_fmap, length_app; unfold ORDER; lia].
  destruct (insert_room Hs2 Hk Hc1 Hca Hu1 Hsk Huc) as (n3 & n4 & n5 & E3 & E4 & E5 & H5 & Hch); [unfold ORDER; lia|].
  exists n1, r, sep, n2, n3, n4, n5. done.
Qed.

Lemma insert_full_gt k1a x k1b c1a c1b :
  k1 = k1a ++ x :: k1b → c1 = c1a ++ c1b → length k1a = 4%nat → length c1a = 5%nat →
  ∃ n1 r sep n2, Node_split 5 false (Some (i, s)) (if hc then Some (i, ch) else None) hc n = Ok (r, n1) ∧
    remove_separator 4 n1 = Ok (sep, n2) ∧ sp_sep sep = Some x ∧
    shape n2 (Some <$> k1a) c1a ∧ shape r (Some <$> k1b ++ k :: k2) (c1b ++ ch_index ch :: c2) ∧ nd_changed n2 = true ∧ nd_changed r = true.
Proof.
  intros E1 Ec H4 H5. destruct full_lengths as [L1 L2].
  assert (Lk : length k1 = (5 + length k1b)%nat) by (rewrite E1, length_app; simpl; lia).
  assert (Lc : length c1 = (5 + length c1b)%nat) by (rewrite Ec, length_app; lia). unfold ORDER in *.
  destruct (split_insert n (k1 ++ k2) (c1 ++ c2) hc i s k ch Hs L1 L2) as (n1 & r & E & Hn & Hr & H1 & H2); try done; [lia| |].
  { intros Hf. split; [by apply leaf_kids|]. rewrite Hf in Huc. simpl in Huc. by injection Huc. }
  rewrite E1, Ec in H1, H2.
  assert (Ek : (k1a ++ x :: k1b) ++ k2 = (k1a ++ [x]) ++ k1b ++ k2) by (by rewrite <-!app_assoc).
  rewrite Ek, (take_app_length' (k1a ++ _)) in H1 by (rewrite length_app; simpl; lia). rewrite <-app_assoc, (take_app_length' c1a) in H1 by lia.
  rewrite Ek, (drop_app_length' (k1a ++ _)) in H2 by (rewrite length_app; simpl; lia).
  rewrite <-(app_assoc c1a), (drop_app_length' c1a) in H2 by lia.
  rewrite (take_app_length' k1b), (take_app_length' c1b) in H2 by lia.
  rewrite (app_assoc (k1a ++ _)), (drop_app_length' ((k1a ++ _) ++ _)), (app_assoc c1a), (drop_app_length' (c1a ++ _)) in H2
    by (rewrite !length_app; simpl; lia).
  rewrite fmap_app in H1. simpl in H1. destruct (remove_separator_spec (i := 4) H1) as (sep & n2 & Er & Hsep & Hs2 & Hch); [by rewrite length_fmap|].
  apply shape_sep_none in Hs2; [|rewrite length_fmap; unfold ORDER; lia]. exists n1, r, sep, n2. done.
Qed.
End insert_full.
