(* ===== verification/BTreeSiblings.v ===== *)
(** * Nodes of a B-tree: moving entries between siblings

    What [rebalance] does to the arrays of two neighbours and of their parent: an entry moves
    over the parent from one to the other, or all entries of the right one move to the left. *)

From S2P Require Import Prelude IndexEntry ValueEntry KeyOrder BTreeNode BTreeShape.

(** The child [y] has been taken from a node, if nodes have children here. *)
Definition taken (hc : bool) (y : option Z) (o : option Child) : Prop :=
  if hc then ∃ c, o = Some c ∧ ch_index c = y else o = None ∧ y = None.

Lemma take_child_spec hc i n so c1 y c2 : shape n so (c1 ++ y :: c2) → length c1 = i → uniform hc [y] →
  ∃ o n', take_child hc i n = Ok (o, n') ∧ taken hc y o ∧ shape n' so (c1 ++ None :: c2).
Proof.
  intros Hs Hi Hu. unfold take_child. destruct hc.
  - destruct (remove_child_spec Hs Hi) as (c & n' & -> & Hc & Hs' & _). cbn [mbind outcome_bind]. eexists _, _. split_and!; try done. by exists c.
  - injection Hu as ->. by exists None, n.
Qed.

Lemma put_child_spec hc i n so c1 y o c2 : shape n so (c1 ++ None :: c2) → length c1 = i → taken hc y o →
  ∃ n', put_child i o n = Ok n' ∧ shape n' so (c1 ++ y :: c2) ∧ (nd_changed n = true → nd_changed n' = true).
Proof.
  intros Hs Hi Ht. destruct hc; simpl in Ht.
  - destruct Ht as (c & -> & <-). destruct (set_child_spec c Hs Hi) as (n' & E & Hs' & Hc). by exists n'.
  - destruct Ht as [-> ->]. by exists n.
Qed.

Lemma replicate_snoc {A} j (x : A) (l : list A) : replicate j x ++ x :: l = replicate (S j) x ++ l.
Proof. induction j as [|j IH]; [done|]. cbn [replicate app]. rewrite IH. done. Qed.

(** The separators of the right node move behind those of the left one; the last child stays. *)
Lemma merge_loop_spec hc y : ∀ kr cr lft rgt kl cl j i,
  shape lft (Some <$> kl) cl → length kl = i → length cl = i → nd_changed lft = true →
  shape rgt (replicate j None ++ (Some <$> kr)) (replicate j None ++ cr ++ [y]) → length cr = length kr → uniform hc cr → (i + length kr ≤ ORDER)%nat →
  ∃ lft' rgt', merge_loop (length kr) hc j i lft rgt = Ok ((j + length kr)%nat, (i + length kr)%nat, lft', rgt') ∧
    shape lft' (Some <$> kl ++ kr) (cl ++ cr) ∧ nd_changed lft' = true ∧
    shape rgt' (replicate (j + length kr) None) (replicate (j + length kr) None ++ [y]).
Proof.
  induction kr as [|k kr IH]; intros [|c cr] lft rgt kl cl j i Hl Hkl Hcl Hch Hr Hcr Hu Ho; try done.
  { exists lft, rgt. cbn [length merge_loop]. rewrite !Nat.add_0_r, !app_nil_r. simpl in Hr. by rewrite app_nil_r in Hr. }
  apply uniform_cons in Hu as [Huc Hu]. cbn [length merge_loop] in *.
  destruct (take_child_spec hc j rgt _ (replicate j None) c (cr ++ [y]) Hr) as (o & r1 & -> & Ht & H1); [apply length_replicate|done|]. cbn [mbind outcome_bind].
  destruct (remove_separator_spec (i := j) (o := Some k) H1) as (s & r2 & -> & Hsk & H2 & _); [apply length_replicate|]. cbn [mbind outcome_bind].
  apply shape_sep_none in Hl; [|rewrite length_fmap; lia]. destruct (set_separator_spec (i := i) s Hl) as (l1 & -> & H3 & Hc3); [by rewrite length_fmap|].
  cbn [mbind outcome_bind]. apply shape_kid_none in H3; [|unfold ORDER, ORDER_CHILD in *; lia].
  destruct (put_child_spec hc i l1 _ cl c o [] H3 Hcl Ht) as (l2 & -> & H4 & Hc4). cbn [mbind outcome_bind].
  rewrite !replicate_snoc in H2. rewrite Hsk in H4. change [Some k] with (Some <$> [k]) in H4. rewrite <-fmap_app in H4.
  destruct (IH cr l2 r2 (kl ++ [k]) (cl ++ [c]) (S j) (S i)) as (l' & r' & E & H5 & Hc5 & H6); try done;
    [rewrite length_app; simpl; lia|rewrite length_app; simpl; lia|auto|lia|lia|].
  rewrite <-!app_assoc in H5. exists l', r'. rewrite E, !Nat.add_succ_r. done.
Qed.

(** *** One entry at an end of a node *)
Section ends.
Context {hc : bool} {n : Node} {ks : list SeparatorInner} {cs : list (option Z)} {y : option Z}.

Lemma push_front o s k : shape n (Some <$> ks) cs → length cs = S (length ks) → (length ks < ORDER)%nat → uniform hc cs →
  taken hc y o → sp_sep s = Some k →
  ∃ n1 n2 n3, shift_from 0 hc true n = Ok n1 ∧ put_child 0 o n1 = Ok n2 ∧ set_separator 0 s n2 = Ok n3 ∧
    shape n3 (Some <$> k :: ks) (y :: cs) ∧ nd_changed n3 = true.
Proof.
  intros Hs Hl Ho Hu Ht Hk. destruct (shift_from_spec n [] ks cs 0 Hs) as [Hleaf Hinner]; [done|done|].
  assert (∃ n1, shift_from 0 hc true n = Ok n1 ∧ shape n1 (None :: (Some <$> ks)) (None :: cs)) as (n1 & E1 & H1).
  { destruct hc.
    - destruct Hu as [ds ->]. destruct (Hinner true [] ds) as (n1 & E & _ & H); try done; [|by exists n1].
      rewrite length_fmap in Hl. simpl. unfold ORDER, ORDER_CHILD in *. lia.
    - destruct (Hleaf true) as (n1 & E & _ & H). exists n1. split; [done|]. simpl in Hu. rewrite Hu in H |- *.
      apply (shape_leaf _ _ _ (S (length cs)) H). unfold ORDER, ORDER_CHILD in *. lia. }
  destruct (put_child_spec hc 0 n1 _ [] y o cs H1 eq_refl Ht) as (n2 & E2 & H2 & _).
  destruct (set_separator_spec (a := []) (i := 0) s H2 eq_refl) as (n3 & E3 & H3 & Hc). rewrite Hk in H3.
  exists n1, n2, n3. done.
Qed.

Lemma push_back o s k : shape n (Some <$> ks) cs → length cs = S (length ks) → (length ks < ORDER)%nat → taken hc y o → sp_sep s = Some k →
  ∃ n1 n2, set_separator (length ks) s n = Ok n1 ∧ put_child (S (length ks)) o n1 = Ok n2 ∧
    shape n2 (Some <$> ks ++ [k]) (cs ++ [y]) ∧ nd_changed n2 = true.
Proof.
  intros Hs Hl Ho Ht Hk. apply shape_sep_none in Hs; [|by rewrite length_fmap].
  destruct (set_separator_spec s Hs (length_fmap _ _)) as (n1 & E1 & H1 & Hc1).
  apply shape_kid_none in H1; [|unfold ORDER, ORDER_CHILD in *; lia].
  destruct (put_child_spec hc _ n1 _ cs y o [] H1 Hl Ht) as (n2 & E2 & H2 & Hc2). rewrite Hk in H2. exists n1, n2.
  rewrite fmap_app. split_and!; auto.
Qed.

Lemma pop_back x : shape n (Some <$> ks ++ [x]) (cs ++ [y]) → length cs = S (length ks) → uniform hc [y] →
  ∃ o n1 s n2, take_child hc (S (length ks)) n = Ok (o, n1) ∧ remove_separator (length ks) n1 = Ok (s, n2) ∧
    taken hc y o ∧ sp_sep s = Some x ∧ shape n2 (Some <$> ks) cs ∧ nd_changed n2 = true.
Proof.
  intros Hs Hl Hu. pose proof (sh_kids_len Hs) as Hkl. rewrite length_app in Hkl. simpl in Hkl.
  pose proof (sh_seps_len Hs) as Hsl. rewrite length_fmap, length_app in Hsl. simpl in Hsl.
  destruct (take_child_spec hc _ n _ cs y [] Hs Hl Hu) as (o & n1 & E1 & Ht & H1). rewrite fmap_app in H1.
  destruct (remove_separator_spec (o := Some x) H1 (length_fmap _ _)) as (s & n2 & E2 & Hx & H2 & Hc).
  apply shape_sep_none in H2; [|rewrite length_fmap; lia]. apply shape_kid_none in H2; [|lia]. exists o, n1, s, n2. done.
Qed.

Lemma pop_front x : shape n (Some <$> x :: ks) (y :: cs) → uniform hc (y :: cs) →
  ∃ o n1 s n2 n3, take_child hc 0 n = Ok (o, n1) ∧ remove_separator 0 n1 = Ok (s, n2) ∧ remove_from 0 hc true n2 = Ok n3 ∧
    taken hc y o ∧ sp_sep s = Some x ∧ shape n3 (Some <$> ks) cs ∧ nd_changed n3 = true.
Proof.
  intros Hs [Hy Hu]%uniform_cons. destruct (take_child_spec hc 0 n _ [] y cs Hs eq_refl Hy) as (o & n1 & E1 & Ht & H1).
  destruct (remove_separator_spec (a := []) (o := Some x) H1 eq_refl) as (s & n2 & E2 & Hx & H2 & _).
  destruct (remove_from_spec n2 [] ks (None :: cs) 0 H2 eq_refl) as [Hleaf Hinner].
  assert (∃ n3, remove_from 0 hc true n2 = Ok n3 ∧ nd_changed n3 = true ∧ shape n3 (Some <$> ks) cs) as (n3 & E3 & Hc & H3).
  { destruct hc.
    - destruct Hu as [ds ->]. by apply (Hinner true [] ds).
    - destruct (Hleaf true) as (n3 & E & Hc & H). exists n3. split_and!; try done. simpl in Hu. rewrite Hu in H |- *.
      pose proof (sh_kids_len H). simpl in *. apply (shape_leaf _ _ (S (length cs)) (length cs) H). rewrite length_replicate in *. lia. }
  exists o, n1, s, n2, n3. done.
Qed.

(** A separator replaced by another. *)
Lemma replace_separator k1 k k2 s2 x : shape n (Some <$> k1 ++ k :: k2) cs → sp_sep s2 = Some x →
  ∃ s n1 n2, remove_separator (length k1) n = Ok (s, n1) ∧ set_separator (length k1) s2 n1 = Ok n2 ∧
    sp_sep s = Some k ∧ shape n2 (Some <$> k1 ++ x :: k2) cs ∧ nd_changed n2 = true.
Proof.
  intros Hs Hx. rewrite fmap_app in Hs. destruct (remove_separator_spec Hs (length_fmap _ _)) as (s & n1 & E1 & Hk & H1 & _).
  destruct (set_separator_spec s2 H1 (length_fmap _ _)) as (n2 & E2 & H2 & Hc). rewrite Hx in H2. exists s, n1, n2. by rewrite fmap_app.
Qed.
End ends.

(** *** Merging two nodes around a separator *)
Lemma merge_spec hc lft kl cl s k rgt kr cr :
  shape lft (Some <$> kl) cl → length cl = S (length kl) → shape rgt (Some <$> kr) cr → length cr = S (length kr) →
  uniform hc cr → sp_sep s = Some k → (length kl + S (length kr) ≤ ORDER)%nat →
  ∃ l1 l2 r2 o r3 l3, set_separator (length kl) s lft = Ok l1 ∧
    merge_loop (length kr) hc 0 (S (length kl)) l1 rgt = Ok (length kr, (S (length kl) + length kr)%nat, l2, r2) ∧
    take_child hc (length kr) r2 = Ok (o, r3) ∧ put_child (S (length kl) + length kr) o l2 = Ok l3 ∧
    shape l3 (Some <$> kl ++ k :: kr) (cl ++ cr) ∧ nd_changed l3 = true.
Proof.
  intros Hl Hcl Hr Hcr Hu Hk Ho. destruct (exists_last (l := cr)) as (cr0 & y & ->); [by destruct cr|].
  rewrite length_app in Hcr. simpl in Hcr. apply uniform_app in Hu as [Hu0 Huy].
  apply shape_sep_none in Hl; [|rewrite length_fmap; lia]. destruct (set_separator_spec s Hl (length_fmap _ _)) as (l1 & E1 & H1 & Hc1).
  rewrite Hk in H1. change [Some k] with (Some <$> [k]) in H1. rewrite <-fmap_app in H1.
  destruct (merge_loop_spec hc y kr cr0 l1 rgt (kl ++ [k]) cl 0 (S (length kl))) as (l2 & r2 & E2 & H2 & Hc2 & H3); try done;
    [rewrite length_app; simpl; lia|lia|lia|].
  simpl in E2, H3. destruct (take_child_spec hc (length kr) r2 _ _ y [] H3) as (o & r3 & E3 & Ht & _); [apply length_replicate|done|].
  apply shape_kid_none in H2; [|rewrite length_app; unfold ORDER, ORDER_CHILD in *; lia].
  destruct (put_child_spec hc (S (length kl) + length kr) l2 _ (cl ++ cr0) y o [] H2) as (l3 & E4 & H4 & Hc4); [rewrite length_app; lia|done|].
  rewrite <-!app_assoc in H4. simpl in H4. exists l1, l2, r2, o, r3, l3. split_and!; auto.
Qed.

(** The parent closes the gap a merge leaves. *)
Lemma close_merged n k1 k2 c1 (a : option Z) c2 : shape n ((Some <$> k1) ++ None :: (Some <$> k2)) (c1 ++ a :: None :: c2) → length c1 = length k1 →
  uniform true c2 → ∃ n', remove_from (length k1) true false n = Ok n' ∧ nd_changed n' = true ∧ shape n' (Some <$> k1 ++ k2) (c1 ++ a :: c2).
Proof.
  intros Hs Hl [ds ->]. destruct (remove_from_spec n (Some <$> k1) k2 _ (length k1) Hs) as [_ Hi]; [apply length_fmap|].
  destruct (Hi false (c1 ++ [a]) ds) as (n' & E & Hc & H); [by rewrite <-app_assoc|rewrite length_app; simpl; lia|].
  exists n'. rewrite <-app_assoc in H. by rewrite fmap_app.
Qed.
