(* ===== verification/BTreeCodec.v ===== *)
(** * The encoding of nodes

    [node_bytes] is what a node looks like in a table: its children and separators in turn.
    Encoding a node writes these bytes and decoding them gives back the node. *)

From S2P Require Import Prelude IndexEntry ValueEntry KeyOrder BTreeNode BTreeShape.

Definition key_size_bytes (size : nat) : bytes :=
  if bool_decide (u8_max ≤ Z.of_nat size) then le_bytes 1 u8_max ++ le_bytes 4 (Z.of_nat size) else le_bytes 1 (Z.of_nat size).
Definition sep_bytes (k : SeparatorInner) : bytes :=
  le_bytes 8 (si_value k) ++ key_size_bytes (length (si_key k)) ++ si_key k.
Fixpoint node_bytes (ks : list SeparatorInner) (cs : list (option Z)) : bytes :=
  match cs with
  | [] => []
  | c :: cs' =>
      le_bytes 8 (default NULL_ADDRESS c) ++ match ks with [] => [] | k :: ks' => sep_bytes k ++ node_bytes ks' cs' end
  end.

(** Addresses and keys that fit their fields. *)
Definition wf_address (a : Z) : Prop := 0 < a < 2 ^ 64.
Definition wf_sep (k : SeparatorInner) : Prop := wf_address (si_value k) ∧ Z.of_nat (length (si_key k)) < 2 ^ 32.
Definition wf_kid (c : option Z) : Prop := match c with Some a => wf_address a | None => True end.

(** ** Encoding *)
Lemma resize_built b n : built (resize (length b + n) (mkEntry (length b) b)) b (b ++ replicate n Byte.x00).
Proof.
  unfold resize. simpl. rewrite firstn_all2 by lia. replace (length b + n - length b)%nat with n by lia. split; [|len].
  by rewrite drop_app_length.
Qed.
Lemma built_full e d junk : built e d junk → length d = length junk → e = mkEntry (length d) d.
Proof. intros [-> _] H. rewrite drop_ge by lia. by rewrite app_nil_r. Qed.

Lemma write_child_index_spec b a :
  write_child_index a (mkEntry (length b) b) = Ok (mkEntry (length (b ++ le_bytes 8 a)) (b ++ le_bytes 8 a)).
Proof.
  unfold write_child_index, write_u64. cbn [e_buf].
  destruct (write_slice_built _ _ _ (le_bytes 8 a) (resize_built b 8)) as (e & -> & He); [rewrite le_bytes_length; len|].
  f_equal. apply (built_full _ _ _ He). rewrite !length_app, le_bytes_length, length_replicate. done.
Qed.

Lemma sep_bytes_length k :
  length (sep_bytes k) = (8 + 1 + (if bool_decide (u8_max ≤ Z.of_nat (length (si_key k)))%Z then 4 else 0) + length (si_key k))%nat.
Proof. unfold sep_bytes, key_size_bytes. case_bool_decide; rewrite !length_app, ?le_bytes_length; lia. Qed.

Lemma write_separator_spec b k : wf_sep k →
  write_separator (si_key k) (si_value k) (mkEntry (length b) b) = Ok (mkEntry (length (b ++ sep_bytes k)) (b ++ sep_bytes k)).
Proof.
  intros [_ Hk]. unfold write_separator. cbn [e_buf].
  pose proof (sep_bytes_length k) as Hl. set (long := bool_decide _) in *.
  replace (length b + 8 + 1 + (if long then 4 else 0) + length (si_key k))%nat with (length b + length (sep_bytes k))%nat by lia.
  destruct (write_slice_built _ _ _ (le_bytes 8 (si_value k)) (resize_built b (length (sep_bytes k)))) as (e1 & E1 & H1).
  { rewrite le_bytes_length, length_app, length_replicate. lia. }
  unfold write_u64. rewrite E1. cbn [mbind outcome_bind].
  assert (E2 : ∃ e2, (if long then e ← write_slice (le_bytes 1 u8_max) e1; write_u32 (u32 (Z.of_nat (length (si_key k)))) e
      else write_slice (le_bytes 1 (Z.of_nat (length (si_key k)))) e1) = Ok e2 ∧
    built e2 ((b ++ le_bytes 8 (si_value k)) ++ key_size_bytes (length (si_key k))) (b ++ replicate (length (sep_bytes k)) Byte.x00)).
  { unfold key_size_bytes. fold long. destruct long.
    - destruct (write_slice_built _ _ _ (le_bytes 1 u8_max) H1) as (e2 & -> & H2).
      { rewrite !length_app, !le_bytes_length, length_replicate. lia. }
      cbn [mbind outcome_bind]. unfold wrap. rewrite Z.mod_small by lia.
      destruct (write_slice_built _ _ _ (le_bytes 4 (Z.of_nat (length (si_key k)))) H2) as (e3 & E3 & H3).
      { rewrite !length_app, !le_bytes_length, length_replicate. lia. }
      exists e3. split; [done|]. by rewrite app_assoc.
    - apply write_slice_built; [done|]. rewrite !length_app, !le_bytes_length, length_replicate. lia. }
  destruct E2 as (e2 & -> & H2). cbn [mbind outcome_bind].
  destruct (write_slice_built _ _ _ (si_key k) H2) as (e3 & -> & H3).
  { rewrite !length_app, length_replicate. unfold sep_bytes. rewrite !length_app. lia. }
  rewrite <-!app_assoc in H3. change (le_bytes 8 (si_value k) ++ _) with (sep_bytes k) in H3. f_equal.
  apply (built_full _ _ _ H3). rewrite !length_app, length_replicate. done.
Qed.

Lemma encode_loop_spec n ks cs : ∀ fuel k1 c1 b,
  shape n (Some <$> k1 ++ ks) (c1 ++ cs) → length c1 = length k1 → length cs = S (length ks) → Forall wf_sep ks → (length ks < fuel)%nat →
  encode_loop fuel (length k1) n (mkEntry (length b) b) = Ok (mkEntry (length (b ++ node_bytes ks cs)) (b ++ node_bytes ks cs)).
Proof.
  revert cs. induction ks as [|k ks IH]; intros [|c cs] [|fuel] k1 c1 b Hs Hc Hl Hw Hf; simpl in Hl, Hf; try lia; cbn [encode_loop node_bytes].
  - destruct cs; [|done]. destruct (kid_at Hs Hc) as (x & Ex & Hx). rewrite (arr_get_ok _ _ _ Ex). cbn [mbind outcome_bind].
    rewrite Hx, write_child_index_spec. cbn [mbind outcome_bind]. case_bool_decide as Ho; [by rewrite app_nil_r|].
    rewrite app_nil_r in Hs. pose proof (sh_seps_len Hs) as Hle. rewrite length_fmap in Hle. unfold ORDER, ORDER_CHILD in *.
    apply shape_sep_none in Hs; [|rewrite length_fmap; unfold ORDER; lia].
    destruct (sep_at (i := length k1) Hs) as (s & Es & Hse); [by rewrite length_fmap|].
    rewrite (arr_get_ok _ _ _ Es). cbn [mbind outcome_bind]. by rewrite Hse, app_nil_r.
  - destruct (kid_at Hs Hc) as (x & Ex & Hx). rewrite (arr_get_ok _ _ _ Ex). cbn [mbind outcome_bind].
    rewrite Hx, write_child_index_spec. cbn [mbind outcome_bind].
    pose proof (sh_seps_len Hs) as Hle. rewrite length_fmap, length_app in Hle. simpl in Hle. unfold ORDER, ORDER_CHILD in *.
    rewrite bool_decide_false by lia. pose proof Hs as Hs'. rewrite fmap_app, fmap_cons in Hs'.
    destruct (sep_at (i := length k1) Hs') as (s & Es & Hse); [by rewrite length_fmap|].
    rewrite (arr_get_ok _ _ _ Es). cbn [mbind outcome_bind]. rewrite Hse. apply Forall_cons in Hw as [Hk Hw].
    rewrite write_separator_spec by done. cbn [mbind outcome_bind].
    replace (S (length k1)) with (length (k1 ++ [k])) by (rewrite length_app; simpl; lia).
    rewrite (IH cs fuel (k1 ++ [k]) (c1 ++ [c])); try done; try lia.
    + by rewrite <-!app_assoc.
    + by rewrite <-!app_assoc.
    + rewrite !length_app. simpl. lia.
Qed.

Lemma encode_node_spec n ks cs :
  shape n (Some <$> ks) cs → length cs = S (length ks) → Forall wf_sep ks → encode_node n = Ok (node_bytes ks cs).
Proof.
  intros Hs Hl Hw. unfold encode_node, VEntry_new.
  pose proof (sh_seps_len Hs) as Hle. rewrite length_fmap in Hle.
  pose proof (encode_loop_spec n ks cs ORDER_CHILD [] [] [] Hs eq_refl Hl Hw ltac:(unfold ORDER, ORDER_CHILD in *; lia)) as E.
  cbn [length app] in E. rewrite E. done.
Qed.

(** ** Decoding *)
Lemma check_remaining_at l d r n err : length d = n → check_remaining_len n err (mkEntry (length l) (l ++ d ++ r)) = Ok tt.
Proof. intros <-. unfold check_remaining_len. rewrite decide_False; [done|]. cbn [e_buf e_off]. rewrite !length_app. lia. Qed.
Lemma read_u64_at l r a : 0 ≤ a < 2 ^ 64 →
  read_u64 (mkEntry (length l) (l ++ le_bytes 8 a ++ r)) = Ok (a, mkEntry (length (l ++ le_bytes 8 a)) (l ++ le_bytes 8 a ++ r)).
Proof.
  intros Ha. unfold read_u64. rewrite (read_slice_at l (le_bytes 8 a) r 8) by apply le_bytes_length. cbn [mbind outcome_bind].
  by rewrite le_val_bytes_small.
Qed.
Lemma read_u32_at l r a : 0 ≤ a < 2 ^ 32 →
  read_u32 (mkEntry (length l) (l ++ le_bytes 4 a ++ r)) = Ok (a, mkEntry (length (l ++ le_bytes 4 a)) (l ++ le_bytes 4 a ++ r)).
Proof.
  intros Ha. unfold read_u32. rewrite (read_slice_at l (le_bytes 4 a) r REFS_SIZE) by apply le_bytes_length. cbn [mbind outcome_bind].
  by rewrite le_val_bytes_small.
Qed.

Lemma read_child_index_spec l r c : wf_kid c →
  read_child_index (mkEntry (length l) (l ++ le_bytes 8 (default NULL_ADDRESS c) ++ r))
  = Ok (c, mkEntry (length (l ++ le_bytes 8 (default NULL_ADDRESS c))) (l ++ le_bytes 8 (default NULL_ADDRESS c) ++ r)).
Proof.
  intros Hc. unfold read_child_index. rewrite check_remaining_at by apply le_bytes_length. cbn [mbind outcome_bind].
  assert (0 ≤ default NULL_ADDRESS c < 2 ^ 64) as Ha by (destruct c; unfold wf_kid, wf_address, NULL_ADDRESS in *; simpl; lia).
  rewrite read_u64_at by done. cbn [mbind outcome_bind]. do 2 f_equal.
  destruct c as [a|]; simpl in *; [|done]. unfold wf_address in Hc. by rewrite bool_decide_false by lia.
Qed.

(** The size of a key, as it is written, is read back. *)
Lemma read_key_size l r size : Z.of_nat size < 2 ^ 32 →
  ('(head, e) ← read_slice 1 (mkEntry (length l) (l ++ key_size_bytes size ++ r));
   let head := le_val head in
   if bool_decide (head = u8_max) then
     _ ← check_remaining_len 4 (Corruption "Cannot read size of key") e; '(n, e) ← read_u32 e; Ok (Z.to_nat n, e)
   else Ok (Z.to_nat head, e))
  = Ok (size, mkEntry (length (l ++ key_size_bytes size)) (l ++ key_size_bytes size ++ r)).
Proof.
  intros Hs. unfold key_size_bytes. case_bool_decide as Hb.
  - rewrite <-app_assoc, read_slice_at by apply le_bytes_length. cbn [mbind outcome_bind].
    rewrite le_val_bytes_small by (unfold in_range, u8_max; simpl; lia). rewrite bool_decide_true by done.
    rewrite !app_assoc, <-(app_assoc (l ++ _)), check_remaining_at by apply le_bytes_length. cbn [mbind outcome_bind].
    rewrite read_u32_at by lia. cbn [mbind outcome_bind]. by rewrite Nat2Z.id.
  - rewrite read_slice_at by apply le_bytes_length. cbn [mbind outcome_bind]. unfold u8_max in *.
    rewrite le_val_bytes_small by (unfold in_range; simpl; lia). rewrite bool_decide_false by lia. by rewrite Nat2Z.id.
Qed.

Lemma read_separator_spec l r k : wf_sep k →
  read_separator (mkEntry (length l) (l ++ sep_bytes k ++ r)) = Ok (Some k, mkEntry (length (l ++ sep_bytes k)) (l ++ sep_bytes k ++ r)).
Proof.
  intros [Ha Hk]. unfold wf_address in Ha. unfold read_separator. cbn [e_off e_buf].
  pose proof (sep_bytes_length k) as Hl. rewrite bool_decide_false by (rewrite !length_app; lia).
  assert (Hc : ∀ n err, (n ≤ length (sep_bytes k))%nat → check_remaining_len n err (mkEntry (length l) (l ++ sep_bytes k ++ r)) = Ok tt).
  { intros n err Hn. unfold check_remaining_len. rewrite decide_False; [done|]. cbn [e_buf e_off]. rewrite !length_app. lia. }
  rewrite Hc by lia. cbn [mbind outcome_bind]. clear Hc Hl. unfold sep_bytes. rewrite <-!app_assoc. rewrite read_u64_at by lia. cbn [mbind outcome_bind].
  rewrite (app_assoc l). pose proof (read_key_size (l ++ le_bytes 8 (si_value k)) (si_key k ++ r) (length (si_key k)) Hk) as E.
  destruct (read_slice 1 _) as [[hd e1]| | |]; try done. cbn [mbind outcome_bind] in E |- *. cbv zeta in E |- *.
  rewrite E. cbn [mbind outcome_bind]. rewrite (app_assoc (l ++ _)), check_remaining_at by done. cbn [mbind outcome_bind].
  rewrite read_slice_at by done. cbn [mbind outcome_bind]. rewrite bool_decide_false by lia.
  destruct k; simpl. by rewrite <-!app_assoc.
Qed.

Lemma decode_loop_spec ks cs : ∀ fuel n k1 c1 b,
  shape n (Some <$> k1) c1 → length c1 = length k1 → length cs = S (length ks) → (length k1 + length ks ≤ ORDER)%nat →
  Forall wf_sep ks → Forall wf_kid cs → (length ks < fuel)%nat →
  ∃ n', decode_loop fuel (length k1) n (mkEntry (length b) (b ++ node_bytes ks cs)) = Ok n' ∧
    shape n' (Some <$> k1 ++ ks) (c1 ++ cs) ∧ nd_changed n' = nd_changed n.
Proof.
  revert cs. induction ks as [|k ks IH]; intros [|c cs] [|fuel] n k1 c1 b Hs Hc Hl Ho Hw Hwc Hf; simpl in Hl, Hf, Ho; try lia;
    cbn [decode_loop node_bytes]; apply Forall_cons in Hwc as [Hkc Hwc]; rewrite read_child_index_spec by done; cbn [mbind outcome_bind].
  all: assert (Hn : ∃ l, (match c with Some a => x ← arr_get (length k1) (nd_children n); arr_set (length k1) (mkChild (ch_moved x) (Some a)) (nd_children n)
                         | None => Ok (nd_children n) end) = Ok l ∧ shape (mkNode (nd_separators n) l (nd_changed n)) (Some <$> k1) (c1 ++ [c])).
  1,3: apply shape_kid_none in Hs; [|unfold ORDER, ORDER_CHILD in *; lia]; destruct c as [a|]; [|eexists; split; [done|]; by destruct n];
    destruct (kid_at Hs Hc) as (x & Ex & Hx); rewrite (arr_get_ok _ _ _ Ex); cbn [mbind outcome_bind];
    rewrite arr_set_ok by (by eapply lookup_lt_Some); eexists; split; [done|];
    destruct (set_kid_shape (mkChild (ch_moved x) (Some a)) Hs Hc); by split.
  - destruct Hn as (l & -> & Hn). cbn [mbind outcome_bind]. destruct cs; [|done]. rewrite !app_nil_r.
    case_bool_decide; [eauto|]. unfold read_separator. cbn [e_off e_buf]. rewrite bool_decide_true by done. cbn [mbind outcome_bind]. eauto.
  - destruct Hn as (l & -> & Hn). cbn [mbind outcome_bind]. rewrite bool_decide_false by (unfold ORDER, ORDER_CHILD in *; lia).
    apply Forall_cons in Hw as [Hk Hw]. rewrite app_assoc, read_separator_spec by done. cbn [mbind outcome_bind nd_separators].
    apply shape_sep_none in Hn; [|rewrite length_fmap; unfold ORDER in *; lia].
    destruct (sep_at (i := length k1) Hn) as (s & Es & Hse); [by rewrite length_fmap|]. cbn [nd_separators] in Es.
    rewrite (arr_get_ok _ _ _ Es). cbn [mbind outcome_bind]. rewrite arr_set_ok by (by eapply lookup_lt_Some). cbn [mbind outcome_bind nd_children nd_changed].
    assert (Hn' : shape (mkNode (<[length k1 := mkSep (sp_modified s) (Some k)]> (nd_separators n)) l (nd_changed n)) (Some <$> k1 ++ [k]) (c1 ++ [c])).
    { rewrite fmap_app. destruct (set_sep_shape (i := length k1) (mkSep (sp_modified s) (Some k)) Hn) as [? ? ? ?]; [by rewrite length_fmap|]. by split. }
    destruct (IH cs fuel _ (k1 ++ [k]) (c1 ++ [c]) ((b ++ le_bytes 8 (default NULL_ADDRESS c)) ++ sep_bytes k) Hn') as (n' & E & Hs' & Hch);
      try done; try lia; [rewrite !length_app; simpl; lia..|].
    exists n'. rewrite <-!app_assoc in Hs'. split; [|done]. rewrite <-E, !length_app. cbn [length]. rewrite <-!app_assoc, Nat.add_1_r. done.
Qed.

Lemma from_encoded_spec ks cs :
  length cs = S (length ks) → (length ks ≤ ORDER)%nat → Forall wf_sep ks → Forall wf_kid cs →
  ∃ n, from_encoded (node_bytes ks cs) = Ok n ∧ shape n (Some <$> ks) cs ∧ nd_changed n = false.
Proof.
  intros Hl Ho Hw Hc. unfold from_encoded, VEntry_new.
  apply (decode_loop_spec ks cs ORDER_CHILD (mkNode (replicate ORDER Separator_default) (replicate ORDER_CHILD Child_default) false) [] [] []);
    try done; [split; simpl; (done || lia)|]. unfold ORDER, ORDER_CHILD in *. lia.
Qed.

(** ** The header *)
Definition header_bytes (root depth : Z) : bytes := le_bytes 8 root ++ le_bytes 4 depth.

Lemma write_header_spec root depth : write_header (mkBHeader root depth) (VEntry_new []) = Ok (mkEntry 12 (header_bytes root depth)).
Proof.
  unfold write_header, write_u64, write_u32. change (resize 12 (set_offset 0 (VEntry_new []))) with (resize (length ([] : bytes) + 12) (mkEntry (length ([] : bytes)) [])).
  destruct (write_slice_built _ _ _ (le_bytes 8 root) (resize_built [] 12)) as (e & E1 & He); [rewrite le_bytes_length; len|].
  cbn [bh_root bh_depth]. rewrite E1. cbn [mbind outcome_bind].
  destruct (write_slice_built _ _ _ (le_bytes 4 depth) He) as (e' & E2 & He'); [rewrite !length_app, !le_bytes_length; len|].
  rewrite E2. f_equal.
  rewrite (built_full _ _ _ He') by (rewrite !length_app, !le_bytes_length; done). unfold header_bytes.
  rewrite !length_app, !le_bytes_length. done.
Qed.

Lemma read_header_spec root depth : 0 ≤ root < 2 ^ 64 → 0 ≤ depth < 2 ^ 32 →
  (let buf := VEntry_new (header_bytes root depth) in
   _ ← check_remaining_len (8 + 4) (Corruption "Invalid header length.") buf;
   '(root, buf) ← read_u64 buf;
   '(depth, _) ← read_u32 buf;
   Ok (mkBHeader root depth)) = Ok (mkBHeader root depth).
Proof.
  intros Hr Hd. cbv zeta. unfold VEntry_new, header_bytes.
  pose proof (check_remaining_at [] (le_bytes 8 root ++ le_bytes 4 depth) [] (8 + 4) (Corruption "Invalid header length.")) as E.
  rewrite app_nil_r in E. cbn [length app] in E. rewrite E by (rewrite length_app, !le_bytes_length; done). cbn [mbind outcome_bind].
  pose proof (read_u64_at [] (le_bytes 4 depth) root Hr) as E1. cbn [length app] in E1. rewrite E1. cbn [mbind outcome_bind].
  pose proof (read_u32_at (le_bytes 8 root) [] depth Hd) as E2. rewrite app_nil_r in E2. rewrite E2. done.
Qed.
