(* ===== verification/BTreeStore.v ===== *)
(** * The store of a tree column

    The value tables of a tree column as one store from addresses to values, with room for a
    number of writes of a bounded size.  The values of a tree column carry no key. *)

From S2P Require Import Prelude IndexEntry IndexChunk Log Stats IndexTable ValueEntry File ValueTable ValueSlots ValueChains ValueWrite ValueRead ValueInv ValueSpec Compress Column ColumnTables ColumnValues BTreeNode BTreeCodec.

(** A table holds at most [SLOTS] slots, so that positions in its file and addresses fit 64 bits. *)
Definition SLOTS : Z := 2 ^ 48.

(** The slots a write of at most [B] bytes can take in a table. *)
Definition write_slots (B : nat) : nat := B + 5.

(** The values [h], by address, are what the tables [ts] hold through the log. *)
Definition tree_values `{LogQuery L} (col : Z) (rc : bool) (ts : list ValueTable) (log : L) (h : gmap Z vrec) : Prop :=
  ∃ vs, tables_inv col rc 0 ts log vs ∧ ∀ a, h !! a = if decide (0 ≤ a < 2 ^ 64) then val_at vs a else None.

Record store_inv (col : Z) (rc : bool) (B : nat) (s : VState) (h : gmap Z vrec) (c : nat) : Prop := {
  si_tables : tree_values col rc (vs_tables s) (vs_log s) h;
  si_stats : vs_stats s = None;
  si_room : ∀ tier t, vs_tables s !! tier = Some t → filled t + Z.of_nat (c * write_slots B) ≤ SLOTS;
}.
#[global] Arguments si_tables {col rc B s h c}.
#[global] Arguments si_stats {col rc B s h c}.
#[global] Arguments si_room {col rc B s h c}.

(** ** Reading *)
Section values.
Context (junk : bytes) (Hjunk : length junk = MAX_ENTRY_BUF_SIZE) `{HC : Compressors} `{HL : LogQuery L}.
Context {col : Z} {rc : bool} {ts : list ValueTable} {log : L} {h : gmap Z vrec} (Ht : tree_values col rc ts log h).

Lemma values_get comp key a v :
  h !! a = Some v → query_ok key (v_key v) →
  get_value junk comp ts key a log = if query_hit key (v_key v) then x ← plain comp v; Ok (Some (Address_size_tier a, x)) else Ok None.
Proof. intros Hv Hq. destruct Ht as (vs & Hts & Hh). rewrite Hh in Hv. case_decide; [|done]. by apply (get_value_spec Hts junk Hjunk). Qed.

(** There are no more values than slots. *)
Lemma values_size : (size h ≤ foldr (λ t k, Z.to_nat (filled t) + k) 0 ts)%nat.
Proof.
  clear junk Hjunk. destruct Ht as (vs & Hts & Hh).
  set (slots := mjoin (imap (λ tier t, (λ o, Address_new o (Z.of_nat tier)) <$> seqZ 0 (filled t)) ts)).
  assert (Hlen : length slots = foldr (λ t k, Z.to_nat (filled t) + k)%nat 0%nat ts).
  { assert (Hl : ∀ (l : list ValueTable) (f : nat → Z → Z),
      length (mjoin (imap (λ tier t, f tier <$> seqZ 0 (filled t)) l)) = foldr (λ t k, Z.to_nat (filled t) + k)%nat 0%nat l).
    { intros l. induction l as [|t l IH]; intros f; [done|]. rewrite imap_cons. cbn [mjoin list_join foldr].
      rewrite length_app, length_fmap, length_seqZ. f_equal. apply (IH (λ i, f (S i))). }
    apply (Hl ts (λ tier o, Address_new o (Z.of_nat tier))). }
  assert (Hsub : dom h ⊆ list_to_set slots).
  { intros a [v Hv]%elem_of_dom. apply elem_of_list_to_set. rewrite Hh in Hv. case_decide as Ha; [|done].
    destruct (val_at_table Hts a v Hv) as (t & m & Et & _ & _ & _ & _ & Ho). destruct (address_parts a Ha) as (_ & [? _] & _ & Ea).
    unfold slots. apply list_elem_of_join. eexists. split; [|apply elem_of_lookup_imap; eexists _, t; split; [reflexivity|exact Et]].
    apply list_elem_of_fmap. exists (Address_offset a). split; [|apply elem_of_seqZ; lia]. by rewrite Z2Nat.id. }
  apply subseteq_size in Hsub. rewrite size_dom in Hsub. rewrite <-Hlen. etrans; [exact Hsub|]. clear.
  induction slots as [|a l IH]; [done|]. cbn [list_to_set length]. rewrite size_union_alt. pose proof (size_singleton (C := gset Z) a).
  assert (size (list_to_set (C := gset Z) l ∖ {[a]}) ≤ size (list_to_set (C := gset Z) l))%nat by (apply subseteq_size; set_solver). lia.
Qed.
End values.

Section store.
Context (junk : bytes) (Hjunk : length junk = MAX_ENTRY_BUF_SIZE) `{HC : Compressors} `{HCO : !CompressorsOk HC}.
Context {col : Z} {rc : bool} {B : nat}.
Abbreviation inv := (store_inv col rc B).

Section at_state.
Context {s : VState} {h : gmap Z vrec} {c : nat} (Hi : inv s h c).

Lemma store_addr a v : h !! a = Some v → 0 ≤ a < 2 ^ 64.
Proof. destruct (si_tables Hi) as (vs & _ & Hh). rewrite Hh. by case_decide. Qed.

Lemma store_get comp key a v :
  h !! a = Some v → query_ok key (v_key v) →
  get_value junk comp (vs_tables s) key a (vs_log s)
  = if query_hit key (v_key v) then x ← plain comp v; Ok (Some (Address_size_tier a, x)) else Ok None.
Proof.
  intros Hv Hq. by apply (values_get junk Hjunk (si_tables Hi)).
Qed.

(** What is left of the store after a plan that changes the value at [a]. *)
Lemma store_upd s' a n c' f vs v :
  tables_inv col rc 0 (vs_tables s) (vs_log s) vs → (∀ b, h !! b = if decide (0 ≤ b < 2 ^ 64) then val_at vs b else None) →
  0 ≤ a < 2 ^ 64 → vs_stats s' = vs_stats s →
  vpost col rc 0 n s s' (upd_at vs a f) → n + Z.of_nat (c' * write_slots B) ≤ Z.of_nat (c * write_slots B) →
  (∀ m o, o ≠ Address_offset a → f m !! o = m !! o) → (∀ m, f m !! Address_offset a = v) →
  inv s' (partial_alter (λ _, v) a h) c'.
Proof.
  intros Ht Hh Ha Hst Hp Hn Hf Hv. split.
  - exists (upd_at vs a f). split; [apply Hp|]. intros b. destruct (decide (b = a)) as [->|Hb].
    + rewrite lookup_partial_alter_eq, decide_True by done. rewrite val_at_upd_eq.
      destruct (tt_len Ht) as [_ Hl]. destruct (address_parts a Ha) as (_ & _ & Hlt & _).
      destruct (lookup_lt_is_Some_2 vs _ ltac:(rewrite Hl; exact Hlt)) as [m ->]. simpl. by rewrite Hv.
    + rewrite lookup_partial_alter_ne, Hh by done. case_decide; [|done]. symmetry. by apply val_at_upd.
  - rewrite Hst. apply (si_stats Hi).
  - intros tier t' Et'. destruct (vp_grown Hp _ _ Et') as (t & Et & Hg). pose proof (si_room Hi _ _ Et). lia.
Qed.

Lemma store_remove a v :
  h !! a = Some v → let tier := Z.to_nat (Address_size_tier a) in
  ∃ s', on_table tier (ValueTable_write_remove_plan junk (Address_offset a)) s = (Ok tt, s') ∧ inv s' (delete a h) c.
Proof.
  intros Hv tier. destruct (si_tables Hi) as (vs & Ht & Hh). pose proof (store_addr _ _ Hv) as Ha.
  rewrite Hh, decide_True in Hv by done. destruct (plan_remove junk Hjunk Ht a v Hv) as (t' & log' & E & Hp).
  eexists. split; [exact E|]. eapply (store_upd _ a 0 c); try done.
  - intros m o Ho. by rewrite lookup_delete_ne.
  - intros m. apply lookup_delete_eq.
Qed.

Lemma store_inc a v :
  rc = true → h !! a = Some v → let tier := Z.to_nat (Address_size_tier a) in
  ∃ s', on_table tier (write_inc_ref junk (Address_offset a)) s = (Ok tt, s') ∧ inv s' (<[a := set_rc (inc (v_rc v)) v]> h) c.
Proof.
  intros Hrc Hv tier. destruct (si_tables Hi) as (vs & Ht & Hh). pose proof (store_addr _ _ Hv) as Ha.
  rewrite Hh, decide_True in Hv by done. destruct (plan_inc junk Hjunk Ht a v Hrc Hv) as (s' & E & Hst & Hp).
  exists s'. split; [exact E|]. eapply (store_upd _ a 0 c); try done.
  - intros m o Ho. by rewrite lookup_insert_ne.
  - intros m. apply lookup_insert_eq.
Qed.

Lemma store_dec a v :
  rc = true → h !! a = Some v → let tier := Z.to_nat (Address_size_tier a) in
  ∃ s', on_table tier (write_dec_ref junk (Address_offset a)) s = (Ok (bool_decide (dec (v_rc v) ≠ 0)), s') ∧
    inv s' (if bool_decide (dec (v_rc v) = 0) then delete a h else <[a := set_rc (dec (v_rc v)) v]> h) c.
Proof.
  intros Hrc Hv tier. destruct (si_tables Hi) as (vs & Ht & Hh). pose proof (store_addr _ _ Hv) as Ha.
  rewrite Hh, decide_True in Hv by done. destruct (plan_dec junk Hjunk Ht a v Hrc Hv) as (s' & E & Hst & Hp).
  exists s'. split; [exact E|]. case_bool_decide.
  - eapply (store_upd _ a 0 c); try done.
    + intros m o Ho. by rewrite lookup_delete_ne.
    + intros m. apply lookup_delete_eq.
  - eapply (store_upd _ a 0 c); try done.
    + intros m o Ho. by rewrite lookup_insert_ne.
    + intros m. apply lookup_insert_eq.
Qed.
End at_state.

(** A state with room for a write. *)
Section write.
Context {s : VState} {h : gmap Z vrec} {c : nat} (Hi : inv s h (S c)).

Lemma stored_size_bound t sv : (length sv ≤ B)%nat → (S (stored_size t NoHash sv) ≤ write_slots B)%nat.
Proof. intros Hl. unfold stored_size, write_slots, ref_size, REFS_SIZE. destruct (ref_counted t); simpl; lia. Qed.

Lemma write_room tier t sv :
  vs_tables s !! tier = Some t → (length sv ≤ B)%nat →
  room t (S (stored_size t NoHash sv)) ∧ filled t + Z.of_nat (S (stored_size t NoHash sv)) ≤ 2 ^ 48.
Proof.
  intros Et Hl. pose proof (stored_size_bound t sv Hl) as Hs. pose proof (si_room Hi _ _ Et) as Hr. unfold SLOTS in Hr.
  destruct (si_tables Hi) as (vs & Ht & _). destruct (tt_size Ht _ _ Et) as [_ He].
  assert (32 ≤ entry_size t ≤ 32760) as Hes.
  { rewrite He. destruct (SIZES !! tier) as [z|] eqn:Ez; simpl; [|unfold MULTIPART_ENTRY_SIZE; lia]. by apply SIZES_facts in Ez. }
  pose proof (wf_filled _ (tables_wf Ht _ _ Et)) as Hf. split; [|lia]. unfold room. nia.
Qed.

Lemma write_cost t sv : (length sv ≤ B)%nat →
  Z.of_nat (S (stored_size t NoHash sv)) + Z.of_nat (c * write_slots B) ≤ Z.of_nat (S c * write_slots B).
Proof. intros Hl. pose proof (stored_size_bound t sv Hl). simpl. lia. Qed.

Lemma store_insert tier t sv cc :
  vs_tables s !! tier = Some t → fits t NoHash sv → (length sv ≤ B)%nat →
  ∃ o s', on_table tier (ValueTable_write_insert_plan junk NoHash sv cc) s = (Ok o, s') ∧
    let a := Address_new o (Z.of_nat tier) in
    h !! a = None ∧ wf_address a ∧ inv s' (<[a := mkVal 1 [] sv cc]> h) c.
Proof.
  intros Et Hfit Hl. destruct (write_room tier t sv Et Hl) as [Hr1 Hr2]. destruct (si_tables Hi) as (vs & Ht & Hh).
  destruct (plan_insert junk Hjunk Ht 48 tier t NoHash sv cc) as (o & s' & E & Hst & H56 & Hlt & Ha & Hn & Hp); try done.
  exists o, s'. split; [done|]. intros a. pose proof (Z.pow_le_mono_r 2 (48 + 8) 64 ltac:(lia) ltac:(lia)) as Hpow.
  split_and!; [|unfold wf_address; fold a in Ha; lia|].
  - rewrite Hh. case_decide; [done|done].
  - assert (Ho : Address_offset a = o) by (apply Address_offset_new; [done|by apply tier_range]).
    eapply (store_upd Hi s' a _ c (insert (Address_offset a) (mkVal 1 [] sv cc)) vs (Some (mkVal 1 [] sv cc))); try done.
    + fold a in Ha. lia.
    + rewrite Ho. exact Hp.
    + by apply write_cost.
    + intros m x Hx. by rewrite lookup_insert_ne.
    + intros m. apply lookup_insert_eq.
Qed.

Lemma store_replace a v t sv cc :
  h !! a = Some v → let tier := Z.to_nat (Address_size_tier a) in
  vs_tables s !! tier = Some t → fits t NoHash sv → (length sv ≤ B)%nat →
  ∃ s', on_table tier (ValueTable_write_replace_plan junk (Address_offset a) NoHash sv cc) s = (Ok tt, s') ∧
    inv s' (<[a := mkVal 1 [] sv cc]> h) c.
Proof.
  intros Hv tier Et Hfit Hl. destruct (write_room tier t sv Et Hl) as [Hr1 Hr2]. destruct (si_tables Hi) as (vs & Ht & Hh).
  pose proof (store_addr Hi _ _ Hv) as Ha. rewrite Hh, decide_True in Hv by done.
  destruct (plan_replace junk Hjunk Ht a v NoHash sv cc t Hv) as (s' & E & Hst & Hp); try done.
  exists s'. split; [done|]. eapply (store_upd Hi s' a _ c _ vs (Some (mkVal 1 [] sv cc))); try done.
  - pose proof (write_cost t sv Hl). lia.
  - intros m x Hx. by rewrite lookup_insert_ne.
  - intros m. apply lookup_insert_eq.
Qed.
End write.

(** ** The plans for values *)
(** The value [w] holds [v], with one reference. *)
Definition new_value_of (comp : Compress) (v : bytes) (w : vrec) : Prop :=
  v_rc w = 1 ∧ v_key w = [] ∧ plain comp w = Ok v ∧ (comp = NO_COMPRESSION → w = mkVal 1 [] v false).

Lemma no_compression v ts : (Column_compress NO_COMPRESSION NoHash v ts).1 = None.
Proof. unfold Column_compress. case_bool_decide; [|done]. change (Compress_compress NO_COMPRESSION v) with v. by rewrite bool_decide_false by lia. Qed.

Lemma stored_new_value comp v ts cval tier sv cc :
  Column_compress comp NoHash v ts = (cval, tier) → stored_form cval v = (sv, cc) →
  (if cc then Compress_decompress comp sv = Ok v else sv = v) → new_value_of comp v (mkVal 1 [] sv cc).
Proof.
  intros Ec Es Hd. split_and!; try done.
  - unfold plain. simpl. destruct cc; [done|]. by subst.
  - intros ->. pose proof (no_compression v ts) as Hn. rewrite Ec in Hn. simpl in Hn. subst cval. by injection Es as <- <-.
Qed.

(** Twelve bytes fit the first tier. *)
Lemma small_tier comp v ts vs log : tables_inv col rc 0 ts log vs → (length v ≤ 12)%nat → (Column_compress comp NoHash v ts).2 = 0%nat.
Proof.
  intros Ht Hv. unfold Column_compress.
  set (p := if bool_decide (threshold comp < Z.of_nat (length v)) then _ else _).
  assert (Hp : (p.1 ≤ 12)%nat) by (unfold p; case_bool_decide; [case_bool_decide|]; simpl; lia). destruct p as [len r]. simpl in *.
  destruct (tables_get Ht 0) as (t & m & Et & _); [unfold SIZE_TIERS; lia|].
  destruct ts as [|t0 ts]; [done|]. injection Et as ->. simpl. rewrite decide_True; [done|].
  rewrite holds_fits by (by apply (tables_wf Ht 0)). apply bool_decide_eq_true. destruct (tt_size Ht 0 t eq_refl) as [_ He].
  unfold es_nat, ref_size, REFS_SIZE. rewrite He. change (SIZES !! 0%nat) with (Some 32). destruct (ref_counted t); simpl; lia.
Qed.

Section plans.
Context {s : VState} {h : gmap Z vrec} {c : nat}.

Lemma new_value_run comp v (Hi : inv s h (S c)) :
  (length v ≤ B)%nat →
  ∃ a s' w, write_new_value_plan junk comp NoHash v s = (Ok a, s') ∧ h !! a = None ∧ wf_address a ∧ new_value_of comp v w ∧
    inv s' (<[a := w]> h) c.
Proof.
  intros Hv. destruct (si_tables Hi) as (vs & Ht & _). unfold write_new_value_plan. mrun. change (id s) with s. cbv beta iota.
  destruct (Column_compress comp NoHash v (vs_tables s)) as [cval tier] eqn:Ec. destruct (stored_form cval v) as [sv cc] eqn:Es.
  destruct (compress_spec Ht _ _ _ _ _ _ _ Ec Es) as ((t & Et & Hfit) & Hlen & Hdec).
  destruct (store_insert Hi tier t sv cc Et Hfit ltac:(lia)) as (o & s' & E & Hn & Ha & Hi'). mstep E.
  mstep (upd_stats_run (insert_val (u32 (Z.of_nat (length v))) (u32 (Z.of_nat (length sv)))) s').
  rewrite (si_stats Hi'). eexists _, _, _. split; [done|]. split; [done|]. split; [done|]. split; [by eapply stored_new_value|].
  destruct Hi' as [H1 H2 H3]. by split.
Qed.

Lemma set_value_run {K} comp (k : K) v a w0 (Hi : inv s h (S c)) :
  h !! a = Some w0 → wf_address a → (length v ≤ B)%nat →
  ∃ p o s' w, write_existing_value_plan junk comp false NoHash a (OpSet k v) false s = (Ok (p, o), s') ∧
    let a' := default a o in
    delete a h !! a' = None ∧ wf_address a' ∧ new_value_of comp v w ∧ inv s' (<[a' := w]> (delete a h)) c ∧
    ((length v ≤ 12)%nat → Address_size_tier a = 0 → o = None).
Proof.
  intros Ha Hwa Hv. destruct (si_tables Hi) as (vs & Ht & _). cbn [write_existing_value_plan]. mrun. change (id s) with s. cbv beta iota.
  destruct (Column_compress comp NoHash v (vs_tables s)) as [cval tier] eqn:Ec. destruct (stored_form cval v) as [sv cc] eqn:Es.
  destruct (compress_spec Ht _ _ _ _ _ _ _ Ec Es) as ((t & Et & Hfit) & Hlen & Hdec).
  rewrite (si_stats Hi). mrun. case_bool_decide as Htier.
  - subst tier. destruct (store_replace Hi a w0 t sv cc Ha Et Hfit ltac:(lia)) as (s' & E & Hi'). mstep E.
    eexists _, _, _, _. split; [done|]. simpl. rewrite insert_delete_eq, lookup_delete_eq. split_and!; try done. by eapply stored_new_value.
  - destruct (store_remove Hi a w0 Ha) as (s1 & E1 & Hi1). mstep E1.
    assert (Et1 : vs_tables s1 !! tier = Some t).
    { by rewrite (on_table_other _ _ _ _ _ E1). }
    destruct (store_insert Hi1 tier t sv cc Et1 Hfit ltac:(lia)) as (o & s' & E & Hn & Hwa' & Hi'). mstep E.
    eexists _, _, _, _. split; [done|]. simpl. split_and!; try done; [by eapply stored_new_value|].
    intros H12 Ht0. exfalso. apply Htier. rewrite Ht0. pose proof (small_tier comp v _ _ _ Ht H12) as Hs. by rewrite Ec in Hs.
Qed.

(** A change other than a new value: what it does to the value, and whether the value is kept. *)
Lemma change_value_run {K} comp (op : Operation K bytes) a w x (rcf : bool) (Hi : inv s h c) :
  h !! a = Some w → plain comp w = Ok x → (rcf = true → rc = true) → match op with OpSet _ _ => False | _ => True end →
  ∃ kept s', write_existing_value_plan junk comp false NoHash a op rcf s = (Ok (kept, None), s') ∧
    match spec_step rcf false op (Some (v_rc w, x)) with
    | None => kept = None ∧ inv s' (delete a h) c
    | Some (n, y) => kept ≠ None ∧ y = x ∧ inv s' (<[a := set_rc n w]> h) c
    end.
Proof.
  intros Ha Hx Hrcf Hop. destruct op as [k v|k|k]; [done|..]; cbn [write_existing_value_plan].
  - mrun. change (id s) with s. cbv beta iota. rewrite (si_stats Hi). mrun. destruct rcf.
    + destruct (store_dec Hi a w (Hrcf eq_refl) Ha) as (s' & E & Hi'). rewrite M_bind_assoc. mstep E. mrun.
      simpl spec_step. destruct (decide (dec (v_rc w) = 0)) as [Hz|Hz].
      * rewrite (bool_decide_false (_ ≠ _)), bool_decide_true in * by auto. simpl negb. cbv iota. mrun. eauto.
      * rewrite (bool_decide_true (_ ≠ _)), bool_decide_false in * by auto. simpl negb. cbv iota. mrun. eauto 10.
    + destruct (store_remove Hi a w Ha) as (s' & E & Hi'). rewrite M_bind_assoc. mstep E. mrun. cbv iota. mrun. eexists _, _. done.
  - destruct rcf.
    + destruct (store_inc Hi a w (Hrcf eq_refl) Ha) as (s' & E & Hi'). mstep E. mstep (upd_stats_run reference_increase s').
      rewrite (si_stats Hi'). eexists _, _. split; [done|]. simpl. split_and!; try done. destruct Hi'. by split.
    + eexists _, _. split; [done|]. simpl. split_and!; try done. rewrite insert_id; [done|]. rewrite Ha. by destruct w.
Qed.

(** One more reference: what setting a value that exists does when references are counted. *)
Lemma count_value_run {K} comp (k : K) v a w x (Hi : inv s h c) :
  h !! a = Some w → plain comp w = Ok x → rc = true →
  ∃ s', write_existing_value_plan junk comp false NoHash a (OpSet k v) true s = (Ok (Some Written, None), s') ∧
    inv s' (<[a := set_rc (inc (v_rc w)) w]> h) c.
Proof.
  intros Ha Hx Hrc. cbn [write_existing_value_plan]. destruct (store_inc Hi a w Hrc Ha) as (s' & E & Hi'). mstep E. eauto.
Qed.
End plans.
End store.
