(* ===== verification/BTreeLogic.v ===== *)
(** * A separation logic for the store of a tree column

    Assertions describe a part of the values of a column, by address, and a number of writes
    that may still be made before the tables are full.  Values are linear: an assertion that
    holds of the whole store says that it holds nothing else, so a tree that is proved to own
    the store has not lost track of a slot.  The right to write is affine.

    [wp m Φ] says that the plan [m] succeeds in every store that has the assertion as a part,
    leaves the rest of the store alone and establishes [Φ].  The store is a parameter: what it
    means for a state to hold some values and to have room is [inv]. *)

From iris.proofmode Require Import proofmode.
From S2P Require Import Prelude ValueInv.

(** ** Assertions *)
Abbreviation store := (gmap Z vrec).
Record hprop := HProp { hp_holds :> store → nat → Prop; hp_mono h c c' : hp_holds h c → (c ≤ c')%nat → hp_holds h c' }.

Record hp_entails (P Q : hprop) : Prop := HEntails { hp_at : ∀ h c, P h c → Q h c }.
Arguments HEntails {P Q} _.
Arguments hp_at {P Q} _.
Record hp_iff (P Q : hprop) : Prop := HIff { hp_iff_at : ∀ h c, P h c ↔ Q h c }.
#[local] Instance hp_equiv : Equiv hprop := hp_iff.
#[local] Instance hp_equivalence : Equivalence (≡@{hprop}).
Proof.
  split; [by intros P; split|intros P Q [H]; split; intros h c; by rw H|]. intros P Q R [H1] [H2]. split. intros h c. by rw H1.
Qed.
#[warnings="-redundant-canonical-projection"]
Canonical Structure hpropO := discreteO hprop.

Program Definition hp_emp : hprop := HProp (λ h _, h = ∅) _.
Next Obligation. done. Qed.
Program Definition hp_pure (φ : Prop) : hprop := HProp (λ _ _, φ) _.
Next Obligation. done. Qed.
Program Definition hp_and (P Q : hprop) : hprop := HProp (λ h c, P h c ∧ Q h c) _.
Next Obligation. intros P Q h c c' [? ?] ?. split; by eapply hp_mono. Qed.
Program Definition hp_or (P Q : hprop) : hprop := HProp (λ h c, P h c ∨ Q h c) _.
Next Obligation. intros P Q h c c' [?|?] ?; [left|right]; by eapply hp_mono. Qed.
Program Definition hp_impl (P Q : hprop) : hprop := HProp (λ h c, ∀ c', (c ≤ c')%nat → P h c' → Q h c') _.
Next Obligation. intros P Q h c c' H ? c'' ?. apply H. lia. Qed.
Program Definition hp_forall {A} (Ψ : A → hprop) : hprop := HProp (λ h c, ∀ a, Ψ a h c) _.
Next Obligation. intros A Ψ h c c' H ? a. eapply hp_mono; [apply H|done]. Qed.
Program Definition hp_exist {A} (Ψ : A → hprop) : hprop := HProp (λ h c, ∃ a, Ψ a h c) _.
Next Obligation. intros A Ψ h c c' [a H] ?. exists a. by eapply hp_mono. Qed.
Program Definition hp_sep (P Q : hprop) : hprop :=
  HProp (λ h c, ∃ h1 h2 c1 c2, h = h1 ∪ h2 ∧ h1 ##ₘ h2 ∧ (c1 + c2 ≤ c)%nat ∧ P h1 c1 ∧ Q h2 c2) _.
Next Obligation. intros P Q h c c' (h1 & h2 & c1 & c2 & ? & ? & ? & ? & ?) ?. exists h1, h2, c1, c2. split_and!; (done || lia). Qed.
Program Definition hp_wand (P Q : hprop) : hprop :=
  HProp (λ h c, ∀ h' c', h ##ₘ h' → P h' c' → Q (h ∪ h') (c + c')%nat) _.
Next Obligation. intros P Q h c c' H ? h' c'' ? ?. eapply hp_mono; [by apply H|lia]. Qed.
Definition hp_persistently (P : hprop) : hprop := hp_pure (hp_entails hp_emp P).
Definition hp_later (P : hprop) : hprop := P.

Lemma hp_bi_mixin : BiMixin hp_entails hp_emp hp_pure hp_and hp_or hp_impl (@hp_forall) (@hp_exist) hp_sep hp_wand.
Proof.
  split.
  - split; [by intros P; split|]. intros P Q R [H1] [H2]. split. eauto.
  - intros P Q. split; [intros [H]; split; split; intros h c; apply H|intros [[H1] [H2]]; split; intros h c; split; [apply H1|apply H2]].
  - intros n φ ψ H. split. intros h c. apply H.
  - intros n P P' [HP] Q Q' [HQ]. split. intros h c. split; intros [? ?]; split; by (apply HP || apply HQ).
  - intros n P P' [HP] Q Q' [HQ]. split. intros h c. split; (intros [?|?]; [left|right]); by (apply HP || apply HQ).
  - intros n P P' [HP] Q Q' [HQ]. split. intros h c. split; intros H c' ? ?; apply HQ, H; try done; by apply HP.
  - intros A n Ψ Ψ' H. split. intros h c. split; intros HA a; by apply (hp_iff_at _ _ (H a)).
  - intros A n Ψ Ψ' H. split. intros h c. split; intros [a HA]; exists a; by apply (hp_iff_at _ _ (H a)).
  - intros n P P' [HP] Q Q' [HQ]. split. intros h c. split; intros (h1 & h2 & c1 & c2 & ? & ? & ? & ? & ?); exists h1, h2, c1, c2; split_and!; try done; by (apply HP || apply HQ).
  - intros n P P' [HP] Q Q' [HQ]. split. intros h c. split; intros H h' c' ? ?; apply HQ, H; try done; by apply HP.
  - intros φ P H. by split.
  - intros φ P H. split. intros h c Hφ. by apply (hp_at (H Hφ)).
  - intros P Q. split. by intros h c [? ?].
  - intros P Q. split. by intros h c [? ?].
  - intros P Q R [H1] [H2]. split. intros h c HP. split; [by apply H1|by apply H2].
  - split. by left.
  - split. by right.
  - intros P Q R [H1] [H2]. split. intros h c [?|?]; [by apply H1|by apply H2].
  - intros P Q R [H]. split. intros h c HP c' Hc HQ. apply H. split; [by eapply hp_mono|done].
  - intros P Q R [H]. split. intros h c [HP HQ]. by eapply (H h c HP).
  - intros A P Ψ H. split. intros h c HP a. by apply (hp_at (H a)).
  - intros A Ψ a. split. intros h c H. apply H.
  - intros A Ψ a. split. intros h c H. by exists a.
  - intros A Φ Q H. split. intros h c [a HA]. by apply (hp_at (H a)).
  - intros P P' Q Q' [H1] [H2]. split. intros h c (h1 & h2 & c1 & c2 & ? & ? & ? & ? & ?). exists h1, h2, c1, c2. split_and!; auto.
  - intros P. split. intros h c HP. exists ∅, h, 0%nat, c. split_and!; try done; [by rw left_id_L|apply map_disjoint_empty_l].
  - intros P. split. intros h c (h1 & h2 & c1 & c2 & -> & ? & ? & -> & ?). rw left_id_L. eapply hp_mono; [done|lia].
  - intros P Q. split. intros h c (h1 & h2 & c1 & c2 & -> & ? & ? & ? & ?). exists h2, h1, c2, c1. split_and!; try done; try lia. by apply map_union_comm.
  - intros P Q R. split. intros h c (h1 & h2 & c1 & c2 & -> & Hd & ? & (h3 & h4 & c3 & c4 & -> & ? & ? & ? & ?) & ?).
    apply map_disjoint_union_l in Hd as [? ?]. exists h3, (h4 ∪ h2), c3, (c4 + c2)%nat. split_and!; try done; try lia.
    + by rw assoc_L.
    + by apply map_disjoint_union_r.
    + exists h4, h2, c4, c2. done.
  - intros P Q R [H]. split. intros h c HP h' c' Hd HQ. apply H. exists h, h', c, c'. done.
  - intros P Q R [H]. split. intros h c (h1 & h2 & c1 & c2 & -> & ? & ? & HP & HQ). eapply hp_mono; [by apply (H h1 c1)|done].
Qed.

Lemma hp_persistently_mixin : BiPersistentlyMixin hp_entails hp_emp hp_and (@hp_exist) hp_sep hp_persistently.
Proof.
  eapply bi_persistently_mixin_discrete, hp_bi_mixin; [done| |done].
  intros A Φ [H]. destruct (H ∅ 0%nat eq_refl) as [x Hx]. exists x. split. intros h c ->. eapply hp_mono; [done|lia].
Qed.
Lemma hp_later_mixin :
  BiLaterMixin hp_entails hp_pure hp_or hp_impl (@hp_forall) (@hp_exist) hp_sep hp_persistently hp_later.
Proof. eapply bi_later_mixin_id, hp_bi_mixin. done. Qed.

Canonical Structure hpropI : bi :=
  {| bi_ofe_mixin := ofe_mixin_of hprop; bi_bi_mixin := hp_bi_mixin;
     bi_bi_persistently_mixin := hp_persistently_mixin; bi_bi_later_mixin := hp_later_mixin |}.

(** ** Values and credits *)
Program Definition points_to (a : Z) (v : vrec) : hprop := HProp (λ h _, h = {[a := v]}) _.
Next Obligation. done. Qed.
Program Definition credit (n : nat) : hprop := HProp (λ h c, h = ∅ ∧ (n ≤ c)%nat) _.
Next Obligation. intros n h c c' [-> ?] ?. split; [done|lia]. Qed.

Notation "a ↦ v" := (points_to a v) (at level 20, format "a  ↦  v") : bi_scope.
Notation "£ n" := (credit n) (at level 20, n at level 9, format "£ n") : bi_scope.
(** A fact about the program: it takes nothing from the store. *)
Notation "⟦ φ ⟧" := (<affine> ⌜φ⌝)%I (at level 0, φ at level 200, format "⟦ φ ⟧") : bi_scope.

#[export] Instance credit_affine n : Affine (£n)%I.
Proof. split. intros h c [-> _]. done. Qed.

Lemma credit_split n m : (£(n + m) ⊣⊢ £n ∗ £m)%I.
Proof.
  apply bi.equiv_entails. split.
  - split. intros h c [-> Hc]. exists ∅, ∅, n, m. by split_and!.
  - split. intros h c (h1 & h2 & c1 & c2 & -> & _ & ? & [-> ?] & [-> ?]). split; [done|lia].
Qed.

Lemma credit_le n m : (m ≤ n)%nat → (£n ⊢ £m)%I.
Proof. intros Hle. split. intros h c [-> Hc]. split; [done|lia]. Qed.

(** An assertion that holds no credits. *)
Definition credit_free (P : hprop) : Prop := ∀ h c, P h c → P h 0%nat.
Lemma credit_free_sep P Q : credit_free P → credit_free Q → credit_free (P ∗ Q)%I.
Proof. intros HP HQ h c (h1 & h2 & c1 & c2 & -> & Hd & _ & H1 & H2). exists h1, h2, 0%nat, 0%nat. split_and!; eauto. Qed.
Lemma credit_free_exist {A} (Ψ : A → hprop) : (∀ x, credit_free (Ψ x)) → credit_free (∃ x, Ψ x)%I.
Proof. intros H h c [x Hx]. exists x. by eapply H. Qed.
Lemma credit_free_pure φ : credit_free ⟦φ⟧%I.
Proof. intros h c [H1 H2]. by split. Qed.
Lemma credit_free_points_to a v : credit_free (a ↦ v)%I.
Proof. intros h c H. exact H. Qed.
Lemma credit_free_False : credit_free False%I.
Proof. intros h c H. exact H. Qed.
Create HintDb credits.
#[export] Hint Resolve credit_free_sep credit_free_exist credit_free_pure credit_free_points_to credit_free_False : credits.

(** A part of the store that is owned is in it. *)
Lemma points_to_lookup a v (P : hprop) h c : (a ↦ v ∗ P)%I h c → h !! a = Some v.
Proof. intros (h1 & h2 & c1 & c2 & -> & ? & _ & -> & _). apply lookup_union_Some_l, lookup_insert_eq. Qed.

(** ** Plans *)
Section wp.
Context {S : Type} (inv : S → store → nat → Prop).

Program Definition wp {A} (m : M S A) (Φ : A → hprop) : hprop :=
  HProp (λ h c, ∀ s hf cf, h ##ₘ hf → inv s (h ∪ hf) (c + cf)%nat →
    ∃ a s' h' c', m s = (Ok a, s') ∧ h' ##ₘ hf ∧ inv s' (h' ∪ hf) (c' + cf)%nat ∧ Φ a h' c') _.
Next Obligation.
  intros A m Φ h c c2 H Hc s hf cf Hd Hi. destruct (H s hf (cf + (c2 - c))%nat Hd) as (a & s' & h' & c' & E & Hd' & Hi' & Ha).
  { by replace (c + (cf + (c2 - c)))%nat with (c2 + cf)%nat by lia. }
  exists a, s', h', (c' + (c2 - c))%nat. split_and!; try done; [|eapply hp_mono; [done|lia]].
  by replace (c' + (c2 - c) + cf)%nat with (c' + (cf + (c2 - c)))%nat by lia.
Qed.

Lemma wp_ret {A} (a : A) (Φ : A → hprop) : Φ a ⊢ wp (mret a) Φ.
Proof. split. intros h c H s hf cf Hd Hi. exists a, s, h, c. done. Qed.

Lemma wp_bind {A B} (m : M S A) (f : A → M S B) Φ : wp m (λ a, wp (f a) Φ) ⊢ wp (m ≫= f) Φ.
Proof.
  split. intros h c H s hf cf Hd Hi. destruct (H s hf cf Hd Hi) as (a & s' & h' & c' & E & Hd' & Hi' & Ha).
  destruct (Ha s' hf cf Hd' Hi') as (b & s'' & h'' & c'' & E' & ?). exists b, s'', h'', c''.
  by rw (M_bind_Ok _ _ _ _ _ E).
Qed.

Lemma wp_wand {A} (m : M S A) Φ Ψ : wp m Φ ⊢ (∀ a, Φ a -∗ Ψ a) -∗ wp m Ψ.
Proof.
  apply bi.wand_intro_r. split. intros h c (h1 & h2 & c1 & c2 & -> & Hd12 & Hc & H & HW) s hf cf Hd Hi.
  apply map_disjoint_union_l in Hd as [Hd1 Hd2].
  destruct (H s (h2 ∪ hf) (c - c1 + cf)%nat) as (a & s' & h' & c' & E & Hd' & Hi' & Ha).
  { by apply map_disjoint_union_r. }
  { by rw assoc_L (_ : c1 + (c - c1 + cf) = c + cf)%nat; [|lia]. }
  apply map_disjoint_union_r in Hd' as [Hd2' Hdf'].
  exists a, s', (h2 ∪ h'), (c - c1 + c')%nat. split_and!; [done|by apply map_disjoint_union_l| |].
  - rw (map_union_comm h2 h') // -assoc_L (_ : c - c1 + c' + cf = c' + (c - c1 + cf))%nat //. lia.
  - eapply hp_mono; [apply (HW a h' c'); [done|done]|lia].
Qed.

(** The first action of a plan, by what is known of it. *)
Lemma wp_seq {A B} (m : M S A) (f : A → M S B) Φ Ψ : wp m Ψ ⊢ (∀ a, Ψ a -∗ wp (f a) Φ) -∗ wp (m ≫= f) Φ.
Proof. iIntros "H K". iApply wp_bind. iApply (wp_wand with "H K"). Qed.

Lemma wp_lift {A} (o : outcome A) a Φ : o = Ok a → Φ a ⊢ wp (lift o) Φ.
Proof. intros ->. split. intros h c H s hf cf Hd Hi. exists a, s, h, c. done. Qed.

Lemma wp_lift_seq {A B} (o : outcome A) a (f : A → M S B) Φ : o = Ok a → wp (f a) Φ ⊢ wp (lift o ≫= f) Φ.
Proof. intros ->. iIntros "H". iApply wp_bind. by iApply wp_lift. Qed.

Lemma wp_ret_seq {A B} (a : A) (f : A → M S B) Φ : wp (f a) Φ ⊢ wp (mret a ≫= f) Φ.
Proof. iIntros "H". iApply wp_bind. by iApply wp_ret. Qed.

(** A plan that only reads: the result is known of every store that has the assertion as a part. *)
Lemma wp_reads {A} (P : hprop) (f : S → outcome A) a :
  (∀ s h c, (P ∗ True)%I h c → inv s h c → f s = Ok a) → P ⊢ wp (reads f) (λ x, ⟦x = a⟧ ∗ P).
Proof.
  intros Hf. split. intros h c HP s hf cf Hd Hi. exists a, s, h, c. unfold reads. rw (Hf s (h ∪ hf) (c + cf)%nat) //.
  - split_and!; try done. revert HP. apply hp_at. iIntros "$". done.
  - exists h, hf, c, cf. done.
Qed.
End wp.

(** [wstep] runs the first action of a plan: a lifted outcome, with its result, or a return. *)
Ltac wlift E := iApply (wp_lift_seq _ _ _ _ _ E); cbv beta iota.
Ltac wret := iApply wp_ret_seq; cbv beta iota.
