(* ===== verification/BTreeRep.v ===== *)
(** * B-trees in the store

    The plans for values as rules of the separation logic, and the assertion that a tree is in
    the store: its nodes, as their encodings, and its values. *)

From iris.proofmode Require Import proofmode.
From S2P Require Import Prelude IndexEntry IndexChunk Log Stats IndexTable ValueEntry File ValueTable ValueRead ValueInv ValueSpec Compress Column ColumnTables ColumnValues KeyOrder BTreeItems BTreeNode BTree BTreeShape BTreeCodec BTreeLogic BTreeStore.

(** Prove a postcondition of what is owned. *)
Ltac hown P := refine (hp_at (P := P) _ _ _ _); [|done].

Section rules.
Context (junk : bytes) (Hjunk : length junk = MAX_ENTRY_BUF_SIZE) `{HC : Compressors} `{HCO : !CompressorsOk HC}.
Context {col : Z} {rc : bool} {B : nat}.
Abbreviation WP := (wp (store_inv col rc B)).

Lemma own_frame a v w hf : ({[a := v]} : store) ##ₘ hf → ({[a := w]} : store) ##ₘ hf ∧
  ({[a := v]} ∪ hf) !! a = Some v ∧ <[a := w]> ({[a := v]} ∪ hf) = {[a := w]} ∪ hf ∧ delete a ({[a := v]} ∪ hf) = hf.
Proof.
  intros Hd. assert (hf !! a = None) as Hn by (by apply map_disjoint_singleton_l in Hd). split_and!.
  - by apply map_disjoint_singleton_l_2.
  - apply lookup_union_Some_l, lookup_insert_eq.
  - rw -!insert_union_singleton_l insert_insert_eq //.
  - rw -insert_union_singleton_l delete_insert_id //.
Qed.

Lemma wp_new comp v : (length v ≤ B)%nat →
  £1 ⊢ WP (write_new_value_plan junk comp NoHash v) (λ a, ∃ w, a ↦ w ∗ ⟦wf_address a ∧ new_value_of comp v w⟧).
Proof.
  intros Hv. split. intros h [|c] [-> Hc] s hf cf Hd Hi; [lia|]. rw left_id_L in Hi.
  destruct (new_value_run (c := c + cf) junk Hjunk comp v Hi Hv) as (a & s' & w & E & Hn & Ha & Hw & Hi').
  exists a, s', {[a := w]}, c. split_and!; try done.
  - by apply map_disjoint_singleton_l_2.
  - by rw -insert_union_singleton_l.
  - hown (a ↦ w)%I. iIntros "H". iExists w. by iFrame.
Qed.

Lemma wp_set {K} comp (k : K) v a w0 : wf_address a → (length v ≤ B)%nat →
  a ↦ w0 ∗ £1 ⊢ WP (write_existing_value_plan junk comp false NoHash a (OpSet k v) false)
    (λ '(_, o), ∃ w, default a o ↦ w ∗ ⟦wf_address (default a o) ∧ new_value_of comp v w ∧
                                      ((length v ≤ 12)%nat → Address_size_tier a = 0 → o = None)⟧).
Proof.
  intros Ha Hv. split. intros h c (h1 & h2 & c1 & c2 & -> & _ & Hc & -> & -> & Hc2) s hf cf Hd Hi. rw right_id_L in Hd Hi.
  destruct c as [|c]; [lia|]. destruct (own_frame a w0 w0 hf Hd) as (_ & Hl & _ & Hdel).
  destruct (set_value_run (c := c + cf) junk Hjunk comp k v a w0 Hi Hl Ha Hv) as (p & o & s' & w & E & Hn & Ha' & Hw & Hi' & Ho).
  rw Hdel in Hn Hi'. exists (p, o), s', {[default a o := w]}, c. split_and!; try done.
  - by apply map_disjoint_singleton_l_2.
  - by rw -insert_union_singleton_l.
  - hown (default a o ↦ w)%I. iIntros "H". iExists w. by iFrame.
Qed.

Lemma wp_change {K} comp (op : Operation K bytes) a w x (rcf : bool) :
  plain comp w = Ok x → (rcf = true → rc = true) → match op with OpSet _ _ => False | _ => True end →
  a ↦ w ⊢ WP (write_existing_value_plan junk comp false NoHash a op rcf)
    (λ '(kept, _), match spec_step rcf false op (Some (v_rc w, x)) with
                   | None => ⟦kept = None⟧
                   | Some (n, y) => a ↦ set_rc n w ∗ ⟦kept ≠ None ∧ y = x⟧
                   end).
Proof.
  intros Hx Hr Hop. split. intros h c -> s hf cf Hd Hi. destruct (own_frame a w w hf Hd) as (_ & Hl & _ & Hdel).
  destruct (change_value_run junk Hjunk comp op a w x rcf Hi Hl Hx Hr Hop) as (kept & s' & E & Hres).
  destruct (spec_step rcf false op (Some (v_rc w, x))) as [[n y]|].
  - destruct Hres as (Hk & Hy & Hi'). destruct (own_frame a w (set_rc n w) hf Hd) as (Hd' & _ & Hins & _). rw Hins in Hi'.
    exists (kept, None), s', {[a := set_rc n w]}, c. split_and!; try done.
    hown (a ↦ set_rc n w)%I. iIntros "$". done.
  - destruct Hres as (Hk & Hi'). rw Hdel in Hi'. exists (kept, None), s', ∅, c. rw left_id_L. split_and!; try done.
    apply map_disjoint_empty_l.
Qed.

Lemma wp_count {K} comp (k : K) v a w x : plain comp w = Ok x → rc = true →
  a ↦ w ⊢ WP (write_existing_value_plan junk comp false NoHash a (OpSet k v) true) (λ '(_, o), a ↦ set_rc (inc (v_rc w)) w ∗ ⟦o = None⟧).
Proof.
  intros Hx Hr. split. intros h c -> s hf cf Hd Hi. destruct (own_frame a w (set_rc (inc (v_rc w)) w) hf Hd) as (Hd' & Hl & Hins & _).
  destruct (count_value_run junk Hjunk comp k v a w x Hi Hl Hx Hr) as (s' & E & Hi'). rw Hins in Hi'.
  eexists _, s', _, c. split_and!; try done. hown (a ↦ set_rc (inc (v_rc w)) w)%I. iIntros "$". done.
Qed.
End rules.

(** ** Trees *)
Definition node_rec (ks : list SeparatorInner) (cs : list (option Z)) : vrec := mkVal 1 [] (node_bytes ks cs) false.

Section tree.
Context `{HC : Compressors} (comp : Compress) (K : nat).

(** A separator and its value; keys have at most [K] bytes. *)
Definition entry (k : SeparatorInner) (e : item) : hprop :=
  (∃ w, si_value k ↦ w ∗
    ⟦si_key k = e.1 ∧ wf_address (si_value k) ∧ (length (si_key k) ≤ K)%nat ∧ v_key w = [] ∧ reading comp w = Some e.2⟧)%I.

Section body.
Context (Sub : option Z → list item → hprop).

(** Separators and children in turn: the entries [l] are in order. *)
Fixpoint body (ks : list SeparatorInner) (cs : list (option Z)) (l : list item) : hprop :=
  (match ks, cs with
   | [], [c] => Sub c l
   | k :: ks', c :: cs' => ∃ l1 e l2, ⟦l = l1 ++ e :: l2⟧ ∗ Sub c l1 ∗ entry k e ∗ body ks' cs' l2
   | _, _ => False
   end)%I.

(** What is left of a part of a node, and what is right of it. *)
Fixpoint lefts (ks : list SeparatorInner) (cs : list (option Z)) (l : list item) : hprop :=
  (match ks, cs with
   | [], [] => ⟦l = []⟧
   | k :: ks', c :: cs' => ∃ l1 e l2, ⟦l = l1 ++ e :: l2⟧ ∗ Sub c l1 ∗ entry k e ∗ lefts ks' cs' l2
   | _, _ => False
   end)%I.
Fixpoint rights (ks : list SeparatorInner) (cs : list (option Z)) (l : list item) : hprop :=
  (match ks, cs with
   | [], [] => ⟦l = []⟧
   | k :: ks', c :: cs' => ∃ e l1 l2, ⟦l = e :: l1 ++ l2⟧ ∗ entry k e ∗ Sub c l1 ∗ rights ks' cs' l2
   | _, _ => False
   end)%I.

Lemma body_length ks cs l : body ks cs l ⊢ ⌜length cs = S (length ks)⌝.
Proof.
  iIntros "H". iInduction ks as [|k ks] "IH" forall (cs l); destruct cs as [|c cs]; simpl; try (by iDestruct "H" as "[]").
  - destruct cs; [done|by iDestruct "H" as "[]"].
  - iDestruct "H" as (l1 e l2) "(_ & _ & _ & H)". iDestruct ("IH" with "H") as %H. iPureIntro. lia.
Qed.

Lemma body_one c l : body [] [c] l ⊣⊢ Sub c l.
Proof. done. Qed.

Lemma body_join ks1 cs1 l1 k e ks2 cs2 l2 :
  body ks1 cs1 l1 ∗ entry k e ∗ body ks2 cs2 l2 ⊢ body (ks1 ++ k :: ks2) (cs1 ++ cs2) (l1 ++ e :: l2).
Proof.
  iIntros "(H1 & He & H2)". iInduction ks1 as [|k1 ks1] "IH" forall (cs1 l1); destruct cs1 as [|c1 cs1]; simpl; try (by iDestruct "H1" as "[]").
  - destruct cs1; [|by iDestruct "H1" as "[]"]. iExists l1, e, l2. by iFrame.
  - iDestruct "H1" as (la ea lb) "(-> & Hc & Hk & H1)". iExists la, ea, (lb ++ e :: l2). iFrame "Hc Hk".
    rw -app_assoc /=. iSplit; [done|]. iApply ("IH" with "H1 He H2").
Qed.

Lemma body_split ks1 cs1 k ks2 cs2 l : length cs1 = S (length ks1) →
  body (ks1 ++ k :: ks2) (cs1 ++ cs2) l ⊢ ∃ l1 e l2, ⟦l = l1 ++ e :: l2⟧ ∗ body ks1 cs1 l1 ∗ entry k e ∗ body ks2 cs2 l2.
Proof.
  iIntros (Hl) "H". iInduction ks1 as [|k1 ks1] "IH" forall (cs1 l Hl); destruct cs1 as [|c1 cs1]; simpl in *; try lia.
  - destruct cs1; [|simpl in *; lia]. simpl. iFrame.
  - iDestruct "H" as (la ea lb) "(-> & Hc & Hk & H)". iDestruct ("IH" with "[] H") as (l1 e l2) "(-> & H1 & He & H2)"; [iPureIntro; lia|].
    iExists (la ++ ea :: l1), e, l2. iFrame "H2 He". iSplit; [by rw -app_assoc|]. iExists la, ea, l1. by iFrame.
Qed.

Lemma body_zip_right km cm k2 c2 lm l2 : body km cm lm ∗ rights k2 c2 l2 ⊢ body (km ++ k2) (cm ++ c2) (lm ++ l2).
Proof.
  iIntros "[H HR]". iInduction k2 as [|k k2] "IH" forall (km cm lm c2 l2); destruct c2 as [|c c2]; simpl; try (by iDestruct "HR" as "[]").
  - iDestruct "HR" as %->. by rw !app_nil_r.
  - iDestruct "HR" as (e la lb) "(-> & He & Hc & HR)". rw !cons_middle !app_assoc.
    iApply ("IH" with "[H He Hc] HR"). iDestruct (body_join with "[$H $He Hc]") as "H"; [by iApply (body_one with "Hc")|].
    by rw -!app_assoc.
Qed.
Lemma body_unzip_one c k2 c2 l : length c2 = length k2 →
  body k2 (c :: c2) l ⊢ ∃ lm l2, ⟦l = lm ++ l2⟧ ∗ Sub c lm ∗ rights k2 c2 l2.
Proof.
  iIntros (H2) "H". iInduction k2 as [|k k2] "IH" forall (c c2 l H2); destruct c2 as [|c' c2]; simpl in *; try lia.
  - iExists l, []. rw app_nil_r. by iFrame.
  - iDestruct "H" as (l1 e l') "(-> & Hc & He & H)". iDestruct ("IH" with "[] H") as (lm l2) "(-> & Hm & HR)"; [iPureIntro; lia|].
    iExists l1, (e :: lm ++ l2). iFrame "Hc". iSplit; [done|]. iExists e, lm, l2. by iFrame.
Qed.
Lemma body_unzip_right km cm k2 c2 l : length cm = S (length km) → length c2 = length k2 →
  body (km ++ k2) (cm ++ c2) l ⊢ ∃ lm l2, ⟦l = lm ++ l2⟧ ∗ body km cm lm ∗ rights k2 c2 l2.
Proof.
  iIntros (Hm H2) "H". iInduction km as [|k km] "IH" forall (cm l Hm); destruct cm as [|c cm]; simpl in *; try lia.
  - destruct cm; [|simpl in *; lia]. by iApply body_unzip_one.
  - iDestruct "H" as (l1 e l') "(-> & Hc & He & H)". iDestruct ("IH" with "[] H") as (lm l2) "(-> & Hm & HR)"; [iPureIntro; lia|].
    iExists (l1 ++ e :: lm), l2. iFrame "HR". iSplit; [by rw -app_assoc|]. iExists l1, e, lm. by iFrame.
Qed.

(** The last entry left of a part. *)
Lemma lefts_snoc ks cs k c l : length cs = length ks →
  lefts (ks ++ [k]) (cs ++ [c]) l ⊢ ∃ l1 lc e, ⟦l = l1 ++ lc ++ [e]⟧ ∗ lefts ks cs l1 ∗ Sub c lc ∗ entry k e.
Proof.
  iIntros (Hl) "H". iInduction ks as [|k' ks] "IH" forall (cs l Hl); destruct cs as [|c' cs]; simpl in *; try lia.
  - iDestruct "H" as (lc e l2) "(-> & Hc & He & ->)". iExists [], lc, e. by iFrame.
  - iDestruct "H" as (la ea lb) "(-> & Hc & He & H)". iDestruct ("IH" with "[] H") as (l1 lc e) "(-> & H & Hs & Hk)"; [iPureIntro; lia|].
    iExists (la ++ ea :: l1), lc, e. iFrame "Hs Hk". iSplit; [by rw -!app_assoc|]. iExists la, ea, l1. by iFrame.
Qed.
Lemma lefts_push ks cs k c l1 lc e : lefts ks cs l1 ∗ Sub c lc ∗ entry k e ⊢ lefts (ks ++ [k]) (cs ++ [c]) (l1 ++ lc ++ [e]).
Proof.
  iIntros "(H & Hc & He)". iInduction ks as [|k' ks] "IH" forall (cs l1); destruct cs as [|c' cs]; simpl; try (by iDestruct "H" as "[]").
  - iDestruct "H" as "->". iExists lc, e, []. by iFrame.
  - iDestruct "H" as (la ea lb) "(-> & Hc' & He' & H)". iExists la, ea, (lb ++ lc ++ [e]). iFrame "Hc' He'". iSplit; [by rw -!app_assoc|].
    iApply ("IH" with "H Hc He").
Qed.
Lemma lefts_length ks cs l : lefts ks cs l ⊢ ⌜length cs = length ks⌝.
Proof.
  iIntros "H". iInduction ks as [|k ks] "IH" forall (cs l); destruct cs as [|c cs]; simpl; try (by iDestruct "H" as "[]"); [done|].
  iDestruct "H" as (l1 e l2) "(_ & _ & _ & H)". iDestruct ("IH" with "H") as %H. iPureIntro. lia.
Qed.
Lemma rights_length ks cs l : rights ks cs l ⊢ ⌜length cs = length ks⌝.
Proof.
  iIntros "H". iInduction ks as [|k ks] "IH" forall (cs l); destruct cs as [|c cs]; simpl; try (by iDestruct "H" as "[]"); [done|].
  iDestruct "H" as (l1 e l2) "(_ & _ & _ & H)". iDestruct ("IH" with "H") as %H. iPureIntro. lia.
Qed.

(** A node as a part in the middle with what is left and right of it. *)
Lemma body_zip k1 c1 l1 km cm lm k2 c2 l2 :
  lefts k1 c1 l1 ∗ body km cm lm ∗ rights k2 c2 l2 ⊢ body (k1 ++ km ++ k2) (c1 ++ cm ++ c2) (l1 ++ lm ++ l2).
Proof.
  iIntros "(HL & H & HR)". iInduction k1 as [|k k1] "IH" forall (c1 l1); destruct c1 as [|c c1]; simpl; try (by iDestruct "HL" as "[]").
  - iDestruct "HL" as %->. iApply (body_zip_right with "[$H $HR]").
  - iDestruct "HL" as (la e lb) "(-> & Hc & He & HL)". iExists la, e, (lb ++ lm ++ l2). iFrame "Hc He".
    iSplit; [by rw -app_assoc|]. iApply ("IH" with "HL H HR").
Qed.
Lemma body_unzip k1 c1 km cm k2 c2 l : length c1 = length k1 → length cm = S (length km) → length c2 = length k2 →
  body (k1 ++ km ++ k2) (c1 ++ cm ++ c2) l ⊢
  ∃ l1 lm l2, ⟦l = l1 ++ lm ++ l2⟧ ∗ lefts k1 c1 l1 ∗ body km cm lm ∗ rights k2 c2 l2.
Proof.
  iIntros (H1 Hm H2) "H". iInduction k1 as [|k k1] "IH" forall (c1 l H1); destruct c1 as [|c c1]; simpl in *; try lia.
  - iDestruct (body_unzip_right with "H") as (lm l2) "(-> & H & HR)"; [done..|]. iExists [], lm, l2. by iFrame.
  - iDestruct "H" as (la e l') "(-> & Hc & He & H)". iDestruct ("IH" with "[] H") as (l1 lm l2) "(-> & HL & Hm & HR)"; [iPureIntro; lia|].
    iExists (la ++ e :: l1), lm, l2. iFrame "HR Hm". iSplit; [by rw -app_assoc|]. iExists la, e, l1. by iFrame.
Qed.
End body.

(** A tree of height [d] under the address [oc], with at least [lo] entries in its root.  No
    tree is a tree of height 0. *)
Fixpoint subtree (d lo : nat) (oc : option Z) (l : list item) : hprop :=
  (match d with
   | O => ⟦oc = None ∧ l = []⟧
   | S d' => ∃ a ks cs, ⟦oc = Some a ∧ wf_address a ∧ (lo ≤ length ks ≤ ORDER)%nat⟧ ∗ a ↦ node_rec ks cs ∗ body (subtree d' (ORDER / 2)) ks cs l
   end)%I.
Abbreviation children d := (subtree d (ORDER / 2)).

Lemma subtree_le d lo lo' oc l : (lo' ≤ lo)%nat → subtree d lo oc l ⊢ subtree d lo' oc l.
Proof.
  intros Hle. destruct d as [|d]; simpl; [done|]. iIntros "H". iDestruct "H" as (a ks cs) "(%Hx & Ha & H)". destruct Hx as (-> & ? & ?).
  iExists a, ks, cs. iFrame. iPureIntro. split_and!; (done || lia).
Qed.

(** What a node of a tree looks like. *)
Definition wf_kids (d : nat) (cs : list (option Z)) : Prop := Forall (λ c, wf_kid c ∧ (d = O ↔ c = None)) cs.
Lemma subtree_kid d lo oc l : subtree d lo oc l ⊢ ⌜wf_kid oc ∧ (d = O ↔ oc = None)⌝.
Proof.
  destruct d as [|d]; simpl.
  - iIntros "%Hx". by destruct Hx as [-> _].
  - iIntros "H". iDestruct "H" as (a ks cs) "(%Hx & _)". by destruct Hx as (-> & ? & _).
Qed.
Definition wf_seps (ks : list SeparatorInner) : Prop := Forall (λ k, wf_sep k ∧ (length (si_key k) ≤ K)%nat) ks.
Lemma entry_wf k e : Z.of_nat K < 2 ^ 32 → entry k e ⊢ ⌜wf_sep k ∧ (length (si_key k) ≤ K)%nat⌝.
Proof. iIntros (HK) "H". iDestruct "H" as (w) "(_ & %Hx)". destruct Hx as (_ & ? & ? & _). iPureIntro. split; [split; [done|lia]|done]. Qed.
Lemma body_wf d ks cs l : Z.of_nat K < 2 ^ 32 → body (children d) ks cs l ⊢ ⌜wf_seps ks ∧ wf_kids d cs⌝.
Proof.
  iIntros (HK) "H". iInduction ks as [|k ks] "IH" forall (cs l); destruct cs as [|c cs]; simpl; try (by iDestruct "H" as "[]").
  - destruct cs; [|by iDestruct "H" as "[]"]. iDestruct (subtree_kid with "H") as %Hc. iPureIntro. split; by constructor.
  - iDestruct "H" as (l1 e l2) "(_ & Hc & He & H)". iDestruct ("IH" with "H") as %[? ?]. iDestruct (subtree_kid with "Hc") as %Hc.
    iDestruct (entry_wf with "He") as %?; [done|]. iPureIntro. split; by constructor.
Qed.

(** ** The place of a key *)
(** The entries right of a place begin with its separator. *)
Definition begins (ks : list SeparatorInner) (l : list item) : Prop :=
  match ks, l with [], [] => True | k :: _, e :: _ => e.1 = si_key k | _, _ => False end.
Lemma lefts_below d ks cs l key : ordered l → Forall (λ x, key_lt (si_key x) key) ks → lefts (children d) ks cs l ⊢ ⌜below key l⌝.
Proof.
  iIntros (Hl Hk) "H". iDestruct (lefts_length with "H") as %Hc. destruct ks as [|k ks _] using rev_ind.
  { destruct cs; [|done]. iDestruct "H" as %->. iPureIntro. constructor. }
  destruct cs as [|c cs _] using rev_ind; rw !length_app /= in Hc; [lia|].
  iDestruct (lefts_snoc with "H") as (l1 lc e) "(-> & _ & _ & He)"; [lia|]. iDestruct "He" as (w) "(_ & %Hx)". destruct Hx as [He _].
  iPureIntro. apply Forall_app in Hk as [_ Hk]. rw Forall_singleton He in Hk. rw app_assoc in Hl |- *.
  apply Forall_app. split; [|by apply Forall_singleton]. apply (ordered_below _ _ e [] Hl). by apply key_lt_asym.
Qed.

Lemma locate d k1 k2 cs l key : ordered l → Forall (λ x, key_lt (si_key x) key) k1 →
  body (children d) (k1 ++ k2) cs l ⊢ ∃ c1 c c2 l1 lm l2, ⟦cs = c1 ++ c :: c2 ∧ l = l1 ++ lm ++ l2 ∧ below key l1 ∧ begins k2 l2⟧ ∗
    lefts (children d) k1 c1 l1 ∗ children d c lm ∗ rights (children d) k2 c2 l2.
Proof.
  iIntros (Hl Hk) "H". iDestruct (body_length with "H") as %Hc. rw length_app in Hc.
  destruct (drop (length k1) cs) as [|c c2] eqn:E. { apply (f_equal length) in E. rw length_drop in E. simpl in E. lia. }
  rw -(take_drop (length k1) cs) E. assert (E' : length (c :: c2) = S (length k2)) by (rw -E length_drop; lia). injection E' as E'.
  iDestruct (body_unzip _ _ _ [] [c] with "H") as (l1 lm l2) "(-> & HL & Hc & HR)"; [rw length_take; lia|done|done|]. rw body_one.
  iDestruct (lefts_below _ _ _ _ key with "HL") as %Hb; [by apply ordered_app in Hl as [? _]|done|].
  iExists (take (length k1) cs), c, c2, l1, lm, l2. iAssert ⌜begins k2 l2⌝%I as %Hbe; [|by iFrame].
  destruct k2 as [|k k2], c2 as [|c' c2]; try done; [by iDestruct "HR" as %->|].
  iDestruct "HR" as (e la lb) "(-> & He & _)". iDestruct "He" as (w) "(_ & %Hx)". iPureIntro. destruct Hx as [He _]. by rw /= He.
Qed.

Lemma locate_hit d k1 x k2 cs l : ordered l →
  body (children d) (k1 ++ x :: k2) cs l ⊢ ∃ c1 c2 l1 e l2, ⟦cs = c1 ++ c2 ∧ length c1 = S (length k1) ∧ l = l1 ++ e :: l2 ∧ below (si_key x) l1 ∧ e.1 = si_key x⟧ ∗
    body (children d) k1 c1 l1 ∗ entry x e ∗ body (children d) k2 c2 l2.
Proof.
  iIntros (Hl) "H". iDestruct (body_length with "H") as %Hc. rw length_app /= in Hc. set (i := S (length k1)).
  assert (Hi : length (take i cs) = i) by (rw length_take; unfold i; lia). rw -{1}(take_drop i cs).
  iDestruct (body_split with "H") as (l1 e l2) "(-> & H1 & He & H2)"; [done|]. iExists (take i cs), (drop i cs), l1, e, l2.
  iAssert ⌜e.1 = si_key x⌝%I as %He. { iDestruct "He" as (w) "(_ & %Hx)". by destruct Hx as [-> _]. }
  iFrame. iPureIntro. split_and!; try done; [by rw take_drop|]. apply (ordered_below _ _ _ _ Hl). rw He. apply key_lt_irrefl.
Qed.

End tree.
