(* ===== verification/BTreeOps.v ===== *)
(** * B-trees: reading and writing nodes and separators

    The rules for the plans that load a node, write it back, create a separator for a value and
    insert a separator with its right child into a node, splitting the node if it is full. *)

From iris.proofmode Require Import proofmode.
From S2P Require Import Prelude IndexEntry IndexChunk Log Stats IndexTable ValueEntry File ValueTable ValueRead ValueInv ValueSpec Compress Column ColumnTables ColumnValues KeyOrder BTreeItems BTreeNode BTree BTreeShape BTreeCodec BTreeLogic BTreeStore BTreeRep.

(** The bytes of a node with keys of at most [K] bytes. *)
Definition node_size (K : nat) : nat := 8 * (K + 13) + 72.

Lemma node_bytes_length K ks cs :
  wf_seps K ks → (length (node_bytes ks cs) ≤ length ks * (K + 13) + 8 * length cs)%nat.
Proof.
  revert cs. induction ks as [|k ks IH]; intros [|c cs] Hw; cbn [node_bytes length]; try lia; rw length_app le_bytes_length; simpl; [lia|].
  apply Forall_cons in Hw as [[_ Hk] Hw]. rw length_app sep_bytes_length. specialize (IH cs Hw). case_bool_decide; lia.
Qed.

Lemma kids_uniform d cs : wf_kids d cs → uniform (negb (bool_decide (d = O))) cs.
Proof.
  induction 1 as [|c cs [_ Hc] _ IH]; case_bool_decide as Hd; simpl in *; try done; [by exists []| |].
  - rw (proj1 Hc Hd). by f_equal.
  - destruct IH as [ds ->]. destruct c as [a|]; [by exists (a :: ds)|]. exfalso. by apply Hd, Hc.
Qed.

Section ops.
Context (junk : bytes) (Hjunk : length junk = MAX_ENTRY_BUF_SIZE) `{HC : Compressors} `{HCO : !CompressorsOk HC}.
Context {col : Z} {B K : nat} {r : TreeRef} (HK : Z.of_nat K < 2 ^ 32) (HB : (node_size K ≤ B)%nat).
Abbreviation WP := (wp (store_inv col (tr_ref_counted r) B)).
Abbreviation entry := (entry (tr_compression r) K).
Abbreviation subtree := (subtree (tr_compression r) K).
Abbreviation children d := (subtree d (ORDER / 2)).
Abbreviation body d := (body (tr_compression r) K (children d)).

(** A node that is being worked on: what is stored at its address is this node, unless it has been
    marked as changed since it was loaded; a node that has no address yet is marked. *)
Definition home (oa : option Z) (n : Node) (ks : list SeparatorInner) (cs : list (option Z)) : hprop :=
  (match oa with
   | Some a => ∃ w, a ↦ w ∗ ⟦wf_address a ∧ v_comp w = false ∧ (nd_changed n = false → w = node_rec ks cs)⟧
   | None => ⟦nd_changed n = true⟧
   end)%I.
Definition loaded (d : nat) (n : Node) (oa : option Z) (ks : list SeparatorInner) (cs : list (option Z)) (l : list item) : hprop :=
  (home oa n ks cs ∗ ⟦shape n (Some <$> ks) cs⟧ ∗ body d ks cs l)%I.

Lemma home_kept oa n ks cs n' ks' cs' : (nd_changed n = true → nd_changed n' = true) → (nd_changed n' = false → ks' = ks ∧ cs' = cs) →
  home oa n ks cs ⊢ home oa n' ks' cs'.
Proof.
  iIntros (Hc He) "H". destruct oa as [a|]; [|iDestruct "H" as %Hn; iPureIntro; auto].
  iDestruct "H" as (w) "(Ha & %Hx)". destruct Hx as (? & ? & Hw). iExists w. iFrame. iPureIntro. split_and!; try done.
  intros Hn. destruct (He Hn) as [-> ->]. apply Hw. destruct (nd_changed n); [by rw Hc in Hn|done].
Qed.
Lemma loaded_changed d n oa ks cs n' ks' cs' l : shape n' (Some <$> ks') cs' → nd_changed n' = true →
  home oa n ks cs ∗ body d ks' cs' l ⊢ loaded d n' oa ks' cs' l.
Proof. iIntros (Hs Hn) "[Ha H]". iFrame "H". iSplit; [|done]. iApply (home_kept with "Ha"); [done|by rw Hn]. Qed.

Lemma body_facts d ks cs l : body d ks cs l ⊢ ⌜length cs = S (length ks) ∧ wf_seps K ks ∧ wf_kids d cs⌝.
Proof.
  iIntros "H". iDestruct (body_length with "H") as %?. iDestruct (body_wf with "H") as %[? ?]; [done|]. done.
Qed.

Lemma node_encoded n d ks cs : shape n (Some <$> ks) cs → length cs = S (length ks) → wf_seps K ks → wf_kids d cs →
  encode_node n = Ok (node_bytes ks cs) ∧ (length (node_bytes ks cs) ≤ B)%nat.
Proof.
  intros Hs Hl Hw Hc. split.
  - apply encode_node_spec; try done. eapply Forall_impl; [done|]. by intros k [? _].
  - pose proof (node_bytes_length K ks cs Hw) as Hn. pose proof (sh_seps_len Hs) as Ho. rw length_fmap in Ho.
    unfold node_size in HB. unfold ORDER in Ho. nia.
Qed.

(** A node as it is in the store. *)
Definition stored (d : nat) (a : Z) (ks : list SeparatorInner) (cs : list (option Z)) (l : list item) : hprop :=
  (⟦wf_address a ∧ (length ks ≤ ORDER)%nat⟧ ∗ a ↦ node_rec ks cs ∗ body d ks cs l)%I.
Lemma subtree_stored d lo oc l : subtree (S d) lo oc l ⊣⊢ ∃ a ks cs, ⟦oc = Some a ∧ (lo ≤ length ks)%nat⟧ ∗ stored d a ks cs l.
Proof.
  iSplit; iIntros "H".
  - iDestruct "H" as (a ks cs) "(%Hx & Ha & H)". destruct Hx as (-> & ? & ? & ?). iExists a, ks, cs. by iFrame.
  - iDestruct "H" as (a ks cs) "(%Hx & %Hy & Ha & H)". destruct Hx as [-> ?], Hy. iExists a, ks, cs. by iFrame.
Qed.
Lemma loaded_length d n oa ks cs l : loaded d n oa ks cs l ⊢ ⌜shape n (Some <$> ks) cs ∧ (length ks ≤ ORDER)%nat⌝.
Proof. iIntros "(_ & %Hs & _)". iPureIntro. split; [done|]. pose proof (sh_seps_len Hs) as H. by rw length_fmap in H. Qed.
Lemma unloaded d n a ks cs l : nd_changed n = false → loaded d n (Some a) ks cs l ⊢ stored d a ks cs l.
Proof.
  iIntros (Hn) "H". iDestruct (loaded_length with "H") as %[_ ?]. iDestruct "H" as "(Ha & _ & $)". iDestruct "Ha" as (w) "(Ha & %Hx)".
  destruct Hx as (? & _ & Hw). rw (Hw Hn). by iFrame.
Qed.

(** ** Loading a child *)
Lemma fetch_run i n so c1 a c2 ks cs d s h c :
  shape n so (c1 ++ Some a :: c2) → length c1 = i → length cs = S (length ks) → (length ks ≤ ORDER)%nat → wf_seps K ks → wf_kids d cs →
  (a ↦ node_rec ks cs ∗ True)%I h c → store_inv col (tr_ref_counted r) B s h c → ∀ child, from_encoded (node_bytes ks cs) = Ok child →
  fetch_child junk r i (vs_log s) (vs_tables s) n = Ok (Some child).
Proof.
  intros Hs Hc1 Hl Ho Hw Hc HP Hi child Ech. unfold fetch_child. destruct (kid_at Hs Hc1) as (x & Ex & Hx).
  rw (arr_get_ok _ _ _ Ex) /= Hx. unfold get_encoded_entry.
  rw (store_get junk Hjunk Hi (tr_compression r) (QCheck NoHash) a (node_rec ks cs)) //=; [by rw Ech|].
  by eapply points_to_lookup.
Qed.

Lemma wp_fetch {d i n so c1 a c2 ks cs l} : shape n so (c1 ++ Some a :: c2) → length c1 = i →
  stored d a ks cs l ⊢ WP (fetch junk r i n) (λ o, ∃ child, ⟦o = Some child ∧ nd_changed child = false⟧ ∗ loaded d child (Some a) ks cs l).
Proof.
  iIntros (Hs Hc1) "(%Hx & Ha & H)". destruct Hx as (Hwa & Hlo). iDestruct (body_facts with "H") as %(Hl & Hw & Hc).
  destruct (from_encoded_spec ks cs) as (child & Ech & Hsc & Hch); [done|lia| | |].
  { eapply Forall_impl; [done|]. by intros k [? _]. }
  { eapply Forall_impl; [done|]. by intros k [? _]. }
  iApply (wp_wand with "[Ha]").
  { iApply (wp_reads _ (a ↦ node_rec ks cs)%I _ (Some child) with "Ha"). intros s h c HP Hi. eapply (fetch_run _ _ _ _ _ _ _ _ d); try done; lia. }
  iIntros (o) "(-> & Ha)". iExists child. iSplit; [done|]. iFrame "H". iSplit; [|done]. iExists (node_rec ks cs). by iFrame.
Qed.

Lemma wp_fetch_none {i n so c1 c2} : shape n so (c1 ++ None :: c2) → length c1 = i →
  emp ⊢ WP (fetch junk r i n) (λ o, ⟦o = None⟧).
Proof.
  iIntros (Hs Hc1) "_". iApply (wp_wand with "[]").
  { iApply (wp_reads _ emp%I _ None); [|done]. intros s h c _ _. unfold fetch_child. destruct (kid_at Hs Hc1) as (x & Ex & Hx).
    by rw (arr_get_ok _ _ _ Ex) /= Hx. }
  iIntros (o) "[-> _]". done.
Qed.

(** ** Writing a node *)
Lemma wp_write_node d n a ks cs l :
  loaded d n (Some a) ks cs l ∗ £1 ⊢ WP (write_node_plan junk n (Some a))
    (λ o, default a o ↦ node_rec ks cs ∗ ⟦wf_address (default a o)⟧ ∗ body d ks cs l).
Proof.
  iIntros "[(Ha & %Hs & H) C]". iDestruct "Ha" as (w) "(Ha & %Hx)". destruct Hx as (Hwa & _ & Hw).
  iDestruct (body_facts with "H") as %(Hl & Hwk & Hc). destruct (node_encoded n d ks cs Hs Hl Hwk Hc) as [Een Hb].
  unfold write_node_plan. destruct (node_changed n) eqn:Hch; simpl.
  - wlift Een. iApply (wp_seq with "[Ha C]"); [iApply (wp_set junk Hjunk NO_COMPRESSION tt (node_bytes ks cs) a w with "[$Ha $C]"); done|].
    iIntros ([p o]) "Hr". iDestruct "Hr" as (w') "(Ha & %Hx)". destruct Hx as (Hwa' & (_ & _ & _ & Hrec) & _). rw (Hrec eq_refl).
    iApply wp_ret. by iFrame.
  - iApply wp_ret. unfold node_changed in Hch. apply orb_false_iff in Hch as [[Hch _]%orb_false_iff _]. rw (Hw Hch) /=. by iFrame.
Qed.

Lemma wp_write_child {d i child n so c1 a c2 ks cs l} :
  shape n so (c1 ++ Some a :: c2) → length c1 = i →
  loaded d child (Some a) ks cs l ∗ £1 ⊢ WP (write_child junk i child n)
    (λ n', ∃ a', ⟦shape n' so (c1 ++ Some a' :: c2) ∧ (nd_changed n = true → nd_changed n' = true) ∧
                 (nd_changed n' = false → a' = a)⟧ ∗ stored d a' ks cs l).
Proof.
  iIntros (Hs Hi) "[H C]". iDestruct (loaded_length with "H") as %Hlen. unfold write_child. destruct (nd_changed child) eqn:Hch.
  - destruct (kid_at Hs Hi) as (x & Ex & Hx). wlift (arr_get_ok _ _ _ Ex). rw Hx.
    iApply (wp_seq with "[H C]"); [iApply (wp_write_node with "[$H $C]")|]. iIntros (o) "(Ha & %Hwa & H)". destruct o as [a'|]; simpl in *.
    + rw (arr_set_ok _ _ _ (lookup_lt_Some _ _ _ Ex)). iApply wp_lift_seq; [done|]. iApply wp_ret. iExists a'. iFrame "Ha H". iSplit; [iPureIntro|by destruct Hlen].
      split_and!; try done. destruct (set_kid_shape (mkChild (ch_moved x) (Some a')) Hs Hi) as [? ? ? ?]. by split.
    + iApply wp_ret. iExists a. iFrame. by destruct Hlen.
  - iApply wp_ret. iExists a. iSplit; [done|]. by iApply unloaded.
Qed.

Lemma wp_write_new d n ks cs l : shape n (Some <$> ks) cs → nd_changed n = true →
  body d ks cs l ∗ £1 ⊢ WP (write_node_plan junk n None) (λ o, ∃ a, ⟦o = Some a⟧ ∗ stored d a ks cs l).
Proof.
  iIntros (Hs Hch) "[H C]". iDestruct (body_facts with "H") as %(Hl & Hwk & Hc). destruct (node_encoded n d ks cs Hs Hl Hwk Hc) as [Een Hb].
  unfold write_node_plan, node_changed. rw Hch /=. wlift Een. iApply (wp_seq with "[C]"); [by iApply (wp_new junk Hjunk with "C")|].
  iIntros (a) "Ha". iDestruct "Ha" as (w) "(Ha & %Hx)". destruct Hx as (Hwa & _ & _ & _ & Hrec). rw (Hrec eq_refl).
  iApply wp_ret. iExists a. iFrame. iPureIntro. pose proof (sh_seps_len Hs) as Hlen. by rw length_fmap in Hlen.
Qed.

Lemma wp_write_split d lo n ks cs l :
  shape n (Some <$> ks) cs → nd_changed n = true → (lo ≤ length ks)%nat →
  body d ks cs l ∗ £1 ⊢ WP (write_split_child junk None n) (λ c, subtree (S d) lo (ch_index c) l).
Proof.
  iIntros (Hs Hch Hlo) "[H C]". unfold write_split_child. iApply (wp_seq with "[H C]"); [by iApply (wp_write_new with "[$H $C]")|].
  iIntros (o) "H". iDestruct "H" as (a) "(-> & H)". iApply wp_ret. iApply subtree_stored. iExists a, ks, cs. by iFrame.
Qed.

Lemma wp_remove_node a w : v_comp w = false → a ↦ w ⊢ WP (write_plan_remove_node junk r a) (λ _, emp).
Proof.
  iIntros (Hc) "Ha". unfold write_plan_remove_node. iApply (wp_seq with "[Ha]").
  { iApply (wp_change junk Hjunk (tr_compression r) (OpDereference tt) a w (v_value w) false with "Ha"); [|done..]. unfold plain. by rw Hc. }
  iIntros ([kept o]) "_". by iApply wp_ret.
Qed.

(** ** Separators *)
Lemma entry_new k v w key : wf_address v → (length key ≤ K)%nat → new_value_of (tr_compression r) k w →
  v ↦ w ⊢ entry (mkInner key v) (key, (1, k)).
Proof.
  iIntros (Hv Hl (Hrc & Hk & Hp & _)) "H". iExists w. iFrame. iPureIntro. split_and!; try done. unfold reading. by rw Hp Hrc.
Qed.

Lemma wp_create_new key value : (length key ≤ K)%nat → (length value ≤ B)%nat →
  £1 ⊢ WP (create_separator junk r key value None) (λ s, ∃ k, ⟦sp_sep s = Some k⟧ ∗ entry k (key, (1, value))).
Proof.
  iIntros (Hk Hv) "C". unfold create_separator. iApply (wp_seq with "[C]"); [by iApply (wp_new junk Hjunk with "C")|].
  iIntros (a) "Ha". iDestruct "Ha" as (w) "(Ha & %Hx)". destruct Hx as (Hwa & Hw). iApply wp_ret. iExists (mkInner key a). iSplit; [done|].
  by iApply entry_new.
Qed.

Lemma reading_plain w p : reading (tr_compression r) w = Some p → plain (tr_compression r) w = Ok p.2 ∧ v_rc w = p.1.
Proof. unfold reading. destruct (plain _ w); naive_solver. Qed.

Lemma wp_create_existing k e value : (length value ≤ B)%nat →
  entry k e ∗ £1 ⊢ WP (create_separator junk r e.1 value (Some (si_value k)))
    (λ s, ∃ k' p, ⟦sp_sep s = Some k' ∧ spec_step (tr_ref_counted r) false (OpSet tt value) (Some e.2) = Some p⟧ ∗ entry k' (e.1, p)).
Proof.
  iIntros (Hv) "[H C]". iDestruct "H" as (w) "(Ha & %Hx)". destruct Hx as (Hk & Hwa & Hl & Hvk & Hrd).
  destruct (reading_plain w _ Hrd) as [Hp Hrc]. unfold create_separator. destruct e as [key [n x]]. simpl in *. destruct (tr_ref_counted r) eqn:Hr.
  - iApply (wp_seq _ _ _ _ (λ a, si_value k ↦ set_rc (inc (v_rc w)) w ∗ ⟦a = si_value k⟧)%I with "[Ha]").
    { iApply (wp_seq with "[Ha]"); [iApply (wp_count (rc := true) junk Hjunk (tr_compression r) tt value _ w x Hp eq_refl with "Ha")|].
      iIntros ([p o]) "(Ha & ->)". iApply wp_ret. by iFrame. }
    iIntros (a) "(Ha & ->)". iApply wp_ret. iExists (mkInner key (si_value k)), (inc n, x). iSplit; [done|].
    iExists (set_rc (inc (v_rc w)) w). iFrame. iPureIntro. rw -Hk. split_and!; try done. unfold reading, plain in *. simpl. by rw Hp Hrc.
  - iApply (wp_seq _ _ _ _ (λ a, ∃ w', a ↦ w' ∗ ⟦wf_address a ∧ new_value_of (tr_compression r) value w'⟧)%I with "[Ha C]").
    { iApply (wp_seq with "[Ha C]"); [by iApply (wp_set junk Hjunk (tr_compression r) tt value (si_value k) w with "[$Ha $C]")|].
      iIntros ([p o]) "H". iDestruct "H" as (w') "(Ha & %Hx)". destruct Hx as (? & ? & _). iApply wp_ret. iExists w'. by iFrame. }
    iIntros (a) "H". iDestruct "H" as (w') "(Ha & %Hx)". destruct Hx as [Ha' Hw']. iApply wp_ret. iExists (mkInner key a), (1, value). iSplit; [done|].
    iApply (entry_new with "Ha"); try done. by rw -Hk.
Qed.

(** A change of the value of a separator other than a new value. *)
Lemma wp_on_existing k e (op : Operation bytes bytes) : match op with OpSet _ _ => False | _ => True end →
  entry k e ⊢ WP (write_existing_value_plan junk (tr_compression r) false NoHash (si_value k) op (tr_ref_counted r))
    (λ '(kept, _), match spec_step (tr_ref_counted r) false op (Some e.2) with
                   | None => ⟦kept = None⟧
                   | Some p => entry k (e.1, p) ∗ ⟦kept ≠ None⟧
                   end).
Proof.
  iIntros (Hop) "H". iDestruct "H" as (w) "(Ha & %Hx)". destruct Hx as (Hk & Hwa & Hl & Hvk & Hrd).
  destruct (reading_plain w _ Hrd) as [Hp Hrc]. iApply (wp_wand with "[Ha]"); [by iApply (wp_change junk Hjunk _ op _ w e.2.2 _ Hp with "Ha")|].
  iIntros ([kept o]) "H". destruct e as [key [n x]]. simpl in *. rw Hrc. destruct (spec_step _ _ op _) as [[n' y]|]; [|done].
  iDestruct "H" as "[Ha %Hy]". destruct Hy as [Hkept ->]. iSplit; [|done]. iExists (set_rc n' w). iFrame. iPureIntro. split_and!; try done.
  unfold reading, plain in *. simpl. by rw Hp.
Qed.

(** ** Inserting a separator *)
(** A node with the entries [l], or a node and what has been split off it. *)
Definition split_post (d size : nat) (l : list item) (result : Split * Node) : hprop :=
  (∃ ks cs, ⟦shape result.2 (Some <$> ks) cs ∧ nd_changed result.2 = true⟧ ∗
    match result.1 with
    | None => ⟦length ks = size⟧ ∗ body d ks cs l
    | Some (s, c) => ∃ k l1 e l2, ⟦sp_sep s = Some k ∧ l = l1 ++ e :: l2 ∧ length ks = (ORDER / 2)%nat⟧ ∗
        body d ks cs l1 ∗ entry k e ∗ children (S d) (ch_index c) l2
    end)%I.

Lemma wp_split_off d size n' rgt sep k ks1 cs1 ks2 cs2 l :
  shape n' (Some <$> ks1) cs1 → nd_changed n' = true → shape rgt (Some <$> ks2) cs2 → nd_changed rgt = true → sp_sep sep = Some k →
  length ks1 = 4%nat → length ks2 = 4%nat → length cs1 = 5%nat →
  body d (ks1 ++ k :: ks2) (cs1 ++ cs2) l ∗ £1 ⊢ WP (c ← write_split_child junk None rgt; mret (Some (sep, c), n')) (split_post d size l).
Proof.
  iIntros (H1 C1 H2 C2 Hk L1 L2 Lc) "[H C]". iDestruct (body_split with "H") as (l1 e l2) "(-> & H1 & He & H2)"; [by rw L1|].
  iApply (wp_seq with "[H2 C]"); [iApply (wp_write_split d (ORDER / 2) with "[$H2 $C]"); [done..|by rw L2]|].
  iIntros (c) "H2". iApply wp_ret. iExists ks1, cs1. iSplit; [done|]. iExists k, l1, e, l2. by iFrame.
Qed.

(** The parts of a full node around the place [i]. *)
Lemma full_lt {A C} (k1 k2 : list A) (c2 : list C) : (length k1 < 4)%nat → (length k1 + length k2 = 8)%nat → length c2 = length k2 →
  ∃ k2a x k2b c2a c2b, k2 = k2a ++ x :: k2b ∧ c2 = c2a ++ c2b ∧ (length k1 + length k2a = 3)%nat ∧ length c2a = length k2a ∧ length k2b = 4%nat.
Proof.
  intros H1 H2 H3. set (m := (3 - length k1)%nat). destruct (drop m k2) as [|x k2b] eqn:E.
  { apply (f_equal length) in E. rw length_drop in E. unfold m in E. simpl in E. lia. }
  exists (take m k2), x, k2b, (take m c2), (drop m c2). rw -E !take_drop !length_take.
  assert (length (drop m k2) = S (length k2b)) as E' by (by rw E). rw length_drop in E'. unfold m in *. split_and!; (done || lia).
Qed.
Lemma full_gt {A C} (k1 : list A) (c1 : list C) : (4 < length k1)%nat → length c1 = S (length k1) →
  ∃ k1a x k1b c1a c1b, k1 = k1a ++ x :: k1b ∧ c1 = c1a ++ c1b ∧ length k1a = 4%nat ∧ length c1a = 5%nat.
Proof.
  intros H1 H2. destruct (drop 4 k1) as [|x k1b] eqn:E.
  { apply (f_equal length) in E. rw length_drop in E. simpl in E. lia. }
  exists (take 4 k1), x, k1b, (take 5 c1), (drop 5 c1). rw -E !take_drop !length_take. split_and!; (done || lia).
Qed.

Lemma wp_insert_node d i n sep k child k1 k2 c1 c2 l :
  shape n (Some <$> k1 ++ k2) (c1 ++ c2) → length k1 = i → length c1 = S i → d ≠ O → sp_sep sep = Some k →
  body d (k1 ++ k :: k2) (c1 ++ ch_index child :: c2) l ∗ £1 ⊢
  WP (insert_node junk i sep child n) (split_post d (S (length k1 + length k2)) l).
Proof.
  iIntros (Hs Hi Hc1 Hd Hk) "[H C]". iDestruct (body_facts with "H") as %(Hl & _ & Hc). rw !length_app /= in Hl.
  assert (Hc2 : length c2 = length k2) by lia. apply kids_uniform in Hc. rw bool_decide_false // /= in Hc.
  apply (uniform_app true) in Hc as [U1 [Uc U2]%(uniform_cons true)].
  assert (Hu : uniform true (c1 ++ c2)) by (by apply uniform_app).
  pose proof (sh_seps_len Hs) as Ho. rw length_fmap length_app in Ho. unfold insert_node.
  assert (Hhas : has_separator (ORDER - 1) n = Ok (bool_decide (ORDER - 1 < length (k1 ++ k2))%nat)) by (apply (has_separator_full Hs); compute; lia).
  rw length_app in Hhas. wlift Hhas. case_bool_decide as Hf; cbv zeta; change (ORDER / 2)%nat with 4%nat; change (4 - 1)%nat with 3%nat.
  - assert (Hfull : (length k1 + length k2 = ORDER)%nat) by (unfold ORDER in *; lia).
    destruct (Nat.compare_spec i 4) as [E4|H4|H4].
    + destruct (insert_full_eq Hs Hi Hc1 Hc2 Hu (ch := child) Uc Hfull E4) as (n' & rg & r' & E1 & E2 & H1 & H2 & G1 & G2).
      wlift E1. wlift E2. iApply (wp_split_off with "[$H $C]"); try done; unfold ORDER in *; lia.
    + destruct (full_lt k1 k2 c2) as (k2a & x & k2b & c2a & c2b & -> & -> & L3 & La & Lb); [lia|done|done|].
      destruct (insert_full_lt Hs Hi Hc1 Hc2 Hu Hk (ch := child) Uc Hfull k2a x k2b c2a c2b)
        as (n1 & rg & sep' & n2 & n3 & n4 & n5 & E1 & E2 & Ex & E3 & E4 & E5 & H5 & Hr & G5 & Gr); try done.
      wlift E1. wlift E2. wlift E3. wlift E4. wlift E5. rw (_ : k1 ++ k :: k2a ++ x :: k2b = (k1 ++ k :: k2a) ++ x :: k2b); [|by rw -app_assoc].
      rw (_ : c1 ++ ch_index child :: c2a ++ c2b = (c1 ++ ch_index child :: c2a) ++ c2b); [|by rw -app_assoc].
      iApply (wp_split_off with "[$H $C]"); try done; rw !length_app /=; lia.
    + destruct (full_gt k1 c1) as (k1a & x & k1b & c1a & c1b & -> & -> & L4 & L5); [lia|lia|].
      destruct (insert_full_gt Hs Hi Hc1 Hc2 Hu Hk (ch := child) Uc Hfull k1a x k1b c1a c1b)
        as (n1 & rg & sep' & n2 & E1 & E2 & Ex & H1 & H2 & G1 & G2); try done.
      wlift E1. wlift E2. rw -!app_assoc /=. iApply (wp_split_off with "[$H $C]"); try done.
      rw !length_app /= in Hfull, Hc1, Hi |- *. unfold ORDER in *. lia.
  - destruct (insert_room Hs Hi Hc1 Hc2 Hu Hk (ch := child) Uc) as (n1 & n2 & n3 & E1 & E2 & E3 & H3 & G3); [unfold ORDER in *; lia|].
    wlift E1. wlift E2. wlift E3. iApply wp_ret. iExists (k1 ++ k :: k2), (c1 ++ ch_index child :: c2). iFrame. iSplit; [done|].
    iPureIntro. rw length_app /=. lia.
Qed.

(** *** A new key in a leaf *)
Abbreviation lefts d := (lefts (tr_compression r) K (children d)).
Abbreviation rights d := (rights (tr_compression r) K (children d)).

Lemma leaf_entry k1 c1 l1 k2 c2 l2 k e :
  lefts 0 k1 c1 l1 ∗ entry k e ∗ rights 0 k2 c2 l2 ⊢ body 0 (k1 ++ k :: k2) ((c1 ++ [None]) ++ None :: c2) (l1 ++ e :: l2).
Proof.
  iIntros "(HL & He & HR)". rw -app_assoc. iApply (body_zip _ _ _ _ _ _ [k] [None; None] [e]). iFrame "HL HR".
  iExists [], e, []. iFrame. by iSplit.
Qed.

Lemma wp_insert_leaf i n key value k1 k2 c1 c2 l1 l2 :
  shape n (Some <$> k1 ++ k2) (c1 ++ None :: c2) → length k1 = i → length c1 = i → length c2 = length k2 →
  (length key ≤ K)%nat → (length value ≤ B)%nat →
  lefts 0 k1 c1 l1 ∗ rights 0 k2 c2 l2 ∗ £2 ⊢
  WP (insert_leaf junk r i key value n) (split_post 0 (S (length k1 + length k2)) (l1 ++ (key, (1, value)) :: l2)).
Proof.
  iIntros (Hs Hi Hc1 Hc2 Hkey Hval) "(HL & HR & C)". rw (credit_split 1 1). iDestruct "C" as "[C1 C2]".
  iAssert ⌜uniform false ((c1 ++ [None]) ++ c2)⌝%I with "[HL HR]" as %Hu.
  { iDestruct (body_zip _ _ _ _ _ _ [] [None] [] with "[$HL $HR]") as "H"; [by simpl|]. iDestruct (body_facts with "H") as %(_ & _ & Hc%kids_uniform).
    rw -app_assoc. done. }
  pose proof (sh_seps_len Hs) as Ho. rw length_fmap length_app in Ho. unfold insert_leaf. rw cons_middle app_assoc in Hs.
  assert (Hc1' : length (c1 ++ [None]) = S i) by (rw length_app /=; lia).
  assert (Huc : uniform false [ch_index (new_child None)]) by done.
  assert (Hhas : has_separator (ORDER - 1) n = Ok (bool_decide (ORDER - 1 < length (k1 ++ k2))%nat)) by (apply (has_separator_full Hs); compute; lia).
  rw length_app in Hhas. wlift Hhas. case_bool_decide as Hf; cbv zeta; change (ORDER / 2)%nat with 4%nat; change (4 - 1)%nat with 3%nat.
  - assert (Hfull : (length k1 + length k2 = ORDER)%nat) by (unfold ORDER in *; lia).
    iApply (wp_seq with "[C1]"); [by iApply (wp_create_new with "C1")|]. iIntros (s) "H". iDestruct "H" as (k) "(%Hk & He)".
    iDestruct (leaf_entry with "[$HL $He $HR]") as "H". destruct (Nat.compare_spec i 4) as [E4|H4|H4].
    + destruct (insert_full_eq Hs Hi Hc1' Hc2 Hu Huc Hfull E4) as (n' & rg & r' & E1 & [= ->] & H1 & H2 & G1 & G2).
      wlift E1. iApply (wp_split_off with "[$H $C2]"); try done; unfold ORDER in *; lia.
    + destruct (full_lt k1 k2 c2) as (k2a & x & k2b & c2a & c2b & -> & -> & L3 & La & Lb); [lia|done|done|].
      destruct (insert_full_lt Hs Hi Hc1' Hc2 Hu Hk Huc Hfull k2a x k2b c2a c2b)
        as (n1 & rg & sep' & n2 & n3 & n4 & n5 & E1 & E2 & Ex & E3 & E4 & [= ->] & H5 & Hr & G5 & Gr); try done.
      wlift E1. wlift E2. wlift E3. wlift E4. rw (_ : k1 ++ k :: k2a ++ x :: k2b = (k1 ++ k :: k2a) ++ x :: k2b); [|by rw -app_assoc].
      rw (_ : (c1 ++ [None]) ++ None :: c2a ++ c2b = ((c1 ++ [None]) ++ None :: c2a) ++ c2b); [|by rw -!app_assoc].
      iApply (wp_split_off with "[$H $C2]"); try done; rw !length_app /=; lia.
    + destruct (full_gt k1 (c1 ++ [None])) as (k1a & x & k1b & c1a & c1b & -> & Ec & L4 & L5); [lia|lia|]. rw Ec in Hs, Hu, Hc1' |- *.
      destruct (insert_full_gt Hs Hi Hc1' Hc2 Hu Hk Huc Hfull k1a x k1b c1a c1b)
        as (n1 & rg & sep' & n2 & E1 & E2 & Ex & H1 & H2 & G1 & G2); try done.
      wlift E1. wlift E2. rw -(app_assoc k1a) -(app_assoc c1a) -app_comm_cons. iApply (wp_split_off with "[$H $C2]"); try done.
      rw !length_app /= in Hfull, Hc1', Hi |- *. unfold ORDER in *. lia.
  - assert (Hroom : ∀ s k, sp_sep s = Some k → ∃ n1 n2, shift_from i false false n = Ok n1 ∧ set_separator i s n1 = Ok n2 ∧
      shape n2 (Some <$> k1 ++ k :: k2) ((c1 ++ [None]) ++ None :: c2) ∧ nd_changed n2 = true).
    { intros s k Hk. destruct (insert_room Hs Hi Hc1' Hc2 Hu Hk Huc) as (n1 & n2 & n3 & ? & ? & [= ->] & ? & ?); [unfold ORDER in *; lia|]. by exists n1, n3. }
    destruct (Hroom (mkSep true (Some (mkInner key 0))) _ eq_refl) as (n1 & _ & E1 & _).
    wlift E1. iApply (wp_seq with "[C1]"); [by iApply (wp_create_new with "C1")|]. iIntros (s) "H". iDestruct "H" as (k) "(%Hk & He)".
    destruct (Hroom s k Hk) as (n1' & n2 & E1' & E2 & H2 & G2). rw E1 in E1'. injection E1' as <-. wlift E2. iApply wp_ret.
    iExists (k1 ++ k :: k2), ((c1 ++ [None]) ++ None :: c2). iSplit; [done|]. iDestruct (leaf_entry with "[$HL $He $HR]") as "$".
    iPureIntro. rw length_app /=. lia.
Qed.
End ops.

#[global] Arguments home : simpl never.
