(* ===== verification/BTreeBalance.v ===== *)
(** * B-trees: rebalancing

    A child that has become too small takes an entry from a neighbour or is merged with it; the
    entries below the parent stay the same.  Taking the greatest entry out of a tree. *)

From iris.proofmode Require Import proofmode.
From S2P Require Import Prelude IndexEntry IndexChunk Log Stats IndexTable ValueEntry File ValueTable ValueRead ValueInv ValueSpec Compress Column ColumnTables ColumnValues KeyOrder BTreeItems BTreeNode BTree BTreeShape BTreeSiblings BTreeCodec BTreeLogic BTreeStore BTreeRep BTreeOps.

(** The size of a node before and after an operation that reports whether it is too small now. *)
Definition resized (balance : bool) (size size' : nat) : Prop :=
  if balance then (size' < 4 ∧ Nat.min 4 size ≤ S size')%nat else (Nat.min 4 size ≤ size')%nat.
Lemma resized_one size size' : (size ≤ S size')%nat → resized (bool_decide (size' < 4)%nat) size size'.
Proof. intros ?. unfold resized. case_bool_decide; lia. Qed.

Lemma resized_trans b size size' size'' : resized false size size' → resized b size' size'' → resized b size size''.
Proof. unfold resized. destruct b; lia. Qed.
Lemma resized_same size size' : (size ≤ size')%nat → resized false size size'.
Proof. unfold resized. lia. Qed.

Section balance.
Context (junk : bytes) (Hjunk : length junk = MAX_ENTRY_BUF_SIZE) `{HC : Compressors} `{HCO : !CompressorsOk HC}.
Context {col : Z} {B K : nat} {r : TreeRef} (HK : Z.of_nat K < 2 ^ 32) (HB : (node_size K ≤ B)%nat).
Abbreviation WP := (wp (store_inv col (tr_ref_counted r) B)).
Abbreviation entry := (entry (tr_compression r) K).
Abbreviation subtree := (subtree (tr_compression r) K).
Abbreviation children d := (subtree d (ORDER / 2)).
Abbreviation body d := (body (tr_compression r) K (children d)).
Abbreviation lefts d := (lefts (tr_compression r) K (children d)).
Abbreviation rights d := (rights (tr_compression r) K (children d)).
Abbreviation loaded := (loaded (K := K) (r := r)).
Abbreviation stored := (stored (K := K) (r := r)).
Abbreviation has_child d := (negb (bool_decide (d = O))).

(** Two neighbours have become the part [km], [cm] of their parent. *)
Definition balanced (d : nat) k1 k2 c1 c2 (l : list item) (n : Node) : hprop :=
  (∃ km cm, ⟦shape n (Some <$> k1 ++ km ++ k2) (c1 ++ cm ++ c2) ∧ nd_changed n = true ∧ (length km ≤ 1)%nat⟧ ∗ body (S d) km cm l)%I.

Lemma pair_body d al ar kl cl ll k e kr cr lr : (4 ≤ length kl)%nat → (4 ≤ length kr)%nat →
  stored d al kl cl ll ∗ entry k e ∗ stored d ar kr cr lr ⊢ body (S d) [k] [Some al; Some ar] (ll ++ e :: lr).
Proof.
  iIntros (Hl Hr) "(Hl & He & Hr)". iExists ll, e, lr. iFrame "He". iSplit; [done|]. iSplitL "Hl"; iApply subtree_stored; iExists _, _, _; by iFrame.
Qed.

(** Both neighbours are written back. *)
Lemma wp_write_pair d n k1 k k2 c1 al ar c2 lft kl cl ll e rgt kr cr lr :
  shape n (Some <$> k1 ++ k :: k2) (c1 ++ Some al :: Some ar :: c2) → length c1 = length k1 → nd_changed n = true →
  (4 ≤ length kl)%nat → (4 ≤ length kr)%nat →
  loaded d lft (Some al) kl cl ll ∗ entry k e ∗ loaded d rgt (Some ar) kr cr lr ∗ £2 ⊢
  WP (n ← write_child junk (length k1) lft n; write_child junk (S (length k1)) rgt n) (balanced d k1 k2 c1 c2 (ll ++ e :: lr)).
Proof.
  iIntros (Hs Hl Hch Hkl Hkr) "(Hl & He & Hr & C)". rw (credit_split 1 1). iDestruct "C" as "[C1 C2]".
  iApply (wp_seq with "[Hl C1]"); [by iApply (wp_write_child junk Hjunk HK HB with "[$Hl $C1]")|].
  iIntros (n1) "H". iDestruct "H" as (al') "(%Hx & Hl)". destruct Hx as (H1 & Hc1 & _). rw (cons_middle (Some al')) (app_assoc c1) in H1.
  iApply (wp_wand with "[Hr C2]"); [iApply (wp_write_child junk Hjunk HK HB with "[$Hr $C2]"); [done|rw length_app /=; lia]|].
  iIntros (n2) "H". iDestruct "H" as (ar') "(%Hx & Hr)". destruct Hx as (H2 & Hc2 & _). rw -(app_assoc c1) in H2.
  iExists [k], [Some al'; Some ar']. iSplit; [iPureIntro; split_and!; auto|]. by iApply (pair_body with "[$Hl $He $Hr]").
Qed.

(** An entry from the left neighbour. *)
Lemma wp_balance_left d n k1 k k2 c1 al ar c2 lft kl cl ll e kr cr lr :
  shape n (Some <$> k1 ++ k :: k2) (c1 ++ Some al :: Some ar :: c2) → length c1 = length k1 → (4 < length kl)%nat → (3 ≤ length kr < ORDER)%nat →
  loaded d lft (Some al) kl cl ll ∗ entry k e ∗ stored d ar kr cr lr ∗ £2 ⊢
  WP (balance_from_left junk r (has_child d) (S (length k1)) lft n) (balanced d k1 k2 c1 c2 (ll ++ e :: lr)).
Proof.
  iIntros (Hs Hl Hkl Hkr) "(Hl & He & Hr & C)". iDestruct "Hl" as "(Ha & %Hsl & H)".
  iDestruct (body_facts HK with "H") as %(Hcl & _ & Hu%kids_uniform).
  destruct (exists_last (l := kl)) as (kl0 & x & ->); [by destruct kl; simpl in *; [lia|]|].
  destruct (exists_last (l := cl)) as (cl0 & y & ->); [by destruct cl|]. rw !length_app /= in Hcl, Hkl.
  iDestruct (body_split _ _ _ kl0 cl0 x [] [y] with "H") as (l1 e1 l2) "(-> & Hl & Hx & Hy)"; [lia|].
  apply uniform_app in Hu as [_ Huy]. destruct (pop_back (hc := has_child d) x Hsl) as (o & m1 & s2 & lft' & E1 & E2 & Ht & Hs2 & Hsl' & Hcl'); [lia|done|].
  destruct (replace_separator k1 k k2 s2 x Hs Hs2) as (s & n1 & n2 & E3 & E4 & Hsk & Hn2 & Hc2). unfold balance_from_left.
  rw (last_separator_index_spec Hsl) (bool_decide_false (kl0 ++ [x] = [])); [|by intros [_ ?]%app_nil]. wret. rw length_app /= Nat.add_1_r /= Nat.sub_0_r. wlift E1. wlift E2. wlift E3. wlift E4.
  pose proof Hn2 as Hn2'. rw (cons_middle (Some al)) (app_assoc c1) in Hn2'.
  iApply (wp_seq with "[Hr]"); [iApply (wp_fetch junk Hjunk HK HB Hn2' with "Hr"); rw length_app /=; lia|].
  iIntros (or) "H". iDestruct "H" as (rgt) "(%Hx & H)". destruct Hx as [-> _]. wret.
  iDestruct "H" as "(Ha' & %Hsr & Hr)".
  iDestruct (body_facts HK with "Hr") as %(Hcr & _ & Hur%kids_uniform).
  destruct (push_front (y := y) o s k Hsr Hcr (proj2 Hkr) Hur Ht Hsk) as (r1 & r2 & r3 & E5 & E6 & E7 & Hr3 & Hcr3). wlift E5. wlift E6. wlift E7.
  rw -app_assoc /=. iApply (wp_write_pair d n2 k1 x k2 c1 al ar c2 lft' kl0 cl0 _ _ r3 (k :: kr) (y :: cr)); try done; simpl; try lia.
  iFrame "C Hx". iSplitL "Ha Hl"; [by iApply (loaded_changed with "[$Ha $Hl]")|].
  iApply (loaded_changed with "[$Ha' He Hr Hy]"); [done..|]. iApply (body_join _ _ _ [] [y]). iFrame.
Qed.

(** An entry from the right neighbour. *)
Lemma wp_balance_right d n k1 k k2 c1 al ar c2 kl cl ll e rgt kr cr lr :
  shape n (Some <$> k1 ++ k :: k2) (c1 ++ Some al :: Some ar :: c2) → length c1 = length k1 → (3 ≤ length kl < ORDER)%nat → (4 < length kr)%nat →
  stored d al kl cl ll ∗ entry k e ∗ loaded d rgt (Some ar) kr cr lr ∗ £2 ⊢
  WP (balance_from_right junk r (has_child d) (length k1) rgt n) (balanced d k1 k2 c1 c2 (ll ++ e :: lr)).
Proof.
  iIntros (Hs Hl Hkl Hkr) "(Hl & He & Hr & C)". iDestruct "Hr" as "(Ha & %Hsr & H)".
  iDestruct (body_facts HK with "H") as %(Hcr & _ & Hu%kids_uniform).
  destruct kr as [|x kr]; [simpl in *; lia|]. destruct cr as [|y cr]; [done|]. simpl in Hcr, Hkr.
  iDestruct "H" as (l1 e1 l2) "(-> & Hy & Hx & Hr)".
  destruct (pop_front x Hsr Hu) as (o & m1 & s2 & m2 & rgt' & E1 & E2 & E3 & Ht & Hs2 & Hsr' & Hcr').
  destruct (replace_separator k1 k k2 s2 x Hs Hs2) as (s & n1 & n2 & E4 & E5 & Hsk & Hn2 & Hc2). unfold balance_from_right.
  wlift E1. wlift E2. wlift E3. wlift E4. wlift E5. iApply (wp_seq with "[Hl]"); [by iApply (wp_fetch junk Hjunk HK HB Hn2 with "Hl")|].
  iIntros (ol) "H". iDestruct "H" as (lft) "(%Hx & H)". destruct Hx as [-> _]. wret.
  iDestruct "H" as "(Ha' & %Hsl & Hl)". iDestruct (body_facts HK with "Hl") as %(Hcl & _).
  destruct (push_back (y := y) o s k Hsl Hcl (proj2 Hkl) Ht Hsk) as (m3 & lft' & E6 & E7 & Hsl' & Hcl'). cbv zeta. rw (number_separator_spec Hsl).
  wlift E6. wlift E7. rw (cons_middle e) app_assoc app_assoc.
  iApply (wp_write_pair d n2 k1 x k2 c1 al ar c2 lft' (kl ++ [k]) (cl ++ [y]) _ _ rgt' kr cr); try done; rw ?length_app /=; try lia.
  iFrame "C Hx". iSplitL "Ha' He Hl Hy"; [|by iApply (loaded_changed with "[$Ha $Hr]")].
  iApply (loaded_changed with "[$Ha' He Hl Hy]"); [done..|]. rw -app_assoc. iApply body_join. iFrame.
Qed.

(** All entries move to the left neighbour. *)
Lemma wp_merge d n k1 k k2 c1 al ar c2 lft kl cl ll e rgt kr cr lr :
  shape n (Some <$> k1 ++ k :: k2) (c1 ++ Some al :: Some ar :: c2) → length c1 = length k1 → uniform true c2 →
  (4 ≤ length kl + S (length kr) ≤ ORDER)%nat →
  loaded d lft (Some al) kl cl ll ∗ entry k e ∗ loaded d rgt (Some ar) kr cr lr ∗ £1 ⊢
  WP (merge_children junk r (has_child d) (length k1) (S (length k1)) lft rgt n) (balanced d k1 k2 c1 c2 (ll ++ e :: lr)).
Proof.
  iIntros (Hs Hl Hu2 Ho) "(Hl & He & Hr & C)". iDestruct "Hl" as "(Hal & %Hsl & Hl)".
  iDestruct "Hr" as "(Har & %Hsr & Hr)". iDestruct "Har" as (wr) "(Har & %Hx)". destruct Hx as (_ & Hwcr & _).
  iDestruct (body_facts HK with "Hl") as %(Hcl & _). iDestruct (body_facts HK with "Hr") as %(Hcr & _ & Hu%kids_uniform).
  rw fmap_app in Hs. destruct (remove_separator_spec (o := Some k) Hs (length_fmap _ _)) as (s & n1 & E1 & Hsk & H1 & Hc1).
  destruct (merge_spec (has_child d) lft kl cl s k rgt kr cr Hsl Hcl Hsr Hcr Hu Hsk) as (l1 & l2 & r2 & o & r3 & l3 & E2 & E3 & E4 & E5 & H3 & Hc3); [lia|].
  rw (cons_middle (Some al)) app_assoc in H1. unfold merge_children. wlift E1. cbv zeta. rw (number_separator_spec Hsl) (number_separator_spec Hsr).
  destruct (remove_child_spec (i := S (length k1)) H1) as (x & n2 & E6 & Hrm & H2 & Hc2); [rw length_app /=; lia|].
  wlift E2. wlift E3. wlift E4. wlift E5. wlift E6. rw Hrm. rw -app_assoc in H2.
  iApply (wp_seq with "[Har]"); [by iApply (wp_remove_node junk Hjunk with "Har")|]. iIntros (_) "_".
  iDestruct (body_join with "[$Hl $He $Hr]") as "H". iApply (wp_seq with "[Hal H C]").
  { iApply (wp_write_child junk Hjunk HK HB (child := l3) H2 Hl with "[Hal H $C]"). by iApply (loaded_changed with "[$Hal $H]"). }
  iIntros (n3) "H". iDestruct "H" as (al') "(%Hx & H)". destruct Hx as (H4 & Hc4 & _).
  destruct (close_merged n3 k1 k2 c1 (Some al') c2 H4 Hl Hu2) as (n4 & E7 & Hc5 & H5). iApply (wp_lift _ _ n4); [done|].
  iExists [], [Some al']. iSplit; [iPureIntro; split_and!; (done || simpl; lia)|]. rw body_one. iApply subtree_stored. iExists _, _, _. iFrame. iPureIntro. rw length_app /=. split; [done|lia].
Qed.

(** ** The choice of the neighbour *)
Lemma wp_sibling d i n so c1 a c2 ks cs l : shape n so (c1 ++ Some a :: c2) → length c1 = i →
  stored d a ks cs l ⊢ WP (sibling junk r true i n)
    (λ '(o, b), ∃ x, ⟦o = Some x ∧ b = bool_decide (4 < length ks)%nat ∧ nd_changed x = false⟧ ∗ loaded d x (Some a) ks cs l).
Proof.
  iIntros (Hs Hi) "H". unfold sibling. iApply (wp_seq with "[H]"); [by iApply (wp_fetch junk Hjunk HK HB Hs Hi with "H")|].
  iIntros (o) "H". iDestruct "H" as (x) "(%Hx & H)". destruct Hx as [-> Hc]. iDestruct (loaded_length with "H") as %[Hsx _].
  wlift (has_separator_full Hsx (ORDER / 2) ltac:(compute; lia)). iApply wp_ret. iExists x. by iFrame.
Qed.

Lemma rights_uniform d ks cs l : rights (S d) ks cs l ⊢ ⌜uniform true cs⌝.
Proof.
  iIntros "H". iInduction ks as [|k ks] "IH" forall (cs l); destruct cs as [|c cs]; cbn [BTreeRep.rights]; try (by iDestruct "H" as "[]").
  { iPureIntro. by exists []. }
  iDestruct "H" as (e l1 l2) "(_ & _ & Hc & H)". iDestruct ("IH" with "H") as %[ds ->]. iDestruct (subtree_kid with "Hc") as %[_ Hd].
  destruct c as [a|]; [iPureIntro; by exists (a :: ds)|]. exfalso. assert (S d = O) by tauto. done.
Qed.

(** A neighbour on the right. *)
Lemma wp_rebalance_right d lft n k1 k k2 c1 a ar c2 ks cs lm e lr :
  shape n (Some <$> k1 ++ k :: k2) (c1 ++ Some a :: ar :: c2) → length c1 = length k1 → uniform true c2 → length ks = 3%nat →
  stored d a ks cs lm ∗ entry k e ∗ children (S d) ar lr ∗ £2 ⊢
  WP (rebalance_right junk r (has_child d) (length k1) lft n) (balanced d k1 k2 c1 c2 (lm ++ e :: lr)).
Proof.
  iIntros (Hs Hl Hu H3) "(Ha & He & Hr & C)". iDestruct (subtree_stored with "Hr") as (b kr cr) "(%Hx & Hr)". destruct Hx as [-> Hkr].
  pose proof Hs as Hs'. rw (cons_middle (Some a)) app_assoc in Hs'. unfold rebalance_right. cbv zeta.
  rw (number_separator_spec Hs) length_app (bool_decide_true (_ < _)%nat); [|simpl; lia].
  iApply (wp_seq with "[Hr]"); [iApply (wp_sibling with "Hr"); [done|rw length_app /=; lia]|].
  iIntros ([o bal]) "H". iDestruct "H" as (x) "(%Hx & Hr)". destruct Hx as (-> & -> & Hx). case_bool_decide as H4.
  - wret. iApply (wp_balance_right with "[$Ha $He $Hr $C]"); try done. unfold ORDER. lia.
  - rw (bool_decide_false (S _ = _)); [|simpl; lia]. iApply (wp_seq with "[Ha]"); [by iApply (wp_fetch junk Hjunk HK HB Hs Hl with "Ha")|].
    iIntros (o) "H". iDestruct "H" as (y) "(%Hy & H)". destruct Hy as [-> _]. wret. wret. wret.
    rw (credit_split 1 1). iDestruct "C" as "[C _]". iApply (wp_merge with "[$H $He $Hr $C]"); try done.
    change (ORDER / 2)%nat with 4%nat in Hkr. unfold ORDER. lia.
Qed.

(** The last child is merged with its left neighbour. *)
Lemma wp_rebalance_last d lft n k1 k c1 al a kl cl ll e ks cs lm :
  shape n (Some <$> k1 ++ [k]) (c1 ++ [Some al; Some a]) → length c1 = length k1 → length ks = 3%nat → length kl = 4%nat →
  loaded d lft (Some al) kl cl ll ∗ entry k e ∗ stored d a ks cs lm ∗ £2 ⊢
  WP (rebalance_right junk r (has_child d) (S (length k1)) (Some lft) n) (balanced d k1 [] c1 [] (ll ++ e :: lm)).
Proof.
  iIntros (Hs Hl H3 H4) "(Hl & He & Ha & C)". unfold rebalance_right. cbv zeta. rw (number_separator_spec Hs) length_app.
  pose proof Hs as Hs'. rw (cons_middle (Some al)) app_assoc in Hs'.
  rw (bool_decide_false (_ < _)%nat); [|simpl; lia]. wret. rw (bool_decide_true (S _ = _)); [|simpl; lia].
  iApply (wp_seq with "[Ha]"); [iApply (wp_fetch junk Hjunk HK HB Hs' with "Ha"); rw length_app /=; lia|].
  iIntros (o) "H". iDestruct "H" as (y) "(%Hy & H)". destruct Hy as [-> _]. rw (bool_decide_false (S _ = O)); [|done]. wret. wret.
  rw (_ : S (length k1) - 1 = length k1)%nat; [|lia]. rw (credit_split 1 1). iDestruct "C" as "[C _]".
  iApply (wp_merge with "[$Hl $He $H $C]"); try done; [by exists []|unfold ORDER; lia].
Qed.

(** A node with the entries [l], and not many fewer separators than [size]. *)
Definition rebalanced (d size : nat) (l : list item) (n : Node) : hprop :=
  (∃ ks cs, ⟦shape n (Some <$> ks) cs ∧ nd_changed n = true ∧ (size ≤ S (length ks))%nat ∧ (length ks ≤ size)%nat⟧ ∗ body d ks cs l)%I.

Lemma balanced_zip d k1 k2 c1 c2 l1 lm l2 n :
  lefts (S d) k1 c1 l1 ∗ rights (S d) k2 c2 l2 ∗ balanced d k1 k2 c1 c2 lm n ⊢ rebalanced (S d) (S (length k1 + length k2)) (l1 ++ lm ++ l2) n.
Proof.
  iIntros "(HL & HR & H)". iDestruct "H" as (km cm) "(%Hx & H)". destruct Hx as (? & ? & ?). iExists (k1 ++ km ++ k2), (c1 ++ cm ++ c2).
  iSplit; [|iApply body_zip; iFrame]. iPureIntro. rw !length_app. split_and!; (done || lia).
Qed.

Lemma wp_rebalance d n k1 k2 c1 a c2 ks cs l1 lm l2 :
  shape n (Some <$> k1 ++ k2) (c1 ++ Some a :: c2) → k1 ++ k2 ≠ [] → length ks = 3%nat →
  lefts (S d) k1 c1 l1 ∗ stored d a ks cs lm ∗ rights (S d) k2 c2 l2 ∗ £2 ⊢
  WP (rebalance junk r (S d) (length k1) n) (rebalanced (S d) (length (k1 ++ k2)) (l1 ++ lm ++ l2)).
Proof.
  iIntros (Hs Hne H3) "(HL & Ha & HR & C)". iDestruct (lefts_length with "HL") as %Hl1. iDestruct (rights_uniform with "HR") as %Hu.
  iDestruct (rights_length with "HR") as %Hl2.
  unfold rebalance. cbv zeta. change (S d - 1)%nat with (d - 0)%nat. rw Nat.sub_0_r.
  destruct k1 as [|k' k1' _] using rev_ind.
  - destruct c1; [|done]. iDestruct "HL" as "->". rw (bool_decide_false (_ < _)%nat); [|simpl; lia]. wret.
    destruct k2 as [|k k2], c2 as [|ar c2]; try done. iDestruct "HR" as (e lr l2') "(-> & He & Hr & HR)".
    apply (uniform_cons true) in Hu as [_ Hu]. iApply (wp_wand with "[Ha He Hr C]").
    { by iApply (wp_rebalance_right _ _ _ [] _ _ [] with "[$Ha $He $Hr $C]"). }
    iIntros (n') "H". iDestruct (balanced_zip _ _ _ _ _ [] with "[$H $HR]") as "H"; [by simpl|]. by rw -app_assoc /=.
  - destruct c1 as [|cx c1 _] using rev_ind; [rw length_app /= in Hl1; lia|]. rw !length_app /= in Hl1.
    iDestruct (lefts_snoc with "HL") as (l0 lc e) "(-> & HL & Hc & He)"; [lia|].
    iDestruct (subtree_stored with "Hc") as (al kl cl) "(%Hx & Hc)". destruct Hx as [-> Hkl]. change (ORDER / 2)%nat with 4%nat in Hkl.
    rw -!app_assoc /= in Hs. rw length_app /= Nat.add_1_r (bool_decide_true (_ < _)%nat); [|lia]. rw -app_assoc /=.
    iApply (wp_seq with "[Hc]"); [iApply (wp_sibling with "Hc"); [done|lia]|].
    iIntros ([o b]) "H". iDestruct "H" as (x) "(%Hx & Hc)". destruct Hx as (-> & -> & Hx). case_bool_decide as H4.
    + wret. iApply (wp_wand with "[Hc He Ha C]"); [iApply (wp_balance_left with "[$Hc $He $Ha $C]"); try done; [lia|unfold ORDER; lia]|].
      iIntros (n') "H". iDestruct (balanced_zip with "[$HL $HR $H]") as "H". rw length_app /= -!app_assoc /= Nat.add_succ_r. done.
    + destruct k2 as [|k k2], c2 as [|ar c2]; try done.
      * iDestruct "HR" as "->". iApply (wp_wand with "[Hc He Ha C]"); [iApply (wp_rebalance_last with "[$Hc $He $Ha $C]"); try done; lia|].
        iIntros (n') "H". iDestruct (balanced_zip _ _ [] _ [] _ _ [] with "[$HL $H]") as "H"; [by simpl|]. rw length_app /= -!app_assoc /= Nat.add_succ_r. done.
      * iDestruct (unloaded with "Hc") as "Hc"; [done|]. iDestruct "HR" as (e' lr l2') "(-> & He' & Hr & HR)".
        apply (uniform_cons true) in Hu as [_ Hu]. rw (cons_middle k') app_assoc (cons_middle (Some al)) (app_assoc c1) in Hs.
        rw (_ : S (length k1') = length (k1' ++ [k'])); [|rw length_app /=; lia].
        iApply (wp_wand with "[Ha He' Hr C]"); [iApply (wp_rebalance_right with "[$Ha $He' $Hr $C]"); try done; rw !length_app /=; lia|].
        iIntros (n') "H". iDestruct (lefts_push _ _ _ k1' c1 k' (Some al) with "[$HL $He Hc]") as "HL".
        { iApply subtree_stored. iExists _, _, _. by iFrame. }
        iDestruct (balanced_zip with "[$HL $HR $H]") as "H". rw !length_app /= -!app_assoc /=. 
        rw (_ : length k1' + S (S (length k2)) = S (length k1' + 1 + length k2))%nat; [done|lia].
Qed.

(** ** Taking out the greatest entry *)
(** A rebalanced node, and whether it is too small. *)
Lemma wp_need_rebalance {A} d size l n (f : bool → A) :
  rebalanced d size l n ⊢ WP (b ← lift (need_rebalance n); mret (f b))
    (λ x, ∃ b ks cs, ⟦x = f b ∧ shape n (Some <$> ks) cs ∧ nd_changed n = true ∧ resized b size (length ks)⟧ ∗ body d ks cs l).
Proof.
  iIntros "H". iDestruct "H" as (ks cs) "(%Hx & H)". destruct Hx as (Hs & Hc & H1 & H2). wlift (need_rebalance_spec Hs). iApply wp_ret.
  iExists _, ks, cs. iFrame. iPureIntro. split_and!; try done. by apply resized_one.
Qed.

(** A child is written back, and if it is too small it is rebalanced. *)
Lemma wp_put_back {A} d n oa k1 k2 c1 ac c2 child kc cc size b l1 lm l2 (f : bool → Node → A) :
  shape n (Some <$> k1 ++ k2) (c1 ++ Some ac :: c2) → k1 ++ k2 ≠ [] → (4 ≤ size)%nat → resized b size (length kc) →
  home oa n (k1 ++ k2) (c1 ++ Some ac :: c2) ∗ lefts (S d) k1 c1 l1 ∗ loaded d child (Some ac) kc cc lm ∗ rights (S d) k2 c2 l2 ∗ £3 ⊢
  WP (n ← write_child junk (length k1) child n;
      if b then n ← rebalance junk r (S d) (length k1) n; b ← lift (need_rebalance n); mret (f b n) else mret (f b n))
    (λ x, ∃ b n' ks cs, ⟦x = f b n' ∧ resized b (length (k1 ++ k2)) (length ks)⟧ ∗ loaded (S d) n' oa ks cs (l1 ++ lm ++ l2)).
Proof.
  iIntros (Hs Hne Hsz Hb) "(Ha & HL & H & HR & C)". rw (credit_split 1 2). iDestruct "C" as "[C1 C2]".
  iDestruct (lefts_length with "HL") as %Hl.
  iApply (wp_seq with "[H C1]"); [by iApply (wp_write_child junk Hjunk HK HB Hs Hl with "[$H $C1]")|].
  iIntros (n1) "H". iDestruct "H" as (ac') "(%Hx & H)". destruct Hx as (H1 & Hc1 & Hc2). destruct b.
  - destruct Hb as [Hb1 Hb2]. iApply (wp_seq with "[HL HR H C2]"); [iApply (wp_rebalance with "[$HL $H $HR $C2]"); (done || lia)|].
    iIntros (n2) "H". iApply (wp_wand with "[H]"); [iApply (wp_need_rebalance _ _ _ _ (λ b, f b n2) with "H")|].
    iIntros (x) "H". iDestruct "H" as (b ks' cs') "(%Hx & H)". destruct Hx as (-> & H2 & Hc3 & Hsz').
    iExists b, n2, ks', cs'. iSplit; [done|]. by iApply (loaded_changed with "[$Ha $H]").
  - iApply wp_ret. unfold resized in Hb. iExists false, n1, (k1 ++ k2), (c1 ++ Some ac' :: c2).
    iSplit; [iPureIntro; split; [done|unfold resized; lia]|]. iSplitL "Ha"; [|iSplit; [done|]].
    + iApply (home_kept with "Ha"); [done|]. intros Hc. by rw (Hc2 Hc).
    + iApply (body_zip _ _ _ k1 c1 l1 [] [Some ac'] lm k2 c2 l2 with "[$HL H $HR]"). rw body_one. iApply subtree_stored.
      iExists _, _, _. iFrame. iPureIntro. split; [done|]. change (ORDER / 2)%nat with 4%nat. lia.
Qed.

Definition last_post (d : nat) (oa : option Z) (size : nat) (l : list item) : bool * option Separator * Node → hprop :=
  (λ '(b, o, n), ∃ ks cs s k e l', ⟦o = Some s ∧ sp_sep s = Some k ∧ l = l' ++ [e] ∧ resized b size (length ks)⟧ ∗ loaded d n oa ks cs l' ∗ entry k e)%I.

Lemma wp_remove_last_leaf n oa ks cs l : ks ≠ [] →
  loaded 0 n oa ks cs l ⊢ WP (remove_last junk r 0 n) (last_post 0 oa (length ks) l).
Proof.
  iIntros (Hne) "(Ha & %Hs & H)".
  iDestruct (body_facts HK with "H") as %(Hl & _ & Hu%kids_uniform). cbn [remove_last]. rw (last_separator_index_spec Hs) bool_decide_false //.
  destruct (exists_last Hne) as (k0 & x & ->). destruct (exists_last (l := cs)) as (c0 & y & ->); [by destruct cs|]. rw !length_app /= in Hl.
  iDestruct (body_split _ _ _ k0 c0 x [] [y] with "H") as (l1 e l2) "(-> & H & He & Hy)"; [lia|]. iDestruct "Hy" as %[-> ->].
  apply (uniform_app false) in Hu as [_ Huy]. destruct (pop_back (hc := false) x Hs) as (o & n0 & s & n1 & [= <- <-] & E & _ & Hx & H1 & Hc); [lia|done|].
  rw (_ : pred (length (k0 ++ [x])) = length k0); [|rw length_app /=; lia]. wlift E. wlift (need_rebalance_spec H1). iApply wp_ret. iExists k0, c0, s, x, e, l1. iFrame "He".
  iSplit; [iPureIntro; split_and!; try done; apply resized_one; rw length_app /=; lia|]. iApply (loaded_changed with "[$Ha $H]"); done.
Qed.

Lemma wp_remove_last d : ∀ n oa ks cs l, ks ≠ [] →
  loaded d n oa ks cs l ∗ £(3 * d) ⊢ WP (remove_last junk r d n) (last_post d oa (length ks) l).
Proof.
  induction d as [|d IH]; iIntros (n oa ks cs l Hne) "[H C]"; [by iApply wp_remove_last_leaf|].
  iDestruct "H" as "(Ha & %Hs & H)".
  iDestruct (body_facts HK with "H") as %(Hl & _). cbn [remove_last]. rw (last_separator_index_spec Hs) bool_decide_false //.
  rw (_ : S (pred (length ks)) = length ks); [|destruct ks; [done|simpl; lia]].
  destruct (exists_last (l := cs)) as (c0 & y & ->); [by destruct cs|]. rw length_app /= Nat.add_1_r in Hl. injection Hl as Hl.
  rw (_ : body (S d) ks (c0 ++ [y]) l = body (S d) (ks ++ [] ++ []) (c0 ++ [y] ++ []) l); [|by rw !app_nil_r].
  iDestruct (body_unzip with "H") as (l1 lm l2) "(-> & HL & H & ->)"; [done..|]. rw body_one app_nil_r.
  iDestruct (subtree_stored with "H") as (ac kc cc) "(%Hx & H)". destruct Hx as [-> Hkc]. change (ORDER / 2)%nat with 4%nat in Hkc.
  iApply (wp_seq with "[H]"); [by iApply (wp_fetch junk Hjunk HK HB Hs Hl with "H")|].
  iIntros (o) "H". iDestruct "H" as (child) "(%Hx & H)". destruct Hx as [-> _].
  rw (_ : 3 * S d = 3 * d + 3)%nat; [|lia]. rw (credit_split (3 * d)). iDestruct "C" as "(C & C3)".
  iApply (wp_seq with "[H C]"); [iApply (IH with "[$H $C]"); by destruct kc; simpl in *; [lia|]|].
  iIntros ([[b o] child']) "H". iDestruct "H" as (kc' cc' s k e lm') "(%Hx & H & He)". destruct Hx as (-> & Hsk & -> & Hb).
  iApply (wp_wand with "[Ha HL H C3]").
  { iApply (wp_put_back d n oa ks [] c0 ac [] child' kc' cc' (length kc) b l1 lm' [] (λ b n, (b, Some s, n)) with "[Ha $HL $H $C3]");
      rw ?app_nil_r; try done. iFrame "Ha". by simpl. }
  iIntros (x) "H". iDestruct "H" as (b' n' ks' cs') "(%Hx & H)". destruct Hx as (-> & Hsz). rw !app_nil_r in Hsz |- *.
  iExists ks', cs', s, k, e, (l1 ++ lm'). iFrame. iPureIntro. by rw -app_assoc.
Qed.
End balance.
