(* ===== verification/BTreeChange.v ===== *)
(** * B-trees: changes

    The recursion that takes the changes of a record down the tree.  [change_post] says what a
    change of a node returns: a beginning of the changes has been made below the node, as the
    specification has it, and the node is still one of a balanced tree, has been split, or is
    reported as too small. *)

From stdpp Require Import sorting.
From iris.proofmode Require Import proofmode.
From S2P Require Import Prelude IndexEntry IndexChunk Log Stats IndexTable ValueEntry File ValueTable ValueRead ValueInv ValueSpec Compress Column ColumnTables ColumnValues KeyOrder BTreeItems BTreeNode BTree BTreeShape BTreeSiblings BTreeCodec BTreeLogic BTreeStore BTreeRep BTreeOps BTreeBalance.

Section change.
Context (junk : bytes) (Hjunk : length junk = MAX_ENTRY_BUF_SIZE) `{HC : Compressors} `{HCO : !CompressorsOk HC}.
Context {col : Z} {B K : nat} {r : TreeRef} (HK : Z.of_nat K < 2 ^ 32) (HB : (node_size K ≤ B)%nat).
Abbreviation WP := (wp (store_inv col (tr_ref_counted r) B)).
Abbreviation entry := (entry (tr_compression r) K).
Abbreviation subtree := (subtree (tr_compression r) K).
Abbreviation children d := (subtree d (ORDER / 2)).
Abbreviation body d := (body (tr_compression r) K (children d)).
Abbreviation lefts d := (lefts (tr_compression r) K (children d)).
Abbreviation rights d := (rights (tr_compression r) K (children d)).
Abbreviation loaded := (loaded (K := K) (r := r)).
Abbreviation stored := (stored (K := K) (r := r)).
Abbreviation rebalanced := (rebalanced (K := K) (r := r)).
Abbreviation step := (item_step (tr_ref_counted r)).
Abbreviation steps := (item_steps (tr_ref_counted r)).

(** ** A separator loses its value *)
Lemma wp_close_gap_leaf n k1 x k2 c1 c2 l1 l2 : shape n (Some <$> k1 ++ x :: k2) (c1 ++ c2) → length c1 = S (length k1) →
  body 0 k1 c1 l1 ∗ body 0 k2 c2 l2 ⊢ WP (close_gap junk r 0 (length k1) n) (rebalanced 0 (length (k1 ++ x :: k2)) (l1 ++ l2)).
Proof.
  iIntros (Hs Hc1) "[H1 H2]". iDestruct (body_facts HK with "H1") as %(_ & _ & U1%kids_uniform).
  iDestruct (body_facts HK with "H2") as %(Hc2 & _ & U2%kids_uniform). simpl in U1, U2.
  destruct (exists_last (l := c1)) as (c1' & y & ->); [by destruct c1|]. destruct c2 as [|z c2]; [done|]. simpl in Hc2. rw length_app /= in Hc1.
  rw (_ : body 0 k1 (c1' ++ [y]) l1 = body 0 (k1 ++ [] ++ []) (c1' ++ [y] ++ []) l1); [|by rw !app_nil_r].
  iDestruct (body_unzip with "H1") as (la lm lb) "(-> & HL & H1 & ->)"; [lia|done|done|]. rw app_nil_r.
  iDestruct (body_unzip_one with "H2") as (lm' l2') "(-> & Hz & HR)"; [lia|]. iDestruct "Hz" as %[-> ->]. iDestruct "H1" as %[-> ->]. rw app_nil_r.
  unfold close_gap. rw fmap_app in Hs. destruct (remove_separator_spec (o := Some x) Hs (length_fmap _ _)) as (s & n1 & E1 & _ & H1 & _).
  wlift E1. rw bool_decide_false; [|tauto]. destruct (remove_from_spec n1 (Some <$> k1) k2 _ (length k1) H1 (length_fmap _ _)) as [Hleaf _].
  destruct (Hleaf true) as (n2 & E2 & Hc & H2). rw -app_assoc in H2. iApply wp_lift; [done|]. iExists (k1 ++ k2), (c1' ++ [None] ++ c2).
  iSplitR; [iPureIntro|iApply (body_zip _ _ _ k1 c1' la [] [None] [] k2 c2 l2' with "[$HL $HR]"); by simpl].
  rw !length_app /=. split_and!; [|done|lia..]. rw fmap_app. apply (uniform_app false) in U1 as [U1 _]. injection U2 as U2.
  assert (∃ i, c1' = replicate i None) as [i ->] by eauto. assert (∃ j, c2 = replicate j None) as [j ->] by eauto.
  pose proof (sh_kids_len H2) as Hk. rw !length_app /= !length_replicate in Hk. rw -(replicate_add i (S (S j))) in H2. apply (shape_leaf _ _ _ (i + S j)) in H2.
  - rw (replicate_add i) in H2. done.
  - lia.
Qed.

Lemma wp_close_gap_inner d n k1 x k2 c1 c2 l1 l2 : shape n (Some <$> k1 ++ x :: k2) (c1 ++ c2) → length c1 = S (length k1) →
  body (S d) k1 c1 l1 ∗ body (S d) k2 c2 l2 ∗ £(3 * S d) ⊢
  WP (close_gap junk r (S d) (length k1) n) (rebalanced (S d) (length (k1 ++ x :: k2)) (l1 ++ l2)).
Proof.
  iIntros (Hs Hc1) "(H1 & H2 & C)". iDestruct (body_facts HK with "H2") as %(Hc2 & _).
  destruct (exists_last (l := c1)) as (c1' & y & ->); [by destruct c1|]. destruct c2 as [|z c2]; [done|]. simpl in Hc2. rw length_app /= in Hc1.
  rw (_ : body (S d) k1 (c1' ++ [y]) l1 = body (S d) (k1 ++ [] ++ []) (c1' ++ [y] ++ []) l1); [|by rw !app_nil_r].
  iDestruct (body_unzip with "H1") as (la lm lb) "(-> & HL & H1 & ->)"; [lia|done|done|]. rw body_one !app_nil_r.
  iDestruct (subtree_stored with "H1") as (ac kc cc) "(%Hx & H1)". destruct Hx as [-> Hkc]. change (ORDER / 2)%nat with 4%nat in Hkc.
  iDestruct (body_unzip_one with "H2") as (lz l2') "(-> & Hz & HR)"; [lia|].
  unfold close_gap. rw fmap_app in Hs. destruct (remove_separator_spec (o := Some x) Hs (length_fmap _ _)) as (s & n1 & E1 & _ & H1 & Hch1).
  wlift E1. rw bool_decide_true; [|done]. rw -(app_assoc c1') /= in H1. rw (_ : S d - 1 = d)%nat; [|lia].
  iApply (wp_seq with "[H1]"); [iApply (wp_fetch junk Hjunk HK HB H1 with "H1"); lia|].
  iIntros (o) "H". iDestruct "H" as (child) "(%Hx & H)". destruct Hx as [-> _].
  rw (_ : 3 * S d = 3 * d + (1 + 2))%nat; [|lia]. rw (credit_split (3 * d)) (credit_split 1 2). iDestruct "C" as "(C & C1 & C2)".
  iApply (wp_seq with "[H C]"); [iApply (wp_remove_last junk Hjunk HK HB with "[$H $C]"); by destruct kc; simpl in *; [lia|]|].
  iIntros ([[b o] child']) "H". iDestruct "H" as (kc' cc' s' k e lm') "(%Hx & H & He)". destruct Hx as (-> & Hsk & -> & Hb).
  iApply (wp_seq with "[H C1]"); [iApply (wp_write_child junk Hjunk HK HB H1 with "[$H $C1]"); lia|].
  iIntros (n2) "H". iDestruct "H" as (ac') "(%Hx & H)". destruct Hx as (H2 & Hch2 & _).
  destruct (set_separator_spec s' H2 (length_fmap _ _)) as (n3 & E3 & H3 & Hch3). wlift E3. rw Hsk -fmap_cons -fmap_app in H3.
  iAssert (rights (S d) (k :: k2) (z :: c2) (e :: lz ++ l2')) with "[He Hz HR]" as "HR"; [iExists e, lz, l2'; by iFrame|].
  rw (_ : (la ++ lm' ++ [e]) ++ lz ++ l2' = la ++ lm' ++ e :: lz ++ l2'); [|by rw -!app_assoc]. rw (_ : length (k1 ++ x :: k2) = length (k1 ++ k :: k2)); [|by rw !length_app].
  destruct b.
  - destruct Hb as [Hb1 Hb2]. iApply (wp_rebalance junk Hjunk HK HB with "[$HL $H $HR $C2]"); try done; [|lia]. by intros [_ ?]%app_nil.
  - iApply wp_ret. iExists (k1 ++ k :: k2), (c1' ++ [Some ac'] ++ z :: c2). iSplit; [iPureIntro; split_and!; (done || lia)|].
    iApply (body_zip _ _ _ k1 c1' la [] [Some ac'] lm' with "[$HL H $HR]"). rw body_one. iApply subtree_stored.
    iExists _, _, _. iFrame. iPureIntro. split; [done|]. unfold resized in Hb. change (ORDER / 2)%nat with 4%nat. lia.
Qed.

Lemma wp_close_gap d n k1 x k2 c1 c2 l1 l2 : shape n (Some <$> k1 ++ x :: k2) (c1 ++ c2) → length c1 = S (length k1) →
  body d k1 c1 l1 ∗ body d k2 c2 l2 ∗ £(3 * d) ⊢ WP (close_gap junk r d (length k1) n) (rebalanced d (length (k1 ++ x :: k2)) (l1 ++ l2)).
Proof.
  intros Hs Hc1. destruct d as [|d]; [|by apply wp_close_gap_inner]. iIntros "(H1 & H2 & _)". iApply (wp_close_gap_leaf with "[$H1 $H2]"); done.
Qed.

(** ** What a change leaves of a node *)
Definition node_post (d : nat) (oa : option Z) (size : nat) (l : list item) (split : Split) (b : bool) (n : Node) : hprop :=
  (match split with
   | None => ∃ ks cs, ⟦resized b size (length ks)⟧ ∗ loaded d n oa ks cs l
   | Some (s, c) => ∃ ks cs k l1 e l2, ⟦sp_sep s = Some k ∧ l = l1 ++ e :: l2 ∧ length ks = 4%nat⟧ ∗
       loaded d n oa ks cs l1 ∗ entry k e ∗ children (S d) (ch_index c) l2
   end)%I.

Lemma split_node_post d oa n0 ks0 cs0 size size' l split n : (size ≤ size')%nat →
  home oa n0 ks0 cs0 ∗ split_post (K := K) (r := r) d size' l (split, n) ⊢ node_post d oa size l split false n.
Proof.
  iIntros (Hsz) "[Ha H]". iDestruct "H" as (ks cs) "(%Hx & H)". destruct Hx as [Hs Hc]. simpl in Hs, Hc. destruct split as [[s c]|].
  - iDestruct "H" as (k l1 e l2) "(%Hx & H & He & Hr)". iExists ks, cs, k, l1, e, l2. iFrame "He Hr". iSplit; [done|]. by iApply (loaded_changed with "[$Ha $H]").
  - iDestruct "H" as "[%Hk H]". iExists ks, cs. iSplit; [iPureIntro; unfold resized; lia|]. by iApply (loaded_changed with "[$Ha $H]").
Qed.

Lemma wp_after_child d n oa k1 k2 c1 ac c2 split b changes child size l1 lm l2 :
  shape n (Some <$> k1 ++ k2) (c1 ++ Some ac :: c2) → k1 ++ k2 ≠ [] → (4 ≤ size)%nat →
  home oa n (k1 ++ k2) (c1 ++ Some ac :: c2) ∗ lefts (S d) k1 c1 l1 ∗ node_post d (Some ac) size lm split b child ∗ rights (S d) k2 c2 l2 ∗ £3 ⊢
  WP (after_child junk r (S d) (length k1) (split, b, changes, child) n)
    (λ '(split', b', changes', n'), ⟦changes' = changes⟧ ∗ node_post (S d) oa (length (k1 ++ k2)) (l1 ++ lm ++ l2) split' b' n').
Proof.
  iIntros (Hs Hne Hsz) "(Ha & HL & H & HR & C)". unfold after_child. destruct split as [[s c]|].
  - iDestruct "H" as (ks cs k lm1 e lm2) "(%Hx & H & He & Hc)". destruct Hx as (Hk & -> & H4). iDestruct (lefts_length with "HL") as %Hl.
    rw (credit_split 1 2) (credit_split 1 1). iDestruct "C" as "(C1 & C2 & _)".
    iApply (wp_seq with "[H C1]"); [by iApply (wp_write_child junk Hjunk HK HB Hs Hl with "[$H $C1]")|].
    iIntros (n1) "H". iDestruct "H" as (ac') "(%Hx & H)". destruct Hx as (H1 & _ & _).
    iDestruct (body_zip _ _ _ k1 c1 l1 [k] [Some ac'; ch_index c] (lm1 ++ e :: lm2) k2 c2 l2 with "[$HL H He Hc $HR]") as "H".
    { iExists lm1, e, lm2. iFrame "He Hc". iSplit; [done|]. iApply subtree_stored. iExists _, _, _. iFrame. iPureIntro. by rw H4. }
    rw (_ : c1 ++ Some ac' :: c2 = (c1 ++ [Some ac']) ++ c2) in H1; [|by rw -app_assoc].
    rw (_ : c1 ++ [Some ac'; ch_index c] ++ c2 = (c1 ++ [Some ac']) ++ ch_index c :: c2); [|by rw -app_assoc].
    iApply (wp_seq with "[H C2]"); [iApply (wp_insert_node junk Hjunk HK HB with "[$H $C2]"); [done|done|rw length_app /=; lia|done|done]|].
    iIntros ([split n2]) "H". iApply wp_ret. iSplit; [done|]. iApply (split_node_post with "[$Ha $H]"). rw length_app. lia.
  - iDestruct "H" as (kc cc) "(%Hb & H)".
    iApply (wp_wand _ _ (λ x, ∃ b n' ks cs, ⟦x = (None, b, changes, n') ∧ resized b (length (k1 ++ k2)) (length ks)⟧ ∗
                                loaded (S d) n' oa ks cs (l1 ++ lm ++ l2))%I with "[Ha HL H HR C]").
    { iPoseProof (wp_put_back junk Hjunk HK HB d n oa k1 k2 c1 ac c2 child kc cc size b l1 lm l2 (λ b n, (None : Split, b, changes, n))
        with "[$Ha $HL $H $HR $C]") as "H"; [done..|]. by destruct b. }
    iIntros (x) "H". iDestruct "H" as (b' n' ks' cs') "(%Hx & H)". destruct Hx as [-> Hx]. iSplit; [done|]. iExists ks', cs'. by iFrame.
Qed.

(** ** Changes and bounds *)
(** The keys below a node are smaller than its right neighbour in the parent, the bound [hi]; the
    root has none. *)
Definition ok_change (c : Change) : Prop :=
  (length (Operation_key c) ≤ K)%nat ∧ match c with OpSet _ v => (length v ≤ B)%nat | _ => True end.
Definition upto (hi : option bytes) (key : bytes) : Prop := match hi with Some h => key_lt key h | None => True end.
Definition items_upto (hi : option bytes) (l : list item) : Prop := Forall (λ x, upto hi x.1) l.
Definition parent_ok (parent : option (Node * nat)) (hi : option bytes) : Prop :=
  match parent with
  | None => True
  | Some (p, i) => ∃ ks cs, shape p (Some <$> ks) cs ∧ ∀ x, ks !! i = Some x → hi = Some (si_key x)
  end.

(** Writes for one change of a node of height [d]. *)
Definition change_cost (d : nat) : nat := 3 * d + 2.

Definition change_post (d : nat) (oa : option Z) (size : nat) (hi : option bytes) (l : list item) (changes : list Change) : Changed → hprop :=
  (λ '(split, b, changes', n), ∃ pre c rest,
    ⟦changes = pre ++ c :: rest ∧ changes' = c :: rest ∧ Forall (λ op, upto hi (Operation_key op)) (pre ++ [c])⟧ ∗
    £(change_cost d * length rest) ∗ node_post d oa size (steps (pre ++ [c]) l) split b n)%I.

Definition change_ok (d : nat) (parent : option (Node * nat)) (f : list Change → Node → M VState Changed) : Prop :=
  ∀ hi n oa ks cs l changes,
    changes ≠ [] → StronglySorted change_le changes → Forall ok_change changes → ordered l → items_upto hi l →
    (∀ c, head changes = Some c → upto hi (Operation_key c)) → parent_ok parent hi → (d ≠ O → ks ≠ []) →
    loaded d n oa ks cs l ∗ £(change_cost d * length changes) ⊢ WP (f changes n) (change_post d oa (length ks) hi l changes).

Definition hi_of (ks : list SeparatorInner) (hi : option bytes) : option bytes := match ks with k :: _ => Some (si_key k) | [] => hi end.

Lemma begins_above ks l hi key : begins ks l → upto (hi_of ks hi) key → above key l.
Proof. destruct ks, l; simpl; try done. by intros ->. Qed.

(** The bound of a child. *)
Lemma child_upto hi k2 l1 lm l2 : ordered (l1 ++ lm ++ l2) → items_upto hi (l1 ++ lm ++ l2) → begins k2 l2 →
  items_upto (hi_of k2 hi) lm ∧ ∀ key, upto (hi_of k2 hi) key → upto hi key.
Proof.
  intros Ho Hu Hb. apply Forall_app in Hu as [_ [Hum Hu2]%Forall_app]. destruct k2 as [|k k2], l2 as [|e l2]; simpl in *; try done.
  apply Forall_cons in Hu2 as [He _]. rw Hb in He. split.
  - rw app_assoc in Ho. apply (ordered_below (si_key k)) in Ho; [by apply Forall_app in Ho as [_ ?]|]. rw Hb. apply key_lt_irrefl.
  - intros key Hk. destruct hi as [h|]; [|done]. exact (transitivity (R := key_lt) Hk He).
Qed.

(** All changes from one on are right of what is left of it. *)
Lemma changes_below c rest l : StronglySorted change_le (c :: rest) → below (Operation_key c) l → Forall (λ op, below (Operation_key op) l) (c :: rest).
Proof.
  intros [_ Hle]%StronglySorted_inv Hb. constructor; [done|]. eapply Forall_impl; [done|]. intros op Hop. eapply Forall_impl; [done|].
  intros x Hx. destruct (key_cases (Operation_key c) (Operation_key op)) as [Hc|[Hc|Hc]]; [by apply (transitivity (y := Operation_key c))|by rw -Hc|done].
Qed.

Section round.
Context (hi : option bytes) (c0 : Change) (rest : list Change).
Abbreviation changes := (c0 :: rest).
Context (Hsort : StronglySorted change_le changes) (Hok : Forall ok_change changes) (Hhi : upto hi (Operation_key c0)).

Lemma wp_into_child d f n oa k1 k2 c1 c c2 l1 lm l2 :
  (∀ p, change_ok d (Some p) (f p)) → shape n (Some <$> k1 ++ k2) (c1 ++ c :: c2) → k1 ++ k2 ≠ [] →
  ordered (l1 ++ lm ++ l2) → items_upto hi (l1 ++ lm ++ l2) → below (Operation_key c0) l1 → begins k2 l2 →
  (∀ x, head k2 = Some x → key_lt (Operation_key c0) (si_key x)) →
  home oa n (k1 ++ k2) (c1 ++ c :: c2) ∗ lefts (S d) k1 c1 l1 ∗ children (S d) c lm ∗ rights (S d) k2 c2 l2 ∗ £(change_cost (S d) * length changes) ⊢
  WP (child ← fetch junk r (length k1) n;
      match child with
      | Some child => result ← f (n, length k1) changes child; after_child junk r (S d) (length k1) result n
      | None => mret (None, false, changes, n)
      end) (change_post (S d) oa (length (k1 ++ k2)) hi (l1 ++ lm ++ l2) changes).
Proof.
  iIntros (Hf Hs Hne Ho Hu Hb Hbe Hk2) "(Ha & HL & H & HR & C)". iDestruct (lefts_length with "HL") as %Hl.
  iDestruct (subtree_stored with "H") as (ac kc cc) "(%Hx & H)". destruct Hx as [-> Hkc]. change (ORDER / 2)%nat with 4%nat in Hkc.
  iApply (wp_seq with "[H]"); [by iApply (wp_fetch junk Hjunk HK HB Hs Hl with "H")|].
  iIntros (o) "H". iDestruct "H" as (child) "(%Hx & H)". destruct Hx as [-> _].
  destruct (child_upto hi k2 l1 lm l2 Ho Hu Hbe) as [Hum Hup].
  rw (_ : change_cost (S d) * length changes = change_cost d * length changes + (3 + 3 * length rest))%nat; [|unfold change_cost; simpl; lia].
  rw credit_split (credit_split 3). iDestruct "C" as "(Cd & C3 & C)".
  iApply (wp_seq with "[H Cd]").
  { iApply (Hf (n, length k1) (hi_of k2 hi) with "[$H $Cd]"); try done.
    - apply ordered_app in Ho as (_ & [Ho _]%ordered_app & _). done.
    - intros c [= <-]. destruct k2; [done|]. simpl. by apply Hk2.
    - exists (k1 ++ k2), (c1 ++ Some ac :: c2). split; [done|]. intros x Hx. rw lookup_app_r // Nat.sub_diag in Hx. by destruct k2; simplify_eq/=.
    - intros _ ->. simpl in Hkc. lia. }
  iIntros ([[[split b] changes'] child']) "H". iDestruct "H" as (pre c' rest') "(%Hx & Cd & H)". destruct Hx as (Epre & -> & Hall).
  iApply (wp_wand with "[Ha HL H HR C3]"); [by iApply (wp_after_child with "[$Ha $HL $H $HR $C3]")|].
  iIntros ([[[split' b'] changes''] n']) "(-> & H)". iExists pre, c', rest'.
  assert (Hin : Forall (λ op, below (Operation_key op) l1 ∧ above (Operation_key op) l2) (pre ++ [c'])).
  { pose proof (changes_below _ _ _ Hsort Hb) as Hbs. rw Epre (cons_middle c') app_assoc Forall_app in Hbs. destruct Hbs as [Hbs _].
    apply Forall_and. split; [done|]. apply (Forall_impl _ _ _ Hall). intros op. by apply begins_above. }
  rw (steps_inside _ _ _ _ _ Hin). iFrame "H". iSplit; [iPureIntro; split_and!; try done; apply (Forall_impl _ _ _ Hall); intros op; apply Hup|].
  rw (_ : change_cost (S d) * length rest' = change_cost d * length rest' + 3 * length rest')%nat; [|unfold change_cost; lia].
  rw credit_split. iFrame "Cd". iApply (credit_le with "C"). apply (f_equal length) in Epre. rw length_app /= in Epre. lia.
Qed.

Lemma done_post d oa size l split b n : node_post d oa size (step c0 l) split b n ∗ £(change_cost d * length rest) ⊢
  change_post d oa size hi l changes (split, b, changes, n).
Proof. iIntros "[H C]". iExists [], c0, rest. iFrame. iPureIntro. split_and!; try done. by apply Forall_singleton. Qed.

Lemma round_credit d : £(change_cost d * length changes) ⊢ £(change_cost d * length rest) ∗ £(3 * d) ∗ £2.
Proof.
  rw (_ : change_cost d * length changes = change_cost d * length rest + (3 * d + 2))%nat; [|unfold change_cost; simpl; lia].
  rw credit_split (credit_split (3 * d)). done.
Qed.

(** *** A new value *)
Lemma wp_Node_insert f d n oa ks cs l key value : c0 = OpSet key value → (∀ d' p, d = S d' → change_ok d' (Some p) (f p)) →
  ordered l → items_upto hi l → (d ≠ O → ks ≠ []) →
  loaded d n oa ks cs l ∗ £(change_cost d * length changes) ⊢
  WP (Node_insert junk f r d key value changes n) (change_post d oa (length ks) hi l changes).
Proof.
  iIntros (Hc0 Hf Hl Hu Hne) "[(Ha & %Hs & H) C]".
  assert (Hkey : Operation_key c0 = key) by (by rw Hc0). pose proof Hok as Hok'. apply Forall_cons in Hok' as [[Hok1 Hok2] _]. rw Hkey in Hok1. rw Hc0 in Hok2.
  destruct (position_spec Hs key) as (k1 & k2 & -> & Epos & Hk1 & Hk2). unfold Node_insert. rw Epos. case_bool_decide as Hh.
  - destruct k2 as [|x k2]; [done|]. simpl in Hh. injection Hh as Hx. iDestruct (locate_hit with "H") as (c1 c2 l1 e l2) "(%Hy & H1 & He & H2)"; [done|].
    destruct Hy as (-> & Hc1 & -> & Hb & Ee). pose proof Hs as Hs'. rw fmap_app in Hs'. wlift (separator_address_spec Hs' (length_fmap _ _)).
    iDestruct (round_credit with "C") as "(Cr & _ & C)". rw (credit_split 1 1). iDestruct "C" as "[C _]". rw -Hx -Ee /=.
    iApply (wp_seq with "[He C]"); [by iApply (wp_create_existing junk Hjunk with "[$He $C]")|]. iIntros (s) "H". iDestruct "H" as (k' p) "(%Hy & He)".
    destruct Hy as [Hsk Hp]. destruct (set_separator_spec s Hs' (length_fmap _ _)) as (n1 & E1 & H1 & Hch). wlift E1. iApply wp_ret.
    rw Hsk -fmap_cons -fmap_app in H1. iApply done_post. iFrame "Cr". iExists (k1 ++ k' :: k2), (c1 ++ c2).
    iSplit; [iPureIntro; apply resized_same; by rw !length_app|]. iApply (loaded_changed with "[$Ha H1 He H2]"); try done.
    rw (step_hit _ c0 l1 e l2); [|by rw Hkey -Hx|by rw Hkey Ee]. rw (_ : spec_step _ _ c0 _ = Some p); [|by rw Hc0].
    rw Hkey -Hx -Ee. iApply body_join. iFrame.
  - iDestruct (locate _ _ _ _ _ _ _ key with "H") as (c1 c c2 l1 lm l2) "(%Hy & HL & H & HR)"; [done|done|]. destruct Hy as (-> & -> & Hb & Hbe).
    assert (Hk2' : ∀ x, head k2 = Some x → key_lt key (si_key x)).
    { intros x Hx. destruct (Hk2 x Hx) as [Hxk|]; [|done]. destruct Hh. by rw Hx /= Hxk. }
    destruct d as [|d].
    + iDestruct "H" as %[-> ->]. iDestruct (round_credit with "C") as "(Cr & _ & C)". iDestruct (lefts_length with "HL") as %Hl1.
      iDestruct (rights_length with "HR") as %Hl2. rw bool_decide_false; [|tauto].
      iApply (wp_seq with "[HL HR C]"); [iApply (wp_insert_leaf junk Hjunk HK HB with "[$HL $HR $C]"); done|].
      iIntros ([split n1]) "H". iApply wp_ret. iApply done_post. iFrame "Cr". rw (step_miss _ c0 l1 l2); [|by rw Hkey|].
      * rw Hc0 /=. iApply (split_node_post with "[$Ha $H]"). rw length_app. lia.
      * rw Hkey. apply (begins_above k2 _ None); [done|]. destruct k2; [done|]. by apply Hk2'.
    + rw bool_decide_true; [|done]. rw -Hkey in Hb, Hk2'. iApply (wp_into_child with "[$Ha $HL $H $HR $C]"); auto.
Qed.

(** *** A change of an existing value *)
Lemma wp_on_existing_hit f d n oa k1 x k2 c1 c2 l1 e l2 :
  match c0 with OpSet _ _ => False | _ => True end → shape n (Some <$> k1 ++ x :: k2) (c1 ++ c2) → length c1 = S (length k1) →
  position (Operation_key c0) n = (true, length k1) → e.1 = Operation_key c0 → below (Operation_key c0) l1 →
  home oa n (k1 ++ x :: k2) (c1 ++ c2) ∗ body d k1 c1 l1 ∗ entry x e ∗ body d k2 c2 l2 ∗ £(change_cost d * length changes) ⊢
  WP (on_existing junk f r d c0 changes n) (change_post d oa (length (k1 ++ x :: k2)) hi (l1 ++ e :: l2) changes).
Proof.
  iIntros (Hop Hs Hc1 Epos Ee Hb) "(Ha & H1 & He & H2 & C)". unfold on_existing. rw Epos.
  pose proof Hs as Hs'. rw fmap_app in Hs'. wlift (separator_address_spec Hs' (length_fmap _ _)). cbn [fmap option_fmap option_map].
  iDestruct (round_credit with "C") as "(Cr & C & _)". iApply wp_bind. iApply (wp_seq with "[He]"); [by iApply (wp_on_existing junk Hjunk with "He")|].
  iIntros ([kept o]) "H". pose proof (step_hit (tr_ref_counted r) c0 l1 e l2 Hb Ee) as Estep. destruct (spec_step _ _ c0 (Some e.2)) as [p|].
  - iDestruct "H" as "[He %Hkept]". destruct kept; [|done]. iApply wp_ret. wlift (need_rebalance_spec Hs). iApply wp_ret. iApply done_post. iFrame "Cr".
    iExists (k1 ++ x :: k2), (c1 ++ c2). iSplit; [iPureIntro; apply resized_one; lia|]. iFrame "Ha". iSplit; [done|].
    rw Estep -Ee. iApply body_join. iFrame.
  - iDestruct "H" as %->. iApply (wp_wand with "[H1 H2 C]"); [by iApply (wp_close_gap with "[$H1 $H2 $C]")|].
    iIntros (n1) "H". iApply (wp_wand with "[H]"); [iApply (wp_need_rebalance _ _ _ _ (λ b, (None : Split, b, changes, n1)) with "H")|].
    iIntros (res) "H". iDestruct "H" as (b ks cs) "(%Hx & H)". destruct Hx as (-> & H2 & Hch & Hsz). iApply done_post. iFrame "Cr".
    iExists ks, cs. iSplit; [done|]. rw Estep. by iApply (loaded_changed with "[$Ha $H]").
Qed.

Lemma wp_on_existing_change f d n oa ks cs l : match c0 with OpSet _ _ => False | _ => True end → (∀ d' p, d = S d' → change_ok d' (Some p) (f p)) →
  ordered l → items_upto hi l → (d ≠ O → ks ≠ []) →
  loaded d n oa ks cs l ∗ £(change_cost d * length changes) ⊢
  WP (on_existing junk f r d c0 changes n) (change_post d oa (length ks) hi l changes).
Proof.
  iIntros (Hop Hf Hl Hu Hne) "[(Ha & %Hs & H) C]".
  destruct (position_spec Hs (Operation_key c0)) as (k1 & k2 & -> & Epos & Hk1 & Hk2). case_bool_decide as Hh.
  - destruct k2 as [|x k2]; [done|]. simpl in Hh. injection Hh as Hx. iDestruct (locate_hit with "H") as (c1 c2 l1 e l2) "(%Hy & H1 & He & H2)"; [done|].
    destruct Hy as (-> & Hc1 & -> & Hb & Ee). rw Hx in Hb, Ee. by iApply (wp_on_existing_hit with "[$Ha $H1 $He $H2 $C]").
  - unfold on_existing. rw Epos. iDestruct (locate _ _ _ _ _ _ _ (Operation_key c0) with "H") as (c1 c c2 l1 lm l2) "(%Hy & HL & H & HR)"; [done|done|].
    destruct Hy as (-> & -> & Hb & Hbe). assert (Hk2' : ∀ x, head k2 = Some x → key_lt (Operation_key c0) (si_key x)).
    { intros x Hx. destruct (Hk2 x Hx) as [Hxk|]; [|done]. destruct Hh. by rw Hx /= Hxk. }
    destruct d as [|d]; [rw bool_decide_true //|rw bool_decide_false //; iApply (wp_into_child with "[$Ha $HL $H $HR $C]"); auto].
    iDestruct "H" as %[-> ->]. iDestruct (round_credit with "C") as "(Cr & _)". iApply wp_ret. iApply done_post. iFrame "Cr".
    rw (step_miss _ c0 l1 l2) //; [|by apply (begins_above k2 _ None); [done|]; destruct k2; [done|]; apply Hk2'].
    iExists (k1 ++ k2), (c1 ++ None :: c2). iSplit; [iPureIntro; by apply resized_same|]. iFrame "Ha". iSplit; [done|].
    iDestruct (body_zip _ _ _ k1 c1 l1 [] [None] [] k2 c2 l2 with "[$HL $HR]") as "H"; [by simpl|]. by destruct c0.
Qed.

Lemma wp_round f d n oa ks cs l : (∀ d' p, d = S d' → change_ok d' (Some p) (f p)) → ordered l → items_upto hi l → (d ≠ O → ks ≠ []) →
  loaded d n oa ks cs l ∗ £(change_cost d * length changes) ⊢
  WP (match c0 with OpSet key value => Node_insert junk f r d key value changes n | _ => on_existing junk f r d c0 changes n end)
    (change_post d oa (length ks) hi l changes).
Proof.
  intros. pose proof (wp_Node_insert f d n oa ks cs l) as Hi. pose proof (wp_on_existing_change f d n oa ks cs l) as He.
  destruct c0; [by apply Hi|by apply He|by apply He].
Qed.
End round.

(** ** The loop over the changes *)
Lemma body_keys d ks cs l : body d ks cs l ⊢ ⌜Forall (λ x, ∃ e, e ∈ l ∧ e.1 = si_key x) ks⌝.
Proof.
  iIntros "H". iInduction ks as [|k ks] "IH" forall (cs l); destruct cs as [|c cs]; cbn [BTreeRep.body]; try (by iDestruct "H" as "[]").
  { iPureIntro. constructor. }
  iDestruct "H" as (l1 e l2) "(-> & _ & He & H)". iDestruct ("IH" with "H") as %Hks. iDestruct "He" as (w) "(_ & %Hx)". destruct Hx as [Hx _].
  iPureIntro. constructor; [exists e; split; [apply elem_of_app; right; by left|done]|]. apply (Forall_impl _ _ _ Hks).
  intros x (e' & He' & Ee). exists e'. split; [|done]. apply elem_of_app. right. by right.
Qed.

(** The loop goes on with a key that belongs below the node. *)
Lemma stays_upto parent hi n ks cs l key : shape n (Some <$> ks) cs → Forall (λ x, ∃ e, e ∈ l ∧ e.1 = si_key x) ks → items_upto hi l →
  parent_ok parent hi → stays parent key n = true → upto hi key.
Proof.
  intros Hs Hkeys Hu Hp Hst. unfold stays in Hst. destruct parent as [[p pi]|]; [|done].
  destruct (position_spec Hs key) as (k1 & k2 & -> & Epos & _ & Hk2). rw Epos (number_separator_spec Hs) length_app in Hst.
  destruct k2 as [|x k2].
  - rw bool_decide_false // bool_decide_false in Hst; [|simpl; lia]. destruct Hp as (kp & cp & Hsp & Hhi).
    destruct (position_spec Hsp key) as (p1 & p2 & -> & Epp & _ & Hp2). rw Epp (number_separator_spec Hsp) length_app in Hst.
    apply andb_prop in Hst as [[Hat Hpi%bool_decide_eq_true]%andb_prop Hlt%bool_decide_eq_true]. destruct p2 as [|y p2]; [simpl in Hlt; lia|].
    rw (Hhi y) /=; [|by rw -Hpi lookup_app_r // Nat.sub_diag]. destruct (Hp2 y eq_refl) as [Hy|]; [|done]. rw bool_decide_true // in Hat. by rw /= Hy.
  - apply Forall_app in Hkeys as [_ [(e & He & Ee) _]%Forall_cons]. unfold items_upto in Hu. rw Forall_forall in Hu. specialize (Hu e He). simpl in Hu. rw Ee in Hu.
    destruct hi as [h|]; [|done]. destruct (Hk2 x eq_refl) as [<-|Hlt]; [done|]. exact (transitivity (R := key_lt) Hlt Hu).
Qed.

Lemma steps_upto hi ops l : Forall (λ op : Change, upto hi (Operation_key op)) ops → items_upto hi l → items_upto hi (steps ops l).
Proof. destruct hi as [h|]; [apply steps_bound|]. intros _ _. apply Forall_forall. done. Qed.

Lemma overwritten_step c c' pre l : overwritten r c c' = true → ordered l → steps (c :: c' :: pre) l = steps (c' :: pre) l ∧ Operation_key c = Operation_key c'.
Proof.
  unfold overwritten. intros [[Hr Hop]%andb_prop Hk%bool_decide_eq_true]%andb_prop Hl. apply negb_true_iff in Hr. rw Hr !steps_cons. split; [|done]. f_equal.
  apply step_overwrite; [by destruct c'|done|done].
Qed.

Section loop.
Context (f : Node * nat → list Change → Node → M VState Changed) (d : nat) (parent : option (Node * nat)).
Context (Hf : ∀ d' p, d = S d' → change_ok d' (Some p) (f p)).

Lemma wp_change_loop fuel : ∀ hi n oa ks cs l changes, (length changes ≤ fuel)%nat →
  changes ≠ [] → StronglySorted change_le changes → Forall ok_change changes → ordered l → items_upto hi l →
  (∀ c, head changes = Some c → upto hi (Operation_key c)) → parent_ok parent hi → (d ≠ O → ks ≠ []) →
  loaded d n oa ks cs l ∗ £(change_cost d * length changes) ⊢
  WP (change_loop junk f fuel r parent d changes n) (change_post d oa (length ks) hi l changes).
Proof.
  induction fuel as [|fuel IH]; intros hi n oa ks cs l changes Hlen Hne Hsort Hok Hl Hu Hhi Hp Hks; [destruct changes; simpl in *; [done|lia]|].
  destruct changes as [|c rest]; [done|]. iIntros "[H C]". cbn [change_loop]. specialize (Hhi c eq_refl).
  pose proof (StronglySorted_inv Hsort) as [Hsort' _]. pose proof (proj1 (Forall_cons _ _ _) Hok) as [_ Hok'].
  destruct (match rest with [] => false | c' :: _ => overwritten r c c' end) eqn:Eov.
  - destruct rest as [|c' rest]; [done|]. iDestruct (credit_le _ (change_cost d * length (c' :: rest)) with "C") as "C"; [simpl; lia|].
    assert (Hk : Operation_key c = Operation_key c') by (by apply (overwritten_step c c' [] l)).
    iApply (wp_wand with "[H C]").
    { iApply (IH hi with "[$H $C]"); try done; [simpl in *; lia|]. intros c'' [= <-]. by rw -Hk. }
    iIntros ([[[split b] changes'] n']) "H". iDestruct "H" as (pre cx rest') "(%Hx & C & H)". destruct Hx as (E & -> & Hall).
    assert (∃ pre', pre ++ [cx] = c' :: pre') as [pre' Epre] by (destruct pre; simplify_eq/=; eauto).
    iExists (c :: pre), cx, rest'. iFrame "C". rw -(app_comm_cons pre [cx] c) Epre. rw (proj1 (overwritten_step c c' pre' l Eov Hl)). iFrame "H".
    iPureIntro. rw -app_comm_cons -E. split_and!; try done. constructor; [done|]. by rw -Epre.
  - iApply (wp_seq with "[H C]"); [iApply (wp_round hi c rest with "[$H $C]"); try done|].
    iIntros ([[[split b] changes'] n']) "H". destruct (match split with Some _ => true | None => b end) eqn:Esb; [by iApply wp_ret|].
    destruct split; [done|]. subst b. iDestruct "H" as (pre cx rest') "(%Hx & C & H)". destruct Hx as (E & -> & Hall).
    iAssert (change_post d oa (length ks) hi l (c :: rest) (None, false, cx :: rest', n') -∗
             WP (mret (None, false, cx :: rest', n')) (change_post d oa (length ks) hi l (c :: rest)))%I as "Hstop"; [iIntros "H"; by iApply wp_ret|].
    destruct rest' as [|c' rest']; [iApply "Hstop"; iExists pre, cx, []; by iFrame|].
    destruct (stays parent (Operation_key c') n') eqn:Est; [|iApply "Hstop"; iExists pre, cx, (c' :: rest'); by iFrame].
    iClear "Hstop". iDestruct "H" as (ks' cs') "(%Hsz & H)". iDestruct "H" as "(Ha & %Hs' & H)". iDestruct (body_keys with "H") as %Hkeys.
    assert (Hsuf : (c :: rest) = (pre ++ [cx]) ++ c' :: rest') by (by rw -app_assoc).
    assert (Hu' : items_upto hi (steps (pre ++ [cx]) l)) by (by apply steps_upto).
    iApply (wp_wand with "[Ha H C]").
    { iApply (IH hi n' oa ks' cs' (steps (pre ++ [cx]) l) (c' :: rest') with "[Ha H $C]"); try done.
      - apply (f_equal length) in Hsuf. rw !length_app /= in Hsuf. simpl in Hlen |- *. lia.
      - rw Hsuf in Hsort. clear -Hsort. induction (pre ++ [cx]) as [|y ys IHy]; [done|]. apply IHy. by apply StronglySorted_inv in Hsort as [? _].
      - rw Hsuf in Hok. by apply Forall_app in Hok as [_ ?].
      - by apply steps_ordered.
      - intros c'' [= <-]. by eapply stays_upto.
      - intros Hd ->. unfold resized in Hsz. specialize (Hks Hd). destruct ks; simpl in *; [done|lia].
      - by iFrame. }
    iIntros ([[[split b] changes''] n'']) "H". iDestruct "H" as (pre2 cy rest2) "(%Hy & C & H)". destruct Hy as (E2 & -> & Hall2).
    iExists ((pre ++ [cx]) ++ pre2), cy, rest2. iFrame "C". rw -(app_assoc _ pre2 [cy]) (steps_app _ (pre ++ [cx]) (pre2 ++ [cy])). iSplit.
    + iPureIntro. split_and!; [|done|by apply Forall_app].
      by rw Hsuf E2 -!app_assoc.
    + destruct split as [[s ch]|]; [iExact "H"|]. iDestruct "H" as (ks2 cs2) "(%Hsz2 & H)". iExists ks2, cs2. iFrame "H". iPureIntro. by eapply resized_trans.
Qed.
End loop.

Theorem wp_Node_change d : ∀ parent, change_ok d parent (Node_change junk r d parent).
Proof.
  induction d as [|d IH]; intros parent hi n oa ks cs l changes; cbn [Node_change]; intros; apply wp_change_loop; try done.
  intros d' p [= <-]. apply IH.
Qed.
End change.
