(* ===== verification/BTreeRoot.v ===== *)
(** * B-trees: the root and the header

    The loop that makes the changes of a record from the root, adding and removing levels, and
    the header that says where the root is.  [tree] is the whole tree column as a part of the
    store: its header, its nodes and its values. *)

From stdpp Require Import sorting.
From iris.proofmode Require Import proofmode.
From S2P Require Import Prelude IndexEntry IndexChunk Log Stats IndexTable ValueEntry File ValueTable ValueRead ValueInv ValueSpec Compress Column ColumnTables ColumnValues KeyOrder BTreeItems BTreeNode BTree BTreeShape BTreeSiblings BTreeCodec BTreeLogic BTreeStore BTreeRep BTreeOps BTreeBalance BTreeChange.

Lemma default_shape : shape Node_default [] [None].
Proof. split; [done|done|simpl; unfold ORDER; lia|simpl; unfold ORDER_CHILD; lia]. Qed.

Lemma root_back (root : option Z) : wf_kid root → (if bool_decide (default NULL_ADDRESS root = NULL_ADDRESS) then None else Some (default NULL_ADDRESS root)) = root.
Proof. destruct root as [a|]; simpl; [|done]. intros Hw. unfold wf_address, NULL_ADDRESS in *. by rw bool_decide_false; [|lia]. Qed.

Lemma kid_range (root : option Z) : wf_kid root → 0 ≤ default NULL_ADDRESS root < 2 ^ 64.
Proof. destruct root; unfold wf_kid, wf_address, NULL_ADDRESS; simpl; lia. Qed.

Section root.
Context (junk : bytes) (Hjunk : length junk = MAX_ENTRY_BUF_SIZE) `{HC : Compressors} `{HCO : !CompressorsOk HC}.
Context {col : Z} {B K : nat} {r : TreeRef} (HK : Z.of_nat K < 2 ^ 32) (HB : (node_size K ≤ B)%nat).
Abbreviation WP := (wp (store_inv col (tr_ref_counted r) B)).
Abbreviation entry := (entry (tr_compression r) K).
Abbreviation subtree := (subtree (tr_compression r) K).
Abbreviation children d := (subtree d (ORDER / 2)).
Abbreviation body d := (body (tr_compression r) K (children d)).
Abbreviation loaded := (loaded (K := K) (r := r)).
Abbreviation stored := (stored (K := K) (r := r)).
Abbreviation steps := (item_steps (tr_ref_counted r)).

(** The root while changes are made: an inner root has a separator. *)
Definition rooted (d : nat) (t : BTree) (root : Node) (l : list item) : hprop :=
  (∃ ks cs, ⟦bt_depth t = Z.of_nat d ∧ (d ≠ O → ks ≠ [])⟧ ∗ loaded d root (bt_root_index t) ks cs l)%I.

Lemma wp_write_root d root oa ks cs l :
  loaded d root oa ks cs l ∗ £1 ⊢ WP (write_node_plan junk root oa)
    (λ o, ∃ a, ⟦match o with Some a => Some a | None => oa end = Some a⟧ ∗ stored d a ks cs l).
Proof.
  iIntros "[H C]". iDestruct (loaded_length with "H") as %[Hs Hlen]. destruct oa as [a|].
  - iApply (wp_wand with "[H C]"); [by iApply (wp_write_node junk Hjunk HK HB with "[$H $C]")|]. iIntros (o) "(Ha & %Hwa & H)".
    iExists (default a o). iFrame. by destruct o.
  - iDestruct "H" as "(%Hch & _ & H)". iApply (wp_wand with "[H C]"); [by iApply (wp_write_new junk Hjunk HK HB with "[$H $C]")|].
    iIntros (o) "H". iDestruct "H" as (a) "(-> & H)". iExists a. by iFrame.
Qed.

Lemma wp_add_level d t root ks cs l1 sep k e rgt l2 :
  bt_depth t = Z.of_nat d → Z.of_nat (S d) < 2 ^ 32 → sp_sep sep = Some k → length ks = 4%nat →
  loaded d root (bt_root_index t) ks cs l1 ∗ entry k e ∗ children (S d) (ch_index rgt) l2 ∗ £1 ⊢
  WP (add_level junk sep rgt t root) (λ '(t', root'), rooted (S d) t' root' (l1 ++ e :: l2)).
Proof.
  iIntros (Hd HSd Hk H4) "(H & He & Hr & C)". unfold add_level. cbv zeta.
  iApply (wp_seq with "[H C]"); [by iApply (wp_write_root with "[$H $C]")|]. iIntros (o) "H". iDestruct "H" as (a) "(-> & H)".
  destruct (set_child_spec (c := []) (i := 0) (new_child (Some a)) default_shape eq_refl) as (n1 & E1 & H1 & _). wlift E1. simpl in H1.
  apply shape_kid_none in H1; [|simpl; unfold ORDER_CHILD; lia].
  destruct (set_child_spec (c := [Some a]) (i := 1) rgt H1 eq_refl) as (n2 & E2 & H2 & _). wlift E2.
  apply shape_sep_none in H2; [|simpl; unfold ORDER; lia].
  destruct (set_separator_spec (a := []) (i := 0) sep H2 eq_refl) as (n3 & E3 & H3 & Hch). wlift E3. iApply wp_ret.
  iExists [k], [Some a; ch_index rgt]. iSplit; [iPureIntro; split; [|done]|].
  { rw /= Hd /u32 /wrap Z.mod_small; lia. }
  iSplit; [done|]. iSplit; [iPureIntro; by rw Hk in H3|]. iExists l1, e, l2. iFrame "He Hr". iSplit; [done|].
  iApply subtree_stored. iExists a, ks, cs. iFrame. iPureIntro. by rw H4.
Qed.

Lemma wp_drop_level d t root ks cs l : bt_depth t = Z.of_nat d → Z.of_nat d < 2 ^ 32 →
  loaded d root (bt_root_index t) ks cs l ⊢ WP (drop_level junk r t root) (λ '(t', root'), ∃ d', ⟦(d' ≤ d)%nat⟧ ∗ rooted d' t' root' l).
Proof.
  iIntros (Hd Hd32) "H". iDestruct (loaded_length with "H") as %[Hs _]. unfold drop_level, need_remove_root. rw (number_separator_spec Hs).
  assert (Hstay : (d ≠ O → ks ≠ []) → loaded d root (bt_root_index t) ks cs l ⊢ ∃ d', ⟦(d' ≤ d)%nat⟧ ∗ rooted d' t root l).
  { iIntros (Hne) "H". iExists d. iSplit; [done|]. iExists ks, cs. by iFrame. }
  case_bool_decide as Hz.
  - destruct ks; [|done]. iDestruct "H" as "(Ha & _ & H)". iDestruct (body_length with "H") as %Hc.
    destruct cs as [|c [|??]]; try done. rw body_one. destruct d as [|d].
    + iDestruct "H" as %[-> ->]. iApply wp_bind. iApply (wp_seq with "[]"); [by iApply (wp_fetch_none junk (c1 := []) Hs eq_refl)|].
      iIntros (o) "->". iApply wp_ret. iApply wp_ret. iApply Hstay; [done|]. iFrame "Ha". by iSplit.
    + iDestruct (subtree_stored with "H") as (ac kc cc) "(%Hx & H)". destruct Hx as [-> Hkc]. iApply wp_bind.
      iApply (wp_seq with "[H]"); [by iApply (wp_fetch junk Hjunk HK HB (c1 := []) Hs eq_refl with "H")|].
      iIntros (o) "H". iDestruct "H" as (child) "(%Hx & H)". destruct Hx as [-> _].
      destruct (remove_child_spec (c := []) (i := 0) Hs eq_refl) as (x & n1 & E1 & Hx & _). wlift E1. iApply wp_ret. rw Hx.
      iApply (wp_seq _ _ _ _ (λ _, emp)%I with "[Ha]").
      { destruct (bt_root_index t) as [a|]; [|by iApply wp_ret]. iDestruct "Ha" as (w) "(Ha & %Hy)". destruct Hy as (_ & Hw & _).
        by iApply (wp_remove_node junk Hjunk with "Ha"). }
      iIntros (_) "_". iApply wp_ret. iExists d. iSplit; [iPureIntro; lia|]. iExists kc, cc. iFrame. iPureIntro.
      split; [|intros _ ->; simpl in Hkc; unfold ORDER in Hkc; simpl in Hkc; lia]. rw /= Hd /u32 /wrap Z.mod_small; lia.
  - iApply wp_bind. iApply wp_ret. iApply wp_ret. iApply Hstay; [|done]. by intros _ ->.
Qed.

(** ** The loop over the changes of a record *)
(** Writes for one change in a tree of at most [D] levels below the root. *)
Definition level_cost (D : nat) : nat := change_cost D + 1.
Abbreviation ok_changes := (Forall (ok_change (B := B) (K := K))).

Section loop.
Context (D : nat) (HD : Z.of_nat D < 2 ^ 32).

Lemma wp_changes_loop fuel : ∀ changes d t root l, (length changes ≤ fuel)%nat → (d + length changes ≤ D)%nat →
  StronglySorted change_le changes → ok_changes changes → ordered l →
  rooted d t root l ∗ £(level_cost D * length changes) ⊢
  WP (changes_loop junk fuel r changes t root)
    (λ '(t', root'), ∃ d', ⟦(d' ≤ D)%nat⟧ ∗ rooted d' t' root' (steps changes l)).
Proof.
  induction fuel as [|fuel IH]; intros changes d t root l Hlen HdD Hsort Hok Hl; iIntros "[H C]".
  { destruct changes; [|simpl in *; lia]. iApply wp_ret. iExists d. iFrame. iPureIntro. simpl in HdD. lia. }
  destruct changes as [|c0 rest0]; [iApply wp_ret; iExists d; iFrame; iPureIntro; simpl in HdD; lia|].
  cbn [changes_loop]. set (changes := c0 :: rest0) in *. iDestruct "H" as (ks cs) "(%Hx & H)". destruct Hx as [Hd Hne].
  rw Hd Nat2Z.id. assert (Hcost : (change_cost d + 1 ≤ level_cost D)%nat) by (unfold level_cost, change_cost; lia).
  rw (_ : level_cost D * length changes = change_cost d * length changes + (level_cost D - change_cost d) * length changes)%nat; [|nia].
  rw credit_split. iDestruct "C" as "[Cd C]".
  iApply (wp_seq with "[H Cd]"); [by iApply (wp_Node_change junk Hjunk HK HB d None None with "[$H $Cd]"); try done; apply Forall_forall|].
  iIntros ([[[split b] changes'] root']) "H". iDestruct "H" as (pre c rest) "(%Hx & Cd & H)". destruct Hx as (E & -> & _).
  assert (Ech : changes = (pre ++ [c]) ++ rest) by (by rw -app_assoc).
  assert (Hlr : (S (length rest) ≤ length changes)%nat) by (rw Ech !length_app /=; lia).
  iAssert (£1 ∗ £(level_cost D * length rest))%I with "[C Cd]" as "[C1 C]".
  { iCombine "Cd C" as "C". rw -!credit_split. iApply (credit_le with "C"). nia. }
  iApply (wp_seq _ _ _ _ (λ '(t', root'), ∃ d', ⟦(d' ≤ S d)%nat⟧ ∗ rooted d' t' root' (steps (pre ++ [c]) l))%I with "[H C1]").
  - destruct split as [[sep rgt]|]; [|destruct b].
    + iDestruct "H" as (ks' cs' k l1 e l2) "(%Hx & H & He & Hr)". destruct Hx as (Hk & -> & H4).
      iApply (wp_wand with "[H He Hr C1]"); [iApply (wp_add_level with "[$H $He $Hr $C1]"); (done || lia)|].
      iIntros ([t' root2]) "H". iExists (S d). by iFrame.
    + iDestruct "H" as (ks' cs') "(_ & H)". iApply (wp_wand with "[H]"); [iApply (wp_drop_level with "H"); (done || lia)|].
      iIntros ([t' root2]) "H". iDestruct "H" as (d') "(%Hd' & H)". iExists d'. iFrame. iPureIntro. lia.
    + iDestruct "H" as (ks' cs') "(%Hsz & H)". iApply wp_ret. iExists d. iSplit; [iPureIntro; lia|]. iExists ks', cs'. iFrame. iPureIntro.
      split; [done|]. intros Hd0 ->. unfold resized in Hsz. specialize (Hne Hd0). destruct ks; simpl in *; [done|lia].
  - iIntros ([t' root2]) "H". iDestruct "H" as (d') "(%Hd' & H)". rw Ech (steps_app _ (pre ++ [c])). cbn [drop].
    iApply (IH rest d' with "[$H $C]"); [lia|lia|..].
    + rw Ech in Hsort. clear -Hsort. induction (pre ++ [c]) as [|y ys IHy]; [done|]. apply IHy. by apply StronglySorted_inv in Hsort as [? _].
    + rw Ech in Hok. by apply Forall_app in Hok as [_ ?].
    + by apply steps_ordered.
Qed.
End loop.

(** ** The tree *)
(** The root is in the store, or there is none. *)
Definition tree_at (d : nat) (root : option Z) (l : list item) : hprop :=
  (match root with
   | None => ⟦d = O ∧ l = []⟧
   | Some a => subtree (S d) (if bool_decide (d = O) then 0 else 1)%nat (Some a) l
   end)%I.

Lemma stored_tree_at d a ks cs l : (d ≠ O → ks ≠ []) → stored d a ks cs l ⊢ tree_at d (Some a) l.
Proof.
  iIntros (Hne) "H". iApply subtree_stored. iExists a, ks, cs. iFrame. iPureIntro. split; [done|]. case_bool_decide as Hd; [lia|].
  destruct ks; [|simpl; lia]. by apply Hne in Hd.
Qed.

Lemma wp_fetch_root d t l : bt_depth t = Z.of_nat d →
  tree_at d (bt_root_index t) l ⊢
  WP (reads (λ s, fetch_root junk r (default NULL_ADDRESS (bt_root_index t)) (vs_log s) (vs_tables s))) (λ root, rooted d t root l).
Proof.
  iIntros (Hd) "H". unfold rooted. destruct (bt_root_index t) as [a|] eqn:Er.
  - iDestruct (subtree_stored with "H") as (a' ks cs) "(%Hx & %Hy & Ha & H)". destruct Hx as [[= <-] Hlo], Hy as [Hwa Hlen].
    iDestruct (body_facts HK with "H") as %(Hl & Hw & Hc). destruct (from_encoded_spec ks cs) as (child & Ech & Hsc & Hch); [done|lia| | |].
    { eapply Forall_impl; [done|]. by intros k [? _]. }
    { eapply Forall_impl; [done|]. by intros k [? _]. }
    iApply (wp_wand with "[Ha]").
    { iApply (wp_reads _ (a ↦ node_rec ks cs)%I _ child with "Ha"). intros s h c HP Hi. unfold fetch_root, get_encoded_entry. simpl.
      rw bool_decide_false; [|unfold wf_address, NULL_ADDRESS in *; lia].
      rw (store_get junk Hjunk Hi (tr_compression r) (QCheck NoHash) a (node_rec ks cs)) //=. by eapply points_to_lookup. }
    iIntros (o) "(-> & Ha)". iExists ks, cs. iSplit; [iPureIntro; split; [done|]|].
    { intros Hd0 ->. rw bool_decide_false // in Hlo. simpl in Hlo. lia. }
    iFrame "H". iSplit; [|done]. iExists (node_rec ks cs). by iFrame.
  - iDestruct "H" as %[-> ->]. iApply (wp_wand with "[]").
    { iApply (wp_reads _ emp%I _ Node_default); [|done]. intros s h c _ _. done. }
    iIntros (o) "[-> _]". iExists [], [None]. iSplit; [done|]. iSplit; [done|]. iSplit; [iPureIntro; apply default_shape|by simpl].
Qed.

Lemma wp_write_sorted_changes D d changes t l : Z.of_nat D < 2 ^ 32 → (d + length changes ≤ D)%nat → bt_depth t = Z.of_nat d →
  StronglySorted change_le changes → ok_changes changes → ordered l →
  tree_at d (bt_root_index t) l ∗ £(level_cost D * length changes + 1) ⊢
  WP (write_sorted_changes junk r changes t)
    (λ t', ∃ d', ⟦bt_depth t' = Z.of_nat d' ∧ (d' ≤ D)%nat⟧ ∗ tree_at d' (bt_root_index t') (steps changes l)).
Proof.
  iIntros (HD HdD Hd Hsort Hok Hl) "[H C]". rw credit_split. iDestruct "C" as "[C C1]". unfold write_sorted_changes.
  iApply (wp_seq with "[H]"); [by iApply (wp_fetch_root with "H")|]. iIntros (root) "H".
  iApply (wp_seq with "[H C]"); [by iApply (wp_changes_loop D with "[$H $C]")|].
  iIntros ([t' root']) "H". iDestruct "H" as (d') "(%Hd' & H)". iDestruct "H" as (ks cs) "(%Hx & H)". destruct Hx as [Hdep Hne].
  destruct (nd_changed root') eqn:Hch.
  - iApply (wp_seq with "[H C1]"); [by iApply (wp_write_root with "[$H $C1]")|]. iIntros (o) "H". iDestruct "H" as (a) "(%Ho & H)".
    iApply wp_ret. iExists d'. destruct o as [a'|]; simplify_eq/=; [|rw Ho]; (iSplit; [done|]); by iApply (stored_tree_at with "H").
  - iApply wp_ret. iExists d'. iSplit; [done|]. destruct (bt_root_index t') as [a|]; [|iDestruct "H" as "(%Hc & H)"; by rw Hc in Hch].
    iApply stored_tree_at; [done|]. by iApply unloaded.
Qed.

(** ** The header *)
Definition header_at (root : option Z) (d : nat) : hprop :=
  (∃ w, HEADER_ADDRESS ↦ w ∗ ⟦v_key w = [] ∧ plain (tr_compression r) w = Ok (header_bytes (default NULL_ADDRESS root) (Z.of_nat d))⟧)%I.

(** A tree column: the entries [l] in a tree of height [d]. *)
Definition tree (d : nat) (l : list item) : hprop := (∃ root, ⟦ordered l ∧ Z.of_nat d < 2 ^ 32⟧ ∗ header_at root d ∗ tree_at d root l)%I.

Lemma tree_at_kid d root l : tree_at d root l ⊢ ⌜wf_kid root⌝.
Proof. destruct root as [a|]; [|iIntros "_"; by iPureIntro]. iIntros "H". iDestruct (subtree_kid with "H") as %[? _]. done. Qed.

Lemma wp_open d root rid : wf_kid root → Z.of_nat d < 2 ^ 32 →
  header_at root d ⊢ WP (reads (λ s, BTree_open junk r (vs_log s) rid (vs_tables s))) (λ t, ⟦t = mkBTreeRoot (Z.of_nat d) root rid⟧ ∗ header_at root d).
Proof.
  iIntros (Hroot Hd) "H". iDestruct "H" as (w) "(Ha & %Hx)". destruct Hx as [Hk Hp]. iApply (wp_wand with "[Ha]").
  { iApply (wp_reads _ (HEADER_ADDRESS ↦ w)%I _ (mkBTreeRoot (Z.of_nat d) root rid) with "Ha"). intros s h c HP Hi. unfold BTree_open, btree_header.
    rw (store_get junk Hjunk Hi (tr_compression r) (QFetch false) HEADER_ADDRESS w); [|by eapply points_to_lookup|done].
    cbn [query_hit]. rw Hp. cbn [mbind outcome_bind]. pose proof (read_header_spec _ (Z.of_nat d) (kid_range root Hroot) ltac:(lia)) as E. cbv zeta in E |- *.
    rw E. cbn [mbind outcome_bind bh_root bh_depth]. by rw root_back. }
  iIntros (t) "(-> & Ha)". iSplit; [done|]. iExists w. by iFrame.
Qed.

Lemma header_wf : wf_address HEADER_ADDRESS ∧ Address_size_tier HEADER_ADDRESS = 0.
Proof. split; [split; vm_compute; reflexivity|by vm_compute]. Qed.

Lemma wp_write_header root d root' d' :
  header_at root d ∗ £1 ⊢ WP (e ← lift (write_header (mkBHeader (default NULL_ADDRESS root') (Z.of_nat d')) (VEntry_new []));
      _ ← write_existing_value_plan junk (tr_compression r) false NoHash HEADER_ADDRESS (OpSet tt (take BTREE_HEADER_SIZE (e_buf e))) false;
      mret tt) (λ _, header_at root' d').
Proof.
  iIntros "[H C]". iDestruct "H" as (w) "(Ha & %Hx)". wlift (write_header_spec (default NULL_ADDRESS root') (Z.of_nat d')). cbn [e_buf].
  assert (Hlen : length (header_bytes (default NULL_ADDRESS root') (Z.of_nat d')) = 12%nat) by (unfold header_bytes; by rw length_app !le_bytes_length).
  rw firstn_all2; [|unfold BTREE_HEADER_SIZE; lia]. destruct header_wf as [Hwf Htier].
  iApply (wp_seq with "[Ha C]"); [iApply (wp_set junk Hjunk (tr_compression r) tt _ HEADER_ADDRESS w with "[$Ha $C]"); [done|unfold node_size in HB; lia]|].
  iIntros ([p o]) "H". iDestruct "H" as (w') "(Ha & %Hy)". destruct Hy as (_ & (_ & Hk & Hp & _) & Ho). rw (Ho ltac:(lia) Htier) /=.
  iApply wp_ret. iExists w'. by iFrame.
Qed.

Theorem wp_BTree_write_plan D d rid changes l : Z.of_nat D < 2 ^ 32 → (d + length changes ≤ D)%nat → ok_changes changes →
  tree d l ∗ £(level_cost D * length changes + 2) ⊢
  WP (BTree_write_plan junk r rid changes)
    (λ n, ⟦n = Z.of_nat (length changes)⟧ ∗ ∃ d', ⟦(d' ≤ D)%nat⟧ ∗ tree d' (steps (sort_changes changes) l)).
Proof.
  iIntros (HD HdD Hok) "[H C]". iDestruct "H" as (root) "(%Hx & Hh & H)". destruct Hx as [Hl Hd32].
  iDestruct (tree_at_kid with "H") as %Hroot. unfold BTree_write_plan.
  rw (_ : level_cost D * length changes + 2 = level_cost D * length changes + 1 + 1)%nat; [|lia]. rw (credit_split (_ + 1)). iDestruct "C" as "[C C1]".
  iApply (wp_seq with "[Hh]"); [by iApply (wp_open with "Hh")|]. iIntros (t) "(-> & Hh)". cbv zeta.
  pose proof (sort_changes_perm changes) as Hperm. rw -(Permutation_length Hperm) in HdD |- *.
  iApply (wp_seq with "[H C]").
  { iApply (wp_write_sorted_changes D d (sort_changes changes) (mkBTreeRoot (Z.of_nat d) root rid) with "[$H $C]"); try done;
      [apply sort_changes_sorted|by rw Hperm]. }
  iIntros (t') "H". iDestruct "H" as (d') "(%Hx & H)". destruct Hx as [Hd' Hle]. cbn [bt_root_index bt_depth bh_root bh_depth]. rw Hd'.
  iDestruct (tree_at_kid with "H") as %Hroot'.
  iApply (wp_seq _ _ _ _ (λ _, header_at (bt_root_index t') d') with "[Hh C1]").
  { destruct (bool_decide _ && bool_decide _) eqn:Eq; [|by iApply (wp_write_header with "[$Hh $C1]")].
    apply andb_prop in Eq as [E1%bool_decide_eq_true E2%bool_decide_eq_true]. apply Nat2Z.inj in E2 as ->. iApply wp_ret.
    assert (root = bt_root_index t') as -> by (rw -(root_back root) // -(root_back (bt_root_index t')) // E1 //). done. }
  iIntros (_) "Hh". iApply wp_ret. iSplit; [done|]. iExists d'. iSplit; [done|]. iExists (bt_root_index t'). iFrame. iPureIntro.
  split; [by apply steps_ordered|lia].
Qed.

(** A tree holds no right to write. *)
Lemma body_credit_free Sub : (∀ oc l, credit_free (Sub oc l)) → ∀ ks cs l, credit_free (BTreeRep.body (tr_compression r) K Sub ks cs l).
Proof.
  intros HS ks. induction ks as [|k ks IH]; intros [|c cs] l; cbn [BTreeRep.body]; auto with credits; [by destruct cs; auto with credits|].
  apply credit_free_exist. intros l1. apply credit_free_exist. intros e. apply credit_free_exist. intros l2. unfold BTreeRep.entry.
  auto 10 with credits.
Qed.
Lemma subtree_credit_free d : ∀ lo oc l, credit_free (subtree d lo oc l).
Proof.
  induction d as [|d IH]; intros lo oc l; [apply credit_free_pure|]. cbn [BTreeRep.subtree]. repeat (apply credit_free_exist; intros ?).
  repeat apply credit_free_sep; auto with credits. by apply body_credit_free.
Qed.
Lemma tree_credit_free d l : credit_free (tree d l).
Proof.
  apply credit_free_exist. intros root. repeat apply credit_free_sep; [auto with credits|unfold header_at; auto with credits|].
  destruct root; [apply subtree_credit_free|apply credit_free_pure].
Qed.
End root.
