(* ===== verification/BTreeRead.v ===== *)
(** * B-trees: reading

    A lookup follows the path of the key from the root and finds the entry of the key; the path
    is shorter than the number of slots, so the search ends. *)

From stdpp Require Import sorting.
From iris.proofmode Require Import proofmode.
From S2P Require Import Prelude IndexEntry IndexChunk Log Stats IndexTable ValueEntry File ValueTable ValueRead ValueInv ValueSpec Compress Column ColumnTables ColumnValues KeyOrder BTreeItems BTreeNode BTree BTreeShape BTreeCodec BTreeLogic BTreeStore BTreeRep BTreeOps BTreeChange BTreeRoot.

(** ** What an assertion says of a store *)
Lemma holds_pure φ (P : hprop) h c : (⟦φ⟧ ∗ P)%I h c → φ ∧ P h c.
Proof.
  intros H. split.
  - destruct H as (h1 & h2 & c1 & c2 & _ & _ & _ & [_ Hp] & _). done.
  - revert H. apply hp_at. iIntros "[_ $]".
Qed.

(** The number of values it takes. *)
Program Definition at_least (n : nat) : hprop := HProp (λ h _, (n ≤ size h)%nat) _.
Next Obligation. done. Qed.
Lemma at_least_add n m : at_least n ∗ at_least m ⊢ at_least (n + m).
Proof. split. intros h c (h1 & h2 & c1 & c2 & -> & Hd & _ & H1 & H2). simpl in *. rw map_size_disj_union //. lia. Qed.
Lemma at_least_True n : at_least n ∗ True ⊢ at_least n.
Proof. split. intros h c (h1 & h2 & c1 & c2 & -> & Hd & _ & H1 & _). simpl in *. rw map_size_disj_union //. lia. Qed.
Lemma at_least_one a w : a ↦ w ⊢ at_least 1.
Proof. split. intros h c ->. simpl. by rw map_size_singleton. Qed.

Section read.
Context (junk : bytes) (Hjunk : length junk = MAX_ENTRY_BUF_SIZE) `{HC : Compressors} `{HL : LogQuery L}.
Context {col : Z} {K : nat} {r : TreeRef} (HK : Z.of_nat K < 2 ^ 32).
Context {ts : list ValueTable} {log : L} {h : store} (Ht : tree_values col (tr_ref_counted r) ts log h).
Abbreviation entry := (entry (tr_compression r) K).
Abbreviation subtree := (subtree (tr_compression r) K).
Abbreviation children d := (subtree d (ORDER / 2)).
Abbreviation body d := (body (tr_compression r) K (children d)).
Abbreviation comp := (tr_compression r).

(** The height is bounded by the number of values. *)
Lemma subtree_at_least d : ∀ lo oc l, subtree d lo oc l ⊢ at_least d ∗ True.
Proof.
  induction d as [|d IH]; iIntros (lo oc l) "H".
  { iSplit; [|done]. iDestruct "H" as "_". iStopProof. split. intros h' c _. simpl. lia. }
  iDestruct "H" as (a ks cs) "(_ & Ha & H)". iAssert (at_least d ∗ True)%I with "[H]" as "[H HT]".
  { destruct ks as [|k ks], cs as [|c cs]; cbn [BTreeRep.body]; try (by iDestruct "H" as "[]").
    - destruct cs; [|by iDestruct "H" as "[]"]. iApply (IH with "H").
    - iDestruct "H" as (l1 e l2) "(_ & Hc & _)". iApply (IH with "Hc"). }
  iDestruct (at_least_one with "Ha") as "Ha". iDestruct (at_least_add 1 d with "[$Ha $H]") as "$".
Qed.

(** ** A node *)
Lemma stored_in d lo oc l c : (subtree (S d) lo oc l ∗ True)%I h c →
  ∃ a ks cs n, oc = Some a ∧ wf_address a ∧ get_value junk comp ts (QCheck NoHash) a log = Ok (Some (Address_size_tier a, node_bytes ks cs)) ∧
    from_encoded (node_bytes ks cs) = Ok n ∧ shape n (Some <$> ks) cs ∧ (body d ks cs l ∗ True)%I h c.
Proof.
  intros H. assert (H' : (∃ a ks cs, ⟦oc = Some a ∧ wf_address a ∧ (length ks ≤ ORDER)%nat ∧ length cs = S (length ks) ∧ wf_seps K ks ∧ wf_kids d cs⟧ ∗
    (a ↦ node_rec ks cs ∗ (body d ks cs l ∗ True)))%I h c).
  { revert H. apply hp_at. iIntros "[H HT]". iDestruct (subtree_stored with "H") as (a ks cs) "(%Hx & %Hy & Ha & H)". destruct Hx as [-> _], Hy.
    iDestruct (body_facts HK with "H") as %(Hl & Hw & Hc). iExists a, ks, cs. by iFrame. }
  destruct H' as (a & ks & cs & [(-> & Ha & Hlen & Hl & Hw & Hc) HP]%holds_pure).
  destruct (from_encoded_spec ks cs) as (n & En & Hn & _); [done|lia| | |].
  { eapply Forall_impl; [done|]. by intros k [? _]. }
  { eapply Forall_impl; [done|]. by intros k [? _]. }
  exists a, ks, cs, n. split_and!; try done.
  - rw (values_get junk Hjunk Ht comp (QCheck NoHash) a (node_rec ks cs)) //. by eapply points_to_lookup.
  - revert HP. apply hp_at. iIntros "(_ & $ & _)".
Qed.

Lemma get_above key l1 l2 : ordered (l1 ++ l2) → above key l2 → item_get key (l1 ++ l2) = item_get key l1.
Proof.
  intros (_ & Hl & _)%ordered_app Ha. pose proof (item_get_above key l2 Hl Ha) as Hn. unfold item_get in *.
  rw list_to_map_app lookup_union Hn. by rw right_id_L.
Qed.

(** The key is in the node, or below the child at its place. *)
Lemma find_hit d k1 x k2 cs l c key : (body d (k1 ++ x :: k2) cs l ∗ True)%I h c → ordered l → si_key x = key →
  ∃ w p, h !! si_value x = Some w ∧ v_key w = [] ∧ reading comp w = Some p ∧ item_get key l = Some p.
Proof.
  intros H Hl Hx. assert (H' : (∃ w p, ⟦v_key w = [] ∧ reading comp w = Some p ∧ item_get key l = Some p⟧ ∗ (si_value x ↦ w ∗ True))%I h c).
  { revert H. apply hp_at. iIntros "[H HT]". iDestruct (locate_hit with "H") as (c1 c2 l1 e l2) "(%Hy & _ & He & _)"; [done|].
    destruct Hy as (_ & _ & -> & Hb & Ee). iDestruct "He" as (w) "(Ha & %Hz)". destruct Hz as (_ & _ & _ & Hk & Hr). iExists w, e.2. iFrame "Ha".
    iPureIntro. split; [|done]. split_and!; try done. rw -Hx -Ee. rw -Ee in Hb. by apply item_get_hit. }
  destruct H' as (w & p & [(Hk & Hr & Hg) HP]%holds_pure). exists w, p. split_and!; try done. by eapply points_to_lookup.
Qed.

Lemma find_miss d k1 k2 cs l c key : (body d (k1 ++ k2) cs l ∗ True)%I h c → ordered l → Forall (λ x, key_lt (si_key x) key) k1 →
  (∀ x, head k2 = Some x → key_lt key (si_key x)) →
  ∃ c1 oc c2 lm, cs = c1 ++ oc :: c2 ∧ length c1 = length k1 ∧ ordered lm ∧ item_get key l = item_get key lm ∧ (children d oc lm ∗ True)%I h c.
Proof.
  intros H Hl Hk1 Hk2. assert (H' : (∃ c1 oc c2 lm, ⟦cs = c1 ++ oc :: c2 ∧ length c1 = length k1 ∧ ordered lm ∧ item_get key l = item_get key lm⟧ ∗
    (children d oc lm ∗ True))%I h c).
  { revert H. apply hp_at. iIntros "[H HT]". iDestruct (locate _ _ _ _ _ _ _ key with "H") as (c1 oc c2 l1 lm l2) "(%Hy & HL & H & _)"; [done|done|].
    destruct Hy as (-> & -> & Hb & Hbe). iDestruct (lefts_length with "HL") as %Hc1. iExists c1, oc, c2, lm. iFrame "H". iPureIntro. split; [|done].
    assert (Ha : above key l2) by (apply (begins_above k2 _ None); [done|]; destruct k2; [done|]; by apply Hk2).
    apply ordered_app in Hl as (_ & Hl & _). split_and!; try done; [by apply ordered_app in Hl as [? _]|]. rw item_get_app //. by apply get_above. }
  destruct H' as (c1 & oc & c2 & lm & [(-> & Hc1 & Hlm & Hg) HP]%holds_pure). by exists c1, oc, c2, lm.
Qed.

(** ** The search *)
(** The result of a search: the address of the value of the key. *)
Definition found (key : bytes) (l : list item) (o : option Z) : Prop :=
  match o with
  | Some a => ∃ w p, h !! a = Some w ∧ v_key w = [] ∧ reading comp w = Some p ∧ item_get key l = Some p
  | None => item_get key l = None
  end.

Lemma Node_get_spec key : ∀ d fuel n ks cs l c, (d < fuel)%nat → (body d ks cs l ∗ True)%I h c → shape n (Some <$> ks) cs → ordered l →
  ∃ o, Node_get junk fuel r key log ts n = Ok o ∧ found key l o.
Proof.
  induction d as [|d IH]; intros [|fuel] n ks cs l c Hfuel H Hs Hl; try lia; cbn [Node_get].
  all: destruct (position_spec Hs key) as (k1 & k2 & -> & Epos & Hk1 & Hk2); rw Epos; case_bool_decide as Hh.
  1, 3: destruct k2 as [|x k2]; [done|]; injection Hh as Hx; destruct (find_hit _ _ _ _ _ _ _ key H Hl Hx) as (w & p & Hw);
    rw fmap_app in Hs; rw (separator_address_spec Hs (length_fmap _ _)); eexists; split; [done|]; by exists w, p.
  all: assert (Hk2' : ∀ x, head k2 = Some x → key_lt key (si_key x))
      by (intros x Hx; destruct (Hk2 x Hx) as [Hxk|]; [destruct Hh; by rw Hx /= Hxk|done]).
  all: destruct (find_miss _ _ _ _ _ _ key H Hl Hk1 Hk2') as (c1 & oc & c2 & lm & -> & Hc1 & Hlm & Hg & HP);
    unfold fetch_child; destruct (kid_at Hs Hc1) as (x & Ex & Hx); rw (arr_get_ok _ _ _ Ex); cbn [mbind outcome_bind]; rw Hx.
  - destruct HP as (h1 & h2 & cx & cy & _ & _ & _ & [_ [-> ->]] & _). exists None. split; [done|]. simpl. by rw Hg.
  - destruct (stored_in _ _ _ _ _ HP) as (a & ks' & cs' & n' & -> & Ha & E & En & Hs' & HB'). unfold get_encoded_entry. rw E. cbn [mbind outcome_bind].
    rw En. cbn [mbind outcome_bind]. destruct (IH fuel n' ks' cs' lm c) as (o & Eo & Ho); try done; [lia|]. exists o. split; [done|].
    destruct o; simpl in *; by rw Hg.
Qed.

Lemma tree_header d l c : (tree (K := K) (r := r) d l ∗ True)%I h c →
  ∃ root, wf_kid root ∧ ordered l ∧ (tree_at (K := K) (r := r) d root l ∗ True)%I h c ∧
    btree_header junk r log ts = Ok (mkBHeader (default NULL_ADDRESS root) (Z.of_nat d)).
Proof.
  intros H. assert (H' : (∃ root w, ⟦wf_kid root ∧ ordered l ∧ Z.of_nat d < 2 ^ 32 ∧ v_key w = [] ∧
      plain comp w = Ok (header_bytes (default NULL_ADDRESS root) (Z.of_nat d))⟧ ∗ (HEADER_ADDRESS ↦ w ∗ (tree_at (K := K) (r := r) d root l ∗ True)))%I h c).
  { revert H. apply hp_at. iIntros "[H HT]". iDestruct "H" as (root) "(%Hx & Hh & H)". destruct Hx. iDestruct "Hh" as (w) "(Ha & %Hy)". destruct Hy.
    iDestruct (tree_at_kid with "H") as %Hk. iExists root, w. by iFrame. }
  destruct H' as (root & w & [(Hk & Hl & Hd & Hwk & Hp) HP]%holds_pure). exists root. split_and!; try done.
  - revert HP. apply hp_at. iIntros "(_ & $ & _)".
  - unfold btree_header. rw (values_get junk Hjunk Ht comp (QFetch false) HEADER_ADDRESS w) //; [|by eapply points_to_lookup].
    cbn [query_hit]. rw Hp. cbn [mbind outcome_bind]. apply read_header_spec; [by apply kid_range|lia].
Qed.

(** The path from the root is short enough for the fuel. *)
Lemma path_fuel_enough d lo oc l c : (subtree (S d) lo oc l ∗ True)%I h c → (d < path_fuel ts)%nat.
Proof.
  intros H. assert (H' : at_least (S d) h c).
  { revert H. apply hp_at. iIntros "[H HT]". iDestruct (subtree_at_least with "H") as "[H HT']". iApply at_least_True. iFrame. }
  simpl in H'. pose proof (values_size Ht). unfold path_fuel. lia.
Qed.

Lemma BTreeTable_get_spec d l c key : (tree (K := K) (r := r) d l ∗ True)%I h c → BTreeTable_get junk r key log ts = Ok (snd <$> item_get key l).
Proof.
  intros H. destruct (tree_header d l c H) as (root & Hk & Hl & HP & E). unfold BTreeTable_get. rw E. cbn [mbind outcome_bind bh_root].
  destruct root as [a|].
  - simpl in Hk. rw bool_decide_false; [|unfold wf_address, NULL_ADDRESS in *; simpl; lia]. unfold BTree_get, fetch_root. cbn [bt_root_index default from_option id].
    rw bool_decide_false; [|unfold wf_address, NULL_ADDRESS in *; simpl; lia]. pose proof (path_fuel_enough _ _ _ _ _ HP) as Hfuel.
    destruct (stored_in _ _ _ _ _ HP) as (a' & ks & cs & n & [= <-] & Ha & Ev & En & Hs & HB'). unfold get_encoded_entry. rw Ev. cbn [mbind outcome_bind].
    rw En. cbn [mbind outcome_bind]. destruct (Node_get_spec key d _ n ks cs l c Hfuel HB' Hs Hl) as (o & Eo & Ho). rw Eo. cbn [mbind outcome_bind].
    destruct o as [b|]; simpl in Ho; [|by rw Ho]. destruct Ho as (w & p & Hw & Hwk & Hr & ->).
    rw (values_get junk Hjunk Ht comp (QFetch false) b w) //. cbn [query_hit]. apply reading_plain in Hr as [-> _]. done.
  - destruct HP as (h1 & h2 & cx & cy & _ & _ & _ & [_ [_ ->]] & _). done.
Qed.
End read.
