(* ===== verification/BTreeTheorems.v ===== *)
(** * B-trees: the theorems

    The contract of a tree column stated against the operations of src/src/btree, with concrete
    instances. *)

From stdpp Require Import sorting.
From iris.proofmode Require Import proofmode.
From S2P Require Import Prelude IndexEntry IndexChunk Log Stats IndexTable ValueEntry File ValueTable ValueSlots ValueChains ValueWrite ValueRead ValueInv ValueSpec ValueTheorems Compress Options Column ColumnTables ColumnValues ColumnTheorems KeyOrder Commit Db BTreeItems BTreeNode BTree BTreeShape BTreeCodec BTreeLogic BTreeStore BTreeRep BTreeOps BTreeChange BTreeRoot BTreeRead BTreeColumn.

(** A tree column holds the entries [l], with keys of at most [K] bytes, in a balanced tree of
    height [d]; every value in its tables is the header, a node or the value of an entry. *)
Definition tree_holds `{HC : Compressors} `{HL : LogQuery L} (c : BTreeTable) (log : L) (K d : nat) (l : list item) : Prop :=
  ∃ h, tree_values (bt_id c) (bt_ref_counted c) (bt_tables c) log h ∧ tree (K := K) (r := locked c) d l h 0%nat.

(** Room for [n] writes of at most [B] bytes. *)
Definition tree_room (c : BTreeTable) (n B : nat) : Prop :=
  ∀ tier t, bt_tables c !! tier = Some t → filled t + Z.of_nat (n * write_slots B) ≤ SLOTS.

Lemma write_refines `{HC : Compressors} junk c w K B d l changes :
  CompressorsOk HC → length junk = MAX_ENTRY_BUF_SIZE → tree_holds c w K d l →
  Z.of_nat K < 2 ^ 32 → (node_size K ≤ B)%nat → Z.of_nat (d + length changes) < 2 ^ 32 →
  Forall (ok_change (B := B) (K := K)) changes → tree_room c (level_cost (d + length changes) * length changes + 2) B →
  ∃ c' w' d' l', BTreeChangeSet_write_plan junk changes (c, w) = (Ok (Z.of_nat (length changes)), (c', w')) ∧
    tree_holds c' w' K d' l' ∧ (d' ≤ d + length changes)%nat ∧
    ∀ key, item_get key l' = key_steps (bt_ref_counted c) (key_changes key changes) (item_get key l).
Proof.
  intros HCO Hj (h & Hv & Ht) HK HB HD Hok Hroom. set (D := (d + length changes)%nat) in *. set (m := (level_cost D * length changes + 2)%nat) in *.
  assert (Hl : ordered l).
  { destruct Ht as (root & [[Hl _] _]%holds_pure). done. }
  assert (Hpre : (tree (K := K) (r := locked c) d l ∗ £m)%I h m).
  { exists h, ∅, 0%nat, m. rw right_id_L. split_and!; try done. apply map_disjoint_empty_r. }
  apply (hp_at (wp_BTree_write_plan junk Hj (col := bt_id c) HK HB D d (record_id (change w)) changes l HD (Nat.le_refl _) Hok)) in Hpre.
  destruct (Hpre (mkVS (bt_tables c) w None) ∅ 0%nat) as (n & s' & h' & c' & E & _ & Hi' & HP).
  { apply map_disjoint_empty_r. }
  { rw right_id_L Nat.add_0_r. split; done. }
  rw right_id_L in Hi'. apply holds_pure in HP as [-> (d' & [Hd' HP]%holds_pure)]. apply tree_credit_free in HP.
  exists (set_tables (vs_tables s') c), (vs_log s'), d', (item_steps (bt_ref_counted c) (sort_changes changes) l). split_and!.
  - unfold BTreeChangeSet_write_plan. mrun. change (id (c, w)) with (c, w). cbv beta iota. unfold on_tables. by rw E.
  - exists h'. split; [apply (si_tables Hi')|exact HP].
  - done.
  - intros key. rw item_get_steps // sort_changes_stable //.
Qed.

(** ** An instance: a new tree column *)
Definition tree_options : Options :=
  mkOptions (replicate 3 (mkColumnOptions false false true Lz4 true)) true true false (Some (replicate 32 Byte.x00)) {[2 := 4]}.
Definition tree_metadata : Metadata := mkMetadata (replicate 32 Byte.x00) 8 (replicate 3 (mkColumnOptions false false true Lz4 true)).
Definition new_tree_tables : list ValueTable := match open_tables (λ _, None) 2 true 8 with Ok ts => ts | _ => [] end.
Definition first_table : ValueTable := default (fresh_table (Some 32) true) (new_tree_tables !! 0%nat).
Definition header_table : ValueTable := (init_with_entry zeros (header_bytes 0 0) first_table).2.
Definition empty_header : vrec := mkVal 1 [] (header_bytes 0 0) false.

(** A table with a header and nothing else. *)
Lemma one_entry_inv `{HL : LogQuery L} t (log : L) :
  filled t = 2 → last_removed t = 0 → entry_size t = 32 → multipart t = false → ref_counted t = true →
  slot_has t log 1 (SPlain false (le_bytes 4 1 ++ header_bytes 0 0)) → table_inv t log 0 {[1 := empty_header]}.
Proof.
  intros Hf1 Hf2 Hf3 Hf4 Hf5 Hs. eexists {[1 := SPlain false _]}, {[1 := [1]]}, []. split.
  - split; rw ?Hf1 ?Hf3 ?Hf4; try done; lia.
  - unfold PARTIAL_SIZE. lia.
  - intros i c [<- <-]%lookup_singleton_Some. split_and!; [lia|lia| |exact Hs].
    cbn [wf_slot]. unfold es_nat, header_bytes. rw Hf3 !length_app !le_bytes_length. simpl. lia.
  - rw Hf2. constructor.
  - by rw !dom_singleton_L.
  - intros i v l [<- <-]%lookup_singleton_Some [_ <-]%lookup_singleton_Some. split_and!; try done; [|by rw Hf4].
    unfold content, rc_bytes. rw Hf5. constructor. apply lookup_insert_eq.
  - rw Hf1. unfold owned. rw map_to_list_singleton. done.
Qed.

(** New tables with this header in the first one are an empty tree. *)
Section new_tree.
Context `{HC : Compressors} `{HL : LogQuery L} (log : L) {col : Z} {rc : bool} {ts : list ValueTable} {t : ValueTable}.
Context (Hn : tables_inv col rc 0 ts log no_values) (Hid : vt_id t = TableId_new col 0) (Hrc : ref_counted t = rc).
Context (Hmulti : multipart t = false) (Hes : entry_size t = 32).

Lemma new_tree_values v : table_inv t log 0 {[1 := v]} → tree_values col rc (<[0%nat := t]> ts) log {[HEADER_ADDRESS := v]}.
Proof.
  intros Hinv. destruct (tt_len Hn) as [Hl Hl']. exists (<[0%nat := {[1 := v]}]> no_values). split; [split|].
  - by rw !length_insert.
  - intros [|tier] t'; [rw list_lookup_insert_eq; [|rw Hl; unfold SIZE_TIERS; lia]|rw list_lookup_insert_ne //; apply (tt_id Hn)]. by intros [= <-].
  - intros [|tier] t'; [rw list_lookup_insert_eq; [|rw Hl; unfold SIZE_TIERS; lia]|rw list_lookup_insert_ne //; apply (tt_size Hn)].
    intros [= <-]. by rw Hmulti Hes.
  - intros [|tier] t' m; [rw !list_lookup_insert_eq; [|rw ?Hl ?Hl'; unfold SIZE_TIERS; lia..]|rw !list_lookup_insert_ne //; apply (tt_inv Hn)].
    by intros [= <-] [= <-].
  - intros a. destruct (decide (a = HEADER_ADDRESS)) as [->|Hne].
    + case_decide as Ha; [by rw lookup_insert_eq|]. exfalso. apply Ha. split; vm_compute; congruence.
    + rw lookup_insert_ne // lookup_empty. case_decide as Ha; [|done]. unfold val_at. destruct (address_parts a Ha) as (_ & [Ht _] & Hlt & Ea).
      destruct (Z.to_nat (Address_size_tier a)) as [|tier] eqn:Etier.
      * rw list_lookup_insert_eq; [|rw Hl'; unfold SIZE_TIERS; lia]. cbn [mbind option_bind]. rw lookup_singleton_ne //. intros Eo. apply Hne.
        rw -Ea -Eo. assert (Address_size_tier a = 0) as -> by lia. done.
      * rw list_lookup_insert_ne //. destruct (no_values !! S tier) as [m|] eqn:Em; [|done]. by apply lookup_replicate in Em as [-> _].
Qed.

Lemma new_tree_holds K comp : table_inv t log 0 {[1 := empty_header]} → tree_holds (mkTree col (<[0%nat := t]> ts) rc comp) log K 0 [].
Proof.
  intros Hinv. exists {[HEADER_ADDRESS := empty_header]}. split; [by apply new_tree_values|].
  assert (H : points_to HEADER_ADDRESS empty_header {[HEADER_ADDRESS := empty_header]} 0%nat) by done.
  revert H. apply hp_at. iIntros "H". iExists None. iSplit; [iPureIntro; split; [constructor|done]|]. iSplitL; [|done].
  iExists empty_header. iFrame "H". done.
Qed.

Lemma new_tree_room comp n B : filled t ≤ 2 → (∀ tier t, ts !! tier = Some t → filled t = 1) → Z.of_nat (n * write_slots B) < 2 ^ 47 →
  tree_room (mkTree col (<[0%nat := t]> ts) rc comp) n B.
Proof.
  intros Ht Hf Hw tier t'. cbn [bt_tables]. destruct (tt_len Hn) as [Hl _].
  destruct tier as [|tier]; [rw list_lookup_insert_eq; [|rw Hl; unfold SIZE_TIERS; lia]|rw list_lookup_insert_ne //].
  - intros [= <-]. unfold SLOTS. lia.
  - intros E%Hf. unfold SLOTS. lia.
Qed.
End new_tree.

Definition sample_tree : BTreeTable := mkTree 2 (<[0%nat := header_table]> new_tree_tables) true (Compress_new Lz4 4).
(** It is what opening the column makes of the tables. *)
Lemma sample_tree_opened : BTreeTable_open zeros 2 new_tree_tables tree_options tree_metadata = Ok sample_tree.
Proof.
  assert (Ei : (init_with_entry zeros (header_bytes 0 0) first_table).1 = Ok tt) by (vm_compute; reflexivity).
  assert (Ea : arr_get (Z.to_nat (Address_size_tier HEADER_ADDRESS)) new_tree_tables = Ok first_table) by (vm_compute; reflexivity).
  assert (En : is_init first_table = false) by (vm_compute; reflexivity).
  unfold BTreeTable_open. cbv zeta. rw Ea. cbn [mbind outcome_bind]. rw En (write_header_spec NULL_ADDRESS 0). cbn [mbind outcome_bind e_buf].
  unfold sample_tree, header_table. destruct (init_with_entry zeros _ first_table) as [o t]. cbn [fst snd] in *. rw Ei. reflexivity.
Qed.
Lemma header_table_fields : vt_id header_table = TableId_new 2 0 ∧ ref_counted header_table = true ∧ multipart header_table = false ∧
  entry_size header_table = 32 ∧ filled header_table = 2 ∧ last_removed header_table = 0.
Proof. split_and!; vm_compute; reflexivity. Qed.
Lemma header_table_inv : table_inv header_table fresh_log 0 {[1 := empty_header]}.
Proof.
  destruct header_table_fields as (_ & ? & ? & ? & ? & ?). apply one_entry_inv; try assumption. exists (replicate 14 Byte.x00). vm_compute. reflexivity.
Qed.
Lemma new_tree_tables_inv : tables_inv 2 true 0 new_tree_tables fresh_log no_values ∧ ∀ tier t, new_tree_tables !! tier = Some t → filled t = 1.
Proof.
  unfold new_tree_tables. destruct (new_tables 2 true) as [ts E]. rw E. split; [apply new_tables_inv; [unfold PARTIAL_SIZE; lia|exact E]|].
  destruct (open_tables_spec _ _ _ _ _ E) as [_ Ho]. clear E. intros tier t E%Ho. revert E. unfold ValueTable_open.
  destruct (SIZES !! tier) as [z|] eqn:Ez; simpl; [case_match; [done|]|]; by intros [= <-].
Qed.
Lemma sample_tree_holds K : tree_holds (HC := toy) sample_tree fresh_log K 0 [].
Proof.
  destruct header_table_fields as (? & ? & ? & ? & _). apply new_tree_holds; [apply new_tree_tables_inv|assumption..|apply header_table_inv].
Qed.
Lemma sample_tree_room n B : Z.of_nat (n * write_slots B) < 2 ^ 47 → tree_room sample_tree n B.
Proof.
  destruct header_table_fields as (_ & _ & _ & _ & Hf & _). destruct new_tree_tables_inv as [Hi H1]. intros Hn.
  apply (new_tree_room fresh_log Hi); [rw Hf; lia|exact H1|exact Hn].
Qed.

Definition tree_changes : list Change := [OpSet [Byte.x05] short_value; OpSet [Byte.x03] [Byte.x01]; OpReference [Byte.x05]; OpDereference [Byte.x04]].

(** The tree after the changes of a record. *)
Definition grown_tree (changes : list Change) : BTreeTable * LogWriter :=
  (BTreeChangeSet_write_plan (H := toy) zeros changes (sample_tree, fresh_log)).2.
Lemma grown_tree_holds changes : Forall (ok_change (B := node_size 8) (K := 8)) changes → (length changes < 100)%nat →
  ∃ d l, tree_holds (HC := toy) (grown_tree changes).1 (grown_tree changes).2 8 d l ∧
    ∀ key, item_get key l = key_steps true (key_changes key changes) None.
Proof.
  intros Hok Hlen. destruct (write_refines (HC := toy) zeros sample_tree fresh_log 8 (node_size 8) 0 [] changes) as (c' & w' & d' & l' & E & Ht & _ & Hg).
  - apply toy_ok.
  - apply zeros_length.
  - apply sample_tree_holds.
  - lia.
  - lia.
  - lia.
  - exact Hok.
  - apply sample_tree_room. unfold level_cost, change_cost, write_slots. change (node_size 8) with 240%nat. nia.
  - unfold grown_tree. rw E. exists d', l'. split; [exact Ht|]. intros key. by rw Hg.
Qed.
Definition nine_keys : list Change := (λ n, OpSet [byte_of n] [byte_of n]) <$> seqZ 1 9.

(** ** Changes *)

(** C7. Planning the changes of a record on a tree column that has room for them succeeds: the
    column then holds, in a balanced tree, for every key what the changes of this key, in the
    order they were committed, make of its value and reference counter ([spec_step]), and no
    slot is lost: every value in the tables is the header, a node or the value of an entry.
    Splits, merges, moved nodes and changes of many keys in one walk are covered; the recursion
    and the loops end. *)
Theorem btree_write_refines `{HC : Compressors} junk c w K B d l changes :
  CompressorsOk HC → length junk = MAX_ENTRY_BUF_SIZE → tree_holds c w K d l →
  Z.of_nat K < 2 ^ 32 → (node_size K ≤ B)%nat → Z.of_nat (d + length changes) < 2 ^ 32 →
  Forall (ok_change (B := B) (K := K)) changes → tree_room c (level_cost (d + length changes) * length changes + 2) B →
  ∃ c' w' d' l', BTreeChangeSet_write_plan junk changes (c, w) = (Ok (Z.of_nat (length changes)), (c', w')) ∧
    tree_holds c' w' K d' l' ∧ (d' ≤ d + length changes)%nat ∧
    ∀ key, item_get key l' = key_steps (bt_ref_counted c) (key_changes key changes) (item_get key l).
Proof. apply write_refines. Qed.

Lemma btree_write_refines_witness :
  ∃ c' w' d' l', BTreeChangeSet_write_plan (H := toy) zeros tree_changes (sample_tree, fresh_log) = (Ok 4, (c', w')) ∧
    tree_holds (HC := toy) c' w' 8 d' l' ∧ item_get [Byte.x05] l' = Some (2, short_value) ∧ item_get [Byte.x04] l' = None.
Proof.
  destruct (btree_write_refines (HC := toy) zeros sample_tree fresh_log 8 (node_size 8) 0 [] tree_changes) as (c' & w' & d' & l' & E & Ht & _ & Hg).
  - apply toy_ok.
  - apply zeros_length.
  - apply sample_tree_holds.
  - lia.
  - lia.
  - simpl. lia.
  - repeat constructor; simpl; lia.
  - apply sample_tree_room. vm_compute. reflexivity.
  - exists c', w', d', l'. split; [exact E|]. split; [exact Ht|]. rw !Hg. split; reflexivity.
Defined.

(** ** Reading *)

(** C8. Reading a key of a tree column returns the value of its entry, decompressed if it was
    stored compressed, and nothing for a key without an entry: the search goes down the right
    child at every node, and the path ends before the fuel, which is one more than the number
    of slots in use. *)
Theorem btree_get_is_lookup `{HC : Compressors} `{HL : LogQuery L} junk c (log : L) K d l key :
  length junk = MAX_ENTRY_BUF_SIZE → Z.of_nat K < 2 ^ 32 → tree_holds c log K d l →
  BTreeTable_get junk (locked c) key log (bt_tables c) = Ok (snd <$> item_get key l).
Proof.
  intros Hj HK (h & Hv & Ht). apply (BTreeTable_get_spec junk Hj HK (r := locked c) Hv d l 0). revert Ht. apply hp_at. iIntros "$".
Qed.

Lemma btree_get_is_lookup_witness :
  BTreeTable_get (H := toy) zeros (locked (grown_tree tree_changes).1) [Byte.x05] (grown_tree tree_changes).2 (bt_tables (grown_tree tree_changes).1)
    = Ok (Some short_value) ∧
  BTreeTable_get (H := toy) zeros (locked (grown_tree tree_changes).1) [Byte.x04] (grown_tree tree_changes).2 (bt_tables (grown_tree tree_changes).1) = Ok None.
Proof.
  destruct (grown_tree_holds tree_changes) as (d & l & Ht & Hg); [repeat constructor; simpl; lia|simpl; lia|].
  split.
  - rw (btree_get_is_lookup (HC := toy) zeros _ _ 8 d l [Byte.x05] zeros_length ltac:(lia) Ht) Hg. reflexivity.
  - rw (btree_get_is_lookup (HC := toy) zeros _ _ 8 d l [Byte.x04] zeros_length ltac:(lia) Ht) Hg. reflexivity.
Defined.

(** ** The shape of the tree *)
Section height.
Context `{HC : Compressors} {comp : Compress} {K : nat}.
Lemma body_size (Sub : option Z → list item → hprop) n ks : (∀ oc l, Sub oc l ⊢ ⌜(n ≤ S (length l))%nat⌝) →
  ∀ cs l, body comp K Sub ks cs l ⊢ ⌜(S (length ks) * n ≤ S (length l))%nat⌝.
Proof.
  intros HS. induction ks as [|k ks IH]; intros [|c cs] l; cbn [body]; iIntros "H"; try (by iDestruct "H" as "[]").
  - destruct cs; [|by iDestruct "H" as "[]"]. iDestruct (HS with "H") as %H. iPureIntro. simpl. lia.
  - iDestruct "H" as (l1 e l2) "(-> & Hc & _ & H)". iDestruct (HS with "Hc") as %H1. iDestruct (IH with "H") as %H2. iPureIntro.
    rw length_app /=. simpl in *. lia.
Qed.
Lemma subtree_size d : ∀ lo oc l, subtree comp K (S d) lo oc l ⊢ ⌜(S lo * 5 ^ d ≤ S (length l))%nat⌝.
Proof.
  induction d as [|d IH]; iIntros (lo oc l) "H"; iDestruct "H" as (a ks cs) "(%Hx & _ & H)"; destruct Hx as (_ & _ & Hlo & _).
  - iDestruct (body_size _ 1 with "H") as %H; [|iPureIntro; simpl in *; lia]. intros. iIntros "_". iPureIntro. lia.
  - iDestruct (body_size _ (5 ^ S d) with "H") as %H; [|iPureIntro; nia]. intros. apply (IH (ORDER / 2)%nat).
Qed.
End height.



(** ** Nodes *)

(** C22. A node that is written is read back: the encoding of a node with up to eight separators
    in order and one child more, all or none of them there, decodes to a node with the same
    separators and children, whatever the modification marks and gaps of the array were. *)
Theorem node_roundtrip n ks cs :
  shape n (Some <$> ks) cs → length cs = S (length ks) → Forall wf_sep ks → Forall wf_kid cs →
  ∃ b n', encode_node n = Ok b ∧ from_encoded b = Ok n' ∧ shape n' (Some <$> ks) cs ∧ nd_changed n' = false.
Proof.
  intros Hs Hl Hk Hc. exists (node_bytes ks cs). pose proof (sh_seps_len Hs) as Hlen. rw length_fmap in Hlen.
  destruct (from_encoded_spec ks cs) as (n' & E & Hs' & Hc'); [done..|]. exists n'. split_and!; try done. by apply encode_node_spec.
Qed.

Definition sample_node : Node :=
  mkNode (mkSep true (Some (mkInner [Byte.x07] 512)) :: replicate 7 Separator_default) (mkChild false (Some 768) :: mkChild true (Some 1024) :: replicate 7 Child_default) true.
Lemma node_roundtrip_witness :
  ∃ b n', encode_node sample_node = Ok b ∧ from_encoded b = Ok n' ∧ shape n' [Some (mkInner [Byte.x07] 512)] [Some 768; Some 1024] ∧ nd_changed n' = false.
Proof.
  apply (node_roundtrip sample_node [mkInner [Byte.x07] 512] [Some 768; Some 1024]).
  - split; try reflexivity; simpl; unfold ORDER, ORDER_CHILD; lia.
  - reflexivity.
  - repeat constructor; simpl; lia.
  - repeat constructor; simpl; lia.
Defined.
