(* ===== verification/BTreeWalk.v ===== *)
(** * Iterators over tree columns: the walk

    The nodes of a tree as an iterator reads them, and the place of a stack of nodes among the
    entries: the entries that a walk has behind and ahead of it. *)

From stdpp Require Import sorting.
From S2P Require Import Prelude IndexEntry IndexChunk Log Stats IndexTable ValueEntry File ValueTable Compress Options KeyOrder Column ColumnEnact BTreeNode BTree Commit LogFiles Db BTreeColumn BTreeIter BTreeItems.

(** ** Entries and children in turn *)
(** The entries left of child [i] of a node, right of it, and all entries. *)
Definition before (ls : list (list item)) (es : list item) (i : nat) : list item := concat (zip_with (λ l e, l ++ [e]) (take i ls) (take i es)).
Definition after (ls : list (list item)) (es : list item) (i : nat) : list item := concat (zip_with cons (drop i es) (drop (S i) ls)).
Definition weave (ls : list (list item)) (es : list item) : list item := default [] (head ls) ++ after ls es 0.

Section weave.
Context (ls : list (list item)) (es : list item).

Lemma before_step i l e : ls !! i = Some l → es !! i = Some e → before ls es (S i) = before ls es i ++ l ++ [e].
Proof.
  intros Hl He. unfold before. rewrite (take_S_r ls i l Hl), (take_S_r es i e He), zip_with_app, concat_app.
  - simpl. by rewrite app_nil_r.
  - rewrite !length_take. apply lookup_lt_Some in Hl, He. lia.
Qed.
Lemma after_step i l e : es !! i = Some e → ls !! S i = Some l → after ls es i = e :: l ++ after ls es (S i).
Proof. intros He Hl. unfold after. rewrite (drop_S es e i He), (drop_S ls l (S i) Hl). done. Qed.
Lemma after_end i : (length es ≤ i)%nat → after ls es i = [].
Proof. intros Hi. unfold after. by rewrite drop_ge by done. Qed.
Lemma weave_at i l : length ls = S (length es) → ls !! i = Some l → weave ls es = before ls es i ++ l ++ after ls es i.
Proof.
  intros Hlen. revert l. induction i as [|i IH]; intros l Hl.
  - unfold weave. destruct ls; [done|]. simpl in Hl. injection Hl as ->. done.
  - apply lookup_lt_Some in Hl as Hi. destruct (ls !! i) as [l0|] eqn:E0; [|apply lookup_ge_None in E0; lia].
    destruct (es !! i) as [e|] eqn:Ee; [|apply lookup_ge_None in Ee; lia].
    rewrite (IH l0) by done. rewrite (before_step i l0 e), (after_step i l e) by done. by rewrite <-!app_assoc.
Qed.
End weave.

Section walk.
Context (junk : bytes) `{HC : Compressors} `{HL : LogQuery L} (col : BTreeTable) (log : L).
Abbreviation fetch i n := (fetch_child junk (locked col) i log (bt_tables col) n).

(** What the walk reads of a node: its separators and their values. *)
Record node_reads (n : Node) (es : list item) : Prop := {
  nr_size : (length es ≤ ORDER)%nat;
  nr_entry i e : es !! i = Some e → ∃ a tier, separator_address i n = Ok (Some a) ∧ separator_key i n = Ok (Some e.1) ∧
    get_at_value_index junk (QFetch false) a log col = Ok (Some (tier, e.2.2));
  nr_none i : (length es ≤ i < ORDER)%nat → separator_address i n = Ok None;
  nr_has i : (i < ORDER)%nat → has_separator i n = Ok (bool_decide (i < length es)%nat);
  nr_last : match last_separator_index n with Some i => S i | None => 0%nat end = length es;
  nr_position key : ∃ i, (i ≤ length es)%nat ∧ position key n = (bool_decide (fst <$> es !! i = Some key), i) ∧
    Forall (λ x, key_lt x.1 key) (take i es) ∧ (∀ x, es !! i = Some x → x.1 = key ∨ key_lt key x.1);
}.

(** A node whose children hold the lists [ls], by what it means for a child to hold a list. *)
Definition node_holds (kid : nat → list item → Prop) (n : Node) (ls : list (list item)) (es : list item) : Prop :=
  node_reads n es ∧ length ls = S (length es) ∧ ∀ i lm, ls !! i = Some lm → kid i lm.

(** A node at height [h] that holds the entries [l]. *)
Fixpoint walkable (h : nat) (n : Node) (l : list item) : Prop :=
  ∃ ls es, l = weave ls es ∧
    node_holds (λ i lm, match h with
                        | O => lm = []
                        | S h' => ∃ n', fetch i n = Ok (Some n') ∧ walkable h' n' lm
                        end) n ls es.
Definition kid_in (h : nat) (n : Node) (i : nat) (lm : list item) : Prop :=
  match h with O => lm = [] | S h' => ∃ n', fetch i n = Ok (Some n') ∧ walkable h' n' lm end.
Abbreviation node_in h n ls es := (node_holds (kid_in h n) n ls es).
Lemma walkable_in h n l : walkable h n l ↔ ∃ ls es, l = weave ls es ∧ node_in h n ls es.
Proof. by destruct h. Qed.

(** ** Places *)
Context (D : nat) (all : list item).

(** The nodes above a node of height [h], with the entries left of it, below it and right of it. *)
Inductive context : nat → Stack → list item → list item → list item → Prop :=
  | context_root : context D [] [] all []
  | context_down h n rest i ls es lb la lm :
      context (S h) rest lb (weave ls es) la → node_in (S h) n ls es → ls !! i = Some lm →
      context h ((Descend i, n) :: rest) (lb ++ before ls es i) lm (after ls es i ++ la).

Lemma context_all h rest lb lm la : context h rest lb lm la → all = lb ++ lm ++ la.
Proof.
  induction 1 as [|h n rest i ls es lb la lm _ IH (_ & Hlen & _) Hi]; [by rewrite app_nil_r|].
  rewrite IH, (weave_at ls es i lm) by done. by rewrite <-!app_assoc.
Qed.
Lemma context_height h rest lb lm la : context h rest lb lm la → (h + length rest = D)%nat.
Proof. induction 1; simpl in *; lia. Qed.

(** The entries a stack has behind it and ahead of it; before the first step these are all. *)
Definition stack_at (st : Stack) (bs fs : list item) : Prop :=
  match st with
  | [] => bs = all ∧ fs = all
  | (ix, n) :: rest => ∃ h ls es lb la, context h rest lb (weave ls es) la ∧ node_in h n ls es ∧
      match ix with
      | At i => ∃ e l l', es !! i = Some e ∧ ls !! i = Some l ∧ ls !! S i = Some l' ∧
          bs = lb ++ before ls es i ++ l ∧ fs = l' ++ after ls es (S i) ++ la
      | Seeked i => ∃ e l l', es !! i = Some e ∧ ls !! i = Some l ∧ ls !! S i = Some l' ∧
          bs = (lb ++ before ls es i ++ l) ++ [e] ∧ fs = e :: l' ++ after ls es (S i) ++ la
      | Before i => h = O ∧ (i ≤ length es)%nat ∧ bs = lb ++ before ls es i ∧ fs = after ls es i ++ la
      | Descend _ => False
      end
  end.

(** What a walk returns of the entries ahead of it. *)
Definition shown (e : item) : bytes * bytes := (e.1, e.2.2).

(** ** One round *)
Abbreviation round dir := (next_round junk col log dir (Z.of_nat D)).
Abbreviation loop fuel dir := (next_loop junk col log fuel dir (Z.of_nat D)).
Abbreviation leaf rest := (bool_decide (Z.of_nat D + 1 = Z.of_nat (S (length rest)))).

Lemma leaf_height h rest lb lm la : context h rest lb lm la → leaf rest = bool_decide (h = O).
Proof. intros H%context_height. apply bool_decide_ext. lia. Qed.

Lemma round_at dir ix n rest es i e : node_reads n es → es !! i = Some e → next_index dir (leaf rest) ix = Some (At i) →
  round dir ((ix, n) :: rest) = (Ok (inl (Some (shown e))), (At i, n) :: rest).
Proof.
  intros Hn He Hix. destruct (nr_entry _ _ Hn i e He) as (a & tier & Ea & Ek & Ev). unfold next_round. simpl length.
  rewrite Hix, Ea, Ek. cbn [mbind outcome_bind]. rewrite Ev. done.
Qed.

Lemma round_leave dir ix n rest es b st' : node_reads n es → exit_up dir rest = Ok (b, st') →
  match next_index dir (leaf rest) ix with None => True | Some (At i) => (length es ≤ i < ORDER)%nat | _ => False end →
  round dir ((ix, n) :: rest) = (Ok (if b then inl None else inr tt), st').
Proof.
  intros Hn Hex Hix. unfold next_round, exit. simpl length. simpl tail. rewrite Hex.
  destruct (next_index dir (leaf rest) ix) as [[| i | |]|]; try done; [|by destruct b].
  rewrite (nr_none _ _ Hn i Hix). by destruct b.
Qed.

Lemma round_descend dir ix n rest i n' : next_index dir (leaf rest) ix = Some (Descend i) → fetch i n = Ok (Some n') →
  round dir ((ix, n) :: rest) = (Ok (inr tt), (node_start n' dir (leaf ((Descend i, n) :: rest)), n') :: (Descend i, n) :: rest).
Proof.
  intros Hix Hf. unfold next_round. simpl length. rewrite Hix, Hf. repeat f_equal. apply bool_decide_ext. lia.
Qed.

Lemma loop_return fuel dir st o st' : round dir st = (Ok (inl o), st') → loop (S fuel) dir st = (Ok o, st').
Proof. intros E. cbn [next_loop]. mstep E. done. Qed.
Lemma loop_continue fuel dir st st' : round dir st = (Ok (inr tt), st') → loop (S fuel) dir st = loop fuel dir st'.
Proof. intros E. cbn [next_loop]. by mstep E. Qed.

(** ** Steps *)
(** The entries a walk comes to, given what is behind and ahead of it in the order of keys. *)
Definition ahead (dir : IterDirection) (bs fs : list item) : list item := match dir with Forward => fs | Backward => reverse bs end.

(** A step over the first of the entries to come; at the end the stack is empty. *)
Definition steps (dir : IterDirection) (o : option (bytes * bytes)) (st' : Stack) (next : list item) : Prop :=
  match next with
  | [] => o = None ∧ st' = []
  | e :: next' => o = Some (shown e) ∧ ∃ bs fs, all = bs ++ e :: fs ∧ stack_at st' bs fs ∧ next' = ahead dir bs fs
  end.

(** The entry at [i] of the node on top. *)
Lemma at_entry h n rest ls es lb la i e : context h rest lb (weave ls es) la → node_in h n ls es → es !! i = Some e →
  ∃ l l', ls !! i = Some l ∧ ls !! S i = Some l' ∧ all = (lb ++ before ls es i ++ l) ++ e :: l' ++ after ls es (S i) ++ la ∧
    stack_at ((At i, n) :: rest) (lb ++ before ls es i ++ l) (l' ++ after ls es (S i) ++ la).
Proof.
  intros Hc Hn He. pose proof Hn as (_ & Hlen & _). apply lookup_lt_Some in He as Hi.
  destruct (lookup_lt_is_Some_2 ls i) as [l Hl]; [lia|]. destruct (lookup_lt_is_Some_2 ls (S i)) as [l' Hl']; [lia|].
  exists l, l'. split_and!; try done.
  - rewrite (context_all _ _ _ _ _ Hc), (weave_at ls es i l), (after_step ls es i l' e) by done. by rewrite <-!app_assoc; simpl; rewrite <-!app_assoc.
  - exists h, ls, es, lb, la. split; [done|]. split; [done|]. by exists e, l, l'.
Qed.

(** The entries to come when a walk reaches the separator [i] from the side it comes from. *)
Definition from_separator (dir : IterDirection) ls es (i : nat) lb la : list item :=
  match dir with Forward => after ls es i ++ la | Backward => reverse (lb ++ before ls es (S i)) end.

Lemma return_entry fuel dir h ix n rest ls es lb la i e : context h rest lb (weave ls es) la → node_in h n ls es → es !! i = Some e →
  next_index dir (leaf rest) ix = Some (At i) →
  ∃ o st', loop (S fuel) dir ((ix, n) :: rest) = (Ok o, st') ∧ steps dir o st' (from_separator dir ls es i lb la).
Proof.
  intros Hc Hn He Hix. destruct (at_entry _ _ _ _ _ _ _ _ _ Hc Hn He) as (l & l' & Hl & Hl' & Hall & Hst).
  eexists _, _. split; [apply loop_return; eapply round_at; [apply Hn|done|done]|].
  destruct dir; simpl.
  - rewrite (before_step ls es i l e), !app_assoc, reverse_snoc by done. split; [done|]. eexists _, _. split_and!; [done..|]. simpl. by rewrite <-app_assoc.
  - rewrite (after_step ls es i l' e) by done. split; [done|]. eexists _, _. split_and!; [done..|]. simpl. by rewrite <-app_assoc.
Qed.

(** Leaving a node: up to the first ancestor with a separator on the side of the walk. *)
Lemma exit_spec dir h rest lb lm la : context h rest lb lm la →
  (ahead dir lb la = [] ∧ exit_up dir rest = Ok (true, [])) ∨
  ∃ h' n rest' i j e ls es lb' la', exit_up dir rest = Ok (false, (Before i, n) :: rest') ∧
    context (S h') rest' lb' (weave ls es) la' ∧ node_in (S h') n ls es ∧ es !! j = Some e ∧
    next_index dir (leaf rest') (Before i) = Some (At j) ∧ ahead dir lb la = from_separator dir ls es j lb' la'.
Proof.
  induction 1 as [|h n rest i ls es lb la lm Hc IH Hn Hi]; [by left; destruct dir|]. pose proof Hn as (Hr & Hlen & _). pose proof (nr_size _ _ Hr).
  apply lookup_lt_Some in Hi. cbn [exit_up]. destruct dir; cbn [mbind outcome_bind ahead].
  - case_bool_decide as HO; [subst i; rewrite app_nil_r; exact IH|]. right. destruct i as [|i]; [done|].
    destruct (lookup_lt_is_Some_2 es i) as [e He]; [lia|]. exists h, n, rest, (S i), i, e, ls, es, lb, la. split_and!; try done. simpl. by rewrite Nat.sub_0_r.
  - case_bool_decide as HO; cbn [mbind outcome_bind]; [rewrite after_end by lia; exact IH|].
    rewrite (nr_has _ _ Hr i) by (unfold ORDER in *; lia). cbn [mbind outcome_bind]. case_bool_decide as Hlt; simpl negb; cbv iota; [|rewrite after_end by lia; exact IH].
    right. destruct (lookup_lt_is_Some_2 es i Hlt) as [e He]. exists h, n, rest, i, i, e, ls, es, lb, la. split_and!; try done. simpl. by rewrite bool_decide_false.
Qed.

Lemma leave_node fuel dir h ix n rest es lb lm la : context h rest lb lm la → node_reads n es →
  match next_index dir (leaf rest) ix with None => True | Some (At i) => (length es ≤ i < ORDER)%nat | _ => False end →
  ∃ o st', loop (S (S fuel)) dir ((ix, n) :: rest) = (Ok o, st') ∧ steps dir o st' (ahead dir lb la).
Proof.
  intros Hc Hr Hix. destruct (exit_spec dir _ _ _ _ _ Hc) as [[-> Hex]|(h' & n' & rest' & i & j & e & ls' & es' & lb' & la' & Hex & Hc' & Hn' & He & Hj & ->)].
  - exists None, []. split; [|done]. apply loop_return. by eapply round_leave in Hex.
  - eapply round_leave in Hex; [|done..]. rewrite (loop_continue _ _ _ _ Hex). by eapply return_entry.
Qed.

(** In a leaf, the gap before [i]. *)
Lemma leaf_lists ls es n : node_in 0 n ls es → ∀ i, (i ≤ length es)%nat → ls !! i = Some [].
Proof. intros (_ & Hlen & Hk) i Hi. destruct (lookup_lt_is_Some_2 ls i) as [l Hl]; [lia|]. by rewrite Hl, (Hk i l Hl). Qed.

Lemma leaf_gap fuel dir ix n rest ls es lb la i : context 0 rest lb (weave ls es) la → node_in 0 n ls es → (i ≤ length es)%nat →
  next_index dir (leaf rest) ix = next_index dir (leaf rest) (Before i) →
  ∃ o st', loop (S (S fuel)) dir ((ix, n) :: rest) = (Ok o, st') ∧ steps dir o st' (ahead dir (lb ++ before ls es i) (after ls es i ++ la)).
Proof.
  intros Hc Hn Hi Hix. pose proof Hn as (Hr & _). pose proof (nr_size _ _ Hr). destruct dir; simpl ahead.
  - destruct i as [|i].
    + rewrite app_nil_r. eapply (leave_node _ Backward); try done. by rewrite Hix.
    + destruct (lookup_lt_is_Some_2 es i) as [e He]; [lia|]. eapply (return_entry _ Backward); try done. rewrite Hix. simpl. by rewrite Nat.sub_0_r.
  - destruct (es !! i) as [e|] eqn:He.
    + eapply (return_entry _ Forward); try done. rewrite Hix. simpl. rewrite bool_decide_false; [done|]. apply lookup_lt_Some in He. lia.
    + apply lookup_ge_None in He. rewrite after_end by lia. eapply (leave_node _ Forward 0 ix n rest es); try done. rewrite Hix. simpl. destruct (decide (i = ORDER)); [by rewrite bool_decide_true|rewrite bool_decide_false by done; lia].
Qed.

(** Down to the first entry below a node. *)
Lemma enter_node dir : ∀ h fuel n rest lb lm la, context h rest lb lm la → walkable h n lm → (h + 2 ≤ fuel)%nat →
  ∃ o st', loop fuel dir ((node_start n dir (leaf rest), n) :: rest) = (Ok o, st') ∧ steps dir o st' (ahead dir (lb ++ lm) (lm ++ la)).
Proof.
  induction h as [|h IH]; intros fuel n rest lb lm la Hc (ls & es & -> & Hn)%walkable_in Hf; destruct fuel as [|[|fuel]]; try lia;
    rewrite (leaf_height _ _ _ _ _ Hc); pose proof Hn as (Hr & Hlen & Hk);
    set (i := match dir with Forward => 0%nat | Backward => length es end);
    assert (Hst : node_start n dir = λ b, if b then Before i else Descend i) by (by destruct dir; unfold node_start; rewrite ?(nr_last _ _ Hr)); rewrite Hst;
    assert (Hi : (i ≤ length es)%nat) by (unfold i; destruct dir; lia).
  - rewrite bool_decide_true by done. cbv iota. replace (ahead dir _ _) with (ahead dir (lb ++ before ls es i) (after ls es i ++ la)); [by apply leaf_gap|].
    rewrite (weave_at ls es i [] Hlen (leaf_lists _ _ _ Hn i Hi)). destruct dir; simpl; rewrite ?app_nil_l.
    + unfold i. by rewrite after_end, app_nil_r by done.
    + done.
  - rewrite bool_decide_false by done. cbv iota. destruct (lookup_lt_is_Some_2 ls i) as [l Hl]; [lia|].
    destruct (Hk i l Hl) as (n' & Hf' & Hw). erewrite loop_continue by (apply round_descend; [by destruct dir|done]).
    replace (ahead dir _ _) with (ahead dir ((lb ++ before ls es i) ++ l) (l ++ after ls es i ++ la));
      [eapply (IH (S fuel)); try done; [|lia]; by eapply (context_down _ _ _ i) in Hc|].
    rewrite (weave_at ls es i l) by done. destruct dir; simpl.
    + unfold i. by rewrite after_end, app_nil_r, <-app_assoc by done.
    + by rewrite <-!app_assoc.
Qed.

(** A step from a place in the tree. *)
Lemma loop_spec dir fuel st bs fs : st ≠ [] → stack_at st bs fs → (D + 3 ≤ fuel)%nat →
  ∃ o st', loop fuel dir st = (Ok o, st') ∧ steps dir o st' (ahead dir bs fs).
Proof.
  destruct st as [|[ix n] rest]; [done|]. intros _ (h & ls & es & lb & la & Hc & Hn & Hix) Hf.
  destruct fuel as [|[|fuel]]; try lia. pose proof (context_height _ _ _ _ _ Hc) as HD. pose proof Hn as (Hr & Hlen & Hk). pose proof (nr_size _ _ Hr) as Hsz.
  destruct ix as [i|i|i|i]; [| | |done].
  - destruct Hix as (e & l & l' & He & Hl & Hl' & -> & ->).
    destruct (return_entry (S fuel) dir h (Seeked i) n rest ls es lb la i e Hc Hn He) as (o & st' & E & Hs); [by destruct dir|]. exists o, st'. split; [done|].
    replace (ahead dir _ _) with (from_separator dir ls es i lb la); [done|]. destruct dir; simpl.
    + by rewrite (before_step ls es i l e), !app_assoc by done.
    + rewrite (after_step ls es i l' e) by done. simpl. by rewrite <-app_assoc.
  - destruct Hix as (e & l & l' & He & Hl & Hl' & -> & ->). apply lookup_lt_Some in He as Hi.
    set (j := match dir with Forward => S i | Backward => i end). destruct h as [|h].
    + pose proof (leaf_lists _ _ _ Hn) as Hll. assert (l = []) as -> by (rewrite (Hll i) in Hl; [congruence|lia]).
      assert (l' = []) as -> by (rewrite (Hll (S i)) in Hl'; [congruence|lia]). rewrite app_nil_r, app_nil_l. 
      assert (next_index dir (leaf rest) (At i) = next_index dir (leaf rest) (Before j)) as Hnext.
      { rewrite (leaf_height _ _ _ _ _ Hc), bool_decide_true by done. subst j. destruct dir; simpl; [done|]. by case_bool_decide. }
      destruct (leaf_gap fuel dir (At i) n rest ls es lb la j Hc Hn) as (o & st' & E & Hs); [subst j; destruct dir; lia|done|].
      exists o, st'. split; [done|]. by destruct dir.
    + assert (next_index dir (leaf rest) (At i) = Some (Descend j)) as Hnext by (rewrite (leaf_height _ _ _ _ _ Hc); by destruct dir).
      set (lj := match dir with Forward => l' | Backward => l end). assert (ls !! j = Some lj) as Hj by (by destruct dir).
      destruct (Hk j lj Hj) as (n' & Hf' & Hw). erewrite loop_continue by (by apply round_descend).
      destruct (enter_node dir h (S fuel) n' _ _ _ _ (context_down _ _ _ _ _ _ _ _ _ Hc Hn Hj) Hw) as (o & st' & E & Hs); [lia|].
      exists o, st'. split; [done|]. destruct dir; [|done]. simpl in *. by rewrite <-app_assoc in Hs.
  - destruct Hix as (-> & Hi & -> & ->). by apply leaf_gap.
Qed.

(** ** Seeking *)
(** The keys an iterator comes to from its last key. *)
Definition reaches (dir : IterDirection) (lk : LastKey) (key : bytes) : bool :=
  match dir, lk with
  | Forward, LKStart | Backward, LKEnd => true
  | Forward, LKEnd | Backward, LKStart => false
  | Forward, LKAt k => bytes_lt k key
  | Forward, LKSeeked k => bytes_le k key
  | Backward, LKAt k => bytes_lt key k
  | Backward, LKSeeked k => bytes_le key k
  end.
Definition reached (dir : IterDirection) (lk : LastKey) (l : list item) : list item := filter (λ x, reaches dir lk x.1) l.

(** Entries on one side of the last key. *)
Definition left_of (lk : LastKey) (x : item) : Prop := reaches Backward lk x.1 ∧ ¬ reaches Forward lk x.1.
Definition right_of (lk : LastKey) (x : item) : Prop := reaches Forward lk x.1 ∧ ¬ reaches Backward lk x.1.
Lemma reached_all dir lk l : Forall (λ x : item, reaches dir lk x.1) l → reached dir lk l = l.
Proof. unfold reached. induction 1 as [|x l Hx _ IH]; [done|]. rewrite filter_cons, IH. by case_decide. Qed.
Lemma reached_none dir lk l : Forall (λ x : item, ¬ reaches dir lk x.1) l → reached dir lk l = [].
Proof. unfold reached. induction 1 as [|x l Hx _ IH]; [done|]. rewrite filter_cons, IH. by case_decide. Qed.
Lemma reached_left dir lk l : Forall (left_of lk) l → reached dir lk l = match dir with Backward => l | Forward => [] end.
Proof. intros H. destruct dir; [apply reached_all|apply reached_none]; eapply Forall_impl; try exact H; by intros x []. Qed.
Lemma reached_right dir lk l : Forall (right_of lk) l → reached dir lk l = match dir with Forward => l | Backward => [] end.
Proof. intros H. destruct dir; [apply reached_none|apply reached_all]; eapply Forall_impl; try exact H; by intros x []. Qed.
Lemma reached_app dir lk l l' : reached dir lk (l ++ l') = reached dir lk l ++ reached dir lk l'.
Proof. apply filter_app. Qed.

Lemma reached_seeked dir (e : item) : reached dir (LKSeeked e.1) [e] = [e].
Proof. unfold reached. rewrite filter_cons. destruct dir; simpl; unfold bytes_le; rewrite bytes_cmp_refl; by case_decide. Qed.
Lemma reached_at dir (e : item) : reached dir (LKAt e.1) [e] = [].
Proof. unfold reached. rewrite filter_cons. destruct dir; simpl; unfold bytes_lt; rewrite bytes_cmp_refl; by case_decide. Qed.

Definition last_of (s : SeekTo) : LastKey := match s with SeekInclude k => LKSeeked k | SeekExclude k => LKAt k | SeekLast => LKEnd end.

Lemma below_left s key l : SeekTo_key s = Some key → below key l → Forall (left_of (last_of s)) l.
Proof.
  intros Hs Hb. eapply Forall_impl; [exact Hb|]. intros x Hx. simpl in Hx. unfold left_of. destruct s; try done; injection Hs as ->; simpl; unfold bytes_lt, bytes_le.
  all: rewrite (proj2 (bytes_cmp_gt _ _) Hx); unfold key_lt in Hx; rewrite Hx; split; [done|by intros []].
Qed.
Lemma above_right s key l : SeekTo_key s = Some key → ordered l → above key l → Forall (right_of (last_of s)) l.
Proof.
  intros Hs Hl Ha. assert (Forall (λ x : item, key_lt key x.1) l) as H.
  { destruct Hl as [|x l Hl Hx]; constructor; [done|]. eapply Forall_impl; [exact Hx|]. intros y Hy. simpl in *. by transitivity x.1. }
  eapply Forall_impl; [exact H|]. intros x Hx. simpl in Hx. unfold right_of. destruct s; try done; injection Hs as ->; simpl; unfold bytes_lt, bytes_le.
  all: rewrite (proj2 (bytes_cmp_gt _ _) Hx); unfold key_lt in Hx; rewrite Hx; split; [done|by intros []].
Qed.

Definition seek_position (s : SeekTo) (n : Node) : bool * nat :=
  match SeekTo_key s with
  | Some key => position key n
  | None => (false, match last_separator_index n with Some i => S i | None => 0%nat end)
  end.

Lemma before_below h n ls es i key : node_in h n ls es → ordered (weave ls es) → (i ≤ length es)%nat → below key (take i es) → below key (before ls es i).
Proof.
  intros (_ & Hlen & _) Hord Hi Hb. destruct i as [|j]; [constructor|].
  destruct (lookup_lt_is_Some_2 es j) as [e He]; [lia|]. destruct (lookup_lt_is_Some_2 ls j) as [l Hl]; [lia|].
  destruct (lookup_lt_is_Some_2 ls (S j)) as [l' Hl']; [lia|]. rewrite (take_S_r es j e He) in Hb. apply below_app in Hb as [_ [He' _]%Forall_cons].
  rewrite (weave_at ls es (S j) l'), (before_step ls es j l e), app_assoc in Hord by done. apply ordered_app in Hord as [[Hord _]%ordered_app _]. rewrite app_assoc in Hord.
  rewrite (before_step ls es j l e), app_assoc by done. apply below_app. split; [|by apply Forall_singleton].
  eapply ordered_below; [exact Hord|]. by apply key_lt_asym.
Qed.

(** Where the search goes on in a node. *)
Lemma seek_place s h n ls es : node_in h n ls es → ordered (weave ls es) →
  ∃ i, (i ≤ length es)%nat ∧ Forall (left_of (last_of s)) (before ls es i) ∧
    ((∃ e, SeekTo_key s = Some e.1 ∧ seek_position s n = (true, i) ∧ es !! i = Some e) ∨
     (seek_position s n = (false, i) ∧ Forall (right_of (last_of s)) (after ls es i))).
Proof.
  intros Hn Hord. pose proof Hn as (Hr & Hlen & _). unfold seek_position. destruct (SeekTo_key s) as [key|] eqn:Ek.
  - destruct (nr_position _ _ Hr key) as (i & Hi & Ep & Hb & Ha). exists i. split; [done|]. split; [by eapply below_left, before_below|].
    rewrite Ep. destruct (es !! i) as [e|] eqn:He; simpl.
    + destruct (decide (e.1 = key)) as [<-|Hne]; [left; exists e; by rewrite bool_decide_true|]. right. rewrite bool_decide_false by congruence.
      split; [done|]. destruct (lookup_lt_is_Some_2 ls i) as [l Hl]; [lia|]. rewrite (weave_at ls es i l) in Hord by done.
      apply ordered_app in Hord as (_ & (_ & Hord & _)%ordered_app & _). eapply above_right; [done..|].
      destruct (lookup_lt_is_Some_2 ls (S i)) as [l' Hl']; [apply lookup_lt_Some in He; lia|]. rewrite (after_step ls es i l' e) by done. simpl. naive_solver.
    + right. apply lookup_ge_None in He. by rewrite after_end by lia.
  - destruct s; try done. exists (length es). split; [done|]. rewrite (nr_last _ _ Hr). split; [|right; by rewrite after_end].
    apply Forall_forall. intros x _. by split; [|intros []].
Qed.

(** A place with the entries on the two sides of the last key. *)
Definition placed (st : Stack) (lk : LastKey) : Prop := stack_at st (reached Backward lk all) (reached Forward lk all).

Lemma reached_cut dir lk bs fs : all = bs ++ fs → Forall (left_of lk) bs → Forall (right_of lk) fs → reached dir lk all = match dir with Backward => bs | Forward => fs end.
Proof. intros -> Hb Hf. rewrite reached_app, reached_left, reached_right by done. destruct dir; [by rewrite app_nil_r|done]. Qed.

(** The entry with the key that is sought. *)
Lemma reached_entry s dir bs e fs : ordered all → all = bs ++ e :: fs → SeekTo_key s = Some e.1 →
  let here := match s with SeekInclude _ => [e] | _ => [] end in
  reached dir (last_of s) all = match dir with Backward => bs ++ here | Forward => here ++ fs end.
Proof.
  intros Hord Hall Hs. simpl. rewrite Hall in Hord.
  assert (Forall (left_of (last_of s)) bs) as HB. { eapply below_left; [done|]. eapply ordered_below; [done|]. apply key_lt_irrefl. }
  assert (Forall (right_of (last_of s)) fs) as HF.
  { eapply above_right; [done| |by eapply ordered_above]. by apply ordered_app in Hord as (_ & [? _]%StronglySorted_inv & _). }
  rewrite Hall, (cons_middle e), !reached_app, (reached_left _ _ bs), (reached_right _ _ fs) by done.
  destruct s as [k|k|]; [| |done]; injection Hs as ->; cbn [last_of]; rewrite ?reached_seeked, ?reached_at; destruct dir; by rewrite ?app_nil_r.
Qed.

Lemma seek_hit s h n rest ls es lb la i e : ordered all → context h rest lb (weave ls es) la → node_in h n ls es → es !! i = Some e →
  SeekTo_key s = Some e.1 → placed ((match s with SeekExclude _ => At i | _ => Seeked i end, n) :: rest) (last_of s).
Proof.
  intros Hord Hc Hn He Hs. destruct (at_entry _ _ _ _ _ _ _ _ _ Hc Hn He) as (l & l' & Hl & Hl' & Hall & Hst). unfold placed.
  rewrite !(reached_entry s _ _ _ _ Hord Hall Hs). destruct s as [k|k|]; [|by rewrite app_nil_r|done].
  exists h, ls, es, lb, la. split; [done|]. split; [done|]. by exists e, l, l'.
Qed.

Lemma seek_node s : ordered all → ∀ h n rest lb lm la, context h rest lb lm la → walkable h n lm →
  Forall (left_of (last_of s)) lb → Forall (right_of (last_of s)) la →
  ∃ st, Node_seek junk col log s h n rest = (Ok tt, st) ∧ placed st (last_of s).
Proof.
  intros Hord h. induction h as [|h IH]; intros n rest lb lm la Hc (ls & es & -> & Hn)%walkable_in Hb Ha;
    pose proof (context_all _ _ _ _ _ Hc) as Hall; pose proof Hn as (Hr & Hlen & Hk);
    (assert (ordered (weave ls es)) as Hw by (rewrite Hall in Hord; by apply ordered_app in Hord as (_ & [? _]%ordered_app & _))).
  - destruct (seek_place s 0 n ls es Hn Hw) as (i & Hi & Hbi & [(e & Ek & Ep & He)|(Ep & Hai)]);
      cbn [Node_seek]; fold (seek_position s n); rewrite Ep; cbv beta iota.
    + pose proof (seek_hit s 0 n rest ls es lb la i e Hord Hc Hn He Ek). destruct s; try done; eexists; by split.
    + eexists. split; [done|]. assert (Hcut : all = (lb ++ before ls es i) ++ (after ls es i ++ la)).
      { rewrite Hall, (weave_at ls es i [] Hlen (leaf_lists _ _ _ Hn i Hi)). by rewrite <-!app_assoc. }
      unfold placed. rewrite !(reached_cut _ _ _ _ Hcut) by (by apply Forall_app). exists 0%nat, ls, es, lb, la. done.
  - destruct (seek_place s (S h) n ls es Hn Hw) as (i & Hi & Hbi & [(e & Ek & Ep & He)|(Ep & Hai)]);
      cbn [Node_seek]; fold (seek_position s n); rewrite Ep; cbv beta iota.
    + pose proof (seek_hit s (S h) n rest ls es lb la i e Hord Hc Hn He Ek). destruct s; try done; eexists; by split.
    + destruct (lookup_lt_is_Some_2 ls i) as [l Hl]; [lia|]. destruct (Hk i l Hl) as (n' & Hf' & Hw'). mlift Hf'. mrun.
      eapply (IH n' _ _ l); [by eapply context_down|done|by apply Forall_app..].
Qed.

(** ** The tree *)
Definition tree_walk (t : BTree) : Prop :=
  bt_depth t = Z.of_nat D ∧
  ∃ root, fetch_root junk (locked col) (default NULL_ADDRESS (bt_root_index t)) log (bt_tables col) = Ok root ∧ walkable D root all.

Lemma IterState_next_spec t dir st bs fs : tree_walk t → stack_at st bs fs →
  ∃ o st', IterState_next junk col log t dir st = (Ok o, st') ∧ steps dir o st' (ahead dir bs fs).
Proof.
  intros (HD & root & Hroot & Hw) Hst. unfold IterState_next. mrun. change (id st) with st. rewrite HD. destruct st as [|[ix n] rest].
  - rewrite M_bind_assoc. mlift Hroot. mrun. destruct Hst as [-> ->].
    replace (bool_decide (Z.of_nat D = 0)) with (leaf ([] : Stack)) by (apply bool_decide_ext; simpl; lia).
    destruct (enter_node dir D (walk_fuel (Z.of_nat D)) root [] [] all [] context_root Hw) as (o & st' & E & Hs); [unfold walk_fuel; lia|].
    exists o, st'. split; [exact E|]. by rewrite app_nil_l, app_nil_r in Hs.
  - mrun. apply loop_spec; [done|done|]. unfold walk_fuel. lia.
Qed.

Lemma IterState_seek_spec t s st : tree_walk t → ordered all → ∃ st', IterState_seek junk col log s t st = (Ok tt, st') ∧ placed st' (last_of s).
Proof.
  intros (HD & root & Hroot & Hw) Hord. unfold IterState_seek. mrun. mlift Hroot. rewrite HD, Nat2Z.id. eapply seek_node; [done|apply context_root|done|constructor..].
Qed.
End walk.
