(* ===== verification/BTreeCursor.v ===== *)
(** * Iterators over tree columns: the iterator

    An iterator merges the entries of the tree with those of the commit overlay.  Each step
    returns the entry a reader would see for the next key. *)

From stdpp Require Import sorting.
From S2P Require Import Prelude IndexEntry IndexChunk Log Stats IndexTable ValueEntry File ValueTable Compress Options KeyOrder Column ColumnEnact BTreeNode BTree Commit LogFiles Db BTreeColumn BTreeIter BTreeItems BTreeWalk.

(** ** Keys in a direction *)
Definition precedes (dir : IterDirection) (k k' : bytes) : Prop := match dir with Forward => key_lt k k' | Backward => key_lt k' k end.
#[export] Instance precedes_trans dir : Transitive (precedes dir).
Proof. intros x y z. destruct dir; simpl; intros; by etrans. Qed.
Lemma precedes_irrefl dir k : ¬ precedes dir k k.
Proof. destruct dir; apply key_lt_irrefl. Qed.
Lemma precedes_cases dir k k' : precedes dir k k' ∨ k = k' ∨ precedes dir k' k.
Proof. destruct dir; simpl; destruct (key_cases k k') as [|[|]]; auto. Qed.

Definition opposite (dir : IterDirection) : IterDirection := match dir with Forward => Backward | Backward => Forward end.

Lemma reaches_at dir k key : reaches dir (LKAt k) key ↔ precedes dir k key.
Proof. destruct dir; simpl; rewrite <-bytes_lt_spec; by rewrite Is_true_true. Qed.
Lemma reaches_after dir lk k key : reaches dir lk k → precedes dir k key → reaches dir lk key.
Proof.
  rewrite !Is_true_true. destruct dir, lk as [| |x|x]; simpl; try done; rewrite ?bytes_lt_spec, ?bytes_le_spec; intros H1 H2; try (by etrans).
  all: intros H3; apply H1; by etrans.
Qed.
(** A key that is not reached comes before every key that is. *)
Lemma reaches_before dir lk k key : reaches dir lk k → ¬ reaches dir lk key → precedes dir key k.
Proof.
  intros Hk Hn. destruct (precedes_cases dir k key) as [H|[->|H]]; [|done..]. destruct Hn. by eapply reaches_after.
Qed.

(** ** The next entry of the overlay *)
Section overlay.
Context (before : bytes → bytes → bool) (P : bytes → bool).
Context (Htr : ∀ x y z, before x y → before y z → before x z) (Htot : ∀ x y, before x y ∨ x = y ∨ before y x).

Lemma best_key_spec (l : list bytes) :
  match foldr (λ k best, if P k then match best with Some b => if before k b then Some k else Some b | None => Some k end else best) None l with
  | Some k => k ∈ l ∧ P k ∧ ∀ k', k' ∈ l → P k' → k' = k ∨ before k k'
  | None => ∀ k, k ∈ l → ¬ P k
  end.
Proof.
  induction l as [|x l IH]; simpl; [intros k []%elem_of_nil|]. destruct (P x) eqn:Px.
  - destruct (foldr _ None l) as [b|].
    + destruct IH as (Hb & HPb & Hall). destruct (before x b) eqn:Exb.
      * split_and!; [left|by rewrite Px|]. intros k' [->|Hk']%elem_of_cons HPk'; [by left|]. right.
        destruct (Hall k' Hk' HPk') as [->|Hbk]; [by rewrite Exb|]. eapply Htr; [|exact Hbk]. by rewrite Exb.
      * split_and!; [by right|done|]. intros k' [->|Hk']%elem_of_cons HPk'; [|by apply Hall].
        destruct (Htot b x) as [?|[?|Hx]]; auto. by rewrite Exb in Hx.
    + split_and!; [left|by rewrite Px|]. intros k' [->|Hk']%elem_of_cons HPk'; [by left|]. by destruct (IH k' Hk').
  - destruct (foldr _ None l) as [b|].
    + destruct IH as (Hb & HPb & Hall). split_and!; [by right|done|]. intros k' [->|Hk']%elem_of_cons HPk'; [by rewrite Px in HPk'|by apply Hall].
    + intros k [->|Hk]%elem_of_cons; [by rewrite Px; intros []|by apply IH].
Qed.

Lemma range_next_spec (m : gmap bytes (Z * option bytes)) :
  match range_next before P m with
  | Some (k, v) => (∃ id, m !! k = Some (id, v)) ∧ P k ∧ ∀ k', is_Some (m !! k') → P k' → k' = k ∨ before k k'
  | None => ∀ k, is_Some (m !! k) → ¬ P k
  end.
Proof.
  pose proof (best_key_spec (fst <$> map_to_list m)) as H. unfold range_next, best_key.
  assert (Hin : ∀ k, is_Some (m !! k) ↔ k ∈ fst <$> map_to_list m).
  { intros k. rewrite list_elem_of_fmap. split.
    - intros [v Hv]. exists (k, v). split; [done|]. by apply elem_of_map_to_list.
    - intros ([k' v] & -> & Hv). apply elem_of_map_to_list in Hv. simpl. eauto. }
  destruct (foldr _ None _) as [k|]; simpl.
  - destruct H as (Hk & HP & Hall). apply Hin in Hk as [[id v] Hv]. rewrite Hv. simpl. split_and!; [by exists id|done|]. intros k' Hk'. by apply Hall, Hin.
  - intros k Hk. by apply H, Hin.
Qed.
End overlay.

Definition tree_overlay (overlay : list CommitOverlay) (c : Z) : gmap bytes (Z * option bytes) :=
  match overlay !! Z.to_nat c with Some o => ov_btree o | None => ∅ end.
Definition next_commit (dir : IterDirection) (lk : LastKey) (overlay : list CommitOverlay) (c : Z) : option (bytes * option bytes) :=
  overlay !! Z.to_nat c ≫= λ o, match dir with Forward => btree_next lk o | Backward => btree_prev lk o end.

Lemma next_commit_spec dir lk overlay c (ov := tree_overlay overlay c) :
  match next_commit dir lk overlay c with
  | Some (k, v) => (∃ id, ov !! k = Some (id, v)) ∧ reaches dir lk k ∧ ∀ k', is_Some (ov !! k') → reaches dir lk k' → k' = k ∨ precedes dir k k'
  | None => ∀ k, is_Some (ov !! k) → ¬ reaches dir lk k
  end.
Proof.
  unfold next_commit, ov, tree_overlay. destruct (overlay !! Z.to_nat c) as [o|]; simpl; [|intros k [? [=]]].
  set (lt := match dir with Forward => bytes_lt | Backward => λ a b, bytes_lt b a end).
  assert (Hlt : ∀ x y, lt x y ↔ precedes dir x y) by (intros x y; unfold lt; destruct dir; by rewrite Is_true_true, bytes_lt_spec).
  assert (Hr : ∀ P, match range_next lt P (ov_btree o) with
                    | Some (k, v) => (∃ id, ov_btree o !! k = Some (id, v)) ∧ P k ∧ ∀ k', is_Some (ov_btree o !! k') → P k' → k' = k ∨ precedes dir k k'
                    | None => ∀ k, is_Some (ov_btree o !! k) → ¬ P k
                    end).
  { intros P. pose proof (range_next_spec lt P) as H. lapply H; [clear H; intros H|by intros x y z; rewrite !Hlt; apply transitivity].
    lapply H; [clear H; intros H|intros x y; rewrite !Hlt; apply precedes_cases]. specialize (H (ov_btree o)).
    destruct (range_next lt P (ov_btree o)) as [[k v]|]; [|done]. destruct H as (? & ? & H). split_and!; [done..|]. intros k' Hk' HP. rewrite <-Hlt. by apply H. }
  unfold lt in Hr. destruct dir, lk; simpl; try (apply Hr); by intros k _ [].
Qed.

(** ** The entries of the tree *)
Section entries.
Context (all : list item) (Hord : ordered all).

(** The entries that are not reached are on the other side. *)
Lemma reached_split dir lk : ∃ others, Forall (λ x : item, ¬ reaches dir lk x.1) others ∧
  all = match dir with Forward => others ++ reached Forward lk all | Backward => reached Backward lk all ++ others end.
Proof.
  induction Hord as [|x l Hl IH Hx]; [exists []; by destruct dir|]. destruct (IH Hl) as (others & Ho & E).
  rewrite Forall_forall in Hx. destruct (decide (reaches dir lk x.1)) as [Hd|Hd], dir; rewrite (reached_app _ _ [x] l : reached _ _ (x :: l) = _).
  - rewrite (reached_all _ _ [x]) by (by constructor). exists others. split; [done|]. simpl. by f_equal.
  - rewrite !reached_all; [by exists []| |by constructor]. apply Forall_forall. intros y Hy. eapply reaches_after; [exact Hd|]. by apply Hx.
  - rewrite !reached_none; [exists (x :: l); split; [constructor; [done|]|done]| |by constructor].
    all: apply Forall_forall; intros y Hy Hr; apply Hd; eapply reaches_after; [exact Hr|]; by apply Hx.
  - rewrite (reached_none _ _ [x]) by (by constructor). exists (x :: others). split; [by constructor|]. simpl. by f_equal.
Qed.

(** Passing a key that is reached before any entry: the entries on both sides are the same. *)
Lemma reached_skip dir lk ck : reaches dir lk ck → (∀ e, e ∈ reached dir lk all → precedes dir ck e.1) →
  reached dir (LKAt ck) all = reached dir lk all ∧
  all = match dir with Forward => reached Backward (LKAt ck) all ++ reached Forward lk all | Backward => reached Backward lk all ++ reached Forward (LKAt ck) all end.
Proof.
  intros Hck Hnext. destruct (reached_split dir lk) as (others & Ho & Hall).
  assert (Ho' : Forall (λ x : item, precedes dir x.1 ck) others) by (eapply Forall_impl; [exact Ho|]; intros x Hx; by eapply reaches_before).
  assert (Hn' : Forall (λ x : item, precedes dir ck x.1) (reached dir lk all)) by (by apply Forall_forall).
  assert (Hrel : ∀ a b, precedes dir a b → reaches dir (LKAt a) b ∧ ¬ reaches dir (LKAt b) a ∧ reaches (opposite dir) (LKAt b) a ∧ ¬ reaches (opposite dir) (LKAt a) b).
  { intros a b Hab. rewrite !reaches_at. assert (¬ precedes dir b a) by (intros Hba; apply (precedes_irrefl dir a); by etrans). by destruct dir. }
  destruct dir; simpl in *.
  all: set (next := reached _ lk all) in *; rewrite Hall at 1 3; rewrite !reached_app.
  - rewrite (reached_all Backward _ next), (reached_none Backward _ others), (reached_none Forward _ next), (reached_all Forward _ others), app_nil_r; [done|..].
    all: eapply Forall_impl; [exact Ho' || exact Hn'|]; intros x Hx; by apply Hrel in Hx as (? & ? & ? & ?).
  - rewrite (reached_all Forward _ next), (reached_none Forward _ others), (reached_none Backward _ next), (reached_all Backward _ others), app_nil_r; [done|..].
    all: eapply Forall_impl; [exact Ho' || exact Hn'|]; intros x Hx; by apply Hrel in Hx as (? & ? & ? & ?).
Qed.
End entries.

Section cursor.
Context (junk : bytes) `{HC : Compressors} (col : BTreeTable) (log : LogOverlays) (D : nat) (all : list item) (Hord : ordered all).
Abbreviation stack_at := (stack_at junk col log D all).
Abbreviation steps := (steps junk col log D all).

(** The entries of the tree to come from a last key. *)
Definition coming (dir : IterDirection) (lk : LastKey) : list item := ahead dir (reached Backward lk all) (reached Forward lk all).

(** What a stack and a pending entry offer in a direction. *)
Definition offers (dir : IterDirection) (st : Stack) (pending : option PendingBackend) (next : list item) : Prop :=
  match pending with
  | Some p => if bool_decide (pb_direction p = dir) then steps dir (pb_next_item p) st next else ∃ bs fs, stack_at st bs fs ∧ next = ahead dir bs fs
  | None => ∃ bs fs, stack_at st bs fs ∧ next = ahead dir bs fs
  end.

Lemma offers_entry dir lk e next' st : coming dir lk = e :: next' → steps dir (Some (shown e)) st (coming dir lk) →
  ∀ dir', offers dir' st None (coming dir' (LKAt e.1)).
Proof.
  intros -> (_ & bs & fs & Hall & Hst & _) dir'. exists bs, fs. split; [done|]. unfold coming.
  rewrite !(reached_entry _ (SeekExclude e.1) _ _ _ _ Hord Hall eq_refl : reached _ (LKAt e.1) all = _). by rewrite app_nil_r.
Qed.

Lemma coming_in dir lk e : e ∈ coming dir lk ↔ e ∈ reached dir lk all.
Proof. unfold coming. destruct dir; simpl; [by rewrite elem_of_reverse|done]. Qed.

Lemma offers_skip dir lk ck nb st : steps dir nb st (coming dir lk) → reaches dir lk ck → (∀ e, e ∈ coming dir lk → precedes dir ck e.1) →
  ∀ dir', offers dir' st (Some (mkPending nb dir)) (coming dir' (LKAt ck)).
Proof.
  intros Hs Hck Hnext dir'. destruct (reached_skip all Hord dir lk ck Hck) as [Hsame Hother]; [intros e He; by apply Hnext, coming_in|].
  simpl. case_bool_decide as Hd; [subst dir'; unfold coming in *; destruct dir; simpl in *; by rewrite Hsame|].
  unfold BTreeWalk.steps in Hs. destruct (coming dir lk) as [|e next'] eqn:En.
  - destruct Hs as [-> ->]. exists all, all. split; [done|].
    destruct dir, dir'; try done; simpl in *; unfold coming in *; simpl in *.
    + apply (f_equal reverse) in En. rewrite reverse_involutive in En. rewrite En in Hother. done.
    + rewrite En, app_nil_r in Hother. by f_equal.
  - destruct Hs as (-> & bs & fs & Hall & Hst & ->). exists bs, fs. split; [done|]. destruct dir, dir'; try done; unfold coming in *; simpl in *.
    + apply (f_equal reverse) in En. rewrite reverse_involutive, reverse_cons, reverse_involutive in En. rewrite En, <-app_assoc in Hother.
      rewrite Hall in Hother at 1. by apply app_inv_head in Hother as [=].
    + rewrite En in Hother. rewrite Hall in Hother at 1. apply app_inv_tail in Hother. by f_equal.
Qed.

Definition end_key (dir : IterDirection) : LastKey := match dir with Backward => LKStart | Forward => LKEnd end.
Lemma offers_end dir dir' : offers dir' [] (Some (mkPending None dir)) (coming dir' (end_key dir)).
Proof.
  assert (Hno : ∀ lk, (∀ k, ¬ reaches dir lk k) → reached dir lk all = []) by (intros lk H; apply reached_none, Forall_forall; auto).
  assert (Hall : ∀ lk d, (∀ k, reaches d lk k) → reached d lk all = all) by (intros lk d H; apply reached_all, Forall_forall; auto).
  simpl. case_bool_decide as Hd; [subst dir'|exists all, all; split; [done|]]; unfold coming.
  - destruct dir; simpl; rewrite Hno; (done || by intros ? []).
  - destruct dir, dir'; try done; simpl; by rewrite Hall.
Qed.

(** ** The iterator *)
Abbreviation tree_walk := (tree_walk junk col log D all).
Abbreviation current_record it := (LogOverlays_last_record_id log (bi_col it)).

(** A step backward needs a place to start from: a new iterator has none, and neither has one
    that has walked past the first entry and then missed a record. *)
Definition usable (dir : IterDirection) (it : BTreeIterator) : Prop :=
  dir = Forward ∨ bi_last_key it ≠ LKStart ∨
  (bt_record_id (bi_tree it) = current_record it ∧ bi_pending it = Some (mkPending None Backward)).

(** The stack and the pending entry of an iterator fit its last key, unless a record has been
    logged since, in which case they are not used any more. *)
Record iter_ok (it : BTreeIterator) : Prop := {
  io_record : is_record_id (bi_iter it) = bt_record_id (bi_tree it);
  io_place : bt_record_id (bi_tree it) = current_record it →
    tree_walk (bi_tree it) ∧
    ∀ dir, usable dir it → offers dir (is_state (bi_iter it)) (bi_pending it) (coming dir (bi_last_key it));
}.

(** The tree can be opened and walked. *)
Context (Hopen : ∀ rid, ∃ t, BTree_open junk (locked col) log rid (bt_tables col) = Ok t ∧ tree_walk t).

Lemma open_record rid t : BTree_open junk (locked col) log rid (bt_tables col) = Ok t → bt_record_id t = rid.
Proof. unfold BTree_open. intros H. by minv. Qed.

(** An iterator with a tree, a stack and nothing pending. *)
Definition at_stack (it : BTreeIterator) (t : BTree) (st : Stack) : BTreeIterator :=
  mkIterator t (mkIterState st (current_record it)) (bi_col it) None (bi_last_key it).

Lemma next_step it t st dir bs fs : tree_walk t → bt_record_id t = current_record it → stack_at st bs fs →
  ∃ nb st', next_backend junk col log (current_record it) dir (at_stack it t st) = (Ok nb, at_stack it t st') ∧ steps dir nb st' (ahead dir bs fs).
Proof.
  intros Ht Hrid Hst. destruct (IterState_next_spec junk col log D all t dir st bs fs Ht Hst) as (nb & st' & E & Hs).
  exists nb, st'. split; [|done]. unfold next_backend. mrun. simpl bi_tree. rewrite bool_decide_false by naive_solver. mrun.
  unfold on_stack. simpl. by rewrite E.
Qed.

Lemma next_reseek it dir : bt_record_id (bi_tree it) ≠ current_record it → dir = Forward ∨ bi_last_key it ≠ LKStart →
  ∃ nb t st', next_backend junk col log (current_record it) dir (set_pending None it) = (Ok nb, at_stack it t st') ∧
    tree_walk t ∧ bt_record_id t = current_record it ∧ steps dir nb st' (coming dir (bi_last_key it)).
Proof.
  intros Hrid Hu. destruct (Hopen (current_record it)) as (t & Eo & Ht). pose proof (open_record _ _ Eo) as Hrt.
  set (s := match bi_last_key it with LKAt k => SeekExclude k | LKSeeked k => SeekInclude k | LKStart => SeekInclude [] | LKEnd => SeekLast end).
  destruct (IterState_seek_spec junk col log D all t s (is_state (bi_iter it)) Ht Hord) as (st & Es & Hst).
  destruct (next_step it t st dir _ _ Ht Hrt Hst) as (nb & st' & E & Hs). exists nb, t, st'. split_and!; try done.
  - rewrite <-E. unfold next_backend at 1. mrun. change (id (set_pending None it)) with (set_pending None it).
    rewrite bool_decide_true by (by apply not_eq_sym). change (bi_last_key (set_pending None it)) with (bi_last_key it). fold s.
    unfold reopen. rewrite !M_bind_assoc. mlift Eo. mrun. rewrite M_bind_assoc.
    assert (Es' : on_stack (IterState_seek junk col log s) (set_tree t (set_pending None it)) = (Ok tt, set_stack st (set_tree t (set_pending None it)))).
    { unfold on_stack. change (bi_tree (set_tree t _)) with t. change (is_state _) with (is_state (bi_iter it)). by rewrite Es. }
    mstep Es'. mrun. unfold next_backend. mrun. rewrite bool_decide_false by (simpl; naive_solver). by mrun.
  - replace (coming dir (bi_last_key it)) with (ahead dir (reached Backward (last_of s) all) (reached Forward (last_of s) all)); [done|].
    unfold coming, s. destruct (bi_last_key it) eqn:El; try done. destruct dir; [naive_solver|]. simpl. rewrite !reached_all; [done|..]; apply Forall_forall; [done|].
    intros x _. simpl. unfold bytes_le. by destruct x.1.
Qed.

(** The next entry of the tree, from the pending one or by a step. *)
Lemma backend_spec it dir : iter_ok it → usable dir it →
  let pending := if bool_decide (current_record it ≠ is_record_id (bi_iter it)) then None else bi_pending it in
  let next_from_pending := match pending with Some p => if bool_decide (pb_direction p = dir) then Some (pb_next_item p) else None | None => None end in
  ∃ nb t st', (match next_from_pending with Some item => mret item | None => next_backend junk col log (current_record it) dir end) (set_pending None it) =
      (Ok nb, at_stack it t st') ∧ tree_walk t ∧ bt_record_id t = current_record it ∧ steps dir nb st' (coming dir (bi_last_key it)).
Proof.
  intros [Hrec Hplace] Hu. simpl. rewrite Hrec. destruct (decide (bt_record_id (bi_tree it) = current_record it)) as [Hr|Hr].
  - rewrite bool_decide_false by naive_solver. destruct (Hplace Hr) as [Ht Hoff]. specialize (Hoff dir Hu).
    assert (Hit : set_pending None it = at_stack it (bi_tree it) (is_state (bi_iter it))).
    { unfold at_stack. rewrite <-Hr, <-Hrec. by destruct it as [? [] ? ? ?]. }
    rewrite Hit. destruct (bi_pending it) as [p|]; simpl in Hoff; [case_bool_decide|].
    1: by eexists _, _, _. all: destruct Hoff as (bs & fs & Hst & ->); destruct (next_step it _ _ dir _ _ Ht Hr Hst) as (nb & st' & E & Hs); by exists nb, (bi_tree it), st'.
  - rewrite bool_decide_true by (by apply not_eq_sym). apply next_reseek; [done|]. destruct Hu as [|[|[? _]]]; auto.
Qed.

(** ** Merging *)
(** What a reader sees of a key: the last committed value, or else the entry of the tree. *)
Definition seen (overlay : list CommitOverlay) (c : Z) (key : bytes) : option bytes :=
  match tree_overlay overlay c !! key with Some (_, o) => o | None => snd <$> item_get key all end.

(** The first key with a value from a last key on. *)
Definition first_seen (dir : IterDirection) (lk : LastKey) (view : bytes → option bytes) (o : option (bytes * bytes)) : Prop :=
  match o with
  | Some (k, v) => reaches dir lk k ∧ view k = Some v ∧ ∀ k', reaches dir lk k' → precedes dir k' k → view k' = None
  | None => ∀ k', reaches dir lk k' → view k' = None
  end.

Lemma item_in key p : item_get key all = Some p → (key, p) ∈ all.
Proof. apply elem_of_list_to_map_2. Qed.
Lemma coming_nil dir lk key : coming dir lk = [] → reaches dir lk key → item_get key all = None.
Proof.
  intros E Hr. destruct (item_get key all) as [p|] eqn:Ep; [|done]. apply item_in in Ep. assert (H : (key, p) ∈ coming dir lk).
  { apply coming_in, list_elem_of_filter. done. } rewrite E in H. by apply elem_of_nil in H.
Qed.
Lemma coming_first dir lk e next' nb st : coming dir lk = e :: next' → steps dir nb st (coming dir lk) →
  reaches dir lk e.1 ∧ nb = Some (shown e) ∧ item_get e.1 all = Some e.2 ∧ (∀ x, x ∈ next' → precedes dir e.1 x.1) ∧
  ∀ k, reaches dir lk k → precedes dir k e.1 → item_get k all = None.
Proof.
  intros E Hs. assert (He : e ∈ coming dir lk) by (rewrite E; left). apply coming_in, list_elem_of_filter in He as [Hr Hin].
  rewrite E in Hs. destruct Hs as (-> & bs & fs & Hall & Hst & ->).
  assert (Hnext : ∀ x, x ∈ ahead dir bs fs → precedes dir e.1 x.1).
  { pose proof Hord as Ho. rewrite Hall in Ho. apply ordered_app in Ho as (_ & Hf & Hb). intros x Hx. destruct dir; simpl in *.
    - rewrite elem_of_reverse in Hx. apply (Hb x e Hx). left.
    - apply StronglySorted_inv in Hf as [_ Hf]. rewrite Forall_forall in Hf. by apply Hf. }
  split_and!; try done.
  - rewrite Hall. apply item_get_hit. pose proof Hord as Ho. rewrite Hall in Ho. eapply ordered_below; [exact Ho|]. apply key_lt_irrefl.
  - intros k Hk Hp. destruct (item_get k all) as [p|] eqn:Ep; [|done]. apply item_in in Ep.
    assert (Hc : (k, p) ∈ coming dir lk) by (by apply coming_in, list_elem_of_filter). rewrite E in Hc. apply elem_of_cons in Hc as [<-|Hc].
    + by destruct (precedes_irrefl dir k).
    + apply Hnext in Hc. destruct (precedes_irrefl dir k). by etrans.
Qed.

(** The key [k] is the first one from the last key on, apart from keys without a value. *)
Definition first_key (dir : IterDirection) (lk : LastKey) (view : bytes → option bytes) (k : bytes) : Prop :=
  reaches dir lk k ∧ ∀ k', reaches dir lk k' → precedes dir k' k → view k' = None.

Definition committed (k : bytes) (v : option bytes) : option (bytes * bytes) + bytes :=
  match v with Some value => inl (Some (k, value)) | None => inr k end.
Lemma merge_overlay dir ck cv bk bv : precedes dir ck bk →
  merge_next dir (Some (ck, cv)) (Some (bk, bv)) = (committed ck cv, Some (mkPending (Some (bk, bv)) dir)).
Proof. intros H. unfold merge_next. destruct dir; simpl in H; [by rewrite (proj2 (bytes_cmp_gt _ _) H)|by rewrite H]. Qed.
Lemma merge_backend dir ck cv bk bv : precedes dir bk ck → merge_next dir (Some (ck, cv)) (Some (bk, bv)) = (inl (Some (bk, bv)), None).
Proof. intros H. unfold merge_next. destruct dir; simpl in H; [by rewrite H|by rewrite (proj2 (bytes_cmp_gt _ _) H)]. Qed.
Lemma merge_both dir k cv bv : merge_next dir (Some (k, cv)) (Some (k, bv)) = (committed k cv, None).
Proof. unfold merge_next. rewrite bytes_cmp_refl. by destruct dir. Qed.

Definition result_key (dir : IterDirection) (r : option (bytes * bytes) + bytes) : LastKey :=
  match r with inr k | inl (Some (k, _)) => LKAt k | inl None => end_key dir end.
(** What a round of the iterator establishes. *)
Definition merged (dir : IterDirection) (lk : LastKey) (overlay : list CommitOverlay) (c : Z) (st : Stack)
    (r : option (bytes * bytes) + bytes) (pend : option PendingBackend) : Prop :=
  (∀ dir', offers dir' st pend (coming dir' (result_key dir r))) ∧ (r = inl None → pend = Some (mkPending None dir)) ∧
  match r with
  | inl o => first_seen dir lk (seen overlay c) o
  | inr k => is_Some (tree_overlay overlay c !! k) ∧ seen overlay c k = None ∧ first_key dir lk (seen overlay c) k
  end.

Section merge.
Context (dir : IterDirection) (lk : LastKey) (overlay : list CommitOverlay) (c : Z) (nb : option (bytes * bytes)) (st : Stack).
Context (Hs : steps dir nb st (coming dir lk)).
Abbreviation ov := (tree_overlay overlay c).
Abbreviation merged := (merged dir lk overlay c st).

Lemma merged_commit k v id pend : ov !! k = Some (id, v) → first_key dir lk (seen overlay c) k →
  (∀ dir', offers dir' st pend (coming dir' (LKAt k))) → merged (committed k v) pend.
Proof.
  intros Hk Hf Ho. assert (Hv : seen overlay c k = v) by (unfold seen; by rewrite Hk).
  destruct v as [v|]; (split; [exact Ho|split; [done|]]); simpl; [destruct Hf; by split_and!|]. split_and!; [by rewrite Hk|done|exact Hf].
Qed.

Lemma seen_tree k : ov !! k = None → seen overlay c k = snd <$> item_get k all.
Proof. intros H. unfold seen. by rewrite H. Qed.

(** Nothing is seen before the first keys of the overlay and of the tree. *)
Lemma nothing_before k ck :
  (∀ k', is_Some (ov !! k') → reaches dir lk k' → k' = ck ∨ precedes dir ck k') → (k = ck ∨ precedes dir k ck) →
  (∀ k', reaches dir lk k' → precedes dir k' k → item_get k' all = None) →
  ∀ k', reaches dir lk k' → precedes dir k' k → seen overlay c k' = None.
Proof.
  intros Hov Hk Htree k' Hr Hp. rewrite seen_tree; [by rewrite Htree|].
  apply eq_None_not_Some. intros Hin. assert (precedes dir k' ck) by (destruct Hk as [->|]; [done|by etrans]).
  destruct (Hov k' Hin Hr) as [->|H']; [by destruct (precedes_irrefl dir ck)|]. destruct (precedes_irrefl dir k'). by etrans.
Qed.

Lemma merge_next_spec : let '(r, pend) := merge_next dir (next_commit dir lk overlay c) nb in merged r pend.
Proof.
  pose proof (next_commit_spec dir lk overlay c) as Hc. assert (Hcase : coming dir lk = [] ∨ ∃ e next', coming dir lk = e :: next') by (destruct (coming dir lk); eauto).
  destruct (next_commit dir lk overlay c) as [[ck cv]|], Hcase as [En|(e & next' & En)].
  - destruct Hc as ((id & Hck) & Hr & Hmin). pose proof Hs as Hs'; rewrite En in Hs'. destruct Hs' as [-> _]. apply (merged_commit _ _ id); [done|split; [done|]|].
    + eapply nothing_before; [exact Hmin|by left|]. intros. by eapply coming_nil.
    + apply offers_skip with lk; [done|done|]. rewrite En. intros x []%elem_of_nil.
  - destruct Hc as ((id & Hck) & Hr & Hmin). destruct (coming_first _ _ _ _ _ _ En Hs) as (Hre & -> & Hget & Hnext & Hbefore).
    destruct (precedes_cases dir ck e.1) as [Hp|[->|Hp]].
    + unfold shown. rewrite merge_overlay by done. apply (merged_commit _ _ id); [done|split; [done|]|].
      * eapply nothing_before; [exact Hmin|by left|]. intros k' Hk' Hkp. apply Hbefore; [done|]. by etrans.
      * apply offers_skip with lk; [done..|]. rewrite En. intros x [->|Hx]%elem_of_cons; [done|]. etrans; [done|]. by apply Hnext.
    + unfold shown. rewrite merge_both. apply (merged_commit _ _ id); [done|split; [done|]|].
      * by eapply nothing_before; [exact Hmin|left|].
      * by eapply offers_entry.
    + unfold shown. rewrite merge_backend by done. split; [by eapply (offers_entry dir lk e)|]. split; [done|]. split_and!; [done| |].
      * rewrite seen_tree, Hget; [done|]. apply eq_None_not_Some. intros Hin. destruct (Hmin _ Hin Hre) as [Heq|Hx]; [rewrite Heq in Hp; by destruct (precedes_irrefl dir ck)|].
        destruct (precedes_irrefl dir ck). by etrans.
      * eapply nothing_before; [exact Hmin|by right|done].
  - pose proof Hs as Hs'; rewrite En in Hs'. destruct Hs' as [-> ->]. split; [apply offers_end|]. split; [done|]. intros k' Hk'.
    rewrite seen_tree; [by erewrite coming_nil|]. apply eq_None_not_Some. intros Hin. by apply (Hc k').
  - destruct (coming_first _ _ _ _ _ _ En Hs) as (Hre & -> & Hget & Hnext & Hbefore).
    assert (Hno : ∀ k, reaches dir lk k → ov !! k = None) by (intros k Hk; apply eq_None_not_Some; intros Hin; by apply (Hc k)).
    split; [by eapply (offers_entry dir lk e)|]. split; [done|]. split_and!; [done| |].
    + by rewrite seen_tree, Hget by auto.
    + intros k' Hk' Hp. rewrite seen_tree, Hbefore by auto. done.
Qed.
End merge.

(** ** A step of the iterator *)
(** The entries of the overlay that can still be skipped. *)
Definition overlay_ahead (dir : IterDirection) (lk : LastKey) (ov : gmap bytes (Z * option bytes)) : gmap bytes (Z * option bytes) :=
  filter (λ p, reaches dir lk p.1) ov.
Lemma overlay_ahead_skip dir lk k ov : is_Some (ov !! k) → reaches dir lk k → (size (overlay_ahead dir (LKAt k) ov) < size (overlay_ahead dir lk ov))%nat.
Proof.
  intros [v Hv] Hr. apply map_subset_size. split.
  - apply map_subseteq_spec. intros k' v' [Hk' Hp]%map_lookup_filter_Some. apply map_lookup_filter_Some. split; [done|]. simpl in *.
    apply reaches_at in Hp. by eapply reaches_after.
  - intros Hsub. assert (Hk : overlay_ahead dir lk ov !! k = Some v) by (by apply map_lookup_filter_Some).
    apply (lookup_weaken _ _ _ _ Hk), map_lookup_filter_Some in Hsub as [_ Hp%reaches_at]. by destruct (precedes_irrefl dir k).
Qed.

Lemma first_seen_skip dir lk view k o : first_key dir lk view k → view k = None → first_seen dir (LKAt k) view o → first_seen dir lk view o.
Proof.
  intros [Hr Hbefore] Hk Ho. assert (Hno : ∀ k', reaches dir lk k' → (precedes dir k k' → view k' = None) → view k' = None).
  { intros k' Hk' Hafter. destruct (precedes_cases dir k' k) as [|[->|]]; auto. }
  destruct o as [[k2 v]|]; simpl in *.
  - destruct Ho as (Hk2%reaches_at & Hv & Hrest). split_and!; [by eapply reaches_after|done|]. intros k' Hk' Hp. apply Hno; [done|].
    intros Hkk'. apply Hrest; [by apply reaches_at|done].
  - intros k' Hk'. apply Hno; [done|]. intros Hkk'. apply Ho. by apply reaches_at.
Qed.

(** The iterator after a round. *)
Definition after_round (it : BTreeIterator) (t : BTree) (st : Stack) (pend : option PendingBackend) (lk : LastKey) : BTreeIterator :=
  mkIterator t (mkIterState st (current_record it)) (bi_col it) pend lk.
Definition ready (it : BTreeIterator) : Prop := iter_ok it ∧ ∀ dir, usable dir it.

Lemma round_ready dir lk overlay it t st r pend : tree_walk t → bt_record_id t = current_record it →
  merged dir lk overlay (bi_col it) st r pend → ready (after_round it t st pend (result_key dir r)).
Proof.
  intros Ht Hrec (Hoff & Hend & _). split.
  - split; [done|]. intros _. split; [done|]. intros dir' _. apply Hoff.
  - intros dir'. destruct r as [[[k v]|]|k]; [by right; left| |by right; left]. destruct dir; [|by right; left].
    right. right. split; [done|]. simpl. by apply Hend.
Qed.

Lemma iter_inner_spec overlay dir : ∀ fuel it, iter_ok it → usable dir it →
  (size (overlay_ahead dir (bi_last_key it) (tree_overlay overlay (bi_col it))) < fuel)%nat →
  ∃ o it', iter_inner junk col log fuel overlay dir it = (Ok o, it') ∧
    first_seen dir (bi_last_key it) (seen overlay (bi_col it)) o ∧ ready it' ∧ bi_col it' = bi_col it ∧
    bi_last_key it' = result_key dir (inl o).
Proof.
  induction fuel as [|fuel IH]; intros it Hok Hu Hsz; [lia|]. cbn [iter_inner]. mrun. change (id it) with it.
  destruct (backend_spec it dir Hok Hu) as (nb & t & st & E & Ht & Hrec & Hs). mstep E. fold (next_commit dir (bi_last_key it) overlay (bi_col it)).
  pose proof (merge_next_spec dir (bi_last_key it) overlay (bi_col it) nb st Hs) as Hm.
  destruct (merge_next dir (next_commit dir (bi_last_key it) overlay (bi_col it)) nb) as [r pend].
  assert (Ep : (match pend with Some _ => modify (set_pending pend) | None => mret tt end) (at_stack it t st) = (Ok tt, after_round it t st pend (bi_last_key it)))
    by (by destruct pend). mstep Ep. pose proof (round_ready _ _ _ _ _ _ _ _ Ht Hrec Hm) as Hready. destruct r as [o|k].
  - eexists o, _. mrun. split; [reflexivity|]. split; [apply Hm|]. destruct o as [[k v]|]; (split; [exact Hready|done]).
  - mrun. destruct Hm as (_ & _ & Hin & Hk & Hf). destruct Hready as [Hok' Hu'].
    destruct (IH (after_round it t st pend (LKAt k)) Hok' (Hu' dir)) as (o & it' & E' & Ho & Hr' & Hcol & Hlk).
    { simpl. pose proof (overlay_ahead_skip dir (bi_last_key it) k _ Hin (proj1 Hf)). simpl in *. lia. }
    exists o, it'. split; [exact E'|]. split_and!; try done. by eapply first_seen_skip.
Qed.

Lemma iterator_step overlay dir it : iter_ok it → usable dir it →
  ∃ o it', (match dir with Forward => iterator_next junk col log overlay it | Backward => iterator_prev junk col log overlay it end) = (Ok o, it') ∧
    first_seen dir (bi_last_key it) (seen overlay (bi_col it)) o ∧ ready it' ∧ bi_col it' = bi_col it ∧ bi_last_key it' = result_key dir (inl o).
Proof.
  intros Hok Hu. assert (Hf : (size (overlay_ahead dir (bi_last_key it) (tree_overlay overlay (bi_col it))) < iter_fuel overlay (bi_col it))%nat).
  { unfold iter_fuel, tree_overlay. destruct (overlay !! Z.to_nat (bi_col it)) as [o|]; [|unfold overlay_ahead; rewrite map_filter_empty, map_size_empty; lia].
    apply Nat.lt_succ_r, map_subseteq_size, map_filter_subseteq. }
  destruct (iter_inner_spec overlay dir _ it Hok Hu Hf) as (o & it' & E & H). exists o, it'. split; [|exact H].
  destruct dir; [unfold iterator_prev|unfold iterator_next]; mrun; exact E.
Qed.

(** ** Seeking *)
Record iter_tree (it : BTreeIterator) : Prop := {
  it_record : is_record_id (bi_iter it) = bt_record_id (bi_tree it);
  it_walk : bt_record_id (bi_tree it) = current_record it → tree_walk (bi_tree it);
}.
Lemma iter_ok_tree it : iter_ok it → iter_tree it.
Proof. intros [Hrec Hplace]. split; [done|]. intros H. by destruct (Hplace H). Qed.

Lemma seek_backend_spec s it : iter_tree it →
  ∃ t st, seek_backend junk col log s (current_record it) it = (Ok tt, mkIterator t (mkIterState st (current_record it)) (bi_col it) (bi_pending it) (bi_last_key it)) ∧
    tree_walk t ∧ bt_record_id t = current_record it ∧ placed junk col log D all st (last_of s).
Proof.
  intros [Hrec Hwalk]. unfold seek_backend. mrun. change (id it) with it. destruct (decide (bt_record_id (bi_tree it) = current_record it)) as [Hr|Hr].
  - rewrite bool_decide_false by naive_solver. mrun. destruct (IterState_seek_spec junk col log D all _ s (is_state (bi_iter it)) (Hwalk Hr) Hord) as (st & Es & Hp).
    exists (bi_tree it), st. split_and!; try done; [|by auto]. unfold on_stack. rewrite Es. unfold set_stack. by rewrite Hrec, Hr.
  - rewrite bool_decide_true by (by apply not_eq_sym). destruct (Hopen (current_record it)) as (t & Eo & Ht).
    destruct (IterState_seek_spec junk col log D all t s (is_state (bi_iter it)) Ht Hord) as (st & Es & Hp).
    exists t, st. split_and!; try done; [|by apply open_record in Eo]. unfold reopen. rewrite !M_bind_assoc. mlift Eo. mrun.
    unfold on_stack. simpl. by rewrite Es.
Qed.

Lemma placed_ready s it t st : tree_walk t → bt_record_id t = current_record it → placed junk col log D all st (last_of s) →
  ready (after_round it t st None (last_of s)).
Proof.
  intros Ht Hrec Hp. split.
  - split; [done|]. intros _. split; [done|]. intros dir _. eexists _, _. split; [exact Hp|done].
  - intros dir. right. left. by destruct s.
Qed.

Lemma iterator_seek_spec key it : iter_tree it →
  ∃ it', iterator_seek junk col log key it = (Ok tt, it') ∧ ready it' ∧ bi_last_key it' = LKSeeked key ∧ bi_col it' = bi_col it.
Proof.
  intros [Hrec Hwalk]. destruct (seek_backend_spec (SeekInclude key) (set_pending None (set_last_key (LKSeeked key) it))) as (t & st & E & Ht & Hr & Hp); [by split|].
  eexists. unfold iterator_seek. mrun. split; [exact E|]. split; [|done]. by apply (placed_ready (SeekInclude key) it).
Qed.

(** Seeking to the end does not clear the pending entry, so it needs that there is none. *)
Lemma seek_to_last_spec it : iter_tree it → bi_pending it = None →
  ∃ it', seek_to_last junk col log it = (Ok tt, it') ∧ ready it' ∧ bi_last_key it' = LKEnd ∧ bi_col it' = bi_col it.
Proof.
  intros [Hrec Hwalk] Hpend. destruct (seek_backend_spec SeekLast (set_last_key LKEnd it)) as (t & st & E & Ht & Hr & Hp); [by split|].
  eexists. unfold seek_to_last. mrun. split; [exact E|]. simpl. rewrite Hpend. split; [|done]. by apply (placed_ready SeekLast it).
Qed.

Lemma iterator_new_spec c : ∃ it, BTreeIterator_new junk col log c = Ok it ∧ iter_ok it ∧ bi_last_key it = LKStart ∧ bi_col it = c ∧ bi_pending it = None.
Proof.
  destruct (Hopen (LogOverlays_last_record_id log c)) as (t & Eo & Ht). unfold BTreeIterator_new. rewrite Eo. cbn [mbind outcome_bind].
  eexists. split; [reflexivity|]. split; [|done]. split; [done|]. intros _. split; [done|]. intros dir Hu. exists all, all. split; [done|].
  unfold coming. destruct dir; [destruct Hu as [|[|[_ ?]]]; done|]. simpl. by rewrite reached_all by (by apply Forall_forall).
Qed.

(** ** Iterating to the end *)
Fixpoint iterate (fuel : nat) (overlay : list CommitOverlay) (dir : IterDirection) : M BTreeIterator (list (bytes * bytes)) :=
  match fuel with
  | O => lift NoFuel
  | S fuel' =>
      o ← (match dir with Forward => iterator_next junk col log overlay | Backward => iterator_prev junk col log overlay end);
      match o with
      | Some x => l ← iterate fuel' overlay dir; mret (x :: l)
      | None => mret []
      end
  end.

(** The keys that can have a value. *)
Definition keys_ahead (overlay : list CommitOverlay) (c : Z) (dir : IterDirection) (lk : LastKey) : gset bytes :=
  filter (λ k, reaches dir lk k) (dom (tree_overlay overlay c) ∪ list_to_set all.*1).
Lemma seen_key overlay c k v : seen overlay c k = Some v → k ∈ dom (tree_overlay overlay c) ∪ (list_to_set all.*1 : gset bytes).
Proof.
  unfold seen. destruct (tree_overlay overlay c !! k) eqn:E; intros H; [apply elem_of_union_l; by apply elem_of_dom|].
  destruct (item_get k all) as [p|] eqn:Ep; [|done]. apply elem_of_union_r, elem_of_list_to_set, list_elem_of_fmap. exists (k, p). split; [done|]. by apply item_in.
Qed.

Lemma keys_ahead_size overlay c dir lk : (size (keys_ahead overlay c dir lk) ≤ length all + size (tree_overlay overlay c))%nat.
Proof.
  clear Hopen Hord.
  assert (Hunion : ∀ X Y : gset bytes, (size (X ∪ Y) ≤ size X + size Y)%nat).
  { intros X Y. rewrite size_union_alt. apply Nat.add_le_mono_l, subseteq_size. set_solver. }
  assert (Hl : ∀ l : list bytes, (size (list_to_set l : gset bytes) ≤ length l)%nat).
  { induction l as [|x l IH]; [done|]. rewrite list_to_set_cons. etrans; [apply Hunion|]. rewrite size_singleton. simpl. lia. }
  unfold keys_ahead. etrans; [apply subseteq_size; intros x Hx; by apply elem_of_filter in Hx as [_ ?]|]. etrans; [apply Hunion|].
  rewrite size_dom. specialize (Hl all.*1). rewrite length_fmap in Hl. lia.
Qed.

Lemma iterate_spec overlay dir : ∀ fuel it, iter_ok it → usable dir it → (size (keys_ahead overlay (bi_col it) dir (bi_last_key it)) < fuel)%nat →
  ∃ l it', iterate fuel overlay dir it = (Ok l, it') ∧ StronglySorted (λ x y, precedes dir x.1 y.1) l ∧
    ∀ k v, (k, v) ∈ l ↔ reaches dir (bi_last_key it) k ∧ seen overlay (bi_col it) k = Some v.
Proof.
  induction fuel as [|fuel IH]; intros it Hok Hu Hsz; [lia|]. cbn [iterate].
  destruct (iterator_step overlay dir it Hok Hu) as (o & it1 & E & Ho & [Hok1 Hu1] & Hcol & Hlk). 
  assert (E' : (match dir with Forward => iterator_next junk col log overlay | Backward => iterator_prev junk col log overlay end) it = (Ok o, it1)) by (by destruct dir).
  mstep E'. destruct o as [[k v]|]; [|].
  - destruct Ho as (Hr & Hk & Hfirst). simpl in Hlk.
    destruct (IH it1 Hok1 (Hu1 dir)) as (l & it' & El & Hsort & Hin); rewrite Hcol, Hlk in *.
    { assert (Hlt : keys_ahead overlay (bi_col it) dir (LKAt k) ⊂ keys_ahead overlay (bi_col it) dir (bi_last_key it)); [|apply subset_size in Hlt; lia].
      unfold keys_ahead. split; [intros x [Hx%reaches_at Hx']%elem_of_filter; apply elem_of_filter; split; [by eapply reaches_after|done]|].
      intros Hsub. assert (Hk' : k ∈ keys_ahead overlay (bi_col it) dir (bi_last_key it)) by (apply elem_of_filter; split; [done|by eapply seen_key]).
      apply Hsub, elem_of_filter in Hk' as [?%reaches_at _]. by destruct (precedes_irrefl dir k). }
    exists ((k, v) :: l), it'. mstep El. split; [done|]. split.
    + constructor; [done|]. apply Forall_forall. intros [k' v'] Hk'. apply Hin in Hk' as [Hk'%reaches_at _]. done.
    + intros k' v'. rewrite elem_of_cons, Hin, reaches_at. split.
      * intros [[= -> ->]|[Hp Hs]]; [done|]. split; [by eapply reaches_after|done].
      * intros [Hr' Hs]. destruct (precedes_cases dir k k') as [|[->|Hp]]; [by right|left; congruence|]. by rewrite Hfirst in Hs.
  - exists [], it1. split; [done|]. split; [constructor|]. intros k v. rewrite elem_of_nil. split; [done|]. intros [Hr Hs]. simpl in Ho. by rewrite Ho in Hs.
Qed.
End cursor.
