(* ===== verification/BTreeIterTheorems.v ===== *)
(** * Iterators over tree columns: the theorems

    A tree column in the sense of [tree_holds] can be walked by an iterator, so the theorems on
    iterators hold of every tree column. *)

From stdpp Require Import sorting.
From iris.proofmode Require Import proofmode.
From S2P Require Import Prelude IndexEntry IndexChunk Log Stats IndexTable ValueEntry File ValueTable ValueSlots ValueChains ValueRead ValueInv ValueSpec ValueTheorems Compress Options Column ColumnTables ColumnValues ColumnTheorems KeyOrder Commit Db BTreeItems BTreeNode BTree BTreeShape BTreeCodec BTreeLogic BTreeStore BTreeRep BTreeOps BTreeChange BTreeRoot BTreeRead BTreeColumn BTreeTheorems BTreeIter BTreeWalk BTreeCursor.

Lemma weave_cons l1 ls e es : length ls = S (length es) → weave (l1 :: ls) (e :: es) = l1 ++ e :: weave ls es.
Proof. by destruct ls. Qed.

Section bridge.
Context (junk : bytes) (Hjunk : length junk = MAX_ENTRY_BUF_SIZE) `{HC : Compressors} `{HL : LogQuery L} (c : BTreeTable) {K : nat} (HK : Z.of_nat K < 2 ^ 32).
Context {log : L} {h : store} (Ht : tree_values (bt_id c) (bt_ref_counted c) (bt_tables c) log h).
Abbreviation comp := (bt_compression c).
Abbreviation subtree := (subtree comp K).
Abbreviation children d := (subtree d (ORDER / 2)).
Abbreviation body d := (body comp K (children d)).

(** A separator that is read as an entry. *)
Definition reads_entry (k : SeparatorInner) (e : item) : Prop :=
  si_key k = e.1 ∧ ∃ tier, get_at_value_index junk (QFetch false) (si_value k) log c = Ok (Some (tier, e.2.2)).

Lemma body_lists d cr : ∀ ks cs l, (body d ks cs l ∗ True)%I h cr →
  ∃ ls es, l = weave ls es ∧ length ls = S (length es) ∧ Forall2 reads_entry ks es ∧
    ∀ i lm, ls !! i = Some lm → ∃ oc, cs !! i = Some oc ∧ (children d oc lm ∗ True)%I h cr.
Proof.
  induction ks as [|k ks IH]; intros cs l H.
  - destruct cs as [|oc [|]]; try (destruct H as (h1 & h2 & cx & cy & _ & _ & _ & [] & _)). exists [l], []. split_and!; try done.
    + unfold weave, after. simpl. by rw app_nil_r.
    + intros [|i] lm Hi; [|done]. injection Hi as <-. by exists oc.
  - destruct cs as [|oc cs]; [by destruct H as (h1 & h2 & cx & cy & _ & _ & _ & [] & _)|].
    assert (H' : (∃ l1 e l2 w, ⟦l = l1 ++ e :: l2 ∧ si_key k = e.1 ∧ v_key w = [] ∧ reading comp w = Some e.2⟧ ∗
      (si_value k ↦ w ∗ (children d oc l1 ∗ (body d ks cs l2 ∗ True))))%I h cr).
    { revert H. apply hp_at. iIntros "[H HT]". iDestruct "H" as (l1 e l2) "(-> & Hc & He & H)". iDestruct "He" as (w) "(Ha & %Hx)".
      destruct Hx as (? & _ & _ & ? & ?). iExists l1, e, l2, w. by iFrame. }
    destruct H' as (l1 & e & l2 & w & [(-> & Hk & Hwk & Hr) HP]%holds_pure).
    assert (Hb : (body d ks cs l2 ∗ True)%I h cr) by (revert HP; apply hp_at; iIntros "(_ & _ & $)").
    destruct (IH cs l2 Hb) as (ls & es & -> & Hlen & Hes & Hls). exists (l1 :: ls), (e :: es). split_and!.
    + by rw weave_cons.
    + simpl. by rw Hlen.
    + constructor; [|done]. split; [done|]. eexists. unfold get_at_value_index. rw (values_get junk Hjunk Ht comp (QFetch false) (si_value k) w) //.
      * cbn [query_hit]. destruct (reading_plain (r := locked c) w _ Hr) as [Hp _]. change (tr_compression (locked c)) with comp in Hp. by rw Hp.
      * by eapply points_to_lookup.
    + intros [|i] lm Hi; [|by apply Hls]. injection Hi as <-. exists oc. split; [done|]. revert HP. apply hp_at. iIntros "(_ & $ & _)".
Qed.

Lemma shape_reads n ks cs es : shape n (Some <$> ks) cs → Forall2 reads_entry ks es → node_reads junk c log n es.
Proof.
  intros Hs Hes. pose proof (Forall2_length _ _ _ Hes) as Hlen. pose proof (sh_seps_len Hs) as Hmax. rw length_fmap in Hmax. split.
  - by rw -Hlen.
  - intros i e He. destruct (Forall2_lookup_r _ _ _ _ _ Hes He) as (k & Hk & Hkey & tier & Hv).
    destruct (sep_lookup Hs i k Hk) as (a & b & -> & Ha & Hs'). exists (si_value k), tier. split_and!; [by rw (separator_address_spec Hs'); rw ?length_fmap| |done].
    destruct (sep_at Hs' (i := i)) as (s & Es & Ho); [by rw length_fmap|]. unfold separator_key. rw (arr_get_ok _ _ _ Es). cbn [mbind outcome_bind]. by rw Ho /= Hkey.
  - intros i Hi. pose proof (has_separator_full Hs i ltac:(lia)) as Hh. unfold has_separator, separator_address in *. rw bool_decide_false in Hh; [|lia].
    destruct (arr_get i (nd_separators n)) as [s| | |]; try done. cbn [mbind outcome_bind] in *. by destruct (sp_sep s).
  - intros i Hi. rw -Hlen. by apply (has_separator_full Hs).
  - rw (last_separator_index_spec Hs) -Hlen. case_bool_decide; [by subst|]. destruct ks; [done|]. simpl. lia.
  - intros key. destruct (position_spec Hs key) as (a & b & -> & Ep & Ha & Hb). apply Forall2_app_inv_l in Hes as (ea & eb & Hea & Heb & ->).
    pose proof (Forall2_length _ _ _ Hea) as Hla. exists (length a). split_and!.
    + rw length_app. lia.
    + rw Ep. rw lookup_app_r; [|lia]. rw Hla Nat.sub_diag. destruct Heb as [|k e b eb [Hk _] _]; [done|]. simpl. by rw Hk.
    + rw Hla take_app_length. apply Forall_forall. intros e He. apply list_elem_of_lookup in He as [i Hi].
      destruct (Forall2_lookup_r _ _ _ _ _ Hea Hi) as (k & Hk & Hkey & _). rw -Hkey. by eapply (Forall_lookup_1 _ _ _ _ Ha Hk).
    + intros e He. rw lookup_app_r in He; [|lia]. rw Hla Nat.sub_diag in He. destruct Heb as [|k e' b eb [Hk _] _]; [done|]. injection He as ->.
      rw -Hk. by apply Hb.
Qed.

Lemma node_walkable d : ∀ n ks cs l cr, shape n (Some <$> ks) cs → (body d ks cs l ∗ True)%I h cr → walkable junk c log d n l.
Proof.
  induction d as [|d IH]; intros n ks cs l cr Hs H; destruct (body_lists _ _ _ _ _ H) as (ls & es & -> & Hlen & Hes & Hls);
    apply walkable_in; exists ls, es; (split; [done|]); (split; [by eapply shape_reads|]); (split; [done|]); intros i lm Hi;
    destruct (Hls i lm Hi) as (oc & Hoc & HP); simpl.
  - by destruct HP as (h1 & h2 & cx & cy & _ & _ & _ & [_ [_ ->]] & _).
  - destruct (stored_in junk Hjunk HK (r := locked c) Ht _ _ _ _ _ HP) as (a & ks' & cs' & n' & -> & Ha & E & En & Hs' & HB'). exists n'. split; [|by eapply IH].
    apply list_elem_of_split_length in Hoc as (c1 & c2 & -> & Hc1). unfold fetch_child. destruct (kid_at Hs (eq_sym Hc1)) as (x & Ex & Hx).
    rw (arr_get_ok _ _ _ Ex). cbn [mbind outcome_bind]. rw Hx. unfold get_encoded_entry. change (tr_compression (locked c)) with comp in *. rw E. cbn [mbind outcome_bind]. by rw En.
Qed.

Lemma tree_walkable d l cr : (tree (K := K) (r := locked c) d l ∗ True)%I h cr →
  ordered l ∧ ∀ rid, ∃ t, BTree_open junk (locked c) log rid (bt_tables c) = Ok t ∧ tree_walk junk c log d l t.
Proof.
  intros H. destruct (tree_header junk Hjunk (r := locked c) Ht d l cr H) as (root & Hk & Hl & HP & E). split; [done|]. intros rid. unfold BTree_open. rw E. cbn [mbind outcome_bind bh_root bh_depth].
  eexists. split; [done|]. split; [done|]. cbn [bt_root_index]. destruct root as [a|]; simpl in Hk |- *.
  - assert (Ha : a ≠ NULL_ADDRESS) by (unfold wf_address, NULL_ADDRESS in *; lia). rw bool_decide_false //. simpl. unfold fetch_root. rw bool_decide_false //.
    destruct (stored_in junk Hjunk HK (r := locked c) Ht _ _ _ _ _ HP) as (a' & ks & cs & n & [= <-] & _ & Ev & En & Hs & HB'). exists n. split; [|by eapply node_walkable].
    unfold get_encoded_entry. rw Ev. cbn [mbind outcome_bind]. done.
  - exists Node_default. split; [done|]. destruct HP as (h1 & h2 & cx & cy & _ & _ & _ & [_ [-> ->]] & _).
    apply walkable_in. exists [[]], []. split; [done|]. split; [eapply (shape_reads _ [] [None]); [apply default_shape|constructor]|]. split; [done|].
    intros [|i] lm Hi; [|done]. by injection Hi as <-.
Qed.
End bridge.

Lemma column_walkable `{HC : Compressors} `{HL : LogQuery L} junk c (log : L) K d l : length junk = MAX_ENTRY_BUF_SIZE → Z.of_nat K < 2 ^ 32 → tree_holds c log K d l →
  ordered l ∧ ∀ rid, ∃ t, BTree_open junk (locked c) log rid (bt_tables c) = Ok t ∧ tree_walk junk c log d l t.
Proof.
  intros Hj HK (h & Hv & Ht). apply (tree_walkable junk Hj c HK Hv d l 0%nat). exists h, ∅, 0%nat, 0%nat. rw right_id_L. split_and!; try done. apply map_disjoint_empty_r.
Qed.

(** ** Logs that answer alike *)
Lemma table_view `{HL : LogQuery L} `{HL' : LogQuery L'} t (log : L) (log' : L') kl vals :
  (∀ i, value_entry log' (vt_id t) i = value_entry log (vt_id t) i) → table_inv t log kl vals → table_inv t log' kl vals.
Proof.
  intros Hv (H & slots & fl & []). exists H, slots, fl. split; try done. intros i c Hc. destruct (ts_repr i c Hc) as (Hi & Hw & Hs). split; [exact Hi|]. split; [exact Hw|].
  unfold slot_has in *. by rw Hv.
Qed.
Lemma tree_view `{HC : Compressors} `{HL : LogQuery L} `{HL' : LogQuery L'} c (log : L) (log' : L') K d l :
  (∀ t i, value_entry log' t i = value_entry log t i) → tree_holds c log K d l → tree_holds c log' K d l.
Proof.
  intros Hv (h & (vs & [] & Hh) & Ht). exists h. split; [|exact Ht]. exists vs. split; [|exact Hh]. split; try done. intros tier t m Et Em.
  eapply (table_view t log); [done|by eapply tt_inv].
Qed.

(** A tree column after the changes of a record have been logged. *)
Definition logged_tree (changes : list Change) : BTreeTable * LogOverlays :=
  let '(c, w) := grown_tree changes in (c, end_record_overlays (change w) (overlays w)).
Lemma logged_tree_holds changes : Forall (ok_change (B := node_size 8) (K := 8)) changes → (length changes < 100)%nat →
  ∃ d l, tree_holds (HC := toy) (logged_tree changes).1 (logged_tree changes).2 8 d l ∧
    ∀ key, item_get key l = key_steps true (key_changes key changes) None.
Proof.
  intros Hok Hlen. destruct (grown_tree_holds changes Hok Hlen) as (d & l & Ht & Hg). exists d, l. split; [|exact Hg]. unfold logged_tree.
  destruct (grown_tree changes) as [c w]. eapply (tree_view c w); [|exact Ht]. intros t i. apply (end_record_view w t i).
Qed.
Definition one_overlay (m : gmap bytes (Z * option bytes)) : list CommitOverlay := replicate 2 CommitOverlay_new ++ [mkOverlay ∅ m].

(** ** Steps *)

(** C9. A step of an iterator over a tree column, in either direction, returns the first key from
    the last key on that has a value for a reader, with this value, where a change that is
    committed but not logged yet hides the entry of the tree; it returns nothing only if there
    is no such key.  Keys that such a change has removed are passed over.  After the step the
    iterator is in place for a step in either direction, also if a record is logged in
    between. *)
Theorem iterator_step_is_next `{HC : Compressors} junk col log K d l overlay dir it :
  length junk = MAX_ENTRY_BUF_SIZE → Z.of_nat K < 2 ^ 32 → tree_holds col log K d l →
  iter_ok junk col log d l it → usable log dir it →
  ∃ o it', (match dir with Forward => iterator_next junk col log overlay it | Backward => iterator_prev junk col log overlay it end) = (Ok o, it') ∧
    first_seen dir (bi_last_key it) (seen l overlay (bi_col it)) o ∧ bi_last_key it' = result_key dir (inl o) ∧
    iter_ok junk col log d l it' ∧ (∀ dir', usable log dir' it').
Proof.
  intros Hj HK Ht Hok Hu. destruct (column_walkable junk col log K d l Hj HK Ht) as [Hord Hopen].
  destruct (iterator_step junk col log d l Hord Hopen overlay dir it Hok Hu) as (o & it' & E & Ho & [Hok' Hu'] & _ & Hlk). by exists o, it'.
Qed.

Lemma iterator_step_is_next_witness : ∃ d l it o it',
  tree_holds (HC := toy) (logged_tree nine_keys).1 (logged_tree nine_keys).2 8 d l ∧
  BTreeIterator_new (H := toy) zeros (logged_tree nine_keys).1 (logged_tree nine_keys).2 2 = Ok it ∧
  iterator_next (H := toy) zeros (logged_tree nine_keys).1 (logged_tree nine_keys).2 (one_overlay {[[byte_of 1] := (7, None)]}) it = (Ok o, it') ∧
  first_seen Forward LKStart (seen l (one_overlay {[[byte_of 1] := (7, None)]}) 2) o.
Proof.
  destruct (logged_tree_holds nine_keys) as (d & l & Ht & _); [repeat constructor; simpl; lia|simpl; lia|].
  destruct (column_walkable (HC := toy) (HL := LogQuery_overlays) zeros _ _ 8 d l zeros_length ltac:(lia) Ht) as [Hord Hopen].
  destruct (iterator_new_spec (HC := toy) zeros _ _ d l Hopen 2) as (it & Enew & Hok & Hlk & Hcol & _).
  destruct (iterator_step_is_next (HC := toy) zeros _ _ 8 d l (one_overlay {[[byte_of 1] := (7, None)]}) Forward it zeros_length ltac:(lia) Ht Hok (or_introl eq_refl))
    as (o & it' & E & Ho & _). exists d, l, it, o, it'. rw Hlk Hcol in Ho. exact (conj Ht (conj Enew (conj E Ho))).
Defined.

(** ** Iterating over a column *)

(** The place a whole iteration starts from. *)
Definition seek_to_end `{Compressors} (junk : bytes) (col : BTreeTable) (log : LogOverlays) (dir : IterDirection) : M BTreeIterator unit :=
  match dir with Forward => seek_to_first junk col log | Backward => seek_to_last junk col log end.

Lemma reaches_end dir key : reaches dir (match dir with Forward => LKSeeked [] | Backward => LKEnd end) key.
Proof. destruct dir; [done|]. simpl. unfold bytes_le. by destruct key. Qed.

(** C21. Iterating over a tree column ends and lists it: a new iterator that is sent to the first
    entry and then asked for the next one until there is none, or to the last entry and asked
    for the previous one, returns every key that has a value for a reader, once, in increasing
    or in decreasing order, with this value.  The number of steps is at most one more than the
    number of entries of the tree and of the overlay. *)
Theorem iteration_lists_column `{HC : Compressors} junk col log K d l overlay c dir :
  length junk = MAX_ENTRY_BUF_SIZE → Z.of_nat K < 2 ^ 32 → tree_holds col log K d l →
  ∃ it0 it1 entries it2, BTreeIterator_new junk col log c = Ok it0 ∧ seek_to_end junk col log dir it0 = (Ok tt, it1) ∧
    iterate junk col log (S (length l + size (tree_overlay overlay c))) overlay dir it1 = (Ok entries, it2) ∧
    StronglySorted (λ x y, precedes dir x.1 y.1) entries ∧ ∀ key v, (key, v) ∈ entries ↔ seen l overlay c key = Some v.
Proof.
  intros Hj HK Ht. destruct (column_walkable junk col log K d l Hj HK Ht) as [Hord Hopen].
  destruct (iterator_new_spec junk col log d l Hopen c) as (it0 & Enew & Hok & _ & Hcol & Hp). pose proof (iter_ok_tree _ _ _ _ _ _ Hok) as Htree.
  assert (Hseek : ∃ it1, seek_to_end junk col log dir it0 = (Ok tt, it1) ∧ ready junk col log d l it1 ∧
    bi_last_key it1 = (match dir with Forward => LKSeeked [] | Backward => LKEnd end) ∧ bi_col it1 = bi_col it0).
  { destruct dir; [apply (seek_to_last_spec junk col log d l Hord Hopen it0 Htree Hp)|apply (iterator_seek_spec junk col log d l Hord Hopen [] it0 Htree)]. }
  destruct Hseek as (it1 & Eseek & [Hok1 Hu1] & Hlk & Hcol1). rw Hcol in Hcol1.
  destruct (iterate_spec junk col log d l Hord Hopen overlay dir (S (length l + size (tree_overlay overlay c))) it1 Hok1 (Hu1 dir)) as (entries & it2 & E & Hsort & Hin).
  { rw Hcol1. apply Nat.lt_succ_r, keys_ahead_size. }
  exists it0, it1, entries, it2. split_and!; try done. intros key v. rw Hin Hcol1 Hlk. split; [by intros [_ ?]|]. intros Hs. split; [apply reaches_end|done].
Qed.
Lemma iteration_lists_column_witness : ∃ d l it0 it1 entries it2,
  tree_holds (HC := toy) (logged_tree nine_keys).1 (logged_tree nine_keys).2 8 d l ∧
  BTreeIterator_new (H := toy) zeros (logged_tree nine_keys).1 (logged_tree nine_keys).2 2 = Ok it0 ∧
  seek_to_end (H := toy) zeros (logged_tree nine_keys).1 (logged_tree nine_keys).2 Backward it0 = (Ok tt, it1) ∧
  iterate (HC := toy) zeros (logged_tree nine_keys).1 (logged_tree nine_keys).2 (S (length l + 0)) (one_overlay ∅) Backward it1 = (Ok entries, it2) ∧
  ∀ n, 1 ≤ n ≤ 9 → ([byte_of n], [byte_of n]) ∈ entries.
Proof.
  destruct (logged_tree_holds nine_keys) as (d & l & Ht & Hg); [repeat constructor; simpl; lia|simpl; lia|].
  destruct (iteration_lists_column (HC := toy) zeros _ _ 8 d l (one_overlay ∅) 2 Backward zeros_length ltac:(lia) Ht) as (it0 & it1 & entries & it2 & E0 & E1 & E2 & _ & Hin).
  exists d, l, it0, it1, entries, it2. refine (conj Ht (conj E0 (conj E1 (conj E2 _)))). intros n Hn. apply Hin.
  change (snd <$> item_get [byte_of n] l = Some [byte_of n]). rw Hg. assert (Hc : n ∈ seqZ 1 9) by (apply elem_of_seqZ; lia).
  clear Hn. revert n Hc. apply Forall_forall. repeat constructor.
Defined.

(** ** Where an iterator goes wrong *)
Definition odd_keys : list Change := [OpSet [byte_of 1] [byte_of 1]; OpSet [byte_of 3] [byte_of 3]].
Definition overlay_with (n : Z) : list CommitOverlay := one_overlay {[[byte_of n] := (7, Some [byte_of n])]}.

Section trace.
Context (tree : BTreeTable * LogOverlays).
Abbreviation prev n := (iterator_prev (H := toy) zeros tree.1 tree.2 (overlay_with n)).
Abbreviation to_last := (seek_to_last (H := toy) zeros tree.1 tree.2).
(** Two steps back from the last entry, and then again from the last entry. *)
Definition last_twice : M BTreeIterator (list (option (bytes * bytes))) :=
  _ ← to_last; a ← prev 2; b ← prev 2; _ ← to_last; c ← prev 2; d ← prev 2; e ← prev 2; mret [a; b; c; d; e].
(** The first step of a new iterator, backward. *)
Definition new_backward : M BTreeIterator (list (option (bytes * bytes))) := a ← prev 4; mret [a].
Definition on_new (m : M BTreeIterator (list (option (bytes * bytes)))) : outcome (list (option bytes)) :=
  match BTreeIterator_new (H := toy) zeros tree.1 tree.2 2 with
  | Ok it => match (m it).1 with Ok l => Ok (option_map fst <$> l) | _ => Panic end
  | _ => Panic
  end.
End trace.

