(* ===== verification/Directory.v ===== *)
(** * Database directories (names of files in src/src/index.rs, table.rs, log.rs, display.rs)

    A directory is a finite map from file names to contents.  An open database keeps its files
    in its tables and its log; [sync_dir] puts them back under their names. *)

From Stdlib Require Import Ascii String.
From stdpp Require Import strings.
From S2P Require Import Prelude IndexEntry IndexChunk Log LogFiles Stats IndexTable ValueEntry File ValueTable Compress Options Column ColumnEnact Commit Db DbEnact BTreeNode BTree BTreeColumn.
#[local] Open Scope string_scope.

(** ** Names *)
(** [{:02}] *)
Definition pad2 (z : Z) : string := if bool_decide (z < 10) then "0" +:+ print z else print z.
(** [{byte:02x}] *)
Definition hex_digit (z : Z) : ascii := Ascii.ascii_of_nat (Z.to_nat (if bool_decide (z < 10) then 48 + z else 87 + z)).
Fixpoint HexDisplay_fmt (b : bytes) : string :=
  match b with
  | [] => ""
  | x :: b' => String (hex_digit (byte_val x / 16)) (String (hex_digit (byte_val x mod 16)) (HexDisplay_fmt b'))
  end.

Definition index_prefix (col : Z) : string := "index_" +:+ pad2 col +:+ "_".
Definition table_prefix (col : Z) : string := "table_" +:+ pad2 col +:+ "_".
Definition index_file_name (id : Z) : string := index_prefix (TableId_col id) +:+ print (TableId_index_bits id).
Definition table_file_name (id : Z) : string := table_prefix (TableId_col id) +:+ HexDisplay_fmt [byte_of (ValueTableId_size_tier id)].
Definition log_file_name (id : Z) : string := "log" +:+ print id.
(** [name.starts_with(..)] *)
Definition index_is_file_name (col : Z) (name : string) : bool := String.prefix (index_prefix col) name.
Definition table_is_file_name (col : Z) (name : string) : bool := String.prefix (table_prefix col) name.
(** Is a file a table of a column? *)
Definition is_column_file (col : Z) (name : string) : bool := index_is_file_name col name || table_is_file_name col name.

(** The number of a log file. *)
Definition log_id (name : string) : option Z :=
  match name with
  | String a (String b (String c rest)) =>
      if bool_decide (String a (String b (String c "")) = "log") then parse_uint (2 ^ 32 - 1) rest else None
  | _ => None
  end.

(** ** Contents *)
Inductive FileData := Bytes (b : bytes) | Index (m : IndexMap) | Text (s : string).
Abbreviation Dir := (gmap string FileData).

Definition dir_metadata (d : Dir) : option string := match d !! "metadata" with Some (Text s) => Some s | _ => None end.
Definition dir_table (d : Dir) (col : Z) (tier : nat) : option bytes :=
  match d !! table_file_name (TableId_new col (Z.of_nat tier)) with Some (Bytes b) => Some b | _ => None end.
Definition dir_index (d : Dir) (col bits : Z) : option IndexMap :=
  match d !! index_file_name (TableId_new col bits) with Some (Index m) => Some m | _ => None end.
Definition dir_logs (d : Dir) : list (Z * bytes) :=
  omap (λ '(name, f), match log_id name, f with Some id, Bytes b => Some (id, b) | _, _ => None end) (map_to_list d).

(** ** The files of an open database *)
Definition index_files (t : IndexTable) : list (string * FileData) :=
  match it_map t with Some m => [(index_file_name (it_id t), Index m)] | None => [] end.
Definition table_files (t : ValueTable) : list (string * FileData) :=
  match tf_file (vt_file t) with Some b => [(table_file_name (vt_id t), Bytes b)] | None => [] end.
Definition column_files (c : ColumnOf BTreeTable) : list (string * FileData) :=
  match c with
  | Hash c => ((hc_index c :: hc_queue c) ≫= index_files) ++ (hc_value c ≫= table_files)
  | Tree t => bt_tables t ≫= table_files
  end.
Definition db_files (d : DbInner BTreeTable) : Dir :=
  list_to_map ((db_columns d ≫= column_files) ++ ((λ '(id, b), (log_file_name id, Bytes b)) <$> map_to_list (lg_disk (db_log d)))).

(** Logs and index tables are removed while a database is open. *)
Definition is_volatile (name : string) : bool := bool_decide (is_Some (log_id name)) || String.prefix "index_" name.
Definition sync_dir (d : DbInner BTreeTable) (dir : Dir) : Dir := db_files d ∪ filter (λ p, negb (is_volatile p.1)) dir.

(** ** Opening and closing *)
Section directory.
Context `{Compressors} `{Hashes} `{Hex}.
Context (x86 : bool) (junk : bytes) (crc32 : bytes → Z).
Context (order_index : gmap Z IndexLogOverlay → index_items) (order_value : gmap Z ValueLogOverlay → value_items).
Abbreviation Db := (DbInner BTreeTable).
#[local] Instance tree_column : TreeColumn BTreeTable := btree_column junk.

(** [Db::open] and [Db::open_or_create] on a path; nothing is there for [None]. *)
Definition open_dir (create : bool) (o : Options) (random : bytes) (dir : option Dir) : outcome (Db * Dir) :=
  match dir, create with
  | None, false => Err DatabaseNotFound
  | _, _ =>
      let dir := default ∅ dir in
      let logs := dir_logs dir in
      '(d, meta) ← Db_open crc32 create o random (dir_metadata dir) (fst <$> logs) (list_to_map logs) (dir_table dir) (dir_index dir);
      let dir := match meta with Some s => <["metadata" := Text s]> dir | None => dir end in
      Ok (d, sync_dir d dir)
  end.

(** Dropping a database: the workers end and [kill_logs] finishes what is queued; its error is
    only reported. *)
Definition close_dir (d : Db) (dir : Dir) : Dir := sync_dir (Db_kill_logs x86 junk crc32 order_index order_value d).2 dir.
End directory.
