(* ===== verification/Migration.v ===== *)
(** * Migration between column configurations (src/src/migration.rs)

    [migrate] copies a database to another one with other column options: a column whose options
    stay the same is copied as files, the entries of the others are inserted again, read from
    the index of the source.  With [overwrite] each column is moved back to the source as soon
    as it has been copied. *)

From Stdlib Require Import Ascii String.
From stdpp Require Import strings.
From S2P Require Import Prelude IndexEntry IndexChunk Log LogFiles Stats IndexTable ValueEntry File ValueTable Compress Options Column ColumnEnact Commit Db DbEnact BTreeNode BTree BTreeColumn Directory.
#[local] Open Scope string_scope.

Definition COMMIT_SIZE : Z := 10240.

(** No format asks for a migration. *)
Definition columns_to_migrate (m : Metadata) : gset Z := ∅.

(** ** Files of a column *)
Definition column_part (c : Z) (d : Dir) : Dir := filter (λ p, is_column_file c p.1) d.
Definition other_part (c : Z) (d : Dir) : Dir := filter (λ p, negb (is_column_file c p.1)) d.
(** The two directories after the files of a column have been copied or moved from the first to the second. *)
Definition deplace_column (c : Z) (copy : bool) (from to : Dir) : Dir * Dir :=
  (if copy then from else other_part c from, column_part c from ∪ to).

(** ** The state of a migration *)
Record MigrateState := mkMigrate {
  mg_from : option Dir;                       (* the path of the source *)
  mg_to : option Dir;                         (* the path of the destination *)
  mg_source : option (DbInner BTreeTable);    (* the open databases *)
  mg_dest : option (DbInner BTreeTable);
  mg_options : Options;                       (* the options of the source *)
  mg_commit : CommitChangeSet;
  mg_nb_commit : Z;
}.
Definition set_source (dir : option Dir) (d : option (DbInner BTreeTable)) (s : MigrateState) : MigrateState :=
  mkMigrate dir (mg_to s) d (mg_dest s) (mg_options s) (mg_commit s) (mg_nb_commit s).
Definition set_dest (dir : option Dir) (d : option (DbInner BTreeTable)) (s : MigrateState) : MigrateState :=
  mkMigrate (mg_from s) dir (mg_source s) d (mg_options s) (mg_commit s) (mg_nb_commit s).
Definition set_source_options (o : Options) (s : MigrateState) : MigrateState :=
  mkMigrate (mg_from s) (mg_to s) (mg_source s) (mg_dest s) o (mg_commit s) (mg_nb_commit s).
Definition set_commit (c : CommitChangeSet) (n : Z) (s : MigrateState) : MigrateState :=
  mkMigrate (mg_from s) (mg_to s) (mg_source s) (mg_dest s) (mg_options s) c n.
Definition empty_commit : CommitChangeSet := mkChangeSet [] [].

Section migration.
Context `{Compressors} `{Hashes} `{Hex}.
Context (x86 : bool) (junk : bytes) (crc32 : bytes → Z).
Context (order_index : gmap Z IndexLogOverlay → index_items) (order_value : gmap Z ValueLogOverlay → value_items).
Abbreviation Db := (DbInner BTreeTable).
Abbreviation MG := (M MigrateState).

Definition get_db (o : option Db) : outcome Db := match o with Some d => Ok d | None => Panic end.
Definition get_dir (o : option Dir) : outcome Dir := match o with Some d => Ok d | None => Err (Io NotFound) end.

Definition open_source : MG unit :=
  s ← gets id; '(d, dir) ← lift (open_dir junk crc32 false (mg_options s) [] (mg_from s)); modify (set_source (Some dir) (Some d)).
Definition open_dest (to : Options) : MG unit :=
  s ← gets id; '(d, dir) ← lift (open_dir junk crc32 true to [] (mg_to s)); modify (set_dest (Some dir) (Some d)).
Definition drop_source : MG unit :=
  modify (λ s, match mg_source s, mg_from s with
               | Some d, Some dir => set_source (Some (close_dir x86 junk crc32 order_index order_value d dir)) None s
               | _, _ => s
               end).
Definition drop_dest : MG unit :=
  modify (λ s, match mg_dest s, mg_to s with
               | Some d, Some dir => set_dest (Some (close_dir x86 junk crc32 order_index order_value d dir)) None s
               | _, _ => s
               end).

(** Commit what has been collected; the collection starts again, the counter only after a success. *)
Definition commit_dest : MG unit :=
  s ← gets id;
  d ← lift (get_db (mg_dest s));
  let '(o, d') := commit_raw (mg_commit s) d in
  _ ← modify (λ s, set_commit empty_commit (mg_nb_commit s) (set_dest (mg_to s) (Some d') s));
  _ ← lift o;
  modify (set_commit empty_commit 0).

(** An error is only reported. *)
Definition succeeds (m : MG unit) : MG bool := λ s,
  match m s with
  | (Ok _, s') => (Ok true, s')
  | (Err _, s') => (Ok false, s')
  | (Panic, s') => (Panic, s')
  | (NoFuel, s') => (NoFuel, s')
  end.

(** [for _ in 0..rc]: the value is taken out by the first round, so the others set an empty one.
    The result is [false] when a commit has failed, which ends the iteration. *)
Fixpoint push_counted (rc : nat) (c : Z) (key value : bytes) : MG bool :=
  match rc with
  | O => mret true
  | S rc' =>
      s ← gets id;
      changes ← lift (entry_update c (mkIndexed c []) (λ cs, Ok (mkIndexed (is_col cs) (is_changes cs ++ [OpSet key value]))) (cs_indexed (mg_commit s)));
      let nb_commit := mg_nb_commit s + 1 in
      _ ← modify (set_commit (mkChangeSet changes (cs_btree (mg_commit s))) nb_commit);
      if bool_decide (nb_commit = COMMIT_SIZE) then
        ok ← succeeds commit_dest;
        if (ok : bool) then push_counted rc' c key [] else mret false
      else push_counted rc' c key []
  end.

(** [Db::iter_column_index_while] with the closure that collects the entries. *)
Definition insert_again (c : Z) : MG unit :=
  s ← gets id;
  source ← lift (get_db (mg_source s));
  match db_columns source !! Z.to_nat c with
  | None | Some (Tree _) => lift Panic
  | Some (Hash col) =>
      let f item (st : outcome bool * MigrateState) :=
        let '(o, s') := push_counted (Z.to_nat (iter_rc item)) c (iter_key item) (iter_value item) st.2 in
        (match o with Ok b => b | _ => false end, (o, s')) in
      '(o, s') ← lift (HashColumn_iter_index junk col (lg_overlays (db_log source)) f (Ok true, s));
      _ ← modify (λ _, s');
      _ ← lift o; mret tt
  end.

(** [overwrite]: bring the column that has been copied back to the source. *)
Definition move_back (to : Options) (salt : bytes) (c : Z) : MG unit :=
  _ ← commit_dest;
  _ ← drop_dest; _ ← open_dest to; _ ← drop_dest;
  _ ← drop_source;
  s ← gets id;
  from ← lift (get_dir (mg_from s));
  dest ← lift (get_dir (mg_to s));
  let '(from, tmp) := deplace_column c false from ∅ in
  let '(dest, from) := deplace_column c false dest from in
  match op_columns to !! Z.to_nat c with
  | None => lift Panic
  | Some o =>
      let options := mkOptions (<[Z.to_nat c := o]> (op_columns (mg_options s))) (op_sync_wal (mg_options s)) (op_sync_data (mg_options s))
                       (op_stats (mg_options s)) (op_salt (mg_options s)) (op_compression_threshold (mg_options s)) in
      let from := <["metadata" := Text (write_metadata_file_with_version options salt None)]> from in
      _ ← modify (λ s, set_source_options options (set_dest (Some dest) None (set_source (Some from) None s)));
      _ ← open_source; open_dest to
  end.

Definition copy_unchanged (to : Options) (c : Z) : MG unit :=
  _ ← drop_dest;
  s ← gets id;
  from ← lift (get_dir (mg_from s));
  dest ← lift (get_dir (mg_to s));
  let '(_, dest) := deplace_column c true from dest in
  _ ← modify (set_dest (Some dest) None);
  open_dest to.

Fixpoint migrate_columns (to : Options) (salt : bytes) (overwrite : bool) (to_migrate : gset Z) (cols : list Z) : MG unit :=
  match cols with
  | [] => mret tt
  | c :: cols' =>
      _ ← (if bool_decide (c ∈ to_migrate) then
             _ ← insert_again c;
             if overwrite then move_back to salt c else mret tt
           else if overwrite then mret tt
           else copy_unchanged to c);
      migrate_columns to salt overwrite to_migrate cols'
  end.

(** A column that can not be migrated, in the order of the set. *)
Fixpoint check_hash_columns (a b : list ColumnOptions) (cols : list Z) : outcome unit :=
  match cols with
  | [] => Ok tt
  | c :: cols' =>
      match a !! Z.to_nat c, b !! Z.to_nat c with
      | Some x, Some y =>
          if co_btree_index x || co_btree_index y
          then Err (Migration "Migrate only implemented for hash indexed column to hash indexed column")
          else check_hash_columns a b cols'
      | _, _ => Panic
      end
  end.

(** The columns whose options change. *)
Definition changed_columns (a b : list ColumnOptions) : gset Z :=
  list_to_set (filter (λ c, a !! Z.to_nat c ≠ b !! Z.to_nat c) (seqZ 0 (Z.of_nat (List.length a)))).

Definition migrate_body (to : Options) (overwrite : bool) (force_migrate : list Z) : MG unit :=
  s ← gets id;
  meta ← lift (load_metadata_file (mg_from s ≫= dir_metadata));
  match meta with
  | None => fail (Migration "Error loading source metadata")
  | Some source_meta =>
      let to_migrate := columns_to_migrate source_meta ∪ list_to_set force_migrate in
      if negb (bool_decide (List.length (md_columns source_meta) = List.length (op_columns to)))
      then fail (Migration "Source and dest columns mismatch")
      else
        let salt := md_salt source_meta in
        let to := mkOptions (op_columns to) (op_sync_wal to) (op_sync_data to) (op_stats to) (Some salt) (op_compression_threshold to) in
        let source_options := mkOptions (md_columns source_meta) true true true (Some salt) ∅ in
        _ ← modify (set_source_options source_options);
        _ ← open_source; _ ← open_dest to;
        let to_migrate := to_migrate ∪ changed_columns (op_columns source_options) (op_columns to) in
        _ ← lift (check_hash_columns (op_columns source_options) (op_columns to)
                    (filter (λ c, c ∈ to_migrate) (seqZ 0 256)));
        _ ← migrate_columns to salt overwrite to_migrate (seqZ 0 (Z.of_nat (List.length (md_columns source_meta))));
        commit_dest
  end.

(** The two paths after a migration; what is open is dropped at the end, also after an error. *)
Definition migrate (from : option Dir) (to_path : option Dir) (to : Options) (overwrite : bool) (force_migrate : list Z)
    : outcome unit * (option Dir * option Dir) :=
  let '(o, s) := migrate_body to overwrite force_migrate (mkMigrate from to_path None None to empty_commit 0) in
  let s := (drop_source (drop_dest s).2).2 in
  (o, (mg_from s, mg_to s)).

(** ** Clearing a column *)
Definition clear_column (path : option Dir) (column : Z) : outcome unit * option Dir :=
  match load_metadata_file (path ≫= dir_metadata) with
  | Err e => (Err e, path)
  | Panic => (Panic, path)
  | NoFuel => (NoFuel, path)
  | Ok None => (Err (Migration "Error loading source metadata"), path)
  | Ok (Some meta) =>
      if bool_decide (Z.of_nat (List.length (md_columns meta)) ≤ column)%Z then (Err (Migration "Invalid column index"), path)
      else
        match open_dir junk crc32 false (mkOptions (md_columns meta) true true true (Some (md_salt meta)) ∅) [] path with
        | Ok (d, dir) => (Ok tt, Some (other_part column (close_dir x86 junk crc32 order_index order_value d dir)))
        | Err e => (Err e, path)
        | Panic => (Panic, path)
        | NoFuel => (NoFuel, path)
        end
  end.
End migration.
