(* ===== verification/MigrationTheorems.v ===== *)
(** * Migration: the theorems

    The files of a column are told apart by their names, so clearing, copying or moving a column
    touches no other; and where a migration loses values. *)

From Stdlib Require Import Ascii String.
From stdpp Require Import strings.
From S2P Require Import Prelude IndexEntry IndexChunk Log LogFiles LogQueue Stats IndexTable ValueEntry File ValueTable ValueTheorems Compress Options Column ColumnEnact ColumnTables Commit CommitView Db DbEnact DbTheorems BTreeNode BTree BTreeColumn Directory Migration.
#[local] Open Scope string_scope.

(** ** Names *)
(** Two strings differ within the shorter one. *)
Fixpoint differs (p q : string) : bool :=
  match p, q with
  | String a p', String b q' => if bool_decide (a = b) then differs p' q' else true
  | _, _ => false
  end.
Lemma prefix_differs p q r : differs p q = true → String.prefix p (q +:+ r) = false.
Proof.
  revert q. induction p as [|a p IH]; intros [|b q]; simpl; try done. case_bool_decide as Hab; intros Hd.
  - subst. destruct (ascii_dec b b); [by apply IH|done].
  - by destruct (ascii_dec a b).
Qed.
Lemma differs_head a p b q : a ≠ b → differs (String a p) (String b q) = true.
Proof. intros H. simpl. by rewrite bool_decide_false. Qed.
Lemma prefix_app p r : String.prefix p (p +:+ r) = true.
Proof. induction p as [|a p IH]; simpl; [by destruct r|]. by destruct (ascii_dec a a). Qed.

Definition byte_range : list Z := seqZ 0 256.
Lemma in_byte_range z : 0 ≤ z < 256 → z ∈ byte_range.
Proof. intros. apply elem_of_seqZ. lia. Qed.

(** A number is written without the separator, and can be read back. *)
Fixpoint no_separator (s : string) : bool :=
  match s with
  | EmptyString => true
  | String a s' => negb (bool_decide (a = "_"%char)) && no_separator s'
  end.
Lemma separated_differ p q : no_separator p = true → no_separator q = true → p ≠ q → differs (p +:+ "_") (q +:+ "_") = true.
Proof.
  revert q. induction p as [|a p IH]; intros [|b q]; simpl; rewrite ?andb_true_iff, ?negb_true_iff, ?bool_decide_eq_false.
  - done.
  - intros _ [Hb _] _. by rewrite bool_decide_false.
  - intros [Ha _] _ _. by rewrite bool_decide_false.
  - intros [_ Hp] [_ Hq] Hne. case_bool_decide; [|done]. subst. apply IH; congruence.
Qed.
Definition pad2_ok (z : Z) : bool := no_separator (pad2 z) && bool_decide (parse_uint 255 (pad2 z) = Some z).
Lemma all_pad2_ok : forallb pad2_ok byte_range = true.
Proof. vm_compute. reflexivity. Qed.
Lemma pad2_is_ok z : 0 ≤ z < 256 → no_separator (pad2 z) = true ∧ parse_uint 255 (pad2 z) = Some z.
Proof.
  intros Hz. pose proof all_pad2_ok as H. rewrite forallb_forall in H. specialize (H z). rewrite <-list_elem_of_In in H.
  specialize (H (in_byte_range z Hz)). apply andb_prop in H. destruct H as [H1 H2]. by apply bool_decide_eq_true in H2.
Qed.
Lemma prefixes_differ c c' : 0 ≤ c < 256 → 0 ≤ c' < 256 → c ≠ c' →
  differs (table_prefix c) (table_prefix c') = true ∧ differs (index_prefix c) (index_prefix c') = true.
Proof.
  intros Hc Hc' Hne. destruct (pad2_is_ok c Hc) as [H1 H2]. destruct (pad2_is_ok c' Hc') as [H3 H4].
  assert (differs (pad2 c +:+ "_") (pad2 c' +:+ "_") = true) by (apply separated_differ; congruence). done.
Qed.

Lemma column_file_table c c' x : 0 ≤ c < 256 → 0 ≤ c' < 256 → 0 ≤ x < 256 → is_column_file c (table_file_name (TableId_new c' x)) = bool_decide (c = c').
Proof.
  intros Hc Hc' Hx. unfold is_column_file, table_file_name, index_is_file_name, table_is_file_name. rewrite TableId_col_new by (unfold in_range; lia).
  rewrite (prefix_differs (index_prefix c) (table_prefix c')) by done. destruct (decide (c = c')) as [->|Hne].
  - by rewrite prefix_app, bool_decide_true by done.
  - rewrite (prefix_differs (table_prefix c) (table_prefix c')) by (by apply prefixes_differ). by rewrite bool_decide_false.
Qed.
Lemma column_file_index c c' x : 0 ≤ c < 256 → 0 ≤ c' < 256 → 0 ≤ x < 256 → is_column_file c (index_file_name (TableId_new c' x)) = bool_decide (c = c').
Proof.
  intros Hc Hc' Hx. unfold is_column_file, index_file_name, index_is_file_name, table_is_file_name. rewrite TableId_col_new by (unfold in_range; lia).
  rewrite (prefix_differs (table_prefix c) (index_prefix c')) by done. rewrite orb_false_r. destruct (decide (c = c')) as [->|Hne].
  - by rewrite prefix_app, bool_decide_true by done.
  - rewrite (prefix_differs (index_prefix c) (index_prefix c')) by (by apply prefixes_differ). by rewrite bool_decide_false.
Qed.
Lemma column_file_other c a rest : "i"%char ≠ a → "t"%char ≠ a → is_column_file c (String a rest) = false.
Proof.
  intros Hi Ht. unfold is_column_file, index_is_file_name, table_is_file_name. change (String a rest) with (String a "" +:+ rest).
  rewrite !prefix_differs; [done|exact (differs_head "t" ("able_" +:+ (pad2 c +:+ "_")) a "" Ht)|exact (differs_head "i" ("ndex_" +:+ (pad2 c +:+ "_")) a "" Hi)].
Qed.

(** ** Clearing a column *)
Lemma other_part_lookup c d name : other_part c d !! name = if is_column_file c name then None else d !! name.
Proof.
  unfold other_part. destruct (is_column_file c name) eqn:E.
  - apply map_lookup_filter_None. right. intros x _. simpl. rewrite E. by intros [].
  - destruct (d !! name) as [f|] eqn:Ed; [apply map_lookup_filter_Some|apply map_lookup_filter_None; by left]. simpl. rewrite E. done.
Qed.
Lemma column_part_lookup c d name : column_part c d !! name = if is_column_file c name then d !! name else None.
Proof.
  unfold column_part. destruct (is_column_file c name) eqn:E.
  - destruct (d !! name) as [f|] eqn:Ed; [apply map_lookup_filter_Some|apply map_lookup_filter_None; by left]. simpl. rewrite E. done.
  - apply map_lookup_filter_None. right. intros x _. simpl. rewrite E. by intros [].
Qed.

(** What a directory holds for the columns other than [c], and of the log and the metadata. *)
Definition same_elsewhere (c : Z) (d d' : Dir) : Prop :=
  dir_metadata d' = dir_metadata d ∧ (∀ id, d' !! log_file_name id = d !! log_file_name id) ∧
  ∀ c', 0 ≤ c' < 256 → c' ≠ c →
    (∀ tier, (tier < 256)%nat → dir_table d' c' tier = dir_table d c' tier) ∧ (∀ bits, 0 ≤ bits < 256 → dir_index d' c' bits = dir_index d c' bits).
(** It holds no file of the column [c]. *)
Definition no_files (c : Z) (d : Dir) : Prop := (∀ tier, (tier < 256)%nat → dir_table d c tier = None) ∧ (∀ bits, 0 ≤ bits < 256 → dir_index d c bits = None).

Lemma same_elsewhere_by c d d' : 0 ≤ c < 256 → (∀ name, is_column_file c name = false → d' !! name = d !! name) → same_elsewhere c d d'.
Proof.
  intros Hc H. unfold same_elsewhere, dir_metadata, dir_table, dir_index. split_and!.
  - rewrite H; [done|by apply column_file_other].
  - intros id. apply H. by apply column_file_other.
  - intros c' Hc' Hne. split; intros x Hx; (rewrite H; [done|]); [rewrite column_file_table by lia|rewrite column_file_index by lia]; by rewrite bool_decide_false.
Qed.
Lemma other_part_spec c d : 0 ≤ c < 256 → same_elsewhere c d (other_part c d) ∧ no_files c (other_part c d).
Proof.
  intros Hc. split; [apply same_elsewhere_by; [done|]; intros name Hn; by rewrite other_part_lookup, Hn|].
  split; intros x Hx; unfold dir_table, dir_index; rewrite other_part_lookup; [rewrite column_file_table by lia|rewrite column_file_index by lia];
    by rewrite bool_decide_true.
Qed.

(** Copying or moving the files of a column, one directory after the other. *)
Lemma deplace_column_spec c copy from to : 0 ≤ c < 256 →
  let '(from', to') := deplace_column c copy from to in
  same_elsewhere c from from' ∧ same_elsewhere c to to' ∧ (if copy then from' = from else no_files c from') ∧
  (∀ tier f, (tier < 256)%nat → dir_table from c tier = Some f → dir_table to' c tier = Some f) ∧
  (∀ bits m, 0 ≤ bits < 256 → dir_index from c bits = Some m → dir_index to' c bits = Some m).
Proof.
  intros Hc. unfold deplace_column.
  assert (Hto : ∀ name, (column_part c from ∪ to) !! name = if is_column_file c name then from !! name ∪ to !! name else to !! name).
  { intros name. rewrite lookup_union, column_part_lookup. destruct (is_column_file c name); [done|]. by destruct (to !! name). }
  split_and!.
  - destruct copy; [by apply same_elsewhere_by|apply (other_part_spec c from Hc)].
  - apply same_elsewhere_by; [done|]. intros name Hn. by rewrite Hto, Hn.
  - destruct copy; [done|apply (other_part_spec c from Hc)].
  - intros tier f Ht Hf. unfold dir_table in *. rewrite Hto, column_file_table, bool_decide_true by (done || lia).
    destruct (from !! _) as [[]|]; try done. by rewrite union_Some_l.
  - intros bits m Hb Hf. unfold dir_index in *. rewrite Hto, column_file_index, bool_decide_true by (done || lia).
    destruct (from !! _) as [[]|]; try done. by rewrite union_Some_l.
Qed.

(** C39. Clearing a column removes its files and nothing else: when [clear_column] succeeds, the
    directory is the one that the database leaves when it is opened, all its logs enacted, and
    closed again, without the index and the value tables of the column; the tables of every
    other column, the logs and the metadata are the same. *)
Theorem clear_column_removes_one `{HC : Compressors} `{HX : Hex} x86 junk crc32 order_index order_value path c dir' :
  0 ≤ c < 256 → clear_column x86 junk crc32 order_index order_value path c = (Ok tt, Some dir') →
  ∃ meta d dir, load_metadata_file (path ≫= dir_metadata) = Ok (Some meta) ∧ c < Z.of_nat (List.length (md_columns meta)) ∧
    open_dir junk crc32 false (mkOptions (md_columns meta) true true true (Some (md_salt meta)) ∅) [] path = Ok (d, dir) ∧
    let closed := close_dir x86 junk crc32 order_index order_value d dir in same_elsewhere c closed dir' ∧ no_files c dir'.
Proof.
  intros Hc. unfold clear_column. destruct (load_metadata_file (path ≫= dir_metadata)) as [[meta|]| | |]; try done.
  case_bool_decide as Hlen; [done|]. destruct (open_dir _ _ _ _ _ _) as [[d dir]| | |] eqn:Eo; try done. intros [= <-].
  exists meta, d, dir. refine (conj eq_refl (conj _ (conj _ (other_part_spec c _ Hc)))); [lia|exact Eo].
Qed.

(** ** An instance: a column with reference counters *)
Definition counted_options : Options := mkOptions [mkColumnOptions true true true NoCompression false] true true false (Some (replicate 32 Byte.x00)) ∅.
Definition plain_options : Options := mkOptions [mkColumnOptions false true false NoCompression false] true true false None ∅.
Definition index_order (m : gmap Z IndexLogOverlay) : index_items := map_to_list ((λ x, map_to_list x) <$> m).
Definition value_order (m : gmap Z ValueLogOverlay) : value_items := map_to_list ((λ x, map_to_list x) <$> m).
Definition some_key : bytes := replicate 32 Byte.x01.

Section sample.
#[local] Existing Instance toy.
#[local] Existing Instance test_hashes.
#[local] Existing Instance toy_hex.
#[local] Existing Instance btree_column.

(** A new database in which the changes have been committed, closed. *)
Definition made_dir (o : Options) (tx : list (Z * Operation bytes bytes)) : Dir :=
  match open_dir zeros toy_crc true o [] None with
  | Ok (d, dir) => close_dir true zeros toy_crc index_order value_order (commit_changes tx d).2 dir
  | _ => ∅
  end.
(** The value of the key in a database. *)
Definition read_key (o : Options) (dir : option Dir) : outcome (option bytes) :=
  match open_dir zeros toy_crc false o [] dir with
  | Ok (d, _) => (Db_get (H := btree_column zeros) true zeros 0 some_key d).1
  | Err e => Err e
  | Panic => Panic
  | NoFuel => NoFuel
  end.
Definition twice : Dir := made_dir counted_options [(0, OpSet some_key [Byte.x07]); (0, OpSet some_key [Byte.x07])].
Definition migrated (to : Options) : outcome unit * (option Dir * option Dir) :=
  migrate true zeros toy_crc index_order value_order (Some twice) None to false [].
(** The result of a migration, and the value of the key in its destination. *)
Definition read_migrated (to : Options) : outcome unit * outcome (option bytes) :=
  let '(o, (_, dest)) := migrated to in (o, read_key to dest).
End sample.

(** Clearing the column of the instance. *)
Lemma clear_column_removes_one_witness : ∃ dir',
  clear_column (H := toy) (H1 := toy_hex) true zeros toy_crc index_order value_order (Some twice) 0 = (Ok tt, Some dir') ∧ no_files 0 dir'.
Proof.
  assert (match clear_column (H := toy) (H1 := toy_hex) true zeros toy_crc index_order value_order (Some twice) 0 with
          | (Ok tt, Some _) => true
          | _ => false
          end = true) as E by (vm_compute; reflexivity).
  destruct (clear_column _ _ _ _ _ _ _) as [[[]| | |] [dir'|]] eqn:Ec; try discriminate E. exists dir'. split; [reflexivity|].
  eapply clear_column_removes_one in Ec; [|lia]. destruct Ec as (? & ? & ? & ? & ? & ? & ? & Hn). exact Hn.
Defined.

